(* ===== verification/_CoqProject ===== *)
-Q . S2P
Prelude.v
Errors.v
Machine.v
Core.v
Options.v
Builtin.v
Slice.v
BinHeap.v
Contract.v
Logic.v
Priority.v
ContractFacts.v
Interface.v
SeqOrder.v
Fifo.v
FifoRefines.v
FifoFacts.v
Heap.v
HeapJournal.v
HeapRefines.v
HeapFacts.v
Queue.v
QueueFacts.v
QueueNew.v
Cbwfq.v
CbwfqFacts.v
CbwfqPull.v
CbwfqSafe.v
CbwfqFair.v
CbwfqOps.v
CbwfqQueue.v
QLock.v
Parker.v
ParkerFacts.v
Btree.v
BtreeOwn.v
BtreeRules.v
BtreeDelete.v
BtreeRemove.v
BtreeDescend.v
BtreeInsert.v
BtreeTree.v
BtreeAccess.v
BtreeInsertAt.v
BtreeFacts.v
BtreeKeyed.v
BtreeSorted.v
BtreeIter.v
BtreeFind.v
BtreeEdit.v
BtreeUpsert.v
BtreeMap.v
BtreeSnapshot.v
BtypeFifo.v
BtypeRefines.v
BtypeFacts.v
OrdTree.v
Ordered.v
OrderedIndex.v
OrderedOwn.v
OrderedRefines.v
OrderedFacts.v
Backings.v
Bolt.v
BboltKeys.v
Bbolt.v
BboltStore.v
BboltInv.v
BboltFind.v
BboltOps.v
BboltClose.v
BboltFlush.v
BboltReopen.v
BboltFacts.v
Witnesses.v
WitnessesQueue.v
WitnessesCbwfq.v
WitnessesLocks.v
WitnessesTrees.v
WitnessesBbolt.v
