(* ===== verification/Prelude.v ===== *)
(** * A verified model of the queue module

    The program (src/queue/) is a concurrent queue in Go with interchangeable backings and a scheduler
    over several queues. Its parts and how they interact:

    - package queue (queue.go, metrics.go, builtin.go, alias.go, backing_options.go): [Queue] checks
      arguments, counts telemetry and forwards every operation to a backing; constructors build the
      backings; [Number], [String], [Bytes] and [Value] are ready-made items;
    - internal/backings/core: what backings share - the Item and Backup interfaces, errors, options,
      the helpers that run caller code under the lock, the lock [QLock] and the wait signals;
    - internal/backings/fifo and heap: the in-memory backings, a sliding slice and a binary heap with a
      journal of its swaps; btree, btype and bbolt: the tree-based and the on-disk ones;
    - internal/parker: the wake primitive under the signals, on the runtime's gopark and goready;
    - cbwfq: a class-based weighted fair queuing scheduler over several queues.

    ** How code is modelled

    [Machine.v] is the machine: an operation is a function from a machine (shared state, the lock this
    goroutine holds, the outside world, the interference to come) to an outcome (it returns, unwinds out
    of caller code by panic or Goexit, faults on a misused lock, or is still parked) and a machine.
    Everything computes. Caller code (items' methods, hooks, side effects, backups) is an arbitrary
    function on the world that returns or unwinds. Other goroutines act where this one lets them: each
    acquisition of a free lock and each park consumes one element of the list of interference, an
    arbitrary function in [Machine.v], whole operations of the same object in the theorems. A loop
    [for { ... }] runs with as much fuel as there is interference and one trip more; every trip round
    parks, and parking consumes interference, so the fuel never ends a run by itself: a run is [Parked]
    only when nobody else does anything any more ([wp_forever] in [Logic.v] proves it for every loop that
    keeps an invariant). The loops over heaps have fuel bounded by an index that each trip shrinks.
    [Logic.v] has a weakest-precondition calculus for one program and one for two in lockstep, with the
    tactics that apply them.

    The two primitives below that level are modelled action by action instead, as transition systems
    whose every interleaving counts: [Parker.v] and [QLock.v]. The flusher of the on-disk backing is a
    goroutine of its own on the machine: the callers' operations are its interference, and it is theirs.

    What the theorems ask of the items, each asks by a class of [Core.v]. The safety of the slice and
    of the positional tree asks nothing: an item's methods may answer anything, panic, end the goroutine
    and change the world. What order their items come out in, and what is restored, asks for [PureItem],
    methods that return and leave the world alone. Those of the disk ask for [SteadyItem], a fixed answer whenever a method answers, and
    [HashLaw], equal items have equal hashes. Those of the heap and of the ordered tree ask for [PureItem],
    the first with [OrderLaws] ([Less] is a strict weak
    order), the second with [ItemLaws], which has [HashLaw] and, in a priority queue, [OrderLaws]; what a
    FIFO item's [Less] does is its own affair. The atomicity of the heap's Push and Pop needs none of them.

    Code that is not in the repository is a class of operations with a class of laws, and an instance
    that computes shows that the laws can be had: the ordered tree ([OrdTree.v], a sorted list), the store
    ([Bolt.v], a sorted list on a disk that fails at chosen writes), and for the on-disk backing the JSON
    functions and the platform (contexts, timers, the arms of a select).

    ** The files

    - [Errors.v], [Core.v], [Options.v], [Builtin.v]: core/errors.go; core/item.go, opoptions.go, run.go,
      signal.go, validate.go, seq.go; core/backingopts.go, backing_options.go, alias.go; builtin.go.
      [Options.v] shows that settings stay well formed whatever options are applied and that the
      constructors build the backing they should, [Builtin.v] that the items keep Item's obligations.
    - [Slice.v], [BinHeap.v], [Priority.v]: what Go slices, array heaps and stable insertion are.
    - [Contract.v]: the abstract specification. The contract of a backing as an executable queue whose
      contents are one list in delivery order; [ContractFacts.v] proves its invariant and what each
      operation does under any interference; [Interface.v] has the class [Implements] (operation by
      operation, a backing refines the contract) and carries the results over to every implementation. Its
      [Op], any operation, leaves out the copy-on-write iteration, which has theorems of its own.
    - [Fifo.v], [FifoRefines.v], [FifoFacts.v]: fifo/fifo.go, that it implements the FIFO contract, and
      what follows in its own terms. [Heap.v], [HeapJournal.v], [HeapRefines.v], [HeapFacts.v]: the same for
      heap/heap.go, with the journal's rollback proved for items whose Less may answer anything and
      unwind anywhere, and the refinement for items whose methods are pure and lawful.
    - [SeqOrder.v]: what the backings that number their items, or keep them in order of arrival, share.
    - [Btree.v]: btype/btype_btree.go, the positional copy-on-write tree, on a store of nodes with
      reference counts, as the backing uses it. [BtreeOwn.v], [BtreeRules.v]: who owns which node, and the
      rules of sharing and copying; [BtreeDelete.v], [BtreeRemove.v], [BtreeDescend.v], [BtreeInsert.v],
      [BtreeInsertAt.v]: the descents; [BtreeTree.v], [BtreeFacts.v]: whole trees and histories of
      operations on a tree and its copies. [BtreeAccess.v]: walking a tree that is only read, or whose
      nodes are made private on the way, by one class of rules for both, and reading by position.
      [BtreeSnapshot.v]: snapshots that an iteration reads while the tree changes.
    - [BtreeKeyed.v]: the rest of that file, which no backing calls: the operations by key, ReplaceAt, and
      every iteration with a body that computes on the store ([Btree.v] has the two that the backing runs,
      for any body on the machine). [BtreeSorted.v]: the reference, the place of a key in a sorted list,
      and which way a search turns at a branch; [BtreeIter.v], [BtreeFind.v]: the iterations and what
      reads by key; [BtreeEdit.v], [BtreeUpsert.v]: what writes by key; [BtreeMap.v]: histories, which
      answer as a sorted list does.
    - [BtypeFifo.v], [BtypeRefines.v], [BtypeFacts.v]: btype/btype_fifo.go over that tree, that it
      implements the contract, and what follows.
    - [OrdTree.v], [Ordered.v]: btree/btree.go over the third-party ordered tree, with the hash index.
      [OrderedIndex.v], [OrderedOwn.v]: the order, the index and the loops; [OrderedRefines.v],
      [OrderedFacts.v]: the contract, with and without the index, and what follows.
    - [Backings.v]: the tree backings restored from a backup under a queue, and the in-memory FIFO backings
      side by side; the same calls get the same answers.
    - [Bolt.v], [Bbolt.v]: bbolt/bbolt.go, the on-disk backing, FIFO and priority, over a transactional
      store. [BboltKeys.v]: the keys, and that their byte order is the order of delivery. [BboltStore.v],
      [BboltFind.v]: the hash index and what transactions do to the rows, what a search finds. [BboltInv.v]: the
      invariant, with a batch in the flusher's hands. [BboltOps.v],
      [BboltClose.v], [BboltFlush.v], [BboltReopen.v]: the callers' operations, the shutdown, the flusher
      and the constructor under it; [BboltFacts.v]: what the backing guarantees.
    - [Queue.v], [QueueFacts.v], [QueueNew.v]: queue.go and metrics.go over any backing that implements the
      contract: safety, Push and Pop, exact telemetry, whom an error is blamed on, construction and the
      clean-up of one that fails, restoring from a backup.
    - [Cbwfq.v]: cbwfq/cbwfq.go, signal.go, metrics.go over an interface of class queues ([ClassQueue] and
      its laws). [CbwfqFacts.v]: the steps under the scheduler's mutex while items arrive. [CbwfqPull.v]:
      one trip of Pull. [CbwfqSafe.v]: all operations among all others. [CbwfqFair.v]: Pull refines
      deficit weighted round robin on a queue of classes, no class starves, and a Pull among other
      operations is one turn of the state they led to. [CbwfqOps.v]: New and
      Push. [CbwfqQueue.v]: a [Queue] over any backing is a class queue.
    - [Parker.v], [ParkerFacts.v]: internal/parker/parker.go; no wakeup is lost, none goes astray, and
      recycled parkers are clean. [QLock.v]: core/qlock.go; exclusion, what WriteWanted means, and the
      case in which it misses a writer.
    - [Witnesses.v], [WitnessesQueue.v], [WitnessesCbwfq.v], [WitnessesLocks.v], [WitnessesTrees.v],
      [WitnessesBbolt.v]: the theorems at concrete inputs, and runs of the cases in
      which the code does not do what it means to.

    ** What the theorems show

    Safety: no operation of a backing, a queue or the scheduler misuses a lock, leaks one (Pull of the
    scheduler excepted, when caller code unwinds out of it: see the findings) or breaks its invariant,
    whatever other goroutines do. Function: exactly which items each operation adds, removes and returns,
    on every branch, with the contents untouched by whatever fails. Atomicity of the heap under failing
    comparisons. Equivalence of copy-on-write iteration with locked iteration, of the FIFO backings with
    each other, of an indexed backing with one that is not, of the tree with a list, and with a sorted list
    when it has a comparison. Round trips through a
    backup and through a restart. Refinement of round robin and its liveness. Termination of a Broadcast.
    On disk: a batch is in the store and counted as a whole, or not at all and its pushes are told so,
    however a flush ends; the flusher ends only with the backing closed and every batch settled.

    ** Bounds and approximations

    - Interference acts at acquisitions and parks only; code between them runs at once. That is sound for
      what a lock protects; the lock-free reads (Len of the scheduler, HasWaiters) happen at such points.
    - An integer that Go keeps in an int or int64 and the code only counts with is an unbounded [Z]; the
      heap's sequence number (uint64) too. [Builtin.v] keeps the 64-bit ranges, where they matter.
    - [sort.SliceStable] is the insertion sort it is on one block; any stable sort gives the same result.
    - Pop is modelled for n of at least 1, as Queue.Pop and the scheduler call it.
    - In [Cbwfq.v] what others do to a class queue while the mutex is held, or while a Push is inside it,
      is a list of pushes and closes per call; a Push into a full class queue parks in the model once
      these run out, since the Pulls that would make room are interference of the scheduler instead.
    - Spans, latency histograms and attribute sets of the telemetry hold no state that the program reads.

    - The trees and lists of a backing have no machine addresses but the numbers of a store: what is shared
      is shared there. The descents of the positional tree have fuel of the number of items, which is more
      than the height (a theorem bounds that by the logarithm); Insert and Set, which may search a branch
      twice, have twice that. Draining has a trip for each item and one more. Enough fuel is part of what
      the theorems prove: a tree that ran out of it would fault.
    - On disk the sequence numbers are 64-bit words and the store's law says that they do not run out; the
      priority is a 64-bit word for all its range. An update transaction of the flusher that falls into
      a caller's section under the lock takes its effect at the section's edge, which changes nothing that
      the section can see but the rows that are not counted yet, or comes between commit and count, which
      the theorems allow everywhere but before a Del (see the findings). Unlock and the signal after it,
      and the release of a snapshot of the positional tree, are one step.
    - What a recovered panic carries is not kept: an error made of it names the code that panicked.

    ** What is not modelled, and why

    - Of btype_btree.go the search within a node, a field that nothing in the repository fills in: it is a
      parameter, with the law that it finds the place of a key among sorted items. The string prefixes,
      which are there to speed such a search up, and the hooks that copy or release items, which are nil
      in the one tree the module makes.
    - Of bbolt.go the hook before the store is closed, the check of the dynamic type of the codec
      functions, the path and options of the store, and accessors for tests; of btree.go the hooks around
      an iteration.
    - Of metrics.go and cbwfq/metrics.go what creates instruments and spans and attaches attributes: the
      program never reads them.
    - The output of stringer; the helpers of builtin.go, alias.go and core/item.go that hand their arguments
      to encoding/json or to a constructor unchanged; the linkname of the compare-and-swap in
      internal/parker, which is one atomic action of [Parker.v]. *)

From stdpp Require Export base numbers list strings.
From Stdlib Require Export Lia ZArith.

(** * Shared automation *)

Create HintDb golist.

(** Splits hypotheses that are conjunctions or existentials, and pairs. *)
Ltac destruct_hyps :=
  repeat match goal with
  | H : _ ∧ _ |- _ => destruct H
  | H : ∃ _, _ |- _ => destruct H
  | p : (_ * _)%type |- _ => destruct p
  end.

(** One case split on the scrutinee of a [match] or an [if] of the goal. *)
Ltac split_match :=
  match goal with
  | |- context [match ?x with _ => _ end] =>
      lazymatch x with
      | context [match _ with _ => _ end] => fail
      | _ => destruct x eqn:?
      end
  end.

Ltac split_match_hyp H :=
  match type of H with
  | context [match ?x with _ => _ end] =>
      lazymatch x with
      | context [match _ with _ => _ end] => fail
      | _ => destruct x eqn:?
      end
  end.

(** Turns boolean tests on integers into propositions. *)
Ltac bool_to_prop :=
  repeat match goal with
  | H : (_ && _)%bool = true |- _ => apply andb_prop in H as [? ?]
  | H : (_ && _)%bool = false |- _ => apply andb_false_iff in H
  | H : (_ || _)%bool = true |- _ => apply orb_prop in H
  | H : (_ || _)%bool = false |- _ => apply orb_false_elim in H as [? ?]
  | H : (_ =? _)%Z = true |- _ => apply Z.eqb_eq in H
  | H : (_ =? _)%Z = false |- _ => apply Z.eqb_neq in H
  | H : (_ <? _)%Z = true |- _ => apply Z.ltb_lt in H
  | H : (_ <? _)%Z = false |- _ => apply Z.ltb_ge in H
  | H : (_ <=? _)%Z = true |- _ => apply Z.leb_le in H
  | H : (_ <=? _)%Z = false |- _ => apply Z.leb_gt in H
  | H : (_ =? _)%nat = true |- _ => apply Nat.eqb_eq in H
  | H : (_ =? _)%nat = false |- _ => apply Nat.eqb_neq in H
  | H : (_ <? _)%nat = true |- _ => apply Nat.ltb_lt in H
  | H : (_ <? _)%nat = false |- _ => apply Nat.ltb_ge in H
  | H : (_ <=? _)%nat = true |- _ => apply Nat.leb_le in H
  | H : (_ <=? _)%nat = false |- _ => apply Nat.leb_gt in H
  | H : negb _ = true |- _ => apply negb_true_iff in H
  | H : negb _ = false |- _ => apply negb_false_iff in H
  end.

(** * Machine integers *)

(** Go's [uint64] is an integer in [0, 2^64); arithmetic on it wraps. *)
Definition two64 : Z := 18446744073709551616.

Definition wrap64 (z : Z) : Z := (z mod two64)%Z.

Lemma wrap64_small z : (0 ≤ z < two64)%Z → wrap64 z = z.
Proof. intros. apply Z.mod_small. done. Qed.

Lemma wrap64_range z : (0 ≤ wrap64 z < two64)%Z.
Proof. apply Z.mod_pos_bound. done. Qed.

(** Length of a slice as a Go [int]. *)
Definition zlen {A} (l : list A) : Z := Z.of_nat (length l).

Lemma zlen_nonneg {A} (l : list A) : (0 ≤ zlen l)%Z.
Proof. unfold zlen. lia. Qed.

Lemma zlen_app {A} (l k : list A) : zlen (l ++ k) = (zlen l + zlen k)%Z.
Proof. unfold zlen. rewrite length_app. lia. Qed.

Lemma zlen_nil_iff {A} (l : list A) : zlen l = 0%Z ↔ l = [].
Proof. unfold zlen. destruct l; simpl; split; (done || lia). Qed.

Lemma zlen_cons {A} (x : A) l : zlen (x :: l) = (1 + zlen l)%Z.
Proof. unfold zlen. simpl. lia. Qed.

Lemma zlen_fmap {A B} (f : A → B) l : zlen (f <$> l) = zlen l.
Proof. unfold zlen. by rewrite length_fmap. Qed.

Create Rewrite HintDb golen.
#[export] Hint Rewrite @length_app @length_take @length_drop @length_replicate @length_fmap
  @length_insert : golen.

(** [s[i] = s[len(s)-1]; s = s[:len(s)-1]] takes out the element at [i]. *)
Lemma swap_remove_Permutation {A} (l : list A) i y z :
  l !! i = Some y → last l = Some z → take (length l - 1) (<[i := z]> l) ≡ₚ take i l ++ drop (S i) l.
Proof.
  intros Hi [l' ->]%last_Some.
  rewrite length_app, Nat.add_sub. destruct (decide (i = length l')) as [->|Hne].
  - rewrite insert_app_r_alt, Nat.sub_diag by done. simpl. rewrite take_app_length.
    rewrite drop_ge by (rewrite length_app; simpl; lia). by rewrite app_nil_r.
  - assert (i < length l') by (apply lookup_lt_Some in Hi; rewrite length_app in Hi; simpl in Hi; lia).
    rewrite insert_app_l, take_app_length' by (rewrite ?length_insert; lia).
    rewrite take_app_le, drop_app_le by lia. rewrite insert_take_drop by lia.
    apply Permutation_app_head, Permutation_cons_append.
Qed.

(** Of two elements with the same image, when the images have no duplicates. *)
Lemma NoDup_fmap_eq {A B} (f : A → B) (l : list A) x y :
  NoDup (f <$> l) → x ∈ l → y ∈ l → f x = f y → x = y.
Proof.
  intros Hnd (i & Hi)%list_elem_of_lookup (j & Hj)%list_elem_of_lookup Hf.
  assert (i = j) as -> by (eapply NoDup_lookup; [done|by rewrite list_lookup_fmap, Hi|];
    by rewrite list_lookup_fmap, Hj, Hf).
  congruence.
Qed.
