(* ===== verification/Errors.v ===== *)
(** Error values: the sentinels of core/errors.go, wrapping with [%w], [errors.Join] and
    [errors.Is], and the classification of an error that the queue's metrics record. *)

From S2P Require Import Prelude.

(** * Sentinels *)

(** One constructor per package-level error variable of core/errors.go (re-exported by alias.go),
    [ErrUnknownClass] of cbwfq/errors.go, and [ErrPermanent], the third-party sentinel
    [exponential.ErrPermanent] that [permanent] wraps. *)
Inductive sentinel :=
  | ErrPermanent
  | ErrEmpty
  | ErrClosed
  | ErrBadOption
  | ErrBatchTooLarge
  | ErrPriorityRequired
  | ErrPriorityNotAllowed
  | ErrCodecRequired
  | ErrOnAdmitUnsupported
  | ErrOnAdmitNotPush
  | ErrNilOnAdmit
  | ErrNilSideEffect
  | ErrOnAdmitFailed
  | ErrBackupFailed
  | ErrShutdownIncomplete
  | ErrShutdownInProgress
  | ErrCodecFailed
  | ErrSideEffectFailed
  | ErrItemFailed
  | ErrUnknownClass.

#[export] Instance sentinel_eq_dec : EqDecision sentinel.
Proof. solve_decision. Defined.

(** What a sentinel itself wraps: [permanent(msg)] wraps [exponential.ErrPermanent], and the named
    option errors wrap [ErrBadOption]. *)
Definition sentinel_wraps (s : sentinel) : option sentinel :=
  match s with
  | ErrClosed | ErrBadOption | ErrBatchTooLarge | ErrPriorityRequired | ErrPriorityNotAllowed
  | ErrShutdownInProgress => Some ErrPermanent
  | ErrCodecRequired | ErrOnAdmitUnsupported | ErrOnAdmitNotPush | ErrNilOnAdmit
  | ErrNilSideEffect => Some ErrBadOption
  | _ => None
  end.

(** [errors.Is] between two package-level sentinels: the chain is at most three long. *)
Definition sentinel_is (s t : sentinel) : bool :=
  bool_decide (s = t) ||
  match sentinel_wraps s with
  | None => false
  | Some s1 =>
      bool_decide (s1 = t) ||
      match sentinel_wraps s1 with
      | None => false
      | Some s2 => bool_decide (s2 = t)
      end
  end.

(** * Error values *)

Inductive err :=
  | Sentinel (s : sentinel)
  (** [fmt.Errorf] with one [%w] verb per element of [wrapped]; only the literal part of the
      message is kept. *)
  | Errorf (msg : string) (wrapped : list err)
  (** [errors.Join] of non-nil errors. *)
  | Joined (es : list err)
  (** An error value made by caller code; it may itself wrap others. *)
  | Foreign (id : Z) (wrapped : list err).

Coercion Sentinel : sentinel >-> err.

Section err_rect.
Variable P : err → Prop.
Hypothesis HS : ∀ s, P (Sentinel s).
Hypothesis HE : ∀ m es, Forall P es → P (Errorf m es).
Hypothesis HJ : ∀ es, Forall P es → P (Joined es).
Hypothesis HF : ∀ i es, Forall P es → P (Foreign i es).

Fixpoint err_nested_ind (e : err) : P e :=
  let go := fix go (es : list err) : Forall P es :=
    match es with
    | [] => Forall_nil_2 P
    | e :: es => Forall_cons_2 P e es (err_nested_ind e) (go es)
    end in
  match e with
  | Sentinel s => HS s
  | Errorf m es => HE m es (go es)
  | Joined es => HJ es (go es)
  | Foreign i es => HF i es (go es)
  end.
End err_rect.

(** [errors.Is(err, target)] for a sentinel target. *)
Fixpoint Is (e : err) (t : sentinel) : bool :=
  match e with
  | Sentinel s => sentinel_is s t
  | Errorf _ es => existsb (λ e, Is e t) es
  | Joined es => existsb (λ e, Is e t) es
  | Foreign _ es => existsb (λ e, Is e t) es
  end.

(** [errors.Join]: nil when every argument is nil, else the non-nil ones. *)
Definition Join (es : list (option err)) : option err :=
  match omap id es with
  | [] => None
  | es => Some (Joined es)
  end.

(** [WrapBackup] and [WrapCodec] tag an error; nil stays nil. *)
Definition WrapBackup (e : option err) : option err :=
  match e with
  | None => None
  | Some e => Some (Errorf "" [Sentinel ErrBackupFailed; e])
  end.

Definition WrapCodec (e : option err) : option err :=
  match e with
  | None => None
  | Some e => Some (Errorf "" [Sentinel ErrCodecFailed; e])
  end.

(** * The queue.error_kind attribute *)

Inductive errKind :=
  | errKindBackup
  | errKindCodec
  | errKindSideEffect
  | errKindOnAdmit
  | errKindItem
  | errKindQueue
  | errKindUnwind.

Definition errorKind (e : err) : errKind :=
  if Is e ErrBackupFailed then errKindBackup
  else if Is e ErrCodecFailed then errKindCodec
  else if Is e ErrSideEffectFailed then errKindSideEffect
  else if Is e ErrOnAdmitFailed then errKindOnAdmit
  else if Is e ErrItemFailed then errKindItem
  else errKindQueue.

(** The five sentinels that name a body of caller code. *)
Definition caller_sentinels : list sentinel :=
  [ErrBackupFailed; ErrCodecFailed; ErrSideEffectFailed; ErrOnAdmitFailed; ErrItemFailed].

(** * Lemmas *)

Lemma Is_Join es t :
  match Join es with None => existsb (λ e, Is e t) (omap id es) = false
                   | Some j => Is j t = existsb (λ e, Is e t) (omap id es) end.
Proof. unfold Join. by destruct (omap id es). Qed.

Lemma errorKind_queue_iff e :
  errorKind e = errKindQueue ↔ Forall (λ s, Is e s = false) caller_sentinels.
Proof.
  unfold errorKind, caller_sentinels. rewrite !Forall_cons, Forall_nil.
  repeat case_match; split; intros; destruct_and?; try done; congruence.
Qed.
