(* ===== verification/Machine.v ===== *)
(** The machine the queue operations run on: one goroutine executing an operation on a shared
    backing, the lock it holds ([QLock]), the outside world that caller-supplied code acts on, and
    the interference of other goroutines at each point where this one holds no lock.

    An operation denotes a function from the machine to an outcome and a machine, so everything
    computes. *)

From S2P Require Import Prelude Errors.

Declare Scope go_scope.
Delimit Scope go_scope with go.
Open Scope go_scope.

(** * Caller code and outcomes *)

(** The two ways caller code ends a frame without returning. *)
Inductive unwind := Panicked | Goexited.

Inductive result (A : Type) :=
  | Ok (a : A)
  | Unw (u : unwind).
Arguments Ok {A} a.
Arguments Unw {A} u.

(** A body of caller-supplied code: it acts on the world and returns or unwinds. It has no access
    to the queue ("must not call methods on the same queue"). *)
Definition code (W A : Type) : Type := W → result A * W.

(** How an operation ends: it returns; it unwinds out of caller code; it faults (a release of a
    lock that is not held, or an acquisition by the goroutine that already holds it); or it is
    still parked in a wait when the interference runs out. *)
Inductive outcome (A : Type) :=
  | Done (a : A)
  | Unwound (u : unwind)
  | Fatal
  | Parked.
Arguments Done {A} a.
Arguments Unwound {A} u.
Arguments Fatal {A}.
Arguments Parked {A}.

(** What this goroutine holds of the queue's read-write lock. *)
Inductive lockmode := Unlocked | RLocked | WLocked.

(** [menv] is the interference: what other goroutines do to the backing and the world, one element
    per window in which this goroutine lets them in. *)
Record mach (B W : Type) := Mach {
  mb : B;
  mlk : lockmode;
  mw : W;
  menv : list (B → W → B * W);
}.
Arguments Mach {B W} _ _ _ _.
Arguments mb {B W} _.
Arguments mlk {B W} _.
Arguments mw {B W} _.
Arguments menv {B W} _.

Definition go (B W A : Type) : Type := mach B W → outcome A * mach B W.

#[export] Instance go_ret {B W} : MRet (go B W) := λ A a s, (Done a, s).
#[export] Instance go_bind {B W} : MBind (go B W) := λ A C k m s,
  match m s with
  | (Done a, s') => k a s'
  | (Unwound u, s') => (Unwound u, s')
  | (Fatal, s') => (Fatal, s')
  | (Parked, s') => (Parked, s')
  end.

(** [if err := x; err != nil { bad } ; rest] *)
Notation "'iferr' e := x 'then' bad 'else' rest" :=
  (mbind (λ o, match o with Some e => bad | None => rest end) x)
  (at level 10, e name, x at level 100, bad at level 200, rest at level 200,
   format "'[v' 'iferr'  e  :=  x  'then'  bad  'else' '//' rest ']'") : go_scope.

Section ops.
Context {B W : Type}.
Implicit Types (s : mach B W).

Definition getb : go B W B := λ s, (Done (mb s), s).

Definition updb (f : B → B) : go B W unit :=
  λ s, (Done tt, Mach (f (mb s)) (mlk s) (mw s) (menv s)).

Definition getw : go B W W := λ s, (Done (mw s), s).

(** Running caller code. *)
Definition call {A} (c : code W A) : go B W A := λ s,
  match c (mw s) with
  | (Ok a, w) => (Done a, Mach (mb s) (mlk s) w (menv s))
  | (Unw u, w) => (Unwound u, Mach (mb s) (mlk s) w (menv s))
  end.

(** A Go [panic] in the queue's own code. *)
Definition gopanic {A} : go B W A := λ s, (Unwound Panicked, s).

(** The other goroutines run. *)
Definition interfere (s : mach B W) : mach B W :=
  match menv s with
  | [] => s
  | e :: es => let '(b, w) := e (mb s) (mw s) in Mach b (mlk s) w es
  end.

(** Between two steps of code that holds no lock, the other goroutines may run. *)
Definition Window : go B W unit := λ s, (Done tt, interfere s).

Definition acquire (l : lockmode) : go B W unit := λ s,
  match mlk s with
  | Unlocked => let s := interfere s in (Done tt, Mach (mb s) l (mw s) (menv s))
  | _ => (Fatal, s)
  end.

(** [QLock.Lock]/[QLock.RLock]: whoever holds the lock first gets in before us. *)
Definition Lock : go B W unit := acquire WLocked.
Definition RLock : go B W unit := acquire RLocked.

Definition Unlock : go B W unit := λ s,
  match mlk s with
  | WLocked => (Done tt, Mach (mb s) Unlocked (mw s) (menv s))
  | _ => (Fatal, s)
  end.

Definition RUnlock : go B W unit := λ s,
  match mlk s with
  | RLocked => (Done tt, Mach (mb s) Unlocked (mw s) (menv s))
  | _ => (Fatal, s)
  end.

(** [defer release(); body]: the release runs when the body returns and when it unwinds. *)
Definition defer {A} (release : go B W unit) (body : go B W A) : go B W A := λ s,
  match body s with
  | (Done a, s') =>
      match release s' with
      | (Done _, s'') => (Done a, s'')
      | (Unwound u, s'') => (Unwound u, s'')
      | (Fatal, s'') => (Fatal, s'')
      | (Parked, s'') => (Parked, s'')
      end
  | (Unwound u, s') =>
      match release s' with
      | (Done _, s'') => (Unwound u, s'')
      | (Unwound u', s'') => (Unwound u', s'')
      | (Fatal, s'') => (Fatal, s'')
      | (Parked, s'') => (Parked, s'')
      end
  | r => r
  end.

(** The completion-flag idiom of run.go: the release runs only when the body unwinds. *)
Definition on_unwind {A} (body : go B W A) (release : go B W unit) : go B W A := λ s,
  match body s with
  | (Unwound u, s') =>
      match release s' with
      | (Done _, s'') => (Unwound u, s'')
      | (Unwound u', s'') => (Unwound u', s'')
      | (Fatal, s'') => (Fatal, s'')
      | (Parked, s'') => (Parked, s'')
      end
  | r => r
  end.

(** [for { body }]: [Some r] returns [r] from the enclosing function, [None] goes round again. *)
Fixpoint for_fuel {R} (fuel : nat) (body : go B W (option R)) : go B W R := λ s,
  match fuel with
  | O => (Parked, s)
  | S fuel =>
      match body s with
      | (Done (Some r), s') => (Done r, s')
      | (Done None, s') => for_fuel fuel body s'
      | (Unwound u, s') => (Unwound u, s')
      | (Fatal, s') => (Fatal, s')
      | (Parked, s') => (Parked, s')
      end
  end.

(** Every trip round one of the queue's loops parks once, and parking consumes interference, so
    one trip more than there is interference is enough; [forever_fuel] below. *)
Definition forever {R} (body : go B W (option R)) : go B W R := λ s,
  for_fuel (S (length (menv s))) body s.

(** [for _, x := range l { body }] with early return. *)
Fixpoint range {A R} (l : list A) (body : A → go B W (option R)) (rest : go B W R) : go B W R :=
  match l with
  | [] => rest
  | x :: l =>
      o ← body x;
      match o with
      | Some r => mret r
      | None => range l body rest
      end
  end.

Definition return_ {R} (r : R) : go B W (option R) := mret (Some r).
Definition continue_ {R} : go B W (option R) := mret None.
End ops.
