(* ===== verification/Core.v ===== *)
(** Package core: the item constraint and the Backup contract (item.go), per-operation options
    (opoptions.go, and WithSideEffect/WithOnAdmit of queue.go), the helpers that run caller code
    under the lock (run.go), the wait signals (signal.go) as a backing sees them, item validation
    (validate.go) and sequence ordering (seq.go). What theorems ask of the items is a class for each of
    the ways in which items can behave, and one for each obligation. *)

From S2P Require Import Prelude Errors Machine.

(** * Lenses: a pointer to a field of the backing *)

Record lens (B X : Type) := Lens { lget : B → X; lset : X → B → B }.
Arguments Lens {B X} _ _.
Arguments lget {B X} _ _.
Arguments lset {B X} _ _ _.

Definition lupd {B X} (l : lens B X) (f : X → X) (b : B) : B := lset l (f (lget l b)) b.

(** * The world outside the queue *)

(** What a running iteration can observe of the outside: [tick] is the passage of time between two
    observations, [write_wanted] is [QLock.WriteWanted] (a writer on another goroutine is blocked
    on the lock). *)
Class World (W : Type) := {
  tick : W → W;
  write_wanted : W → bool;
}.

(** A [context.Context]: [None] while it is live, [Some cause] once it is done. *)
Record Ctx (W : Type) := MkCtx { ctx_cause : W → option err }.
Arguments MkCtx {W} _.
Arguments ctx_cause {W} _ _.

(** A context that is never done ([context.Background()]). *)
Definition background {W} : Ctx W := MkCtx (λ _, None).

(** The methods of [Item[T]], each of them caller code, and the zero value of [T]. *)
Class Item (W T : Type) := {
  zero : T;
  Less : T → T → code W bool;
  Equal : T → T → code W bool;
  Priority : T → code W Z;
  Hash : T → code W Z;
}.

(** Item methods that answer a value computed from their arguments whenever they answer: they may unwind,
    at any call, and act on the world. *)
Class SteadyItem (W T : Type) `{Item W T} := {
  ltb : T → T → bool;
  eqb : T → T → bool;
  prio : T → Z;
  hash : T → Z;
  Less_value a b w r w' : Less a b w = (Ok r, w') → r = ltb a b;
  Equal_value a b w r w' : Equal a b w = (Ok r, w') → r = eqb a b;
  Priority_value a w r w' : Priority a w = (Ok r, w') → r = prio a;
  Hash_value a w r w' : Hash a w = (Ok r, w') → r = hash a;
}.

(** Item methods that return such a value always, and leave the world alone. *)
Class PureItem (W T : Type) `{Item W T} := {
  #[global] pure_steady :: SteadyItem W T;
  Less_pure a b w : Less a b w = (Ok (ltb a b), w);
  Equal_pure a b w : Equal a b w = (Ok (eqb a b), w);
  Priority_pure a w : Priority a w = (Ok (prio a), w);
  Hash_pure a w : Hash a w = (Ok (hash a), w);
}.

Definition pure_item {W T} `{Item W T} (l e : T → T → bool) (p h : T → Z)
    (Hl : ∀ a b w, Less a b w = (Ok (l a b), w)) (He : ∀ a b w, Equal a b w = (Ok (e a b), w))
    (Hp : ∀ a w, Priority a w = (Ok (p a), w)) (Hh : ∀ a w, Hash a w = (Ok (h a), w)) : PureItem W T.
Proof.
  refine {| pure_steady := {| ltb := l; eqb := e; prio := p; hash := h |};
            Less_pure := Hl; Equal_pure := He; Priority_pure := Hp; Hash_pure := Hh |};
    intros *; rewrite ?Hl, ?He, ?Hp, ?Hh; congruence.
Defined.

(** The documented obligations of [Item]. [Hash] is consistent with [Equal]. *)
Class HashLaw (W T : Type) `{SteadyItem W T} : Prop :=
  eqb_hash a b : eqb a b = true → hash a = hash b.

(** On the items of a priority queue [Less] is a strict weak order. *)
Class OrderLaws (W T : Type) `{SteadyItem W T} : Prop := {
  ltb_irrefl a : ltb a a = false;
  ltb_trans a b c : ltb a b = true → ltb b c = true → ltb a c = true;
  ltb_incomp_trans a b c :
    ltb a b = false → ltb b a = false → ltb b c = false → ltb c b = false →
    ltb a c = false ∧ ltb c a = false;
}.

(** There [Priority] agrees with [Less]; no theorem of this development needs it, since no backing
    consults both. *)
Class PriorityLaw (W T : Type) `{SteadyItem W T} : Prop :=
  ltb_prio a b : prio a ≠ 0%Z → prio b ≠ 0%Z → ltb a b = true → (prio b < prio a)%Z.

(** The obligations of the items of a queue, by its kind: what a FIFO item's [Less] does is its own affair. *)
Class ItemLaws (priority : bool) (W T : Type) `{SteadyItem W T} : Prop := {
  #[global] laws_hash :: HashLaw W T;
  laws_order : priority = true → OrderLaws W T;
}.

(** [Backup[T]]. [RangeAll] is the list of the iterator's steps: each runs caller code that either
    yields a pair or ends the sequence. *)
Record Backup (W T : Type) := MkBackup {
  bk_Push : Ctx W → list T → code W (option err);
  bk_Del : Ctx W → list T → code W (option err);
  bk_Restore : Ctx W → list T → code W (option err);
  bk_Close : Ctx W → code W (option err);
  bk_Clear : Ctx W → code W (option err);
  bk_RangeAll : Ctx W → list (code W (option (T * option err)));
  bk_OnLoad : Ctx W → T → code W (option err);
}.
Arguments bk_Push {W T} _ _ _.
Arguments bk_Del {W T} _ _ _.
Arguments bk_Restore {W T} _ _ _.
Arguments bk_Close {W T} _ _.
Arguments bk_Clear {W T} _ _.
Arguments bk_RangeAll {W T} _ _.
Arguments bk_OnLoad {W T} _ _ _.

(** * Operation options (opoptions.go) *)

Inductive OpCall :=
  | UnknownOpCall | CallPush | CallPop | CallPeek | CallExists | CallDel | CallNotEmpty
  | CallNotFull | CallClose | CallClear.

#[export] Instance OpCall_eq_dec : EqDecision OpCall.
Proof. solve_decision. Defined.

Record OpOptions (W : Type) := MkOpOptions {
  Call : OpCall;
  SideEffect : option (code W (option err));
  OnAdmit : option (code W (option err));
}.
Arguments MkOpOptions {W} _ _ _.
Arguments Call {W} _.
Arguments SideEffect {W} _.
Arguments OnAdmit {W} _.

Definition OpOption (W : Type) : Type := OpOptions W → OpOptions W * option err.

(** The loop of [ResolveOpOptions]: options in order, stopping at the first error. *)
Fixpoint apply_options {W} (o : OpOptions W) (opts : list (OpOption W))
    : OpOptions W * option err :=
  match opts with
  | [] => (o, None)
  | opt :: opts =>
      match opt o with
      | (o, Some e) => (o, Some e)
      | (o, None) => apply_options o opts
      end
  end.

Definition ResolveOpOptions {B W} (c : OpCall) (opts : list (OpOption W))
    : go B W (OpOptions W * option err) :=
  if bool_decide (c = UnknownOpCall) then gopanic
  else mret (apply_options (MkOpOptions c None None) opts).

(** [WithSideEffect] and [WithOnAdmit]; [None] is the nil func. *)
Definition WithSideEffect {W} (f : option (code W (option err))) : OpOption W := λ o,
  match f with
  | None => (o, Some (Sentinel ErrNilSideEffect))
  | Some _ => (MkOpOptions (Call o) f (OnAdmit o), None)
  end.

Definition WithOnAdmit {W} (f : option (code W (option err))) : OpOption W := λ o,
  match f with
  | None => (o, Some (Sentinel ErrNilOnAdmit))
  | Some _ =>
      if bool_decide (Call o = CallPush) then (MkOpOptions (Call o) (SideEffect o) f, None)
      else (o, Some (Errorf "got " [Sentinel ErrOnAdmitNotPush]))
  end.

(** * Signals (signal.go), as one goroutine sees them *)

(** [sg_registered] are the waits that have registered and not yet returned: the counter
    [waiters] that [HasWaiters] reads is its length. [sg_parked] are those among them that no
    Signal has woken (the parker list), [sg_next] names the next registration. *)
Record Signal := MkSignal {
  sg_next : nat;
  sg_parked : list nat;
  sg_registered : list nat;
}.

Definition NewSignal : Signal := MkSignal 0 [] [].

Definition HasWaiters (g : Signal) : bool := (0 <? zlen (sg_registered g))%Z.

Definition Broadcast (g : Signal) : Signal := MkSignal (sg_next g) [] (sg_registered g).

Definition Register (g : Signal) : Signal :=
  MkSignal (S (sg_next g)) (sg_parked g ++ [sg_next g]) (sg_registered g ++ [sg_next g]).

(** [Release]/[Detach] take the parker off the list, and the deferred [waiters.Add(-1)] runs. *)
Definition Unregister (i : nat) (g : Signal) : Signal :=
  MkSignal (sg_next g) (filter (λ j, j ≠ i) (sg_parked g))
    (filter (λ j, j ≠ i) (sg_registered g)).

(** The well-formedness of a signal: whoever is parked is counted. *)
Definition signal_ok (g : Signal) : Prop := ∀ i, i ∈ sg_parked g → i ∈ sg_registered g.

Section core.
Context {B W : Type}.

(** [s.Signal()], and the gate every mutator puts in front of it. *)
Definition DoSignal (sg : lens B Signal) : go B W unit := updb (lupd sg Broadcast).

Definition SignalIfWaiters (sg : lens B Signal) : go B W unit :=
  b ← getb;
  if HasWaiters (lget sg b) then DoSignal sg else mret ().

(** The goroutine is off the processor until something else has run. *)
Definition Park : go B W unit := λ s,
  match menv s with
  | [] => (Parked, s)
  | _ :: _ => (Done tt, interfere s)
  end.

(** [Signal.Wait(ctx, unlock)]. *)
Definition Wait (sg : lens B Signal) (ctx : Ctx W) (unlock : go B W unit) : go B W (option err) :=
  b ← getb;
  let i := sg_next (lget sg b) in
  updb (lupd sg Register);;
  unlock;;
  Park;;
  updb (lupd sg (Unregister i));;
  w ← getw;
  mret (ctx_cause ctx w).

(** [opts.ReleaseReservation(notFull)]. *)
Definition ReleaseReservation (o : OpOptions W) (notFull : lens B Signal) : go B W unit :=
  match OnAdmit o with
  | None => mret ()
  | Some _ => SignalIfWaiters notFull
  end.

(** * Running caller code (run.go) *)

Definition RunSideEffect (se : option (code W (option err))) : go B W (option err) :=
  match se with
  | None => mret None
  | Some f =>
      iferr e := call f then mret (Some (Errorf "" [Sentinel ErrSideEffectFailed; e]))
      else mret None
  end.

Definition RunLocked {A} (fn : go B W A) (release : go B W unit) : go B W A :=
  on_unwind fn release.

Definition RunSideEffectLocked (se : option (code W (option err))) (release : go B W unit)
    : go B W (option err) :=
  match se with
  | None => mret None
  | Some f =>
      iferr e := RunLocked (call f) release
      then mret (Some (Errorf "" [Sentinel ErrSideEffectFailed; e]))
      else mret None
  end.

Definition RunBackup (fn : code W (option err)) (release : go B W unit) : go B W (option err) :=
  e ← RunLocked (call fn) release;
  mret (WrapBackup e).

Definition RunLockedNoErr (fn : go B W unit) (release : go B W unit) : go B W unit :=
  on_unwind fn release.

Definition RunOnAdmit (inflight : lens B Z) (n : Z) (notFull : lens B Signal)
    (hook : code W (option err)) : go B W (option err) :=
  updb (lupd inflight (λ i, i + n)%Z);;
  Unlock;;
  e ← on_unwind (call hook)
        (Lock;;
         updb (lupd inflight (λ i, i - n)%Z);;
         SignalIfWaiters notFull;;
         Unlock);
  Lock;;
  updb (lupd inflight (λ i, i - n)%Z);;
  match e with
  | Some e =>
      SignalIfWaiters notFull;;
      mret (Some (Errorf "" [Sentinel ErrOnAdmitFailed; e]))
  | None => mret None
  end.

(** * Observations of an iteration *)

Definition updw (f : W → W) : go B W unit :=
  λ s, (Done tt, Mach (mb s) (mlk s) (f (mw s)) (menv s)).

(** [select { case <-ctx.Done(): ... default: }]. *)
Definition ctx_done `{World W} (ctx : Ctx W) : go B W (option err) :=
  updw tick;;
  w ← getw;
  mret (ctx_cause ctx w).

Definition WriteWanted `{World W} : go B W bool :=
  updw tick;;
  w ← getw;
  mret (write_wanted w).

(** * Validation (validate.go) and sequence order (seq.go) *)

Section items.
Context {T : Type} `{Item W T}.

Definition ValidateKindOne (priority : bool) (v : T) : go B W (option err) :=
  p ← call (Priority v);
  mret (if priority && (p =? 0)%Z then Some (Sentinel ErrPriorityRequired)
        else if negb priority && negb (p =? 0)%Z then Some (Sentinel ErrPriorityNotAllowed)
        else None).

Fixpoint ValidateKind (priority : bool) (vs : list T) : go B W (option err) :=
  match vs with
  | [] => mret None
  | v :: vs =>
      iferr e := ValidateKindOne priority v then mret (Some e)
      else ValidateKind priority vs
  end.

Fixpoint MatchesAny (stored : T) (vs : list T) : go B W bool :=
  match vs with
  | [] => mret false
  | v :: vs =>
      m ← call (Equal stored v);
      if m : bool then mret true else MatchesAny stored vs
  end.
End items.
End core.

Record SeqItem (T : Type) := MkSeqItem { Seq : Z; Item_ : T }.
Arguments MkSeqItem {T} _ _.
Arguments Seq {T} _.
Arguments Item_ {T} _.

Definition FifoSeqLess {W T} `{Item W T} (a b : SeqItem T) : code W bool :=
  λ w, (Ok (Seq a <? Seq b)%Z, w).

Definition PrioritySeqLess {W T} `{Item W T} (a b : SeqItem T) : code W bool := λ w,
  match Less (Item_ a) (Item_ b) w with
  | (Ok true, w) => (Ok true, w)
  | (Ok false, w) =>
      match Less (Item_ b) (Item_ a) w with
      | (Ok true, w) => (Ok false, w)
      | (Ok false, w) => (Ok (Seq a <? Seq b)%Z, w)
      | (Unw u, w) => (Unw u, w)
      end
  | (Unw u, w) => (Unw u, w)
  end.
