(* ===== verification/Options.v ===== *)
(** The options of the backing constructors (core/backingopts.go, backing_options.go) and the
    constructors themselves (alias.go): which option is accepted where, what an accepted list of
    options can have set, and which backing each constructor ends up building. *)

From S2P Require Import Prelude Errors Machine Core.

(** * The settings *)

Inductive BackingCall :=
  | UnknownBackingCall | CallBTreeFIFO | CallBTreePriority | CallBboltFIFO | CallBboltPriority.

#[export] Instance BackingCall_eq_dec : EqDecision BackingCall.
Proof. solve_decision. Defined.

(** A func value is kept by its identity; [None] is the nil func. *)
Abbreviation func := (option Z).

Record BackingOpts := MkBackingOpts {
  BCall : BackingCall;
  Width : Z;
  Index : bool;
  BoltNoSync : bool;
  BoltNoFreelistSync : bool;
  BoltNoGrowSync : bool;
  BoltPreLoadFreelist : bool;
  BoltFreelistMap : bool;
  BoltMlock : bool;
  BoltMmapFlags : Z;
  BoltInitialMmapSize : Z;
  BoltPageSize : Z;
  BoltTimeout : Z;
  BoltOpenFile : func;
  CodecEncode : func;
  CodecDecode : func;
}.

Definition set_Width (x : Z) (o : BackingOpts) : BackingOpts :=
    MkBackingOpts (BCall o) x (Index o) (BoltNoSync o) (BoltNoFreelistSync o) (BoltNoGrowSync o)
    (BoltPreLoadFreelist o) (BoltFreelistMap o) (BoltMlock o) (BoltMmapFlags o)
    (BoltInitialMmapSize o) (BoltPageSize o) (BoltTimeout o) (BoltOpenFile o) (CodecEncode o)
    (CodecDecode o).
Definition set_Index (x : bool) (o : BackingOpts) : BackingOpts :=
    MkBackingOpts (BCall o) (Width o) x (BoltNoSync o) (BoltNoFreelistSync o) (BoltNoGrowSync o)
    (BoltPreLoadFreelist o) (BoltFreelistMap o) (BoltMlock o) (BoltMmapFlags o)
    (BoltInitialMmapSize o) (BoltPageSize o) (BoltTimeout o) (BoltOpenFile o) (CodecEncode o)
    (CodecDecode o).
Definition set_BoltNoSync (x : bool) (o : BackingOpts) : BackingOpts :=
    MkBackingOpts (BCall o) (Width o) (Index o) x (BoltNoFreelistSync o) (BoltNoGrowSync o)
    (BoltPreLoadFreelist o) (BoltFreelistMap o) (BoltMlock o) (BoltMmapFlags o)
    (BoltInitialMmapSize o) (BoltPageSize o) (BoltTimeout o) (BoltOpenFile o) (CodecEncode o)
    (CodecDecode o).
Definition set_BoltNoFreelistSync (x : bool) (o : BackingOpts) : BackingOpts :=
    MkBackingOpts (BCall o) (Width o) (Index o) (BoltNoSync o) x (BoltNoGrowSync o)
    (BoltPreLoadFreelist o) (BoltFreelistMap o) (BoltMlock o) (BoltMmapFlags o)
    (BoltInitialMmapSize o) (BoltPageSize o) (BoltTimeout o) (BoltOpenFile o) (CodecEncode o)
    (CodecDecode o).
Definition set_BoltNoGrowSync (x : bool) (o : BackingOpts) : BackingOpts :=
    MkBackingOpts (BCall o) (Width o) (Index o) (BoltNoSync o) (BoltNoFreelistSync o) x
    (BoltPreLoadFreelist o) (BoltFreelistMap o) (BoltMlock o) (BoltMmapFlags o)
    (BoltInitialMmapSize o) (BoltPageSize o) (BoltTimeout o) (BoltOpenFile o) (CodecEncode o)
    (CodecDecode o).
Definition set_BoltPreLoadFreelist (x : bool) (o : BackingOpts) : BackingOpts :=
    MkBackingOpts (BCall o) (Width o) (Index o) (BoltNoSync o) (BoltNoFreelistSync o)
    (BoltNoGrowSync o) x (BoltFreelistMap o) (BoltMlock o) (BoltMmapFlags o)
    (BoltInitialMmapSize o) (BoltPageSize o) (BoltTimeout o) (BoltOpenFile o) (CodecEncode o)
    (CodecDecode o).
Definition set_BoltFreelistMap (x : bool) (o : BackingOpts) : BackingOpts :=
    MkBackingOpts (BCall o) (Width o) (Index o) (BoltNoSync o) (BoltNoFreelistSync o)
    (BoltNoGrowSync o) (BoltPreLoadFreelist o) x (BoltMlock o) (BoltMmapFlags o)
    (BoltInitialMmapSize o) (BoltPageSize o) (BoltTimeout o) (BoltOpenFile o) (CodecEncode o)
    (CodecDecode o).
Definition set_BoltMlock (x : bool) (o : BackingOpts) : BackingOpts :=
    MkBackingOpts (BCall o) (Width o) (Index o) (BoltNoSync o) (BoltNoFreelistSync o)
    (BoltNoGrowSync o) (BoltPreLoadFreelist o) (BoltFreelistMap o) x (BoltMmapFlags o)
    (BoltInitialMmapSize o) (BoltPageSize o) (BoltTimeout o) (BoltOpenFile o) (CodecEncode o)
    (CodecDecode o).
Definition set_BoltMmapFlags (x : Z) (o : BackingOpts) : BackingOpts :=
    MkBackingOpts (BCall o) (Width o) (Index o) (BoltNoSync o) (BoltNoFreelistSync o)
    (BoltNoGrowSync o) (BoltPreLoadFreelist o) (BoltFreelistMap o) (BoltMlock o) x
    (BoltInitialMmapSize o) (BoltPageSize o) (BoltTimeout o) (BoltOpenFile o) (CodecEncode o)
    (CodecDecode o).
Definition set_BoltInitialMmapSize (x : Z) (o : BackingOpts) : BackingOpts :=
    MkBackingOpts (BCall o) (Width o) (Index o) (BoltNoSync o) (BoltNoFreelistSync o)
    (BoltNoGrowSync o) (BoltPreLoadFreelist o) (BoltFreelistMap o) (BoltMlock o) (BoltMmapFlags
    o) x (BoltPageSize o) (BoltTimeout o) (BoltOpenFile o) (CodecEncode o) (CodecDecode o).
Definition set_BoltPageSize (x : Z) (o : BackingOpts) : BackingOpts :=
    MkBackingOpts (BCall o) (Width o) (Index o) (BoltNoSync o) (BoltNoFreelistSync o)
    (BoltNoGrowSync o) (BoltPreLoadFreelist o) (BoltFreelistMap o) (BoltMlock o) (BoltMmapFlags
    o) (BoltInitialMmapSize o) x (BoltTimeout o) (BoltOpenFile o) (CodecEncode o) (CodecDecode
    o).
Definition set_BoltTimeout (x : Z) (o : BackingOpts) : BackingOpts :=
    MkBackingOpts (BCall o) (Width o) (Index o) (BoltNoSync o) (BoltNoFreelistSync o)
    (BoltNoGrowSync o) (BoltPreLoadFreelist o) (BoltFreelistMap o) (BoltMlock o) (BoltMmapFlags
    o) (BoltInitialMmapSize o) (BoltPageSize o) x (BoltOpenFile o) (CodecEncode o) (CodecDecode
    o).
Definition set_BoltOpenFile (x : func) (o : BackingOpts) : BackingOpts :=
    MkBackingOpts (BCall o) (Width o) (Index o) (BoltNoSync o) (BoltNoFreelistSync o)
    (BoltNoGrowSync o) (BoltPreLoadFreelist o) (BoltFreelistMap o) (BoltMlock o) (BoltMmapFlags
    o) (BoltInitialMmapSize o) (BoltPageSize o) (BoltTimeout o) x (CodecEncode o) (CodecDecode
    o).
Definition set_CodecEncode (x : func) (o : BackingOpts) : BackingOpts :=
    MkBackingOpts (BCall o) (Width o) (Index o) (BoltNoSync o) (BoltNoFreelistSync o)
    (BoltNoGrowSync o) (BoltPreLoadFreelist o) (BoltFreelistMap o) (BoltMlock o) (BoltMmapFlags
    o) (BoltInitialMmapSize o) (BoltPageSize o) (BoltTimeout o) (BoltOpenFile o) x (CodecDecode
    o).
Definition set_CodecDecode (x : func) (o : BackingOpts) : BackingOpts :=
    MkBackingOpts (BCall o) (Width o) (Index o) (BoltNoSync o) (BoltNoFreelistSync o)
    (BoltNoGrowSync o) (BoltPreLoadFreelist o) (BoltFreelistMap o) (BoltMlock o) (BoltMmapFlags
    o) (BoltInitialMmapSize o) (BoltPageSize o) (BoltTimeout o) (BoltOpenFile o) (CodecEncode o)
    x.

(** The option constructors return functions on the settings. *)
Definition BackingOption : Type := BackingOpts → BackingOpts * option err.

Definition BboltOnly (o : BackingOpts) (name : string) : option err :=
  match BCall o with
  | CallBboltFIFO | CallBboltPriority => None
  | _ => Some (Errorf (name +:+ " is only valid for the bbolt backings") [Sentinel ErrBadOption])
  end.

Fixpoint apply_backing_options (o : BackingOpts) (options : list BackingOption)
    : BackingOpts * option err :=
  match options with
  | [] => (o, None)
  | opt :: options =>
      match opt o with
      | (o, Some e) => (o, Some e)
      | (o, None) => apply_backing_options o options
      end
  end.

Definition seed (c : BackingCall) : BackingOpts :=
  MkBackingOpts c 32 false false false false false false false 0 0 0 0 None None None.

(** [None] is the panic on an unregistered constructor. *)
Definition ApplyBackingOptions (c : BackingCall) (options : list BackingOption)
    : option (BackingOpts * option err) :=
  if bool_decide (c = UnknownBackingCall) then None
  else Some (apply_backing_options (seed c) options).

(** * The options *)

Definition WithCodec (enc dec : func) : BackingOption := λ o,
  match BboltOnly o "WithCodec" with
  | Some e => (o, Some e)
  | None =>
      match enc, dec with
      | Some _, Some _ => (set_CodecDecode dec (set_CodecEncode enc o), None)
      | _, _ =>
          (o, Some (Errorf "WithCodec requires a non-nil encoder and decoder" [Sentinel ErrBadOption]))
      end
  end.

Definition WithIndex : BackingOption := λ o,
  match BCall o with
  | CallBTreeFIFO | CallBTreePriority | CallBboltFIFO | CallBboltPriority => (set_Index true o, None)
  | _ => (o, Some (Errorf "WithIndex is not valid for %s" [Sentinel ErrBadOption]))
  end.

Definition WithBTreeWidth (width : Z) : BackingOption := λ o,
  match BCall o with
  | CallBTreeFIFO | CallBTreePriority =>
      if (width <? 2)%Z
      then (o, Some (Errorf "WithBTreeWidth must be at least 2, got %d" [Sentinel ErrBadOption]))
      else (set_Width width o, None)
  | _ => (o, Some (Errorf "WithBTreeWidth is not valid for %s" [Sentinel ErrBadOption]))
  end.

Definition WithNoSync : BackingOption := λ o,
  match BboltOnly o "WithNoSync" with
  | Some e => (o, Some e)
  | None => (set_BoltNoSync true o, None)
  end.

Definition WithNoFreelistSync : BackingOption := λ o,
  match BboltOnly o "WithNoFreelistSync" with
  | Some e => (o, Some e)
  | None => (set_BoltNoFreelistSync true o, None)
  end.

Definition WithNoGrowSync : BackingOption := λ o,
  match BboltOnly o "WithNoGrowSync" with
  | Some e => (o, Some e)
  | None => (set_BoltNoGrowSync true o, None)
  end.

Definition WithBoltTimeout (d : Z) : BackingOption := λ o,
  match BboltOnly o "WithBoltTimeout" with
  | Some e => (o, Some e)
  | None => (set_BoltTimeout d o, None)
  end.

Definition WithBoltPreLoadFreelist : BackingOption := λ o,
  match BboltOnly o "WithBoltPreLoadFreelist" with
  | Some e => (o, Some e)
  | None => (set_BoltPreLoadFreelist true o, None)
  end.

Definition WithBoltFreelistMap : BackingOption := λ o,
  match BboltOnly o "WithBoltFreelistMap" with
  | Some e => (o, Some e)
  | None => (set_BoltFreelistMap true o, None)
  end.

Definition WithBoltMlock : BackingOption := λ o,
  match BboltOnly o "WithBoltMlock" with
  | Some e => (o, Some e)
  | None => (set_BoltMlock true o, None)
  end.

Definition WithBoltMmapFlags (flags : Z) : BackingOption := λ o,
  match BboltOnly o "WithBoltMmapFlags" with
  | Some e => (o, Some e)
  | None => (set_BoltMmapFlags flags o, None)
  end.

Definition WithBoltInitialMmapSize (bytes : Z) : BackingOption := λ o,
  match BboltOnly o "WithBoltInitialMmapSize" with
  | Some e => (o, Some e)
  | None => (set_BoltInitialMmapSize bytes o, None)
  end.

Definition WithBoltPageSize (bytes : Z) : BackingOption := λ o,
  match BboltOnly o "WithBoltPageSize" with
  | Some e => (o, Some e)
  | None => (set_BoltPageSize bytes o, None)
  end.

Definition WithBoltOpenFile (fn : func) : BackingOption := λ o,
  match BboltOnly o "WithBoltOpenFile" with
  | Some e => (o, Some e)
  | None => (set_BoltOpenFile fn o, None)
  end.

(** The exported option constructors: what a caller can pass. *)
Inductive option_call :=
  | OCodec (enc dec : func) | OIndex | OBTreeWidth (width : Z)
  | ONoSync | ONoFreelistSync | ONoGrowSync | OBoltTimeout (d : Z) | OBoltPreLoadFreelist
  | OBoltFreelistMap | OBoltMlock | OBoltMmapFlags (flags : Z) | OBoltInitialMmapSize (bytes : Z)
  | OBoltPageSize (bytes : Z) | OBoltOpenFile (fn : func).

Definition denote (c : option_call) : BackingOption :=
  match c with
  | OCodec enc dec => WithCodec enc dec
  | OIndex => WithIndex
  | OBTreeWidth width => WithBTreeWidth width
  | ONoSync => WithNoSync
  | ONoFreelistSync => WithNoFreelistSync
  | ONoGrowSync => WithNoGrowSync
  | OBoltTimeout d => WithBoltTimeout d
  | OBoltPreLoadFreelist => WithBoltPreLoadFreelist
  | OBoltFreelistMap => WithBoltFreelistMap
  | OBoltMlock => WithBoltMlock
  | OBoltMmapFlags flags => WithBoltMmapFlags flags
  | OBoltInitialMmapSize bytes => WithBoltInitialMmapSize bytes
  | OBoltPageSize bytes => WithBoltPageSize bytes
  | OBoltOpenFile fn => WithBoltOpenFile fn
  end.

(** * The constructors (alias.go) *)

(** What a constructor forwards to. *)
Inductive built :=
  | FifoNew | HeapNew | BTypeNew
  | BTreeNewFIFO (o : BackingOpts) | BTreeNewPriority (o : BackingOpts)
  | BboltNewFIFO (o : BackingOpts) | BboltNewPriority (o : BackingOpts).

Definition NewFIFO : built + err := inl FifoNew.
Definition NewPriority : built + err := inl HeapNew.

(** [needs] says that the item type is a [diskCodecRequirer]. *)
Definition needsCodec (needs : bool) (o : BackingOpts) : bool :=
  needs && match CodecEncode o with None => true | Some _ => false end.

Definition constructor (call : BackingCall) (options : list BackingOption)
    (build : BackingOpts → built + err) : built + err :=
  match ApplyBackingOptions call options with
  | Some (o, None) => build o
  | Some (_, Some e) => inr e
  | None => inr (Errorf "bug: ApplyBackingOptions called without a BackingCall" [])
  end.

Definition NewBTreeFIFO (options : list BackingOption) : built + err :=
  constructor CallBTreeFIFO options (λ o, inl (if negb (Index o) then BTypeNew else BTreeNewFIFO o)).

Definition NewBTreePriority (options : list BackingOption) : built + err :=
  constructor CallBTreePriority options (λ o, inl (BTreeNewPriority o)).

Definition NewBboltFIFO (needs : bool) (options : list BackingOption) : built + err :=
  constructor CallBboltFIFO options (λ o,
    if needsCodec needs o then inr (Sentinel ErrCodecRequired) else inl (BboltNewFIFO o)).

Definition NewBboltPriority (needs : bool) (options : list BackingOption) : built + err :=
  constructor CallBboltPriority options (λ o,
    if needsCodec needs o then inr (Sentinel ErrCodecRequired) else inl (BboltNewPriority o)).

(** * Lemmas *)

(** The options each constructor documents as valid. *)
Definition on_disk (call : BackingCall) : bool :=
  match call with CallBboltFIFO | CallBboltPriority => true | _ => false end.
Definition keyed_tree (call : BackingCall) : bool :=
  match call with CallBTreeFIFO | CallBTreePriority => true | _ => false end.

Definition is_nil (f : func) : bool := match f with None => true | Some _ => false end.

Definition accepts (call : BackingCall) (c : option_call) : bool :=
  match c with
  | OCodec enc dec => on_disk call && negb (is_nil enc) && negb (is_nil dec)
  | OIndex => on_disk call || keyed_tree call
  | OBTreeWidth width => keyed_tree call && (2 <=? width)%Z
  | _ => on_disk call
  end.

Definition is_codec (c : option_call) : bool := match c with OCodec _ _ => true | _ => false end.
Definition is_index (c : option_call) : bool := match c with OIndex => true | _ => false end.

(** What a constructor may rely on after its options have been applied. *)
Record opts_ok (call : BackingCall) (o : BackingOpts) : Prop := {
  oo_call : BCall o = call;
  oo_width : (2 ≤ Width o)%Z;
  oo_codec : is_nil (CodecEncode o) = is_nil (CodecDecode o);
  oo_memory : on_disk call = false → set_Index false (set_Width 32 o) = seed call;
  oo_disk : on_disk call = true → Width o = 32%Z;
}.

Lemma seed_ok call : opts_ok call (seed call).
Proof. by constructor. Qed.

Lemma denote_ok call c o :
  opts_ok call o →
  opts_ok call (denote c o).1 ∧
  match (denote c o).2 with
  | None => accepts call c = true ∧
      Index (denote c o).1 = Index o || is_index c ∧
      is_nil (CodecEncode (denote c o).1) = is_nil (CodecEncode o) && negb (is_codec c)
  | Some e => accepts call c = false ∧ Is e ErrBadOption = true
  end.
Proof.
  intros Ho. pose proof Ho as [Hc Hw Hp Hm Hd]. destruct o; simpl in *; subst BCall0.
  destruct c as [[]  []| |width| | | | | | | | | | |], call; simpl; unfold WithBTreeWidth; simpl;
    try (destruct (width <? 2)%Z eqn:Hlt; simpl; bool_to_prop);
    rewrite ?orb_false_r, ?andb_true_r, ?orb_true_r, ?andb_false_r;
    split; try exact Ho; try done; try (constructor; simpl; done || lia).
  all: try (split; [lia|done]); try (split_and!; try done; by apply Z.leb_le).
  all: try (constructor; simpl; try done; intros _; specialize (Hm eq_refl); injection Hm; intros; by subst).
  all: try (by apply Z.leb_gt).
Qed.

(** A successful list of options, and a failing one. *)
Lemma apply_options_ok call cs o :
  opts_ok call o →
  let r := apply_backing_options o (denote <$> cs) in
  opts_ok call r.1 ∧
  match r.2 with
  | None => forallb (accepts call) cs = true ∧
      Index r.1 = Index o || existsb is_index cs ∧
      is_nil (CodecEncode r.1) = is_nil (CodecEncode o) && negb (existsb is_codec cs)
  | Some e => forallb (accepts call) cs = false ∧ Is e ErrBadOption = true
  end.
Proof.
  revert o. induction cs as [|c cs IH]; intros o Ho; simpl.
  { split; [done|]. by rewrite orb_false_r, andb_true_r. }
  destruct (denote_ok call c o Ho) as [Ho' Hc]. destruct (denote c o) as [o' [e|]]; simpl in *.
  { split; [done|]. by destruct Hc as [-> ?]. }
  destruct Hc as (-> & Hi & Hn). specialize (IH o' Ho'). simpl in IH.
  destruct IH as [Hr IH]. destruct (apply_backing_options o' _) as [r [e|]]; split; try done; simpl in *.
  destruct IH as (? & -> & ->). rewrite Hi, Hn, negb_orb. split; [done|].
  by rewrite orb_assoc, andb_assoc.
Qed.

Lemma constructor_spec call cs build :
  call ≠ UnknownBackingCall →
  ∃ o, opts_ok call o ∧
    if forallb (accepts call) cs
    then constructor call (denote <$> cs) build = build o ∧ Index o = existsb is_index cs ∧
         is_nil (CodecEncode o) = negb (existsb is_codec cs)
    else ∃ e, constructor call (denote <$> cs) build = inr e ∧ Is e ErrBadOption = true.
Proof.
  intros Hcall. unfold constructor, ApplyBackingOptions. rewrite bool_decide_false by done.
  pose proof (apply_options_ok call cs (seed call) (seed_ok call)) as [Ho Hr].
  destruct (apply_backing_options _ _) as [o [e|]]; simpl in *; exists o; split; try done.
  - destruct Hr as [-> He]. by exists e.
  - by destruct Hr as (-> & ? & ?).
Qed.

(** * Properties *)

(** Whatever list of constructor options is applied, the settings keep their constructor, a
    tree width of at least 2, encoder and decoder both set or both nil, and on-disk settings only
    for the on-disk constructors; the list succeeds exactly when each option is valid for the
    constructor, and a failure is an ErrBadOption. *)
Theorem backing_options_valid call cs :
  call ≠ UnknownBackingCall →
  ∃ o e, ApplyBackingOptions call (denote <$> cs) = Some (o, e) ∧ opts_ok call o ∧
    (e = None ↔ forallb (accepts call) cs = true) ∧
    (∀ x, e = Some x → Is x ErrBadOption = true).
Proof.
  intros Hcall. unfold ApplyBackingOptions. rewrite bool_decide_false by done.
  pose proof (apply_options_ok call cs (seed call) (seed_ok call)) as [Ho Hr].
  destruct (apply_backing_options _ _) as [o [e|]]; simpl in *; do 2 eexists; (split; [done|]);
    destruct Hr as [Hf ?]; (split; [done|]); rewrite Hf; split; try naive_solver.
Qed.

(** NewBTreeFIFO builds the positional tree exactly when no WithIndex was given, and the
    on-disk constructors fail with ErrCodecRequired exactly when the item type needs a codec and
    none was given. *)
Theorem constructors_build cs needs :
  (∀ b, NewBTreeFIFO (denote <$> cs) = inl b →
     forallb (accepts CallBTreeFIFO) cs = true ∧
     if existsb is_index cs then ∃ o, b = BTreeNewFIFO o ∧ opts_ok CallBTreeFIFO o else b = BTypeNew) ∧
  (forallb (accepts CallBboltFIFO) cs = true →
   if needs && negb (existsb is_codec cs)
   then NewBboltFIFO needs (denote <$> cs) = inr (Sentinel ErrCodecRequired)
   else ∃ o, NewBboltFIFO needs (denote <$> cs) = inl (BboltNewFIFO o) ∧ opts_ok CallBboltFIFO o) ∧
  (forallb (accepts CallBboltPriority) cs = true →
   if needs && negb (existsb is_codec cs)
   then NewBboltPriority needs (denote <$> cs) = inr (Sentinel ErrCodecRequired)
   else ∃ o, NewBboltPriority needs (denote <$> cs) = inl (BboltNewPriority o) ∧ opts_ok CallBboltPriority o).
Proof.
  split_and!.
  - intros b. unfold NewBTreeFIFO.
    destruct (constructor_spec CallBTreeFIFO cs
      (λ o, inl (if negb (Index o) then BTypeNew else BTreeNewFIFO o))) as (o & Ho & Hs); [done|].
    destruct (forallb _ _); [|destruct Hs as (e & -> & _); done].
    destruct Hs as (-> & -> & _). intros [= <-]. split; [done|].
    destruct (existsb is_index cs); simpl; [by exists o|done].
  - intros Hacc. unfold NewBboltFIFO.
    destruct (constructor_spec CallBboltFIFO cs (λ o,
      if needsCodec needs o then inr (Sentinel ErrCodecRequired) else inl (BboltNewFIFO o)))
      as (o & Ho & Hs); [done|].
    rewrite Hacc in Hs. destruct Hs as (-> & _ & Hn). unfold needsCodec. fold (is_nil (CodecEncode o)).
    rewrite Hn. destruct (needs && _); [done|by exists o].
  - intros Hacc. unfold NewBboltPriority.
    destruct (constructor_spec CallBboltPriority cs (λ o,
      if needsCodec needs o then inr (Sentinel ErrCodecRequired) else inl (BboltNewPriority o)))
      as (o & Ho & Hs); [done|].
    rewrite Hacc in Hs. destruct Hs as (-> & _ & Hn). unfold needsCodec. fold (is_nil (CodecEncode o)).
    rewrite Hn. destruct (needs && _); [done|by exists o].
Qed.
