(* ===== verification/Builtin.v ===== *)
(** The item types the package provides (builtin.go): [Number], [String], [Bytes] and [Value], each
    with the methods of [Item], and that they keep the obligations of [Item]. *)

From Stdlib Require Import Floats.SpecFloat.
From S2P Require Import Prelude Errors Machine Core.

(** * Number *)

(** A numeric value, by its [reflect.Kind]: a signed or unsigned integer of up to 64 bits, or a
    float (a float32 is widened exactly before it is hashed). *)
Inductive numeric :=
  | NInt (v : Z)
  | NUint (v : Z)
  | NFloat (f : spec_float).

Record Number := MkNumber { nV : numeric; nP : Z }.

(** The values a Go variable of the kind can hold. *)
Definition in_range (v : numeric) : Prop :=
  match v with
  | NInt v => (- 2 ^ 63 ≤ v < 2 ^ 63)%Z
  | NUint v => (0 ≤ v < 2 ^ 64)%Z
  | NFloat f => valid_binary 53 1024 f = true
  end.

(** [==] on two values of one numeric type. *)
Definition numeric_eqb (a b : numeric) : bool :=
  match a, b with
  | NInt a, NInt b => (a =? b)%Z
  | NUint a, NUint b => (a =? b)%Z
  | NFloat a, NFloat b => SFeqb a b
  | _, _ => false
  end.

(** [math.Float64bits]: sign, exponent and mantissa fields of the IEEE 754 encoding. *)
Definition Float64bits (f : spec_float) : Z :=
  let sign (s : bool) := (if s then 2 ^ 63 else 0)%Z in
  match f with
  | S754_zero s => sign s
  | S754_infinity s => (sign s + Z.shiftl 2047 52)%Z
  | S754_nan => (Z.shiftl 2047 52 + 2 ^ 51 + 1)%Z
  | S754_finite s m e =>
      if (Zpos m <? 2 ^ 52)%Z then (sign s + Zpos m)%Z
      else (sign s + Z.shiftl (e + 1075) 52 + (Zpos m - 2 ^ 52))%Z
  end.

Definition Number_Less (u other : Number) : bool := (nP other <? nP u)%Z.
Definition Number_Equal (u other : Number) : bool := numeric_eqb (nV u) (nV other).
Definition Number_Priority (u : Number) : Z := nP u.
Definition Number_Hash (u : Number) : Z :=
  match nV u with
  | NInt v => Z.lxor (wrap64 v) (Z.shiftl 1 63)
  | NUint v => v
  | NFloat f => Float64bits (SFadd 53 1024 f (S754_zero false))
  end.

(** * String, Bytes and Value *)

Record String_ := MkString { sV : string; sP : Z }.
Record Bytes := MkBytes { bV : list Byte.byte; bP : Z }.

(** [maphash] under the seed of this process: the hash of a text and of a slice of bytes. *)
Class Maphash := { maphash_String : string → Z; maphash_Bytes : list Byte.byte → Z }.

Definition String_Less (u other : String_) : bool := (sP other <? sP u)%Z.
Definition String_Equal (u other : String_) : bool := bool_decide (sV u = sV other).
Definition String_Priority (u : String_) : Z := sP u.
Definition String_Hash `{Maphash} (u : String_) : Z := maphash_String (sV u).

Definition byte_eqb (a b : Byte.byte) : bool := Byte.eqb a b.

(** [bytes.Equal]. *)
Fixpoint bytes_eqb (a b : list Byte.byte) : bool :=
  match a, b with
  | [], [] => true
  | x :: a, y :: b => byte_eqb x y && bytes_eqb a b
  | _, _ => false
  end.

Definition Bytes_Less (u other : Bytes) : bool := (bP other <? bP u)%Z.
Definition Bytes_Equal (u other : Bytes) : bool := bytes_eqb (bV u) (bV other).
Definition Bytes_Priority (u : Bytes) : Z := bP u.
Definition Bytes_Hash `{Maphash} (u : Bytes) : Z := maphash_Bytes (bV u).

(** [None] is a nil Equaler or Hasher. *)
Record Value (W A : Type) := MkValue {
  vV : A;
  vP : Z;
  Equaler : option (A → A → code W bool);
  Hasher : option (A → code W Z);
}.
Arguments MkValue {W A} _ _ _ _.
Arguments vV {W A} _.
Arguments vP {W A} _.
Arguments Equaler {W A} _.
Arguments Hasher {W A} _.

Section value.
Context {W A : Type}.
Implicit Types (u other : Value W A).

Definition Value_Less u other : bool := (vP other <? vP u)%Z.
Definition Value_Equal u other : code W bool := λ w,
  match Equaler u with
  | None => (Unw Panicked, w)
  | Some eq => eq (vV u) (vV other) w
  end.
Definition Value_Priority u : Z := vP u.
Definition Value_Hash u : code W Z := λ w,
  match Hasher u with
  | None => (Unw Panicked, w)
  | Some h => h (vV u) w
  end.
End value.

(** * The item types as items *)

Definition pure_method {W A} (a : A) : code W A := λ w, (Ok a, w).

Section instances.
Context {W : Type}.

#[export] Instance Number_item : Item W Number := {|
  zero := MkNumber (NInt 0) 0;
  Less := λ a b, pure_method (Number_Less a b);
  Equal := λ a b, pure_method (Number_Equal a b);
  Priority := λ a, pure_method (Number_Priority a);
  Hash := λ a, pure_method (Number_Hash a);
|}.

#[export] Instance String_item `{Maphash} : Item W String_ := {|
  zero := MkString "" 0;
  Less := λ a b, pure_method (String_Less a b);
  Equal := λ a b, pure_method (String_Equal a b);
  Priority := λ a, pure_method (String_Priority a);
  Hash := λ a, pure_method (String_Hash a);
|}.

#[export] Instance Bytes_item `{Maphash} : Item W Bytes := {|
  zero := MkBytes [] 0;
  Less := λ a b, pure_method (Bytes_Less a b);
  Equal := λ a b, pure_method (Bytes_Equal a b);
  Priority := λ a, pure_method (Bytes_Priority a);
  Hash := λ a, pure_method (Bytes_Hash a);
|}.

#[export] Instance Value_item {A} (zero : A) : Item W (Value W A) := {|
  zero := MkValue zero 0 None None;
  Less := λ a b, pure_method (Value_Less a b);
  Equal := Value_Equal;
  Priority := λ a, pure_method (Value_Priority a);
  Hash := Value_Hash;
|}.

#[export] Instance Number_pure : PureItem W Number.
Proof. by apply (pure_item Number_Less Number_Equal Number_Priority Number_Hash). Defined.
#[export] Instance String_pure `{Maphash} : PureItem W String_.
Proof. by apply (pure_item String_Less String_Equal String_Priority String_Hash). Defined.
#[export] Instance Bytes_pure `{Maphash} : PureItem W Bytes.
Proof. by apply (pure_item Bytes_Less Bytes_Equal Bytes_Priority Bytes_Hash). Defined.
End instances.

(** * Lemmas *)

Lemma SFeqb_cases a b :
  SFeqb a b = true →
  a = b ∨ ∃ s s', a = S754_zero s ∧ b = S754_zero s'.
Proof.
  destruct a as [s|s| |s m e], b as [s'|s'| |s' m' e']; unfold SFeqb; simpl; try (by destruct s);
    try done; try (by destruct s'); try (by destruct s, s').
  - intros _. right. eauto.
  - destruct s, s'; try done; by left.
  - left. destruct s, s'; try done; destruct (Z.compare_spec e e'); subst; try done;
      destruct (Pos.compare_cont Eq m m') eqn:Hm; try done;
      change (Pos.compare_cont Eq m m') with (Pos.compare m m') in Hm;
      apply Pos.compare_eq in Hm; by subst.
Qed.

Lemma bytes_eqb_eq a b : bytes_eqb a b = true → a = b.
Proof.
  revert b. induction a as [|x a IH]; intros [|y b]; simpl; try done.
  intros [Hx ?]%andb_prop. f_equal; [by apply Byte.byte_dec_bl|auto].
Qed.

(** Ordering by priority is a strict weak order on anything that has a priority. *)
Ltac by_priority := unfold Number_Less, String_Less, Bytes_Less, Value_Less, Number_Priority,
  String_Priority, Bytes_Priority in *; simpl in *; intros; bool_to_prop; try split; lia.

Lemma Number_eqb_hash a b : Number_Equal a b = true → Number_Hash a = Number_Hash b.
Proof.
  unfold Number_Equal, Number_Hash. destruct (nV a), (nV b); simpl; try done; intros He.
  - by apply Z.eqb_eq in He as ->.
  - by apply Z.eqb_eq in He as ->.
  - apply SFeqb_cases in He as [->|(s & s' & -> & ->)]; [done|]. by destruct s, s'.
Qed.

Section laws.
Context {W : Type}.

#[export] Instance Number_order : OrderLaws W Number.
Proof. split; simpl; by_priority. Qed.
#[export] Instance String_order `{Maphash} : OrderLaws W String_.
Proof. split; simpl; by_priority. Qed.
#[export] Instance Bytes_order `{Maphash} : OrderLaws W Bytes.
Proof. split; simpl; by_priority. Qed.

#[export] Instance Number_laws p : ItemLaws p W Number.
Proof. split; [exact Number_eqb_hash|]. intros _. apply Number_order. Qed.
#[export] Instance String_laws `{Maphash} p : ItemLaws p W String_.
Proof.
  split; [|intros _; apply String_order]. intros a b Heq. simpl in *. unfold String_Equal, String_Hash in *.
  case_bool_decide as He; [by rewrite He|done].
Qed.
#[export] Instance Bytes_laws `{Maphash} p : ItemLaws p W Bytes.
Proof.
  split; [|intros _; apply Bytes_order]. intros a b He. simpl in *. unfold Bytes_Equal, Bytes_Hash in *.
  by rewrite (bytes_eqb_eq _ _ He).
Qed.

#[export] Instance Number_priority : PriorityLaw W Number.
Proof. intros a b _ _. simpl. by_priority. Qed.
#[export] Instance String_priority `{Maphash} : PriorityLaw W String_.
Proof. intros a b _ _. simpl. by_priority. Qed.
#[export] Instance Bytes_priority `{Maphash} : PriorityLaw W Bytes.
Proof. intros a b _ _. simpl. by_priority. Qed.
End laws.

(** A value with caller-supplied functions keeps the laws when they are pure and consistent. *)
Definition consistent {W A} (eq : A → A → bool) (h : A → Z) (v : Value W A) : Prop :=
  (∃ f, Equaler v = Some f ∧ ∀ a b w, f a b w = (Ok (eq a b), w)) ∧
  (∃ g, Hasher v = Some g ∧ ∀ a w, g a w = (Ok (h a), w)) ∧
  ∀ a b, eq a b = true → h a = h b.

Lemma Value_consistent {W A} eq h (a b : Value W A) w :
  consistent eq h a → consistent eq h b →
  Value_Equal a b w = (Ok (eq (vV a) (vV b)), w) ∧
  Value_Hash a w = (Ok (h (vV a)), w) ∧
  (Value_Equal a b w = (Ok true, w) → Value_Hash a w = Value_Hash b w).
Proof.
  intros ((f & Hf & Hfp) & (g & Hg & Hgp) & Hc) (_ & (g' & Hg' & Hgp') & _).
  unfold Value_Equal, Value_Hash. rewrite Hf, Hg, Hg', Hfp, Hgp, Hgp'. split_and!; try done.
  intros [= He]. by rewrite (Hc _ _ He).
Qed.

Lemma lxor_cancel a b c : Z.lxor a c = Z.lxor b c → a = b.
Proof.
  intros He. assert (Z.lxor (Z.lxor a c) c = Z.lxor (Z.lxor b c) c) as Hc by by rewrite He.
  by rewrite !Z.lxor_assoc, Z.lxor_nilpotent, !Z.lxor_0_r in Hc.
Qed.

Lemma wrap64_signed_inj a b :
  (- 2 ^ 63 ≤ a < 2 ^ 63)%Z → (- 2 ^ 63 ≤ b < 2 ^ 63)%Z → wrap64 a = wrap64 b → a = b.
Proof.
  intros Ha Hb Hw. unfold wrap64, two64 in Hw.
  pose proof (Z.div_mod a 18446744073709551616 ltac:(lia)).
  pose proof (Z.div_mod b 18446744073709551616 ltac:(lia)). lia.
Qed.

Lemma lxor_bound a b n : (0 ≤ n)%Z → (0 ≤ a < 2 ^ n)%Z → (0 ≤ b < 2 ^ n)%Z → (0 ≤ Z.lxor a b < 2 ^ n)%Z.
Proof.
  intros Hn [Ha0 Ha] [Hb0 Hb]. assert (0 ≤ Z.lxor a b)%Z as H0 by by apply Z.lxor_nonneg.
  split; [done|]. destruct (decide (Z.lxor a b = 0)%Z) as [->|]; [lia|].
  apply Z.log2_lt_pow2; [lia|]. pose proof (Z.log2_lxor a b Ha0 Hb0).
  destruct (decide (a = 0)%Z) as [->|], (decide (b = 0)%Z) as [->|];
    rewrite ?Z.lxor_0_l, ?Z.lxor_0_r in *; try done;
    repeat match goal with H : (?x < 2 ^ n)%Z, H' : ?x ≠ 0%Z |- _ =>
      apply Z.log2_lt_pow2 in H; [|lia] end; lia.
Qed.

Lemma digits2_pos_bound m : (2 ^ (Zpos (digits2_pos m) - 1) ≤ Zpos m < 2 ^ Zpos (digits2_pos m))%Z.
Proof.
  induction m as [m IH|m IH|]; cbn [digits2_pos].
  1-2: rewrite Pos2Z.inj_succ, <- Z.add_1_r, Z.add_simpl_r;
    replace (Z.pos (digits2_pos m)) with ((Z.pos (digits2_pos m) - 1) + 1)%Z by lia;
    rewrite !Z.pow_add_r, Z.pow_1_r by lia;
    replace (Z.pos (digits2_pos m)) with ((Z.pos (digits2_pos m) - 1) + 1)%Z in IH by lia;
    rewrite Z.add_simpl_r, Z.pow_add_r, Z.pow_1_r in IH by lia; lia.
  done.
Qed.

Lemma Float64bits_range f : valid_binary 53 1024 f = true → (0 ≤ Float64bits f < 2 ^ 64)%Z.
Proof.
  destruct f as [s|s| |s m e]; simpl; try (intros _; destruct s; done); [done|].
  unfold bounded, canonical_mantissa. rewrite andb_true_iff. intros [Hc He].
  apply Z.leb_le in He. apply Zeq_bool_eq in Hc. unfold fexp, SpecFloat.emin in Hc.
  pose proof (digits2_pos_bound m) as Hm.
  assert (Z.pos (digits2_pos m) ≤ 53)%Z as Hd by lia.
  assert (Z.pos m < 2 ^ 53)%Z as Hm53.
  { eapply Z.lt_le_trans; [apply Hm|]. apply Z.pow_le_mono_r; lia. }
  rewrite Z.shiftl_mul_pow2 by lia. destruct (Z.pos m <? 2 ^ 52)%Z eqn:Hlt; bool_to_prop.
  - destruct s; lia.
  - assert (- 1074 ≤ e)%Z by lia. assert (e ≤ 971)%Z by lia. destruct s; lia.
Qed.

(** * Properties *)

(** C40: Numbers that are equal hash equally, the two float zeros included, and for integers in
    range of a signed or unsigned 64-bit kind equal hashes mean equal values. *)
Theorem Number_Hash_sound a b :
  (Number_Equal a b = true → Number_Hash a = Number_Hash b) ∧
  (in_range (nV a) → in_range (nV b) →
   match nV a, nV b with
   | NInt _, NInt _ | NUint _, NUint _ => Number_Hash a = Number_Hash b → Number_Equal a b = true
   | _, _ => True
   end).
Proof.
  split; [apply Number_eqb_hash|]. unfold Number_Equal, Number_Hash.
  destruct (nV a), (nV b); simpl; try done; intros Ha Hb He; apply Z.eqb_eq; [|done].
  apply lxor_cancel in He. by apply wrap64_signed_inj.
Qed.

(** The hash of a number in range is a 64-bit word, for both integer kinds and for every
    valid IEEE double. *)
Theorem Number_Hash_range a : in_range (nV a) → (0 ≤ Number_Hash a < 2 ^ 64)%Z.
Proof.
  unfold Number_Hash. destruct (nV a) as [v|v|f]; simpl; intros Ha; [|done|].
  - apply lxor_bound; [done|apply wrap64_range|done].
  - destruct f as [s|s| |s m e]; try done; try (by destruct s).
    exact (Float64bits_range (S754_finite s m e) Ha).
Qed.
