(* ===== verification/Slice.v ===== *)
(** Go slices that own their backing array: what [append], [clear], [copy] and reslicing do to the
    array, and the layout facts the in-memory backings rely on. *)

From S2P Require Import Prelude.

(** * Slices *)

(** A slice that owns its backing array: the array (its length is the capacity) and the length. *)
Record slice (T : Type) := MkSlice { sl_arr : list T; sl_len : nat }.
Arguments MkSlice {T} _ _.
Arguments sl_arr {T} _.
Arguments sl_len {T} _.

Definition sl_contents {T} (s : slice T) : list T := take (sl_len s) (sl_arr s).
Definition sl_cap {T} (s : slice T) : nat := length (sl_arr s).

(** How much capacity [append] allocates when it has to: the language only promises enough. *)
Class Grow := {
  growcap : nat → nat → nat;
  growcap_ge old need : need ≤ growcap old need;
}.

Section slices.
Context {T : Type} `{!Grow} (z : T).

Definition sl_make (len cap : nat) : slice T := MkSlice (replicate (Nat.max len cap) z) len.

(** [append(s, vs...)]. *)
Definition sl_append (s : slice T) (vs : list T) : slice T :=
  let n := sl_len s + length vs in
  if n <=? sl_cap s
  then MkSlice (take (sl_len s) (sl_arr s) ++ vs ++ drop n (sl_arr s)) n
  else MkSlice (sl_contents s ++ vs ++ replicate (growcap (sl_cap s) n - n) z) n.

(** [clear(s[lo:hi])]. *)
Definition sl_clear (lo hi : nat) (s : slice T) : slice T :=
  MkSlice (take lo (sl_arr s) ++ replicate (hi - lo) z ++ drop hi (sl_arr s)) (sl_len s).

(** [copy(s, src)] for a [src] no longer than [s]. *)
Definition sl_copy (s : slice T) (src : list T) : slice T :=
  MkSlice (src ++ drop (length src) (sl_arr s)) (sl_len s).

(** [s[:n]]. *)
Definition sl_trunc (n : nat) (s : slice T) : slice T := MkSlice (sl_arr s) n.

(** [s[i] = x] and [s[i], s[j] = s[j], s[i]], for indices within the slice. *)
Definition sl_set (i : nat) (x : T) (s : slice T) : slice T :=
  MkSlice (<[i := x]> (sl_arr s)) (sl_len s).

Definition swap (i j : nat) (l : list T) : list T :=
  match l !! i, l !! j with
  | Some x, Some y => <[i := y]> (<[j := x]> l)
  | _, _ => l
  end.

Definition sl_swap (i j : nat) (s : slice T) : slice T :=
  MkSlice (swap i j (sl_arr s)) (sl_len s).
End slices.


(** * Layout *)

Section layout.
Context {T : Type} `{!Grow} (z : T).
Implicit Types (s : slice T).

(** Past its length the array holds zero values only: nothing that left the slice is kept alive. *)
Definition slice_ok s : Prop :=
  sl_len s ≤ sl_cap s ∧
  sl_arr s = sl_contents s ++ replicate (sl_cap s - sl_len s) z.

Lemma length_contents s : sl_len s ≤ sl_cap s → length (sl_contents s) = sl_len s.
Proof. intros. unfold sl_contents, sl_cap in *. rewrite length_take. lia. Qed.

Lemma slice_ok_intro (l : list T) r s :
  sl_arr s = l ++ replicate r z → sl_len s = length l → sl_contents s = l ∧ slice_ok s.
Proof.
  intros Ha Hl. assert (sl_contents s = l) as Hc.
  { unfold sl_contents. by rewrite Ha, Hl, take_app_length. }
  split; [done|]. unfold slice_ok, sl_cap. rewrite Hc, Ha, Hl, length_app, length_replicate.
  split; [lia|]. do 2 f_equal. lia.
Qed.

Lemma sl_append_ok s vs :
  slice_ok s → sl_contents (sl_append z s vs) = sl_contents s ++ vs ∧ slice_ok (sl_append z s vs).
Proof.
  intros [Hle Ha]. pose proof (length_contents s Hle) as Hlen. unfold sl_append.
  case_match; bool_to_prop.
  - apply (slice_ok_intro _ (sl_cap s - (sl_len s + length vs))); simpl.
    + rewrite <- app_assoc. f_equal. f_equal. rewrite Ha, drop_app, drop_ge by lia. simpl.
      rewrite drop_replicate. f_equal. lia.
    + rewrite length_app. lia.
  - apply (slice_ok_intro _ (growcap (sl_cap s) (sl_len s + length vs) - (sl_len s + length vs)));
      simpl; [by rewrite <- app_assoc|]. rewrite length_app. lia.
Qed.

Lemma sl_swap_ok i j s :
  slice_ok s → i < sl_len s → j < sl_len s →
  sl_contents (sl_swap i j s) = swap i j (sl_contents s) ∧ slice_ok (sl_swap i j s).
Proof.
  intros [Hle Ha] Hi Hj. pose proof (length_contents s Hle) as Hlen.
  assert (∀ l k : list T, i < length l → j < length l → swap i j (l ++ k) = swap i j l ++ k) as Happ.
  { intros l k Hi' Hj'. unfold swap. rewrite !lookup_app_l by done.
    destruct (l !! i); [|done]. destruct (l !! j); [|done].
    rewrite !insert_app_l; rewrite ?length_insert; done. }
  apply (slice_ok_intro _ (sl_cap s - sl_len s)); simpl.
  - rewrite Ha at 1. rewrite Happ by lia. done.
  - rewrite <- Hlen. unfold swap. repeat case_match; rewrite ?length_insert; done.
Qed.

Lemma sl_trunc_set_ok s (l : list T) x :
  slice_ok s → sl_contents s = l ++ [x] →
  sl_contents (sl_trunc (sl_len s - 1) (sl_set (sl_len s - 1) z s)) = l ∧
  slice_ok (sl_trunc (sl_len s - 1) (sl_set (sl_len s - 1) z s)).
Proof.
  intros [Hle Ha] Hc. pose proof (length_contents s Hle) as Hlen.
  rewrite Hc, length_app in Hlen. simpl in Hlen.
  apply (slice_ok_intro _ (S (sl_cap s - sl_len s))); simpl; [|lia].
  rewrite Ha, Hc, <- app_assoc, insert_app_r_alt by lia. f_equal.
  replace (sl_len s - 1 - length l) with 0 by lia. done.
Qed.

Lemma slice_ok_cap s : slice_ok s → length (sl_contents s) ≤ sl_cap s.
Proof. intros [Hle _]. rewrite length_contents; lia. Qed.

(** [clear(s); s[:0]]. *)
Lemma sl_reset_ok s :
  slice_ok s →
  sl_contents (sl_trunc 0 (sl_clear z 0 (sl_len s) s)) = [] ∧
  slice_ok (sl_trunc 0 (sl_clear z 0 (sl_len s) s)).
Proof.
  intros [Hle Ha].
  assert (length (sl_contents s) = sl_len s) as Hc
    by (unfold sl_contents, sl_cap in *; rewrite length_take; lia).
  apply (slice_ok_intro [] (sl_len s + (sl_cap s - sl_len s))); [|done].
  simpl. rewrite Ha, Nat.sub_0_r, replicate_add. f_equal.
  rewrite drop_app, Hc, Nat.sub_diag, drop_0, drop_ge by lia. done.
Qed.
End layout.
