(* ===== verification/BinHeap.v ===== *)
(** Binary heaps in an array, over a total preorder given by a strict comparison: what sifting up,
    sifting down and heapifying do to the order of a list, for the algorithms of container/heap. *)

From Stdlib Require Import Sorting.Sorted.
From stdpp Require Import sorting.
From S2P Require Import Prelude Slice.

(** * Exchanges *)

Section swap.
Context {A : Type}.
Implicit Types (l : list A).

Lemma length_swap i j l : length (swap i j l) = length l.
Proof. unfold swap. repeat case_match; rewrite ?length_insert; done. Qed.

Lemma swap_lookup_l i j l x y :
  l !! i = Some x → l !! j = Some y → swap i j l !! i = Some y.
Proof.
  intros Hi Hj. unfold swap. rewrite Hi, Hj. apply list_lookup_insert_eq.
  rewrite length_insert. by eapply lookup_lt_Some.
Qed.

Lemma swap_lookup_r i j l x y :
  l !! i = Some x → l !! j = Some y → swap i j l !! j = Some x.
Proof.
  intros Hi Hj. unfold swap. rewrite Hi, Hj. destruct (decide (i = j)) as [->|Hne].
  - rewrite list_lookup_insert_eq; [congruence|]. rewrite length_insert. by eapply lookup_lt_Some.
  - rewrite list_lookup_insert_ne by done. apply list_lookup_insert_eq. by eapply lookup_lt_Some.
Qed.

Lemma swap_lookup_ne i j l k : k ≠ i → k ≠ j → swap i j l !! k = l !! k.
Proof.
  intros. unfold swap. repeat case_match; try done. by rewrite !list_lookup_insert_ne by done.
Qed.

Lemma swap_Permutation i j l : swap i j l ≡ₚ l.
Proof.
  unfold swap. destruct (l !! i) as [x|] eqn:Hi; [|done]. destruct (l !! j) as [y|] eqn:Hj; [|done].
  destruct (decide (i = j)) as [->|Hne].
  - rewrite Hi in Hj. injection Hj as ->. by rewrite list_insert_insert_eq, list_insert_id.
  - symmetry. apply Permutation_inj. split; [by rewrite !length_insert|].
    exists (λ k, if decide (k = i) then j else if decide (k = j) then i else k). split.
    + intros a b. repeat case_decide; congruence.
    + intros k. repeat case_decide; subst.
      * rewrite Hi, list_lookup_insert_ne by done. symmetry. apply list_lookup_insert_eq.
        by eapply lookup_lt_Some.
      * rewrite Hj. symmetry. apply list_lookup_insert_eq. rewrite length_insert.
        by eapply lookup_lt_Some.
      * by rewrite !list_lookup_insert_ne by done.
Qed.

Lemma swap_involutive i j l : swap i j (swap i j l) = l.
Proof.
  destruct (l !! i) as [x|] eqn:Hi; [|unfold swap; by rewrite Hi, Hi].
  destruct (l !! j) as [y|] eqn:Hj; [|unfold swap; by rewrite Hi, Hj, Hi, Hj].
  apply list_eq. intros k. destruct (decide (k = i)) as [->|Hki].
  - rewrite Hi. eapply swap_lookup_l; [by eapply swap_lookup_l|by eapply swap_lookup_r].
  - destruct (decide (k = j)) as [->|Hkj].
    + rewrite Hj. eapply swap_lookup_r; [by eapply swap_lookup_l|by eapply swap_lookup_r].
    + by rewrite !swap_lookup_ne by done.
Qed.

Lemma swap_app i j l k : i < length l → j < length l → swap i j (l ++ k) = swap i j l ++ k.
Proof.
  intros Hi Hj. unfold swap. rewrite !lookup_app_l by done.
  destruct (l !! i) eqn:?; [|done]. destruct (l !! j) eqn:?; [|done].
  rewrite !insert_app_l; rewrite ?length_insert; done.
Qed.
End swap.

(** * The algorithms *)

Section algorithms.
Context {A : Type} (lt : A → A → bool).
Implicit Types (l : list A).

Definition lessl l (i j : nat) : bool :=
  match l !! i, l !! j with
  | Some x, Some y => lt x y
  | _, _ => false
  end.

Definition parent (j : nat) : nat := (j - 1) / 2.

Fixpoint up_list (fuel j : nat) l : list A :=
  match fuel with
  | O => l
  | S fuel =>
      let i := parent j in
      if i =? j then l
      else if lessl l j i then up_list fuel i (swap i j l) else l
  end.

Definition smaller_child l (j1 n : nat) : nat :=
  if (j1 + 1 <? n) && lessl l (j1 + 1) j1 then j1 + 1 else j1.

Lemma smaller_child_lt l j1 n : j1 < n → smaller_child l j1 n < n.
Proof. intros. unfold smaller_child. case_match; bool_to_prop; lia. Qed.

Fixpoint down_list (fuel i n : nat) l : list A :=
  match fuel with
  | O => l
  | S fuel =>
      let j1 := 2 * i + 1 in
      if n <=? j1 then l
      else
        let j := smaller_child l j1 n in
        if lessl l j i then down_list fuel j n (swap i j l) else l
  end.

Fixpoint init_list (k n : nat) l : list A :=
  match k with
  | O => l
  | S i => init_list i n (down_list n i n l)
  end.

Lemma up_list_Permutation fuel j l : up_list fuel j l ≡ₚ l.
Proof.
  revert j l. induction fuel as [|fuel IH]; intros j l; simpl; [done|].
  case_match; [done|]. case_match; [|done]. by rewrite IH, swap_Permutation.
Qed.

Lemma down_list_Permutation fuel i n l : down_list fuel i n l ≡ₚ l.
Proof.
  revert i l. induction fuel as [|fuel IH]; intros i l; simpl; [done|].
  case_match; [done|]. case_match; [|done]. by rewrite IH, swap_Permutation.
Qed.

Lemma init_list_Permutation k n l : init_list k n l ≡ₚ l.
Proof.
  revert l. induction k as [|k IH]; intros l; simpl; [done|].
  by rewrite IH, down_list_Permutation.
Qed.
End algorithms.

(** * Order *)

Lemma parent_spec c : 0 < c → c = 2 * parent c + 1 ∨ c = 2 * parent c + 2.
Proof.
  intros Hc. unfold parent. pose proof (Nat.div_mod_eq (c - 1) 2).
  pose proof (Nat.mod_upper_bound (c - 1) 2). lia.
Qed.

Lemma parent_lt c : 0 < c → parent c < c.
Proof. intros Hc. destruct (parent_spec c Hc); lia. Qed.

Lemma parent_child i j : j = 2 * i + 1 ∨ j = 2 * i + 2 → parent j = i.
Proof. intros Hj. pose proof (parent_spec j ltac:(lia)). lia. Qed.

Section order.
Context {A : Type} (lt : A → A → bool).
Hypothesis lt_asym : ∀ x y, lt x y = true → lt y x = false.
Hypothesis le_trans : ∀ x y z, lt y x = false → lt z y = false → lt z x = false.
Implicit Types (l : list A).

Abbreviation lessl := (lessl lt).

Lemma lessl_lookup l i j x y : l !! i = Some x → l !! j = Some y → lessl l i j = lt x y.
Proof. intros Hi Hj. unfold BinHeap.lessl. by rewrite Hi, Hj. Qed.

(** Every entry below [n] whose parent is at least [k] does not come before its parent. *)
Definition heap_from (k n : nat) l : Prop :=
  ∀ c, 0 < c → c < n → k ≤ parent c → lessl l c (parent c) = false.

(** The same except at the children of [i], which still do not come before [i]'s parent. *)
Definition heap_hole (k i n : nat) l : Prop :=
  (∀ c, 0 < c → c < n → k ≤ parent c → parent c ≠ i → lessl l c (parent c) = false) ∧
  (∀ c, 0 < c → c < n → parent c = i → 0 < i → k ≤ parent i → lessl l c (parent i) = false).

Lemma lessl_trans l a b c :
  is_Some (l !! a) → is_Some (l !! b) → is_Some (l !! c) →
  lessl l b a = false → lessl l c b = false → lessl l c a = false.
Proof.
  intros [x Hx] [y Hy] [z Hz]. unfold BinHeap.lessl. rewrite Hx, Hy, Hz. apply le_trans.
Qed.

Lemma smaller_child_spec l i n :
  n ≤ length l → 2 * i + 1 < n →
  let j := smaller_child lt l (2 * i + 1) n in
  (j = 2 * i + 1 ∨ j = 2 * i + 2) ∧ j < n ∧
  (∀ c, 0 < c → c < n → parent c = i → lessl l c j = false).
Proof.
  intros Hn Hi. unfold smaller_child.
  destruct (lookup_lt_is_Some_2 l (2 * i + 1) ltac:(lia)) as [x Hx].
  assert (∀ y, lt y y = false) as Hirr.
  { intros y. destruct (lt y y) eqn:E; [by rewrite (lt_asym _ _ E) in E|done]. }
  destruct ((2 * i + 1 + 1 <? n) && _) eqn:Hc; bool_to_prop.
  - split; [lia|]. split; [done|]. intros c Hc1 Hc2 Hc3.
    destruct (lookup_lt_is_Some_2 l (2 * i + 1 + 1) ltac:(lia)) as [y Hy].
    rewrite (lessl_lookup _ _ _ _ _ Hy Hx) in H0.
    destruct (parent_spec c Hc1) as [Hc|Hc]; rewrite Hc3 in Hc; subst c.
    + rewrite (lessl_lookup _ _ _ _ _ Hx Hy). by apply lt_asym.
    + replace (2 * i + 2) with (2 * i + 1 + 1) by lia.
      by rewrite (lessl_lookup _ _ _ _ _ Hy Hy).
  - split; [lia|]. split; [done|]. intros c Hc1 Hc2 Hc3.
    destruct (parent_spec c Hc1) as [Hc'|Hc']; rewrite Hc3 in Hc'; subst c.
    + by rewrite (lessl_lookup _ _ _ _ _ Hx Hx).
    + replace (2 * i + 2) with (2 * i + 1 + 1) in * by lia.
      destruct Hc as [Hc|Hc]; [bool_to_prop; lia|done].
Qed.

(** The relation between entries of a list and of the same list after an exchange. *)
Lemma lessl_swap_ne l i j a b :
  a ≠ i → a ≠ j → b ≠ i → b ≠ j → lessl (swap i j l) a b = lessl l a b.
Proof. intros. unfold BinHeap.lessl. by rewrite !swap_lookup_ne by done. Qed.

Lemma down_list_heap fuel k i n l :
  n ≤ length l → n ≤ fuel + i → k ≤ i → heap_hole k i n l →
  heap_from k n (down_list lt fuel i n l).
Proof.
  revert i l. induction fuel as [|fuel IH]; intros i l Hn Hfuel Hk [Hh Hg]; simpl.
  { intros c Hc1 Hc2 Hc3. apply Hh; try done. pose proof (parent_lt c Hc1). lia. }
  destruct (n <=? i + (i + 0) + 1) eqn:Hlast; bool_to_prop.
  { intros c Hc1 Hc2 Hc3. apply Hh; try done. destruct (parent_spec c Hc1); lia. }
  replace (i + (i + 0) + 1) with (2 * i + 1) in * by lia.
  destruct (smaller_child_spec l i n Hn ltac:(lia)) as (Hj & Hjn & Hmin).
  set (j := smaller_child lt l (2 * i + 1) n) in *.
  pose proof (parent_child i j Hj) as Hpj.
  destruct (lookup_lt_is_Some_2 l i ltac:(lia)) as [x Hx].
  destruct (lookup_lt_is_Some_2 l j ltac:(lia)) as [y Hy].
  destruct (lessl l j i) eqn:Hji.
  - rewrite (lessl_lookup _ _ _ _ _ Hy Hx) in Hji.
    pose proof (swap_lookup_l i j l x y Hx Hy) as Hi'.
    pose proof (swap_lookup_r i j l x y Hx Hy) as Hj'.
    apply IH; [by rewrite length_swap|lia|lia|]. split.
    + intros c Hc1 Hc2 Hc3 Hc4. pose proof (parent_lt c Hc1).
      destruct (lookup_lt_is_Some_2 l c ltac:(lia)) as [z Hz].
      destruct (decide (c = j)) as [->|Hcj].
      { rewrite Hpj, (lessl_lookup _ _ _ _ _ Hj' Hi'). by apply lt_asym. }
      destruct (decide (c = i)) as [->|Hci].
      { destruct (lookup_lt_is_Some_2 l (parent i) ltac:(lia)) as [u Hu].
        assert (swap i j l !! parent i = Some u) as Hu' by (rewrite swap_lookup_ne by lia; done).
        rewrite (lessl_lookup _ _ _ _ _ Hi' Hu'), <- (lessl_lookup _ _ _ _ _ Hy Hu).
        by apply Hg; try lia. }
      assert (swap i j l !! c = Some z) as Hz' by (rewrite swap_lookup_ne by lia; done).
      destruct (decide (parent c = i)) as [Hpc|Hpc].
      { rewrite Hpc, (lessl_lookup _ _ _ _ _ Hz' Hi'), <- (lessl_lookup _ _ _ _ _ Hz Hy).
        by apply Hmin. }
      rewrite lessl_swap_ne by lia. by apply Hh.
    + intros c Hc1 Hc2 Hc3 _ Hc4. rewrite Hpj in *. pose proof (parent_lt c Hc1).
      destruct (lookup_lt_is_Some_2 l c ltac:(lia)) as [z Hz].
      assert (swap i j l !! c = Some z) as Hz' by (rewrite swap_lookup_ne by lia; done).
      rewrite (lessl_lookup _ _ _ _ _ Hz' Hi'), <- (lessl_lookup _ _ _ _ _ Hz Hy), <- Hc3.
      apply Hh; lia.
  - intros c Hc1 Hc2 Hc3. destruct (decide (parent c = i)) as [Hpc|]; [|by apply Hh].
    rewrite Hpc. apply (lessl_trans l i j c); [by eexists|by eexists| |done|by apply Hmin].
    apply lookup_lt_is_Some_2. lia.
Qed.

Lemma init_list_heap k n l :
  n ≤ length l → heap_from k n l → heap_from 0 n (init_list lt k n l).
Proof.
  revert l. induction k as [|k IH]; intros l Hn Hh; simpl; [done|].
  apply IH; [by rewrite down_list_Permutation|].
  apply down_list_heap; [done|lia|done|]. split.
  - intros c Hc1 Hc2 Hc3 Hc4. apply Hh; lia.
  - intros c _ _ _ H1 H2. pose proof (parent_lt k H1). lia.
Qed.

(** [heap.Init] makes any list a heap. *)
Lemma init_heap l : heap_from 0 (length l) (init_list lt (length l / 2) (length l) l).
Proof.
  apply init_list_heap; [done|]. intros c Hc1 Hc2 Hc3. exfalso.
  pose proof (Nat.div_mod_eq (length l) 2). pose proof (Nat.mod_upper_bound (length l) 2).
  destruct (parent_spec c Hc1); lia.
Qed.

(** A heap but for one entry [j], which may come before its parent. *)
Definition heap_bump (j n : nat) l : Prop :=
  (∀ c, 0 < c → c < n → c ≠ j → lessl l c (parent c) = false) ∧
  (∀ c, 0 < c → c < n → parent c = j → 0 < j → lessl l c (parent j) = false).

Lemma up_list_heap fuel j l :
  j < length l → j < fuel → heap_bump j (length l) l →
  heap_from 0 (length l) (up_list lt fuel j l).
Proof.
  revert j l. induction fuel as [|fuel IH]; intros j l Hj Hfuel [Hh Hg]; [lia|]. cbn [up_list].
  destruct (parent j =? j) eqn:Hroot; bool_to_prop.
  { intros c Hc1 Hc2 _. apply Hh; try done. intros ->. pose proof (parent_lt j Hc1). lia. }
  assert (0 < j) as Hj0 by (destruct j; [done|lia]).
  pose proof (parent_lt j Hj0) as Hpj. set (i := parent j) in *.
  destruct (lookup_lt_is_Some_2 l i ltac:(lia)) as [x Hx].
  destruct (lookup_lt_is_Some_2 l j ltac:(lia)) as [y Hy].
  destruct (lessl l j i) eqn:Hji.
  - rewrite (lessl_lookup _ _ _ _ _ Hy Hx) in Hji.
    pose proof (swap_lookup_l i j l x y Hx Hy) as Hi'.
    pose proof (swap_lookup_r i j l x y Hx Hy) as Hj'.
    rewrite <- (length_swap i j l). apply IH; [rewrite length_swap; lia|lia|].
    rewrite length_swap. split.
    + intros c Hc1 Hc2 Hc3. pose proof (parent_lt c Hc1).
      destruct (lookup_lt_is_Some_2 l c ltac:(lia)) as [z Hz].
      destruct (decide (c = j)) as [->|Hcj].
      { fold i. rewrite (lessl_lookup _ _ _ _ _ Hj' Hi'). by apply lt_asym. }
      assert (swap i j l !! c = Some z) as Hz' by (rewrite swap_lookup_ne by lia; done).
      destruct (decide (parent c = j)) as [Hpc|Hpc].
      { rewrite Hpc, (lessl_lookup _ _ _ _ _ Hz' Hj'), <- (lessl_lookup _ _ _ _ _ Hz Hx).
        apply Hg; lia. }
      destruct (decide (parent c = i)) as [Hpi|Hpi].
      { rewrite Hpi, (lessl_lookup _ _ _ _ _ Hz' Hi'). eapply le_trans; [by apply lt_asym, Hji|].
        rewrite <- (lessl_lookup _ _ _ _ _ Hz Hx), <- Hpi. by apply Hh. }
      rewrite lessl_swap_ne by lia. by apply Hh.
    + intros c Hc1 Hc2 Hc3 Hi0. pose proof (parent_lt c Hc1). pose proof (parent_lt i Hi0).
      destruct (lookup_lt_is_Some_2 l c ltac:(lia)) as [z Hz].
      destruct (lookup_lt_is_Some_2 l (parent i) ltac:(lia)) as [u Hu].
      assert (swap i j l !! parent i = Some u) as Hu' by (rewrite swap_lookup_ne by lia; done).
      assert (lt x u = false) as Hxu.
      { rewrite <- (lessl_lookup _ _ _ _ _ Hx Hu). apply Hh; lia. }
      destruct (decide (c = j)) as [->|Hcj].
      { by rewrite (lessl_lookup _ _ _ _ _ Hj' Hu'). }
      assert (swap i j l !! c = Some z) as Hz' by (rewrite swap_lookup_ne by lia; done).
      rewrite (lessl_lookup _ _ _ _ _ Hz' Hu'). eapply le_trans; [exact Hxu|].
      rewrite <- (lessl_lookup _ _ _ _ _ Hz Hx), <- Hc3. by apply Hh.
  - intros c Hc1 Hc2 _. destruct (decide (c = j)) as [->|]; [done|by apply Hh].
Qed.

(** The root of a heap comes before nothing that is in it. *)
Lemma heap_root n l c :
  n ≤ length l → heap_from 0 n l → c < n → lessl l c 0 = false.
Proof.
  intros Hn Hh. induction c as [c IH] using lt_wf_ind. intros Hc.
  destruct (decide (c = 0)) as [->|].
  - destruct (lookup_lt_is_Some_2 l 0 ltac:(lia)) as [x Hx].
    rewrite (lessl_lookup _ _ _ _ _ Hx Hx).
    destruct (lt x x) eqn:E; [by rewrite (lt_asym _ _ E) in E|done].
  - pose proof (parent_lt c ltac:(lia)). apply (lessl_trans l 0 (parent c) c);
      [apply lookup_lt_is_Some_2; lia..|apply IH; lia|apply Hh; lia].
Qed.

(** * Push and Pop *)

Definition push_list (x : A) l : list A := up_list lt (length l + 1) (length l) (l ++ [x]).

Lemma push_list_Permutation x l : push_list x l ≡ₚ x :: l.
Proof. unfold push_list. rewrite up_list_Permutation. by rewrite Permutation_app_comm. Qed.

Lemma length_push_list x l : length (push_list x l) = S (length l).
Proof. by rewrite push_list_Permutation. Qed.

Lemma lessl_app l k i j : i < length l → j < length l → lessl (l ++ k) i j = lessl l i j.
Proof. intros. unfold BinHeap.lessl. by rewrite !lookup_app_l by done. Qed.

Lemma push_list_heap x l :
  heap_from 0 (length l) l → heap_from 0 (length (push_list x l)) (push_list x l).
Proof.
  intros Hh. rewrite length_push_list. unfold push_list.
  replace (S (length l)) with (length (l ++ [x])) by (rewrite length_app; simpl; lia).
  apply up_list_heap; [rewrite length_app; simpl; lia|lia|]. rewrite length_app. simpl. split.
  - intros c Hc1 Hc2 Hc3. pose proof (parent_lt c Hc1).
    rewrite lessl_app by lia. apply Hh; lia.
  - intros c Hc1 Hc2 Hc3 _. pose proof (parent_lt c Hc1). lia.
Qed.

(** The list with its root exchanged with the last entry and sifted down: the popped entry is last. *)
Definition pop_list l : list A :=
  let n := length l - 1 in down_list lt n 0 n (swap 0 n l).

Lemma down_list_lookup fuel i n l k :
  i < n → n ≤ k → down_list lt fuel i n l !! k = l !! k.
Proof.
  revert i l. induction fuel as [|fuel IH]; intros i l Hi Hk; simpl; [done|].
  case_match; bool_to_prop; [done|]. case_match; [|done].
  assert (smaller_child lt l (i + (i + 0) + 1) n < n).
  { by apply smaller_child_lt. }
  rewrite IH by done. apply swap_lookup_ne; lia.
Qed.

Lemma pop_list_Permutation l : pop_list l ≡ₚ l.
Proof. unfold pop_list. by rewrite down_list_Permutation, swap_Permutation. Qed.

Lemma pop_list_last l x : l !! 0 = Some x → pop_list l !! (length l - 1) = Some x.
Proof.
  intros Hx. pose proof (lookup_lt_Some _ _ _ Hx). unfold pop_list.
  destruct (lookup_lt_is_Some_2 l (length l - 1) ltac:(lia)) as [y Hy].
  destruct (decide (length l - 1 = 0)) as [Hn|Hn].
  - rewrite Hn. simpl. rewrite Hn in Hy. by eapply swap_lookup_l.
  - rewrite down_list_lookup by lia. by eapply swap_lookup_r.
Qed.

Lemma lessl_take l n i j : i < n → j < n → lessl (take n l) i j = lessl l i j.
Proof. intros. unfold BinHeap.lessl. by rewrite !lookup_take_lt by done. Qed.

Lemma pop_list_heap l :
  heap_from 0 (length l) l →
  heap_from 0 (length (take (length l - 1) (pop_list l))) (take (length l - 1) (pop_list l)).
Proof.
  intros Hh c Hc1 Hc2 _. pose proof (parent_lt c Hc1).
  rewrite length_take in Hc2. rewrite lessl_take by lia. unfold pop_list.
  eapply (down_list_heap _ 0); [by rewrite length_swap; lia|lia|done| |done|lia|lia].
  split; [|by intros ? ? ? ? ?; lia].
  intros d Hd1 Hd2 _ Hd3. pose proof (parent_lt d Hd1).
  rewrite lessl_swap_ne by lia. apply Hh; lia.
Qed.

Lemma pop_list_split l x :
  l !! 0 = Some x → pop_list l = take (length l - 1) (pop_list l) ++ [x].
Proof.
  intros Hx. pose proof (lookup_lt_Some _ _ _ Hx).
  pose proof (Permutation_length (pop_list_Permutation l)) as Hlen.
  rewrite <- (take_drop (length l - 1) (pop_list l)) at 1. f_equal.
  erewrite drop_S by (by apply pop_list_last). f_equal. apply drop_ge. lia.
Qed.

(** * Heaps and sorted lists *)

Definition sorted l : Prop := StronglySorted (λ x y, lt x y = true) l.

Lemma sorted_head l x s :
  heap_from 0 (length l) l → sorted (x :: s) → x :: s ≡ₚ l → l !! 0 = Some x.
Proof.
  intros Hh Hs Hp. apply StronglySorted_inv in Hs as [_ Hmin].
  assert (x ∈ l) as Hx by (rewrite <- Hp; left).
  apply list_elem_of_lookup in Hx as [c Hc]. pose proof (lookup_lt_Some _ _ _ Hc).
  destruct (lookup_lt_is_Some_2 l 0 ltac:(lia)) as [y Hy].
  pose proof (heap_root (length l) l c ltac:(lia) Hh ltac:(lia)) as Hle.
  rewrite (lessl_lookup _ _ _ _ _ Hc Hy) in Hle.
  assert (y ∈ x :: s) as Hin by (rewrite Hp; by eapply list_elem_of_lookup_2).
  apply elem_of_cons in Hin as [->|Hin]; [done|].
  rewrite Forall_forall in Hmin. by rewrite (Hmin y Hin) in Hle.
Qed.

(** Taking the root out of a heap takes the head off the sorted list. *)
Lemma pop_list_sorted l x s :
  heap_from 0 (length l) l → sorted (x :: s) → x :: s ≡ₚ l →
  pop_list l = take (length l - 1) (pop_list l) ++ [x] ∧
  s ≡ₚ take (length l - 1) (pop_list l).
Proof.
  intros Hh Hs Hp. pose proof (sorted_head l x s Hh Hs Hp) as Hx.
  pose proof (pop_list_split l x Hx) as Hsp. split; [done|].
  apply (Permutation_cons_inv (a := x)). rewrite Hp, <- (pop_list_Permutation l) at 1.
  rewrite Hsp at 1. by rewrite Permutation_app_comm.
Qed.

(** Insertion into a sorted list, behind everything the new entry does not come before. *)
Fixpoint insert_sorted (x : A) l : list A :=
  match l with
  | [] => [x]
  | y :: l => if lt x y then x :: y :: l else y :: insert_sorted x l
  end.

Lemma insert_sorted_Permutation x l : insert_sorted x l ≡ₚ x :: l.
Proof.
  induction l as [|y l IH]; simpl; [done|]. case_match; [done|]. rewrite IH. by constructor.
Qed.

Hypothesis lt_trans : ∀ x y z, lt x y = true → lt y z = true → lt x z = true.

Lemma insert_sorted_sorted x l :
  sorted l → (∀ y, y ∈ l → lt x y = false → lt y x = true) → sorted (insert_sorted x l).
Proof.
  intros Hs Htot. induction Hs as [|y l Hs IH Hmin]; simpl; [by repeat constructor|].
  destruct (lt x y) eqn:Hxy.
  - constructor; [by constructor|]. constructor; [done|].
    eapply Forall_impl; [exact Hmin|]. simpl. intros z Hyz. by eapply lt_trans.
  - constructor; [apply IH; intros; apply Htot; [by right|done]|].
    rewrite insert_sorted_Permutation. constructor; [|done]. apply Htot; [by left|done].
Qed.

(** * Sorting in place by insertion *)

Fixpoint sift_list (j : nat) l : list A :=
  match j with
  | O => l
  | S i => if lessl l j i then sift_list i (swap j i l) else l
  end.

Fixpoint sort_list (k i : nat) l : list A :=
  match k with
  | O => l
  | S k => sort_list k (S i) (sift_list i l)
  end.

Lemma sift_list_Permutation j l : sift_list j l ≡ₚ l.
Proof.
  revert l. induction j as [|i IH]; intros l; cbn [sift_list]; [done|].
  case_match; [by rewrite IH, swap_Permutation|done].
Qed.

Lemma sort_list_Permutation k i l : sort_list k i l ≡ₚ l.
Proof.
  revert i l. induction k as [|k IH]; intros i l; cbn [sort_list]; [done|].
  by rewrite IH, sift_list_Permutation.
Qed.

Lemma swap_adjacent (pre post : list A) y x :
  swap (S (length pre)) (length pre) (pre ++ y :: x :: post) = pre ++ x :: y :: post.
Proof.
  unfold swap. rewrite lookup_app_r, list_lookup_middle by lia.
  replace (S (length pre) - length pre) with 1 by lia. simpl.
  rewrite insert_app_r_alt by lia. rewrite insert_app_r_alt by lia.
  replace (S (length pre) - length pre) with 1 by lia. rewrite Nat.sub_diag. done.
Qed.

Lemma sift_list_sorted pre x post :
  sorted pre → (∀ y, y ∈ pre → lt x y = false → lt y x = true) →
  ∃ pre', sift_list (length pre) (pre ++ x :: post) = pre' ++ post ∧ sorted pre' ∧ pre' ≡ₚ x :: pre.
Proof.
  revert post. induction pre as [|y pre IH] using rev_ind; intros post Hs Htot.
  { exists [x]. split_and!; [done|by repeat constructor|done]. }
  apply StronglySorted_app in Hs as (Hyp & Hs & _).
  rewrite length_app, Nat.add_1_r, <- app_assoc. cbn [sift_list app].
  rewrite (lessl_lookup _ _ _ x y).
  2: { rewrite lookup_app_r by lia. by replace (S (length pre) - length pre) with 1 by lia. }
  2: by rewrite list_lookup_middle.
  destruct (lt x y) eqn:Hxy.
  - rewrite swap_adjacent. destruct (IH (y :: post) Hs) as (pre' & -> & Hs' & Hp).
    { intros z Hz. apply Htot. apply elem_of_app. by left. }
    exists (pre' ++ [y]). split_and!; [by rewrite <- app_assoc| |].
    + apply StronglySorted_app. split_and!; [|done|by repeat constructor].
      intros z1 z2 Hz1 ->%list_elem_of_singleton. rewrite Hp in Hz1.
      apply elem_of_cons in Hz1 as [->|Hz1]; [done|]. apply Hyp; [done|by left].
    + rewrite Hp. simpl. by rewrite Permutation_app_comm.
  - exists ((pre ++ [y]) ++ [x]). split_and!; [by rewrite <- !app_assoc| |].
    + apply StronglySorted_app. split_and!; [|by apply StronglySorted_app; split_and!; [|done|by repeat constructor]|by repeat constructor].
      intros z1 z2 Hz1 ->%list_elem_of_singleton.
      assert (lt y x = true) as Hyx by (apply Htot; [apply elem_of_app; right; by left|done]).
      apply elem_of_app in Hz1 as [Hz1| ->%list_elem_of_singleton]; [|done].
      eapply lt_trans; [|exact Hyx]. apply Hyp; [done|by left].
    + rewrite (Permutation_app_comm (pre ++ [y])). done.
Qed.

Lemma sort_list_sorted pre post :
  sorted pre →
  (∀ x y, x ∈ pre ++ post → y ∈ pre ++ post → x ≠ y → lt x y = true ∨ lt y x = true) →
  NoDup (pre ++ post) → sorted (sort_list (length post) (length pre) (pre ++ post)).
Proof.
  revert pre. induction post as [|x post IH]; intros pre Hs Htot Hnd; cbn [length sort_list].
  { by rewrite app_nil_r. }
  destruct (sift_list_sorted pre x post) as (pre' & -> & Hs' & Hp); [done| |].
  { intros y Hy Hxy. apply NoDup_app in Hnd as (_ & Hnd & _).
    destruct (Htot x y) as [?|?]; [apply elem_of_app; right; by left|apply elem_of_app; by left|
      |congruence|done]. intros ->. apply (Hnd y Hy). by left. }
  replace (S (length pre)) with (length pre') by (by rewrite Hp).
  assert (pre' ++ post ≡ₚ pre ++ x :: post) as Heq by by rewrite Hp, <- Permutation_middle.
  apply IH; [done| |by rewrite Heq].
  intros a b. rewrite Heq. apply Htot.
Qed.

Lemma sorted_total s x y : sorted s → x ∈ s → y ∈ s → x ≠ y → lt x y = true ∨ lt y x = true.
Proof.
  induction 1 as [|z s _ IH Hz]; [by intros ?%elem_of_nil|]. rewrite Forall_forall in Hz.
  intros [->|Hx]%elem_of_cons [->|Hy]%elem_of_cons Hne; auto.
Qed.

Lemma sorted_NoDup s : sorted s → NoDup s.
Proof.
  induction 1 as [|z s _ IH Hz]; constructor; [|done]. rewrite Forall_forall in Hz.
  intros Hin. specialize (Hz z Hin). pose proof (lt_asym _ _ Hz). congruence.
Qed.

Lemma sorted_unique s s' : sorted s → sorted s' → s ≡ₚ s' → s = s'.
Proof.
  apply StronglySorted_unique_strong. intros x y _ _ Hxy Hyx.
  by rewrite (lt_asym _ _ Hxy) in Hyx.
Qed.

(** Sorting finds the one sorted list there is. *)
Lemma sort_list_is s l : sorted s → s ≡ₚ l → sort_list (length l - 1) 1 l = s.
Proof.
  intros Hs Hp. destruct l as [|x l]; [by apply Permutation_nil_r in Hp as ->|].
  apply sorted_unique; [|done|by rewrite sort_list_Permutation].
  simpl. rewrite Nat.sub_0_r. apply (sort_list_sorted [x] l); [by repeat constructor| |].
  - intros a b. simpl. rewrite <- Hp. by apply sorted_total.
  - simpl. rewrite <- Hp. by apply sorted_NoDup.
Qed.

Lemma sorted_heap s : sorted s → heap_from 0 (length s) s.
Proof.
  intros Hs c Hc Hn _. pose proof (parent_lt c Hc).
  destruct (lookup_lt_is_Some_2 s c Hn) as [x Hx].
  destruct (lookup_lt_is_Some_2 s (parent c) ltac:(lia)) as [y Hy].
  rewrite (lessl_lookup _ _ _ _ _ Hx Hy). apply lt_asym.
  rewrite <- (take_drop (S (parent c)) s) in Hs.
  eapply (StronglySorted_app_1_elem_of (λ x y, lt x y = true)); [exact Hs| |].
  - apply list_elem_of_lookup. exists (parent c). rewrite lookup_take_lt by lia. done.
  - apply list_elem_of_lookup. exists (c - S (parent c)). rewrite lookup_drop.
    rewrite <- Hx. f_equal. lia.
Qed.
End order.
