(* ===== verification/Contract.v ===== *)
(** The contract of a Backing (the [Backing] interface of core/item.go): an abstract queue whose
    contents are one list in dequeue order, each entry marked as restored by Hydrate or admitted by
    Push. Every operation is a program of the machine, with the guards, the order of effects and the
    error results that the interface promises; the backings refine it operation by operation. *)

From S2P Require Import Prelude Errors Machine Core.

Record entry (T : Type) := Entry { e_item : T; e_restored : bool }.
Arguments Entry {T} _ _.
Arguments e_item {T} _.
Arguments e_restored {T} _.

Record QState (W T : Type) := MkQ {
  q_items : list (entry T);
  q_maxSize : Z;
  q_inflight : Z;
  q_notFull : Signal;
  q_notEmpty : Signal;
  q_closed : bool;
  q_backup : option (Backup W T);
}.
Arguments MkQ {W T} _ _ _ _ _ _ _.
Arguments q_items {W T} _.
Arguments q_maxSize {W T} _.
Arguments q_inflight {W T} _.
Arguments q_notFull {W T} _.
Arguments q_notEmpty {W T} _.
Arguments q_closed {W T} _.
Arguments q_backup {W T} _.

Section contract.
Context {W T : Type} `{!Item W T} `{!World W}.
Abbreviation Q := (QState W T).
Abbreviation M := (go (QState W T) W).

(** The order of the queue: [before a b] when [a] leaves ahead of a [b] that is already queued. It
    is constantly false for a FIFO queue and the items' [Less] for a priority queue. *)
Variable priority : bool.
Variable before : T → T → bool.

Definition set_items (l : list (entry T)) (q : Q) : Q :=
  MkQ l (q_maxSize q) (q_inflight q) (q_notFull q) (q_notEmpty q) (q_closed q) (q_backup q).
Definition set_closed (c : bool) (q : Q) : Q :=
  MkQ (q_items q) (q_maxSize q) (q_inflight q) (q_notFull q) (q_notEmpty q) c (q_backup q).
Definition set_backup (b : option (Backup W T)) (q : Q) : Q :=
  MkQ (q_items q) (q_maxSize q) (q_inflight q) (q_notFull q) (q_notEmpty q) (q_closed q) b.

Definition inflight_l : lens Q Z := Lens q_inflight (λ i q,
  MkQ (q_items q) (q_maxSize q) i (q_notFull q) (q_notEmpty q) (q_closed q) (q_backup q)).
Definition notFull_l : lens Q Signal := Lens q_notFull (λ g q,
  MkQ (q_items q) (q_maxSize q) (q_inflight q) g (q_notEmpty q) (q_closed q) (q_backup q)).
Definition notEmpty_l : lens Q Signal := Lens q_notEmpty (λ g q,
  MkQ (q_items q) (q_maxSize q) (q_inflight q) (q_notFull q) g (q_closed q) (q_backup q)).

(** A new entry goes behind every entry it does not leave before. *)
Fixpoint insert_entry (x : entry T) (l : list (entry T)) : list (entry T) :=
  match l with
  | [] => [x]
  | y :: l => if before (e_item x) (e_item y) then x :: y :: l else y :: insert_entry x l
  end.

Definition insert_all (vs : list T) (restored : bool) (l : list (entry T)) : list (entry T) :=
  foldl (λ l v, insert_entry (Entry v restored) l) l vs.

(** The restored entries still queued: they are exempt from the bound. *)
Definition exempt (l : list (entry T)) : Z := zlen (filter (λ e, e_restored e = true) l).

(** What counts against [maxSize]. *)
Definition load (q : Q) : Z := (zlen (q_items q) - exempt (q_items q) + q_inflight q)%Z.

Definition ClosedOrCause (ctx : Ctx W) : M (option err) :=
  RLock;;
  q ← getb;
  RUnlock;;
  if q_closed q then mret (Some (Sentinel ErrClosed))
  else w ← getw; mret (ctx_cause ctx w).

Definition Push (ctx : Ctx W) (vs : list T) (options : list (OpOption W)) : M (option err) :=
  '(opts, oe) ← ResolveOpOptions CallPush options;
  match oe with
  | Some e => mret (Some e)
  | None =>
  iferr e := ValidateKind priority vs then mret (Some e) else
  forever (
    Lock;;
    q ← getb;
    if q_closed q then Unlock;; return_ (Some (Sentinel ErrClosed))
    else if ((0 <? q_maxSize q) && (q_maxSize q <? zlen vs))%Z
    then Unlock;; return_ (Some (Sentinel ErrBatchTooLarge))
    else if ((q_maxSize q =? 0) || (load q + zlen vs <=? q_maxSize q))%Z then
      iferr e :=
        match OnAdmit opts with
        | None => mret None
        | Some hook =>
            iferr e := RunOnAdmit inflight_l (zlen vs) notFull_l hook
            then mret (Some e)
            else
              q ← getb;
              if q_closed q
              then ReleaseReservation opts notFull_l;; mret (Some (Sentinel ErrClosed))
              else mret None
        end
      then Unlock;; return_ (Some e) else
      let give_back := ReleaseReservation opts notFull_l;; Unlock in
      iferr e := RunSideEffectLocked (SideEffect opts) give_back
      then give_back;; return_ (Some e) else
      q ← getb;
      iferr e :=
        match q_backup q with
        | None => mret None
        | Some b => RunBackup (bk_Push b ctx vs) give_back
        end
      then give_back;; return_ (Some e) else
      q ← getb;
      let wasEmpty := (zlen (q_items q) =? 0)%Z in
      updb (λ q, set_items (insert_all vs false (q_items q)) q);;
      (if wasEmpty then SignalIfWaiters notEmpty_l else mret ());;
      Unlock;;
      return_ None
    else
      iferr e := Wait notFull_l ctx Unlock
      then r ← ClosedOrCause ctx; return_ r
      else continue_)
  end.

Definition Pop (ctx : Ctx W) (n : Z) (options : list (OpOption W)) : M (list T * option err) :=
  '(opts, oe) ← ResolveOpOptions CallPop options;
  match oe with
  | Some e => mret ([], Some e)
  | None =>
  forever (
    Lock;;
    q ← getb;
    if q_closed q then Unlock;; return_ ([], Some (Sentinel ErrClosed))
    else if (0 <? zlen (q_items q))%Z then
      let k := Z.to_nat (Z.min n (zlen (q_items q))) in
      iferr e := RunSideEffectLocked (SideEffect opts) Unlock
      then Unlock;; return_ ([], Some e) else
      q ← getb;
      let out := e_item <$> take k (q_items q) in
      iferr e :=
        match q_backup q with
        | None => mret None
        | Some b => RunBackup (bk_Del b ctx out) Unlock
        end
      then Unlock;; return_ ([], Some e) else
      updb (λ q, set_items (drop k (q_items q)) q);;
      SignalIfWaiters notFull_l;;
      Unlock;;
      return_ (out, None)
    else
      iferr e := Wait notEmpty_l ctx Unlock
      then r ← ClosedOrCause ctx; return_ ([], r)
      else continue_)
  end.

(** [defer RUnlock()] and [defer Unlock()] around a read or a write section. *)
Definition reading {A} (body : M A) : M A := RLock;; defer RUnlock body.
Definition writing {A} (body : M A) : M A := Lock;; defer Unlock body.

Definition Peek (ctx : Ctx W) (options : list (OpOption W)) : M (T * bool * option err) :=
  '(opts, oe) ← ResolveOpOptions CallPeek options;
  match oe with
  | Some e => mret (zero, false, Some e)
  | None =>
  reading (
    q ← getb;
    if q_closed q then mret (zero, false, Some (Sentinel ErrClosed))
    else match q_items q with
    | [] => e ← RunSideEffect (SideEffect opts); mret (zero, false, e)
    | x :: _ => e ← RunSideEffect (SideEffect opts); mret (e_item x, true, e)
    end)
  end.

(** The linear scan of Exists, in queue order. *)
Fixpoint scan (v : T) (l : list T) : M bool :=
  match l with
  | [] => mret false
  | x :: l => m ← call (Equal x v); if m : bool then mret true else scan v l
  end.

Definition Exists_ (ctx : Ctx W) (v : T) (options : list (OpOption W)) : M (bool * option err) :=
  '(opts, oe) ← ResolveOpOptions CallExists options;
  match oe with
  | Some e => mret (false, Some e)
  | None =>
  reading (
    q ← getb;
    if q_closed q then mret (false, Some (Sentinel ErrClosed))
    else
      m ← scan v (e_item <$> q_items q);
      e ← RunSideEffect (SideEffect opts);
      mret (m, e))
  end.

(** Which entries match an element of [v], in queue order. *)
Fixpoint matching (v : list T) (l : list T) : M (list bool) :=
  match l with
  | [] => mret []
  | x :: l => m ← MatchesAny x v; ms ← matching v l; mret (m :: ms)
  end.

(** The entries whose mark is [keep]. *)
Fixpoint select {A} (keep : bool) (ms : list bool) (l : list A) : list A :=
  match ms, l with
  | m :: ms, x :: l => if Bool.eqb m keep then x :: select keep ms l else select keep ms l
  | _, _ => []
  end.

Definition Del (ctx : Ctx W) (v : list T) (options : list (OpOption W)) : M (Z * option err) :=
  '(opts, oe) ← ResolveOpOptions CallDel options;
  match oe with
  | Some e => mret (0%Z, Some e)
  | None =>
  writing (
    q ← getb;
    if q_closed q then mret (0%Z, Some (Sentinel ErrClosed))
    else
      ms ← matching v (e_item <$> q_items q);
      let removed := select true ms (e_item <$> q_items q) in
      if (zlen removed =? 0)%Z then e ← RunSideEffect (SideEffect opts); mret (0%Z, e)
      else
      iferr e := RunSideEffect (SideEffect opts) then mret (0%Z, Some e) else
      q ← getb;
      iferr e :=
        match q_backup q with
        | None => mret None
        | Some b => e ← call (bk_Del b ctx removed); mret (WrapBackup e)
        end
      then mret (0%Z, Some e) else
      updb (λ q, set_items (select false ms (q_items q)) q);;
      SignalIfWaiters notFull_l;;
      mret (zlen removed, None))
  end.

Definition NotEmpty (ctx : Ctx W) (options : list (OpOption W)) : M (option err) :=
  '(opts, oe) ← ResolveOpOptions CallNotEmpty options;
  match oe with
  | Some e => mret (Some e)
  | None =>
  forever (
    RLock;;
    q ← getb;
    if q_closed q then RUnlock;; return_ (Some (Sentinel ErrClosed))
    else if (0 <? zlen (q_items q))%Z then
      e ← RunSideEffectLocked (SideEffect opts) RUnlock;
      RUnlock;;
      return_ e
    else
      iferr e := Wait notEmpty_l ctx RUnlock
      then r ← ClosedOrCause ctx; return_ r
      else continue_)
  end.

Definition NotFull (ctx : Ctx W) (options : list (OpOption W)) : M (option err) :=
  '(opts, oe) ← ResolveOpOptions CallNotFull options;
  match oe with
  | Some e => mret (Some e)
  | None =>
  forever (
    RLock;;
    q ← getb;
    if q_closed q then RUnlock;; return_ (Some (Sentinel ErrClosed))
    else if ((q_maxSize q =? 0) || (load q <? q_maxSize q))%Z then
      e ← RunSideEffectLocked (SideEffect opts) RUnlock;
      RUnlock;;
      return_ e
    else
      iferr e := Wait notFull_l ctx RUnlock
      then r ← ClosedOrCause ctx; return_ r
      else continue_)
  end.

Definition Len : M Z := reading (q ← getb; mret (zlen (q_items q))).

Definition Close (ctx : Ctx W) (options : list (OpOption W)) : M (option err) :=
  '(opts, oe) ← ResolveOpOptions CallClose options;
  match oe with
  | Some e => mret (Some e)
  | None =>
  Lock;;
  q ← getb;
  if q_closed q then
    e ← RunSideEffectLocked (SideEffect opts) Unlock;
    Unlock;;
    mret e
  else
    iferr e := RunSideEffectLocked (SideEffect opts) Unlock then Unlock;; mret (Some e) else
    q ← getb;
    let close_and_wake :=
      updb (set_closed true);;
      Unlock;;
      DoSignal notEmpty_l;;
      DoSignal notFull_l in
    e ← match q_backup q with
        | None => mret None
        | Some b => RunBackup (bk_Close b ctx) close_and_wake
        end;
    close_and_wake;;
    mret e
  end.

Definition Clear (ctx : Ctx W) (options : list (OpOption W)) : M (option err) :=
  '(opts, oe) ← ResolveOpOptions CallClear options;
  match oe with
  | Some e => mret (Some e)
  | None =>
  writing (
    q ← getb;
    if q_closed q then mret (Some (Sentinel ErrClosed))
    else if (zlen (q_items q) =? 0)%Z then RunSideEffect (SideEffect opts)
    else
      iferr e := RunSideEffect (SideEffect opts) then mret (Some e) else
      q ← getb;
      iferr e :=
        match q_backup q with
        | None => mret None
        | Some b => e ← call (bk_Clear b ctx); mret (WrapBackup e)
        end
      then mret (Some e) else
      updb (set_items []);;
      SignalIfWaiters notFull_l;;
      mret None)
  end.

(** The items of an iteration, each after a look at the context. The result says whether the
    consumer is still there. *)
Fixpoint yield_all (ctx : Ctx W) (yield : T → option err → code W bool) (l : list T)
    : M unit :=
  match l with
  | [] => mret ()
  | x :: l =>
      d ← ctx_done ctx;
      match d with
      | Some c => call (yield zero (Some c));; mret ()
      | None =>
          more ← call (yield x None);
          if more : bool then yield_all ctx yield l else mret ()
      end
  end.

(** [All]: the lock is held throughout, the read lock or ([excl], for a backing that reorders its
    storage to iterate) the write lock. *)
Definition All (excl : bool) (ctx : Ctx W) (yield : T → option err → code W bool) : M unit :=
  (if excl then writing else reading) (
    q ← getb;
    if q_closed q then call (yield zero (Some (Sentinel ErrClosed)));; mret ()
    else yield_all ctx yield (e_item <$> q_items q)).

(** Hydrate: the backup's items in order, validated and offered to OnLoad, then the attach. *)
Fixpoint hydrate_from (ctx : Ctx W) (b : Backup W T)
    (steps : list (code W (option (T * option err)))) : M (option err) :=
  match steps with
  | [] => updb (set_backup (Some b));; mret None
  | step :: steps =>
      o ← call step;
      match o with
      | None => updb (set_backup (Some b));; mret None
      | Some (v, Some e) => mret (WrapBackup (Some e))
      | Some (v, None) =>
          iferr e := ValidateKindOne priority v then mret (Some e) else
          iferr e := call (bk_OnLoad b ctx v) then mret (WrapBackup (Some e)) else
          updb (λ q, set_items (insert_entry (Entry v true) (q_items q)) q);;
          hydrate_from ctx b steps
      end
  end.

Definition Hydrate (ctx : Ctx W) (b : Backup W T) : M (option err) :=
  writing (hydrate_from ctx b (bk_RangeAll b ctx)).
End contract.
