(* ===== verification/Logic.v ===== *)
(** Program logic for the machine: a unary weakest precondition (what an operation guarantees on
    every way it can end) and a relational one (two backings running in lockstep), each with one
    rule per construct and a tactic that applies the rules. *)

From S2P Require Import Prelude Errors Machine Core.

(** * Related machines *)

(** Two runs of interference are related when they take related backings to related backings and
    treat the world alike. *)
Definition env_rel {B1 B2 W} (R : B1 → B2 → Prop) (e1 : B1 → W → B1 * W) (e2 : B2 → W → B2 * W)
    : Prop :=
  ∀ b1 b2 w, R b1 b2 → R (e1 b1 w).1 (e2 b2 w).1 ∧ (e1 b1 w).2 = (e2 b2 w).2.

Record mrel {B1 B2 W} (R : B1 → B2 → Prop) (s1 : mach B1 W) (s2 : mach B2 W) : Prop := MRel {
  mrel_b : R (mb s1) (mb s2);
  mrel_lk : mlk s1 = mlk s2;
  mrel_w : mw s1 = mw s2;
  mrel_env : Forall2 (env_rel R) (menv s1) (menv s2);
}.

(** * Unary weakest precondition *)

(** [wp m Q U s]: from [s], [m] returns in a state satisfying [Q], unwinds with [u] in one satisfying
    [U (Some u)] or stays parked in one satisfying [U None]; it never faults. *)
Definition wp {B W A} (m : go B W A) (Q : A → mach B W → Prop) (U : option unwind → mach B W → Prop)
    (s : mach B W) : Prop :=
  match m s with
  | (Done a, t) => Q a t
  | (Unwound u, t) => U (Some u) t
  | (Parked, t) => U None t
  | (Fatal, _) => False
  end.

(** [rwp m1 m2 Q U s1 s2]: the two programs end the same way, in states related by [Q] on return and
    by [U] otherwise. *)
Definition rwp {B1 B2 W A1 A2} (m1 : go B1 W A1) (m2 : go B2 W A2)
    (Q : A1 → A2 → mach B1 W → mach B2 W → Prop) (U : mach B1 W → mach B2 W → Prop)
    (s1 : mach B1 W) (s2 : mach B2 W) : Prop :=
  match m1 s1, m2 s2 with
  | (Done a1, t1), (Done a2, t2) => Q a1 a2 t1 t2
  | (Unwound u1, t1), (Unwound u2, t2) => u1 = u2 ∧ U t1 t2
  | (Parked, t1), (Parked, t2) => U t1 t2
  | (Fatal, t1), (Fatal, t2) => U t1 t2
  | _, _ => False
  end.

(** Refinement of one operation: related machines in, the same outcome and related machines out. *)
Definition refines {B1 B2 W A} (R : B1 → B2 → Prop) (m1 : go B1 W A) (m2 : go B2 W A) : Prop :=
  ∀ s1 s2, mrel R s1 s2 →
    rwp m1 m2 (λ a1 a2 t1 t2, a1 = a2 ∧ mrel R t1 t2) (mrel R) s1 s2.

(** The interference keeps each member of a family of invariants, whose index is what this goroutine
    has reserved and nobody else may take away. Under [latched], a context that is done stays done,
    with the same cause. *)
Definition rely {B W} (I : Z → B → Prop) (latched : Prop) (ctx : Ctx W)
    (e : list (B → W → B * W)) : Prop :=
  Forall (λ f,
    (∀ r b w, (0 ≤ r)%Z → I r b → I r (f b w).1) ∧
    (latched → ∀ b w c, ctx_cause ctx w = Some c → ctx_cause ctx (f b w).2 = Some c)) e.

Section unary.
Context {B W : Type}.
Implicit Types (s : mach B W) (U : option unwind → mach B W → Prop).

Lemma wp_mono {A} (m : go B W A) (Q Q' : A → mach B W → Prop) U U' s :
  (∀ a t, Q a t → Q' a t) → (∀ u t, U u t → U' u t) → wp m Q U s → wp m Q' U' s.
Proof. unfold wp. destruct (m s) as [[] ?]; auto. Qed.

Lemma wp_and {A} (m : go B W A) (Q Q' : A → mach B W → Prop) U U' s :
  wp m Q U s → wp m Q' U' s → wp m (λ a t, Q a t ∧ Q' a t) (λ u t, U u t ∧ U' u t) s.
Proof. unfold wp. destruct (m s) as [[] ?]; auto. Qed.

(** What a [wp] says about a run that is known. *)
Lemma wp_done {A} (m : go B W A) (Q : A → mach B W → Prop) U s a t :
  wp m Q U s → m s = (Done a, t) → Q a t.
Proof. unfold wp. intros Hm Hr. by rewrite Hr in Hm. Qed.
Lemma wp_unwound {A} (m : go B W A) (Q : A → mach B W → Prop) U s u t :
  wp m Q U s → m s = (Unwound u, t) → U (Some u) t.
Proof. unfold wp. intros Hm Hr. by rewrite Hr in Hm. Qed.

Lemma wp_bind {A C} (m : go B W A) (k : A → go B W C) Q U s :
  wp m (λ a t, wp (k a) Q U t) U s → wp (m ≫= k) Q U s.
Proof. unfold wp, mbind, go_bind. destruct (m s) as [[] ?]; auto. Qed.

Lemma wp_ret {A} (a : A) (Q : A → mach B W → Prop) U s : Q a s → wp (mret a) Q U s.
Proof. done. Qed.

Lemma wp_getb (Q : B → mach B W → Prop) U s : Q (mb s) s → wp getb Q U s.
Proof. done. Qed.

Lemma wp_getw (Q : W → mach B W → Prop) U s : Q (mw s) s → wp getw Q U s.
Proof. done. Qed.

Lemma wp_updb f (Q : unit → mach B W → Prop) U b l w e :
  Q () (Mach (f b) l w e) → wp (updb f) Q U (Mach b l w e).
Proof. done. Qed.

Lemma wp_updw f (Q : unit → mach B W → Prop) U b l w e :
  Q () (Mach b l (f w) e) → wp (updw f) Q U (Mach b l w e).
Proof. done. Qed.

Lemma wp_call {A} (c : code W A) (Q : A → mach B W → Prop) U b l w e :
  (∀ a w', c w = (Ok a, w') → Q a (Mach b l w' e)) → (∀ u w, U (Some u) (Mach b l w e)) →
  wp (call c) Q U (Mach b l w e).
Proof. intros HQ HU. unfold wp, call. simpl. destruct (c w) as [[] ?] eqn:?; auto. Qed.

Lemma wp_gopanic {A} (Q : A → mach B W → Prop) U s : U (Some Panicked) s → wp gopanic Q U s.
Proof. done. Qed.

Lemma wp_Unlock (Q : unit → mach B W → Prop) U b w e :
  Q () (Mach b Unlocked w e) → wp Unlock Q U (Mach b WLocked w e).
Proof. done. Qed.

Lemma wp_RUnlock (Q : unit → mach B W → Prop) U b w e :
  Q () (Mach b Unlocked w e) → wp RUnlock Q U (Mach b RLocked w e).
Proof. done. Qed.

Lemma wp_acquire (I : Z → B → Prop) latched ctx r l (Q : unit → mach B W → Prop) U b w e :
  (0 ≤ r)%Z → I r b → rely I latched ctx e →
  (∀ b w' e', I r b → rely I latched ctx e' → length e' ≤ length e →
     (latched → ∀ c, ctx_cause ctx w = Some c → ctx_cause ctx w' = Some c) → Q () (Mach b l w' e')) →
  wp (acquire l) Q U (Mach b Unlocked w e).
Proof.
  intros Hr Hb He HQ. unfold wp, acquire, interfere. simpl. destruct e as [|f e]; simpl.
  - by apply HQ.
  - inversion_clear He as [|?? [Hf Hc] ?]. destruct (f b w) as [b' w'] eqn:Hfb. simpl.
    specialize (Hf r b w Hr Hb). rewrite Hfb in Hf.
    apply HQ; [done|done|simpl; lia|]. intros Hl. specialize (Hc Hl b w). by rewrite Hfb in Hc.
Qed.

Lemma wp_Park (I : Z → B → Prop) latched ctx r l (Q : unit → mach B W → Prop) U b w e :
  (0 ≤ r)%Z → I r b → rely I latched ctx e →
  (e = [] → U None (Mach b l w e)) →
  (∀ b w e', I r b → rely I latched ctx e' → length e' < length e → Q () (Mach b l w e')) →
  wp Park Q U (Mach b l w e).
Proof.
  intros Hr Hb He HU HQ. unfold wp, Park, interfere. simpl. destruct e as [|f e]; simpl; [by apply HU|].
  inversion_clear He as [|?? [Hf _] ?]. destruct (f b w) as [b' w'] eqn:Hfb. simpl.
  apply HQ; [|done|simpl; lia]. by specialize (Hf r b w Hr Hb); rewrite Hfb in Hf.
Qed.

Lemma wp_defer {A} (r : go B W unit) (m : go B W A) Q U s :
  wp m (λ a t, wp r (λ _ t', Q a t') U t)
    (λ u t, match u with Some u => wp r (λ _ t', U (Some u) t') U t | None => U None t end) s →
  wp (defer r m) Q U s.
Proof.
  unfold wp, defer. destruct (m s) as [[] t]; try done; by destruct (r t) as [[] ?].
Qed.

(** Caller code under a completion-flag guard. *)
Lemma wp_on_unwind_call {A} (c : code W A) (r : go B W unit) (Q : A → mach B W → Prop) U b l w e :
  (∀ a w', c w = (Ok a, w') → Q a (Mach b l w' e)) →
  (∀ u w, wp r (λ _ t', U (Some u) t') U (Mach b l w e)) →
  wp (on_unwind (call c) r) Q U (Mach b l w e).
Proof.
  intros HQ HU. unfold wp, on_unwind, call. simpl. destruct (c w) as [[a|u] w'] eqn:?; [auto|].
  specialize (HU u w'). unfold wp in HU. by destruct (r _) as [[] ?].
Qed.

(** The release of a body that never unwinds never runs. *)
Lemma wp_on_unwind_never {A} (m : go B W A) (r : go B W unit) (Q : A → mach B W → Prop) s :
  wp m Q (λ _ _, False) s → wp (on_unwind m r) Q (λ _ _, False) s.
Proof. unfold wp, on_unwind. by destruct (m s) as [[] ?]. Qed.

(** Loops: an invariant of the loop head that every trip round either leaves with a result or
    restores with less interference left. *)
Lemma wp_forever {R} (J : mach B W → Prop) (body : go B W (option R)) Q U s :
  J s →
  (∀ t, J t →
     wp body (λ o t', match o with
                      | Some r => Q r t'
                      | None => J t' ∧ length (menv t') < length (menv t)
                      end) U t) →
  wp (forever body) Q U s.
Proof.
  intros HJ Hbody. unfold wp, forever.
  assert (∀ n t, J t → length (menv t) < n →
    match for_fuel n body t with
    | (Done a, t') => Q a t'
    | (Unwound u, t') => U (Some u) t'
    | (Parked, t') => U None t'
    | (Fatal, _) => False
    end) as Hloop; [|apply Hloop; [done|lia]].
  induction n as [|n IH]; intros t Ht Hn; [lia|]. simpl.
  specialize (Hbody t Ht). unfold wp in Hbody.
  destruct (body t) as [[[r|]| | |] t'] eqn:?; auto.
  destruct Hbody as [? ?]. apply IH; [done|lia].
Qed.
End unary.

Section relational.
Context {B1 B2 W : Type}.

Lemma rwp_mono {A1 A2} (m1 : go B1 W A1) (m2 : go B2 W A2)
    (Q Q' : A1 → A2 → mach B1 W → mach B2 W → Prop) (U U' : mach B1 W → mach B2 W → Prop) s1 s2 :
  (∀ a1 a2 t1 t2, Q a1 a2 t1 t2 → Q' a1 a2 t1 t2) → (∀ t1 t2, U t1 t2 → U' t1 t2) →
  rwp m1 m2 Q U s1 s2 → rwp m1 m2 Q' U' s1 s2.
Proof. unfold rwp. destruct (m1 s1) as [[] ?], (m2 s2) as [[] ?]; naive_solver. Qed.

Lemma rwp_bind {A1 A2 C1 C2} (m1 : go B1 W A1) (m2 : go B2 W A2)
    (k1 : A1 → go B1 W C1) (k2 : A2 → go B2 W C2) Q U s1 s2 :
  rwp m1 m2 (λ a1 a2 t1 t2, rwp (k1 a1) (k2 a2) Q U t1 t2) U s1 s2 →
  rwp (m1 ≫= k1) (m2 ≫= k2) Q U s1 s2.
Proof.
  unfold rwp, mbind, go_bind. destruct (m1 s1) as [[] ?], (m2 s2) as [[] ?]; naive_solver.
Qed.

Lemma rwp_assoc_l {A1 A2 C D} (m : go B1 W C) (k : C → go B1 W D) (h : D → go B1 W A1)
    (m2 : go B2 W A2) Q U s1 s2 :
  rwp (m ≫= λ a, k a ≫= h) m2 Q U s1 s2 → rwp ((m ≫= k) ≫= h) m2 Q U s1 s2.
Proof. unfold rwp, mbind, go_bind. by destruct (m s1) as [[] ?]. Qed.
Lemma rwp_assoc_r {A1 A2 C D} (m1 : go B1 W A1) (m : go B2 W C) (k : C → go B2 W D)
    (h : D → go B2 W A2) Q U s1 s2 :
  rwp m1 (m ≫= λ a, k a ≫= h) Q U s1 s2 → rwp m1 ((m ≫= k) ≫= h) Q U s1 s2.
Proof. unfold rwp, mbind, go_bind. by destruct (m s2) as [[] ?]. Qed.

Lemma rwp_ret {A1 A2} (a1 : A1) (a2 : A2) (Q : A1 → A2 → mach B1 W → mach B2 W → Prop) U s1 s2 :
  Q a1 a2 s1 s2 → rwp (mret a1) (mret a2) Q U s1 s2.
Proof. done. Qed.

(** Reads and local updates, one side at a time. *)
Lemma rwp_getb_l {A1 A2} (k : B1 → go B1 W A1) (m2 : go B2 W A2) Q U s1 s2 :
  rwp (k (mb s1)) m2 Q U s1 s2 → rwp (getb ≫= k) m2 Q U s1 s2.
Proof. done. Qed.
Lemma rwp_getb_r {A1 A2} (m1 : go B1 W A1) (k : B2 → go B2 W A2) Q U s1 s2 :
  rwp m1 (k (mb s2)) Q U s1 s2 → rwp m1 (getb ≫= k) Q U s1 s2.
Proof. done. Qed.
Lemma rwp_updb_l {A1 A2} f (k : unit → go B1 W A1) (m2 : go B2 W A2) Q U b l w e s2 :
  rwp (k ()) m2 Q U (Mach (f b) l w e) s2 → rwp (updb f ≫= k) m2 Q U (Mach b l w e) s2.
Proof. done. Qed.
Lemma rwp_updb_r {A1 A2} f (m1 : go B1 W A1) (k : unit → go B2 W A2) Q U s1 b l w e :
  rwp m1 (k ()) Q U s1 (Mach (f b) l w e) → rwp m1 (updb f ≫= k) Q U s1 (Mach b l w e).
Proof. done. Qed.
Lemma rwp_updb f1 f2 (Q : unit → unit → mach B1 W → mach B2 W → Prop) U b1 l1 w1 e1 b2 l2 w2 e2 :
  Q () () (Mach (f1 b1) l1 w1 e1) (Mach (f2 b2) l2 w2 e2) →
  rwp (updb f1) (updb f2) Q U (Mach b1 l1 w1 e1) (Mach b2 l2 w2 e2).
Proof. done. Qed.
Lemma rwp_ret_l {A1 A2 C} (a : C) (k : C → go B1 W A1) (m2 : go B2 W A2) Q U s1 s2 :
  rwp (k a) m2 Q U s1 s2 → rwp (mret a ≫= k) m2 Q U s1 s2.
Proof. done. Qed.
Lemma rwp_ret_r {A1 A2 C} (a : C) (m1 : go B1 W A1) (k : C → go B2 W A2) Q U s1 s2 :
  rwp m1 (k a) Q U s1 s2 → rwp m1 (mret a ≫= k) Q U s1 s2.
Proof. done. Qed.

(** One side runs on its own. *)
Lemma rwp_wp_l {A1 A2 C} (m : go B1 W C) (k : C → go B1 W A1) (m2 : go B2 W A2)
    (K : C → mach B1 W → Prop) Q U s1 s2 :
  wp m K (λ _ _, False) s1 → (∀ a t, K a t → rwp (k a) m2 Q U t s2) →
  rwp (m ≫= k) m2 Q U s1 s2.
Proof. intros Hm Hk. unfold rwp, mbind, go_bind, wp in *. destruct (m s1) as [[] ?]; try done. by apply Hk. Qed.
Lemma rwp_eval_r {A1 A2 C} (m1 : go B1 W A1) (m : go B2 W C) (k : C → go B2 W A2) a t Q U s1 s2 :
  m s2 = (Done a, t) → rwp m1 (k a) Q U s1 t → rwp m1 (m ≫= k) Q U s1 s2.
Proof. intros Hm Hk. unfold rwp, mbind, go_bind in *. by rewrite Hm. Qed.

Lemma rwp_eval_l {A1 A2 C} (m : go B1 W C) (k : C → go B1 W A1) (m2 : go B2 W A2) a t Q U s1 s2 :
  m s1 = (Done a, t) → rwp (k a) m2 Q U t s2 → rwp (m ≫= k) m2 Q U s1 s2.
Proof. intros Hm Hk. unfold rwp, mbind, go_bind in *. by rewrite Hm. Qed.
Lemma rwp_evals {A1 A2} (m1 : go B1 W A1) (m2 : go B2 W A2) a1 a2 t1 t2 (Q : _ → _ → _ → _ → Prop)
    U s1 s2 :
  m1 s1 = (Done a1, t1) → m2 s2 = (Done a2, t2) → Q a1 a2 t1 t2 → rwp m1 m2 Q U s1 s2.
Proof. intros Hm1 Hm2 HQ. unfold rwp. by rewrite Hm1, Hm2. Qed.
Lemma rwp_ext_l {A1 A2} (m m' : go B1 W A1) (m2 : go B2 W A2) Q U s1 s2 :
  m s1 = m' s1 → rwp m' m2 Q U s1 s2 → rwp m m2 Q U s1 s2.
Proof. intros Hm Hk. unfold rwp in *. by rewrite Hm. Qed.

Lemma rwp_map_r {A1 A2 C} (g : A2 → C) (m1 : go B1 W A1) (m2 : go B2 W A2)
    (Q : A1 → C → mach B1 W → mach B2 W → Prop) U s1 s2 :
  rwp m1 m2 (λ a1 a2, Q a1 (g a2)) U s1 s2 → rwp m1 (m2 ≫= λ a, mret (g a)) Q U s1 s2.
Proof. unfold rwp, mbind, go_bind. destruct (m1 s1) as [[] ?], (m2 s2) as [[] ?]; done. Qed.

Lemma rwp_getw (Q : W → W → mach B1 W → mach B2 W → Prop) U s1 s2 :
  Q (mw s1) (mw s2) s1 s2 → rwp getw getw Q U s1 s2.
Proof. done. Qed.

Lemma rwp_updw f (Q : unit → unit → mach B1 W → mach B2 W → Prop) U b1 l1 w1 e1 b2 l2 w2 e2 :
  Q () () (Mach b1 l1 (f w1) e1) (Mach b2 l2 (f w2) e2) →
  rwp (updw f) (updw f) Q U (Mach b1 l1 w1 e1) (Mach b2 l2 w2 e2).
Proof. done. Qed.

Lemma rwp_call {A} (c : code W A) (Q : A → A → mach B1 W → mach B2 W → Prop)
    (U : mach B1 W → mach B2 W → Prop) b1 b2 l1 l2 w e1 e2 :
  (∀ a w, Q a a (Mach b1 l1 w e1) (Mach b2 l2 w e2)) →
  (∀ w, U (Mach b1 l1 w e1) (Mach b2 l2 w e2)) →
  rwp (call c) (call c) Q U (Mach b1 l1 w e1) (Mach b2 l2 w e2).
Proof. intros HQ HU. unfold rwp, call. simpl. by destruct (c w) as [[] ?]. Qed.

Lemma rwp_on_unwind_call {A} (c : code W A) (r1 : go B1 W unit) (r2 : go B2 W unit)
    (Q : A → A → mach B1 W → mach B2 W → Prop)
    (U : mach B1 W → mach B2 W → Prop) b1 b2 l1 l2 w e1 e2 :
  (∀ a w, Q a a (Mach b1 l1 w e1) (Mach b2 l2 w e2)) →
  (∀ w, rwp r1 r2 (λ _ _, U) U (Mach b1 l1 w e1) (Mach b2 l2 w e2)) →
  rwp (on_unwind (call c) r1) (on_unwind (call c) r2) Q U (Mach b1 l1 w e1) (Mach b2 l2 w e2).
Proof.
  intros HQ HU. unfold rwp, on_unwind, call. simpl. destruct (c w) as [[a|u] w']; [done|].
  specialize (HU w'). unfold rwp in HU.
  destruct (r1 _) as [[] ?], (r2 _) as [[] ?]; naive_solver.
Qed.

Lemma rwp_gopanic {A1 A2} (Q : A1 → A2 → mach B1 W → mach B2 W → Prop)
    (U : mach B1 W → mach B2 W → Prop) s1 s2 :
  U s1 s2 → rwp gopanic gopanic Q U s1 s2.
Proof. done. Qed.

Lemma rwp_Unlock (Q : unit → unit → mach B1 W → mach B2 W → Prop) U b1 b2 l w1 w2 e1 e2 :
  (l = WLocked → Q () () (Mach b1 Unlocked w1 e1) (Mach b2 Unlocked w2 e2)) →
  (l ≠ WLocked → U (Mach b1 l w1 e1) (Mach b2 l w2 e2)) →
  rwp Unlock Unlock Q U (Mach b1 l w1 e1) (Mach b2 l w2 e2).
Proof. unfold rwp, Unlock. simpl. destruct l; naive_solver. Qed.

Lemma rwp_RUnlock (Q : unit → unit → mach B1 W → mach B2 W → Prop) U b1 b2 l w1 w2 e1 e2 :
  (l = RLocked → Q () () (Mach b1 Unlocked w1 e1) (Mach b2 Unlocked w2 e2)) →
  (l ≠ RLocked → U (Mach b1 l w1 e1) (Mach b2 l w2 e2)) →
  rwp RUnlock RUnlock Q U (Mach b1 l w1 e1) (Mach b2 l w2 e2).
Proof. unfold rwp, RUnlock. simpl. destruct l; naive_solver. Qed.

Lemma rwp_acquire (R : B1 → B2 → Prop) k l (Q : unit → unit → mach B1 W → mach B2 W → Prop) U
    b1 b2 w e1 e2 :
  R b1 b2 → Forall2 (env_rel R) e1 e2 →
  (∀ b1 b2 w e1 e2, R b1 b2 → Forall2 (env_rel R) e1 e2 →
     Q () () (Mach b1 l w e1) (Mach b2 l w e2)) →
  (k ≠ Unlocked → U (Mach b1 k w e1) (Mach b2 k w e2)) →
  rwp (acquire l) (acquire l) Q U (Mach b1 k w e1) (Mach b2 k w e2).
Proof.
  intros Hb He HQ HU. unfold rwp, acquire, interfere. simpl.
  destruct k; [|by apply HU..].
  inversion He as [|f1 f2 e1' e2' Hf He']; subst; simpl; [by apply HQ|].
  destruct (Hf b1 b2 w Hb) as [Hr Hw].
  destruct (f1 b1 w) as [b1' w1'], (f2 b2 w) as [b2' w2']; simpl in *; subst. by apply HQ.
Qed.

Lemma rwp_Park (R : B1 → B2 → Prop) l (Q : unit → unit → mach B1 W → mach B2 W → Prop)
    (U : mach B1 W → mach B2 W → Prop) b1 b2 w e1 e2 :
  R b1 b2 → Forall2 (env_rel R) e1 e2 →
  U (Mach b1 l w e1) (Mach b2 l w e2) →
  (∀ b1 b2 w e1 e2, R b1 b2 → Forall2 (env_rel R) e1 e2 →
     Q () () (Mach b1 l w e1) (Mach b2 l w e2)) →
  rwp Park Park Q U (Mach b1 l w e1) (Mach b2 l w e2).
Proof.
  intros Hb He HU HQ. unfold rwp, Park, interfere. simpl.
  inversion He as [|f1 f2 e1' e2' Hf He']; subst; simpl; [done|].
  destruct (Hf b1 b2 w Hb) as [Hr Hw].
  destruct (f1 b1 w) as [b1' w1'], (f2 b2 w) as [b2' w2']; simpl in *; subst. by apply HQ.
Qed.

Lemma rwp_defer {A1 A2} (r1 : go B1 W unit) (r2 : go B2 W unit) (m1 : go B1 W A1)
    (m2 : go B2 W A2) Q U s1 s2 :
  rwp m1 m2 (λ a1 a2 t1 t2, rwp r1 r2 (λ _ _, Q a1 a2) U t1 t2)
    (λ t1 t2, U t1 t2 ∧ rwp r1 r2 (λ _ _, U) U t1 t2) s1 s2 →
  rwp (defer r1 m1) (defer r2 m2) Q U s1 s2.
Proof.
  unfold rwp, defer. destruct (m1 s1) as [[] t1], (m2 s2) as [[] t2]; try naive_solver.
  - destruct (r1 t1) as [[] ?], (r2 t2) as [[] ?]; naive_solver.
  - destruct (r1 t1) as [[] ?], (r2 t2) as [[] ?]; naive_solver.
Qed.

(** Two loops run in lockstep while the machines stay related. *)
Lemma rwp_forever {A} (R : B1 → B2 → Prop) (body1 : go B1 W (option A))
    (body2 : go B2 W (option A)) (Q : A → A → mach B1 W → mach B2 W → Prop)
    (U : mach B1 W → mach B2 W → Prop) s1 s2 :
  mrel R s1 s2 →
  (∀ t1 t2, mrel R t1 t2 → U t1 t2) →
  (∀ t1 t2, mrel R t1 t2 →
     rwp body1 body2 (λ o1 o2 t1' t2',
        match o1, o2 with
        | Some r1, Some r2 => Q r1 r2 t1' t2'
        | None, None => mrel R t1' t2'
        | _, _ => False
        end) U t1 t2) →
  rwp (forever body1) (forever body2) Q U s1 s2.
Proof.
  intros Hs HU Hbody. unfold rwp, forever.
  rewrite (Forall2_length _ _ _ (mrel_env _ _ _ Hs)).
  generalize (S (length (menv s2))) as n. intros n. revert s1 s2 Hs.
  induction n as [|n IH]; intros s1 s2 Hs; simpl; [by apply HU|].
  specialize (Hbody s1 s2 Hs). unfold rwp in Hbody.
  destruct (body1 s1) as [[[r1|]| | |] t1], (body2 s2) as [[[r2|]| | |] t2]; naive_solver.
Qed.
End relational.

(** Refinement carries unary guarantees over to the refining program. *)
Lemma refines_wp {B1 B2 W A} (R : B1 → B2 → Prop) (m1 : go B1 W A) (m2 : go B2 W A)
    (Q : A → mach B2 W → Prop) (U : option unwind → mach B2 W → Prop) s1 s2 :
  refines R m1 m2 → mrel R s1 s2 → wp m2 Q U s2 →
  wp m1 (λ a t1, ∃ t2, mrel R t1 t2 ∧ Q a t2) (λ u t1, ∃ t2, mrel R t1 t2 ∧ U u t2) s1.
Proof.
  intros Href Hs Hwp. specialize (Href s1 s2 Hs). unfold rwp in Href. unfold wp in *.
  destruct (m1 s1) as [[] t1], (m2 s2) as [[] t2]; naive_solver.
Qed.

(** * Operations of other goroutines as interference *)

(** The effect of one operation run from start to end in a window of this goroutine. *)
Definition run {B W A} (m : go B W A) : B → W → B * W :=
  λ b w, let t := (m (Mach b Unlocked w [])).2 in (mb t, mw t).

Lemma wp_run {B W A} (m : go B W A) (I : B → Prop) b w :
  wp m (λ _ t, I (mb t)) (λ _ t, I (mb t)) (Mach b Unlocked w []) → I (run m b w).1.
Proof. unfold wp, run. by destruct (m _) as [[] t]. Qed.

Lemma wp_pair_eta {B W A1 A2 A} (m : go B W (A1 * A2)) (k : A1 → A2 → A) K U s :
  wp (a ← m; mret (k a.1 a.2)) K U s → wp ('(x, y) ← m; mret (k x y)) K U s.
Proof. unfold wp, mbind, go_bind. by destruct (m s) as [[[x y]| | |] t]. Qed.

Lemma wp_triple_eta {B W A1 A2 A3 A} (m : go B W (A1 * A2 * A3)) (k : A1 → A2 → A3 → A) K U s :
  wp (a ← m; mret (k a.1.1 a.1.2 a.2)) K U s → wp ('(x, y, z) ← m; mret (k x y z)) K U s.
Proof. unfold wp, mbind, go_bind. by destruct (m s) as [[[[x y] z]| | |] t]. Qed.

Lemma refines_run {B1 B2 W A} (R : B1 → B2 → Prop) (m1 : go B1 W A) (m2 : go B2 W A) :
  refines R m1 m2 → env_rel R (run m1) (run m2).
Proof.
  intros Href b1 b2 w Hb.
  assert (mrel R (Mach b1 Unlocked w []) (Mach b2 Unlocked w [])) as Hm by by constructor.
  specialize (Href _ _ Hm). unfold rwp, run in *.
  destruct (m1 _) as [[] t1], (m2 _) as [[] t2]; simpl in *; try done; destruct_and? Href;
    match goal with H : mrel _ _ _ |- _ => by destruct H end.
Qed.

(** * Relational rules for the shared helpers *)

(** Two pointers to corresponding fields. *)
Record lens_rel {B1 B2 X} (R : B1 → B2 → Prop) (l1 : lens B1 X) (l2 : lens B2 X) : Prop := {
  lens_rel_get b1 b2 : R b1 b2 → lget l1 b1 = lget l2 b2;
  lens_rel_set x b1 b2 : R b1 b2 → R (lset l1 x b1) (lset l2 x b2);
}.

Section shared.
Context {B1 B2 W : Type} (R : B1 → B2 → Prop).

Lemma lens_rel_upd {X} (l1 : lens B1 X) (l2 : lens B2 X) f b1 b2 :
  lens_rel R l1 l2 → R b1 b2 → R (lupd l1 f b1) (lupd l2 f b2).
Proof.
  intros Hl Hb. unfold lupd. rewrite (lens_rel_get _ _ _ Hl b1 b2 Hb). by apply lens_rel_set.
Qed.

Lemma mrel_mach b1 b2 l (w : W) e1 e2 :
  R b1 b2 → Forall2 (env_rel R) e1 e2 → mrel R (Mach b1 l w e1) (Mach b2 l w e2).
Proof. by constructor. Qed.

Lemma rwp_updb_R f1 f2 (Q : unit → unit → mach B1 W → mach B2 W → Prop) U b1 b2 l w e1 e2 :
  R b1 b2 → (∀ b1 b2, R b1 b2 → R (f1 b1) (f2 b2)) → (∀ b1 b2, R b1 b2 → Q () () (Mach b1 l w e1) (Mach b2 l w e2)) →
  rwp (updb f1) (updb f2) Q U (Mach b1 l w e1) (Mach b2 l w e2).
Proof. intros Hb Hf HQ. apply rwp_updb. by apply HQ, Hf. Qed.

Lemma rwp_DoSignal g1 g2 (Q : unit → unit → mach B1 W → mach B2 W → Prop) U b1 b2 l w e1 e2 :
  lens_rel R g1 g2 → R b1 b2 → (∀ b1 b2, R b1 b2 → Q () () (Mach b1 l w e1) (Mach b2 l w e2)) →
  rwp (DoSignal g1) (DoSignal g2) Q U (Mach b1 l w e1) (Mach b2 l w e2).
Proof. intros Hg Hb HQ. apply rwp_updb. by apply HQ, lens_rel_upd. Qed.

Lemma rwp_SignalIfWaiters g1 g2 (Q : unit → unit → mach B1 W → mach B2 W → Prop) U
    b1 b2 l w e1 e2 :
  lens_rel R g1 g2 → R b1 b2 → (∀ b1 b2, R b1 b2 → Q () () (Mach b1 l w e1) (Mach b2 l w e2)) →
  rwp (SignalIfWaiters g1) (SignalIfWaiters g2) Q U (Mach b1 l w e1) (Mach b2 l w e2).
Proof.
  intros Hg Hb HQ. unfold SignalIfWaiters. apply rwp_getb_l, rwp_getb_r. cbn [mb].
  rewrite (lens_rel_get _ _ _ Hg b1 b2 Hb). destruct (HasWaiters _).
  - by apply rwp_DoSignal.
  - by apply rwp_ret, HQ.
Qed.

Lemma rwp_ReleaseReservation (o : OpOptions W) g1 g2
    (Q : unit → unit → mach B1 W → mach B2 W → Prop) U b1 b2 l w e1 e2 :
  lens_rel R g1 g2 → R b1 b2 → (∀ b1 b2, R b1 b2 → Q () () (Mach b1 l w e1) (Mach b2 l w e2)) →
  rwp (ReleaseReservation o g1) (ReleaseReservation o g2) Q U (Mach b1 l w e1) (Mach b2 l w e2).
Proof.
  intros Hg Hb HQ. unfold ReleaseReservation. destruct (OnAdmit o).
  - by apply rwp_SignalIfWaiters.
  - by apply rwp_ret, HQ.
Qed.

Lemma rwp_RunSideEffect (se : option (code W (option err)))
    (Q : option err → option err → mach B1 W → mach B2 W → Prop) U b1 b2 l w e1 e2 :
  (∀ e w, Q e e (Mach b1 l w e1) (Mach b2 l w e2)) →
  (∀ w, U (Mach b1 l w e1) (Mach b2 l w e2)) →
  rwp (RunSideEffect se) (RunSideEffect se) Q U (Mach b1 l w e1) (Mach b2 l w e2).
Proof.
  intros HQ HU. unfold RunSideEffect. destruct se as [f|]; [|by apply rwp_ret].
  apply rwp_bind, rwp_call; [|done]. intros [e|] w'; by apply rwp_ret.
Qed.

Lemma rwp_RunSideEffectLocked (se : option (code W (option err))) r1 r2
    (Q : option err → option err → mach B1 W → mach B2 W → Prop) U b1 b2 l w e1 e2 :
  (∀ e w, Q e e (Mach b1 l w e1) (Mach b2 l w e2)) →
  (∀ w, rwp r1 r2 (λ _ _, U) U (Mach b1 l w e1) (Mach b2 l w e2)) →
  rwp (RunSideEffectLocked se r1) (RunSideEffectLocked se r2) Q U
    (Mach b1 l w e1) (Mach b2 l w e2).
Proof.
  intros HQ HU. unfold RunSideEffectLocked, RunLocked. destruct se as [f|]; [|by apply rwp_ret].
  apply rwp_bind, rwp_on_unwind_call; [|done]. intros [e|] w'; by apply rwp_ret.
Qed.

Lemma rwp_RunBackup (c : code W (option err)) r1 r2
    (Q : option err → option err → mach B1 W → mach B2 W → Prop) U b1 b2 l w e1 e2 :
  (∀ e w, Q e e (Mach b1 l w e1) (Mach b2 l w e2)) →
  (∀ w, rwp r1 r2 (λ _ _, U) U (Mach b1 l w e1) (Mach b2 l w e2)) →
  rwp (RunBackup c r1) (RunBackup c r2) Q U (Mach b1 l w e1) (Mach b2 l w e2).
Proof.
  intros HQ HU. unfold RunBackup, RunLocked.
  apply rwp_bind, rwp_on_unwind_call; [|done]. intros e w'. by apply rwp_ret.
Qed.

Lemma rwp_RunOnAdmit i1 i2 n g1 g2 hook
    (Q : option err → option err → mach B1 W → mach B2 W → Prop) U b1 b2 w e1 e2 :
  lens_rel R i1 i2 → lens_rel R g1 g2 → R b1 b2 → Forall2 (env_rel R) e1 e2 →
  (∀ e b1 b2 w e1 e2, R b1 b2 → Forall2 (env_rel R) e1 e2 →
     Q e e (Mach b1 WLocked w e1) (Mach b2 WLocked w e2)) →
  (∀ b1 b2 k w e1 e2, R b1 b2 → Forall2 (env_rel R) e1 e2 →
     U (Mach b1 k w e1) (Mach b2 k w e2)) →
  rwp (RunOnAdmit i1 n g1 hook) (RunOnAdmit i2 n g2 hook) Q U
    (Mach b1 WLocked w e1) (Mach b2 WLocked w e2).
Proof.
  intros Hi Hg Hb He HQ HU. unfold RunOnAdmit.
  apply rwp_bind, rwp_updb_R; [done|intros; by apply lens_rel_upd|]. clear b1 b2 Hb.
  intros b1 b2 Hb. apply rwp_bind, rwp_Unlock; [intros _|done].
  apply rwp_bind, rwp_on_unwind_call.
  - intros e w'. apply rwp_bind, (rwp_acquire R); [done..| |done]. clear b1 b2 Hb w w' e1 e2 He.
    intros b1 b2 w e1 e2 Hb He.
    apply rwp_bind, rwp_updb_R; [done|intros; by apply lens_rel_upd|].
    intros b1' b2' Hb'. destruct e as [e|].
    + apply rwp_bind, rwp_SignalIfWaiters; [done..|]. intros. apply rwp_ret. by apply HQ.
    + apply rwp_ret. by apply HQ.
  - intros w'. apply rwp_bind, (rwp_acquire R); [done..| |done]. clear b1 b2 Hb w w' e1 e2 He.
    intros b1 b2 w e1 e2 Hb He.
    apply rwp_bind, rwp_updb_R; [done|intros; by apply lens_rel_upd|].
    intros b1' b2' Hb'. apply rwp_bind, rwp_SignalIfWaiters; [done..|]. intros.
    apply rwp_Unlock; [intros _|done]. by apply HU.
Qed.

(** Waiting on related signals, for either release of the lock. *)
Lemma rwp_Wait g1 g2 ctx (unlock : ∀ {B}, go B W unit) l
    (Q : option err → option err → mach B1 W → mach B2 W → Prop) U b1 b2 w e1 e2 :
  lens_rel R g1 g2 → R b1 b2 → Forall2 (env_rel R) e1 e2 →
  (∀ b1 b2 w e1 e2 (Q : unit → unit → mach B1 W → mach B2 W → Prop),
     Q () () (Mach b1 Unlocked w e1) (Mach b2 Unlocked w e2) →
     rwp unlock unlock Q U (Mach b1 l w e1) (Mach b2 l w e2)) →
  (∀ e b1 b2 w e1 e2, R b1 b2 → Forall2 (env_rel R) e1 e2 → e = ctx_cause ctx w →
     Q e e (Mach b1 Unlocked w e1) (Mach b2 Unlocked w e2)) →
  (∀ b1 b2 w e1 e2, R b1 b2 → Forall2 (env_rel R) e1 e2 →
     U (Mach b1 Unlocked w e1) (Mach b2 Unlocked w e2)) →
  rwp (Wait g1 ctx unlock) (Wait g2 ctx unlock) Q U (Mach b1 l w e1) (Mach b2 l w e2).
Proof.
  intros Hg Hb He Hu HQ HU. unfold Wait. apply rwp_getb_l, rwp_getb_r. cbn [mb].
  rewrite (lens_rel_get _ _ _ Hg b1 b2 Hb). generalize (sg_next (lget g2 b2)) as i. intros i.
  apply rwp_bind, rwp_updb_R; [done|intros; by apply lens_rel_upd|]. clear b1 b2 Hb.
  intros b1 b2 Hb. apply rwp_bind, Hu.
  apply rwp_bind, (rwp_Park R); [done|done|by apply HU|]. clear b1 b2 Hb w e1 e2 He.
  intros b1 b2 w e1 e2 Hb He.
  apply rwp_bind, rwp_updb_R; [done|intros; by apply lens_rel_upd|]. clear b1 b2 Hb.
  intros b1 b2 Hb. apply rwp_bind, rwp_getw. apply rwp_ret. by apply HQ.
Qed.

(** Calling an operation that is already known to refine its counterpart. *)
Lemma rwp_refines {A} (m1 : go B1 W A) (m2 : go B2 W A)
    (Q : A → A → mach B1 W → mach B2 W → Prop) U b1 b2 l w e1 e2 :
  refines R m1 m2 → R b1 b2 → Forall2 (env_rel R) e1 e2 →
  (∀ a l b1 b2 w e1 e2, R b1 b2 → Forall2 (env_rel R) e1 e2 →
     Q a a (Mach b1 l w e1) (Mach b2 l w e2)) →
  (∀ l b1 b2 w e1 e2, R b1 b2 → Forall2 (env_rel R) e1 e2 →
     U (Mach b1 l w e1) (Mach b2 l w e2)) →
  rwp m1 m2 Q U (Mach b1 l w e1) (Mach b2 l w e2).
Proof.
  intros Hm Hb He HQ HU. specialize (Hm _ _ (mrel_mach b1 b2 l w e1 e2 Hb He)).
  revert Hm. unfold rwp. destruct (m1 _) as [[] [? ? ? ?]], (m2 _) as [[] [? ? ? ?]];
    try done; intros Hm; destruct_and? Hm; subst;
    match goal with H : mrel _ _ _ |- _ => destruct H end; simpl in *; subst; auto.
Qed.

Section items.
Context {T : Type} `{!Item W T}.

Lemma rwp_ValidateKindOne p (v : T)
    (Q : option err → option err → mach B1 W → mach B2 W → Prop) U b1 b2 l w e1 e2 :
  (∀ e w, Q e e (Mach b1 l w e1) (Mach b2 l w e2)) →
  (∀ w, U (Mach b1 l w e1) (Mach b2 l w e2)) →
  rwp (ValidateKindOne p v) (ValidateKindOne p v) Q U (Mach b1 l w e1) (Mach b2 l w e2).
Proof. intros HQ HU. apply rwp_bind, rwp_call; [|done]. intros. by apply rwp_ret. Qed.

Lemma rwp_ValidateKind p (vs : list T)
    (Q : option err → option err → mach B1 W → mach B2 W → Prop) U b1 b2 l w e1 e2 :
  (∀ e w, Q e e (Mach b1 l w e1) (Mach b2 l w e2)) →
  (∀ w, U (Mach b1 l w e1) (Mach b2 l w e2)) →
  rwp (ValidateKind p vs) (ValidateKind p vs) Q U (Mach b1 l w e1) (Mach b2 l w e2).
Proof.
  intros HQ HU. revert w. induction vs as [|v vs IH]; intros w; simpl; [by apply rwp_ret|].
  apply rwp_bind, rwp_ValidateKindOne; [|done]. intros [e|] w'; [by apply rwp_ret|by apply IH].
Qed.

Lemma rwp_MatchesAny (x : T) (vs : list T)
    (Q : bool → bool → mach B1 W → mach B2 W → Prop) U b1 b2 l w e1 e2 :
  (∀ m w, Q m m (Mach b1 l w e1) (Mach b2 l w e2)) →
  (∀ w, U (Mach b1 l w e1) (Mach b2 l w e2)) →
  rwp (MatchesAny x vs) (MatchesAny x vs) Q U (Mach b1 l w e1) (Mach b2 l w e2).
Proof.
  intros HQ HU. revert w. induction vs as [|v vs IH]; intros w; simpl; [by apply rwp_ret|].
  apply rwp_bind, rwp_call; [|done]. intros [] w'; [by apply rwp_ret|by apply IH].
Qed.

Lemma rwp_ctx_done `{!World W} ctx (Q : option err → option err → mach B1 W → mach B2 W → Prop) U
    b1 b2 l w e1 e2 :
  (∀ e w, Q e e (Mach b1 l w e1) (Mach b2 l w e2)) →
  rwp (ctx_done ctx) (ctx_done ctx) Q U (Mach b1 l w e1) (Mach b2 l w e2).
Proof. intros HQ. apply rwp_bind, rwp_updw. apply rwp_bind, rwp_getw. by apply rwp_ret. Qed.
End items.
End shared.

(** Options are resolved before the backing is looked at. *)
Lemma rwp_ResolveOpOptions {B1 B2 W} c (opts : list (OpOption W))
    (Q : OpOptions W * option err → OpOptions W * option err → mach B1 W → mach B2 W → Prop)
    (U : mach B1 W → mach B2 W → Prop) s1 s2 :
  (∀ r, Q r r s1 s2) → U s1 s2 →
  rwp (ResolveOpOptions c opts) (ResolveOpOptions c opts) Q U s1 s2.
Proof.
  intros HQ HU. unfold ResolveOpOptions. case_bool_decide; [by apply rwp_gopanic|by apply rwp_ret].
Qed.

(** * Stepping a single program *)

Lemma wp_assoc {B W A C D} (m : go B W C) (k : C → go B W D) (h : D → go B W A) Q U s :
  wp (m ≫= λ a, k a ≫= h) Q U s → wp ((m ≫= k) ≫= h) Q U s.
Proof. unfold wp, mbind, go_bind. by destruct (m s) as [[] ?]. Qed.

Lemma wp_ValidateKind {B W T} `{!Item W T} priority vs (Q : option err → mach B W → Prop) U b l w e :
  (∀ x w, Q x (Mach b l w e)) → (∀ u w, U (Some u) (Mach b l w e)) →
  wp (ValidateKind priority vs) Q U (Mach b l w e).
Proof.
  intros HQ HU. revert w. induction vs as [|v vs IH]; intros w; simpl; [by apply wp_ret|].
  unfold ValidateKindOne. apply wp_assoc, wp_bind, wp_call; [|done]. intros p w' _.
  apply wp_bind, wp_ret. case_match; [by apply wp_ret|apply IH].
Qed.

Lemma wp_MatchesAny {B W T} `{!Item W T} x v (Q : bool → mach B W → Prop) U b l w e :
  (∀ m w, Q m (Mach b l w e)) → (∀ u w, U (Some u) (Mach b l w e)) →
  wp (MatchesAny x v) Q U (Mach b l w e).
Proof.
  intros HQ HU. revert w. induction v as [|y v IH]; intros w; simpl; [by apply wp_ret|].
  apply wp_bind, wp_call; [|done]. intros [] w' _; [by apply wp_ret|apply IH].
Qed.

(** With no interference left the lock is free and a wait stays parked. *)
Lemma wp_acquire_nil {B W} l (Q : unit → mach B W → Prop) U b w :
  Q () (Mach b l w []) → wp (acquire l) Q U (Mach b Unlocked w []).
Proof. done. Qed.

Lemma wp_Park_nil {B W} l (Q : unit → mach B W → Prop) U (b : B) (w : W) :
  U None (Mach b l w []) → wp Park Q U (Mach b l w []).
Proof. done. Qed.

(** Then a loop runs its body once: it returns from it, or waits for good. *)
Lemma wp_forever_nil {B W R} (body : go B W (option R)) Q U (b : B) l (w : W) :
  wp body (λ o t, match o with Some r => Q r t | None => False end) U (Mach b l w []) →
  wp (forever body) Q U (Mach b l w []).
Proof.
  unfold wp, forever. simpl. by destruct (body _) as [[[r|]| | |] t].
Qed.

Ltac wstep :=
  lazymatch goal with
  | |- wp (forever _) _ _ (Mach _ _ _ []) => apply wp_forever_nil
  | |- wp Lock _ _ (Mach _ Unlocked _ []) => apply wp_acquire_nil
  | |- wp RLock _ _ (Mach _ Unlocked _ []) => apply wp_acquire_nil
  | |- wp Park _ _ (Mach _ _ _ []) => apply wp_Park_nil
  | |- wp (RunOnAdmit _ _ _ _) _ _ (Mach _ _ _ []) => unfold RunOnAdmit
  | |- wp (Wait _ _ _) _ _ (Mach _ _ _ []) => unfold Wait
  | |- wp (mbind _ (mbind _ _)) _ _ _ => apply wp_assoc
  | |- wp (mbind _ _) _ _ _ => apply wp_bind
  | |- wp (mret _) _ _ _ => apply wp_ret
  | |- wp (return_ _) _ _ _ => apply wp_ret
  | |- wp continue_ _ _ _ => apply wp_ret
  | |- wp getb _ _ _ => apply wp_getb; cbn [mb]
  | |- wp getw _ _ _ => apply wp_getw; cbn [mw]
  | |- wp (updb _) _ _ _ => apply wp_updb
  | |- wp (updw _) _ _ _ => apply wp_updw
  | |- wp (call _) _ _ _ => apply wp_call; [intros ? ? _|intros ? ?]
  | |- wp gopanic _ _ _ => apply wp_gopanic
  | |- wp Unlock _ _ _ => apply wp_Unlock
  | |- wp RUnlock _ _ _ => apply wp_RUnlock
  | |- wp (defer _ _) _ _ _ => apply wp_defer
  | |- wp (on_unwind (call _) _) _ _ _ => apply wp_on_unwind_call; [intros ? ? _|intros ? ?]
  | |- wp (RunSideEffect ?se) _ _ _ => unfold RunSideEffect
  | |- wp (RunSideEffectLocked ?se _) _ _ _ => unfold RunSideEffectLocked, RunLocked
  | |- wp (RunBackup _ _) _ _ _ => unfold RunBackup, RunLocked
  | |- wp (ReleaseReservation _ _) _ _ _ => unfold ReleaseReservation
  | |- wp (SignalIfWaiters _) _ _ _ => unfold SignalIfWaiters
  | |- wp (DoSignal _) _ _ _ => unfold DoSignal
  | |- wp (ValidateKindOne _ _) _ _ _ => unfold ValidateKindOne
  | |- wp (ResolveOpOptions _ _) _ _ _ => unfold ResolveOpOptions
  | |- wp (ValidateKind _ _) _ _ _ => apply wp_ValidateKind; [intros ? ?|intros ? ?]
  | |- wp (MatchesAny _ _) _ _ _ => apply wp_MatchesAny; [intros ? ?|intros ? ?]
  | |- wp (ctx_done _) _ _ _ => unfold ctx_done
  | |- wp WriteWanted _ _ _ => unfold WriteWanted
  | |- wp (if ?x then _ else _) _ _ _ => destruct x eqn:?
  | |- wp (match ?x with _ => _ end) _ _ _ => destruct x eqn:?
  | |- wp ((if ?x then _ else _) ≫= _) _ _ _ => destruct x eqn:?
  end; cbv beta.

(** * Lockstep execution *)

(** One step of two programs running in lockstep: reads and returns on either side, then the rule of
    the construct both programs start with. *)
Ltac rstep :=
  lazymatch goal with
  | |- rwp (mbind _ (mbind _ _)) _ _ _ _ _ => apply rwp_assoc_l
  | |- rwp _ (mbind _ (mbind _ _)) _ _ _ _ => apply rwp_assoc_r
  | |- rwp (mbind _ getb) _ _ _ _ _ => apply rwp_getb_l; cbn [mb]
  | |- rwp _ (mbind _ getb) _ _ _ _ => apply rwp_getb_r; cbn [mb]
  | |- rwp (mbind _ (mret _)) _ _ _ _ _ => apply rwp_ret_l; cbv beta
  | |- rwp _ (mbind _ (mret _)) _ _ _ _ => apply rwp_ret_r; cbv beta
  | |- rwp (mbind _ (updb _)) _ _ _ _ _ => fail
  | |- rwp _ (mbind _ (updb _)) _ _ _ _ => fail
  | |- rwp (mbind _ _) (mbind _ _) _ _ _ _ => apply rwp_bind; cbv beta
  | |- rwp (mret _) (mret _) _ _ _ _ => apply rwp_ret
  | |- rwp (return_ _) (return_ _) _ _ _ _ => apply rwp_ret
  | |- rwp continue_ continue_ _ _ _ _ => apply rwp_ret
  | |- rwp getw getw _ _ _ _ => apply rwp_getw; cbn [mw]
  | |- rwp (call _) (call _) _ _ _ _ => apply rwp_call; intros
  | |- rwp Unlock Unlock _ _ _ _ => apply rwp_Unlock; [intros _|intros Hk]
  | |- rwp RUnlock RUnlock _ _ _ _ => apply rwp_RUnlock; [intros _|intros Hk]
  | |- rwp (if ?x then _ else _) (if ?x then _ else _) _ _ _ _ => destruct x eqn:?
  | |- rwp (match ?x with _ => _ end) (match ?x with _ => _ end) _ _ _ _ => destruct x eqn:?
  | |- rwp (if ?x then _ else _) (mbind _ (if ?x then _ else _)) _ _ _ _ => destruct x
  | |- rwp (mbind _ (if ?x then _ else _)) _ _ _ _ _ => destruct x eqn:?
  end; cbv beta.

(** The resolved options and the error check every operation starts with. *)
Ltac rstart :=
  apply rwp_bind, rwp_ResolveOpOptions; [intros [? [?|]]|];
  [by apply rwp_ret | | done].

(** Facts about related backings that the lockstep tactic looks up: the corresponding lenses and the
    corresponding updates. *)
Create HintDb backing_rel.

(** Rewrites one backing's fields to the other's; each refinement file says how. *)
Ltac rfields Hr := idtac.

Ltac rintro_related :=
  let b1 := fresh "b" in let b2 := fresh "q" in let w := fresh "w" in
  let e1 := fresh "e" in let e2 := fresh "e" in let Hr := fresh "Hr" in let He := fresh "He" in
  intros b1 b2 w e1 e2 Hr He.

Ltac rintro_related_at :=
  let b1 := fresh "b" in let b2 := fresh "q" in let w := fresh "w" in let k := fresh "k" in
  let e1 := fresh "e" in let e2 := fresh "e" in let Hr := fresh "Hr" in let He := fresh "He" in
  intros b1 b2 k w e1 e2 Hr He.

Ltac rintro_updated :=
  let b1 := fresh "b" in let b2 := fresh "q" in let Hr := fresh "Hr" in
  intros b1 b2 Hr.

(** A relation between two updated backings, put in place of the one between the originals. *)
Ltac rrelate R :=
  lazymatch goal with
  | Hr : R ?b1 ?b2 |- rwp _ _ _ _ (Mach ?b1' _ _ _) (Mach ?b2' _ _ _) =>
      let Hr' := fresh "Hr" in
      assert (R b1' b2') as Hr'; [|clear Hr; revert Hr'; generalize b1', b2'; rintro_updated]
  end.

(** One step at a helper that both programs call. *)
Ltac rhelper :=
  lazymatch goal with
  | Hr : ?R ?b1 ?b2, He : Forall2 (env_rel ?R) ?e1 ?e2
    |- rwp _ _ _ _ (Mach ?b1 _ _ ?e1) (Mach ?b2 _ _ ?e2) =>
    lazymatch goal with
    | |- rwp Lock Lock _ _ _ _ =>
        apply (rwp_acquire R); [done..|clear Hr He; rintro_related|intros Hk]
    | |- rwp RLock RLock _ _ _ _ =>
        apply (rwp_acquire R); [done..|clear Hr He; rintro_related|intros Hk]
    | |- rwp (DoSignal _) (DoSignal _) _ _ _ _ =>
        apply (rwp_DoSignal R); [solve [auto with backing_rel]|done|clear Hr; rintro_updated]
    | |- rwp (SignalIfWaiters _) (SignalIfWaiters _) _ _ _ _ =>
        apply (rwp_SignalIfWaiters R); [solve [auto with backing_rel]|done|clear Hr; rintro_updated]
    | |- rwp (ReleaseReservation _ _) (ReleaseReservation _ _) _ _ _ _ =>
        apply (rwp_ReleaseReservation R);
          [solve [auto with backing_rel]|done|clear Hr; rintro_updated]
    | |- rwp (mbind _ (updb ?f1)) (mbind _ (updb ?f2)) _ _ _ _ =>
        rfields Hr; apply rwp_updb_l, rwp_updb_r; cbv beta;
        rrelate R; [solve [auto with backing_rel]|]
    | |- rwp (RunSideEffect _) (RunSideEffect _) _ _ _ _ =>
        apply (rwp_RunSideEffect); [intros ? ?|intros ?]
    | |- rwp (RunSideEffectLocked _ _) (RunSideEffectLocked _ _) _ _ _ _ =>
        apply (rwp_RunSideEffectLocked); [intros ? ?|intros ?]
    | |- rwp (RunBackup _ _) (RunBackup _ _) _ _ _ _ =>
        apply (rwp_RunBackup); [intros ? ?|intros ?]
    | |- rwp (RunOnAdmit _ _ _ _) (RunOnAdmit _ _ _ _) _ _ _ _ =>
        apply (rwp_RunOnAdmit R);
          [solve [auto with backing_rel]..|done|done|clear Hr He; intros ?; rintro_related
          |clear Hr He; rintro_related_at]
    | |- rwp (Wait _ _ (@Unlock _ _)) (Wait _ _ _) _ _ _ _ =>
        apply (rwp_Wait R _ _ _ (λ B, @Unlock B _));
          [solve [auto with backing_rel]|done|done|done|
          clear Hr He; intros ?; rintro_related; intros ? |clear Hr He; rintro_related]
    | |- rwp (Wait _ _ (@RUnlock _ _)) (Wait _ _ _) _ _ _ _ =>
        apply (rwp_Wait R _ _ _ (λ B, @RUnlock B _));
          [solve [auto with backing_rel]|done|done|done|
          clear Hr He; intros ?; rintro_related; intros ? |clear Hr He; rintro_related]
    | |- rwp (ValidateKindOne _ _) (ValidateKindOne _ _) _ _ _ _ =>
        apply (rwp_ValidateKindOne); [intros ? ?|intros ?]
    | |- rwp (ValidateKind _ _) (ValidateKind _ _) _ _ _ _ =>
        apply (rwp_ValidateKind); [intros ? ?|intros ?]
    | |- rwp (ctx_done _) (ctx_done _) _ _ _ _ => apply (rwp_ctx_done); intros ? ?
    | |- rwp (defer _ _) (defer _ _) _ _ _ _ => apply rwp_defer
    | |- rwp (if _ then _ else _) _ _ _ _ _ => rfields Hr
    | |- rwp ((if _ then _ else _) ≫= _) _ _ _ _ _ => rfields Hr
    | |- rwp (match _ with _ => _ end) _ _ _ _ _ => rfields Hr
    | |- rwp ((match _ with _ => _ end) ≫= _) _ _ _ _ _ => rfields Hr
    | |- rwp ?m1 ?m2 _ _ _ _ =>
        apply (rwp_refines R m1 m2);
          [solve [auto with backing_rel]|done|done|clear Hr He; intros ?; intros ?; rintro_related
          |clear Hr He; intros ?; rintro_related]
    end
  end; cbv beta.

(** What is left at the end of a path. *)
Ltac rdone :=
  lazymatch goal with
  | |- mrel _ _ _ => by apply mrel_mach
  | |- _ = _ ∧ mrel _ _ _ => split; [done|by apply mrel_mach]
  | |- _ = _ ∧ rwp _ _ _ _ _ _ => split; [done|]
  | |- mrel _ _ _ ∧ rwp _ _ _ _ _ _ => split; [by apply mrel_mach|]
  end.

Ltac rauto := repeat first [rdone | progress rhelper | rstep].

(** A refinement goal with both machines taken apart. *)
Ltac refine_start :=
  intros [? ? ? ?] [? ? ? ?] Hm;
  pose proof Hm as [HR Hlk Hw He]; simpl in HR, Hlk, Hw, He; subst.

(** * Composing refinements *)

Section compose.
Context {B1 B2 W : Type} (R : B1 → B2 → Prop).

Lemma refines_ret {A} (a : A) : refines R (mret a) (mret a : go B2 W A).
Proof. refine_start. by apply rwp_ret. Qed.

Lemma refines_bind {A C} (m1 : go B1 W A) (m2 : go B2 W A) (k1 : A → go B1 W C) (k2 : A → go B2 W C) :
  refines R m1 m2 → (∀ a, refines R (k1 a) (k2 a)) → refines R (m1 ≫= k1) (m2 ≫= k2).
Proof.
  intros Hm Hk s1 s2 Hs. apply rwp_bind. eapply rwp_mono; [| |by apply Hm]; [|done].
  intros a1 a2 t1 t2 [-> Ht]. by apply Hk.
Qed.

Lemma refines_gopanic {A} : refines R gopanic (gopanic : go B2 W A).
Proof. refine_start. by apply rwp_gopanic. Qed.

Lemma refines_getw : refines R getw (getw : go B2 W W).
Proof. refine_start. apply rwp_getw. simpl. split; [done|by apply mrel_mach]. Qed.

Lemma refines_updw f : refines R (updw f) (updw f : go B2 W unit).
Proof. refine_start. apply rwp_updw. split; [done|by apply mrel_mach]. Qed.

Lemma refines_call {A} (c : code W A) : refines R (call c) (call c : go B2 W A).
Proof. refine_start. apply rwp_call; intros; [split; [done|]|]; by apply mrel_mach. Qed.

Lemma refines_acquire l : refines R (acquire l) (acquire l : go B2 W unit).
Proof.
  refine_start. apply (rwp_acquire R); [done..| |]; intros; [split; [done|]|]; by apply mrel_mach.
Qed.

Lemma refines_Unlock : refines R Unlock (Unlock : go B2 W unit).
Proof. refine_start. apply rwp_Unlock; intros; [split; [done|]|]; by apply mrel_mach. Qed.

Lemma refines_RUnlock : refines R RUnlock (RUnlock : go B2 W unit).
Proof. refine_start. apply rwp_RUnlock; intros; [split; [done|]|]; by apply mrel_mach. Qed.

Lemma refines_ResolveOpOptions c (opts : list (OpOption W)) :
  refines R (ResolveOpOptions c opts) (ResolveOpOptions c opts : go B2 W _).
Proof.
  refine_start. apply rwp_ResolveOpOptions; [intros; split; [done|]|]; by apply mrel_mach.
Qed.

Lemma refines_on_unwind {A} (m1 : go B1 W A) (m2 : go B2 W A) r1 r2 :
  refines R m1 m2 → refines R r1 r2 → refines R (on_unwind m1 r1) (on_unwind m2 r2).
Proof.
  intros Hm Hr s1 s2 Hs. specialize (Hm s1 s2 Hs). unfold rwp, on_unwind in *.
  destruct (m1 s1) as [[] t1], (m2 s2) as [[] t2]; try done. destruct Hm as [-> Ht].
  specialize (Hr t1 t2 Ht). unfold rwp in Hr.
  destruct (r1 t1) as [[] t1'], (r2 t2) as [[] t2']; try done; by destruct Hr.
Qed.

Lemma refines_RunSideEffectLocked se r1 r2 :
  refines R r1 r2 →
  refines R (RunSideEffectLocked se r1) (RunSideEffectLocked se r2 : go B2 W _).
Proof.
  intros Hr. unfold RunSideEffectLocked. destruct se as [f|]; [|apply refines_ret].
  apply refines_bind; [by apply refines_on_unwind, Hr; apply refines_call|].
  intros []; apply refines_ret.
Qed.
End compose.

(** * Interference is consumed *)

(** A program only ever consumes interference, from the front. *)
Definition consumes {B W A} (m : go B W A) : Prop := ∀ s, menv (m s).2 `suffix_of` menv s.

Section consumes.
Context {B W : Type}.

Lemma consumes_bind {A C} (m : go B W A) (k : A → go B W C) :
  consumes m → (∀ a, consumes (k a)) → consumes (m ≫= k).
Proof.
  intros Hm Hk s. specialize (Hm s). unfold mbind, go_bind.
  destruct (m s) as [[a| | |] t]; simpl in *; try done. etransitivity; [apply Hk|done].
Qed.
Lemma consumes_ret {A} (a : A) : consumes (mret a : go B W A).
Proof. by exists []. Qed.
Lemma consumes_getb : consumes (getb : go B W B).
Proof. by exists []. Qed.
Lemma consumes_getw : consumes (getw : go B W W).
Proof. by exists []. Qed.
Lemma consumes_updb f : consumes (updb f : go B W unit).
Proof. by exists []. Qed.
Lemma consumes_updw f : consumes (updw f : go B W unit).
Proof. by exists []. Qed.
Lemma consumes_call {A} (c : code W A) : consumes (call c : go B W A).
Proof. intros s. unfold call. by destruct (c (mw s)) as [[] ?]; exists []. Qed.
Lemma consumes_gopanic {A} : consumes (gopanic : go B W A).
Proof. by exists []. Qed.
Lemma consumes_interfere (s : mach B W) : menv (interfere s) `suffix_of` menv s.
Proof.
  unfold interfere. destruct (menv s) as [|f e] eqn:He; [by exists []; rewrite He|].
  destruct (f (mb s) (mw s)). by apply suffix_cons_r.
Qed.
Lemma consumes_acquire l : consumes (acquire l : go B W unit).
Proof. intros s. unfold acquire. destruct (mlk s); try (by exists []). apply consumes_interfere. Qed.
Lemma consumes_Unlock : consumes (Unlock : go B W unit).
Proof. intros s. unfold Unlock. by destruct (mlk s); exists []. Qed.
Lemma consumes_RUnlock : consumes (RUnlock : go B W unit).
Proof. intros s. unfold RUnlock. by destruct (mlk s); exists []. Qed.
Lemma consumes_Park : consumes (Park : go B W unit).
Proof.
  intros s. unfold Park. pose proof (consumes_interfere s) as Hs. destruct (menv s) eqn:He; simpl; rewrite ?He; [by exists []|done].
Qed.
Lemma consumes_defer {A} r (m : go B W A) : consumes r → consumes m → consumes (defer r m).
Proof.
  intros Hr Hm s. specialize (Hm s). unfold defer.
  destruct (m s) as [[a|u| |] t]; simpl in *; try done; specialize (Hr t);
    destruct (r t) as [[] ?]; simpl in *; by etransitivity.
Qed.
Lemma consumes_on_unwind {A} (m : go B W A) r : consumes m → consumes r → consumes (on_unwind m r).
Proof.
  intros Hm Hr s. specialize (Hm s). unfold on_unwind.
  destruct (m s) as [[a|u| |] t]; simpl in *; try done; specialize (Hr t);
    destruct (r t) as [[] ?]; simpl in *; by etransitivity.
Qed.
Lemma consumes_forever {R} (body : go B W (option R)) : consumes body → consumes (forever body).
Proof.
  intros Hb s. unfold forever. generalize (S (length (menv s))) as n. intros n. revert s.
  induction n as [|n IH]; intros s; simpl; [by exists []|]. specialize (Hb s).
  destruct (body s) as [[[r|]| | |] t]; simpl in *; auto. etransitivity; [apply IH|done].
Qed.

Lemma consumes_ValidateKind {T} `{!Item W T} p (l : list T) :
  consumes (ValidateKind p l : go B W (option err)).
Proof.
  induction l as [|x l IH]; simpl; [apply consumes_ret|]. unfold ValidateKindOne.
  apply consumes_bind; [apply consumes_bind; [apply consumes_call|intros; apply consumes_ret]|].
  intros []; [apply consumes_ret|exact IH].
Qed.
Lemma consumes_MatchesAny {T} `{!Item W T} (x : T) (l : list T) :
  consumes (MatchesAny x l : go B W bool).
Proof.
  induction l as [|y l IH]; simpl; [apply consumes_ret|].
  apply consumes_bind; [apply consumes_call|]. intros []; [apply consumes_ret|exact IH].
Qed.
End consumes.

(** Goes through a program construct by construct. *)
Ltac consume :=
  repeat first [assumption|lazymatch goal with
  | |- consumes (if ?x then _ else _) => destruct x
  | |- consumes (match ?x with _ => _ end) => destruct x
  | |- consumes (mbind _ _) => apply consumes_bind; [|intros ?]
  | |- consumes (mret _) => apply consumes_ret
  | |- consumes (return_ _) => apply consumes_ret
  | |- consumes continue_ => apply consumes_ret
  | |- consumes getb => apply consumes_getb
  | |- consumes getw => apply consumes_getw
  | |- consumes (updb _) => apply consumes_updb
  | |- consumes (updw _) => apply consumes_updw
  | |- consumes (call _) => apply consumes_call
  | |- consumes gopanic => apply consumes_gopanic
  | |- consumes Lock => apply consumes_acquire
  | |- consumes RLock => apply consumes_acquire
  | |- consumes Unlock => apply consumes_Unlock
  | |- consumes RUnlock => apply consumes_RUnlock
  | |- consumes Park => apply consumes_Park
  | |- consumes (defer _ _) => apply consumes_defer
  | |- consumes (on_unwind _ _) => apply consumes_on_unwind
  | |- consumes (forever _) => apply consumes_forever
  | |- consumes (DoSignal _) => unfold DoSignal
  | |- consumes (SignalIfWaiters _) => unfold SignalIfWaiters
  | |- consumes (ReleaseReservation _ _) => unfold ReleaseReservation
  | |- consumes (RunSideEffect _) => unfold RunSideEffect
  | |- consumes (RunSideEffectLocked _ _) => unfold RunSideEffectLocked, RunLocked
  | |- consumes (RunBackup _ _) => unfold RunBackup, RunLocked
  | |- consumes (RunOnAdmit _ _ _ _) => unfold RunOnAdmit
  | |- consumes (Wait _ _ _) => unfold Wait
  | |- consumes (ResolveOpOptions _ _) => unfold ResolveOpOptions
  | |- consumes (ctx_done _) => unfold ctx_done
  | |- consumes (ValidateKindOne _ _) => unfold ValidateKindOne
  | |- consumes (ValidateKind _ _) => apply consumes_ValidateKind
  | |- consumes (MatchesAny _ _) => apply consumes_MatchesAny
  end].

(** The interference a program leaves over is the end of what it was given. *)
Lemma wp_consumes {B W A} (m : go B W A) (Q : A → mach B W → Prop) U s :
  consumes m → wp m Q U s →
  wp m (λ a t, Q a t ∧ menv t `suffix_of` menv s) (λ u t, U u t ∧ menv t `suffix_of` menv s) s.
Proof.
  intros Hm. specialize (Hm s). unfold wp. by destruct (m s) as [[] t].
Qed.

(** What a program that runs alone does, it does alone. *)
Lemma wp_alone {B W A} (m : go B W A) (Q : A → mach B W → Prop) U s :
  consumes m → menv s = [] → wp m Q U s →
  wp m (λ a t, Q a t ∧ menv t = []) (λ u t, U u t ∧ menv t = []) s.
Proof.
  intros Hm Hs Hwp. apply (wp_consumes m Q U s Hm) in Hwp. rewrite Hs in Hwp.
  eapply wp_mono; [| |exact Hwp]; simpl; intros ? ? [? Hsuf]; by apply suffix_nil_inv in Hsuf.
Qed.
