(* ===== verification/Priority.v ===== *)
(** The order a priority queue delivers in: every arriving item goes behind the items it does not
    come before, which is insertion into a stable sort. *)

From Stdlib Require Import Sorting.Sorted.
From stdpp Require Import sorting.
From S2P Require Import Prelude Errors Machine Core Contract.

Section order.
Context {W T : Type} `{!Item W T} `{!PureItem W T} `{!OrderLaws W T}.
Implicit Types (x y v : T) (l : list T).

Fixpoint arrive_one x l : list T :=
  match l with
  | [] => [x]
  | y :: l => if ltb x y then x :: y :: l else y :: arrive_one x l
  end.

(** The items of [vs] arriving one after the other at a queue that holds [l]. *)
Definition arrive (vs l : list T) : list T := foldl (λ l x, arrive_one x l) l vs.

Lemma arrive_one_Permutation x l : arrive_one x l ≡ₚ x :: l.
Proof.
  induction l as [|y l IH]; simpl; [done|]. case_match; [done|]. rewrite IH. by constructor.
Qed.

Lemma arrive_Permutation vs l : arrive vs l ≡ₚ vs ++ l.
Proof.
  unfold arrive. revert l. induction vs as [|v vs IH]; intros l; simpl; [done|].
  by rewrite IH, arrive_one_Permutation, <- Permutation_middle.
Qed.

(** Nothing comes before what stands ahead of it. *)
Definition in_order l : Prop := StronglySorted (λ x y, ltb y x = false) l.

Lemma ltb_asym x y : ltb x y = true → ltb y x = false.
Proof.
  intros Hxy. destruct (ltb y x) eqn:Hyx; [|done].
  by rewrite <- (ltb_irrefl x), (ltb_trans _ _ _ Hxy Hyx).
Qed.

Lemma ltb_le_trans x y z : ltb y x = false → ltb z y = false → ltb z x = false.
Proof.
  intros Hyx Hzy. destruct (ltb z x) eqn:Hzx; [|done].
  destruct (ltb x y) eqn:Hxy; [by rewrite (ltb_trans _ _ _ Hzx Hxy) in Hzy|].
  destruct (ltb y z) eqn:Hyz; [by rewrite (ltb_trans _ _ _ Hyz Hzx) in Hyx|].
  by destruct (ltb_incomp_trans x y z Hxy Hyx Hyz Hzy) as [_ Hc]; rewrite Hc in Hzx.
Qed.

(** Ahead of [y], [x] is ahead of everything [y] is not behind. *)
Lemma ltb_lt_le x y z : ltb x y = true → ltb z y = false → ltb x z = true.
Proof.
  intros Hxy Hzy. destruct (ltb x z) eqn:Hxz; [done|].
  by rewrite (ltb_le_trans y z x Hzy Hxz) in Hxy.
Qed.

Lemma arrive_one_in_order x l : in_order l → in_order (arrive_one x l).
Proof.
  unfold in_order. induction 1 as [|y l Hs IH Hmin]; simpl; [by repeat constructor|].
  rewrite Forall_forall in Hmin. destruct (ltb x y) eqn:Hxy.
  - constructor; [constructor; [done|by rewrite Forall_forall]|].
    constructor; [by apply ltb_asym|]. apply Forall_forall. intros z Hz.
    apply ltb_asym, (ltb_lt_le _ y); [done|by apply Hmin].
  - constructor; [done|]. rewrite arrive_one_Permutation. constructor; [done|].
    by apply Forall_forall.
Qed.

Lemma arrive_in_order vs l : in_order l → in_order (arrive vs l).
Proof.
  unfold arrive. revert l. induction vs as [|v vs IH]; intros l Hl; simpl; [done|].
  by apply IH, arrive_one_in_order.
Qed.

Lemma filter_none {A} (P : A → Prop) `{!∀ a, Decision (P a)} (l : list A) :
  (∀ x : A, x ∈ l → ¬ P x) → filter P l = [].
Proof.
  induction l as [|x l IH]; intros Hl; [done|]. rewrite filter_cons_False by (apply Hl; by left).
  apply IH. intros y Hy. apply Hl. by right.
Qed.

(** Neither comes before the other. *)
Definition tied v x : bool := negb (ltb v x) && negb (ltb x v).

Lemma arrive_one_tied v x l :
  in_order l →
  filter (λ y, tied v y = true) (arrive_one x l) =
  filter (λ y, tied v y = true) l ++ filter (λ y, tied v y = true) [x].
Proof.
  unfold in_order. induction 1 as [|y l Hs IH Hmin]; cbn [arrive_one]; [done|].
  destruct (ltb x y) eqn:Hxy.
  - rewrite filter_cons. case_decide as Hx; [|by rewrite (filter_cons_False _ x []), app_nil_r].
    rewrite (filter_cons_True _ x []) by done.
    assert (filter (λ y, tied v y = true) (y :: l) = []) as ->; [|done].
    apply andb_true_iff in Hx as [_ Hxv%negb_true_iff]. rewrite Forall_forall in Hmin.
    apply filter_none. intros z Hz.
    assert (ltb x z = true) as Hxz.
    { apply elem_of_cons in Hz as [->|Hz]; [done|]. apply (ltb_lt_le _ y); [done|by apply Hmin]. }
    destruct (ltb v z) eqn:Hvz; [unfold tied; by rewrite Hvz|].
    by rewrite (ltb_le_trans z v x Hvz Hxv) in Hxz.
  - rewrite !(filter_cons _ y), IH. by case_decide.
Qed.

(** The arrivals of one class keep the order they came in. *)
Lemma arrive_tied v vs l :
  in_order l →
  filter (λ y, tied v y = true) (arrive vs l) =
  filter (λ y, tied v y = true) l ++ filter (λ y, tied v y = true) vs.
Proof.
  unfold arrive. revert l. induction vs as [|x vs IH]; intros l Hl; [by rewrite app_nil_r|].
  cbn [foldl]. rewrite IH by by apply arrive_one_in_order.
  by rewrite arrive_one_tied, <- app_assoc, <- filter_app by done.
Qed.

(** What arrivals do to the entries of the contract. *)
Lemma insert_entry_items v r (l : list (entry T)) :
  e_item <$> insert_entry ltb (Entry v r) l = arrive_one v (e_item <$> l).
Proof.
  induction l as [|y l IH]; [done|]. rewrite fmap_cons. cbn [insert_entry arrive_one].
  simpl e_item. case_match; [done|]. by rewrite fmap_cons, IH.
Qed.

Lemma insert_all_items vs r (l : list (entry T)) :
  e_item <$> insert_all ltb vs r l = arrive vs (e_item <$> l).
Proof.
  unfold insert_all, arrive. revert l. induction vs as [|v vs IH]; intros l; [done|].
  cbn [foldl]. by rewrite IH, insert_entry_items.
Qed.
End order.
