(* ===== verification/ContractFacts.v ===== *)
(** What the contract guarantees of every operation: the invariant of the queue, that the lock is
    always given back, and what each operation does to the contents whatever the other goroutines
    do meanwhile. *)

From S2P Require Import Prelude Errors Machine Core Contract Logic.

(** * Contents *)

Section contents.
Context {T : Type}.
Implicit Types (l : list (entry T)).

(** The entries that count against the bound. *)
Definition counted l : Z := (zlen l - exempt l)%Z.

Lemma exempt_cons x l : exempt (x :: l) = ((if e_restored x then 1 else 0) + exempt l)%Z.
Proof.
  unfold exempt. destruct x as [x []]; simpl.
  - by rewrite filter_cons_True, zlen_cons.
  - by rewrite filter_cons_False.
Qed.

Lemma exempt_app k l : exempt (k ++ l) = (exempt k + exempt l)%Z.
Proof. induction k as [|x k IH]; [done|]. rewrite <- app_comm_cons, !exempt_cons, IH. lia. Qed.

Lemma exempt_nonneg l : (0 ≤ exempt l)%Z.
Proof. apply zlen_nonneg. Qed.

Lemma exempt_Permutation k l : k ≡ₚ l → exempt k = exempt l.
Proof. induction 1; rewrite ?exempt_cons; lia. Qed.

Lemma counted_cons x l : counted (x :: l) = ((if e_restored x then 0 else 1) + counted l)%Z.
Proof. unfold counted. rewrite exempt_cons, zlen_cons. destruct (e_restored x); lia. Qed.

Lemma counted_nonneg l : (0 ≤ counted l)%Z.
Proof.
  induction l as [|x l IH]; [done|]. rewrite counted_cons. destruct (e_restored x); lia.
Qed.

Lemma counted_sublist k l : k `sublist_of` l → (counted k ≤ counted l)%Z.
Proof. induction 1; rewrite ?counted_cons; [done|lia|]. destruct (e_restored x); lia. Qed.

Lemma select_sublist {A} b ms (l : list A) : select b ms l `sublist_of` l.
Proof.
  revert ms. induction l as [|x l IH]; intros [|m ms]; simpl; try by constructor.
  - apply sublist_nil_l.
  - destruct (Bool.eqb m b); by constructor.
Qed.

Lemma select_length {A} k ms (l : list A) : length (select k ms l) ≤ length l.
Proof. apply sublist_length, select_sublist. Qed.

Lemma select_Permutation {A} ms (l : list A) :
  length ms = length l → select true ms l ++ select false ms l ≡ₚ l.
Proof.
  revert ms. induction l as [|x l IH]; intros [|[] ms]; simpl; try done; intros [=].
  - constructor. auto.
  - rewrite <- Permutation_middle. constructor. auto.
Qed.

Lemma select_none {A} ms (l : list A) :
  length ms = length l → zlen (select true ms l) = 0%Z → select false ms l = l.
Proof.
  rewrite zlen_nil_iff. revert ms. induction l as [|x l IH]; intros [|[] ms]; simpl; try done.
  intros [=] ?. f_equal. auto.
Qed.

Lemma select_fmap {A C} (g : A → C) k ms (l : list A) :
  g <$> select k ms l = select k ms (g <$> l).
Proof.
  revert ms. induction l as [|x l IH]; intros [|m ms]; simpl; try done.
  destruct (Bool.eqb m k); simpl; [f_equal|]; apply IH.
Qed.

Context (before : T → T → bool).

Lemma insert_entry_Permutation x l : insert_entry before x l ≡ₚ x :: l.
Proof.
  induction l as [|y l IH]; simpl; [done|]. case_match; [done|]. rewrite IH. by constructor.
Qed.

Lemma insert_all_Permutation vs r l :
  insert_all before vs r l ≡ₚ ((λ v, Entry v r) <$> vs) ++ l.
Proof.
  unfold insert_all. revert l. induction vs as [|v vs IH]; intros l; simpl; [done|].
  rewrite IH, insert_entry_Permutation. by rewrite Permutation_middle.
Qed.

Lemma counted_Permutation k l : k ≡ₚ l → counted k = counted l.
Proof. induction 1; rewrite ?counted_cons; lia. Qed.

Lemma counted_insert_all vs l : counted (insert_all before vs false l) = (zlen vs + counted l)%Z.
Proof.
  rewrite (counted_Permutation _ _ (insert_all_Permutation vs false l)).
  induction vs as [|v vs IH]; [done|].
  rewrite fmap_cons, <- app_comm_cons, counted_cons, zlen_cons, IH. simpl. lia.
Qed.

Lemma counted_insert_restored v l : counted (insert_entry before (Entry v true) l) = counted l.
Proof.
  rewrite (counted_Permutation _ _ (insert_entry_Permutation _ l)), counted_cons. done.
Qed.
End contents.

Lemma Broadcast_ok g : signal_ok (Broadcast g).
Proof. intros i Hi. simpl in Hi. by apply elem_of_nil in Hi. Qed.
Lemma Register_ok g : signal_ok g → signal_ok (Register g).
Proof.
  intros Hg i. unfold Register; simpl. rewrite !elem_of_app. intros [Hi|Hi]; [left; auto|by right].
Qed.
Lemma Unregister_ok i g : signal_ok g → signal_ok (Unregister i g).
Proof. intros Hg j. unfold Unregister; simpl. rewrite !list_elem_of_filter. naive_solver. Qed.

#[export] Hint Resolve Broadcast_ok Register_ok Unregister_ok : signals.

(** * The invariant *)

Section facts.
Context {W T : Type} `{!Item W T} `{!World W}.
Context (priority : bool) (before : T → T → bool).

Abbreviation Q := (QState W T).
Implicit Types (q : QState W T).

(** A goroutine that has reserved room for [r] items may rely on this whenever it does not hold
    the lock, and has to re-establish it before it gives the lock back. *)
Record Inv (r : Z) q : Prop := {
  inv_maxSize : (0 ≤ q_maxSize q)%Z;
  inv_bound : (0 < q_maxSize q)%Z → (load q ≤ q_maxSize q)%Z;
  inv_reserved : (r ≤ q_inflight q)%Z;
  inv_notFull : signal_ok (q_notFull q);
  inv_notEmpty : signal_ok (q_notEmpty q);
  inv_wake : q_items q ≠ [] → sg_parked (q_notEmpty q) = [];
  inv_closed : q_closed q = true → sg_parked (q_notFull q) = [] ∧ sg_parked (q_notEmpty q) = [];
}.

(** There is room for [n] more. *)
Definition fits (n : Z) q : Prop := q_maxSize q = 0%Z ∨ (load q + n ≤ q_maxSize q)%Z.

Lemma load_counted q : load q = (counted (q_items q) + q_inflight q)%Z.
Proof. done. Qed.

(** A property of the contents that the interference respects. *)
Context (P : list (entry T) → Prop) (latched : Prop) (ctx : Ctx W).

Definition IP (r : Z) q : Prop := Inv r q ∧ P (q_items q).

Lemma IP_reserve r n q :
  (0 ≤ n)%Z → IP r q → fits n q → IP (r + n) (lupd inflight_l (λ i, i + n)%Z q).
Proof.
  intros Hn [[Hm Hb Hr Hf He Hw Hc] HP] Hfit. split; [|done].
  constructor; simpl; try done; [|lia]. intros Hmax. unfold fits in Hfit.
  rewrite load_counted in *. simpl in *. lia.
Qed.

Lemma IP_unreserve r n q :
  (0 ≤ n)%Z → IP (r + n) q → IP r (lupd inflight_l (λ i, i - n)%Z q).
Proof.
  intros Hn [[Hm Hb Hr Hf He Hw Hc] HP]. split; [|done].
  constructor; simpl; try done; [|lia]. intros Hmax. specialize (Hb Hmax).
  rewrite load_counted in *. simpl in *. lia.
Qed.

Lemma fits_unreserve n q r :
  IP (r + n) q → fits n (lupd inflight_l (λ i, i - n)%Z q).
Proof.
  intros [[Hm Hb Hr Hf He Hw Hc] HP]. unfold fits. simpl.
  destruct (decide (q_maxSize q = 0)%Z); [by left|right].
  specialize (Hb ltac:(lia)). rewrite load_counted in *. simpl in *. lia.
Qed.

Lemma IP_notFull r q g :
  IP r q → signal_ok g → (q_closed q = true → sg_parked g = []) → IP r (lset notFull_l g q).
Proof. intros [[Hm Hb Hr Hf He Hw Hc] ?] ? Hg. split; [|done]. constructor; simpl; naive_solver. Qed.

Lemma IP_notEmpty r q g :
  IP r q → signal_ok g → (q_items q ≠ [] ∨ q_closed q = true → sg_parked g = []) →
  IP r (lset notEmpty_l g q).
Proof.
  intros [[Hm Hb Hr Hf He Hw Hc] ?] ? Hg. split; [|done].
  constructor; simpl; try done; [auto|]. intros Hcl. split; [by apply Hc|auto].
Qed.

(** Closing, with everybody woken. *)
Lemma IP_closed r q :
  IP r q → IP r (lupd notFull_l Broadcast (lupd notEmpty_l Broadcast (set_closed true q))).
Proof.
  intros [[Hm Hb Hr Hf He Hw Hc] ?]. split; [|done]. constructor; simpl; auto with signals.
Qed.

(** * Rules for the shared helpers *)

(** Only the signals may differ. *)
Record quiet q q' : Prop := {
  quiet_items : q_items q' = q_items q;
  quiet_maxSize : q_maxSize q' = q_maxSize q;
  quiet_inflight : q_inflight q' = q_inflight q;
  quiet_closed : q_closed q' = q_closed q;
  quiet_backup : q_backup q' = q_backup q;
}.

Lemma fits_quiet n q q' : quiet q q' → fits n q → fits n q'.
Proof. intros [Hi Hm Hn _ _]. unfold fits. by rewrite !load_counted, Hi, Hm, Hn. Qed.

Lemma no_waiters g : signal_ok g → HasWaiters g = false → sg_parked g = [].
Proof.
  unfold HasWaiters. intros Hok Hw. bool_to_prop.
  assert (sg_registered g = []) as Hr by (apply zlen_nil_iff; pose proof (zlen_nonneg (sg_registered g)); lia).
  destruct (sg_parked g) as [|i l] eqn:Hp; [done|]. specialize (Hok i).
  rewrite Hp, Hr in Hok. by destruct (not_elem_of_nil i); apply Hok; left.
Qed.

Lemma wp_signal_notFull r (Q : unit → mach Q W → Prop) U q l w e :
  IP r q →
  (∀ q', IP r q' → quiet q q' → sg_parked (q_notFull q') = [] →
     q_notEmpty q' = q_notEmpty q → Q () (Mach q' l w e)) →
  wp (SignalIfWaiters notFull_l) Q U (Mach q l w e).
Proof.
  intros HI HQ. unfold SignalIfWaiters, DoSignal. wstep. wstep. wstep.
  - wstep. apply HQ; [|done..]. apply IP_notFull; auto with signals.
  - wstep. apply HQ; [done..| |done]. apply no_waiters; [apply HI|done].
Qed.

(** Either signal, where only the lock and the invariant matter afterwards. *)
Lemma wp_signal_notEmpty (Q : unit → mach Q W → Prop) U q l w e :
  signal_ok (q_notEmpty q) →
  (∀ g, signal_ok g → sg_parked g = [] → Q () (Mach (lset notEmpty_l g q) l w e)) →
  wp (SignalIfWaiters notEmpty_l) Q U (Mach q l w e).
Proof.
  intros HI HQ. unfold SignalIfWaiters, DoSignal. wstep. wstep. wstep.
  - wstep. apply HQ; auto with signals.
  - wstep. specialize (HQ (q_notEmpty q) HI). destruct q; simpl in *.
    by apply HQ, no_waiters.
Qed.

(** Where a goroutine stands when it does not hold the lock. *)
Definition outside (r : Z) (t : mach Q W) : Prop :=
  mlk t = Unlocked ∧ IP r (mb t) ∧ rely IP latched ctx (menv t).

(** It unwinds with the lock given back; it stays parked only when nobody else does anything. *)
Definition gone (r : Z) (u : option unwind) (t : mach Q W) : Prop :=
  outside r t ∧ (u = None → menv t = []).

Lemma outside_intro r q w e : IP r q → rely IP latched ctx e → outside r (Mach q Unlocked w e).
Proof. done. Qed.
Lemma gone_unwound r q w e u : IP r q → rely IP latched ctx e → gone r (Some u) (Mach q Unlocked w e).
Proof. done. Qed.

Lemma wp_RunOnAdmit r n hook (Q : option err → mach Q W → Prop)
    (U : option unwind → mach (QState W T) W → Prop) q w e :
  (0 ≤ r)%Z → (0 ≤ n)%Z → IP r q → fits n q → rely IP latched ctx e →
  (∀ x q w e', IP r q → rely IP latched ctx e' → length e' ≤ length e → fits n q →
     (x ≠ None → sg_parked (q_notFull q) = []) → Q x (Mach q WLocked w e')) →
  (∀ u q w e', IP r q → rely IP latched ctx e' → sg_parked (q_notFull q) = [] →
     U (Some u) (Mach q Unlocked w e')) →
  wp (RunOnAdmit inflight_l n notFull_l hook) Q U (Mach q WLocked w e).
Proof.
  intros Hr Hn HI Hfit He HQ HU. unfold RunOnAdmit. do 4 wstep.
  assert (0 ≤ r + n)%Z by lia. pose proof (IP_reserve r n q Hn HI Hfit) as HI'.
  wstep. wstep.
  - wstep. apply (wp_acquire IP latched ctx (r + n)); [done..|]. clear q HI Hfit HI'. intros q w1 e' HI He' Hl _.
    wstep. wstep. case_match; wstep.
    + eapply wp_signal_notFull; [by apply IP_unreserve|].
      intros q' HI' Hq ? _. wstep. apply HQ; try done.
      eapply fits_quiet; [exact Hq|]. by apply (fits_unreserve n q r).
    + apply HQ; [by apply IP_unreserve|done..|by apply (fits_unreserve n q r)|done].
  - wstep. apply (wp_acquire IP latched ctx (r + n)); [done..|]. clear q HI Hfit HI'. intros q w1 e' HI He' Hl _.
    do 3 wstep. eapply wp_signal_notFull; [by apply IP_unreserve|].
    intros q' HI' Hq ? _. wstep. by apply HU.
Qed.

(** Waiting with either release. *)
Lemma wp_Wait_notFull r (unlock : go (QState W T) W unit) l (Q : option err → mach Q W → Prop) U q w e :
  (0 ≤ r)%Z → IP r q → rely IP latched ctx e → q_closed q = false →
  (∀ q (K : unit → mach (QState W T) W → Prop), K () (Mach q Unlocked w e) → wp unlock K U (Mach q l w e)) →
  (∀ q w e', IP r q → rely IP latched ctx e' → length e' < length e →
     Q (ctx_cause ctx w) (Mach q Unlocked w e')) →
  (∀ q, IP r q → e = [] → U None (Mach q Unlocked w e)) →
  wp (Wait notFull_l ctx unlock) Q U (Mach q l w e).
Proof.
  intros Hr HI He Hncl Hun HQ HU. unfold Wait. do 5 wstep. apply Hun. wstep.
  assert (IP r (lupd notFull_l Register q)) as HI'.
  { apply IP_notFull; [done|apply Register_ok, HI|by rewrite Hncl]. }
  apply (wp_Park IP latched ctx r); [done..|by apply HU|]. clear HI'. intros q' w' e' HI' He' Hl.
  do 5 wstep. apply HQ; [|done..]. apply IP_notFull; [done|apply Unregister_ok, HI'|].
  intros Hcl. simpl. by rewrite (proj1 (inv_closed _ _ (proj1 HI') Hcl)).
Qed.

Lemma wp_Wait_notEmpty r (unlock : go (QState W T) W unit) l (Q : option err → mach Q W → Prop) U q w e :
  (0 ≤ r)%Z → IP r q → rely IP latched ctx e → q_closed q = false → q_items q = [] →
  (∀ q (K : unit → mach (QState W T) W → Prop), K () (Mach q Unlocked w e) → wp unlock K U (Mach q l w e)) →
  (∀ q w e', IP r q → rely IP latched ctx e' → length e' < length e →
     Q (ctx_cause ctx w) (Mach q Unlocked w e')) →
  (∀ q, IP r q → e = [] → U None (Mach q Unlocked w e)) →
  wp (Wait notEmpty_l ctx unlock) Q U (Mach q l w e).
Proof.
  intros Hr HI He Hncl Hemp Hun HQ HU. unfold Wait. do 5 wstep. apply Hun. wstep.
  assert (IP r (lupd notEmpty_l Register q)) as HI'.
  { apply IP_notEmpty; [done|apply Register_ok, HI|]. rewrite Hemp, Hncl. by intros []. }
  apply (wp_Park IP latched ctx r); [done..|by apply HU|]. clear HI'. intros q' w' e' HI' He' Hl.
  do 5 wstep. apply HQ; [|done..]. apply IP_notEmpty; [done|apply Unregister_ok, HI'|].
  intros [Hne|Hcl]; simpl; [by rewrite (inv_wake _ _ (proj1 HI') Hne)|].
  by rewrite (proj2 (inv_closed _ _ (proj1 HI') Hcl)).
Qed.

Lemma wp_ClosedOrCause r (Q : option err → mach Q W → Prop) U q w e :
  (0 ≤ r)%Z → IP r q → rely IP latched ctx e → is_Some (ctx_cause ctx w) →
  (∀ x q w e', IP r q → rely IP latched ctx e' → length e' ≤ length e →
     (latched → x ≠ None) → Q x (Mach q Unlocked w e')) →
  wp (ClosedOrCause ctx) Q U (Mach q Unlocked w e).
Proof.
  intros Hr HI He [c Hc] HQ. unfold ClosedOrCause. wstep. apply (wp_acquire IP latched ctx r); [done..|].
  clear q HI. intros q w' e' HI He' Hl Hc'. repeat wstep; [by apply HQ|].
  apply HQ; try done. intros Hlat. by rewrite (Hc' Hlat c Hc).
Qed.

(** * What each operation does *)

(** The contents went from some [l] that the interference led to, to [f l]. *)
Definition moved (r : Z) (f : list (entry T) → list (entry T)) (t : mach Q W) : Prop :=
  mlk t = Unlocked ∧ Inv r (mb t) ∧ rely IP latched ctx (menv t) ∧ ∃ l, P l ∧ q_items (mb t) = f l.

Lemma fits_test n q :
  ((q_maxSize q =? 0) || (load q + n <=? q_maxSize q))%Z = true → fits n q.
Proof. intros Ht. bool_to_prop. destruct Ht; bool_to_prop; [by left|by right]. Qed.

(** The end of Push: the insertion, the wake-up and the unlock. *)
Lemma wp_insert r vs (K : option (option err) → mach Q W → Prop) U q w e :
  IP r q → fits (zlen vs) q → rely IP latched ctx e →
  (∀ t, moved r (insert_all before vs false) t → K (Some None) t) →
  wp (updb (λ q, set_items (insert_all before vs false (q_items q)) q);;
      (if (zlen (q_items q) =? 0)%Z then SignalIfWaiters notEmpty_l else mret ());;
      Unlock;;
      return_ None) K U (Mach q WLocked w e).
Proof.
  intros [[Hm Hb Hr Hf He Hw Hc] HP] Hfit Hrely HK.
  assert (∀ g, signal_ok g → (insert_all before vs false (q_items q) ≠ [] → sg_parked g = []) →
    (q_closed q = true → sg_parked g = []) →
    moved r (insert_all before vs false)
      (Mach (lset notEmpty_l g (set_items (insert_all before vs false (q_items q)) q))
         Unlocked w e)) as Hmoved.
  { intros g Hg Hwake Hwake'. split_and!; [done| |done|by exists (q_items q)].
    constructor; try done; simpl; [|naive_solver]. intros Hmax. unfold fits in Hfit. specialize (Hb Hmax).
    rewrite load_counted in *. simpl. rewrite counted_insert_all. lia. }
  do 4 wstep.
  - apply wp_signal_notEmpty; [done|]. intros g Hg Hp. repeat wstep. apply HK, Hmoved; done.
  - repeat wstep. apply HK. specialize (Hmoved (q_notEmpty q) He).
    destruct q; simpl in *. apply Hmoved; [|naive_solver]. intros _. apply Hw.
    bool_to_prop. intros ->. done.
Qed.

Ltac wintro := let q := fresh "q" in let w := fresh "w" in let e := fresh "e" in
  let HI := fresh "HI" in let He := fresh "He" in let Hl := fresh "Hl" in
  intros q w e HI He Hl; simpl in Hl.

(** One step at a helper, under the lock or outside it. *)
Ltac whelper :=
  lazymatch goal with
  | HI : IP ?r ?q, He : rely IP latched ctx ?e |- wp _ _ _ (Mach ?q _ _ ?e) =>
    lazymatch goal with
    | |- wp Lock _ _ _ => apply (wp_acquire IP latched ctx r); [done..|clear HI He; wintro; intros _]
    | |- wp RLock _ _ _ => apply (wp_acquire IP latched ctx r); [done..|clear HI He; wintro; intros _]
    | |- wp (RunOnAdmit _ _ _ _) _ _ _ =>
        apply (wp_RunOnAdmit r);
          [done|apply zlen_nonneg|done|by apply fits_test|done|clear HI He; intros ?; wintro; intros ? ?|clear HI He; intros ? ? ? ? ? ? ?]
    | |- wp (updb (λ q, set_items (insert_all _ _ _ _) q);; _) _ _ _ =>
        apply (wp_insert r); [done|eauto using fits_test|done|by left]
    | |- wp (SignalIfWaiters notFull_l) _ _ _ =>
        apply (wp_signal_notFull r); [done|];
        let Hq := fresh "Hquiet" in clear HI; intros ? HI Hq ? _
    | |- wp (Wait notFull_l _ _) _ _ _ =>
        apply (wp_Wait_notFull r); [done..|intros; by wstep|clear HI He; wintro|clear HI; intros ? HI ?]
    | |- wp (Wait notEmpty_l _ _) _ _ _ =>
        apply (wp_Wait_notEmpty r); [done..| |intros; by wstep|clear HI He; wintro|clear HI; intros ? HI ?]
    | |- wp (ClosedOrCause _) _ _ _ =>
        apply (wp_ClosedOrCause r); [done..|by eexists|clear HI He; intros ?; wintro; intros ?]
    end
  end; cbv beta.

Ltac wdone :=
  lazymatch goal with
  | |- outside _ (Mach _ _ _ _) => by apply outside_intro
  | |- gone _ (Some _) (Mach _ _ _ _) => by apply gone_unwound
  | |- gone _ None (Mach _ _ _ _) => by split
  | |- ?x = ?x ∧ outside _ (Mach _ _ _ _) => by split
  | |- outside _ (Mach _ _ _ _) ∧ length _ < length _ => split; [by apply outside_intro|simpl; lia]
  end.

(** A removal is where the automation stops. *)
Ltac wguard :=
  lazymatch goal with
  | |- wp (updb _;; SignalIfWaiters notFull_l;; _) _ _ _ => fail
  | |- _ => idtac
  end.

Ltac wauto := repeat first [wdone | wguard; first [whelper | wstep]].

(** The error a wait ended with: it is there when contexts latch. *)
Ltac wcause :=
  lazymatch goal with
  | Hx : latched → ?x ≠ None |- context [match ?x with _ => _ end] =>
      destruct x; [wdone|right; split; [intros Hlat; by apply Hx|wdone]]
  end.

(** The start of an operation: its options, and the machine taken apart. *)
Ltac wstart :=
  intros ? [Hk [HI He]]; wstep; wstep; wstep; [done|]; wstep;
  destruct (apply_options _ _) as [? [?|]]; [wstep; first [done|by split]|];
  match goal with |- wp _ _ _ ?s => destruct s end; simpl in Hk, HI, He; subst.

(** A loop of the queue: every trip starts outside and waits once. *)
Ltac wloop r :=
  match goal with |- wp (forever _) _ _ _ => idtac | _ => wauto end;
  apply (wp_forever (outside r)); [wdone|]; 
  let q := fresh "q" in let w := fresh "w" in let e := fresh "e" in
  let HI := fresh "HI" in let He := fresh "He" in
  match goal with Hr : (0 ≤ r)%Z |- _ =>
    clear - Hr; intros [q ? w e] (? & HI & He); simpl in *; subst end.

Lemma wp_Push r vs options s :
  (0 ≤ r)%Z → outside r s →
  wp (Push priority before ctx vs options) (λ x t,
    match x with
    | Some _ => outside r t
    | None => moved r (insert_all before vs false) t ∨ ¬ latched ∧ outside r t
    end) (gone r) s.
Proof.
  unfold Push. wstart. do 3 wauto.
  wloop r. wauto. wcause.
Qed.

(** Contents replaced by a part of themselves. *)
Lemma Inv_shrink r q l :
  Inv r q → l `sublist_of` q_items q → Inv r (set_items l q).
Proof.
  intros [Hm Hb Hr Hf He Hw Hc] Hl. constructor; simpl; try done.
  - intros Hmax. specialize (Hb Hmax). rewrite load_counted in *. simpl.
    pose proof (counted_sublist _ _ Hl). lia.
  - intros Hne. apply Hw. intros Hnil. rewrite Hnil in Hl. by apply sublist_nil_r in Hl.
Qed.

(** The end of Pop, Del and Clear: the removal and the wake-up of every parked producer. *)
Definition removed (r : Z) (f : list (entry T) → list (entry T)) (l : list (entry T))
    (k : lockmode) (t : mach Q W) : Prop :=
  mlk t = k ∧ Inv r (mb t) ∧ rely IP latched ctx (menv t) ∧ P l ∧ q_items (mb t) = f l ∧
  sg_parked (q_notFull (mb t)) = [].

Lemma wp_remove {A} r f (m : go (QState W T) W A) (K : A → mach Q W → Prop) U q k w e :
  IP r q → rely IP latched ctx e → f (q_items q) `sublist_of` q_items q →
  (∀ t, removed r f (q_items q) k t → wp m K U t) →
  wp (updb (λ q, set_items (f (q_items q)) q);; SignalIfWaiters notFull_l;; m)
    K U (Mach q k w e).
Proof.
  intros [HI HP] Hrely Hsub HK. do 3 wstep.
  pose proof (Inv_shrink r q _ HI Hsub) as [].
  unfold SignalIfWaiters, DoSignal. do 3 wstep.
  - wstep. apply HK. split_and!; try done. simpl. constructor; simpl; auto with signals.
    naive_solver.
  - wstep. apply HK. split_and!; try done. by apply no_waiters.
Qed.

(** The removal and what follows it. *)
Ltac wremove :=
  lazymatch goal with
  | HI : IP ?r ?q |- wp (updb (λ q, set_items (?f (q_items q)) q);; _) _ _ _ =>
      apply (wp_remove r f); [done|done| |intros [? ? ? ?] (Hk & ? & ? & ? & ? & ?); simpl in *; subst]
  end.

Lemma nonempty_items q : (0 <? zlen (q_items q))%Z = false → q_items q = [].
Proof. intros. bool_to_prop. apply zlen_nil_iff. pose proof (zlen_nonneg (q_items q)). lia. Qed.

Lemma wp_Pop r n options s :
  (0 ≤ r)%Z → outside r s →
  wp (Pop ctx n options) (λ '(out, x) t,
    match x with
    | Some _ => out = [] ∧ outside r t
    | None =>
        (∃ l, l ≠ [] ∧ out = e_item <$> take (Z.to_nat (Z.min n (zlen l))) l ∧
           removed r (drop (Z.to_nat (Z.min n (zlen l)))) l Unlocked t) ∨
        ¬ latched ∧ out = [] ∧ outside r t
    end) (gone r) s.
Proof.
  unfold Pop. wstart.
  apply (wp_forever (outside r)); [wdone|].
  clear - H. intros [q ? w e] (? & HI & He); simpl in *; subst.
  wauto.
  5: by apply nonempty_items.
  5: wcause.
  all: wremove; [apply sublist_drop|]; wauto.
  all: left; exists (q_items q0); split_and!; try done; by intros Hnil; rewrite Hnil in Heqb0.
Qed.

(** Where the interference leaves something in the queue, Pop does not wait. *)
Lemma wp_Pop_nonempty r n options s :
  (0 ≤ r)%Z → (∀ l, P l → l ≠ []) → outside r s →
  wp (Pop ctx n options) (λ '(out, x) t,
    match x with
    | Some _ => out = [] ∧ outside r t
    | None =>
        ∃ l, out = e_item <$> take (Z.to_nat (Z.min n (zlen l))) l ∧
           removed r (drop (Z.to_nat (Z.min n (zlen l)))) l Unlocked t
    end) (λ u t, is_Some u ∧ outside r t) s.
Proof.
  intros Hr Hne. revert Hr. unfold Pop. wstart.
  apply (wp_forever (outside r)); [wdone|].
  clear - Hr Hne. intros [q ? w e] (? & HI & He); simpl in *; subst.
  repeat first
    [ exfalso; match goal with H : (0 <? zlen (q_items ?q))%Z = false, HI : IP r ?q |- _ =>
        by apply (Hne _ (proj2 HI)), nonempty_items end
    | wdone | split; [by eexists|wdone] | wguard; first [whelper | wstep] ].
  all: wremove; [apply sublist_drop|]; wauto.
  all: by exists (q_items q0).
Qed.

Lemma wp_Peek r options s :
  (0 ≤ r)%Z → outside r s →
  wp (Peek ctx options) (λ '(v, ok, x) t, outside r t ∧
    (x = None → ∃ l, P l ∧ match l with [] => ok = false | y :: _ => ok = true ∧ v = e_item y end))
    (gone r) s.
Proof. 
  unfold Peek, reading. wstart. wauto.
  all: split; [wdone|intros ?; try done; exists (q_items q)].
  all: split; [apply HI|]; by rewrite Heql.
Qed.

Lemma wp_scan v l (K : bool → mach Q W → Prop) U q k w e :
  (∀ x w, K x (Mach q k w e)) → (∀ u w, U (Some u) (Mach q k w e)) →
  wp (scan v l) K U (Mach q k w e).
Proof.
  intros HQ HU. revert w. induction l as [|x l IH]; intros w; simpl; wauto; auto.
Qed.

Lemma wp_Exists r v options s :
  (0 ≤ r)%Z → outside r s → wp (Exists_ ctx v options) (λ _ t, outside r t) (gone r) s.
Proof.
  unfold Exists_, reading. wstart. wauto. apply wp_scan; intros; wauto.
Qed.

(** [ms] is what comparing the contents [l] with [v] answered. *)
Definition answered (v : list T) (l : list T) (ms : list bool) : Prop :=
  ∃ s t : mach Q W, matching v l s = (Done ms, t).

Lemma answered_length v l ms : answered v l ms → length ms = length l.
Proof.
  intros (s & t & Hm). revert ms s t Hm. induction l as [|x l IH]; intros ms s t; simpl.
  - by intros [= <- _].
  - unfold mbind, go_bind. destruct (MatchesAny x v s) as [[m| | |] s1]; try done.
    destruct (matching v l s1) as [[ms'| | |] s2] eqn:Hm; try done.
    intros [= <- _]. simpl. f_equal. by eapply IH.
Qed.

Lemma wp_matching v l (K : list bool → mach Q W → Prop) U q k w e :
  (∀ ms w, answered v l ms → K ms (Mach q k w e)) → (∀ u w, U (Some u) (Mach q k w e)) →
  wp (matching v l) K U (Mach q k w e).
Proof.
  intros HQ HU.
  assert (wp (matching v l) (λ _ t, ∃ w, t = Mach q k w e) (λ u t, is_Some u ∧ ∃ w, t = Mach q k w e)
    (Mach q k w e)) as Hwp.
  { clear HQ HU. revert w. induction l as [|x l IH]; intros w; simpl.
    { apply wp_ret. by eexists. }
    apply wp_bind, wp_MatchesAny; [|eauto]. intros m w'. apply wp_bind.
    eapply wp_mono; [| |apply IH]; [|done]. intros ms t [w'' ->]. apply wp_ret. by eexists. }
  unfold wp in *. destruct (matching v l _) as [[ms|u| |] t] eqn:Hm; try done.
  - destruct Hwp as [w' ->]. apply HQ. by do 2 eexists.
  - by destruct Hwp as [_ [w' ->]].
  - by destruct Hwp as [[??] _].
Qed.

Lemma wp_Del r v options s :
  (0 ≤ r)%Z → outside r s →
  wp (Del ctx v options) (λ '(n, x) t,
    match x with
    | Some _ => n = 0%Z ∧ outside r t
    | None => ∃ l ms, answered v (e_item <$> l) ms ∧ n = zlen (select true ms l) ∧
        (outside r t ∧ n = 0%Z ∧ P l ∧ q_items (mb t) = l ∨
         removed r (select false ms) l Unlocked t)
    end) (gone r) s.
Proof.
  unfold Del, writing. wstart. wauto. apply wp_matching; [|intros; wauto].
  intros ms w1 Hms. wauto.
  all: try (wremove; [apply select_sublist|]; wauto).
  all: rewrite <- select_fmap in *; rewrite zlen_fmap in *; bool_to_prop.
  all: exists (q_items q), ms; split; [done|]; split; [done|].
  all: first [left; split; [wdone|split; [done|split; [apply HI|done]]]|right; done].
Qed.

Lemma wp_NotEmpty r options s :
  (0 ≤ r)%Z → outside r s → wp (NotEmpty ctx options) (λ _ t, outside r t) (gone r) s.
Proof.
  unfold NotEmpty. wstart. apply (wp_forever (outside r)); [wdone|].
  clear - H. intros [q ? w e] (? & HI & He); simpl in *; subst.
  wauto. by apply nonempty_items.
Qed.

Lemma wp_NotFull r options s :
  (0 ≤ r)%Z → outside r s → wp (NotFull ctx options) (λ _ t, outside r t) (gone r) s.
Proof.
  unfold NotFull. wstart. apply (wp_forever (outside r)); [wdone|].
  clear - H. intros [q ? w e] (? & HI & He); simpl in *; subst.
  wauto.
Qed.

Lemma wp_Len r s :
  (0 ≤ r)%Z → outside r s →
  wp Len (λ n t, outside r t ∧ ∃ l, P l ∧ n = zlen l) (gone r) s.
Proof.
  intros Hr [Hk [HI He]]. destruct s; simpl in *; subst. unfold Len, reading. wauto.
  split; [wdone|]. exists (q_items q). split; [apply HI|done].
Qed.

(** Len neither unwinds nor waits. *)
Lemma wp_Len_exact r s :
  (0 ≤ r)%Z → outside r s →
  wp Len (λ n t, outside r t ∧ n = zlen (q_items (mb t))) (λ _ _, False) s.
Proof.
  intros Hr [Hk [HI He]]. destruct s; simpl in *; subst. unfold Len, reading. wauto.
  split; [wdone|done].
Qed.

Lemma wp_Close r options s :
  (0 ≤ r)%Z → outside r s →
  wp (Close ctx options) (λ x t, outside r t ∧ (x = None → q_closed (mb t) = true)) (gone r) s.
Proof.
  unfold Close. wstart. wauto.
  all: try (split; [by apply outside_intro|done]).
  all: apply IP_closed in HI.
  all: first [by apply gone_unwound|split; [by apply outside_intro|done]].
Qed.

Lemma wp_Clear r options s :
  (0 ≤ r)%Z → outside r s →
  wp (Clear ctx options) (λ x t,
    match x with
    | Some _ => outside r t
    | None => outside r t ∧ q_items (mb t) = [] ∨ ∃ l, removed r (λ _, []) l Unlocked t
    end) (gone r) s.
Proof.
  unfold Clear, writing. wstart. wauto.
  1-2: left; split; [wdone|]; apply zlen_nil_iff; by bool_to_prop.
  all: eapply (wp_remove r (λ _, [])); [done|done|apply sublist_nil_l|];
    intros [? ? ? ?] (? & ? & ? & ? & ? & ?); simpl in *; subst; wauto.
  all: right; eexists; done.
Qed.

Lemma wp_yield_all yield l (K : unit → mach Q W → Prop) U q k w e :
  (∀ w, K () (Mach q k w e)) → (∀ u w, U (Some u) (Mach q k w e)) →
  wp (yield_all ctx yield l) K U (Mach q k w e).
Proof.
  intros HQ HU. revert w. induction l as [|x l IH]; intros w; simpl; wauto; auto.
Qed.

Lemma wp_All r excl yield s :
  (0 ≤ r)%Z → outside r s → wp (All excl ctx yield) (λ _ t, outside r t) (gone r) s.
Proof.
  intros Hr [Hk [HI He]]. destruct s; simpl in *; subst. unfold All, reading, writing.
  destruct excl; wauto; apply wp_yield_all; intros; wauto.
Qed.
End facts.

(** * Calls of item methods that answer fixed values, and may unwind *)

Section steady.
Context {B W T : Type} `{!Item W T} `{!SteadyItem W T}.
Implicit Types (b : B) (U : option unwind → mach B W → Prop).

(** Which items an element of [v] is equal to. *)
Definition matched (v : list T) (x : T) : bool := existsb (eqb x) v.

Lemma wp_Hash v (Q : Z → mach B W → Prop) U b k w e :
  (∀ w, Q (hash v) (Mach b k w e)) → (∀ u w, U (Some u) (Mach b k w e)) →
  wp (call (Hash v)) Q U (Mach b k w e).
Proof. intros HQ HU. apply wp_call; [|done]. by intros h w' ->%Hash_value. Qed.

Lemma wp_Equal x y (Q : bool → mach B W → Prop) U b k w e :
  (∀ w, Q (eqb x y) (Mach b k w e)) → (∀ u w, U (Some u) (Mach b k w e)) →
  wp (call (Equal x y)) Q U (Mach b k w e).
Proof. intros HQ HU. apply wp_call; [|done]. by intros r w' ->%Equal_value. Qed.

Lemma wp_matched x v (Q : bool → mach B W → Prop) U b k w e :
  (∀ w, Q (matched v x) (Mach b k w e)) → (∀ u w, U (Some u) (Mach b k w e)) →
  wp (MatchesAny x v) Q U (Mach b k w e).
Proof.
  intros HQ HU. revert w HQ. induction v as [|y v IH]; intros w HQ; cbn [MatchesAny]; [by wstep|].
  wstep. apply wp_Equal; [|done]. intros w1. unfold matched in HQ. cbn [existsb] in HQ.
  destruct (eqb x y); [by wstep|by apply IH].
Qed.
End steady.

(** * Progress: what an operation does when nothing stands in its way *)

Section progress.
Context {W T : Type} `{!Item W T} `{!World W} `{!PureItem W T}.
Context (priority : bool) (before : T → T → bool).
Implicit Types (q : QState W T).

(** The items an operation of this kind accepts. *)
Definition kind_ok (v : T) : Prop := (prio v =? 0)%Z = negb priority.

Lemma ValidateKind_ok {B} vs (s : mach B W) :
  Forall kind_ok vs → ValidateKind priority vs s = (Done None, s).
Proof.
  destruct s as [b k w e]. induction 1 as [|v vs Hv _ IH]; [done|]. simpl.
  unfold ValidateKindOne, mbind, go_bind, call, mret, go_ret. simpl. rewrite Priority_pure. simpl.
  unfold kind_ok in Hv. rewrite Hv. destruct priority; simpl; apply IH.
Qed.

(** Push into an open queue with room, with no hook, side effect or backup. *)
Lemma Push_succeeds ctx vs q w :
  Forall kind_ok vs → q_closed q = false → q_backup q = None →
  (0 ≤ load q)%Z → fits (zlen vs) q → (0 ≤ q_maxSize q)%Z →
  ∃ q', Push priority before ctx vs [] (Mach q Unlocked w []) =
          (Done None, Mach q' Unlocked w []) ∧
        quiet (set_items (insert_all before vs false (q_items q)) q) q'.
Proof.
  intros Hvs Hcl Hb H0 Hfit Hm. unfold Push, ResolveOpOptions, mbind, go_bind. simpl.
  rewrite ValidateKind_ok by done. unfold forever. simpl. rewrite Hcl.
  assert (((0 <? q_maxSize q) && (q_maxSize q <? zlen vs))%Z = false) as ->.
  { apply andb_false_iff. destruct Hfit; [left|right]; apply Z.ltb_ge; lia. }
  assert (((q_maxSize q =? 0) || (load q + zlen vs <=? q_maxSize q))%Z = true) as ->.
  { apply orb_true_iff. destruct Hfit; [left; by apply Z.eqb_eq|right; by apply Z.leb_le]. }
  simpl. rewrite Hb. unfold SignalIfWaiters, DoSignal, mbind, go_bind. simpl.
  destruct (zlen (q_items q) =? 0)%Z; [destruct (HasWaiters _)|]; simpl; by eexists.
Qed.

(** Pop from an open queue that is not empty, with no side effect or backup. *)
Lemma Pop_succeeds ctx n q w :
  q_closed q = false → q_backup q = None → q_items q ≠ [] →
  let k := Z.to_nat (Z.min n (zlen (q_items q))) in
  ∃ q', Pop ctx n [] (Mach q Unlocked w []) =
          (Done (e_item <$> take k (q_items q), None), Mach q' Unlocked w []) ∧
        quiet (set_items (drop k (q_items q)) q) q'.
Proof.
  intros Hcl Hb Hne k. unfold Pop, ResolveOpOptions, mbind, go_bind. simpl.
  unfold forever. simpl. rewrite Hcl.
  assert ((0 <? zlen (q_items q))%Z = true) as ->.
  { apply Z.ltb_lt. destruct (q_items q); [done|]. unfold zlen; simpl; lia. }
  simpl. rewrite Hb. unfold SignalIfWaiters, DoSignal, mbind, go_bind. simpl.
  destruct (HasWaiters _); simpl; by eexists.
Qed.

Lemma MatchesAny_pure {B} x v (s : mach B W) : MatchesAny x v s = (Done (matched v x), s).
Proof.
  destruct s as [b k w e]. induction v as [|y v IH]; [done|]. simpl.
  unfold mbind, go_bind, call. simpl. rewrite Equal_pure. destruct (eqb x y); [done|exact IH].
Qed.

Lemma matching_pure v l (s : mach (QState W T) W) :
  matching v l s = (Done (matched v <$> l), s).
Proof.
  revert s. induction l as [|x l IH]; intros s; [done|]. simpl.
  unfold mbind, go_bind. by rewrite MatchesAny_pure, IH.
Qed.

Lemma answered_pure v l ms : answered v l ms → ms = matched v <$> l.
Proof. intros (s & t & Hm). rewrite matching_pure in Hm. by injection Hm. Qed.

Lemma select_matched (g : T → bool) l : select false (g <$> l) l = filter (λ x, g x = false) l.
Proof.
  induction l as [|x l IH]; [done|]. rewrite fmap_cons. simpl. rewrite IH.
  destruct (g x) eqn:E; simpl.
  - by rewrite filter_cons_False by (by rewrite E).
  - by rewrite filter_cons_True.
Qed.

Lemma select_matched_count (g : T → bool) l :
  zlen (select true (g <$> l) l) = (zlen l - zlen (filter (λ x, g x = false) l))%Z.
Proof.
  induction l as [|x l IH]; [done|]. rewrite fmap_cons, (zlen_cons x l). simpl.
  destruct (g x) eqn:E; simpl.
  - rewrite filter_cons_False by (by rewrite E). rewrite zlen_cons. lia.
  - rewrite filter_cons_True by done. rewrite zlen_cons. lia.
Qed.
End progress.

(** * Interference is consumed *)

Section consumes.
Context {W T : Type} `{!Item W T} `{!World W} (priority : bool) (before : T → T → bool).

Lemma consumes_ClosedOrCause (ctx : Ctx W) : consumes (ClosedOrCause ctx : go (QState W T) W _).
Proof. unfold ClosedOrCause. consume. Qed.

Lemma consumes_Push (ctx : Ctx W) vs options : consumes (Push priority before ctx vs options).
Proof. unfold Push. consume; try apply consumes_ClosedOrCause. Qed.
Lemma consumes_Pop (ctx : Ctx W) n options : consumes (Pop ctx n options : go (QState W T) W _).
Proof. unfold Pop. consume; try apply consumes_ClosedOrCause. Qed.
Lemma consumes_Del (ctx : Ctx W) v options : consumes (Del ctx v options : go (QState W T) W _).
Proof.
  assert (∀ l, consumes (matching v l : go (QState W T) W _)) as Hm
    by (induction l; simpl; consume).
  unfold Del, writing. consume; apply Hm.
Qed.
Lemma consumes_Clear (ctx : Ctx W) options : consumes (Clear ctx options : go (QState W T) W _).
Proof. unfold Clear, writing. consume. Qed.
Lemma consumes_Len : consumes (Len : go (QState W T) W _).
Proof. unfold Len, reading. consume. Qed.
End consumes.
