(* ===== verification/Interface.v ===== *)
(** The interface between the queue and its backings: the operations of the [Backing] interface
    (core/item.go) as a record, what it means for a backing to implement the contract, and what
    follows for every implementation, whatever other goroutines do with the same backing. *)

From S2P Require Import Prelude Errors Machine Core Contract Logic ContractFacts.

Record Ops (B W T : Type) := MkOps {
  op_Push : Ctx W → list T → list (OpOption W) → go B W (option err);
  op_Pop : Ctx W → Z → list (OpOption W) → go B W (list T * option err);
  op_Peek : Ctx W → list (OpOption W) → go B W (T * bool * option err);
  op_Exists : Ctx W → T → list (OpOption W) → go B W (bool * option err);
  op_Del : Ctx W → list T → list (OpOption W) → go B W (Z * option err);
  op_NotEmpty : Ctx W → list (OpOption W) → go B W (option err);
  op_NotFull : Ctx W → list (OpOption W) → go B W (option err);
  op_Len : go B W Z;
  op_Close : Ctx W → list (OpOption W) → go B W (option err);
  op_Clear : Ctx W → list (OpOption W) → go B W (option err);
  op_All : Ctx W → (T → option err → code W bool) → go B W unit;
}.
Arguments MkOps {B W T} _ _ _ _ _ _ _ _ _ _ _.
Arguments op_Push {B W T} _.
Arguments op_Pop {B W T} _.
Arguments op_Peek {B W T} _.
Arguments op_Exists {B W T} _.
Arguments op_Del {B W T} _.
Arguments op_NotEmpty {B W T} _.
Arguments op_NotFull {B W T} _.
Arguments op_Len {B W T} _.
Arguments op_Close {B W T} _.
Arguments op_Clear {B W T} _.
Arguments op_All {B W T} _.

Definition contract_ops {W T} `{!Item W T} `{!World W} (priority excl : bool)
    (before : T → T → bool) : Ops (QState W T) W T :=
  MkOps (Contract.Push priority before) Contract.Pop Contract.Peek Contract.Exists_ Contract.Del
    Contract.NotEmpty Contract.NotFull Contract.Len Contract.Close Contract.Clear (Contract.All excl).

(** A call of one operation, and its result. The copy-on-write iteration is not among them: it does not run
    to its end under the lock, and what it yields is not what the queue holds while it yields it. It has
    theorems of its own, one for each backing ([fifo_AllCOW], [heap_AllCOW], [btype_AllCOW],
    [ordered_AllCOW], [wp_AllCOW] on disk), and the theorems on any operation do not speak of it. *)
Inductive Op (W T : Type) :=
  | OPush (ctx : Ctx W) (vs : list T) (options : list (OpOption W))
  | OPop (ctx : Ctx W) (n : Z) (options : list (OpOption W))
  | OPeek (ctx : Ctx W) (options : list (OpOption W))
  | OExists (ctx : Ctx W) (v : T) (options : list (OpOption W))
  | ODel (ctx : Ctx W) (v : list T) (options : list (OpOption W))
  | ONotEmpty (ctx : Ctx W) (options : list (OpOption W))
  | ONotFull (ctx : Ctx W) (options : list (OpOption W))
  | OLen
  | OClose (ctx : Ctx W) (options : list (OpOption W))
  | OClear (ctx : Ctx W) (options : list (OpOption W))
  | OAll (ctx : Ctx W) (yield : T → option err → code W bool).
Arguments OPush {W T}.
Arguments OPop {W T}.
Arguments OPeek {W T}.
Arguments OExists {W T}.
Arguments ODel {W T}.
Arguments ONotEmpty {W T}.
Arguments ONotFull {W T}.
Arguments OLen {W T}.
Arguments OClose {W T}.
Arguments OClear {W T}.
Arguments OAll {W T}.

Inductive Res (T : Type) :=
  | RErr (e : option err)
  | RItems (l : list T) (e : option err)
  | RItem (v : T) (ok : bool) (e : option err)
  | RBool (b : bool) (e : option err)
  | RCount (n : Z) (e : option err).
Arguments RErr {T}.
Arguments RItems {T}.
Arguments RItem {T}.
Arguments RBool {T}.
Arguments RCount {T}.

Definition op_ctx {W T} (o : Op W T) : Ctx W :=
  match o with
  | OPush c _ _ | OPop c _ _ | OPeek c _ | OExists c _ _ | ODel c _ _ | ONotEmpty c _
  | ONotFull c _ | OClose c _ | OClear c _ | OAll c _ => c
  | OLen => background
  end.

(** Pop's count is at least 1 when it gets here ([queue.Pop] returns early otherwise). *)
Definition op_ok {W T} (o : Op W T) : Prop :=
  match o with OPop _ n _ => (1 ≤ n)%Z | _ => True end.

Definition exec {B W T} (ops : Ops B W T) (o : Op W T) : go B W (Res T) :=
  match o with
  | OPush c vs o => e ← op_Push ops c vs o; mret (RErr e)
  | OPop c n o => '(l, e) ← op_Pop ops c n o; mret (RItems l e)
  | OPeek c o => '(v, ok, e) ← op_Peek ops c o; mret (RItem v ok e)
  | OExists c v o => '(b, e) ← op_Exists ops c v o; mret (RBool b e)
  | ODel c v o => '(n, e) ← op_Del ops c v o; mret (RCount n e)
  | ONotEmpty c o => e ← op_NotEmpty ops c o; mret (RErr e)
  | ONotFull c o => e ← op_NotFull ops c o; mret (RErr e)
  | OLen => n ← op_Len ops; mret (RCount n None)
  | OClose c o => e ← op_Close ops c o; mret (RErr e)
  | OClear c o => e ← op_Clear ops c o; mret (RErr e)
  | OAll c y => op_All ops c y;; mret (RErr None)
  end.

(** What a backing promises the queue. *)
Class Implements {B W T} `{!Item W T} `{!World W} (R : B → QState W T → Prop) (ops : Ops B W T)
    (priority excl : bool) (before : T → T → bool) : Prop := {
  impl_Push ctx vs o : refines R (op_Push ops ctx vs o) (Contract.Push priority before ctx vs o);
  impl_Pop ctx n o : (1 ≤ n)%Z → refines R (op_Pop ops ctx n o) (Contract.Pop ctx n o);
  impl_Peek ctx o : refines R (op_Peek ops ctx o) (Contract.Peek ctx o);
  impl_Exists ctx v o : refines R (op_Exists ops ctx v o) (Contract.Exists_ ctx v o);
  impl_Del ctx v o : refines R (op_Del ops ctx v o) (Contract.Del ctx v o);
  impl_NotEmpty ctx o : refines R (op_NotEmpty ops ctx o) (Contract.NotEmpty ctx o);
  impl_NotFull ctx o : refines R (op_NotFull ops ctx o) (Contract.NotFull ctx o);
  impl_Len : refines R (op_Len ops) Contract.Len;
  impl_Close ctx o : refines R (op_Close ops ctx o) (Contract.Close ctx o);
  impl_Clear ctx o : refines R (op_Clear ops ctx o) (Contract.Clear ctx o);
  impl_All ctx y : refines R (op_All ops ctx y) (Contract.All excl ctx y);
}.

Section wp_of.
Context {W T : Type} `{!Item W T} `{!World W} (priority excl : bool) (before : T → T → bool).
Abbreviation Q := (QState W T).
Abbreviation C := (contract_ops priority excl before).

(** Nothing is asked of the contents. *)
Abbreviation any := (λ _ : list (entry T), True).

Lemma wp_exec latched (o : Op W T) r s :
  op_ok o → (0 ≤ r)%Z → outside any latched (op_ctx o) r s →
  wp (exec C o) (λ _ t, outside any latched (op_ctx o) r t) (gone any latched (op_ctx o) r) s.
Proof.
  intros Hok Hr Hs. destruct o; simpl in *; apply wp_bind.
  - eapply wp_mono; [| |by apply wp_Push]; [|done].
    intros [e|] t Ht; [by apply wp_ret|]. apply wp_ret.
    destruct Ht as [(? & ? & ? & _)|[_ ?]]; done.
  - eapply wp_mono; [| |by apply wp_Pop]; [|done].
    intros [l [e|]] t Ht; [by apply wp_ret, Ht|]. apply wp_ret.
    destruct Ht as [(? & ? & ? & ? & ? & ? & _)|(_ & _ & ?)]; done.
  - eapply wp_mono; [| |by apply wp_Peek]; [|done].
    intros [[v k] e] t [Ht _]. by apply wp_ret.
  - eapply wp_mono; [| |by apply wp_Exists]; [|done].
    intros [b e] t Ht. by apply wp_ret.
  - eapply wp_mono; [| |by apply wp_Del]; [|done].
    intros [n [e|]] t Ht; [by apply wp_ret, Ht|]. apply wp_ret.
    destruct Ht as (? & ? & ? & ? & [(? & ? & ? & ?)|(? & ? & ? & _)]); done.
  - eapply wp_mono; [| |by apply wp_NotEmpty]; [|done]. intros; by apply wp_ret.
  - eapply wp_mono; [| |by apply wp_NotFull]; [|done]. intros; by apply wp_ret.
  - eapply wp_mono; [| |by apply wp_Len]; [|done]. intros ? ? [? _]; by apply wp_ret.
  - eapply wp_mono; [| |by apply wp_Close]; [|done]. intros ? ? [? _]; by apply wp_ret.
  - eapply wp_mono; [| |by apply wp_Clear]; [|done].
    intros [e|] t Ht; [by apply wp_ret|]. apply wp_ret.
    destruct Ht as [[? ?]|(? & ? & ? & ? & _)]; done.
  - eapply wp_mono; [| |by apply wp_All]; [|done]. intros; by apply wp_ret.
Qed.

(** Whole operations of other goroutines are interference that every operation can live with. *)
Lemma rely_exec ctx others :
  Forall op_ok others → rely (IP any) False ctx ((λ o, run (exec C o)) <$> others).
Proof.
  intros Hok. apply Forall_fmap. eapply Forall_impl; [exact Hok|]. intros o Ho. split; [|done].
  intros r b w Hr Hb. apply wp_run.
  eapply wp_mono; [| |apply (wp_exec False o r); [done|done|]].
  - intros ? t Ht. apply Ht.
  - intros ? t [Ht _]. apply Ht.
  - split; [done|]. split; [done|]. constructor.
Qed.
End wp_of.

(** * Every implementation *)

Section implementation.
Context {B W T : Type} `{!Item W T} `{!World W} (R : B → QState W T → Prop) (ops : Ops B W T)
  (priority excl : bool) (before : T → T → bool).
Context `{!Implements R ops priority excl before}.
Abbreviation Q := (QState W T).
Abbreviation C := (contract_ops priority excl before).
Abbreviation any := (λ _ : list (entry T), True).

Lemma exec_refines (o : Op W T) : op_ok o → refines R (exec ops o) (exec C o).
Proof.
  intros Hok. destruct o; simpl in *; refine_start; apply rwp_bind.
  all: eapply rwp_mono; [| |first [by apply impl_Push|by apply impl_Pop|by apply impl_Peek
    |by apply impl_Exists|by apply impl_Del|by apply impl_NotEmpty|by apply impl_NotFull
    |by apply impl_Len|by apply impl_Close|by apply impl_Clear|by apply impl_All]]; [|done].
  all: intros a1 a2 t1 t2 [-> Ht]; repeat split_match; by apply rwp_ret.
Qed.

(** The other goroutines, each running one operation from start to end in a window of ours. *)
Definition others_of (others : list (Op W T)) : list (B → W → B * W) :=
  (λ o, run (exec ops o)) <$> others.

Lemma others_related others :
  Forall op_ok others →
  Forall2 (env_rel R) (others_of others) ((λ o, run (exec C o)) <$> others).
Proof.
  intros Hok. unfold others_of. induction Hok as [|o others Ho _ IH]; constructor; [|done].
  by apply refines_run, exec_refines.
Qed.

(** The backing represents a queue that satisfies the invariant. *)
Definition represents (b : B) : Prop := ∃ q, R b q ∧ Inv 0 q.

(** Whatever operation a goroutine runs and whatever the others do meanwhile, it never misuses the
    lock, it gives the lock back however it ends, the invariant holds afterwards, and it is left
    parked only when nobody else has anything left to do. *)
Lemma impl_safe o others b w :
  represents b → op_ok o → Forall op_ok others →
  wp (exec ops o) (λ _ t, mlk t = Unlocked ∧ represents (mb t))
    (λ u t, mlk t = Unlocked ∧ represents (mb t) ∧ (u = None → menv t = []))
    (Mach b Unlocked w (others_of others)).
Proof.
  intros (q & Hr & HI) Ho Hothers.
  eapply wp_mono; [| |eapply refines_wp;
    [by apply exec_refines
    |apply mrel_mach; [exact Hr|by apply others_related]
    |apply (wp_exec priority excl before False o 0); [done|done|]]].
  - intros ? t1 (t2 & Hm & Hout). destruct Hm as [Hb Hk _ _], Hout as (Hk' & [HI' _] & _).
    split; [by rewrite Hk|by eexists].
  - intros u t1 (t2 & Hm & [Hout He]). destruct Hm as [Hb Hk _ Henv], Hout as (Hk' & [HI' _] & _).
    split_and!; [by rewrite Hk|by eexists|]. intros Hu. rewrite (He Hu) in Henv.
    by apply Forall2_nil_inv_r in Henv.
  - split; [done|]. split; [done|]. by apply rely_exec.
Qed.

(** The effect of an operation that runs with nobody interfering, from what the contract's own
    specification says about it. *)
Lemma impl_alone {A} (m : go B W A) (m' : go Q W A) ctx q b w
    (K : A → mach Q W → Prop) :
  refines R m m' → R b q → Inv 0 q →
  (outside (λ l, l = q_items q) True ctx 0 (Mach q Unlocked w []) →
   wp m' K (gone (λ l, l = q_items q) True ctx 0) (Mach q Unlocked w [])) →
  wp m (λ a t1, ∃ t2, mrel R t1 t2 ∧ K a t2)
    (λ _ t1, mlk t1 = Unlocked ∧ ∃ q', R (mb t1) q' ∧ Inv 0 q' ∧ q_items q' = q_items q)
    (Mach b Unlocked w []).
Proof.
  intros Href Hr HI Hwp.
  eapply wp_mono; [| |eapply refines_wp;
    [exact Href|apply mrel_mach; [exact Hr|constructor]|apply Hwp]]; [done| |].
  - intros u t1 (t2 & [Hb Hk _ _] & [(Hk' & [HI' HP] & _) _]).
    split; [by rewrite Hk|by exists (mb t2)].
  - split; [done|]. split; [done|constructor].
Qed.
End implementation.

(** * Two implementations of the same contract *)

(** A client that runs operations one after the other, and what they answer. *)
Fixpoint exec_all {B W T} (ops : Ops B W T) (os : list (Op W T)) : go B W (list (Res T)) :=
  match os with
  | [] => mret []
  | o :: os => r ← exec ops o; rs ← exec_all ops os; mret (r :: rs)
  end.

Section agreement.
Context {B1 B2 W T : Type} `{!Item W T} `{!World W} (R1 : B1 → QState W T → Prop) (ops1 : Ops B1 W T)
  (R2 : B2 → QState W T → Prop) (ops2 : Ops B2 W T) (priority excl : bool) (before : T → T → bool).
Context `{!Implements R1 ops1 priority excl before} `{!Implements R2 ops2 priority excl before}.
Abbreviation C := (contract_ops priority excl before).

Lemma exec_all_refines {B} (R : B → QState W T → Prop) ops `{!Implements R ops priority excl before} os :
  Forall op_ok os → refines R (exec_all ops os) (exec_all C os).
Proof.
  induction 1 as [|o os Ho _ IH]; refine_start; cbn [exec_all]; [by apply rwp_ret|].
  apply rwp_bind. apply (rwp_refines R); [by apply exec_refines|done|done| |].
  - intros. apply rwp_bind. apply (rwp_refines R); [done..| |]; intros; [|by apply mrel_mach].
    apply rwp_ret. split; [done|by apply mrel_mach].
  - intros. by apply mrel_mach.
Qed.

(** From states that stand for the same queue the same operations give the same answers, end the same way
    and do the same to the world, and the states they end in stand for the same queue. *)
Lemma impl_agree os others b1 b2 q w :
  R1 b1 q → R2 b2 q → Forall op_ok os → Forall op_ok others →
  let r1 := exec_all ops1 os (Mach b1 Unlocked w (others_of ops1 others)) in
  let r2 := exec_all ops2 os (Mach b2 Unlocked w (others_of ops2 others)) in
  r1.1 = r2.1 ∧ mw r1.2 = mw r2.2 ∧ mlk r1.2 = mlk r2.2 ∧ ∃ q', R1 (mb r1.2) q' ∧ R2 (mb r2.2) q'.
Proof.
  intros H1 H2 Hos Hothers.
  pose proof (exec_all_refines R1 ops1 os Hos (Mach b1 Unlocked w (others_of ops1 others))
    (Mach q Unlocked w ((λ o, run (exec C o)) <$> others))
    ltac:(by apply mrel_mach; [|by apply (others_related R1 ops1 priority excl before)])) as Hr1.
  pose proof (exec_all_refines R2 ops2 os Hos (Mach b2 Unlocked w (others_of ops2 others))
    (Mach q Unlocked w ((λ o, run (exec C o)) <$> others))
    ltac:(by apply mrel_mach; [|by apply (others_related R2 ops2 priority excl before)])) as Hr2.
  unfold rwp in *.
  destruct (exec_all ops1 _ _) as [[] t1], (exec_all C _ _) as [[] t], (exec_all ops2 _ _) as [[] t2]; try done.
  all: repeat match goal with H : _ ∧ _ |- _ => destruct H as [<- H] end; subst.
  all: destruct Hr1 as [Hb1 Hk1 Hw1 _], Hr2 as [Hb2 Hk2 Hw2 _]; split_and!; try done; simpl; try congruence.
  all: by exists (mb t).
Qed.
End agreement.

(** * A client that pushes batches and then pops *)

Fixpoint push_all {B W T} (ops : Ops B W T) (ctx : Ctx W) (bs : list (list T)) : go B W unit :=
  match bs with
  | [] => mret ()
  | vs :: bs => op_Push ops ctx vs [];; push_all ops ctx bs
  end.

Section client.
Context {B W T : Type} `{!Item W T} `{!World W} `{!PureItem W T} (R : B → QState W T → Prop)
  (ops : Ops B W T) (priority excl : bool) (before : T → T → bool).
Context `{!Implements R ops priority excl before}.
Implicit Types (q : QState W T).

(** An open queue with no backup. *)
Definition plain q : Prop :=
  q_closed q = false ∧ q_backup q = None ∧ (0 ≤ q_maxSize q)%Z ∧ (0 ≤ q_inflight q)%Z.

Lemma insert_all_app vs vs' r (l : list (entry T)) :
  insert_all before (vs ++ vs') r l = insert_all before vs' r (insert_all before vs r l).
Proof. apply foldl_app. Qed.

Lemma contract_push_all ctx bs q w :
  plain q → Forall (kind_ok priority) (concat bs) → fits (zlen (concat bs)) q →
  ∃ q', push_all (contract_ops priority excl before) ctx bs (Mach q Unlocked w []) =
          (Done (), Mach q' Unlocked w []) ∧
        quiet (set_items (insert_all before (concat bs) false (q_items q)) q) q'.
Proof.
  revert q. induction bs as [|vs bs IH]; intros q (Hcl & Hb & Hm & Hi) Hok Hfit; simpl in *.
  - exists q. done.
  - apply Forall_app in Hok as [Hvs Hok]. rewrite zlen_app in Hfit.
    pose proof (counted_nonneg (q_items q)). pose proof (zlen_nonneg vs).
    pose proof (zlen_nonneg (concat bs)). unfold fits in Hfit. rewrite load_counted in Hfit.
    destruct (Push_succeeds priority before ctx vs q w) as (q1 & Hpush & Hq1); [done..| | |done|].
    { rewrite load_counted. lia. }
    { unfold fits. rewrite load_counted. lia. }
    unfold mbind, go_bind. change (op_Push (contract_ops priority excl before)) with (Push priority before).
    rewrite Hpush. destruct Hq1 as [Hit Hmx Hin Hc Hbk]. simpl in *.
    destruct (IH q1) as (q2 & Hrest & Hq2).
    + unfold plain. by rewrite Hc, Hbk, Hmx, Hin.
    + done.
    + unfold fits. rewrite load_counted, Hit, Hmx, Hin, counted_insert_all. lia.
    + exists q2. split; [exact Hrest|]. destruct Hq2. simpl in *.
      constructor; simpl; rewrite ?insert_all_app; congruence.
Qed.

Lemma push_all_refines ctx bs :
  refines R (push_all ops ctx bs) (push_all (contract_ops priority excl before) ctx bs).
Proof.
  induction bs as [|vs bs IH]; refine_start; simpl; [by apply rwp_ret|].
  apply rwp_bind. apply (rwp_refines R); [apply impl_Push|done..| |].
  - intros. apply (rwp_refines R); [done..| |]; intros; [split; [done|]|]; by apply mrel_mach.
  - intros. by apply mrel_mach.
Qed.

Lemma impl_push_pop ctx bs n b q w :
  refines R (op_Pop ops ctx n []) (Contract.Pop ctx n []) → R b q → plain q →
  Forall (kind_ok priority) (concat bs) → fits (zlen (concat bs)) q →
  let l := insert_all before (concat bs) false (q_items q) in
  l ≠ [] →
  ∃ t, (push_all ops ctx bs;; op_Pop ops ctx n []) (Mach b Unlocked w []) =
       (Done (e_item <$> take (Z.to_nat (Z.min n (zlen l))) l, None), t).
Proof.
  intros HPop Hr Hpl Hok Hfit l Hne.
  destruct (contract_push_all ctx bs q w Hpl Hok Hfit) as (q1 & Hpush & [Hit Hmx Hin Hc Hbk]).
  destruct (Pop_succeeds ctx n q1 w) as (q2 & Hpop & _).
  { by rewrite Hc; apply Hpl. } { by rewrite Hbk; apply Hpl. } { by rewrite Hit. }
  assert (refines R (push_all ops ctx bs;; op_Pop ops ctx n [])
    (push_all (contract_ops priority excl before) ctx bs;; Contract.Pop ctx n [])) as Href.
  { refine_start. apply rwp_bind. apply (rwp_refines R); [apply push_all_refines|done..| |].
    - intros. apply (rwp_refines R); [exact HPop|done..| |]; intros;
        [split; [done|]|]; by apply mrel_mach.
    - intros. by apply mrel_mach. }
  specialize (Href (Mach b Unlocked w []) (Mach q Unlocked w []) ltac:(by constructor)).
  assert ((push_all (contract_ops priority excl before) ctx bs;; Contract.Pop ctx n [])
    (Mach q Unlocked w []) = (Done (e_item <$> take (Z.to_nat (Z.min n (zlen l))) l, None),
    Mach q2 Unlocked w [])) as Hrun.
  { unfold mbind, go_bind. rewrite Hpush, Hpop, Hit. done. }
  unfold rwp in Href. rewrite Hrun in Href.
  destruct ((push_all ops ctx bs;; op_Pop ops ctx n []) _) as [[] t]; try done.
  destruct Href as [-> _]. by exists t.
Qed.
End client.
