(* ===== verification/SeqOrder.v ===== *)
(** What the backings that number their entries share: the order of the entries, the entries as the
    contract has them, and the count of the restored ones among them. And what the backings
    share that keep their items in arrival order: a new item goes to the end, and the restored items are
    the first positions, so that a count says which they are. *)

From S2P Require Import Prelude Errors Machine Core Contract Logic Priority ContractFacts.

(** * The order of the entries *)

Section order.
Context {W T : Type} `{!Item W T} `{!PureItem W T} `{!OrderLaws W T}.
Implicit Types (a b c : SeqItem T).

(** What [PrioritySeqLess] answers. *)
Definition pless a b : bool :=
  ltb (Item_ a) (Item_ b) || (negb (ltb (Item_ b) (Item_ a)) && (Seq a <? Seq b)%Z).

Lemma PrioritySeqLess_pure a b w : PrioritySeqLess a b w = (Ok (pless a b), w).
Proof.
  unfold PrioritySeqLess, pless. rewrite Less_pure. destruct (ltb (Item_ a) (Item_ b)); [done|].
  rewrite Less_pure. by destruct (ltb (Item_ b) (Item_ a)).
Qed.

(** [a] does not come before [b]. *)
Lemma pless_false a b :
  pless a b = false ↔
  ltb (Item_ a) (Item_ b) = false ∧ (ltb (Item_ b) (Item_ a) = true ∨ (Seq b ≤ Seq a)%Z).
Proof.
  unfold pless. rewrite orb_false_iff, andb_false_iff, negb_false_iff, Z.ltb_ge. done.
Qed.

Lemma pless_asym a b : pless a b = true → pless b a = false.
Proof.
  unfold pless. intros Hab. apply orb_true_iff in Hab as [Hab|Hab].
  - rewrite (ltb_asym _ _ Hab), Hab. done.
  - apply andb_true_iff in Hab as [Hba Hs]. apply negb_true_iff in Hba. rewrite Hba.
    bool_to_prop. apply andb_false_iff. right. apply Z.ltb_ge. lia.
Qed.

Lemma pless_le_trans a b c : pless b a = false → pless c b = false → pless c a = false.
Proof.
  rewrite !pless_false. intros [Hba Hab] [Hcb Hbc].
  pose proof (ltb_le_trans _ _ _ Hba Hcb) as Hca. split; [done|].
  destruct (ltb (Item_ a) (Item_ c)) eqn:Hac; [by left|right].
  destruct Hab as [Hab|Hab].
  { by rewrite (ltb_le_trans _ _ _ Hcb Hac) in Hab. }
  destruct Hbc as [Hbc|Hbc]; [|lia].
  by rewrite (ltb_le_trans _ _ _ Hac Hba) in Hbc.
Qed.

Lemma pless_trans a b c : pless a b = true → pless b c = true → pless a c = true.
Proof.
  intros Hab Hbc. destruct (pless a c) eqn:Hac; [done|].
  by rewrite (pless_le_trans _ _ _ Hac (pless_asym _ _ Hab)) in Hbc.
Qed.

Lemma pless_total a b : Seq a ≠ Seq b → pless a b = false → pless b a = true.
Proof.
  rewrite pless_false. unfold pless. intros Hne [Hab [->|Hs]]; [done|]. rewrite Hab.
  apply orb_true_iff. right. simpl. apply Z.ltb_lt. lia.
Qed.

(** A new entry is compared with the ones admitted before it by [Less] alone. *)
Lemma pless_new a b : (Seq b < Seq a)%Z → pless a b = ltb (Item_ a) (Item_ b).
Proof.
  intros Hs. unfold pless. rewrite (proj2 (Z.ltb_ge _ _)) by lia.
  by rewrite andb_false_r, orb_false_r.
Qed.
End order.

(** * The entries of the contract *)

Section entries.
Context {W T : Type} `{!Item W T} `{!PureItem W T}.
Abbreviation Q := (QState W T).
Abbreviation SI := (SeqItem T).

(** A backup's Del takes a set of items: the order it lists them in says nothing. *)
Definition unordered (b : Backup W T) : Prop :=
  ∀ ctx l k, l ≡ₚ k → bk_Del b ctx l = bk_Del b ctx k.

Definition entry_of (hydrateEnd : Z) (x : SI) : entry T :=
  Entry (Item_ x) (Seq x <? hydrateEnd)%Z.

(** The count of restored entries after those numbered [seqs] left. *)
Definition drop_count (hydrateEnd : Z) (seqs : list Z) (hydrated : Z) : Z :=
  foldl (λ h seq, if ((seq <? hydrateEnd) && (0 <? h))%Z then h - 1 else h)%Z hydrated seqs.

Lemma drop_count_exempt he (l : list SI) h :
  (exempt (entry_of he <$> l) ≤ h)%Z →
  drop_count he (Seq <$> l) h = (h - exempt (entry_of he <$> l))%Z.
Proof.
  revert h. induction l as [|x l IH]; intros h; [intros _; by rewrite Z.sub_0_r|].
  rewrite !fmap_cons, exempt_cons. simpl e_restored. unfold drop_count. cbn [foldl].
  pose proof (exempt_nonneg (entry_of he <$> l)).
  destruct (Seq x <? he)%Z; simpl andb; cbv iota; intros Hle.
  - rewrite (proj2 (Z.ltb_lt _ _)) by lia. fold (drop_count he (Seq <$> l) (h - 1)). rewrite IH; lia.
  - fold (drop_count he (Seq <$> l) h). rewrite IH; lia.
Qed.

(** * Lists *)

Lemma select_filter {A} (g : A → bool) k l :
  select k (g <$> l) l = filter (λ x, g x = k) l.
Proof.
  induction l as [|x l IH]; [done|]. rewrite fmap_cons, filter_cons. cbn [select]. rewrite IH.
  destruct (g x), k; done.
Qed.

Lemma scan_pure v l (t : mach Q W) :
  Contract.scan v l t = (Done (existsb (λ x, eqb x v) l), t).
Proof.
  induction l as [|x l IH]; [done|]. destruct t. simpl.
  unfold mbind, go_bind, call. simpl. rewrite Equal_pure. by destruct (eqb x v).
Qed.

Lemma existsb_Permutation {A} (g : A → bool) k l : k ≡ₚ l → existsb g k = existsb g l.
Proof.
  induction 1 as [|x k l _ IH|x y l|]; simpl; [done|by rewrite IH| |congruence].
  by destruct (g x), (g y).
Qed.

Lemma filter_split {A} (g : A → bool) l :
  l ≡ₚ filter (λ x, g x = true) l ++ filter (λ x, g x = false) l.
Proof.
  induction l as [|x l IH]; [done|]. rewrite !filter_cons. destruct (g x); simpl.
  - by constructor.
  - by rewrite <- Permutation_middle, <- IH.
Qed.

Lemma Forall_filtered {A} (P : A → Prop) (g : A → bool) k l :
  Forall P l → Forall P (filter (λ x, g x = k) l).
Proof. rewrite !Forall_forall. intros HP x [_ Hx]%list_elem_of_filter. auto. Qed.

Lemma filter_all {A} (P : A → Prop) `{!∀ x, Decision (P x)} (l : list A) :
  Forall P l → filter P l = l.
Proof. induction 1 as [|x l Hx _ IH]; [done|]. by rewrite filter_cons_True, IH. Qed.

(** A filter looks at the elements of its list only. *)
Lemma filter_in_iff {A} (P1 P2 : A → Prop) `{!∀ x, Decision (P1 x)} `{!∀ x, Decision (P2 x)} (l : list A) :
  (∀ x, x ∈ l → P1 x ↔ P2 x) → filter P1 l = filter P2 l.
Proof.
  induction l as [|x l IH]; intros Hl; [done|]. rewrite !filter_cons.
  rewrite IH by (intros y Hy; apply Hl; by right). pose proof (Hl x ltac:(by left)).
  repeat case_decide; naive_solver.
Qed.

(** Entries are told apart by their numbers. *)
Lemma Seq_inj (x y : SI) (l : list SI) : NoDup (Seq <$> l) → x ∈ l → y ∈ l → Seq x = Seq y → x = y.
Proof.
  intros Hnd [i Hi]%list_elem_of_lookup [j Hj]%list_elem_of_lookup Heq.
  assert (i = j) as ->; [|congruence].
  eapply (NoDup_lookup _ _ _ (Seq x)); [exact Hnd|..]; rewrite list_lookup_fmap, ?Hi, ?Hj; [done|].
  simpl. by rewrite Heq.
Qed.

Lemma NoDup_Seq_filter (Q : SI → Prop) `{!∀ x, Decision (Q x)} (l : list SI) :
  NoDup (Seq <$> l) → NoDup (Seq <$> filter Q l).
Proof.
  induction l as [|y l IH]; [done|]. intros [Hy Hn]%NoDup_cons. rewrite filter_cons.
  case_decide; [|by apply IH]. constructor; [|by apply IH].
  intros (z & Heq & [_ Hz]%list_elem_of_filter)%list_elem_of_fmap. apply Hy. rewrite Heq.
  by apply list_elem_of_fmap_2.
Qed.
End entries.

(** * Order of arrival *)

Section arrival.
Context {T : Type}.

Abbreviation nobefore := (λ _ _ : T, false).

(** The restored items are the first [hydrated] live positions. *)
Definition positional (h : Z) (l : list (entry T)) : Prop :=
  ∃ n : nat, h = Z.of_nat n ∧ n ≤ length l ∧
    e_restored <$> l = replicate n true ++ replicate (length l - n) false.

(** * The restored prefix *)

Lemma insert_entry_fifo (x : entry T) l : insert_entry nobefore x l = l ++ [x].
Proof. induction l as [|y l IH]; simpl; [done|]. by rewrite IH. Qed.

Lemma insert_all_fifo (vs : list T) r l :
  insert_all nobefore vs r l = l ++ ((λ v, Entry v r) <$> vs).
Proof.
  unfold insert_all. revert l. induction vs as [|v vs IH]; intros l; simpl; [by rewrite app_nil_r|].
  rewrite IH, insert_entry_fifo, <- app_assoc. done.
Qed.

Lemma fmap_item_entry (vs : list T) r : e_item <$> ((λ v, Entry v r) <$> vs) = vs.
Proof. rewrite <- list_fmap_compose. induction vs; simpl; f_equal; done. Qed.

Lemma fmap_restored_entry (vs : list T) r :
  e_restored <$> ((λ v, Entry v r) <$> vs) = replicate (length vs) r.
Proof. induction vs; simpl; f_equal; done. Qed.

Lemma positional_admit h l (vs : list T) :
  positional h l → positional h (l ++ ((λ v, Entry v false) <$> vs)).
Proof.
  intros (n & -> & Hn & Hl). exists n. rewrite length_app, length_fmap. split; [done|].
  split; [lia|]. rewrite fmap_app, Hl, fmap_restored_entry, <- app_assoc, <- replicate_add.
  do 2 f_equal. lia.
Qed.

Lemma positional_drop h (l : list (entry T)) k :
  positional h l → positional (Z.max 0 (h - Z.of_nat k)) (drop k l).
Proof.
  intros (n & -> & Hn & Hl). exists (n - k). rewrite length_drop, fmap_drop, Hl.
  split; [lia|]. split; [lia|].
  rewrite drop_app, length_replicate, !drop_replicate. f_equal. f_equal. lia.
Qed.

Lemma exempt_replicate (l : list (entry T)) n m :
  e_restored <$> l = replicate n true ++ replicate m false → exempt l = Z.of_nat n.
Proof.
  unfold exempt, zlen. revert n. induction l as [|[x r] l IH]; intros n Hl.
  - destruct n; [done|discriminate].
  - destruct n as [|n]; simpl in Hl.
    + destruct m; [discriminate|]. injection Hl as -> Hl.
      rewrite filter_cons_False by done. revert Hl. clear. revert m.
      induction l as [|[y r'] l IH]; intros m Hl; [done|].
      destruct m; [discriminate|]. injection Hl as -> Hl.
      rewrite filter_cons_False by done. eapply IH, Hl.
    + injection Hl as -> Hl. rewrite filter_cons_True by done. simpl.
      specialize (IH n Hl). lia.
Qed.

Lemma positional_exempt h (l : list (entry T)) : positional h l → exempt l = h.
Proof. intros (n & -> & ? & Hl). by eapply exempt_replicate. Qed.

(** What Del keeps and removes, and how many of the removed were restored. *)
Lemma positional_select h ms (l : list (entry T)) :
  length ms = length l → positional h l →
  positional (h - exempt (select true ms l)) (select false ms l).
Proof.
  intros Hms (n & -> & Hn & Hl). unfold positional. revert n ms Hn Hms Hl.
  induction l as [|[x r] l IH]; intros n [|m ms] Hn Hms Hl; simpl in *; try lia.
  - assert (n = 0) as -> by lia. exists 0. done.
  - destruct n as [|n]; simpl in Hl; injection Hl as -> Hl.
    + destruct (IH 0 ms) as (k & Hk & Hk' & Hs); [lia|lia| |].
      { rewrite Nat.sub_0_r. exact Hl. }
      destruct m; simpl; rewrite ?exempt_cons; simpl.
      * exists k. split_and!; [lia|lia|done].
      * assert (k = 0) as -> by (pose proof (exempt_nonneg (select true ms l)); lia).
        exists 0. split_and!; [lia|lia|]. rewrite Nat.sub_0_r in Hs.
        simpl in *. f_equal. exact Hs.
    + destruct (IH n ms) as (k & Hk & Hk' & Hs); [lia|lia|done|].
      destruct m; simpl; rewrite ?exempt_cons; simpl.
      * exists k. split_and!; [lia|lia|done].
      * exists (S k). split_and!; [lia|lia|]. simpl. f_equal. exact Hs.
Qed.

Lemma drop_hydrated_eq h n : (0 ≤ h)%Z → (0 ≤ n)%Z →
  (if (h <=? Z.min n h)%Z then 0 else h - Z.min n h)%Z = Z.max 0 (h - n).
Proof. intros. case_match; bool_to_prop; lia. Qed.

(** While a queue is restored all its items are. *)
Lemma positional_restored h (l : list (entry T)) v :
  positional h l → Forall (λ x, e_restored x = true) l → positional (h + 1) (l ++ [Entry v true]).
Proof.
  intros Hp Hall. assert (e_restored <$> l = replicate (length l) true) as Ht.
  { symmetry. apply replicate_as_Forall. rewrite length_fmap. split; [done|].
    apply Forall_fmap. eapply Forall_impl; [exact Hall|]. intros; by symmetry. }
  assert (h = Z.of_nat (length l)) as ->.
  { rewrite <- (positional_exempt _ _ Hp). apply (exempt_replicate _ _ 0). by rewrite Ht, app_nil_r. }
  exists (length l + 1). rewrite length_app, fmap_app, Ht. simpl.
  split_and!; [lia|done|]. by rewrite Nat.sub_diag, app_nil_r, replicate_add.
Qed.
(** The entries of which the first [h] are restored. *)
Definition restored_prefix (h : Z) (l : list T) : list (entry T) :=
  zip_with Entry l (replicate (Z.to_nat h) true ++ replicate (length l - Z.to_nat h) false).

Lemma restored_prefix_ok h l :
  (0 ≤ h ≤ zlen l)%Z → e_item <$> restored_prefix h l = l ∧ positional h (restored_prefix h l).
Proof.
  intros [Hh Hl]. unfold zlen in Hl. unfold restored_prefix.
  assert (length l = length (replicate (Z.to_nat h) true ++ replicate (length l - Z.to_nat h) false)) as Hlen
    by (autorewrite with golen; lia).
  split; [apply fmap_zip_with_l; [done|lia]|]. exists (Z.to_nat h). split; [lia|].
  rewrite length_zip_with_l by lia. split; [lia|]. apply fmap_zip_with_r; [done|lia].
Qed.
End arrival.
