(* ===== verification/Fifo.v ===== *)
(** Package fifo: the in-memory FIFO backing over a slice (fifo/fifo.go). The storage is modelled as
    Go has it, a backing array with a length and a head, so that what Push reclaims and what the
    array still references can be stated. *)

From S2P Require Import Prelude Errors Machine Core Slice.

(** * The backing *)

Record Backing (W T : Type) := MkBacking {
  buf : slice T;
  head : nat;
  maxSize : Z;
  hydrated : Z;
  inflight : Z;
  notFull : Signal;
  notEmpty : Signal;
  closed : bool;
  backup : option (Backup W T);
}.
Arguments MkBacking {W T} _ _ _ _ _ _ _ _ _.
Arguments buf {W T} _.
Arguments head {W T} _.
Arguments maxSize {W T} _.
Arguments hydrated {W T} _.
Arguments inflight {W T} _.
Arguments notFull {W T} _.
Arguments notEmpty {W T} _.
Arguments closed {W T} _.
Arguments backup {W T} _.

Section fifo.
Context {W T : Type} `{!Item W T} `{!World W} `{!Grow}.
Abbreviation F := (Backing W T).
Abbreviation M := (go (Backing W T) W).

Definition New : F := MkBacking (MkSlice [] 0) 0 0 0 0 NewSignal NewSignal false None.

Definition live (f : F) : list T := drop (head f) (sl_contents (buf f)).

Definition set_buf (b : slice T) (h : nat) (f : F) : F :=
  MkBacking b h (maxSize f) (hydrated f) (inflight f) (notFull f) (notEmpty f) (closed f)
    (backup f).
Definition set_hydrated (h : Z) (f : F) : F :=
  MkBacking (buf f) (head f) (maxSize f) h (inflight f) (notFull f) (notEmpty f) (closed f)
    (backup f).
Definition set_maxSize (m : Z) (f : F) : F :=
  MkBacking (buf f) (head f) m (hydrated f) (inflight f) (notFull f) (notEmpty f) (closed f)
    (backup f).
Definition set_closed (c : bool) (f : F) : F :=
  MkBacking (buf f) (head f) (maxSize f) (hydrated f) (inflight f) (notFull f) (notEmpty f) c
    (backup f).
Definition set_backup (b : option (Backup W T)) (f : F) : F :=
  MkBacking (buf f) (head f) (maxSize f) (hydrated f) (inflight f) (notFull f) (notEmpty f)
    (closed f) b.

Definition inflight_l : lens F Z := Lens inflight (λ i f,
  MkBacking (buf f) (head f) (maxSize f) (hydrated f) i (notFull f) (notEmpty f) (closed f)
    (backup f)).
Definition notFull_l : lens F Signal := Lens notFull (λ g f,
  MkBacking (buf f) (head f) (maxSize f) (hydrated f) (inflight f) g (notEmpty f) (closed f)
    (backup f)).
Definition notEmpty_l : lens F Signal := Lens notEmpty (λ g f,
  MkBacking (buf f) (head f) (maxSize f) (hydrated f) (inflight f) (notFull f) g (closed f)
    (backup f)).

Definition SetMaxBatch (n : Z) (f : F) : F * option err :=
  if (n <? 1)%Z then (f, Some (Errorf "max batch must be at least 1, got %d" [Sentinel ErrBadOption]))
  else (f, None).

Definition SetMaxSize (n : Z) (f : F) : F * option err :=
  if (n <? 0)%Z then (f, Some (Errorf "max size must be at least 0, got %d" [Sentinel ErrBadOption]))
  else (set_maxSize n f, None).

Definition ClosedOrCause (ctx : Ctx W) : M (option err) :=
  RLock;;
  f ← getb;
  RUnlock;;
  if closed f then mret (Some (Sentinel ErrClosed))
  else w ← getw; mret (ctx_cause ctx w).

(** The slide that reclaims the prefix Pop left behind. *)
Definition slide (f : F) : F :=
  let n := length (live f) in
  let b := sl_copy (buf f) (live f) in
  let b := sl_clear zero n (sl_len b) b in
  set_buf (sl_trunc n b) 0 f.

(** The insertion at the end of Push: slide when that saves the append a growth, then append. *)
Definition store (vs : list T) (f : F) : F :=
  let f :=
    if (0 <? head f) && (sl_cap (buf f) <? sl_len (buf f) + length vs) then slide f else f in
  set_buf (sl_append zero (buf f) vs) (head f) f.

Definition Push (ctx : Ctx W) (vs : list T) (options : list (OpOption W)) : M (option err) :=
  '(opts, oe) ← ResolveOpOptions CallPush options;
  match oe with
  | Some e => mret (Some e)
  | None =>
  iferr e := ValidateKind false vs then mret (Some e) else
  forever (
    Lock;;
    f ← getb;
    if closed f then Unlock;; return_ (Some (Sentinel ErrClosed))
    else if ((0 <? maxSize f) && (maxSize f <? zlen vs))%Z
    then Unlock;; return_ (Some (Sentinel ErrBatchTooLarge))
    else if ((maxSize f =? 0) ||
             (zlen (live f) - hydrated f + inflight f + zlen vs <=? maxSize f))%Z then
      iferr e :=
        match OnAdmit opts with
        | None => mret None
        | Some hook =>
            iferr e := RunOnAdmit inflight_l (zlen vs) notFull_l hook
            then mret (Some e)
            else
              f ← getb;
              if closed f
              then ReleaseReservation opts notFull_l;; mret (Some (Sentinel ErrClosed))
              else mret None
        end
      then Unlock;; return_ (Some e) else
      let give_back := ReleaseReservation opts notFull_l;; Unlock in
      iferr e := RunSideEffectLocked (SideEffect opts) give_back
      then give_back;; return_ (Some e) else
      f ← getb;
      iferr e :=
        match backup f with
        | None => mret None
        | Some b => RunBackup (bk_Push b ctx vs) give_back
        end
      then give_back;; return_ (Some e) else
      f ← getb;
      let wasEmpty := (zlen (live f) =? 0)%Z in
      updb (store vs);;
      (if wasEmpty then SignalIfWaiters notEmpty_l else mret ());;
      Unlock;;
      return_ None
    else
      iferr e := Wait notFull_l ctx Unlock
      then r ← ClosedOrCause ctx; return_ r
      else continue_)
  end.

Definition dropHydrated (n : Z) (f : F) : F :=
  if (hydrated f <=? n)%Z then set_hydrated 0 f else set_hydrated (hydrated f - n)%Z f.

Definition Pop (ctx : Ctx W) (n : Z) (options : list (OpOption W)) : M (list T * option err) :=
  '(opts, oe) ← ResolveOpOptions CallPop options;
  match oe with
  | Some e => mret ([], Some e)
  | None =>
  forever (
    Lock;;
    f ← getb;
    if closed f then Unlock;; return_ ([], Some (Sentinel ErrClosed))
    else if (0 <? zlen (live f))%Z then
      let k := if (zlen (live f) <? n)%Z then length (live f) else Z.to_nat n in
      let out := take k (live f) in
      iferr e := RunSideEffectLocked (SideEffect opts) Unlock
      then Unlock;; return_ ([], Some e) else
      f ← getb;
      iferr e :=
        match backup f with
        | None => mret None
        | Some b => RunBackup (bk_Del b ctx out) Unlock
        end
      then Unlock;; return_ ([], Some e) else
      updb (λ f, set_buf (sl_clear zero (head f) (head f + k) (buf f)) (head f + k) f);;
      updb (λ f, dropHydrated (Z.min (Z.of_nat k) (hydrated f)) f);;
      SignalIfWaiters notFull_l;;
      Unlock;;
      return_ (out, None)
    else
      iferr e := Wait notEmpty_l ctx Unlock
      then r ← ClosedOrCause ctx; return_ ([], r)
      else continue_)
  end.

(** [lk.RLock(); defer lk.RUnlock()] and [lk.Lock(); defer lk.Unlock()]. *)
Definition rlocked {A} (body : M A) : M A := RLock;; defer RUnlock body.
Definition locked {A} (body : M A) : M A := Lock;; defer Unlock body.

Definition Peek (ctx : Ctx W) (options : list (OpOption W)) : M (T * bool * option err) :=
  '(opts, oe) ← ResolveOpOptions CallPeek options;
  match oe with
  | Some e => mret (zero, false, Some e)
  | None =>
  rlocked (
    f ← getb;
    if closed f then mret (zero, false, Some (Sentinel ErrClosed))
    else match live f with
    | [] => e ← RunSideEffect (SideEffect opts); mret (zero, false, e)
    | x :: _ => e ← RunSideEffect (SideEffect opts); mret (x, true, e)
    end)
  end.

(** The scan of Exists runs the side effect where it returns. *)
Fixpoint exists_loop (v : T) (se : option (code W (option err))) (l : list T)
    : M (bool * option err) :=
  match l with
  | [] => e ← RunSideEffect se; mret (false, e)
  | x :: l =>
      m ← call (Equal x v);
      if m : bool then e ← RunSideEffect se; mret (true, e)
      else exists_loop v se l
  end.

Definition Exists_ (ctx : Ctx W) (v : T) (options : list (OpOption W)) : M (bool * option err) :=
  '(opts, oe) ← ResolveOpOptions CallExists options;
  match oe with
  | Some e => mret (false, Some e)
  | None =>
  rlocked (
    f ← getb;
    if closed f then mret (false, Some (Sentinel ErrClosed))
    else exists_loop v (SideEffect opts) (live f))
  end.

(** The loop of Del over the live items: what is kept, what is removed, and how many of the
    removed sit at a position below [hydrated]. *)
Fixpoint del_loop (v : list T) (hyd : Z) (i : Z) (kept removed : list T) (removedHydrated : Z)
    (l : list T) : M (list T * list T * Z) :=
  match l with
  | [] => mret (kept, removed, removedHydrated)
  | item :: l =>
      m ← MatchesAny item v;
      if m : bool then
        del_loop v hyd (i + 1) kept (removed ++ [item])
          (if (i <? hyd)%Z then removedHydrated + 1 else removedHydrated)%Z l
      else del_loop v hyd (i + 1) (kept ++ [item]) removed removedHydrated l
  end.

Definition Del (ctx : Ctx W) (v : list T) (options : list (OpOption W)) : M (Z * option err) :=
  '(opts, oe) ← ResolveOpOptions CallDel options;
  match oe with
  | Some e => mret (0%Z, Some e)
  | None =>
  locked (
    f ← getb;
    if closed f then mret (0%Z, Some (Sentinel ErrClosed))
    else
      '(kept, removed, removedHydrated) ← del_loop v (hydrated f) 0 [] [] 0 (live f);
      if (zlen removed =? 0)%Z then e ← RunSideEffect (SideEffect opts); mret (0%Z, e)
      else
      iferr e := RunSideEffect (SideEffect opts) then mret (0%Z, Some e) else
      f ← getb;
      iferr e :=
        match backup f with
        | None => mret None
        | Some b => e ← call (bk_Del b ctx removed); mret (WrapBackup e)
        end
      then mret (0%Z, Some e) else
      updb (λ f, set_buf (sl_append zero (sl_make zero 0 (length (live f))) kept) 0 f);;
      updb (dropHydrated removedHydrated);;
      SignalIfWaiters notFull_l;;
      mret (zlen removed, None))
  end.

Definition NotEmpty (ctx : Ctx W) (options : list (OpOption W)) : M (option err) :=
  '(opts, oe) ← ResolveOpOptions CallNotEmpty options;
  match oe with
  | Some e => mret (Some e)
  | None =>
  forever (
    RLock;;
    f ← getb;
    if closed f then RUnlock;; return_ (Some (Sentinel ErrClosed))
    else if (0 <? zlen (live f))%Z then
      e ← RunSideEffectLocked (SideEffect opts) RUnlock;
      RUnlock;;
      return_ e
    else
      iferr e := Wait notEmpty_l ctx RUnlock
      then r ← ClosedOrCause ctx; return_ r
      else continue_)
  end.

Definition NotFull (ctx : Ctx W) (options : list (OpOption W)) : M (option err) :=
  '(opts, oe) ← ResolveOpOptions CallNotFull options;
  match oe with
  | Some e => mret (Some e)
  | None =>
  forever (
    RLock;;
    f ← getb;
    if closed f then RUnlock;; return_ (Some (Sentinel ErrClosed))
    else if ((maxSize f =? 0) ||
             (zlen (live f) - hydrated f + inflight f <? maxSize f))%Z then
      e ← RunSideEffectLocked (SideEffect opts) RUnlock;
      RUnlock;;
      return_ e
    else
      iferr e := Wait notFull_l ctx RUnlock
      then r ← ClosedOrCause ctx; return_ r
      else continue_)
  end.

Definition Len : M Z := rlocked (f ← getb; mret (zlen (live f))).

Definition Close (ctx : Ctx W) (options : list (OpOption W)) : M (option err) :=
  '(opts, oe) ← ResolveOpOptions CallClose options;
  match oe with
  | Some e => mret (Some e)
  | None =>
  Lock;;
  f ← getb;
  if closed f then
    e ← RunSideEffectLocked (SideEffect opts) Unlock;
    Unlock;;
    mret e
  else
    iferr e := RunSideEffectLocked (SideEffect opts) Unlock then Unlock;; mret (Some e) else
    f ← getb;
    let closeAndWake :=
      updb (set_closed true);;
      Unlock;;
      DoSignal notEmpty_l;;
      DoSignal notFull_l in
    e ← match backup f with
        | None => mret None
        | Some b => RunBackup (bk_Close b ctx) closeAndWake
        end;
    updb (set_closed true);;
    Unlock;;
    DoSignal notEmpty_l;;
    DoSignal notFull_l;;
    mret e
  end.

Definition Clear (ctx : Ctx W) (options : list (OpOption W)) : M (option err) :=
  '(opts, oe) ← ResolveOpOptions CallClear options;
  match oe with
  | Some e => mret (Some e)
  | None =>
  locked (
    f ← getb;
    if closed f then mret (Some (Sentinel ErrClosed))
    else if (zlen (live f) =? 0)%Z then RunSideEffect (SideEffect opts)
    else
      iferr e := RunSideEffect (SideEffect opts) then mret (Some e) else
      f ← getb;
      iferr e :=
        match backup f with
        | None => mret None
        | Some b => e ← call (bk_Clear b ctx); mret (WrapBackup e)
        end
      then mret (Some e) else
      updb (λ f, set_buf (sl_clear zero (head f) (sl_len (buf f)) (buf f)) (head f) f);;
      updb (λ f, set_hydrated 0 (set_buf (sl_trunc 0 (buf f)) 0 f));;
      SignalIfWaiters notFull_l;;
      mret None)
  end.

(** The loop of All. *)
Fixpoint all_loop (ctx : Ctx W) (yield : T → option err → code W bool) (l : list T) : M unit :=
  match l with
  | [] => mret ()
  | x :: l =>
      d ← ctx_done ctx;
      match d with
      | Some cause => call (yield zero (Some cause));; mret ()
      | None =>
          more ← call (yield x None);
          if more : bool then all_loop ctx yield l else mret ()
      end
  end.

Definition All (ctx : Ctx W) (yield : T → option err → code W bool) : M unit :=
  rlocked (
    f ← getb;
    if closed f then call (yield zero (Some (Sentinel ErrClosed)));; mret ()
    else all_loop ctx yield (live f)).

(** [release] of AllCOW: its [held] flag says that this goroutine holds the read lock. *)
Definition release_held : M unit := λ s,
  match mlk s with
  | RLocked => RUnlock s
  | _ => (Done tt, s)
  end.

Fixpoint cow_loop (ctx : Ctx W) (yield : T → option err → code W bool) (l : list T) : M unit :=
  match l with
  | [] => release_held
  | x :: l' =>
      ww ← WriteWanted;
      if ww : bool then
        let snap := l in
        release_held;;
        all_loop ctx yield snap
      else
      d ← ctx_done ctx;
      match d with
      | Some cause => release_held;; call (yield zero (Some cause));; mret ()
      | None =>
          more ← call (yield x None);
          if more : bool then cow_loop ctx yield l' else release_held
      end
  end.

Definition AllCOW (ctx : Ctx W) (yield : T → option err → code W bool) : M unit :=
  RLock;;
  defer release_held (
    f ← getb;
    if closed f then release_held;; call (yield zero (Some (Sentinel ErrClosed)));; mret ()
    else cow_loop ctx yield (live f)).

Fixpoint hydrate_loop (ctx : Ctx W) (b : Backup W T)
    (steps : list (code W (option (T * option err)))) : M (option err) :=
  match steps with
  | [] => updb (set_backup (Some b));; mret None
  | step :: steps =>
      o ← call step;
      match o with
      | None => updb (set_backup (Some b));; mret None
      | Some (v, Some e) => mret (WrapBackup (Some e))
      | Some (v, None) =>
          iferr e := ValidateKindOne false v then mret (Some e) else
          iferr e := call (bk_OnLoad b ctx v) then mret (WrapBackup (Some e)) else
          updb (λ f, set_buf (sl_append zero (buf f) [v]) (head f) f);;
          updb (λ f, set_hydrated (hydrated f + 1)%Z f);;
          hydrate_loop ctx b steps
      end
  end.

Definition Hydrate (ctx : Ctx W) (b : Backup W T) : M (option err) :=
  locked (hydrate_loop ctx b (bk_RangeAll b ctx)).
End fifo.
