(* ===== verification/FifoRefines.v ===== *)
(** The slice backing implements the contract of a FIFO queue: its storage invariant, the
    abstraction relation, and one refinement per operation. *)

From S2P Require Import Prelude Errors Machine Core Slice Contract Logic ContractFacts SeqOrder Fifo.

Section refinement.
Context {W T : Type} `{!Item W T} `{!World W} `{!Grow}.

Abbreviation F := (Fifo.Backing W T).
Abbreviation Q := (QState W T).
Abbreviation nobefore := (λ _ _ : T, false).

Implicit Types (f : Fifo.Backing W T) (q : QState W T).

(** * Storage *)

(** Every slot of the array outside the live contents holds the zero value, so the array keeps no
    departed item alive. *)
Record storage_ok (f : F) : Prop := {
  st_head : head f ≤ sl_len (buf f);
  st_len : sl_len (buf f) ≤ sl_cap (buf f);
  st_arr : sl_arr (buf f) =
    replicate (head f) zero ++ live f ++ replicate (sl_cap (buf f) - sl_len (buf f)) zero;
}.

Record fifo_rel (f : F) (q : Q) : Prop := {
  fr_storage : storage_ok f;
  fr_items : e_item <$> q_items q = live f;
  fr_hydrated : positional (hydrated f) (q_items q);
  fr_maxSize : q_maxSize q = maxSize f;
  fr_inflight : q_inflight q = inflight f;
  fr_notFull : q_notFull q = notFull f;
  fr_notEmpty : q_notEmpty q = notEmpty f;
  fr_closed : q_closed q = closed f;
  fr_backup : q_backup q = backup f;
}.

Lemma length_live f : length (live f) = sl_len (buf f) `min` sl_cap (buf f) - head f.
Proof. unfold live, sl_contents, sl_cap. autorewrite with golen. done. Qed.

Lemma storage_length f : storage_ok f → length (live f) = sl_len (buf f) - head f.
Proof. intros [? ? ?]. rewrite length_live. lia. Qed.

(** A backing whose array is laid out around [l] has live contents [l]. *)
Lemma live_layout (a : list T) h (l : list T) r n f :
  buf f = MkSlice a n → head f = h → n = h + length l →
  a = replicate h zero ++ l ++ replicate r zero →
  live f = l ∧ storage_ok f.
Proof.
  intros Hb Hh Hn ->.
  assert (live f = l) as Hl.
  { unfold live, sl_contents. rewrite Hb, Hh, Hn. simpl.
    rewrite take_app, take_ge by (rewrite length_replicate; lia).
    rewrite length_replicate, Nat.add_sub_swap, Nat.sub_diag by lia. simpl.
    rewrite take_app_length. rewrite drop_app, drop_ge by (rewrite length_replicate; lia).
    by rewrite length_replicate, Nat.sub_diag. }
  split; [done|]. split; rewrite Hb, ?Hh, ?Hl; unfold sl_cap; simpl;
    autorewrite with golen; [lia..|].
  do 3 f_equal. lia.
Qed.

Lemma storage_append f vs :
  storage_ok f →
  let f' := set_buf (sl_append zero (buf f) vs) (head f) f in
  live f' = live f ++ vs ∧ storage_ok f'.
Proof.
  intros Hst. pose proof (storage_length f Hst) as Hlen. destruct Hst as [Hh Hl Harr]. simpl.
  unfold sl_append. case_match; bool_to_prop.
  - eapply (live_layout _ (head f) _ (sl_cap (buf f) - (sl_len (buf f) + length vs))); simpl;
      [done|done|rewrite length_app; lia|].
    rewrite Harr at 1. rewrite !take_app, take_ge by (rewrite length_replicate; lia).
    rewrite length_replicate, (take_ge (live f)) by lia.
    rewrite (proj2 (Nat.sub_0_le _ _)) by lia. rewrite take_0, app_nil_r, <- !app_assoc.
    do 3 f_equal. rewrite Harr, !drop_app, !length_replicate, (drop_ge (replicate (head f) zero))
      by (rewrite length_replicate; lia).
    rewrite (drop_ge (live f)) by lia. simpl. rewrite drop_replicate. f_equal. lia.
  - eapply (live_layout _ (head f)); simpl; [done|done|rewrite length_app; lia|].
    rewrite !app_assoc. do 2 f_equal. unfold sl_contents. rewrite Harr.
    rewrite !take_app, take_ge by (rewrite length_replicate; lia).
    rewrite length_replicate, (take_ge (live f)) by lia.
    rewrite (proj2 (Nat.sub_0_le _ _)) by lia. by rewrite take_0, app_nil_r.
Qed.

Lemma storage_slide f :
  storage_ok f → live (slide f) = live f ∧ storage_ok (slide f) ∧
  sl_cap (buf (slide f)) = sl_cap (buf f) ∧ sl_len (buf (slide f)) = length (live f).
Proof.
  intros Hst. pose proof (storage_length f Hst) as Hlen. destruct Hst as [Hh Hl Harr].
  unfold slide, sl_copy, sl_clear, sl_trunc, sl_cap in *. simpl.
  assert (length (take (length (live f)) (live f ++ drop (length (live f)) (sl_arr (buf f))) ++
      replicate (sl_len (buf f) - length (live f)) zero ++
      drop (sl_len (buf f)) (live f ++ drop (length (live f)) (sl_arr (buf f)))) =
      length (sl_arr (buf f))) as Hcap.
  { autorewrite with golen. lia. }
  split; [|split]; [eapply (live_layout _ 0 (live f) (length (sl_arr (buf f)) - length (live f)))..|];
    simpl; try done.
  - rewrite take_app_length, drop_app, (drop_ge (live f)) by lia. simpl.
    f_equal. rewrite drop_drop, Harr, !drop_app, !length_replicate. f_equal.
    rewrite drop_ge by (rewrite length_replicate; lia). simpl.
    rewrite drop_ge by lia. simpl. rewrite drop_replicate, <- replicate_add. f_equal.
    unfold sl_cap. autorewrite with golen. lia.
  - rewrite take_app_length, drop_app, (drop_ge (live f)) by lia. simpl.
    f_equal. rewrite drop_drop, Harr, !drop_app, !length_replicate. f_equal.
    rewrite drop_ge by (rewrite length_replicate; lia). simpl.
    rewrite drop_ge by lia. simpl. rewrite drop_replicate, <- replicate_add. f_equal.
    unfold sl_cap. autorewrite with golen. lia.
Qed.

Lemma storage_pop f k :
  storage_ok f → k ≤ length (live f) →
  let f' := set_buf (sl_clear zero (head f) (head f + k) (buf f)) (head f + k) f in
  live f' = drop k (live f) ∧ storage_ok f'.
Proof.
  intros Hst Hk. pose proof (storage_length f Hst) as Hlen. destruct Hst as [Hh Hl Harr].
  unfold sl_cap in *. remember (length (sl_arr (buf f))) as c eqn:Hc.
  eapply (live_layout _ (head f + k) _ (c - sl_len (buf f))); simpl;
    [done|done|rewrite length_drop; lia|].
  rewrite Harr, take_app, take_ge by (rewrite length_replicate; lia).
  rewrite length_replicate, Nat.sub_diag, take_0, app_nil_r, Nat.add_comm, Nat.add_sub.
  rewrite drop_app, drop_ge by (rewrite length_replicate; lia). simpl.
  rewrite length_replicate, Nat.add_sub, drop_app.
  replace (k - length (live f)) with 0 by lia. 
  by rewrite drop_0, app_assoc, <- replicate_add, (Nat.add_comm k).
Qed.

Lemma storage_reset f (a : list T) n :
  buf f = MkSlice a n → head f = 0 → n = 0 → a = replicate (length a) zero →
  live f = [] ∧ storage_ok f.
Proof. intros Hb Hh -> Ha. by eapply (live_layout a 0 [] (length a)). Qed.

Lemma storage_clear f g :
  storage_ok f →
  buf g = sl_trunc 0 (sl_clear zero (head f) (sl_len (buf f)) (buf f)) → head g = 0 →
  live g = [] ∧ storage_ok g.
Proof.
  intros Hst Hb Hh. pose proof (storage_length f Hst) as Hlen. destruct Hst as [? Hl Harr].
  unfold sl_cap in *. eapply storage_reset; [exact Hb|done|done|].
  symmetry. apply replicate_as_Forall. split; [done|]. simpl.
  rewrite Harr, take_app, take_ge by (rewrite length_replicate; lia).
  rewrite length_replicate, Nat.sub_diag, take_0, app_nil_r.
  rewrite !drop_app, drop_ge by (rewrite length_replicate; lia). simpl.
  rewrite length_replicate, drop_ge by lia. simpl.
  rewrite drop_replicate. repeat (apply Forall_app; split); by apply Forall_replicate.
Qed.

Lemma storage_kept f g (kept : list T) :
  length kept ≤ length (live f) →
  buf g = sl_append zero (sl_make zero 0 (length (live f))) kept → head g = 0 →
  live g = kept ∧ storage_ok g.
Proof.
  intros Hk Hb Hh. unfold sl_append, sl_make, sl_cap in Hb. simpl in Hb.
  rewrite length_replicate in Hb. case_match; bool_to_prop; [|lia].
  eapply (live_layout _ 0 kept (length (live f) - length kept)); [exact Hb|done|done|].
  simpl. by rewrite drop_replicate.
Qed.

(** * The loop of Del *)

Lemma rwp_del_loop v h i kept removed rh (le : list (entry T)) n m (l : list T)
    (P : list T * list T * Z → list bool → mach F W → mach Q W → Prop) U b1 b2 k w e1 e2 :
  l = e_item <$> le →
  e_restored <$> le = replicate n true ++ replicate m false → n = Z.to_nat (h - i) →
  (∀ ms w, length ms = length le →
     P (kept ++ select false ms l, removed ++ select true ms l,
        (rh + exempt (select true ms le))%Z) ms (Mach b1 k w e1) (Mach b2 k w e2)) →
  (∀ w, U (Mach b1 k w e1) (Mach b2 k w e2)) →
  rwp (del_loop v h i kept removed rh l) (matching v l) P U (Mach b1 k w e1) (Mach b2 k w e2).
Proof.
  intros -> Hr Hn HP HU.
  revert i kept removed rh n m w P Hr Hn HP. induction le as [|[x r] le IH];
    intros i kept removed rh n m w P Hr Hn HP; simpl.
  - apply rwp_ret. specialize (HP [] w eq_refl). simpl in HP. rewrite !app_nil_r in HP.
    by rewrite Z.add_0_r in HP.
  - assert (r = (i <? h)%Z ∧ ∃ n' m', e_restored <$> le = replicate n' true ++ replicate m' false ∧
        n' = Z.to_nat (h - (i + 1))) as (-> & n' & m' & Hr' & Hn').
    { destruct n as [|n].
      - destruct m as [|m]; simpl in Hr; [done|]. injection Hr as -> Hr. split; [symmetry; apply Z.ltb_ge; lia|].
        exists 0, m. split; [done|lia].
      - simpl in Hr. injection Hr as -> Hr. split; [symmetry; apply Z.ltb_lt; lia|].
        exists n, m. split; [done|lia]. }
    apply rwp_bind, rwp_MatchesAny; [|done]. intros [] w'.
    + apply (rwp_map_r (cons true)). eapply IH; [exact Hr'|exact Hn'|].
      intros ms w'' Hms. specialize (HP (true :: ms) w''). simpl in HP. rewrite exempt_cons in HP.
      simpl in HP. destruct (i <? h)%Z; rewrite <- ?app_assoc; simpl;
        rewrite ?Z.add_0_l, ?Z.add_assoc in HP; apply HP; lia.
    + apply (rwp_map_r (cons false)). eapply IH; [exact Hr'|exact Hn'|].
      intros ms w'' Hms. specialize (HP (false :: ms) w''). simpl in HP.
      rewrite <- ?app_assoc. simpl. apply HP; lia.
Qed.

(** * The shared fields *)

Lemma fr_len f q : fifo_rel f q → zlen (live f) = zlen (q_items q).
Proof. intros Hr. by rewrite <- (fr_items _ _ Hr), zlen_fmap. Qed.

Lemma fr_load f q :
  fifo_rel f q → (zlen (live f) - hydrated f + inflight f)%Z = load q.
Proof.
  intros Hr. unfold load. rewrite (fr_len _ _ Hr), (fr_inflight _ _ Hr).
  by rewrite (positional_exempt _ _ (fr_hydrated _ _ Hr)).
Qed.

Lemma pop_count n f q :
  fifo_rel f q → (0 ≤ n)%Z →
  (if (zlen (q_items q) <? n)%Z then length (live f) else Z.to_nat n) =
  Z.to_nat (n `min` zlen (q_items q)).
Proof.
  intros Hr Hn. rewrite <- (fr_len _ _ Hr). case_match; bool_to_prop; unfold zlen in *; lia.
Qed.

(** Fields other than the contents and the restored count may change together. *)
Lemma fifo_rel_with f q f' q' :
  fifo_rel f q →
  buf f' = buf f → head f' = head f → hydrated f' = hydrated f → q_items q' = q_items q →
  q_maxSize q' = maxSize f' → q_inflight q' = inflight f' → q_notFull q' = notFull f' →
  q_notEmpty q' = notEmpty f' → q_closed q' = closed f' → q_backup q' = backup f' →
  fifo_rel f' q'.
Proof.
  intros [[Hh Hl Ha] Hi Hy] Hb Hhd Hhy Hit. assert (live f' = live f) as Hlive.
  { unfold live. by rewrite Hb, Hhd. }
  constructor; try done; [split; by rewrite ?Hlive, ?Hb, ?Hhd|by rewrite Hlive, Hit|].
  by rewrite Hhy, Hit.
Qed.

Lemma fifo_inflight_rel : lens_rel fifo_rel Fifo.inflight_l Contract.inflight_l.
Proof.
  split; [intros f q Hr; symmetry; apply (fr_inflight _ _ Hr)|].
  intros x f q Hr. apply (fifo_rel_with f q); try done; apply Hr.
Qed.
Lemma fifo_notFull_rel : lens_rel fifo_rel Fifo.notFull_l Contract.notFull_l.
Proof.
  split; [intros f q Hr; symmetry; apply (fr_notFull _ _ Hr)|].
  intros x f q Hr. apply (fifo_rel_with f q); try done; apply Hr.
Qed.
Lemma fifo_notEmpty_rel : lens_rel fifo_rel Fifo.notEmpty_l Contract.notEmpty_l.
Proof.
  split; [intros f q Hr; symmetry; apply (fr_notEmpty _ _ Hr)|].
  intros x f q Hr. apply (fifo_rel_with f q); try done; apply Hr.
Qed.
Lemma fifo_closed_rel c f q :
  fifo_rel f q → fifo_rel (Fifo.set_closed c f) (Contract.set_closed c q).
Proof. intros Hr. apply (fifo_rel_with f q); try done; apply Hr. Qed.
Lemma backup_rel b f q :
  fifo_rel f q → fifo_rel (Fifo.set_backup b f) (Contract.set_backup b q).
Proof. intros Hr. apply (fifo_rel_with f q); try done; apply Hr. Qed.

(** New contents: a storage update on one side, a list update on the other. *)
Lemma fifo_rel_items f q f' l :
  fifo_rel f q →
  maxSize f' = maxSize f → inflight f' = inflight f → notFull f' = notFull f →
  notEmpty f' = notEmpty f → closed f' = closed f → backup f' = backup f →
  storage_ok f' → e_item <$> l = live f' → positional (hydrated f') l →
  fifo_rel f' (set_items l q).
Proof. intros [] ?????????. constructor; simpl; congruence. Qed.

Hint Resolve fifo_inflight_rel fifo_notFull_rel fifo_notEmpty_rel fifo_closed_rel backup_rel : backing_rel.

Ltac rfields Hr ::=
  rewrite <- ?(fr_closed _ _ Hr), <- ?(fr_maxSize _ _ Hr), <- ?(fr_backup _ _ Hr),
    ?(fr_load _ _ Hr), ?(fr_len _ _ Hr);
  try match goal with
  | Hn : (0 ≤ ?n)%Z |- _ => rewrite ?(pop_count n _ _ Hr Hn), ?fmap_take, ?(fr_items _ _ Hr)
  end.

Lemma fifo_ClosedOrCause_refines ctx :
  refines fifo_rel (Fifo.ClosedOrCause ctx) (Contract.ClosedOrCause ctx).
Proof.
  refine_start. unfold Fifo.ClosedOrCause, Contract.ClosedOrCause.
  rauto.
Qed.

(** * The operations *)

Lemma append_rel vs f q :
  fifo_rel f q →
  fifo_rel (set_buf (sl_append zero (buf f) vs) (head f) f)
    (set_items (insert_all nobefore vs false (q_items q)) q).
Proof.
  intros Hr. destruct (storage_append f vs (fr_storage _ _ Hr)) as [Hl Hst].
  eapply fifo_rel_items; [exact Hr|done..|exact Hst| |].
  - rewrite insert_all_fifo, fmap_app, fmap_item_entry, (fr_items _ _ Hr). by rewrite Hl.
  - rewrite insert_all_fifo. apply positional_admit, Hr.
Qed.

Lemma slide_rel f q : fifo_rel f q → fifo_rel (slide f) q.
Proof.
  intros Hr. destruct (storage_slide f (fr_storage _ _ Hr)) as (Hl & Hst & _).
  destruct Hr. by constructor; rewrite ?Hl.
Qed.



Lemma store_rel vs f q :
  fifo_rel f q →
  fifo_rel (store vs f) (set_items (insert_all nobefore vs false (q_items q)) q).
Proof. intros Hr. unfold store. case_match; apply append_rel; [by apply slide_rel|done]. Qed.

Hint Resolve fifo_ClosedOrCause_refines store_rel : backing_rel.

(** The loops of Push, Pop, NotEmpty and NotFull start a round with related machines. *)
Ltac rloop :=
  apply (rwp_forever fifo_rel); [rdone|done|];
  clear; intros [? ? ? ?] [? ? ? ?] [Hr Hk Hw He]; simpl in *; subst.

Lemma fifo_Push_refines ctx vs options :
  refines fifo_rel (Fifo.Push ctx vs options) (Contract.Push false nobefore ctx vs options).
Proof.
  refine_start. unfold Fifo.Push, Contract.Push. rstart.
  rstep. rhelper; [|rdone]. destruct e as [e|]; [rstep; rdone|].
  rloop. rauto.
Qed.

Lemma fifo_Peek_refines ctx options :
  refines fifo_rel (Fifo.Peek ctx options) (Contract.Peek ctx options).
Proof.
  refine_start. unfold Fifo.Peek, Contract.Peek, rlocked, reading. rstart.
  rauto. rewrite <- (fr_items _ _ Hr). destruct (q_items q) as [|[x r] l]; simpl; rauto.
Qed.

Lemma fifo_Exists_refines ctx v options :
  refines fifo_rel (Fifo.Exists_ ctx v options) (Contract.Exists_ ctx v options).
Proof.
  refine_start. unfold Fifo.Exists_, Contract.Exists_, rlocked, reading. rstart.
  rauto. rewrite <- (fr_items _ _ Hr).
  generalize (e_item <$> q_items q) as l. intros l. revert w. 
  induction l as [|x l IH]; intros w; simpl; rauto. apply IH.
Qed.

Lemma fifo_NotEmpty_refines ctx options :
  refines fifo_rel (Fifo.NotEmpty ctx options) (Contract.NotEmpty ctx options).
Proof.
  refine_start. unfold Fifo.NotEmpty, Contract.NotEmpty. rstart.
  rloop. rauto.
Qed.

Lemma fifo_NotFull_refines ctx options :
  refines fifo_rel (Fifo.NotFull ctx options) (Contract.NotFull ctx options).
Proof.
  refine_start. unfold Fifo.NotFull, Contract.NotFull. rstart.
  rloop. rauto.
Qed.

Lemma fifo_Len_refines : refines fifo_rel Fifo.Len Contract.Len.
Proof.
  refine_start. unfold Fifo.Len, Contract.Len, rlocked, reading.
  rauto. rewrite (fr_len _ _ Hr). rauto.
Qed.

Lemma fifo_Close_refines ctx options :
  refines fifo_rel (Fifo.Close ctx options) (Contract.Close ctx options).
Proof.
  refine_start. unfold Fifo.Close, Contract.Close. rstart.
  rauto. 
Qed.

Lemma fifo_all_loop_refines ctx yield l :
  refines fifo_rel (all_loop ctx yield l) (yield_all ctx yield l).
Proof.
  induction l as [|x l IH]; refine_start; simpl; rauto.
Qed.
Hint Resolve fifo_all_loop_refines : backing_rel.

Lemma fifo_All_refines ctx yield :
  refines fifo_rel (Fifo.All ctx yield) (Contract.All false ctx yield).
Proof.
  refine_start. unfold Fifo.All, Contract.All, rlocked, reading.
  rauto. rewrite (fr_items _ _ Hr). rauto.
Qed.

Lemma pop_rel k f q :
  fifo_rel f q → k ≤ length (live f) →
  let f' := set_buf (sl_clear zero (head f) (head f + k) (buf f)) (head f + k) f in
  fifo_rel (dropHydrated (Z.min (Z.of_nat k) (hydrated f')) f')
    (set_items (drop k (q_items q)) q).
Proof.
  intros Hr Hk f'. destruct (storage_pop f k (fr_storage _ _ Hr) Hk) as [Hl [Hs1 Hs2 Hs3]].
  fold f' in Hl, Hs1, Hs2, Hs3.
  assert (0 ≤ hydrated f)%Z by (destruct (fr_hydrated _ _ Hr) as (n & -> & _); lia).
  unfold dropHydrated.
  eapply fifo_rel_items; [exact Hr|case_match; done..| | |].
  - case_match; by constructor.
  - rewrite fmap_drop, (fr_items _ _ Hr). case_match; symmetry; apply Hl.
  - pose proof (positional_drop _ _ k (fr_hydrated _ _ Hr)) as Hp.
    rewrite <- drop_hydrated_eq in Hp by lia. change (hydrated f') with (hydrated f).
    by case_match.
Qed.

Lemma fifo_Pop_refines ctx n options :
  (0 ≤ n)%Z → refines fifo_rel (Fifo.Pop ctx n options) (Contract.Pop ctx n options).
Proof.
  intros Hn. refine_start. unfold Fifo.Pop, Contract.Pop. rstart.
  apply (rwp_forever fifo_rel); [rdone|done|].
  revert Hn; clear; intros Hn [? ? ? ?] [? ? ? ?] [Hr Hk Hw He]; simpl in *; subst.
  rauto. 
  all: rewrite ?(fr_items _ _ Hr).
  all: apply rwp_updb_l, rwp_updb_l, rwp_updb_r; rrelate fifo_rel; [|rauto].
  all: apply (pop_rel (Z.to_nat (n `min` zlen (q_items q)))); [done|].
  all: rewrite <- (fr_len _ _ Hr); unfold zlen; lia.
Qed.

Lemma kept_rel ms f q f' :
  fifo_rel f q → length ms = length (q_items q) →
  f' = set_buf (sl_append zero (sl_make zero 0 (length (live f))) (select false ms (live f))) 0 f →
  fifo_rel (dropHydrated (exempt (select true ms (q_items q))) f')
    (set_items (select false ms (q_items q)) q).
Proof.
  intros Hr Hms Hf.
  destruct (storage_kept f f' (select false ms (live f))) as [Hl [Hs1 Hs2 Hs3]];
    [apply select_length|by rewrite Hf..|].
  pose proof (positional_select _ ms _ Hms (fr_hydrated _ _ Hr)) as Hp.
  assert (0 ≤ hydrated f - exempt (select true ms (q_items q)))%Z
    by (destruct Hp as (n & -> & _); lia).
  assert (hydrated f' = hydrated f) as Hh by by rewrite Hf.
  unfold dropHydrated. rewrite Hh.
  eapply fifo_rel_items; [exact Hr|rewrite Hf; case_match; done..| | |].
  - case_match; by constructor.
  - rewrite select_fmap, (fr_items _ _ Hr). case_match; symmetry; apply Hl.
  - case_match; bool_to_prop; simpl; [|done].
    by replace 0%Z with (hydrated f - exempt (select true ms (q_items q)))%Z by lia.
Qed.

Lemma fifo_Del_refines ctx v options :
  refines fifo_rel (Fifo.Del ctx v options) (Contract.Del ctx v options).
Proof.
  refine_start. unfold Fifo.Del, Contract.Del, locked, writing. rstart.
  rauto.
  destruct (fr_hydrated _ _ Hr) as (n & Hn & Hle & Hpos).
  rewrite (fr_items _ _ Hr). eapply (rwp_del_loop _ _ _ _ _ _ (q_items q)); [symmetry; apply (fr_items _ _ Hr)|exact Hpos|lia| |].
  2: intros; rauto.
  intros ms w' Hms. rewrite !app_nil_l. rauto.
  all: apply rwp_updb_l, rwp_updb_l, rwp_updb_r; rrelate fifo_rel; [|rauto].
  all: by apply (kept_rel ms _ _ _ Hr).
Qed.

Lemma fifo_clear_rel f q :
  fifo_rel f q →
  let f' := set_buf (sl_clear zero (head f) (sl_len (buf f)) (buf f)) (head f) f in
  fifo_rel (set_hydrated 0 (set_buf (sl_trunc 0 (buf f')) 0 f')) (set_items [] q).
Proof.
  intros Hr f'.
  destruct (storage_clear f (set_hydrated 0 (set_buf (sl_trunc 0 (buf f')) 0 f'))
    (fr_storage _ _ Hr)) as [Hl Hst]; [done..|].
  eapply fifo_rel_items; [exact Hr|done..| | |]; [done|by rewrite Hl|].
  exists 0. done.
Qed.

Lemma fifo_Clear_refines ctx options :
  refines fifo_rel (Fifo.Clear ctx options) (Contract.Clear ctx options).
Proof.
  refine_start. unfold Fifo.Clear, Contract.Clear, locked, writing. rstart.
  rauto.
  all: apply rwp_updb_l, rwp_updb_l, rwp_updb_r; rrelate fifo_rel; [by apply fifo_clear_rel|rauto].
Qed.

Lemma hydrate_rel v f q :
  fifo_rel f q → Forall (λ x, e_restored x = true) (q_items q) →
  let f' := set_buf (sl_append zero (buf f) [v]) (head f) f in
  fifo_rel (set_hydrated (hydrated f' + 1) f')
    (set_items (insert_entry nobefore (Entry v true) (q_items q)) q).
Proof.
  intros Hr Hall f'. destruct (storage_append f [v] (fr_storage _ _ Hr)) as [Hl [Hs1 Hs2 Hs3]].
  fold f' in Hl, Hs1, Hs2, Hs3. rewrite insert_entry_fifo.
  eapply fifo_rel_items; [exact Hr|done..|by constructor| |].
  - rewrite fmap_app, (fr_items _ _ Hr). symmetry. apply Hl.
  - apply positional_restored; [apply Hr|done].
Qed.

Lemma hydrate_loop_refines ctx b steps f q k w e1 e2 :
  fifo_rel f q → Forall (λ x, e_restored x = true) (q_items q) →
  Forall2 (env_rel fifo_rel) e1 e2 →
  rwp (hydrate_loop ctx b steps) (hydrate_from false nobefore ctx b steps)
    (λ a1 a2 t1 t2, a1 = a2 ∧ mrel fifo_rel t1 t2) (mrel fifo_rel)
    (Mach f k w e1) (Mach q k w e2).
Proof.
  intros Hr Hall He. revert f q w Hr Hall.
  induction steps as [|step steps IH]; intros f q w Hr Hall; simpl; rauto.
  do 2 apply rwp_updb_l. apply rwp_updb_r. apply IH; [by apply (hydrate_rel t)|].
  simpl. rewrite insert_entry_fifo. apply Forall_app. by repeat constructor.
Qed.

(** Hydrate runs on a new backing, before anyone else can see it. *)
Lemma fifo_Hydrate_refines ctx b s1 s2 :
  mrel fifo_rel s1 s2 → menv s1 = [] → q_items (mb s2) = [] →
  rwp (Fifo.Hydrate ctx b) (Contract.Hydrate false nobefore ctx b)
    (λ a1 a2 t1 t2, a1 = a2 ∧ mrel fifo_rel t1 t2) (mrel fifo_rel) s1 s2.
Proof.
  destruct s1 as [f k w e1], s2 as [q k' w' e2]. intros [Hr Hk Hw He] He1 Hq; simpl in *; subst.
  apply Forall2_nil_inv_l in He as ->.
  unfold Fifo.Hydrate, Contract.Hydrate, locked, writing.
  apply rwp_bind. unfold rwp, Lock, acquire, interfere; simpl. destruct k'; [|done..].
  apply rwp_defer. eapply rwp_mono; [| |apply hydrate_loop_refines];
    [| |done|by rewrite Hq|done].
  - intros a1 a2 [? ? ? ?] [? ? ? ?] [-> [Hr' Hk' Hw' He']]; simpl in *; subst.
    rauto.
  - intros [? ? ? ?] [? ? ? ?] Hm; pose proof Hm as [Hr' Hk' Hw' He']; simpl in *; subst.
    rauto.
Qed.

(** A new backing. *)
Lemma New_rel m :
  fifo_rel (set_maxSize m Fifo.New) (MkQ [] m 0 NewSignal NewSignal false None).
Proof. constructor; try done. exists 0. done. Qed.
End refinement.
