(* ===== verification/FifoFacts.v ===== *)
(** The slice FIFO backing: it implements the contract, and what follows for it in its own terms. *)

From S2P Require Import Prelude Errors Machine Core Slice Contract Logic ContractFacts Interface.
From S2P Require Import SeqOrder Fifo FifoRefines.

Section facts.
Context {W T : Type} `{!Item W T} `{!World W} `{!Grow}.

Abbreviation F := (Fifo.Backing W T).
Abbreviation nobefore := (λ _ _ : T, false).
Implicit Types (f : Fifo.Backing W T).

Definition fifo_ops : Ops F W T :=
  MkOps Fifo.Push Fifo.Pop Fifo.Peek Fifo.Exists_ Fifo.Del Fifo.NotEmpty Fifo.NotFull Fifo.Len
    Fifo.Close Fifo.Clear Fifo.All.

#[export] Instance fifo_implements : Implements fifo_rel fifo_ops false false nobefore.
Proof.
  split; simpl; try (intros; apply fifo_Pop_refines; lia);
    eauto using fifo_Push_refines, fifo_Peek_refines, fifo_Exists_refines, fifo_Del_refines,
    fifo_NotEmpty_refines, fifo_NotFull_refines, fifo_Len_refines, fifo_Close_refines, fifo_Clear_refines, fifo_All_refines.
Qed.

(** The invariant of the backing: its storage, the count of restored items, the bound, and who may
    be parked. *)
Record fifo_inv f : Prop := {
  fi_storage : storage_ok f;
  fi_hydrated : (0 ≤ hydrated f ≤ zlen (live f))%Z;
  fi_maxSize : (0 ≤ maxSize f)%Z;
  fi_bound : (0 < maxSize f)%Z → (zlen (live f) - hydrated f + inflight f ≤ maxSize f)%Z;
  fi_inflight : (0 ≤ inflight f)%Z;
  fi_notFull : signal_ok (notFull f);
  fi_notEmpty : signal_ok (notEmpty f);
  fi_wake : live f ≠ [] → sg_parked (notEmpty f) = [];
  fi_closed : closed f = true → sg_parked (notFull f) = [] ∧ sg_parked (notEmpty f) = [];
}.

Lemma fifo_inv_of f q : fifo_rel f q → Inv 0 q → fifo_inv f.
Proof.
  intros Hr [Hm Hb Hi Hf He Hw Hc]. pose proof (fr_load f q Hr) as Hload.
  pose proof (fr_len f q Hr) as Hlen. destruct Hr as [? Hit (n & Hn & Hle & _) Hms Hin Hnf Hne Hcl _].
  constructor; rewrite <- ?Hms, <- ?Hin, <- ?Hnf, <- ?Hne, <- ?Hcl; try done.
  - rewrite Hlen. unfold zlen. lia.
  - rewrite <- Hin in Hload. lia.
  - intros Hl. apply Hw. intros Hnil. apply Hl. by rewrite <- Hit, Hnil.
Qed.

(** The queue a backing stands for. *)
Definition fifo_queue f : QState W T :=
  MkQ (restored_prefix (hydrated f) (live f)) (maxSize f) (inflight f) (notFull f) (notEmpty f)
    (closed f) (backup f).

Lemma fifo_queue_rel f : fifo_inv f → fifo_rel f (fifo_queue f).
Proof.
  intros [? Hh _ _ _ _ _ _ _]. destruct (restored_prefix_ok (hydrated f) (live f) Hh). by constructor.
Qed.

Lemma fifo_queue_inv f : fifo_inv f → Inv 0 (fifo_queue f).
Proof.
  intros Hf. pose proof (fr_load _ _ (fifo_queue_rel f Hf)) as Hload.
  destruct Hf. constructor; simpl; try done.
  - intros Hmax. rewrite <- Hload. auto.
  - intros Hne. apply fi_wake0. intros Hl. apply Hne. unfold restored_prefix. by rewrite Hl.
Qed.

Lemma fifo_inv_represents f : fifo_inv f ↔ represents fifo_rel f.
Proof.
  split; [|intros (q & Hr & HI); by eapply fifo_inv_of].
  intros Hf. exists (fifo_queue f). split; [by apply fifo_queue_rel|by apply fifo_queue_inv].
Qed.

Lemma queue_items f : fifo_inv f → e_item <$> q_items (fifo_queue f) = live f.
Proof. intros Hf. apply (fr_items _ _ (fifo_queue_rel f Hf)). Qed.

#[local] Opaque fifo_queue.

(** * Properties *)

(** C1: Whatever operation a goroutine runs on the slice FIFO (copy-on-write iteration apart),
    from a state that satisfies the invariant and with any operations of other goroutines between
    its lock sections, it never misuses the lock, ends with the lock released whether it returns or
    unwinds, re-establishes the invariant (storage layout, bound, hydration count, who may be
    parked), and stays parked only when nobody else acts. *)
Theorem fifo_safe (o : Op W T) (others : list (Op W T)) f w :
  fifo_inv f → op_ok o → Forall op_ok others →
  wp (exec fifo_ops o) (λ _ t, mlk t = Unlocked ∧ fifo_inv (mb t))
    (λ u t, mlk t = Unlocked ∧ fifo_inv (mb t) ∧ (u = None → menv t = []))
    (Mach f Unlocked w (others_of fifo_ops others)).
Proof.
  intros Hf Ho Hos. eapply wp_mono; [| |apply (impl_safe fifo_rel fifo_ops false false nobefore)];
    [| |by apply fifo_inv_represents|done|done]; simpl.
  - intros _ t. by rewrite fifo_inv_represents.
  - intros u t. by rewrite fifo_inv_represents.
Qed.

(** Running alone: what the contract says, in terms of the slice. *)
Lemma fifo_alone {A} (m : go F W A) (m' : go (QState W T) W A) ctx f w
    (K : A → mach (QState W T) W → Prop) (K' : A → mach F W → Prop) :
  refines fifo_rel m m' → fifo_inv f →
  (∀ s, outside (λ l, l = q_items (fifo_queue f)) True ctx 0 s →
     wp m' K (gone (λ l, l = q_items (fifo_queue f)) True ctx 0) s) →
  (∀ a f' q' w' e1 e2, fifo_rel f' q' → K a (Mach q' Unlocked w' e2) → K' a (Mach f' Unlocked w' e1)) →
  (∀ a t, K a t → mlk t = Unlocked) →
  wp m K' (λ _ t, mlk t = Unlocked ∧ fifo_inv (mb t) ∧ live (mb t) = live f)
    (Mach f Unlocked w []).
Proof.
  intros Href Hf Hwp HK Hlk.
  eapply wp_mono; [| |eapply (impl_alone _ m m' ctx (fifo_queue f));
    [exact Href|by apply fifo_queue_rel| |auto]]; simpl.
  - intros a [f' k w' e1] ([q' k' w2 e2] & [Hb Hk Hw He] & Ha). simpl in *; subst.
    pose proof (Hlk _ _ Ha) as Hk; simpl in Hk; subst. eauto.
  - intros u t (Hk & q' & Hr & HI & Hit). split_and!; [done|by eapply fifo_inv_of|].
    rewrite <- (fr_items _ _ Hr), Hit. apply (queue_items f Hf).
  - by apply fifo_queue_inv.
Qed.

(** Push of the FIFO on its own appends the whole batch behind the live items when it
    returns nil and leaves them unchanged when it returns an error, unwinds or stays parked. *)
Theorem fifo_push ctx vs options f w :
  fifo_inv f →
  wp (Fifo.Push ctx vs options)
    (λ e t, mlk t = Unlocked ∧ fifo_inv (mb t) ∧
       live (mb t) = match e with None => live f ++ vs | Some _ => live f end)
    (λ _ t, mlk t = Unlocked ∧ fifo_inv (mb t) ∧ live (mb t) = live f)
    (Mach f Unlocked w []).
Proof.
  intros Hf. eapply (fifo_alone _ _ ctx); [apply fifo_Push_refines|done|intros; by apply wp_Push| |].
  - simpl. intros e f' q' w' e1 e2 Hr He. rewrite <- (fr_items _ _ Hr).
    destruct e as [e|]; [|destruct He as [(_ & HI & _ & l & -> & Hit)|[[] _]]; [|done]].
    + destruct He as (_ & [HI Hit] & _). split_and!; [done|by eapply fifo_inv_of|].
      simpl in *. by rewrite Hit, queue_items.
    + split_and!; [done|by eapply fifo_inv_of|]. simpl in *.
      by rewrite Hit, insert_all_fifo, fmap_app, fmap_item_entry, queue_items.
  - intros [e|] t; [by intros []|]. intros [[]|[_ []]]; done.
Qed.

(** Pop of the FIFO on its own removes exactly the first min(n, length) live items and
    returns them in order, waking the parked producers; on every error and every unwind it returns
    nothing and the contents are unchanged. *)
Theorem fifo_pop ctx n options f w :
  (0 ≤ n)%Z → fifo_inv f →
  wp (Fifo.Pop ctx n options)
    (λ '(out, e) t, mlk t = Unlocked ∧ fifo_inv (mb t) ∧
       match e with
       | None =>
           let k := Z.to_nat (Z.min n (zlen (live f))) in
           live f ≠ [] ∧ out = take k (live f) ∧ live (mb t) = drop k (live f) ∧
           sg_parked (notFull (mb t)) = []
       | Some _ => out = [] ∧ live (mb t) = live f
       end)
    (λ _ t, mlk t = Unlocked ∧ fifo_inv (mb t) ∧ live (mb t) = live f)
    (Mach f Unlocked w []).
Proof.
  intros Hn Hf. eapply (fifo_alone _ _ ctx);
    [by apply fifo_Pop_refines|done|intros; by apply wp_Pop| |].
  - intros [out e] f' q' w' e1 e2 Hr He. simpl.
    rewrite <- (fr_items _ _ Hr), <- (fr_notFull _ _ Hr), <- (queue_items f Hf).
    destruct e as [e|].
    + destruct He as (-> & _ & [HI Hit] & _). split_and!; try done; [by eapply fifo_inv_of|].
      simpl in *. by rewrite Hit.
    + destruct He as [(l & Hne & -> & _ & HI & _ & -> & Hit & Hp)|[[] _]]; [|done].
      simpl in *. split_and!; try done; [by eapply fifo_inv_of|..].
      * intros Hnil. by apply fmap_nil_inv in Hnil.
      * by rewrite <- fmap_take, zlen_fmap.
      * by rewrite Hit, <- fmap_drop, zlen_fmap.
  - intros [out [e|]] t; [by intros (_ & ? & _)|].
    intros [(l & _ & _ & ? & _)|[_ [_ ?]]]; [done|]. by destruct H0.
Qed.

(** Del of the FIFO removes exactly the items equal to one of the given ones, keeps the
    others in order, and returns how many it removed; on an error or an unwind nothing is removed.
    *)
Theorem fifo_del `{!PureItem W T} ctx v options f w :
  fifo_inv f →
  wp (Fifo.Del ctx v options)
    (λ '(n, e) t, mlk t = Unlocked ∧ fifo_inv (mb t) ∧
       match e with
       | None =>
           live (mb t) = filter (λ x, matched v x = false) (live f) ∧
           n = (zlen (live f) - zlen (live (mb t)))%Z ∧
           (n ≠ 0%Z → sg_parked (notFull (mb t)) = [])
       | Some _ => n = 0%Z ∧ live (mb t) = live f
       end)
    (λ _ t, mlk t = Unlocked ∧ fifo_inv (mb t) ∧ live (mb t) = live f)
    (Mach f Unlocked w []).
Proof.
  intros Hf. eapply (fifo_alone _ _ ctx);
    [by apply fifo_Del_refines|done|intros; by apply wp_Del| |].
  - intros [n e] f' q' w' e1 e2 Hr He. simpl.
    rewrite <- (fr_items _ _ Hr), <- (fr_notFull _ _ Hr), <- (queue_items f Hf).
    destruct e as [e|].
    + destruct He as (-> & _ & [HI Hit] & _). split_and!; try done; [by eapply fifo_inv_of|].
      simpl in *. by rewrite Hit.
    + destruct He as (l & ms & Hms & -> & Hend).
      pose proof (answered_length _ _ _ Hms) as Hlen. apply answered_pure in Hms as ->.
      assert (l = q_items (fifo_queue f)) as -> by (by destruct Hend as [(_ & _ & ? & _)|(_ & _ & _ & ? & _)]).
      rewrite <- zlen_fmap with (f := e_item), select_fmap, <- select_matched, select_matched_count.
      destruct Hend as [((_ & [HI _] & _) & Hn & _ & Hit)|(_ & HI & _ & _ & Hit & Hp)]; simpl in *.
      * rewrite <- zlen_fmap with (f := e_item), select_fmap in Hn.
        rewrite Hit, select_none by done. rewrite <- select_matched, select_none by done.
        split_and!; try done; [by eapply fifo_inv_of|intros; lia].
      * rewrite Hit, select_fmap, <- select_matched. split_and!; try done; by eapply fifo_inv_of.
  - intros [n [e|]] t; [by intros (_ & ? & _)|].
    intros (l & ms & _ & _ & [[[] _]|[]]); done.
Qed.

(** C26: For items whose methods return and leave the world alone, batches pushed onto an open
    FIFO with room and no backup come out in exactly the order they went in, behind what was there:
    Pop returns the first n of the old contents followed by the batches. *)
Theorem fifo_order `{!PureItem W T} ctx bs n f w :
  fifo_inv f → closed f = false → backup f = None → (0 ≤ n)%Z →
  Forall (λ v, prio v = 0%Z) (concat bs) →
  maxSize f = 0%Z ∨ (zlen (live f) - hydrated f + inflight f + zlen (concat bs) ≤ maxSize f)%Z →
  live f ++ concat bs ≠ [] →
  ∃ t, (push_all fifo_ops ctx bs;; Fifo.Pop ctx n []) (Mach f Unlocked w []) =
       (Done (take (Z.to_nat (Z.min n (zlen (live f ++ concat bs)))) (live f ++ concat bs), None), t).
Proof.
  intros Hf Hcl Hb Hn Hok Hfit Hne.
  pose proof (fifo_queue_rel f Hf) as Hr. pose proof (queue_items f Hf) as Hit.
  destruct (impl_push_pop fifo_rel fifo_ops false false nobefore ctx bs n f (fifo_queue f) w)
    as [t Ht]; try done; [by apply fifo_Pop_refines|..].
  - split; [by rewrite (fr_closed _ _ Hr)|]. split; [by rewrite (fr_backup _ _ Hr)|].
    rewrite (fr_maxSize _ _ Hr), (fr_inflight _ _ Hr). split; apply Hf.
  - eapply Forall_impl; [exact Hok|]. intros v Hv. unfold kind_ok. by rewrite Hv.
  - unfold fits. by rewrite <- (fr_load _ _ Hr), (fr_maxSize _ _ Hr).
  - rewrite insert_all_fifo. intros Hnil. apply Hne. rewrite <- Hit.
    apply (f_equal (fmap e_item)) in Hnil. by rewrite fmap_app, fmap_item_entry in Hnil.
  - exists t. etransitivity; [exact Ht|].
    by rewrite fmap_take, insert_all_fifo, fmap_app, fmap_item_entry, Hit, <- zlen_fmap with (f := e_item),
      fmap_app, fmap_item_entry, Hit.
Qed.

Lemma append_in_place vs f :
  storage_ok f → sl_len (buf f) + length vs ≤ sl_cap (buf f) →
  sl_cap (sl_append zero (buf f) vs) = sl_cap (buf f).
Proof.
  intros [? ? ?] Hle. unfold sl_append. rewrite (proj2 (Nat.leb_le _ _)) by done.
  unfold sl_cap in *. simpl. autorewrite with golen. lia.
Qed.

(** Storing a batch keeps the layout of the slice (zero values before the head and past the
    length, so nothing popped stays reachable), appends the batch, and reuses the array by sliding
    whenever its capacity is enough for the live items and the batch. *)
Theorem fifo_storage vs f :
  storage_ok f →
  storage_ok (store vs f) ∧ live (store vs f) = live f ++ vs ∧
  (length (live f) + length vs ≤ sl_cap (buf f) → sl_cap (buf (store vs f)) = sl_cap (buf f)).
Proof.
  intros Hst. unfold store. pose proof (storage_length f Hst) as Hlen.
  destruct ((0 <? head f) && _) eqn:Hslide.
  - destruct (storage_slide f Hst) as (Hl & Hst' & Hcap & Hsl).
    destruct (storage_append (slide f) vs Hst') as [Hl' Hst'']. rewrite Hl in Hl'.
    split_and!; [done|done|]. intros Hle. rewrite <- Hcap. apply append_in_place; [done|].
    by rewrite Hcap, Hsl.
  - destruct (storage_append f vs Hst) as [Hl' Hst'].
    split_and!; [done|done|]. intros Hle. apply append_in_place; [done|].
    destruct Hst as [? ? ?]. bool_to_prop. destruct Hslide; bool_to_prop; lia.
Qed.

(** * AllCOW *)

(** The loop over a slice of items acts on the world only, whoever holds the lock. *)
Lemma all_loop_lock ctx yield l (f : F) w e :
  ∃ o w', (∀ k, all_loop ctx yield l (Mach f k w e) = (o, Mach f k w' e)) ∧
          (o = Done () ∨ ∃ u, o = Unwound u).
Proof.
  revert w. induction l as [|x l IH]; intros w; [eexists _, _; split; [done|by left]|]. simpl.
  unfold ctx_done, mbind, go_bind, updw, getw, mret, go_ret, call. simpl.
  destruct (ctx_cause ctx (tick w)); simpl.
  - destruct (yield zero _ (tick w)) as [[?|?] w']; eexists _, _; split; eauto.
  - destruct (yield x None (tick w)) as [[[]|?] w']; [apply IH|eexists _, _; split; eauto..].
Qed.

(** Time that nobody can observe. *)
Hypothesis tick_idle : ∀ w : W, tick w = w.

(** What the consumer does with the cause of a context that is done. *)
Definition yield_cause (yield : T → option err → code W bool) (c : err) (k : lockmode) (f : F)
    (w : W) (e : list (F → W → F * W)) : outcome unit * mach F W :=
  match yield zero (Some c) w with
  | (Ok _, w') => (Done (), Mach f k w' e)
  | (Unw u, w') => (Unwound u, Mach f k w' e)
  end.

Lemma all_loop_cons ctx yield x l (f : F) k w e :
  all_loop ctx yield (x :: l) (Mach f k w e) =
  match ctx_cause ctx w with
  | Some c => yield_cause yield c k f w e
  | None =>
      match yield x None w with
      | (Ok true, w') => all_loop ctx yield l (Mach f k w' e)
      | (Ok false, w') => (Done (), Mach f k w' e)
      | (Unw u, w') => (Unwound u, Mach f k w' e)
      end
  end.
Proof.
  simpl. unfold yield_cause, ctx_done, mbind, go_bind, updw, getw, mret, go_ret, call. simpl.
  rewrite tick_idle. destruct (ctx_cause ctx w); simpl; [by destruct (yield zero _ w) as [[]?]|].
  by destruct (yield x None w) as [[[]|]?].
Qed.

Lemma cow_loop_cons ctx yield x l (f : F) w e :
  cow_loop ctx yield (x :: l) (Mach f RLocked w e) =
  if write_wanted w then all_loop ctx yield (x :: l) (Mach f Unlocked w e)
  else match ctx_cause ctx w with
  | Some c => yield_cause yield c Unlocked f w e
  | None =>
      match yield x None w with
      | (Ok true, w') => cow_loop ctx yield l (Mach f RLocked w' e)
      | (Ok false, w') => (Done (), Mach f Unlocked w' e)
      | (Unw u, w') => (Unwound u, Mach f RLocked w' e)
      end
  end.
Proof.
  simpl. unfold yield_cause, WriteWanted, ctx_done, mbind, go_bind, updw, getw, mret, go_ret, call.
  simpl. rewrite !tick_idle. destruct (write_wanted w); simpl; [by rewrite tick_idle|].
  rewrite tick_idle. destruct (ctx_cause ctx w); simpl; [by destruct (yield zero _ w) as [[]?]|].
  by destruct (yield x None w) as [[[]|]?].
Qed.

(** The copy-on-write loop does the same, and gives the lock back or leaves it to the defer. *)
Lemma cow_loop_all ctx yield l (f : F) w e :
  ∃ o w' k, cow_loop ctx yield l (Mach f RLocked w e) = (o, Mach f k w' e) ∧
    (k = RLocked ∨ k = Unlocked) ∧
    all_loop ctx yield l (Mach f RLocked w e) = (o, Mach f RLocked w' e) ∧
    (o = Done () ∨ ∃ u, o = Unwound u).
Proof.
  revert w. induction l as [|x l IH]; intros w; [exists (Done ()), w, Unlocked; split_and!; auto|].
  rewrite cow_loop_cons. destruct (write_wanted w).
  - destruct (all_loop_lock ctx yield (x :: l) f w e) as (o & w' & Ho & Hdone).
    exists o, w', Unlocked. rewrite !Ho. split_and!; auto.
  - rewrite all_loop_cons. unfold yield_cause. destruct (ctx_cause ctx w) as [c|].
    + destruct (yield zero (Some c) w) as [[?|?] w']; eexists _, _, _; split_and!; eauto.
    + destruct (yield x None w) as [[[]|?] w']; [apply IH|eexists _, _, _; split_and!; eauto..].
Qed.

(** With time standing still the copy-on-write iteration of the FIFO does exactly what the
    locked iteration does, from any state and under any interference, wherever a waiting writer
    makes it switch to its copy. *)
Theorem fifo_AllCOW ctx yield (s : mach F W) :
  mlk s = Unlocked → Fifo.AllCOW ctx yield s = Fifo.All ctx yield s.
Proof.
  destruct s as [f k w e]. simpl. intros ->. unfold Fifo.AllCOW, Fifo.All, rlocked.
  assert (∃ f' w' e', RLock (Mach f Unlocked w e) = (Done (), Mach f' RLocked w' e'))
    as (f' & w' & e' & Hlock) by (by eexists _, _, _).
  unfold mbind, go_bind. rewrite !Hlock.
  unfold defer. simpl. destruct (closed f').
  - unfold release_held, RUnlock, call, mret, go_ret. simpl.
    by destruct (yield zero _ w') as [[] ?].
  - destruct (cow_loop_all ctx yield (live f') f' w' e') as (o & w2 & k2 & -> & Hk & -> & Ho).
    destruct Hk as [-> | ->], Ho as [->|[u ->]]; done.
Qed.
End facts.
