(* ===== verification/Heap.v ===== *)
(** Package heap: the in-memory priority backing over container/heap (heap/heap.go), with the swap
    journal that rolls an abandoned Push or Pop back. *)

From S2P Require Import Prelude Errors Machine Core Slice.

(** [minHeap]. [swaps] journals the exchanges made while [journal] is set, oldest first. *)
Record minHeap (T : Type) := MkMinHeap {
  items : slice (SeqItem T);
  swaps : list (nat * nat);
  journal : bool;
}.
Arguments MkMinHeap {T} _ _ _.
Arguments items {T} _.
Arguments swaps {T} _.
Arguments journal {T} _.

Record Backing (W T : Type) := MkBacking {
  h : minHeap T;
  nextSeq : Z;
  maxSize : Z;
  hydrateEnd : Z;
  hydrated : Z;
  inflight : Z;
  notFull : Signal;
  notEmpty : Signal;
  closed : bool;
  backup : option (Backup W T);
}.
Arguments MkBacking {W T} _ _ _ _ _ _ _ _ _ _.
Arguments h {W T} _.
Arguments nextSeq {W T} _.
Arguments maxSize {W T} _.
Arguments hydrateEnd {W T} _.
Arguments hydrated {W T} _.
Arguments inflight {W T} _.
Arguments notFull {W T} _.
Arguments notEmpty {W T} _.
Arguments closed {W T} _.
Arguments backup {W T} _.

Section heap.
Context {W T : Type} `{!Item W T} `{!World W} `{!Grow}.
Abbreviation P := (Backing W T).
Abbreviation M := (go (Backing W T) W).

Definition zeroSeq : SeqItem T := MkSeqItem 0 zero.

Definition New : P :=
  MkBacking (MkMinHeap (MkSlice [] 0) [] false) 0 0 0 0 0 NewSignal NewSignal false None.

Definition set_h (m : minHeap T) (p : P) : P :=
  MkBacking m (nextSeq p) (maxSize p) (hydrateEnd p) (hydrated p) (inflight p) (notFull p)
    (notEmpty p) (closed p) (backup p).
Definition set_nextSeq (n : Z) (p : P) : P :=
  MkBacking (h p) n (maxSize p) (hydrateEnd p) (hydrated p) (inflight p) (notFull p)
    (notEmpty p) (closed p) (backup p).
Definition set_maxSize (n : Z) (p : P) : P :=
  MkBacking (h p) (nextSeq p) n (hydrateEnd p) (hydrated p) (inflight p) (notFull p)
    (notEmpty p) (closed p) (backup p).
Definition set_hydrateEnd (n : Z) (p : P) : P :=
  MkBacking (h p) (nextSeq p) (maxSize p) n (hydrated p) (inflight p) (notFull p)
    (notEmpty p) (closed p) (backup p).
Definition set_hydrated (n : Z) (p : P) : P :=
  MkBacking (h p) (nextSeq p) (maxSize p) (hydrateEnd p) n (inflight p) (notFull p)
    (notEmpty p) (closed p) (backup p).
Definition set_closed (c : bool) (p : P) : P :=
  MkBacking (h p) (nextSeq p) (maxSize p) (hydrateEnd p) (hydrated p) (inflight p) (notFull p)
    (notEmpty p) c (backup p).
Definition set_backup (b : option (Backup W T)) (p : P) : P :=
  MkBacking (h p) (nextSeq p) (maxSize p) (hydrateEnd p) (hydrated p) (inflight p) (notFull p)
    (notEmpty p) (closed p) b.

Definition inflight_l : lens P Z := Lens inflight (λ i p,
  MkBacking (h p) (nextSeq p) (maxSize p) (hydrateEnd p) (hydrated p) i (notFull p)
    (notEmpty p) (closed p) (backup p)).
Definition notFull_l : lens P Signal := Lens notFull (λ g p,
  MkBacking (h p) (nextSeq p) (maxSize p) (hydrateEnd p) (hydrated p) (inflight p) g
    (notEmpty p) (closed p) (backup p)).
Definition notEmpty_l : lens P Signal := Lens notEmpty (λ g p,
  MkBacking (h p) (nextSeq p) (maxSize p) (hydrateEnd p) (hydrated p) (inflight p) (notFull p)
    g (closed p) (backup p)).

Definition SetMaxBatch (n : Z) (p : P) : P * option err :=
  if (n <? 1)%Z then (p, Some (Errorf "max batch must be at least 1, got %d" [Sentinel ErrBadOption]))
  else (p, None).

Definition SetMaxSize (n : Z) (p : P) : P * option err :=
  if (n <? 0)%Z then (p, Some (Errorf "max size must be at least 0, got %d" [Sentinel ErrBadOption]))
  else (set_maxSize n p, None).

(** * The methods of minHeap that container/heap calls *)

Definition contents (p : P) : list (SeqItem T) := sl_contents (items (h p)).
Definition Hlen (p : P) : nat := sl_len (items (h p)).

Definition with_items (s : slice (SeqItem T)) (m : minHeap T) : minHeap T :=
  MkMinHeap s (swaps m) (journal m).

Definition HLess (i j : nat) : M bool :=
  p ← getb;
  match contents p !! i, contents p !! j with
  | Some a, Some b => call (PrioritySeqLess a b)
  | _, _ => gopanic
  end.

Definition mh_swap (i j : nat) (m : minHeap T) : minHeap T :=
  MkMinHeap (sl_swap i j (items m))
    (if journal m then swaps m ++ [(i, j)] else swaps m) (journal m).

Definition HSwap (i j : nat) : M unit := updb (λ p, set_h (mh_swap i j (h p)) p).

Definition HPush (x : SeqItem T) : M unit :=
  updb (λ p, set_h (with_items (sl_append zeroSeq (items (h p)) [x]) (h p)) p).

Definition HPop : M (SeqItem T) :=
  p ← getb;
  let n := Hlen p in
  match contents p !! (n - 1) with
  | Some x =>
      updb (λ p, set_h (with_items (sl_trunc (n - 1) (sl_set (n - 1) zeroSeq (items (h p)))) (h p)) p);;
      mret x
  | None => gopanic
  end.

Definition journalOn (m : minHeap T) : minHeap T := MkMinHeap (items m) [] true.
Definition journalOff (m : minHeap T) : minHeap T := MkMinHeap (items m) [] false.

(** The exchanges undone, newest first. *)
Definition undo {A} (sw : list (nat * nat)) (l : list A) : list A :=
  foldr (λ ij l, swap ij.1 ij.2 l) l sw.

Definition rollback (origLen : nat) (popped : list (SeqItem T)) (m : minHeap T) : minHeap T :=
  let work := Nat.max (sl_len (items m)) origLen in
  let s := sl_trunc work (items m) in
  let s := foldl (λ s ix, sl_set (origLen - 1 - ix.1) ix.2 s) s (imap pair popped) in
  let s := MkSlice (undo (swaps m) (sl_arr s)) (sl_len s) in
  let s := sl_clear zeroSeq origLen work s in
  journalOff (with_items (sl_trunc origLen s) m).

(** * container/heap over minHeap *)

(** [up(h, j)]: each trip halves [j], so [S j] trips are enough. *)
Fixpoint up (fuel j : nat) : M unit :=
  match fuel with
  | O => mret ()
  | S fuel =>
      let i := (j - 1) / 2 in
      if i =? j then mret () else
      less ← HLess j i;
      if negb less then mret () else
      HSwap i j;;
      up fuel i
  end.

(** [down(h, i, n)]: each trip at least doubles [i], so [n] trips are enough. *)
Fixpoint down (fuel i n : nat) : M unit :=
  match fuel with
  | O => mret ()
  | S fuel =>
      let j1 := 2 * i + 1 in
      if n <=? j1 then mret () else
      let j2 := j1 + 1 in
      right_less ← (if j2 <? n then HLess j2 j1 else mret false);
      let j := if right_less : bool then j2 else j1 in
      less ← HLess j i;
      if negb less then mret () else
      HSwap i j;;
      down fuel j n
  end.

Fixpoint init_loop (k n : nat) : M unit :=
  match k with
  | O => mret ()
  | S i => down n i n;; init_loop i n
  end.

Definition heap_Init : M unit :=
  p ← getb;
  init_loop (Hlen p / 2) (Hlen p).

Definition heap_Push (x : SeqItem T) : M unit :=
  HPush x;;
  p ← getb;
  up (Hlen p) (Hlen p - 1).

Definition heap_Pop : M (SeqItem T) :=
  p ← getb;
  let n := Hlen p - 1 in
  HSwap 0 n;;
  down n 0 n;;
  HPop.

(** * The operations *)

Definition ClosedOrCause (ctx : Ctx W) : M (option err) :=
  RLock;;
  p ← getb;
  RUnlock;;
  if closed p then mret (Some (Sentinel ErrClosed))
  else w ← getw; mret (ctx_cause ctx w).

Fixpoint push_loop (vs : list T) : M unit :=
  match vs with
  | [] => mret ()
  | v :: vs =>
      p ← getb;
      heap_Push (MkSeqItem (nextSeq p) v);;
      updb (λ p, set_nextSeq (nextSeq p + 1)%Z p);;
      push_loop vs
  end.

Definition Push (ctx : Ctx W) (vs : list T) (options : list (OpOption W)) : M (option err) :=
  '(opts, oe) ← ResolveOpOptions CallPush options;
  match oe with
  | Some e => mret (Some e)
  | None =>
  iferr e := ValidateKind true vs then mret (Some e) else
  forever (
    Lock;;
    p ← getb;
    if closed p then Unlock;; return_ (Some (Sentinel ErrClosed))
    else if ((0 <? maxSize p) && (maxSize p <? zlen vs))%Z
    then Unlock;; return_ (Some (Sentinel ErrBatchTooLarge))
    else if ((maxSize p =? 0) ||
             (Z.of_nat (Hlen p) - hydrated p + inflight p + zlen vs <=? maxSize p))%Z then
      iferr e :=
        match OnAdmit opts with
        | None => mret None
        | Some hook =>
            iferr e := RunOnAdmit inflight_l (zlen vs) notFull_l hook
            then mret (Some e)
            else
              p ← getb;
              if closed p
              then ReleaseReservation opts notFull_l;; mret (Some (Sentinel ErrClosed))
              else mret None
        end
      then Unlock;; return_ (Some e) else
      let give_back := ReleaseReservation opts notFull_l;; Unlock in
      iferr e := RunSideEffectLocked (SideEffect opts) give_back
      then give_back;; return_ (Some e) else
      p ← getb;
      iferr e :=
        match backup p with
        | None => mret None
        | Some b => RunBackup (bk_Push b ctx vs) give_back
        end
      then give_back;; return_ (Some e) else
      p ← getb;
      let wasEmpty := Hlen p =? 0 in
      let startLen := Hlen p in
      let startSeq := nextSeq p in
      updb (λ p, set_h (journalOn (h p)) p);;
      RunLockedNoErr (push_loop vs)
        (updb (λ p, set_nextSeq startSeq (set_h (rollback startLen [] (h p)) p));;
         ReleaseReservation opts notFull_l;;
         Unlock);;
      updb (λ p, set_h (journalOff (h p)) p);;
      (if wasEmpty then SignalIfWaiters notEmpty_l else mret ());;
      Unlock;;
      return_ None
    else
      iferr e := Wait notFull_l ctx Unlock
      then r ← ClosedOrCause ctx; return_ r
      else continue_)
  end.

Definition dropHydrated (seqs : list Z) (p : P) : P :=
  foldl (λ p seq,
    if ((seq <? hydrateEnd p) && (0 <? hydrated p))%Z
    then set_hydrated (hydrated p - 1)%Z p else p) p seqs.

(** The undo shared by the two ways Pop can abandon. *)
Definition restore (startLen : nat) (popped : list (SeqItem T)) : M unit :=
  updb (λ p, set_h (rollback startLen popped (h p)) p);;
  Unlock.

(** The pops, each guarded by the restore of what has been popped when it runs: the closure of the
    source reads the shared [popped] at that moment. *)
Fixpoint pop_loop (startLen k : nat) (popped : list (SeqItem T)) : M (list (SeqItem T)) :=
  match k with
  | O => mret popped
  | S k =>
      x ← RunLocked heap_Pop (restore startLen popped);
      pop_loop startLen k (popped ++ [x])
  end.

Definition Pop (ctx : Ctx W) (n : Z) (options : list (OpOption W)) : M (list T * option err) :=
  '(opts, oe) ← ResolveOpOptions CallPop options;
  match oe with
  | Some e => mret ([], Some e)
  | None =>
  forever (
    Lock;;
    p ← getb;
    if closed p then Unlock;; return_ ([], Some (Sentinel ErrClosed))
    else if 0 <? Hlen p then
      let k := if (Z.of_nat (Hlen p) <? n)%Z then Hlen p else Z.to_nat n in
      iferr e := RunSideEffectLocked (SideEffect opts) Unlock
      then Unlock;; return_ ([], Some e) else
      p ← getb;
      let startLen := Hlen p in
      updb (λ p, set_h (journalOn (h p)) p);;
      popped ← pop_loop startLen k [];
      let out := Item_ <$> popped in
      p ← getb;
      iferr e :=
        match backup p with
        | None => mret None
        | Some b => RunBackup (bk_Del b ctx out) (restore startLen popped)
        end
      then restore startLen popped;; return_ ([], Some e) else
      updb (λ p, set_h (journalOff (h p)) p);;
      updb (dropHydrated (Seq <$> popped));;
      SignalIfWaiters notFull_l;;
      Unlock;;
      return_ (out, None)
    else
      iferr e := Wait notEmpty_l ctx Unlock
      then r ← ClosedOrCause ctx; return_ ([], r)
      else continue_)
  end.

Definition rlocked {A} (body : M A) : M A := RLock;; defer RUnlock body.
Definition locked {A} (body : M A) : M A := Lock;; defer Unlock body.

Definition Peek (ctx : Ctx W) (options : list (OpOption W)) : M (T * bool * option err) :=
  '(opts, oe) ← ResolveOpOptions CallPeek options;
  match oe with
  | Some e => mret (zero, false, Some e)
  | None =>
  rlocked (
    p ← getb;
    if closed p then mret (zero, false, Some (Sentinel ErrClosed))
    else match contents p with
    | [] => e ← RunSideEffect (SideEffect opts); mret (zero, false, e)
    | x :: _ => e ← RunSideEffect (SideEffect opts); mret (Item_ x, true, e)
    end)
  end.

Fixpoint exists_loop (v : T) (se : option (code W (option err))) (l : list (SeqItem T))
    : M (bool * option err) :=
  match l with
  | [] => e ← RunSideEffect se; mret (false, e)
  | it :: l =>
      m ← call (Equal (Item_ it) v);
      if m : bool then e ← RunSideEffect se; mret (true, e)
      else exists_loop v se l
  end.

Definition Exists_ (ctx : Ctx W) (v : T) (options : list (OpOption W)) : M (bool * option err) :=
  '(opts, oe) ← ResolveOpOptions CallExists options;
  match oe with
  | Some e => mret (false, Some e)
  | None =>
  rlocked (
    p ← getb;
    if closed p then mret (false, Some (Sentinel ErrClosed))
    else exists_loop v (SideEffect opts) (contents p))
  end.

(** The loop of Del over the array: the kept entries, and the removed ones with their items and
    sequence numbers. *)
Fixpoint del_loop (v : list T) (kept removed : list (SeqItem T)) (l : list (SeqItem T))
    : M (list (SeqItem T) * list (SeqItem T)) :=
  match l with
  | [] => mret (kept, removed)
  | it :: l =>
      m ← MatchesAny (Item_ it) v;
      if m : bool then del_loop v kept (removed ++ [it]) l
      else del_loop v (kept ++ [it]) removed l
  end.

Definition Del (ctx : Ctx W) (v : list T) (options : list (OpOption W)) : M (Z * option err) :=
  '(opts, oe) ← ResolveOpOptions CallDel options;
  match oe with
  | Some e => mret (0%Z, Some e)
  | None =>
  locked (
    p ← getb;
    if closed p then mret (0%Z, Some (Sentinel ErrClosed))
    else
      '(kept, removed) ← del_loop v [] [] (contents p);
      if (zlen removed =? 0)%Z then e ← RunSideEffect (SideEffect opts); mret (0%Z, e)
      else
      iferr e := RunSideEffect (SideEffect opts) then mret (0%Z, Some e) else
      p ← getb;
      iferr e :=
        match backup p with
        | None => mret None
        | Some b => e ← call (bk_Del b ctx (Item_ <$> removed)); mret (WrapBackup e)
        end
      then mret (0%Z, Some e) else
      updb (λ p, set_h (with_items
        (sl_append zeroSeq (sl_make zeroSeq 0 (Hlen p)) kept) (h p)) p);;
      heap_Init;;
      updb (dropHydrated (Seq <$> removed));;
      SignalIfWaiters notFull_l;;
      mret (zlen removed, None))
  end.

Definition NotEmpty (ctx : Ctx W) (options : list (OpOption W)) : M (option err) :=
  '(opts, oe) ← ResolveOpOptions CallNotEmpty options;
  match oe with
  | Some e => mret (Some e)
  | None =>
  forever (
    RLock;;
    p ← getb;
    if closed p then RUnlock;; return_ (Some (Sentinel ErrClosed))
    else if 0 <? Hlen p then
      e ← RunSideEffectLocked (SideEffect opts) RUnlock;
      RUnlock;;
      return_ e
    else
      iferr e := Wait notEmpty_l ctx RUnlock
      then r ← ClosedOrCause ctx; return_ r
      else continue_)
  end.

Definition NotFull (ctx : Ctx W) (options : list (OpOption W)) : M (option err) :=
  '(opts, oe) ← ResolveOpOptions CallNotFull options;
  match oe with
  | Some e => mret (Some e)
  | None =>
  forever (
    RLock;;
    p ← getb;
    if closed p then RUnlock;; return_ (Some (Sentinel ErrClosed))
    else if ((maxSize p =? 0) ||
             (Z.of_nat (Hlen p) - hydrated p + inflight p <? maxSize p))%Z then
      e ← RunSideEffectLocked (SideEffect opts) RUnlock;
      RUnlock;;
      return_ e
    else
      iferr e := Wait notFull_l ctx RUnlock
      then r ← ClosedOrCause ctx; return_ r
      else continue_)
  end.

Definition Len : M Z := rlocked (p ← getb; mret (Z.of_nat (Hlen p))).

Definition Close (ctx : Ctx W) (options : list (OpOption W)) : M (option err) :=
  '(opts, oe) ← ResolveOpOptions CallClose options;
  match oe with
  | Some e => mret (Some e)
  | None =>
  Lock;;
  p ← getb;
  if closed p then
    e ← RunSideEffectLocked (SideEffect opts) Unlock;
    Unlock;;
    mret e
  else
    iferr e := RunSideEffectLocked (SideEffect opts) Unlock then Unlock;; mret (Some e) else
    p ← getb;
    let closeAndWake :=
      updb (set_closed true);;
      Unlock;;
      DoSignal notEmpty_l;;
      DoSignal notFull_l in
    e ← match backup p with
        | None => mret None
        | Some b => RunBackup (bk_Close b ctx) closeAndWake
        end;
    updb (set_closed true);;
    Unlock;;
    DoSignal notEmpty_l;;
    DoSignal notFull_l;;
    mret e
  end.

Definition Clear (ctx : Ctx W) (options : list (OpOption W)) : M (option err) :=
  '(opts, oe) ← ResolveOpOptions CallClear options;
  match oe with
  | Some e => mret (Some e)
  | None =>
  locked (
    p ← getb;
    if closed p then mret (Some (Sentinel ErrClosed))
    else if Hlen p =? 0 then RunSideEffect (SideEffect opts)
    else
      iferr e := RunSideEffect (SideEffect opts) then mret (Some e) else
      p ← getb;
      iferr e :=
        match backup p with
        | None => mret None
        | Some b => e ← call (bk_Clear b ctx); mret (WrapBackup e)
        end
      then mret (Some e) else
      updb (λ p, set_h (with_items
        (sl_trunc 0 (sl_clear zeroSeq 0 (Hlen p) (items (h p)))) (h p)) p);;
      updb (set_hydrated 0);;
      SignalIfWaiters notFull_l;;
      mret None)
  end.

(** * Iteration *)

(** [sort.SliceStable] on the heap's own array, as the insertion sort it runs on a block: entry [j]
    moves left while it is less than its neighbour. The exchanges go round the journal. *)
Fixpoint sift (j : nat) : M unit :=
  match j with
  | O => mret ()
  | S i =>
      less ← HLess j i;
      if negb less then mret () else
      updb (λ p, set_h (with_items (sl_swap j i (items (h p))) (h p)) p);;
      sift i
  end.

Fixpoint sort_from (k i : nat) : M unit :=
  match k with
  | O => mret ()
  | S k => sift i;; sort_from k (S i)
  end.

Definition SliceStable : M unit := p ← getb; sort_from (Hlen p - 1) 1.

Fixpoint all_loop (ctx : Ctx W) (yield : T → option err → code W bool) (l : list (SeqItem T))
    : M unit :=
  match l with
  | [] => mret ()
  | x :: l =>
      d ← ctx_done ctx;
      match d with
      | Some cause => call (yield zero (Some cause));; mret ()
      | None =>
          more ← call (yield (Item_ x) None);
          if more : bool then all_loop ctx yield l else mret ()
      end
  end.

Definition All (ctx : Ctx W) (yield : T → option err → code W bool) : M unit :=
  locked (
    p ← getb;
    if closed p then call (yield zero (Some (Sentinel ErrClosed)));; mret ()
    else
      SliceStable;;
      p ← getb;
      all_loop ctx yield (contents p)).

(** The same sort on a copy: [place] moves [x] left past the entries of the sorted prefix, which is
    held newest first. *)
Fixpoint place (x : SeqItem T) (prefix : list (SeqItem T)) : M (list (SeqItem T)) :=
  match prefix with
  | [] => mret [x]
  | y :: prefix' =>
      less ← call (PrioritySeqLess x y);
      if less : bool then r ← place x prefix'; mret (y :: r) else mret (x :: prefix)
  end.

Fixpoint sort_copy (prefix l : list (SeqItem T)) : M (list (SeqItem T)) :=
  match l with
  | [] => mret (reverse prefix)
  | x :: l => prefix ← place x prefix; sort_copy prefix l
  end.

Definition sortedSnapshot : M (option (list (SeqItem T))) :=
  p ← getb;
  if closed p then mret None
  else l ← sort_copy [] (contents p); mret (Some l).

Definition release_held : M unit := λ s,
  match mlk s with
  | RLocked => RUnlock s
  | _ => (Done tt, s)
  end.

Definition AllCOW (ctx : Ctx W) (yield : T → option err → code W bool) : M unit :=
  RLock;;
  defer release_held (
    snap ← sortedSnapshot;
    release_held;;
    match snap with
    | None => call (yield zero (Some (Sentinel ErrClosed)));; mret ()
    | Some items => all_loop ctx yield items
    end).

(** * Hydrate *)

Fixpoint hydrate_loop (ctx : Ctx W) (b : Backup W T)
    (steps : list (code W (option (T * option err)))) : M (option err) :=
  match steps with
  | [] => mret None
  | step :: steps =>
      o ← call step;
      match o with
      | None => mret None
      | Some (v, Some e) => mret (WrapBackup (Some e))
      | Some (v, None) =>
          iferr e := ValidateKindOne true v then mret (Some e) else
          iferr e := call (bk_OnLoad b ctx v) then mret (WrapBackup (Some e)) else
          p ← getb;
          HPush (MkSeqItem (nextSeq p) v);;
          updb (λ p, set_nextSeq (nextSeq p + 1)%Z p);;
          updb (λ p, set_hydrated (hydrated p + 1)%Z p);;
          hydrate_loop ctx b steps
      end
  end.

Definition Hydrate (ctx : Ctx W) (b : Backup W T) : M (option err) :=
  locked (
    defer (updb (λ p, set_hydrateEnd (nextSeq p) p)) (
      iferr e := hydrate_loop ctx b (bk_RangeAll b ctx) then mret (Some e) else
      heap_Init;;
      updb (set_backup (Some b));;
      mret None)).
End heap.
