(* ===== verification/HeapJournal.v ===== *)
(** The swap journal of the priority heap: whatever the caller's [Less] answers, and wherever it
    unwinds, [rollback] puts the array back exactly as it was. Nothing is assumed of the items. *)

From S2P Require Import Prelude Errors Machine Core Slice BinHeap Contract Logic Heap.

(** * Undoing exchanges *)

Section undo.
Context {A : Type}.
Implicit Types (l : list A) (sw : list (nat * nat)).

Definition in_range (n : nat) sw : Prop := Forall (λ ij, ij.1 < n ∧ ij.2 < n) sw.

Lemma in_range_mono n m sw : in_range n sw → n ≤ m → in_range m sw.
Proof. intros Hs Hm. eapply Forall_impl; [exact Hs|]. simpl. intros. lia. Qed.

Lemma undo_snoc sw i j l : undo (sw ++ [(i, j)]) (swap i j l) = undo sw l.
Proof. unfold undo. rewrite foldr_app. simpl. by rewrite swap_involutive. Qed.

Lemma length_undo sw l : length (undo sw l) = length l.
Proof. induction sw as [|ij sw IH]; simpl; [done|]. by rewrite length_swap. Qed.

Lemma undo_app sw l k : in_range (length l) sw → undo sw (l ++ k) = undo sw l ++ k.
Proof.
  induction 1 as [|[i j] sw [Hi Hj] _ IH]; simpl; [done|].
  rewrite IH. apply swap_app; by rewrite length_undo.
Qed.

(** Writing the popped entries back, the first one popped in the last place. *)
Lemma write_back (arr : list A) N popped :
  length popped ≤ N → N ≤ length arr →
  foldl (λ a ix, <[N - 1 - ix.1 := ix.2]> a) arr (imap pair popped) =
  take (N - length popped) arr ++ reverse popped ++ drop N arr.
Proof.
  intros Hp HN. induction popped as [|x popped IH] using rev_ind.
  - simpl. by rewrite Nat.sub_0_r, take_drop.
  - rewrite length_app in *. simpl in *. rewrite imap_app, foldl_app, IH by lia. simpl.
    rewrite Nat.add_0_r, reverse_app. simpl.
    assert (take (N - length popped) arr = take (N - (length popped + 1)) arr ++
      take 1 (drop (N - (length popped + 1)) arr)) as ->.
    { rewrite <- (take_drop (N - (length popped + 1)) (take (N - length popped) arr)).
      rewrite take_take, skipn_firstn_comm. f_equal; f_equal; lia. }
    destruct (drop (N - (length popped + 1)) arr) as [|y d] eqn:Hd.
    { apply (f_equal length) in Hd. rewrite length_drop in Hd. simpl in Hd. lia. }
    rewrite <- !app_assoc. simpl. rewrite insert_app_r_alt by (rewrite length_take; lia).
    rewrite length_take.
    replace (N - 1 - length popped - (N - (length popped + 1)) `min` length arr) with 0 by lia.
    done.
Qed.
End undo.

(** * The journal *)

Section journal.
Context {W T : Type} `{!Item W T} `{!World W} `{!Grow}.
Abbreviation P := (Heap.Backing W T).
Abbreviation SI := (SeqItem T).
Implicit Types (p : Heap.Backing W T) (m : minHeap T) (orig popped : list (SeqItem T)).

Abbreviation zs := (@zeroSeq W T _).
Abbreviation elems m := (sl_contents (items m)).

(** In the middle of a mutation that began with [orig] and has taken [popped] out: undoing the
    journal over what is left, with the popped entries behind it, gives [orig] back, followed by
    whatever was pushed. *)
Record mid orig popped m : Prop := {
  mid_ok : slice_ok zs (items m);
  mid_journal : journal m = true;
  mid_cap : length (elems m) + length popped ≤ sl_cap (items m);
  mid_range : in_range (length (elems m) + length popped) (swaps m);
  mid_undo : ∃ pushed, undo (swaps m) (elems m ++ reverse popped) = orig ++ pushed ∧
    (popped = [] ∨ pushed = []);
}.

Lemma mid_start m : slice_ok zs (items m) → mid (elems m) [] (journalOn m).
Proof.
  intros Hok. pose proof (slice_ok_cap zs _ Hok). split; simpl; try done.
  - lia.
  - constructor.
  - exists []. rewrite !app_nil_r. auto.
Qed.

Lemma mid_swap orig popped m i j :
  mid orig popped m → i < length (elems m) → j < length (elems m) →
  mid orig popped (mh_swap i j m) ∧ elems (mh_swap i j m) = swap i j (elems m).
Proof.
  intros [Hok Hj Hc Hr (pushed & Hu & Hp)] Hi1 Hj1.
  pose proof (length_contents (items m) (proj1 Hok)) as Hlen.
  destruct (sl_swap_ok zs i j (items m) Hok) as [He Hok']; [lia..|].
  split; [|exact He]. unfold mh_swap. split; simpl; rewrite ?He, ?length_swap; try done.
  - unfold sl_cap in *. simpl. by rewrite length_swap.
  - rewrite Hj. apply Forall_app. split; [done|]. constructor; simpl; [lia|done].
  - exists pushed. rewrite Hj. split; [|done].
    rewrite <- Hu, <- swap_app by done. apply undo_snoc.
Qed.

Lemma mid_push orig m x :
  mid orig [] m →
  let m' := with_items (sl_append zs (items m) [x]) m in
  mid orig [] m' ∧ elems m' = elems m ++ [x].
Proof.
  intros [Hok Hj Hc Hr (pushed & Hu & _)].
  destruct (sl_append_ok zs (items m) [x] Hok) as [He Hok']. simpl. split; [|exact He].
  pose proof (slice_ok_cap zs _ Hok') as Hcap. simpl in *. rewrite Nat.add_0_r, app_nil_r in *.
  split; simpl; rewrite ?He, ?length_app, ?Nat.add_0_r, ?app_nil_r; simpl; try done.
  - rewrite He, length_app in Hcap. exact Hcap.
  - eapply in_range_mono; [exact Hr|lia].
  - exists (pushed ++ [x]). split; [|by left]. rewrite undo_app by done. by rewrite Hu, app_assoc.
Qed.

Lemma mid_pop orig popped m l x :
  mid orig popped m → elems m = l ++ [x] → length orig = length (elems m) + length popped →
  let m' := with_items (sl_trunc (sl_len (items m) - 1)
    (sl_set (sl_len (items m) - 1) zs (items m))) m in
  mid orig (popped ++ [x]) m' ∧ elems m' = l.
Proof.
  intros [Hok Hj Hc Hr (pushed & Hu & Hp)] He Horig.
  destruct (sl_trunc_set_ok zs (items m) l x Hok He) as [He' Hok']. simpl. split; [|exact He'].
  assert (pushed = []) as ->.
  { apply (f_equal length) in Hu. rewrite length_undo, !length_app, length_reverse in Hu.
    apply nil_length_inv. lia. }
  rewrite He, length_app in *. simpl in *.
  split; simpl; rewrite ?He', ?length_app; simpl; try done.
  - unfold sl_cap in *. simpl. rewrite length_insert. lia.
  - eapply in_range_mono; [exact Hr|lia].
  - exists []. split; [|by right]. rewrite reverse_app. simpl.
    by rewrite <- Hu, <- app_assoc.
Qed.

(** Undoing the journal over the array itself, whose tail it does not reach. *)
Lemma rollback_exact orig popped m :
  mid orig popped m →
  let m' := rollback (length orig) popped m in
  elems m' = orig ∧ slice_ok zs (items m') ∧ journal m' = false ∧ swaps m' = [].
Proof.
  intros [[Hle Ha] Hj Hc Hr (pushed & Hu & Hp)] m'.
  pose proof (length_contents (items m) Hle) as Hlen.
  pose proof (f_equal length Hu) as Hlu. rewrite length_undo, !length_app, length_reverse in Hlu.
  assert (length popped ≤ length orig) as Hpop.
  { destruct Hp as [->| ->]; simpl in *; lia. }
  assert (length orig ≤ sl_cap (items m)) as Hocap by lia.
  assert (∀ s : slice SI, sl_arr (foldl (λ s ix, sl_set (length orig - 1 - ix.1) ix.2 s) s
    (imap pair popped)) = foldl (λ a ix, <[length orig - 1 - ix.1 := ix.2]> a) (sl_arr s)
    (imap pair popped)) as Hset.
  { intros s. generalize (imap pair popped) as l. intros l. revert s.
    induction l as [|ix l IH]; intros s; simpl; [done|]. by rewrite IH. }
  assert (sl_arr (foldl (λ s ix, sl_set (length orig - 1 - ix.1) ix.2 s) (items m)
    (imap pair popped)) = (elems m ++ reverse popped) ++
    replicate (sl_cap (items m) - length (elems m) - length popped) zs) as Harr.
  { rewrite Hset, write_back by (unfold sl_cap in *; lia). rewrite Ha at 1 2.
    destruct Hp as [-> | ->]; simpl in *.
    - rewrite Nat.sub_0_r, !app_nil_r, take_drop. by rewrite Hlen, Nat.sub_0_r.
    - assert (length orig - length popped = length (elems m)) as -> by lia.
      rewrite take_app_length, <- app_assoc. do 2 f_equal.
      rewrite drop_app, drop_ge by lia. simpl. rewrite drop_replicate. f_equal. lia. }
  assert (undo (swaps m) (sl_arr (foldl (λ s ix, sl_set (length orig - 1 - ix.1) ix.2 s) (items m)
    (imap pair popped))) = orig ++ pushed ++
    replicate (sl_cap (items m) - length (elems m) - length popped) zs) as Hundo.
  { rewrite Harr, undo_app by (by rewrite length_app, length_reverse).
    by rewrite Hu, <- app_assoc. }
  assert (∃ r, sl_arr (items m') = orig ++ replicate r zs) as [r Hfin].
  { unfold m', rollback. simpl. rewrite !Hset in *. simpl. rewrite Hundo.
    rewrite take_app_length, drop_app, drop_ge by lia. simpl.
    assert (Nat.max (sl_len (items m)) (length orig) - length orig = length pushed) as ->
      by (destruct Hp as [-> | ->]; simpl in *; lia).
    eexists. f_equal. rewrite drop_app_length.
    symmetry. apply replicate_add. }
  destruct (slice_ok_intro zs orig r (items m')) as [He Hok]; [done|done|]. done.
Qed.

(** * Running container/heap under the journal *)

Section running.
Context (p0 : P) (orig : list SI) (k : lockmode) (e : list (P → W → P * W)).

(** The machine in the middle of a mutation of [p0], with [c] entries in the slice and the
    sequence counter at [n]. *)
Definition inside (n : Z) popped (c : nat) (t : mach P W) : Prop :=
  ∃ m w, t = Mach (set_nextSeq n (set_h m p0)) k w e ∧ mid orig popped m ∧ length (elems m) = c.

(** It unwinds, still in the middle. *)
Definition fell (n : Z) popped (u : option unwind) (t : mach P W) : Prop :=
  is_Some u ∧ ∃ c, inside n popped c t.

Lemma wp_HLess n popped c i j t :
  inside n popped c t → wp (HLess i j) (λ _ t, inside n popped c t) (fell n popped) t.
Proof.
  intros (m & w & -> & Hm & Hc). unfold HLess. do 2 wstep. cbn.
  assert (∀ w', inside n popped c (Mach (set_nextSeq n (set_h m p0)) k w' e)) as Hin
    by (intros; by eexists m, _).
  repeat case_match; first [apply wp_call; intros; [done|]|apply wp_gopanic]; split; eauto.
Qed.

Lemma wp_HSwap n popped c i j t :
  inside n popped c t → i < c → j < c →
  wp (HSwap i j) (λ _ t, inside n popped c t) (fell n popped) t.
Proof.
  intros (m & w & -> & Hm & Hc) Hi Hj. unfold HSwap. wstep.
  destruct (mid_swap orig popped m i j Hm) as [Hm' He]; [lia..|].
  exists (mh_swap i j m), w. split; [done|]. split; [done|]. by rewrite He, length_swap.
Qed.

Lemma wp_up n popped c fuel j t :
  inside n popped c t → j < c → wp (up fuel j) (λ _ t, inside n popped c t) (fell n popped) t.
Proof.
  revert j t. induction fuel as [|fuel IH]; intros j t Ht Hj; [by apply wp_ret|]. cbn [up].
  case_match; bool_to_prop; [by apply wp_ret|].
  assert ((j - 1) / 2 < c) by (pose proof (parent_lt j); unfold parent in *; destruct j; simpl in *; lia).
  apply wp_bind. eapply wp_mono; [| |by apply (wp_HLess n popped c)]; [|done]. intros less t1 Ht1.
  case_match; [by apply wp_ret|].
  apply wp_bind. eapply wp_mono; [| |by apply (wp_HSwap n popped c)]; [|done]. intros ? t2 Ht2. by apply IH.
Qed.

Lemma wp_down N popped c fuel i n t :
  inside N popped c t → n ≤ c → i < n →
  wp (down fuel i n) (λ _ t, inside N popped c t) (fell N popped) t.
Proof.
  revert i t. induction fuel as [|fuel IH]; intros i t Ht Hn Hi; [by apply wp_ret|]. cbn [down].
  case_match; bool_to_prop; [by apply wp_ret|]. apply wp_bind.
  assert (wp (if 2 * i + 1 + 1 <? n then HLess (2 * i + 1 + 1) (2 * i + 1) else mret false)
    (λ b t, (b = true → 2 * i + 1 + 1 < n) ∧ inside N popped c t) (fell N popped) t) as Hr.
  { case_match; bool_to_prop; [|by apply wp_ret].
    eapply wp_mono; [| |by apply (wp_HLess N popped c)]; by auto. }
  eapply wp_mono; [| |exact Hr]; [|done]. intros rl t1 [Hrl Ht1]. cbv beta zeta.
  assert ((if rl then 2 * i + 1 + 1 else 2 * i + 1) < n) by (destruct rl; auto; lia).
  apply wp_bind. eapply wp_mono; [| |by apply (wp_HLess N popped c)]; [|done]. intros less t2 Ht2.
  destruct (negb less); [by apply wp_ret|].
  apply wp_bind. eapply wp_mono; [| |apply wp_HSwap; [exact Ht2|lia|lia]]; [|done].
  intros ? t3 Ht3. by apply IH.
Qed.

Lemma wp_heap_Push n c x t :
  inside n [] c t → wp (heap_Push x) (λ _ t, inside n [] (1 + c) t) (fell n []) t.
Proof.
  intros (m & w & -> & Hm & Hc). unfold heap_Push, HPush.
  do 4 wstep. destruct (mid_push orig m x Hm) as [Hm' He].
  set (m' := with_items (sl_append zs (items m) [x]) m) in *. cbn [mb].
  assert (length (elems m') = 1 + c) as Hl by (rewrite He, length_app; simpl; lia).
  assert (Hlen (set_h (with_items (sl_append zs (items (h (set_nextSeq n (set_h m p0)))) [x])
    (h (set_nextSeq n (set_h m p0)))) (set_nextSeq n (set_h m p0))) = 1 + c) as ->.
  { rewrite <- Hl. symmetry. apply length_contents, Hm'. }
  apply wp_up; [by exists m', w|lia].
Qed.

(** Pop leaves the entry it took in the hands of the caller. *)
Lemma wp_heap_Pop n popped c t :
  inside n popped (1 + c) t → length orig = 1 + c + length popped →
  wp heap_Pop (λ x t, inside n (popped ++ [x]) c t) (fell n popped) t.
Proof.
  intros Ht Ho. pose proof Ht as (m & w & Heq & Hm & Hc).
  assert (sl_len (items m) = 1 + c) as Hsl by (rewrite <- Hc; symmetry; apply length_contents, Hm).
  unfold heap_Pop. rewrite Heq at 1. do 2 wstep. rewrite <- Heq.
  assert (Hlen (set_nextSeq n (set_h m p0)) - 1 = c) as -> by (unfold Hlen; simpl; lia).
  apply wp_bind. eapply wp_mono; [| |apply wp_HSwap; [exact Ht|lia|lia]]; [|done].
  clear t Ht m w Heq Hm Hc Hsl. intros ? t Ht. apply wp_bind.
  assert (wp (down c 0 c) (λ _ t, inside n popped (1 + c) t) (fell n popped) t) as Hdown.
  { destruct c; [by apply wp_ret|]. apply wp_down; [done|lia|lia]. }
  eapply wp_mono; [| |exact Hdown]; [|done]. clear t Ht Hdown.
  intros ? t (m & w & -> & Hm & Hc). unfold HPop. do 2 wstep.
  assert (sl_len (items m) = 1 + c) as Hsl by (rewrite <- Hc; symmetry; apply length_contents, Hm).
  unfold contents, Hlen. simpl. rewrite Hsl.
  destruct (exists_last (l := elems m)) as (l & x & Hl); [by intros Hnil; rewrite Hnil in Hc|].
  rewrite Hl, length_app in Hc. simpl in Hc.
  assert (elems m !! c = Some x) as Hx.
  { rewrite Hl, lookup_app_r by lia. by replace (c - length l) with 0 by lia. }
  replace (1 + c - 1) with c by lia. rewrite Hx. do 3 wstep.
  destruct (mid_pop orig popped m l x Hm Hl) as [Hm' He]; [rewrite Hl, length_app; simpl; lia|].
  rewrite Hsl in Hm', He.
  replace (1 + c - 1) with c in * by lia.
  eexists _, w. split; [done|]. split; [exact Hm'|].
  etransitivity; [exact (f_equal length He)|lia].
Qed.
End running.

(** * Abandoned mutations *)

(** Nothing of the contents differs from [p0]'s: the array, the sequence counter, the restore. *)
Record untouched (p0 p : P) : Prop := {
  un_contents : contents p = contents p0;
  un_ok : slice_ok zs (items (h p));
  un_journal : journal (h p) = false ∧ swaps (h p) = [];
  un_nextSeq : nextSeq p = nextSeq p0;
  un_hydrated : hydrated p = hydrated p0 ∧ hydrateEnd p = hydrateEnd p0;
}.

Lemma wp_push_loop p0 orig k e vs n c t :
  inside p0 orig k e n [] c t →
  wp (push_loop vs) (λ _ t, inside p0 orig k e (n + zlen vs) [] (length vs + c) t)
    (λ u t, ∃ n, fell p0 orig k e n [] u t) t.
Proof.
  revert n c t. induction vs as [|v vs IH]; intros n c t Ht; simpl.
  { apply wp_ret. by rewrite Z.add_0_r. }
  do 2 wstep. apply wp_bind. eapply wp_mono; [| |by apply (wp_heap_Push p0 orig k e n c)].
  - intros ? t1 (m & w & -> & Hm & Hc). do 2 wstep.
    rewrite <- Nat.add_succ_r, zlen_cons, Z.add_assoc. apply IH. by eexists m, w.
  - intros u t1 Hf. by exists n.
Qed.

Lemma untouched_rollback p0 m popped n :
  slice_ok zs (items (h p0)) → n = nextSeq p0 →
  mid (contents p0) popped m →
  untouched p0 (set_nextSeq n (set_h (rollback (Hlen p0) popped m) p0)).
Proof.
  intros Hok Hn Hm. destruct (rollback_exact _ _ _ Hm) as (He & Hok' & Hj & Hs).
  assert (length (contents p0) = Hlen p0) as Hlen by apply length_contents, Hok.
  rewrite Hlen in *. split; simpl; try done.
Qed.

(** Popping, with the restore of what has been popped so far on every unwind. *)
Lemma wp_pop_loop p0 e j popped c t :
  slice_ok zs (items (h p0)) →
  inside p0 (contents p0) WLocked e (nextSeq p0) popped c t →
  Hlen p0 = c + length popped → j ≤ c →
  wp (pop_loop (Hlen p0) j popped)
    (λ out t, length out = length popped + j ∧
       inside p0 (contents p0) WLocked e (nextSeq p0) out (c - j) t)
    (λ u t, is_Some u ∧ mlk t = Unlocked ∧ menv t = e ∧ untouched p0 (mb t)) t.
Proof.
  intros Hok Ht Hc Hj. revert popped c t Ht Hc Hj.
  induction j as [|j IH]; intros popped c t Ht Hc Hj; simpl.
  { apply wp_ret. rewrite Nat.sub_0_r, Nat.add_0_r. done. }
  assert (length (contents p0) = Hlen p0) as Hlen by apply length_contents, Hok.
  destruct c as [|c]; [lia|].
  pose proof (wp_heap_Pop p0 (contents p0) WLocked e (nextSeq p0) popped c t Ht ltac:(lia)) as Hpop.
  apply wp_bind. unfold RunLocked, on_unwind. unfold wp in Hpop |- * at 1.
  destruct (heap_Pop t) as [[x|u| |] t1] eqn:Hrun.
  - eapply wp_mono; [| |apply (IH (popped ++ [x]) c); [exact Hpop| |lia]].
    + intros out t2 [Ho Hin]. rewrite length_app in Ho. simpl in Ho. split; [lia|].
      by replace (S c - S j) with (c - j) by lia.
    + done.
    + rewrite length_app. simpl. lia.
  - destruct Hpop as [_ (c' & m & w & -> & Hm & _)]. unfold restore. simpl.
    split_and!; [done|done|done|]. by apply untouched_rollback.
  - done.
  - by destruct Hpop as [[??] _].
Qed.

(** * Push and Pop that do not complete *)

(** The heap's own state between operations. *)
Definition at_rest p : Prop :=
  slice_ok zs (items (h p)) ∧ journal (h p) = false ∧ swaps (h p) = [].

Lemma untouched_refl p0 p :
  at_rest p0 → h p = h p0 → nextSeq p = nextSeq p0 → hydrated p = hydrated p0 →
  hydrateEnd p = hydrateEnd p0 → untouched p0 p.
Proof.
  intros (Hok & Hj & Hs) Hh Hn Hy He. unfold contents.
  constructor; unfold contents; by rewrite ?Hh.
Qed.

Lemma untouched_trans p0 p1 p2 :
  h p1 = h p0 → nextSeq p1 = nextSeq p0 → hydrated p1 = hydrated p0 →
  hydrateEnd p1 = hydrateEnd p0 → untouched p1 p2 → untouched p0 p2.
Proof.
  intros Hh Hn Hy He [Hc Hok Hj Hn' [Hy' He']]. unfold contents in *.
  constructor; try done; unfold contents; [by rewrite Hc, Hh|congruence|split; congruence].
Qed.

(** The insertion of a batch under its guard. *)
Lemma wp_insert_batch p vs (o : OpOptions W) (Q : unit → mach P W → Prop) U w :
  at_rest p →
  (∀ m n w, Q () (Mach (set_nextSeq n (set_h m p)) WLocked w [])) →
  (∀ u t, mlk t = Unlocked → untouched p (mb t) → U (Some u) t) →
  wp (RunLockedNoErr (push_loop vs)
       (updb (λ p', set_nextSeq (nextSeq p) (set_h (rollback (Hlen p) [] (h p')) p'));;
        ReleaseReservation o notFull_l;;
        Unlock)) Q U (Mach (set_h (journalOn (h p)) p) WLocked w []).
Proof.
  intros (Hok & Hj & Hs) HQ HU.
  assert (inside p (contents p) WLocked [] (nextSeq p) [] (Hlen p)
    (Mach (set_h (journalOn (h p)) p) WLocked w [])) as Hin.
  { exists (journalOn (h p)), w. split; [by destruct p|]. split; [by apply mid_start|].
    apply length_contents, Hok. }
  pose proof (wp_push_loop p (contents p) WLocked [] vs _ _ _ Hin) as Hloop.
  unfold RunLockedNoErr, on_unwind. unfold wp in Hloop |- * at 1.
  destruct (push_loop vs _) as [[a|u| |] t]; [| |done|by destruct Hloop as (? & [??] & _)].
  - destruct a, Hloop as (m & w' & -> & _). apply HQ.
  - destruct Hloop as (n & _ & c & m & w' & -> & Hm & _).
    pose proof (untouched_rollback p m [] (nextSeq p) Hok eq_refl Hm) as Hun.
    unfold ReleaseReservation, SignalIfWaiters, DoSignal, mbind, go_bind. simpl.
    destruct (OnAdmit o); simpl; [destruct (HasWaiters _); simpl|]; apply HU; try done;
      destruct Hun; by constructor.
Qed.

(** An exit that leaves the heap alone. *)
Ltac hdone :=
  lazymatch goal with
  | Hun : ∀ p', h p' = h ?p → _ |- mlk _ = Unlocked ∧ _ =>
      split; [done|try intros _; first [by apply Hun | done | split; [done|by apply Hun]]]
  | Hun : ∀ p', h p' = h ?p → _ |- _ = _ ∧ mlk _ = Unlocked ∧ _ =>
      split_and!; [done|done|by apply Hun]
  end.

(** C8: Push of the heap is all or nothing under the same failures: unless it returns nil the
    array, the sequence counter and the journal are exactly as before and the lock is released. *)
Theorem heap_push_atomic ctx vs options p w :
  at_rest p →
  wp (Heap.Push ctx vs options)
    (λ e t, mlk t = Unlocked ∧ (e ≠ None → untouched p (mb t)))
    (λ _ t, mlk t = Unlocked ∧ untouched p (mb t))
    (Mach p Unlocked w []).
Proof.
  intros Hrest. unfold Heap.Push.
  assert (∀ p', h p' = h p → nextSeq p' = nextSeq p → hydrated p' = hydrated p →
    hydrateEnd p' = hydrateEnd p → untouched p p') as Hun by (intros; by apply untouched_refl).
  repeat first [hdone|wstep].
  all: match goal with
    |- wp _ _ _ (Mach (set_h _ ?p1) _ _ _) => apply (wp_insert_batch p1); [done|intros|intros u t Hlk Hu]
    end.
  all: try (split; [done|by eapply untouched_trans; [..|exact Hu]]).
  all: repeat wstep; by split.
Qed.

(** C7: Pop of the heap is all or nothing even when an item's Less panics or exits the goroutine
    at any comparison, or the backup refuses: unless it returns items, the array holds exactly the
    entries it held, in the same places, and the counters and the journal are as before. *)
Theorem heap_pop_atomic ctx n options p w :
  at_rest p → (0 ≤ n)%Z →
  wp (Heap.Pop ctx n options)
    (λ '(out, e) t, mlk t = Unlocked ∧ (e ≠ None → out = [] ∧ untouched p (mb t)))
    (λ _ t, mlk t = Unlocked ∧ untouched p (mb t))
    (Mach p Unlocked w []).
Proof.
  intros Hrest Hn. unfold Heap.Pop.
  assert (∀ p', h p' = h p → nextSeq p' = nextSeq p → hydrated p' = hydrated p →
    hydrateEnd p' = hydrateEnd p → untouched p p') as Hun by (intros; by apply untouched_refl).
  assert (∀ w, inside p (contents p) WLocked [] (nextSeq p) [] (Hlen p)
    (Mach (set_h (journalOn (h p)) p) WLocked w [])) as Hin.
  { intros w'. exists (journalOn (h p)), w'. split; [by destruct p|].
    split; [by apply mid_start, Hrest|apply length_contents, Hrest]. }
  repeat first [hdone|wstep].
  all: eapply wp_mono; [| |apply (wp_pop_loop p [] _ [] (Hlen p)); [apply Hrest|apply Hin|simpl; lia|]].
  all: try (intros u t (_ & Hlk & _ & Hu); done).
  all: try (case_match; bool_to_prop; lia).
  all: intros out t (_ & m & w1 & -> & Hm & _).
  all: pose proof (untouched_rollback p m out (nextSeq p) (proj1 Hrest) eq_refl Hm) as Hroll.
  all: repeat first [wstep|progress unfold restore]; by split.
Qed.
End journal.
