(* ===== verification/HeapRefines.v ===== *)
(** The heap backing implements the contract of a priority queue, for items whose methods are pure
    and keep their documented obligations: the queue's contents are the heap's entries in the order
    of [Less], ties in order of admission. *)

From Stdlib Require Import Sorting.Sorted.
From S2P Require Import Prelude Errors Machine Core Slice BinHeap Contract Logic Priority.
From S2P Require Import ContractFacts SeqOrder Interface Heap HeapJournal.

(** * What the heap algorithms compute on pure items *)

Section pure.
Context {W T : Type} `{!Item W T} `{!PureItem W T} `{!OrderLaws W T} `{!World W} `{!Grow}.
Abbreviation P := (Heap.Backing W T).
Abbreviation SI := (SeqItem T).
Abbreviation zs := (@zeroSeq W T _).
Abbreviation elems m := (sl_contents (items m)).

Section running.
Context (p0 : P) (jr : bool) (k : lockmode) (w : W) (e : list (P → W → P * W)).

(** A journal that is being kept, or one that is off and empty. *)
Definition journaled (m : minHeap T) : Prop := journal m = jr ∧ (jr = false → swaps m = []).

(** The machine with [l] in the heap and the counter at [n], all else as in [p0]. *)
Definition holds (n : Z) (l : list SI) (t : mach P W) : Prop :=
  ∃ m, t = Mach (set_nextSeq n (set_h m p0)) k w e ∧ journaled m ∧ slice_ok zs (items m) ∧ elems m = l.

Abbreviation never := (λ (_ : option unwind) (_ : mach P W), False).

Lemma holds_Hlen n l t : holds n l t → Hlen (mb t) = length l.
Proof. intros (m & -> & _ & Hok & <-). symmetry. apply length_contents, Hok. Qed.

Lemma pure_HLess n l i j t :
  holds n l t → i < length l → j < length l →
  wp (HLess i j) (λ b t, b = lessl pless l i j ∧ holds n l t) never t.
Proof.
  intros Ht Hi Hj. pose proof Ht as (m & -> & Hjr & Hok & Hl). unfold HLess. do 2 wstep.
  unfold contents. simpl. rewrite Hl. unfold lessl.
  destruct (lookup_lt_is_Some_2 l i Hi) as [x ->], (lookup_lt_is_Some_2 l j Hj) as [y ->].
  unfold wp, call. simpl. rewrite PrioritySeqLess_pure. done.
Qed.

Lemma pure_HSwap n l i j t :
  holds n l t → i < length l → j < length l →
  wp (HSwap i j) (λ _ t, holds n (swap i j l) t) never t.
Proof.
  intros (m & -> & Hjr & Hok & Hl) Hi Hj. unfold HSwap. wstep.
  rewrite <- Hl, length_contents in Hi, Hj by apply Hok.
  destruct (sl_swap_ok zs i j (items m) Hok Hi Hj) as [He Hok'].
  exists (mh_swap i j m). rewrite <- Hl. split_and!; try done.
  destruct Hjr as [Hjr Hs]. split; [done|]. intros Hoff. simpl. rewrite Hjr, Hoff. by apply Hs.
Qed.

Lemma pure_up n fuel j l t :
  holds n l t → j < length l →
  wp (up fuel j) (λ _ t, holds n (up_list pless fuel j l) t) never t.
Proof.
  revert j l t. induction fuel as [|fuel IH]; intros j l t Ht Hj; [by apply wp_ret|].
  cbn [up up_list]. unfold parent. destruct ((j - 1) / 2 =? j) eqn:Hroot; [by apply wp_ret|].
  bool_to_prop.
  assert ((j - 1) / 2 < length l) by (pose proof (parent_lt j); unfold parent in *; destruct j; simpl in *; lia).
  remember ((j - 1) / 2) as i eqn:Hi. clear Hi.
  apply wp_bind. eapply wp_mono; [| |by apply (pure_HLess n l)]; [|done]. cbv beta.
  intros b t1 [-> Ht1]. destruct (lessl pless l j i); cbn [negb]; [|by apply wp_ret].
  apply wp_bind. eapply wp_mono; [| |by apply (pure_HSwap n l)]; [|done]. cbv beta.
  intros _ t2 Ht2. apply IH; [done|by rewrite length_swap].
Qed.

Lemma pure_down N fuel i n l t :
  holds N l t → n ≤ length l → i < n →
  wp (down fuel i n) (λ _ t, holds N (down_list pless fuel i n l) t) never t.
Proof.
  revert i l t. induction fuel as [|fuel IH]; intros i l t Ht Hn Hi; [by apply wp_ret|].
  cbn [down down_list]. destruct (n <=? 2 * i + 1) eqn:Hlast; [by apply wp_ret|]. bool_to_prop.
  apply wp_bind.
  assert (wp (if 2 * i + 1 + 1 <? n then HLess (2 * i + 1 + 1) (2 * i + 1) else mret false)
    (λ b t, (if b : bool then 2 * i + 1 + 1 else 2 * i + 1) = smaller_child pless l (2 * i + 1) n ∧
       holds N l t) never t) as Hr.
  { unfold smaller_child. destruct (2 * i + 1 + 1 <? n) eqn:Hright; bool_to_prop; [|by apply wp_ret].
    eapply wp_mono; [| |apply (pure_HLess N l); [done|lia|lia]]; [|done]. cbv beta.
    by intros b t1 [-> Ht1]. }
  eapply wp_mono; [| |exact Hr]; [|done]. cbv beta zeta. intros b t1 [-> Ht1].
  assert (smaller_child pless l (2 * i + 1) n < n)
    by (by apply smaller_child_lt).
  apply wp_bind. eapply wp_mono; [| |apply (pure_HLess N l); [done|lia|lia]]; [|done]. cbv beta.
  intros b' t2 [-> Ht2].
  destruct (lessl pless l (smaller_child pless l (2 * i + 1) n) i); cbn [negb];
    [|by apply wp_ret].
  apply wp_bind. eapply wp_mono; [| |apply (pure_HSwap N l); [done|lia|lia]]; [|done]. cbv beta.
  intros _ t3 Ht3. apply IH; [done|by rewrite length_swap|done].
Qed.

Lemma pure_init N j n l t :
  holds N l t → n ≤ length l → j ≤ n →
  wp (init_loop j n) (λ _ t, holds N (init_list pless j n l) t) never t.
Proof.
  revert l t. induction j as [|j IH]; intros l t Ht Hn Hj; simpl; [by apply wp_ret|].
  apply wp_bind. eapply wp_mono; [| |apply (pure_down N n j n l); [done|lia|lia]]; [|done]. cbv beta.
  intros _ t1 Ht1. apply IH; [done| |lia]. by rewrite down_list_Permutation.
Qed.

Lemma pure_heap_Init N l t :
  holds N l t →
  wp heap_Init (λ _ t, holds N (init_list pless (length l / 2) (length l) l) t) never t.
Proof.
  intros Ht. unfold heap_Init. do 2 wstep. rewrite (holds_Hlen _ _ _ Ht).
  apply pure_init; [done|done|]. apply Nat.Div0.div_le_upper_bound. lia.
Qed.

Lemma pure_HPush n l x t :
  holds n l t → wp (HPush x) (λ _ t, holds n (l ++ [x]) t) never t.
Proof.
  intros (m & -> & Hj & Hok & Hl). unfold HPush. wstep.
  destruct (sl_append_ok zs (items m) [x] Hok) as [He Hok'].
  eexists. split; [done|]. split_and!; [done|done|]. simpl. by rewrite He, Hl.
Qed.

Lemma pure_heap_Push n l x t :
  holds n l t → wp (heap_Push x) (λ _ t, holds n (push_list pless x l) t) never t.
Proof.
  intros Ht. unfold heap_Push. apply wp_bind.
  eapply wp_mono; [| |by apply pure_HPush]; [|done]. cbv beta. intros _ t1 Ht1.
  apply wp_bind, wp_getb. rewrite (holds_Hlen _ _ _ Ht1), length_app. simpl.
  replace (length l + 1 - 1) with (length l) by lia.
  apply (pure_up n _ _ (l ++ [x])); [done|]. rewrite length_app. simpl. lia.
Qed.

Lemma pure_heap_Pop n l x s t :
  holds n l t → heap_from pless 0 (length l) l → sorted pless (x :: s) → x :: s ≡ₚ l →
  wp heap_Pop (λ y t, y = x ∧ ∃ l', holds n l' t ∧ heap_from pless 0 (length l') l' ∧ s ≡ₚ l')
    never t.
Proof.
  intros Ht Hh Hs Hp.
  destruct (pop_list_sorted pless pless_asym pless_le_trans l x s Hh Hs Hp) as [Hsp Hp'].
  pose proof (pop_list_heap pless pless_asym pless_le_trans l Hh) as Hh'.
  set (l' := take (length l - 1) (pop_list pless l)) in *.
  assert (0 < length l) by (rewrite <- Hp; simpl; lia).
  unfold heap_Pop. do 2 wstep. rewrite (holds_Hlen _ _ _ Ht).
  apply wp_bind. eapply wp_mono; [| |apply (pure_HSwap n l); [done|lia|lia]]; [|done]. cbv beta.
  intros _ t1 Ht1. apply wp_bind.
  assert (wp (down (length l - 1) 0 (length l - 1)) (λ _ t, holds n (pop_list pless l) t) never t1)
    as Hdown.
  { unfold pop_list. destruct (length l - 1) eqn:Hn; [by apply wp_ret|].
    apply pure_down; [done|rewrite length_swap; lia|lia]. }
  eapply wp_mono; [| |exact Hdown]; [|done]. simpl. clear t Ht t1 Ht1 Hdown.
  intros _ t Ht. pose proof (holds_Hlen _ _ _ Ht) as Hl. pose proof Ht as (m & -> & Hj & Hok & He).
  unfold HPop. do 2 wstep. cbn [mb] in *. rewrite Hl, Hsp, length_app. simpl.
  replace (length l' + 1 - 1) with (length l') by lia.
  unfold contents. simpl. rewrite He, Hsp. rewrite lookup_app_r, Nat.sub_diag by lia. simpl.
  do 3 wstep. split; [done|]. exists l'. split; [|done].
  destruct (sl_trunc_set_ok zs (items m) l' x Hok) as [He' Hok']; [by rewrite He|].
  assert (sl_len (items m) - 1 = length l') as Hm.
  { unfold Hlen in Hl. simpl in Hl. rewrite Hl, Hsp, length_app. simpl. lia. }
  rewrite Hm in He', Hok'. by eexists.
Qed.

(** * Sorting in place *)

Lemma pure_sift n j l t :
  holds n l t → j < length l →
  wp (sift j) (λ _ t, holds n (sift_list pless j l) t) never t.
Proof.
  revert l t. induction j as [|i IH]; intros l t Ht Hj; cbn [sift sift_list]; [by apply wp_ret|].
  apply wp_bind. eapply wp_mono; [| |apply (pure_HLess n l); [done|lia|lia]]; [|done]. cbv beta.
  intros b t1 [-> Ht1]. destruct (lessl pless l (S i) i); cbn [negb]; [|by apply wp_ret].
  destruct Ht1 as (m & -> & Hjr & Hok & Hl). wstep. wstep.
  assert (length l = sl_len (items m)) as Hlen by (rewrite <- Hl; apply length_contents, Hok).
  destruct (sl_swap_ok zs (S i) i (items m) Hok) as [He Hok']; [lia..|].
  apply IH; [|rewrite length_swap; lia].
  exists (with_items (sl_swap (S i) i (items m)) m). split_and!; try done. simpl. by rewrite He, Hl.
Qed.

Lemma pure_sort_from n c i l t :
  holds n l t → i + c ≤ length l →
  wp (sort_from c i) (λ _ t, holds n (sort_list pless c i l) t) never t.
Proof.
  revert i l t. induction c as [|c IH]; intros i l t Ht Hi; cbn [sort_from sort_list];
    [by apply wp_ret|].
  apply wp_bind. eapply wp_mono; [| |apply (pure_sift n i l); [done|lia]]; [|done]. cbv beta.
  intros _ t1 Ht1. apply IH; [done|]. rewrite sift_list_Permutation. lia.
Qed.

Lemma pure_SliceStable n s l t :
  holds n l t → sorted pless s → s ≡ₚ l → wp SliceStable (λ _ t, holds n s t) never t.
Proof.
  intros Ht Hs Hp. unfold SliceStable. do 2 wstep. rewrite (holds_Hlen _ _ _ Ht).
  rewrite <- (sort_list_is pless pless_asym pless_trans s l Hs Hp).
  destruct l as [|x l]; [by apply wp_ret|]. apply pure_sort_from; [done|simpl; lia].
Qed.

(** * The loops of Push and Pop *)

(** A heap [l] whose entries in order are [s], all numbered below [n]. *)
Definition ranked (n : Z) (s l : list SI) : Prop :=
  heap_from pless 0 (length l) l ∧ sorted pless s ∧ s ≡ₚ l ∧ Forall (λ x, Seq x < n)%Z s.

Fixpoint insert_batch (n : Z) (vs : list T) (s : list SI) : list SI :=
  match vs with
  | [] => s
  | v :: vs => insert_batch (n + 1) vs (insert_sorted pless (MkSeqItem n v) s)
  end.

Lemma ranked_push n s l v :
  ranked n s l →
  ranked (n + 1) (insert_sorted pless (MkSeqItem n v) s) (push_list pless (MkSeqItem n v) l).
Proof.
  intros (Hh & Hs & Hp & Hseq). split_and!.
  - by apply push_list_heap; [apply pless_asym|apply pless_le_trans|].
  - apply insert_sorted_sorted; [apply pless_trans|done|]. intros y Hy Hle.
    rewrite Forall_forall in Hseq. specialize (Hseq y Hy).
    apply pless_total; [simpl; lia|done].
  - by rewrite insert_sorted_Permutation, push_list_Permutation, Hp.
  - rewrite insert_sorted_Permutation. constructor; [simpl; lia|].
    eapply Forall_impl; [exact Hseq|]. simpl. lia.
Qed.

Lemma pure_push_loop vs n s l t :
  holds n l t → ranked n s l →
  wp (push_loop vs) (λ _ t, ∃ l', holds (n + zlen vs) l' t ∧ ranked (n + zlen vs) (insert_batch n vs s) l')
    never t.
Proof.
  revert n s l t. induction vs as [|v vs IH]; intros n s l t Ht Hr; simpl.
  { apply wp_ret. exists l. by rewrite Z.add_0_r. }
  apply wp_bind, wp_getb.
  assert (nextSeq (mb t) = n) as -> by (by destruct Ht as (m & -> & _)).
  apply wp_bind. eapply wp_mono; [| |by apply pure_heap_Push]; [|done]. cbv beta.
  intros _ t1 (m & -> & Hj & Hok & Hl). do 2 wstep. rewrite zlen_cons, Z.add_assoc.
  apply (IH _ _ (push_list pless (MkSeqItem n v) l)); [by exists m|by apply ranked_push].
Qed.

Lemma ranked_pop n x s l l' :
  ranked n (x :: s) l → heap_from pless 0 (length l') l' → s ≡ₚ l' → ranked n s l'.
Proof.
  intros (_ & Hs & _ & Hseq) Hh Hp. apply StronglySorted_inv in Hs as [Hs _].
  inversion_clear Hseq. done.
Qed.

Lemma pure_pop_loop N j popped n s l t :
  holds n l t → ranked n s l → j ≤ length s →
  wp (pop_loop N j popped)
    (λ out t, out = popped ++ take j s ∧ ∃ l', holds n l' t ∧ ranked n (drop j s) l') never t.
Proof.
  revert popped s l t. induction j as [|j IH]; intros popped s l t Ht Hr Hj; simpl.
  { apply wp_ret. rewrite take_0, app_nil_r. eauto. }
  destruct s as [|x s]; simpl in Hj; [lia|].
  pose proof Hr as (Hh & Hs & Hp & _). apply wp_bind.
  pose proof (pure_heap_Pop n l x s t Ht Hh Hs Hp) as Hpop.
  unfold RunLocked, on_unwind. unfold wp in Hpop |- * at 1.
  destruct (heap_Pop t) as [[y| | |] t1]; try done.
  destruct Hpop as (-> & l' & Ht1 & Hh' & Hp').
  eapply wp_mono; [| |apply (IH (popped ++ [x]) s l')];
    [|done|done|by eapply ranked_pop|lia].
  intros out t2 [-> Hrest]. by rewrite <- app_assoc.
Qed.
End running.
End pure.

(** * The refinement *)

Section refinement.
Context {W T : Type} `{!Item W T} `{!PureItem W T} `{!OrderLaws W T} `{!World W} `{!Grow}.
Abbreviation P := (Heap.Backing W T).
Abbreviation Q := (QState W T).
Abbreviation SI := (SeqItem T).
Implicit Types (p : Heap.Backing W T) (q : QState W T).

Record heap_rel p q : Prop := {
  hr_rest : at_rest p;
  hr_items : ∃ s, ranked (nextSeq p) s (contents p) ∧ q_items q = entry_of (hydrateEnd p) <$> s;
  hr_end : (hydrateEnd p ≤ nextSeq p)%Z;
  hr_hydrated : hydrated p = exempt (q_items q);
  hr_unordered : ∀ b, backup p = Some b → unordered b;
  hr_maxSize : q_maxSize q = maxSize p;
  hr_inflight : q_inflight q = inflight p;
  hr_notFull : q_notFull q = notFull p;
  hr_notEmpty : q_notEmpty q = notEmpty p;
  hr_closed : q_closed q = closed p;
  hr_backup : q_backup q = backup p;
}.

Lemma hr_length p q : heap_rel p q → Hlen p = length (q_items q).
Proof.
  intros Hr. destruct (hr_items _ _ Hr) as (s & (_ & _ & Hp & _) & ->).
  rewrite length_fmap, Hp. symmetry. apply length_contents, (hr_rest _ _ Hr).
Qed.

Lemma hr_len p q : heap_rel p q → Z.of_nat (Hlen p) = zlen (q_items q).
Proof. intros Hr. by rewrite (hr_length _ _ Hr). Qed.

Lemma hr_load p q :
  heap_rel p q → (Z.of_nat (Hlen p) - hydrated p + inflight p)%Z = load q.
Proof.
  intros Hr. unfold load. by rewrite (hr_len _ _ Hr), (hr_hydrated _ _ Hr), (hr_inflight _ _ Hr).
Qed.

Lemma hr_empty p q : heap_rel p q → (Hlen p =? 0) = (zlen (q_items q) =? 0)%Z.
Proof.
  intros Hr. rewrite <- (hr_len _ _ Hr). destruct (Hlen p); done.
Qed.
Lemma hr_nonempty p q : heap_rel p q → (0 <? Hlen p) = (0 <? zlen (q_items q))%Z.
Proof.
  intros Hr. rewrite <- (hr_len _ _ Hr). destruct (Hlen p); done.
Qed.

(** Fields other than the contents may change together. *)
Lemma heap_rel_with p q p' q' :
  heap_rel p q →
  h p' = h p → nextSeq p' = nextSeq p → hydrateEnd p' = hydrateEnd p → hydrated p' = hydrated p →
  q_items q' = q_items q → backup p' = backup p →
  q_maxSize q' = maxSize p' → q_inflight q' = inflight p' → q_notFull q' = notFull p' →
  q_notEmpty q' = notEmpty p' → q_closed q' = closed p' → q_backup q' = backup p' →
  heap_rel p' q'.
Proof.
  intros [Hrest Hit Hend Hhy Hun _ _ _ _ _ _] Hh Hn He Hhd Hi Hbk ??????.
  constructor; try done; unfold at_rest, contents in *; rewrite ?Hh, ?Hn, ?He, ?Hhd, ?Hi, ?Hbk; done.
Qed.

Ltac with_fields := split; [intros p q Hr; symmetry; apply Hr|];
  intros x p q Hr; apply (heap_rel_with p q); try done; apply Hr.

Lemma heap_inflight_rel : lens_rel heap_rel Heap.inflight_l Contract.inflight_l.
Proof. with_fields. Qed.
Lemma heap_notFull_rel : lens_rel heap_rel Heap.notFull_l Contract.notFull_l.
Proof. with_fields. Qed.
Lemma heap_notEmpty_rel : lens_rel heap_rel Heap.notEmpty_l Contract.notEmpty_l.
Proof. with_fields. Qed.
Lemma heap_closed_rel c p q :
  heap_rel p q → heap_rel (Heap.set_closed c p) (Contract.set_closed c q).
Proof. intros Hr. apply (heap_rel_with p q); try done; apply Hr. Qed.

Hint Resolve heap_inflight_rel heap_notFull_rel heap_notEmpty_rel heap_closed_rel : backing_rel.

Ltac rfields Hr ::=
  rewrite <- ?(hr_closed _ _ Hr), <- ?(hr_maxSize _ _ Hr), <- ?(hr_backup _ _ Hr),
    ?(hr_load _ _ Hr), ?(hr_len _ _ Hr), ?(hr_empty _ _ Hr), ?(hr_nonempty _ _ Hr).

Lemma heap_ClosedOrCause_refines ctx :
  refines heap_rel (Heap.ClosedOrCause ctx) (Contract.ClosedOrCause ctx).
Proof. refine_start. unfold Heap.ClosedOrCause, Contract.ClosedOrCause. rauto. Qed.
Hint Resolve heap_ClosedOrCause_refines : backing_rel.

Ltac rloop :=
  apply (rwp_forever heap_rel); [rdone|done|];
  clear -OrderLaws0; intros [? ? ? ?] [? ? ? ?] [Hr Hk Hw He]; simpl in *; subst.

Lemma heap_NotEmpty_refines ctx options :
  refines heap_rel (Heap.NotEmpty ctx options) (Contract.NotEmpty ctx options).
Proof. refine_start. unfold Heap.NotEmpty, Contract.NotEmpty. rstart. rloop. rauto. Qed.

Lemma heap_NotFull_refines ctx options :
  refines heap_rel (Heap.NotFull ctx options) (Contract.NotFull ctx options).
Proof. refine_start. unfold Heap.NotFull, Contract.NotFull. rstart. rloop. rauto. Qed.

Lemma heap_Len_refines : refines heap_rel Heap.Len Contract.Len.
Proof.
  refine_start. unfold Heap.Len, Contract.Len, rlocked, reading.
  rauto. rewrite (hr_len _ _ Hr). rauto.
Qed.

Lemma heap_Close_refines ctx options :
  refines heap_rel (Heap.Close ctx options) (Contract.Close ctx options).
Proof. refine_start. unfold Heap.Close, Contract.Close. rstart. rauto. Qed.

(** The head of the queue is the root of the heap. *)
Lemma hr_head p q :
  heap_rel p q → Item_ <$> head (contents p) = e_item <$> head (q_items q).
Proof.
  intros Hr. destruct (hr_items _ _ Hr) as (s & (Hh & Hs & Hp & _) & ->).
  destruct s as [|x s]; simpl.
  - apply Permutation_nil in Hp. by rewrite Hp.
  - pose proof (sorted_head pless pless_asym pless_le_trans _ x s Hh Hs Hp) as Hx.
    by destruct (contents p); [|injection Hx as ->].
Qed.

Lemma heap_Peek_refines ctx options :
  refines heap_rel (Heap.Peek ctx options) (Contract.Peek ctx options).
Proof.
  refine_start. unfold Heap.Peek, Contract.Peek, rlocked, reading. rstart. rauto.
  pose proof (hr_head _ _ Hr) as Hhead.
  destruct (contents b) as [|x l], (q_items q) as [|y l']; simpl in *; try done; [rauto|].
  injection Hhead as ->. rauto.
Qed.

(** * Push *)

Lemma insert_entry_sorted (f : SI → entry T) n v s :
  (∀ x, e_item (f x) = Item_ x) → Forall (λ x, Seq x < n)%Z s →
  insert_entry ltb (f (MkSeqItem n v)) (f <$> s) = f <$> insert_sorted pless (MkSeqItem n v) s.
Proof.
  intros Hf Hs. induction Hs as [|x s Hx _ IH]; [done|].
  rewrite fmap_cons. cbn [insert_entry insert_sorted].
  rewrite (pless_new (MkSeqItem n v) x), !Hf by done. simpl Item_.
  case_match; [done|]. by rewrite fmap_cons, IH.
Qed.

Lemma insert_all_batch he n vs s :
  (he ≤ n)%Z → Forall (λ x, Seq x < n)%Z s →
  insert_all ltb vs false (entry_of he <$> s) = entry_of he <$> insert_batch n vs s.
Proof.
  unfold insert_all. revert n s. induction vs as [|v vs IH]; intros n s He Hs; simpl; [done|].
  assert (Entry v false = entry_of he (MkSeqItem n v)) as ->.
  { unfold entry_of. simpl. by rewrite (proj2 (Z.ltb_ge _ _)) by lia. }
  rewrite (insert_entry_sorted _ n) by done. apply IH; [lia|].
  rewrite insert_sorted_Permutation. constructor; [simpl; lia|].
  eapply Forall_impl; [exact Hs|]. simpl. lia.
Qed.

Lemma rest_holds p k w e :
  at_rest p →
  holds p true k w e (nextSeq p) (contents p) (Mach (set_h (journalOn (h p)) p) k w e).
Proof. intros (Hok & _). exists (journalOn (h p)). split_and!; try done; by destruct p. Qed.

Lemma push_rel vs p q :
  heap_rel p q → ∃ s, ranked (nextSeq p) s (contents p) ∧
    ∀ m l', slice_ok zeroSeq (items m) → sl_contents (items m) = l' →
      ranked (nextSeq p + zlen vs) (insert_batch (nextSeq p) vs s) l' →
      heap_rel (set_h (journalOff m) (set_nextSeq (nextSeq p + zlen vs) (set_h m p)))
        (set_items (insert_all ltb vs false (q_items q)) q).
Proof.
  intros [Hrest (s & Hs & Hit) Hend Hhy]. exists s. split; [done|]. intros m l' Hok <- Hr.
  pose proof (zlen_nonneg vs). pose proof Hs as (_ & _ & _ & Hseq).
  constructor; simpl; try done.
  - exists (insert_batch (nextSeq p) vs s). split; [done|].
    by rewrite Hit, (insert_all_batch _ (nextSeq p)).
  - lia.
  - rewrite Hhy, (exempt_Permutation _ _ (insert_all_Permutation ltb vs false (q_items q))), exempt_app.
    assert (exempt ((λ v, Entry v false) <$> vs) = 0%Z) as ->; [|lia].
    clear. induction vs as [|v vs IH]; [done|]. by rewrite fmap_cons, exempt_cons.
Qed.

Lemma heap_Push_refines ctx vs options :
  refines heap_rel (Heap.Push ctx vs options) (Contract.Push true ltb ctx vs options).
Proof.
  refine_start. unfold Heap.Push, Contract.Push. rstart.
  rstep. rhelper; [|rdone]. destruct e as [e|]; [rstep; rdone|].
  rloop. rauto.
  all: destruct (push_rel vs _ _ Hr) as (s & Hs & Hrel).
  all: apply rwp_updb_l; eapply rwp_wp_l;
    [apply wp_on_unwind_never, (pure_push_loop _ _ _ _ _ vs _ s _ _ (rest_holds _ _ _ _ (hr_rest _ _ Hr)) Hs)|].
  all: intros _ t (l' & (m & -> & _ & Hok & Hl) & Hr').
  all: apply rwp_updb_l, rwp_updb_r; specialize (Hrel m l' Hok Hl Hr').
  all: rewrite (hr_empty _ _ Hr); rrelate heap_rel; [exact Hrel|]; rauto.
Qed.

(** * Pop *)

(** The exemption leaves with the restored entries. *)
Lemma dropHydrated_exempt (l : list SI) p :
  (exempt (entry_of (hydrateEnd p) <$> l) ≤ hydrated p)%Z →
  dropHydrated (Seq <$> l) p =
  set_hydrated (hydrated p - exempt (entry_of (hydrateEnd p) <$> l)) p.
Proof.
  intros Hle. rewrite <- drop_count_exempt by done. clear Hle. revert p.
  induction l as [|x l IH]; intros p; [by destruct p|].
  rewrite fmap_cons. unfold dropHydrated, drop_count in *. cbn [foldl]. rewrite IH. by case_match.
Qed.

(** Taking entries out. *)
Lemma heap_rel_remove p q m n rest gone s :
  heap_rel p q → ranked (nextSeq p) s (contents p) → q_items q = entry_of (hydrateEnd p) <$> s →
  n = nextSeq p → slice_ok zeroSeq (items m) → journal m = false → swaps m = [] →
  ranked n rest (sl_contents (items m)) → s ≡ₚ gone ++ rest →
  heap_rel (dropHydrated (Seq <$> gone) (set_nextSeq n (set_h m p)))
    (set_items (entry_of (hydrateEnd p) <$> rest) q).
Proof.
  intros [Hrest _ Hend Hhy Hun ??????] Hs Hit -> Hok Hj Hsw Hr Hperm.
  assert (hydrated p = exempt (entry_of (hydrateEnd p) <$> gone) +
    exempt (entry_of (hydrateEnd p) <$> rest))%Z as Hsum.
  { by rewrite Hhy, Hit, (exempt_Permutation _ _ (fmap_Permutation _ _ _ Hperm)),
      fmap_app, exempt_app. }
  pose proof (exempt_nonneg (entry_of (hydrateEnd p) <$> rest)).
  rewrite dropHydrated_exempt by (simpl; lia).
  constructor; simpl; try done; [by exists rest|lia].
Qed.

Lemma heap_rel_untouched p q m n :
  heap_rel p q → untouched p (set_nextSeq n (set_h m p)) →
  heap_rel (set_nextSeq n (set_h m p)) q.
Proof.
  intros [Hrest Hit Hend Hhy Hun ??????] [Hc Hok Hj Hn _]. simpl in Hn. subst n.
  constructor; try done. by rewrite Hc.
Qed.

(** What the loop of Pop leaves, and what its restore would give back. *)
Lemma pop_loop_both p q s j k w e :
  heap_rel p q → ranked (nextSeq p) s (contents p) → j ≤ length s → k = WLocked →
  wp (pop_loop (Hlen p) j [])
    (λ out t, out = take j s ∧ ∃ m,
       t = Mach (set_nextSeq (nextSeq p) (set_h m p)) WLocked w e ∧
       slice_ok zeroSeq (items m) ∧ ranked (nextSeq p) (drop j s) (sl_contents (items m)) ∧
       heap_rel (set_nextSeq (nextSeq p) (set_h (rollback (Hlen p) out m) p)) q)
    (λ _ _, False) (Mach (set_h (journalOn (h p)) p) k w e).
Proof.
  intros Hr Hs Hj ->. pose proof (hr_rest _ _ Hr) as [Hok Hjw].
  assert (length s = Hlen p) as Hls.
  { destruct Hs as (_ & _ & -> & _). apply length_contents, Hok. }
  pose proof (pure_pop_loop p true WLocked w e (Hlen p) j [] (nextSeq p) s (contents p)
    (Mach (set_h (journalOn (h p)) p) WLocked w e)
    (rest_holds _ _ _ _ (hr_rest _ _ Hr)) Hs Hj) as Hpure.
  assert (inside p (contents p) WLocked e (nextSeq p) [] (Hlen p)
    (Mach (set_h (journalOn (h p)) p) WLocked w e)) as Hin.
  { exists (journalOn (h p)), w. split; [by destruct p|].
    split; [by apply mid_start|apply length_contents, Hok]. }
  pose proof (wp_pop_loop p e j [] (Hlen p) _ Hok Hin ltac:(simpl; lia) ltac:(lia)) as Hun.
  eapply wp_mono; [| |exact (wp_and _ _ _ _ _ _ Hpure Hun)]; [|by intros ? ? [[] _]].
  intros out t [[-> (l' & (m & -> & _ & Hm & <-) & Hr')] [_ (m' & w' & Heq & Hmid & _)]].
  injection Heq as Hm' _. subst m'. split; [done|]. exists m. split_and!; try done.
  apply heap_rel_untouched; [done|]. by apply untouched_rollback.
Qed.

Lemma heap_Pop_refines ctx n options :
  refines heap_rel (Heap.Pop ctx n options) (Contract.Pop ctx n options).
Proof.
  refine_start. unfold Heap.Pop, Contract.Pop. rstart. rloop. rauto.
  destruct (hr_items _ _ Hr) as (s & Hs & Hit).
  assert ((if (zlen (q_items q) <? n)%Z then Hlen b else Z.to_nat n) =
    Z.to_nat (n `min` zlen (q_items q))) as ->.
  { rewrite (hr_length _ _ Hr). unfold zlen. case_match; bool_to_prop; lia. }
  set (j := Z.to_nat (n `min` zlen (q_items q))).
  assert (j ≤ length s) as Hj.
  { pose proof (f_equal zlen Hit) as Hz. unfold j, zlen in *. rewrite length_fmap in Hz. lia. }
  apply rwp_updb_l. eapply rwp_wp_l; [by eapply pop_loop_both|].
  intros out t (-> & m & -> & Hok & Hrest & Hback). rstep.
  assert (e_item <$> take j (q_items q) = Item_ <$> take j s) as ->.
  { rewrite Hit, <- fmap_take, <- list_fmap_compose. done. }
  rewrite (hr_backup _ _ Hr) at 1. cbn [Machine.mb backup set_nextSeq set_h].
  pose proof (heap_rel_remove b q (journalOff m) _ (drop j s) (take j s) s Hr Hs Hit
    eq_refl Hok eq_refl eq_refl Hrest
    ltac:(by rewrite take_drop)) as Hrel.
  assert (entry_of (hydrateEnd b) <$> drop j s = drop j (q_items q)) as Hd
    by by rewrite Hit, fmap_drop.
  rewrite Hd in Hrel.
  destruct (backup b) as [bk|]; [apply rwp_bind, rwp_RunBackup; unfold restore|rstep].
  1: intros [e2|] w1; [apply rwp_assoc_l, rwp_updb_l; rrelate heap_rel; [exact Hback|]; by rauto|].
  2: intros w1; apply rwp_updb_l; rrelate heap_rel; [exact Hback|]; by rauto.
  all: apply rwp_updb_l, rwp_updb_l, rwp_updb_r; rrelate heap_rel; [exact Hrel|]; rauto.
Qed.

(** * Exists and Del *)

Lemma exists_loop_pure v se (l : list SI) (t : mach P W) :
  exists_loop v se l t =
  (e ← RunSideEffect se; mret (existsb (λ x, eqb x v) (Item_ <$> l), e)) t.
Proof.
  induction l as [|x l IH]; [done|]. destruct t as [b k w en].
  rewrite fmap_cons. cbn [exists_loop existsb].
  transitivity ((λ m : bool, if m then e ← RunSideEffect se; mret (true, e)
    else exists_loop v se l) (eqb (Item_ x) v) (Mach b k w en)).
  { unfold mbind at 1, go_bind at 1, call at 1. simpl. by rewrite Equal_pure. }
  cbv beta. by destruct (eqb (Item_ x) v).
Qed.

Lemma hr_Permutation p q : heap_rel p q → Item_ <$> contents p ≡ₚ e_item <$> q_items q.
Proof.
  intros Hr. destruct (hr_items _ _ Hr) as (s & (_ & _ & Hp & _) & ->).
  by rewrite <- list_fmap_compose, <- Hp.
Qed.

Lemma heap_Exists_refines ctx v options :
  refines heap_rel (Heap.Exists_ ctx v options) (Contract.Exists_ ctx v options).
Proof.
  refine_start. unfold Heap.Exists_, Contract.Exists_, rlocked, reading. rstart. rauto.
  eapply rwp_eval_r; [apply scan_pure|]. eapply rwp_ext_l; [apply exists_loop_pure|].
  rewrite (existsb_Permutation _ _ _ (hr_Permutation _ _ Hr)). rauto.
Qed.

Lemma del_loop_pure v kept removed (l : list SI) (t : mach P W) :
  del_loop v kept removed l t =
  (Done (kept ++ filter (λ x, matched v (Item_ x) = false) l,
         removed ++ filter (λ x, matched v (Item_ x) = true) l), t).
Proof.
  revert kept removed. induction l as [|x l IH]; intros kept removed; [by rewrite !app_nil_r|].
  cbn [del_loop]. unfold mbind, go_bind. rewrite MatchesAny_pure.
  destruct (matched v (Item_ x)) eqn:Hx.
  - rewrite IH, filter_cons_False, filter_cons_True by (by rewrite Hx). by rewrite <- app_assoc.
  - rewrite IH, filter_cons_True, filter_cons_False by (by rewrite Hx). by rewrite <- app_assoc.
Qed.

Lemma sorted_filter (g : SI → bool) s : sorted pless s → sorted pless (filter (λ x, g x = false) s).
Proof.
  unfold sorted. induction 1 as [|x s _ IH Hx]; [constructor|]. rewrite filter_cons.
  case_decide; [|done]. constructor; [done|]. by apply Forall_filtered.
Qed.

(** Keeping some of the entries and restoring the heap order. *)
Lemma ranked_filter (g : SI → bool) n s l :
  let kept := filter (λ x, g x = false) l in
  ranked n s l →
  ranked n (filter (λ x, g x = false) s) (init_list pless (length kept / 2) (length kept) kept).
Proof.
  intros kept (_ & Hs & Hp & Hseq). split_and!.
  - pose proof (init_heap pless pless_asym pless_le_trans kept) as Hh.
    by rewrite (Permutation_length (init_list_Permutation pless (length kept / 2) (length kept) kept)).
  - by apply sorted_filter.
  - rewrite init_list_Permutation. unfold kept. by rewrite Hp.
  - by apply Forall_filtered.
Qed.

Lemma Init_kept p q s (g : SI → bool) k w e :
  heap_rel p q → ranked (nextSeq p) s (contents p) → q_items q = entry_of (hydrateEnd p) <$> s →
  let kept := filter (λ x, g x = false) (contents p) in
  let gone := filter (λ x, g x = true) (contents p) in
  wp heap_Init
    (λ _ t, ∃ m, t = Mach (set_nextSeq (nextSeq p) (set_h m p)) k w e ∧
       heap_rel (dropHydrated (Seq <$> gone) (set_nextSeq (nextSeq p) (set_h m p)))
         (set_items (select false (g <$> s) (q_items q)) q))
    (λ _ _, False)
    (Mach (set_h (with_items
       (sl_append zeroSeq (sl_make zeroSeq 0 (Hlen p)) kept) (h p)) p) k w e).
Proof.
  intros Hr Hs Hit kept gone. pose proof (hr_rest _ _ Hr) as (Hok & Hj & Hsw).
  destruct (sl_append_ok zeroSeq (sl_make zeroSeq 0 (Hlen p)) kept) as [He Hok'].
  { by apply (slice_ok_intro _ [] (Hlen p)). }
  eapply wp_mono; [| |apply (pure_heap_Init p false k w e (nextSeq p) kept)]; [|done|].
  - intros _ t (m & -> & [Hjm Hsm] & Hokm & Hm). exists m. split; [done|].
    rewrite Hit, <- select_fmap, select_filter.
    eapply heap_rel_remove; try done; [by apply Hsm| |].
    + rewrite Hm. by apply ranked_filter.
    + destruct Hs as (_ & _ & Hp & _). etrans; [apply (filter_split g)|].
      unfold gone. by rewrite Hp.
  - exists (with_items (sl_append zeroSeq (sl_make zeroSeq 0 (Hlen p)) kept) (h p)).
    split; [by destruct p|]. done.
Qed.

Lemma heap_Del_refines ctx v options :
  refines heap_rel (Heap.Del ctx v options) (Contract.Del ctx v options).
Proof.
  refine_start. unfold Heap.Del, Contract.Del, locked, writing. rstart. rauto.
  eapply rwp_evals; [apply del_loop_pure|apply matching_pure|]. cbv beta iota. rewrite !app_nil_l.
  destruct (hr_items _ _ Hr) as (s & Hs & Hit).
  assert (e_item <$> q_items q = Item_ <$> s) as Hitems by (by rewrite Hit, <- list_fmap_compose).
  rewrite Hitems, <- list_fmap_compose, <- select_fmap, select_filter. unfold compose.
  pose proof (Init_kept b q s (λ x, matched v (Item_ x))) as Hinit. cbv zeta in Hinit.
  assert (s ≡ₚ contents b) as Hp by apply Hs.
  assert (∀ k : bool, filter (λ x : SI, matched v (Item_ x) = k) (contents b) ≡ₚ
    filter (λ x : SI, matched v (Item_ x) = k) s) as Hsame by (intros; by rewrite Hp).
  set (gone := filter (λ x : SI, matched v (Item_ x) = true) (contents b)) in *.
  assert (∀ l : list SI, zlen (Item_ <$> l) = zlen l) as Hzf by (intros; unfold zlen; by rewrite length_fmap).
  assert (zlen gone = zlen (Item_ <$> filter (λ x : SI, matched v (Item_ x) = true) s)) as Hz.
  { rewrite Hzf. unfold zlen, gone. by rewrite (Hsame true). }
  rewrite Hz. rstep; [rauto|]. rstep. rhelper; [|rdone]. destruct e1; [rauto|].
  do 2 rstep. rewrite (hr_backup b q) by done.
  2: by rauto.
  assert (Item_ <$> gone ≡ₚ Item_ <$> filter (λ x : SI, matched v (Item_ x) = true) s) as Hgone
    by by rewrite <- (Hsame true).
  destruct (backup b) as [bk|] eqn:Hbk;
    [rewrite (hr_unordered _ _ Hr bk Hbk ctx _ _ Hgone)|].
  all: clear Hgone Hz Hsame Hzf; rauto.
  all: apply rwp_updb_l; eapply rwp_wp_l; [by apply Hinit|].
  all: intros _ t (m & -> & Hrel).
  all: apply rwp_updb_l, rwp_updb_r; rrelate heap_rel; [exact Hrel|]; rauto.
Qed.

(** * Clear and All *)

Lemma heap_clear_rel p q :
  heap_rel p q →
  heap_rel (set_hydrated 0 (set_h (with_items
    (sl_trunc 0 (sl_clear zeroSeq 0 (Hlen p) (items (h p)))) (h p)) p)) (set_items [] q).
Proof.
  intros [(Hok & Hj & Hsw) (s & Hs & Hit) Hend Hhy Hun ??????].
  destruct (sl_reset_ok zeroSeq (items (h p)) Hok) as [He Hok'].
  constructor; simpl; try done. exists []. split; [|done].
  unfold contents. simpl. unfold Hlen. rewrite He. split_and!; try done; by constructor.
Qed.

Lemma heap_Clear_refines ctx options :
  refines heap_rel (Heap.Clear ctx options) (Contract.Clear ctx options).
Proof.
  refine_start. unfold Heap.Clear, Contract.Clear, locked, writing. rstart.
  rauto.
  all: apply rwp_updb_l, rwp_updb_l, rwp_updb_r; rrelate heap_rel; [by apply heap_clear_rel|rauto].
Qed.

Lemma heap_all_loop_refines ctx yield (l : list SI) :
  refines heap_rel (all_loop ctx yield l) (yield_all ctx yield (Item_ <$> l)).
Proof.
  induction l as [|x l IH]; refine_start; [simpl; rauto|]. rewrite fmap_cons. cbn [all_loop yield_all].
  rauto.
Qed.
Hint Resolve heap_all_loop_refines : backing_rel.

Lemma SliceStable_rel p q k w e :
  heap_rel p q →
  wp SliceStable
    (λ _ t, ∃ m, t = Mach (set_nextSeq (nextSeq p) (set_h m p)) k w e ∧
       Item_ <$> sl_contents (items m) = e_item <$> q_items q ∧
       ranked (nextSeq p) (sl_contents (items m)) (contents p) ∧
       heap_rel (set_nextSeq (nextSeq p) (set_h m p)) q)
    (λ _ _, False) (Mach p k w e).
Proof.
  intros Hr. destruct (hr_items _ _ Hr) as (s & (Hh & Hs & Hp & Hseq) & Hit).
  destruct (hr_rest _ _ Hr) as (Hok & Hj & Hsw).
  eapply wp_mono; [| |apply (pure_SliceStable p false k w e (nextSeq p) s (contents p))];
    [|done| |done|done].
  - intros _ t (m & -> & [Hjm Hsm] & Hokm & Hm). exists m. split; [done|].
    split; [by rewrite Hm, Hit, <- list_fmap_compose|]. split; [by rewrite Hm|].
    destruct Hr. constructor; try done; [by split_and!; [|done|apply Hsm]|].
    exists s. split; [|done]. unfold contents. simpl. rewrite Hm.
    split_and!; try done. by apply sorted_heap; [apply pless_asym|].
  - exists (h p). split; [by destruct p|]. done.
Qed.

Lemma heap_All_refines ctx yield :
  refines heap_rel (Heap.All ctx yield) (Contract.All true ctx yield).
Proof.
  refine_start. unfold Heap.All, Contract.All, locked, writing. rauto.
  eapply rwp_wp_l; [by apply SliceStable_rel|]. intros _ t (m & -> & Hcont & _ & Hrel).
  rstep. unfold contents. simpl h. rewrite <- Hcont. rrelate heap_rel; [exact Hrel|]. rauto.
Qed.

(** * Hydrate *)

(** While the backup is read into a fresh heap: the entries sit in the array in no order yet. *)
Record loading p q : Prop := {
  ld_rest : at_rest p;
  ld_items : ∃ s, sorted pless s ∧ s ≡ₚ contents p ∧ Forall (λ x, Seq x < nextSeq p)%Z s ∧
                  q_items q = (λ x, Entry (Item_ x) true) <$> s;
  ld_count : hydrated p = zlen (contents p);
  ld_nextSeq : (0 ≤ nextSeq p)%Z;
  ld_backup : backup p = None;
  ld_fields : q_maxSize q = maxSize p ∧ q_inflight q = inflight p ∧ q_notFull q = notFull p ∧
              q_notEmpty q = notEmpty p ∧ q_closed q = closed p ∧ q_backup q = backup p;
}.

Lemma loading_fresh p q : heap_rel p q → q_items q = [] → backup p = None → (0 ≤ nextSeq p)%Z → loading p q.
Proof.
  intros [Hrest (s & (_ & Hs & Hp & Hseq) & Hit) Hend Hhy Hun ??????] Hq Hb Hn.
  assert (s = []) as -> by (rewrite Hq in Hit; symmetry in Hit; by apply fmap_nil_inv in Hit).
  apply Permutation_nil_l in Hp. constructor; try done.
  - exists []. rewrite <- Hp. done.
  - by rewrite Hhy, Hq, <- Hp.
Qed.

Lemma loading_push v p q :
  loading p q →
  let p' := set_h (with_items (sl_append zeroSeq (items (h p)) [MkSeqItem (nextSeq p) v]) (h p)) p in
  let p'' := set_nextSeq (nextSeq p' + 1) p' in
  loading (set_hydrated (hydrated p'' + 1) p'')
    (set_items (insert_entry ltb (Entry v true) (q_items q)) q).
Proof.
  intros [(Hok & Hj & Hsw) (s & Hs & Hp & Hseq & Hit) Hc Hn Hb Hf] p' p''.
  destruct (sl_append_ok zeroSeq (items (h p)) [MkSeqItem (nextSeq p) v] Hok) as [He Hok'].
  constructor; simpl; try done; [| |lia].
  - exists (insert_sorted pless (MkSeqItem (nextSeq p) v) s). unfold contents. simpl. rewrite He.
    split_and!.
    + apply insert_sorted_sorted; [apply pless_trans|done|]. intros y Hy Hle.
      rewrite Forall_forall in Hseq. specialize (Hseq y Hy).
      apply pless_total; [simpl; lia|done].
    + by rewrite insert_sorted_Permutation, Hp, Permutation_cons_append.
    + rewrite insert_sorted_Permutation. constructor; [simpl; lia|].
      eapply Forall_impl; [exact Hseq|]. simpl. lia.
    + rewrite Hit. by apply (insert_entry_sorted (λ x, Entry (Item_ x) true) (nextSeq p)).
  - unfold contents. simpl. rewrite He, zlen_app, Hc. done.
Qed.

Lemma hydrate_loop_loads ctx b steps p q k w :
  loading p q →
  rwp (hydrate_loop ctx b steps) (hydrate_from true ltb ctx b steps)
    (λ a1 a2 t1 t2, a1 = a2 ∧ mlk t1 = k ∧ mlk t2 = k ∧ (a1 = None → ∃ p q w, loading p q ∧
       t1 = Mach p k w [] ∧ t2 = Mach (Contract.set_backup (Some b) q) k w []))
    (λ t1 t2, mlk t1 = k ∧ mlk t2 = k) (Mach p k w []) (Mach q k w []).
Proof.
  revert p q w. induction steps as [|step steps IH]; intros p q w Hl; cbn [hydrate_loop hydrate_from].
  { apply rwp_ret. split_and!; [done..|]. intros _. by exists p, q, w. }
  apply rwp_bind, rwp_call; [|done]. intros [[v [e|]]|] w'; cbv iota.
  - by apply rwp_ret.
  - apply rwp_bind, rwp_ValidateKindOne; [|done]. intros [e|] w2; [by apply rwp_ret|].
    apply rwp_bind, rwp_call; [|done]. intros [e|] w3; [by apply rwp_ret|].
    rstep. do 3 apply rwp_updb_l. apply rwp_updb_r. apply IH. by apply loading_push.
  - apply rwp_ret. split_and!; [done..|]. intros _. by exists p, q, w'.
Qed.

(** Heapifying what was loaded gives a heap. *)
Lemma loaded_Init b p q k w :
  loading p q → unordered b →
  wp heap_Init
    (λ _ t, ∃ p', t = Mach p' k w [] ∧
       heap_rel (set_hydrateEnd (nextSeq p') (set_backup (Some b) p'))
         (Contract.set_backup (Some b) q))
    (λ _ _, False) (Mach p k w []).
Proof.
  intros [(Hok & Hj & Hsw) (s & Hs & Hp & Hseq & Hit) Hc Hn Hb Hf] Hun.
  eapply wp_mono; [| |apply (pure_heap_Init p false k w [] (nextSeq p) (contents p))]; [|done|].
  - intros _ t (m & -> & [Hjm Hsm] & Hokm & Hm). eexists. split; [done|].
    destruct_and! Hf. constructor; simpl; try done.
    + by split_and!; [|done|apply Hsm].
    + exists s. split.
      * unfold contents. simpl. rewrite Hm. split_and!; try done.
        -- rewrite (Permutation_length (init_list_Permutation pless _ _ _)).
           apply init_heap; [apply pless_asym|apply pless_le_trans].
        -- by rewrite init_list_Permutation.
      * rewrite Hit. apply list_fmap_ext. intros i x Hx. unfold entry_of. f_equal. symmetry.
        apply Z.ltb_lt. eapply Forall_lookup_1 in Hseq; done.
    + rewrite Hc, Hit. rewrite (exempt_Permutation _ ((λ x, Entry (Item_ x) true) <$> contents p)) by (by rewrite Hp).
      clear. induction (contents p) as [|x l IH]; [done|]. rewrite fmap_cons, exempt_cons, zlen_cons, IH. done.
    + intros b' [= <-]. done.
  - exists (h p). split; [by destruct p|]. done.
Qed.

Lemma heap_Hydrate_refines ctx b p q w :
  heap_rel p q → q_items q = [] → backup p = None → (0 ≤ nextSeq p)%Z → unordered b →
  rwp (Heap.Hydrate ctx b) (Contract.Hydrate true ltb ctx b)
    (λ a1 a2 t1 t2, a1 = a2 ∧ (a1 = None → mrel heap_rel t1 t2)) (λ _ _, True)
    (Mach p Unlocked w []) (Mach q Unlocked w []).
Proof.
  intros Hr Hq Hb Hn Hun. unfold Heap.Hydrate, Contract.Hydrate, locked, writing.
  apply rwp_bind. unfold rwp, Lock, acquire, interfere; simpl.
  pose proof (hydrate_loop_loads ctx b (bk_RangeAll b ctx) p q WLocked w
    (loading_fresh p q Hr Hq Hb Hn)) as Hloop.
  apply rwp_defer. unfold rwp in Hloop |- * at 1. unfold defer at 1. unfold mbind at 1, go_bind at 1.
  destruct (hydrate_loop ctx b _ _) as [[a1| | |] [p1 k1 w1 e1]],
    (hydrate_from true ltb ctx b _ _) as [[a2| | |] [q2 k2 w2 e2]]; try done.
  1: {
    destruct Hloop as (-> & Hk1 & Hk2 & Hnone). simpl in Hk1, Hk2. subst. destruct a2 as [e|]; [done|].
    destruct (Hnone eq_refl) as (p3 & q3 & w3 & Hl & [= -> -> ->] & [= -> -> ->]).
    pose proof (loaded_Init b p3 q3 WLocked w3 Hl Hun) as Hinit. unfold wp in Hinit.
    unfold mbind, go_bind. destruct (heap_Init _) as [[[]| | |] t]; try done.
    destruct Hinit as (p' & -> & Hrel). split; [done|]. by constructor. }
  all: simpl in *; destruct_and? Hloop; subst; by split_and!.
Qed.
End refinement.
