(* ===== verification/HeapFacts.v ===== *)
(** The heap backing, for items whose methods are pure: it implements the contract of a priority
    queue, and what follows for it in its own terms. *)

From Stdlib Require Import Sorting.Sorted.
From stdpp Require Import sorting.
From S2P Require Import Prelude Errors Machine Core Slice BinHeap Contract Logic Priority.
From S2P Require Import ContractFacts Interface Heap SeqOrder HeapJournal HeapRefines.

Section facts.
Context {W T : Type} `{!Item W T} `{!PureItem W T} `{!OrderLaws W T} `{!World W} `{!Grow}.

Abbreviation P := (Heap.Backing W T).
Abbreviation SI := (SeqItem T).
Implicit Types (p : Heap.Backing W T).

Definition heap_ops : Ops P W T :=
  MkOps Heap.Push Heap.Pop Heap.Peek Heap.Exists_ Heap.Del Heap.NotEmpty Heap.NotFull Heap.Len
    Heap.Close Heap.Clear Heap.All.

#[export] Instance heap_implements : Implements heap_rel heap_ops true true ltb.
Proof.
  split; simpl; try (intros; apply heap_Pop_refines; lia);
    eauto using heap_Push_refines, heap_Peek_refines, heap_Exists_refines, heap_Del_refines,
    heap_NotEmpty_refines, heap_NotFull_refines, heap_Len_refines, heap_Close_refines, heap_Clear_refines, heap_All_refines.
Qed.

(** The entries in the order they will be delivered. *)
Definition ranking (l : list SI) : list SI := sort_list pless (length l - 1) 1 l.
Definition delivery p : list T := Item_ <$> ranking (contents p).

(** The invariant of the backing: its array is a heap of entries no two of which tie, the journal is
    off, the restored entries are counted, and the bound and the wake-ups are kept. *)
Record heap_inv p : Prop := {
  hi_rest : at_rest p;
  hi_heap : heap_from pless 0 (length (contents p)) (contents p);
  hi_untied : sorted pless (ranking (contents p));
  hi_seqs : Forall (λ x, Seq x < nextSeq p)%Z (contents p);
  hi_end : (hydrateEnd p ≤ nextSeq p)%Z;
  hi_hydrated : hydrated p = zlen (filter (λ x, (Seq x <? hydrateEnd p)%Z = true) (contents p));
  hi_unordered : ∀ b, backup p = Some b → unordered b;
  hi_maxSize : (0 ≤ maxSize p)%Z;
  hi_bound : (0 < maxSize p)%Z → (Z.of_nat (Hlen p) - hydrated p + inflight p ≤ maxSize p)%Z;
  hi_inflight : (0 ≤ inflight p)%Z;
  hi_notFull : signal_ok (notFull p);
  hi_notEmpty : signal_ok (notEmpty p);
  hi_wake : contents p ≠ [] → sg_parked (notEmpty p) = [];
  hi_closed : closed p = true → sg_parked (notFull p) = [] ∧ sg_parked (notEmpty p) = [];
}.

Lemma ranking_Permutation l : ranking l ≡ₚ l.
Proof. apply sort_list_Permutation. Qed.

Lemma ranking_is n s l : ranked n s l → ranking l = s.
Proof. intros (_ & Hs & Hp & _). by apply (sort_list_is pless pless_asym pless_trans). Qed.

Lemma exempt_entries he (l : list SI) :
  exempt (entry_of he <$> l) = zlen (filter (λ x, (Seq x <? he)%Z = true) l).
Proof.
  induction l as [|x l IH]; [done|]. rewrite fmap_cons, exempt_cons, filter_cons, IH. simpl.
  destruct (Seq x <? he)%Z; simpl; [by rewrite zlen_cons|done].
Qed.

(** The queue a backing stands for. *)
Definition heap_queue p : QState W T :=
  MkQ (entry_of (hydrateEnd p) <$> ranking (contents p)) (maxSize p) (inflight p) (notFull p)
    (notEmpty p) (closed p) (backup p).

Lemma heap_rel_delivery p q : heap_rel p q → e_item <$> q_items q = delivery p.
Proof.
  intros Hr. destruct (hr_items _ _ Hr) as (s & Hs & ->). unfold delivery.
  by rewrite (ranking_is _ _ _ Hs), <- list_fmap_compose.
Qed.

Lemma heap_inv_of p q : heap_rel p q → Inv 0 q → heap_inv p.
Proof.
  intros Hr [Hm Hb Hi Hf He Hw Hc]. pose proof (hr_load p q Hr) as Hload.
  destruct Hr as [? (s & Hs & Hit) ? Hhy ? Hms Hin Hnf Hne Hcl _].
  pose proof (ranking_is _ _ _ Hs) as Hrk. destruct Hs as (Hh & Hs & Hp & Hseq).
  constructor; rewrite <- ?Hms, <- ?Hin, <- ?Hnf, <- ?Hne, <- ?Hcl; try done.
  - by rewrite Hrk.
  - by rewrite <- Hp.
  - rewrite Hhy, Hit, exempt_entries. unfold zlen. by rewrite Hp.
  - intros Hmax. specialize (Hb Hmax). lia.
  - intros Hl. apply Hw. intros Hnil. apply Hl. rewrite Hit in Hnil. apply fmap_nil_inv in Hnil.
    rewrite Hnil in Hp. symmetry. by apply Permutation_nil_l.
Qed.

Lemma heap_queue_rel p : heap_inv p → heap_rel p (heap_queue p).
Proof.
  intros []. constructor; try done.
  - exists (ranking (contents p)). split; [|done]. split_and!; try done.
    + apply ranking_Permutation.
    + by rewrite ranking_Permutation.
  - simpl. rewrite exempt_entries, hi_hydrated0. unfold zlen. by rewrite ranking_Permutation.
Qed.

Lemma heap_queue_inv p : heap_inv p → Inv 0 (heap_queue p).
Proof.
  intros Hp. pose proof (hr_load _ _ (heap_queue_rel p Hp)) as Hload.
  destruct Hp. constructor; simpl; try done.
  - intros Hmax. rewrite <- Hload. auto.
  - intros Hne. apply hi_wake0. intros Hl. apply Hne. by rewrite Hl.
Qed.

Lemma heap_inv_represents p : heap_inv p ↔ represents heap_rel p.
Proof.
  split; [|intros (q & Hr & HI); by eapply heap_inv_of].
  intros Hp. exists (heap_queue p). split; [by apply heap_queue_rel|by apply heap_queue_inv].
Qed.

Lemma heap_queue_items p : heap_inv p → e_item <$> q_items (heap_queue p) = delivery p.
Proof. intros Hp. by apply heap_rel_delivery, heap_queue_rel. Qed.

#[local] Opaque heap_queue.

(** * Properties *)

(** C2: The same for the heap backing with items whose methods are pure and lawful and a backup
    whose Del does not care in what order the items are listed: no operation, under any
    interference, misuses the lock, leaks it, or breaks the invariant (heap order, distinct ranks,
    journal off, bound, hydration count, wake-ups). *)
Theorem heap_safe (o : Op W T) (others : list (Op W T)) p w :
  heap_inv p → op_ok o → Forall op_ok others →
  wp (exec heap_ops o) (λ _ t, mlk t = Unlocked ∧ heap_inv (mb t))
    (λ u t, mlk t = Unlocked ∧ heap_inv (mb t) ∧ (u = None → menv t = []))
    (Mach p Unlocked w (others_of heap_ops others)).
Proof.
  intros Hf Ho Hos. eapply wp_mono; [| |apply (impl_safe heap_rel heap_ops true true ltb)];
    [| |by apply heap_inv_represents|done|done]; simpl.
  - intros _ t. by rewrite heap_inv_represents.
  - intros u t. by rewrite heap_inv_represents.
Qed.

(** Running alone: what the contract says, in terms of the delivery order. *)
Lemma heap_alone {A} (m : go P W A) (m' : go (QState W T) W A) ctx p w
    (K : A → mach (QState W T) W → Prop) (K' : A → mach P W → Prop) :
  refines heap_rel m m' → heap_inv p →
  (∀ s, outside (λ l, l = q_items (heap_queue p)) True ctx 0 s →
     wp m' K (gone (λ l, l = q_items (heap_queue p)) True ctx 0) s) →
  (∀ a p' q' w' e1 e2, heap_rel p' q' → K a (Mach q' Unlocked w' e2) → K' a (Mach p' Unlocked w' e1)) →
  (∀ a t, K a t → mlk t = Unlocked) →
  wp m K' (λ _ t, mlk t = Unlocked ∧ heap_inv (mb t) ∧ delivery (mb t) = delivery p)
    (Mach p Unlocked w []).
Proof.
  intros Href Hp Hwp HK Hlk.
  eapply wp_mono; [| |eapply (impl_alone _ m m' ctx (heap_queue p));
    [exact Href|by apply heap_queue_rel| |auto]]; simpl.
  - intros a [f k w' e1] ([q' k' w2 e2] & [Hb Hk Hw He] & Ha). simpl in *; subst.
    pose proof (Hlk _ _ Ha) as Hk; simpl in Hk; subst. eauto.
  - intros u t (Hk & q' & Hr & HI & Hit). split_and!; [done|by eapply heap_inv_of|].
    rewrite <- (heap_rel_delivery _ _ Hr), Hit. apply (heap_queue_items p Hp).
  - by apply heap_queue_inv.
Qed.

(** Push of the heap on its own places every item of the batch behind the items it does not
    come before when it returns nil and leaves the delivery order unchanged otherwise. *)
Theorem heap_push ctx vs options p w :
  heap_inv p →
  wp (Heap.Push ctx vs options)
    (λ e t, mlk t = Unlocked ∧ heap_inv (mb t) ∧
       delivery (mb t) = match e with None => arrive vs (delivery p) | Some _ => delivery p end)
    (λ _ t, mlk t = Unlocked ∧ heap_inv (mb t) ∧ delivery (mb t) = delivery p)
    (Mach p Unlocked w []).
Proof.
  intros Hp. eapply (heap_alone _ _ ctx); [apply heap_Push_refines|done|intros; by apply wp_Push| |].
  - simpl. intros e p' q' w' e1 e2 Hr He. rewrite <- (heap_rel_delivery _ _ Hr).
    destruct e as [e|]; [|destruct He as [(_ & HI & _ & l & -> & Hit)|[[] _]]; [|done]].
    + destruct He as (_ & [HI Hit] & _). split_and!; [done|by eapply heap_inv_of|].
      simpl in *. by rewrite Hit, heap_queue_items.
    + split_and!; [done|by eapply heap_inv_of|]. simpl in *.
      by rewrite Hit, insert_all_items, heap_queue_items.
  - intros [e|] t; [by intros []|]. intros [[]|[_ []]]; done.
Qed.

(** Pop of the heap on its own removes exactly the first min(n, length) items of the
    delivery order and returns them in it, waking the parked producers; on every error and unwind
    nothing is removed. *)
Theorem heap_pop ctx n options p w :
  (0 ≤ n)%Z → heap_inv p →
  wp (Heap.Pop ctx n options)
    (λ '(out, e) t, mlk t = Unlocked ∧ heap_inv (mb t) ∧
       match e with
       | None =>
           let k := Z.to_nat (Z.min n (zlen (delivery p))) in
           delivery p ≠ [] ∧ out = take k (delivery p) ∧ delivery (mb t) = drop k (delivery p) ∧
           sg_parked (notFull (mb t)) = []
       | Some _ => out = [] ∧ delivery (mb t) = delivery p
       end)
    (λ _ t, mlk t = Unlocked ∧ heap_inv (mb t) ∧ delivery (mb t) = delivery p)
    (Mach p Unlocked w []).
Proof.
  intros Hn Hp. eapply (heap_alone _ _ ctx);
    [by apply heap_Pop_refines|done|intros; by apply wp_Pop| |].
  - intros [out e] p' q' w' e1 e2 Hr He. simpl.
    rewrite <- (heap_rel_delivery _ _ Hr), <- (hr_notFull _ _ Hr), <- (heap_queue_items p Hp).
    destruct e as [e|].
    + destruct He as (-> & _ & [HI Hit] & _). split_and!; try done; [by eapply heap_inv_of|].
      simpl in *. by rewrite Hit.
    + destruct He as [(l & Hne & -> & _ & HI & _ & -> & Hit & Hpk)|[[] _]]; [|done].
      simpl in *. split_and!; try done; [by eapply heap_inv_of|..].
      * intros Hnil. by apply fmap_nil_inv in Hnil.
      * by rewrite <- fmap_take, zlen_fmap.
      * by rewrite Hit, <- fmap_drop, zlen_fmap.
  - intros [out [e|]] t; [by intros (_ & ? & _)|].
    intros [(l & _ & _ & [Hk _])|[_ [_ [Hk _]]]]; done.
Qed.

(** Del of the heap removes exactly the items equal to one of the given ones, keeps the
    delivery order of the others (the array is heapified again), and returns how many it removed. *)
Theorem heap_del ctx v options p w :
  heap_inv p →
  wp (Heap.Del ctx v options)
    (λ '(n, e) t, mlk t = Unlocked ∧ heap_inv (mb t) ∧
       match e with
       | None =>
           delivery (mb t) = filter (λ x, matched v x = false) (delivery p) ∧
           n = (zlen (delivery p) - zlen (delivery (mb t)))%Z ∧
           (n ≠ 0%Z → sg_parked (notFull (mb t)) = [])
       | Some _ => n = 0%Z ∧ delivery (mb t) = delivery p
       end)
    (λ _ t, mlk t = Unlocked ∧ heap_inv (mb t) ∧ delivery (mb t) = delivery p)
    (Mach p Unlocked w []).
Proof.
  intros Hp. eapply (heap_alone _ _ ctx);
    [by apply heap_Del_refines|done|intros; by apply wp_Del| |].
  - intros [n e] p' q' w' e1 e2 Hr He. simpl.
    rewrite <- (heap_rel_delivery _ _ Hr), <- (hr_notFull _ _ Hr), <- (heap_queue_items p Hp).
    destruct e as [e|].
    + destruct He as (-> & _ & [HI Hit] & _). split_and!; try done; [by eapply heap_inv_of|].
      simpl in *. by rewrite Hit.
    + destruct He as (l & ms & Hms & -> & Hend).
      pose proof (answered_length _ _ _ Hms) as Hlen. apply answered_pure in Hms as ->.
      assert (l = q_items (heap_queue p)) as -> by (by destruct Hend as [(_ & _ & ? & _)|(_ & _ & _ & ? & _)]).
      rewrite <- zlen_fmap with (f := e_item), select_fmap, <- select_matched, select_matched_count.
      destruct Hend as [((_ & [HI _] & _) & Hn & _ & Hit)|(_ & HI & _ & _ & Hit & Hpk)]; simpl in *.
      * rewrite <- zlen_fmap with (f := e_item), select_fmap in Hn.
        rewrite Hit, select_none by done. rewrite <- select_matched, select_none by done.
        split_and!; try done; [by eapply heap_inv_of|intros; lia].
      * rewrite Hit, select_fmap, <- select_matched. split_and!; try done; by eapply heap_inv_of.
  - intros [n [e|]] t; [by intros (_ & ? & _)|].
    intros (l & ms & _ & _ & [[[] _]|[]]); done.
Qed.

(** C3: For items whose methods are pure and lawful, batches pushed onto an empty open heap with
    room for them and no backup come out in a stable sort of what was pushed: a permutation, in
    priority order, with equal items in the order they were pushed; Pop returns its first n. *)
Theorem heap_order ctx bs n p w :
  heap_inv p → closed p = false → backup p = None → (0 ≤ n)%Z → contents p = [] →
  Forall (λ v, prio v ≠ 0%Z) (concat bs) →
  maxSize p = 0%Z ∨ (inflight p + zlen (concat bs) ≤ maxSize p)%Z → concat bs ≠ [] →
  ∃ l t, l ≡ₚ concat bs ∧ in_order l ∧
    (∀ v, filter (λ x, tied v x = true) l = filter (λ x, tied v x = true) (concat bs)) ∧
    (push_all heap_ops ctx bs;; Heap.Pop ctx n []) (Mach p Unlocked w []) =
    (Done (take (Z.to_nat (Z.min n (zlen l))) l, None), t).
Proof.
  intros Hp Hcl Hb Hn Hc Hok Hfit Hne.
  pose proof (heap_queue_rel p Hp) as Hr. pose proof (heap_queue_items p Hp) as Hit.
  assert (q_items (heap_queue p) = []) as Hq.
  { unfold delivery in Hit. rewrite Hc in Hit. by apply fmap_nil_inv in Hit. }
  pose proof (insert_all_items (concat bs) false (q_items (heap_queue p))) as Hl.
  rewrite Hq in Hl. simpl in Hl.
  assert (arrive (concat bs) [] ≡ₚ concat bs) as Hperm by by rewrite arrive_Permutation, app_nil_r.
  destruct (impl_push_pop heap_rel heap_ops true true ltb ctx bs n p (heap_queue p) w)
    as [t Ht]; try done; [by apply heap_Pop_refines|..].
  - split; [by rewrite (hr_closed _ _ Hr)|]. split; [by rewrite (hr_backup _ _ Hr)|].
    rewrite (hr_maxSize _ _ Hr), (hr_inflight _ _ Hr). split; apply Hp.
  - eapply Forall_impl; [exact Hok|]. intros v Hv. by apply Z.eqb_neq.
  - unfold fits. rewrite <- (hr_load _ _ Hr), (hr_maxSize _ _ Hr), (hr_len _ _ Hr),
      (hr_hydrated _ _ Hr), Hq. done.
  - rewrite Hq. intros Hnil. rewrite Hnil in Hl. apply Hne. apply Permutation_nil_r.
    by rewrite <- Hperm, <- Hl.
  - exists (arrive (concat bs) []), t. split_and!; [done| | |].
    + apply arrive_in_order. constructor.
    + intros v. rewrite arrive_tied by constructor. done.
    + etransitivity; [exact Ht|]. by rewrite Hq, fmap_take, <- zlen_fmap with (f := e_item), Hl.
Qed.

(** * AllCOW *)

(** The loop over a snapshot acts on the world only. *)
Lemma all_loop_world ctx yield (l : list SI) p w :
  ∃ o w', (∀ p k, all_loop ctx yield l (Mach p k w []) = (o, Mach p k w' [])) ∧
          (o = Done () ∨ ∃ u, o = Unwound u).
Proof.
  revert w. induction l as [|x l IH]; intros w; [eexists _, _; split; [done|by left]|]. simpl.
  unfold ctx_done, mbind, go_bind, updw, getw, mret, go_ret, call. simpl.
  destruct (ctx_cause ctx (tick w)); simpl.
  - destruct (yield zero _ (tick w)) as [[?|?] w']; eexists _, _; split; eauto.
  - destruct (yield (Item_ x) None (tick w)) as [[[]|?] w']; [apply IH|eexists _, _; split; eauto..].
Qed.

(** The copy is sorted as the array is. *)
Lemma place_sorted x prefix (t : mach P W) :
  sorted pless (reverse prefix) →
  (∀ y, y ∈ prefix → pless x y = false → pless y x = true) →
  ∃ prefix', place x prefix t = (Done prefix', t) ∧ sorted pless (reverse prefix') ∧
    prefix' ≡ₚ x :: prefix.
Proof.
  induction prefix as [|y prefix IH]; intros Hs Htot; cbn [place].
  { exists [x]. split_and!; [done|by repeat constructor|done]. }
  rewrite reverse_cons in Hs. pose proof Hs as Hs'. unfold sorted in Hs'.
  apply StronglySorted_app in Hs' as (Hyp & Hs' & _).
  assert (call (PrioritySeqLess x y) t = (Done (pless x y), t)) as Hcall.
  { destruct t. unfold call. simpl. by rewrite PrioritySeqLess_pure. }
  unfold mbind at 1, go_bind at 1. rewrite Hcall. destruct (pless x y) eqn:Hxy.
  - destruct IH as (prefix' & Hplace & Hs2 & Hp); [done|intros z Hz; apply Htot; by right|].
    unfold mbind, go_bind. rewrite Hplace. exists (y :: prefix'). split; [done|].
    rewrite reverse_cons. split.
    + apply StronglySorted_app. split_and!; [|done|by repeat constructor].
      intros z1 z2 Hz1 ->%list_elem_of_singleton. rewrite elem_of_reverse, Hp in Hz1.
      apply elem_of_cons in Hz1 as [->|Hz1]; [done|].
      apply Hyp; [by apply elem_of_reverse|by left].
    + rewrite Hp. by constructor.
  - exists (x :: y :: prefix). split_and!; [done| |done]. rewrite !reverse_cons.
    apply StronglySorted_app. split_and!; [|done|by repeat constructor].
    intros z1 z2 Hz1 ->%list_elem_of_singleton.
    assert (pless y x = true) as Hyx by (apply Htot; [by left|done]).
    apply elem_of_app in Hz1 as [Hz1| ->%list_elem_of_singleton]; [|done].
    eapply pless_trans; [|exact Hyx]. apply Hyp; [done|by left].
Qed.

Lemma sort_copy_sorted prefix l (t : mach P W) :
  sorted pless (reverse prefix) →
  (∀ x y, x ∈ prefix ++ l → y ∈ prefix ++ l → x ≠ y → pless x y = true ∨ pless y x = true) →
  NoDup (prefix ++ l) →
  ∃ s, sort_copy prefix l t = (Done s, t) ∧ sorted pless s ∧ s ≡ₚ prefix ++ l.
Proof.
  revert prefix. induction l as [|x l IH]; intros prefix Hs Htot Hnd; cbn [sort_copy].
  { exists (reverse prefix). split_and!; [done|done|]. by rewrite app_nil_r, reverse_Permutation. }
  destruct (place_sorted x prefix t Hs) as (prefix' & Hplace & Hs' & Hp).
  { intros y Hy Hxy. apply NoDup_app in Hnd as (_ & Hnd & _).
    destruct (Htot x y) as [?|?]; [apply elem_of_app; right; by left|apply elem_of_app; by left|
      |congruence|done]. intros ->. apply (Hnd y Hy). by left. }
  unfold mbind, go_bind. rewrite Hplace.
  assert (prefix' ++ l ≡ₚ prefix ++ x :: l) as Heq by by rewrite Hp, <- Permutation_middle.
  destruct (IH prefix') as (s & Hrun & Hss & Hsp); [done| |by rewrite Heq|].
  - intros a b. rewrite Heq. apply Htot.
  - exists s. split_and!; [done|done|]. by rewrite Hsp, Heq.
Qed.

Lemma sort_copy_ranking p (t : mach P W) :
  heap_inv p → sort_copy [] (contents p) t = (Done (ranking (contents p)), t).
Proof.
  intros Hp. pose proof (hi_untied p Hp) as Hs.
  pose proof (ranking_Permutation (contents p)) as Hperm.
  destruct (sort_copy_sorted [] (contents p) t) as (s & -> & Hs' & Hp').
  - constructor.
  - intros x y. simpl. rewrite <- Hperm. by apply sorted_total.
  - simpl. rewrite <- Hperm. by apply (sorted_NoDup pless pless_asym).
  - repeat f_equal. apply (sorted_unique pless pless_asym); [done..|]. by rewrite Hp', Hperm.
Qed.

(** The snapshot iteration of the heap yields what the locked iteration yields, with the
    same outcome and the same effect on the world, and leaves the heap untouched, while the locked
    one re-sorts the array in place and keeps the invariant and the delivery order. *)
Theorem heap_AllCOW ctx yield p w :
  heap_inv p →
  ∃ o w' p',
    Heap.AllCOW ctx yield (Mach p Unlocked w []) = (o, Mach p Unlocked w' []) ∧
    Heap.All ctx yield (Mach p Unlocked w []) = (o, Mach p' Unlocked w' []) ∧
    heap_inv p' ∧ delivery p' = delivery p ∧ (o = Done () ∨ ∃ u, o = Unwound u).
Proof.
  intros Hp. unfold Heap.AllCOW, Heap.All, locked, sortedSnapshot.
  destruct (closed p) eqn:Hcl.
  - unfold RLock, Lock, acquire, interfere, defer, mbind, go_bind, getb. simpl. rewrite Hcl.
    unfold release_held, RUnlock, call, mret, go_ret. simpl.
    destruct (yield zero _ w) as [[a|u] w']; eexists _, w', p; split_and!; eauto.
  - destruct (all_loop_world ctx yield (ranking (contents p)) p w) as (o & w' & Hloop & Ho).
    pose proof (SliceStable_rel p (heap_queue p) WLocked w [] (heap_queue_rel p Hp)) as Hsort.
    unfold wp in Hsort. unfold RLock, Lock, acquire, interfere, defer, mbind, go_bind, getb.
    simpl. rewrite Hcl. rewrite (sort_copy_ranking p _ Hp).
    unfold release_held, RUnlock, mret, go_ret. simpl. rewrite Hloop.
    destruct (SliceStable _) as [[[]| | |] t]; try done.
    destruct Hsort as (m & -> & _ & Hrk & Hr). unfold contents at 1. simpl.
    rewrite <- (ranking_is _ _ _ Hrk), Hloop.
    exists o, w', (set_nextSeq (nextSeq p) (set_h m p)). split_and!; [| | | |done].
    + destruct Ho as [-> |[u ->]]; done.
    + destruct Ho as [-> |[u ->]]; done.
    + eapply heap_inv_of; [exact Hr|by apply heap_queue_inv].
    + by rewrite <- (heap_rel_delivery _ _ Hr), heap_queue_items.
Qed.
End facts.
