(* ===== verification/Queue.v ===== *)
(** The public queue (queue.go) and its instrumentation (metrics.go): every operation of [Queue] over
    the operations of a backing, with the counters of its telemetry. *)

From S2P Require Import Prelude Errors Machine Core Contract Interface.

(** * Instrumentation *)

(** The operations of [instrumentedOps]. *)
Inductive qop :=
  | QPush | QPop | QPeek | QExists | QDel | QClear | QClose | QNotEmpty | QNotFull
  | QRangeAll | QRangeAllCOW.

#[export] Instance qop_eq_dec : EqDecision qop.
Proof. solve_decision. Defined.
#[export] Instance errKind_eq_dec : EqDecision errKind.
Proof. solve_decision. Defined.

(** The instruments of a named queue: the totals of queue.operations by operation, of
    queue.operation.errors by operation and kind, and of queue.depth, and the last depth recorded.
    The latency histogram and the spans hold no state the program reads back. *)
Record queueMetrics := MkMetrics {
  m_ops : qop → Z;
  m_errs : qop → errKind → Z;
  m_depth : Z;
  m_lastDepth : Z;
}.

Definition newQueueMetrics : queueMetrics := MkMetrics (λ _, 0%Z) (λ _ _, 0%Z) 0 0.

Definition count_op (o : qop) (m : queueMetrics) : queueMetrics :=
  MkMetrics (λ o', if bool_decide (o' = o) then m_ops m o' + 1 else m_ops m o')%Z
    (m_errs m) (m_depth m) (m_lastDepth m).

Definition count_err (o : qop) (k : errKind) (m : queueMetrics) : queueMetrics :=
  MkMetrics (m_ops m)
    (λ o' k', if bool_decide (o' = o ∧ k' = k) then m_errs m o' k' + 1 else m_errs m o' k')%Z
    (m_depth m) (m_lastDepth m).

(** [old := lastDepth.Swap(cur); depth.Add(cur-old)]. *)
Definition swap_depth (cur : Z) (m : queueMetrics) : queueMetrics :=
  MkMetrics (m_ops m) (m_errs m) (m_depth m + (cur - m_lastDepth m)) cur.

(** A world that carries the instruments of a queue, and the [rangeErr] of the iteration this
    goroutine is running. *)
Class Telemetry (W : Type) := {
  met : W → queueMetrics;
  set_met : queueMetrics → W → W;
  met_set_met m w : met (set_met m w) = m;
  rangeErr : W → option err;
  set_rangeErr : option err → W → W;
  rangeErr_set e w : rangeErr (set_rangeErr e w) = e;
  met_set_rangeErr e w : met (set_rangeErr e w) = met w;
}.

(** * The queue *)

(** What the queue calls besides the operations of [Ops]. *)
Record Setup (B W T : Type) := MkSetup {
  op_AllCOW : Ctx W → (T → option err → code W bool) → go B W unit;
  op_Hydrate : Ctx W → Backup W T → go B W (option err);
  op_SetMaxBatch : Z → B → B * option err;
  op_SetMaxSize : Z → B → B * option err;
}.
Arguments MkSetup {B W T} _ _ _ _.
Arguments op_AllCOW {B W T} _.
Arguments op_Hydrate {B W T} _.
Arguments op_SetMaxBatch {B W T} _.
Arguments op_SetMaxSize {B W T} _.

(** What stays fixed once a queue is built. [named] says that the name is not empty. *)
Record Queue (W T : Type) := MkQueue {
  qu_backup : option (Backup W T);
  qu_maxBatch : Z;
  qu_named : bool;
}.
Arguments MkQueue {W T} _ _ _.
Arguments qu_backup {W T} _.
Arguments qu_maxBatch {W T} _.
Arguments qu_named {W T} _.

(** [WithBackup] takes any value: [BadBackup] is one that is not a [Backup] of the item type. *)
Inductive AnyBackup (W T : Type) := NilBackup | BadBackup | GoodBackup (b : Backup W T).
Arguments NilBackup {W T}.
Arguments BadBackup {W T}.
Arguments GoodBackup {W T} _.

Record queueOptions (W T : Type) := MkQueueOptions {
  o_maxBatch : Z;
  o_backup : AnyBackup W T;
}.
Arguments MkQueueOptions {W T} _ _.
Arguments o_maxBatch {W T} _.
Arguments o_backup {W T} _.

Definition Option (W T : Type) : Type := queueOptions W T → queueOptions W T.

Section queue.
Context {B W T : Type} `{!Item W T} `{!World W} `{!Telemetry W} (ops : Ops B W T) (setup : Setup B W T).
Abbreviation M := (go B W).
Implicit Types (q : Queue W T).

Definition updm (f : queueMetrics → queueMetrics) : M unit := updw (λ w, set_met (f (met w)) w).

(** [instrument] and the [end] it defers. The flag [completed] is the difference between a call that
    returned, with whatever error, and one that unwound. *)
Definition instrument q (o : qop) : M unit := if qu_named q then updm (count_op o) else mret ().

Definition done_end q (o : qop) (e : option err) (completed : bool) : M unit :=
  if qu_named q then
    if completed then
      match e with
      | Some e => updm (count_err o (errorKind e))
      | None => mret ()
      end
    else updm (count_err o errKindUnwind)
  else mret ().

(** [completed := false; defer done.end(&err, &completed); body; completed = true]. *)
Definition ending {A} q (o : qop) (err_of : A → option err) (body : M A) : M A := λ s,
  match body s with
  | (Done a, t) => (done_end q o (err_of a) true;; mret a) t
  | (Unwound u, t) =>
      match done_end q o None false t with
      | (Done _, t') => (Unwound u, t')
      | (Unwound u', t') => (Unwound u', t')
      | (Fatal, t') => (Fatal, t')
      | (Parked, t') => (Parked, t')
      end
  | r => r
  end.

Definition instrumented {A} q (o : qop) (err_of : A → option err) (body : M A) : M A :=
  instrument q o;;
  ending q o err_of body.

Definition recordDepth q : M unit :=
  if qu_named q then cur ← op_Len ops; updm (swap_depth cur) else mret ().

(** * Construction *)

Definition WithMaxBatch (n : Z) : Option W T := λ o, MkQueueOptions n (o_backup o).
Definition WithBackup (b : AnyBackup W T) : Option W T := λ o, MkQueueOptions (o_maxBatch o) b.

Definition defaults : queueOptions W T := MkQueueOptions 1000 NilBackup.

Definition validateOptions (o : queueOptions W T) : option (Backup W T) + err :=
  if (o_maxBatch o <? 1)%Z
  then inr (Errorf "WithMaxBatch must be at least 1, got %d" [Sentinel ErrBadOption])
  else match o_backup o with
  | NilBackup => inl None
  | BadBackup =>
      inr (Errorf "WithBackup must be given a Backup[T] for the queue's item type"
             [Sentinel ErrBadOption])
  | GoodBackup b => inl (Some b)
  end.

(** One of the setters of the backing. *)
Definition set_up (f : B → B * option err) : M (option err) :=
  b ← getb;
  updb (λ _, (f b).1);;
  mret (f b).2.

(** [New]. [given] says that the backing is not nil. *)
Definition New (ctx : Ctx W) (named given : bool) (maxSize : Z) (options : list (Option W T))
    : M (Queue W T + err) :=
  if negb given then mret (inr (Errorf "backing cannot be nil" [Sentinel ErrBadOption])) else
  let opts := foldl (λ o option, option o) defaults options in
  match validateOptions opts with
  | inr e => mret (inr e)
  | inl backup =>
  let maxSize := if (maxSize <? 1)%Z then 0%Z else maxSize in
  iferr e := set_up (op_SetMaxBatch setup (o_maxBatch opts)) then mret (inr e) else
  iferr e := set_up (op_SetMaxSize setup maxSize) then mret (inr e) else
  let q := MkQueue backup (o_maxBatch opts) named in
  (if named then updm (λ _, newQueueMetrics) else mret ());;
  match backup with
  | None => recordDepth q;; mret (inl q)
  | Some b =>
      iferr e := RunLocked (op_Hydrate setup ctx b)
                   (op_Close ops ctx [];; call (bk_Close b ctx);; mret ())
      then
        be ← op_Close ops ctx [];
        ke ← call (bk_Close b ctx);
        match Join [Some e; be; WrapBackup ke] with
        | Some e => mret (inr e)
        | None => mret (inr e)
        end
      else recordDepth q;; mret (inl q)
  end
  end.

(** * Operations *)

Definition Close q (ctx : Ctx W) (options : list (OpOption W)) : M (option err) :=
  instrumented q QClose id (op_Close ops ctx options).

Definition NotEmpty q (ctx : Ctx W) (options : list (OpOption W)) : M (option err) :=
  instrumented q QNotEmpty id (op_NotEmpty ops ctx options).

Definition NotFull q (ctx : Ctx W) (options : list (OpOption W)) : M (option err) :=
  instrumented q QNotFull id (op_NotFull ops ctx options).

Definition push q (ctx : Ctx W) (vs : list T) (options : list (OpOption W)) : M (bool * option err) :=
  if (zlen vs =? 0)%Z then
    '(opts, oe) ← ResolveOpOptions CallPush options;
    match oe with
    | Some e => mret (false, Some e)
    | None =>
        match SideEffect opts with
        | None => mret (true, None)
        | Some se =>
            Lock;;
            e ← RunSideEffectLocked (Some se) Unlock;
            Unlock;;
            match e with
            | Some e => mret (false, Some e)
            | None => mret (true, None)
            end
        end
    end
  else if (qu_maxBatch q <? zlen vs)%Z then mret (false, Some (Sentinel ErrBatchTooLarge))
  else
    iferr e := op_Push ops ctx vs options then mret (false, Some e) else
    recordDepth q;;
    mret (true, None).

Definition Push q (ctx : Ctx W) (vs : list T) (options : list (OpOption W)) : M (bool * option err) :=
  instrumented q QPush snd (push q ctx vs options).

Definition Pop q (ctx : Ctx W) (n : Z) (options : list (OpOption W)) : M (list T * option err) :=
  if (n <? 1)%Z then gopanic else
  instrumented q QPop snd (
    '(items, e) ← op_Pop ops ctx n options;
    match e with
    | Some e => mret ([], Some e)
    | None => recordDepth q;; mret (items, None)
    end).

Definition Peek q (ctx : Ctx W) (options : list (OpOption W)) : M (T * bool * option err) :=
  instrumented q QPeek snd (op_Peek ops ctx options).

Definition Exists_ q (ctx : Ctx W) (v : T) (options : list (OpOption W)) : M (bool * option err) :=
  instrumented q QExists snd (op_Exists ops ctx v options).

Definition Del q (ctx : Ctx W) (v : list T) (options : list (OpOption W)) : M (Z * option err) :=
  instrumented q QDel snd (
    '(count, e) ← op_Del ops ctx v options;
    match e with
    | Some e => mret (0%Z, Some e)
    | None => recordDepth q;; mret (count, None)
    end).

Definition Len : M Z := op_Len ops.

Definition Clear q (ctx : Ctx W) (options : list (OpOption W)) : M (option err) :=
  instrumented q QClear id (
    iferr e := op_Clear ops ctx options then mret (Some e) else
    recordDepth q;;
    mret None).

(** The loop body the iteration hands to the backing. *)
Definition range_body (yield : T → option err → code W bool) : T → option err → code W bool :=
  λ v e w, yield v e (match e with Some _ => set_rangeErr e w | None => w end).

Definition range_with q (o : qop) (all : (T → option err → code W bool) → M unit)
    (yield : T → option err → code W bool) : M unit :=
  instrumented q o id (
    updw (set_rangeErr None);;
    all (range_body yield);;
    w ← getw;
    mret (rangeErr w));;
  mret ().

Definition RangeAll q (ctx : Ctx W) (yield : T → option err → code W bool) : M unit :=
  range_with q QRangeAll (op_All ops ctx) yield.

Definition RangeAllCOW q (ctx : Ctx W) (yield : T → option err → code W bool) : M unit :=
  range_with q QRangeAllCOW (op_AllCOW setup ctx) yield.
End queue.
