(* ===== verification/QueueFacts.v ===== *)
(** The public queue over any backing that implements the contract: safety under interference,
    what a push and a pop do, what the telemetry counts, and that a construction that fails leaves
    nothing open. *)

From S2P Require Import Prelude Errors Machine Core Contract Logic ContractFacts Interface Queue.

(** * Instrumentation in both logics *)

Section instrumentation.
Context {W T : Type} `{!Telemetry W}.
Implicit Types (q : Queue W T).

Definition with_world {B} (w : W) (t : mach B W) : mach B W := Mach (mb t) (mlk t) w (menv t).

(** Counting operations and errors leaves the gauge of the depth alone. *)
Definition same_depth (w w' : W) : Prop :=
  m_depth (met w') = m_depth (met w) ∧ m_lastDepth (met w') = m_lastDepth (met w).

Lemma wp_done_end_depth {B} q o e c (Q : unit → mach B W → Prop) U s :
  (∀ w, same_depth (mw s) w → Q () (with_world w s)) → wp (done_end q o e c) Q U s.
Proof.
  destruct s as [b k w en]. intros HQ.
  assert (same_depth w w) as Hrefl by done.
  unfold done_end. repeat case_match;
    first [apply wp_updw, HQ; unfold same_depth; simpl; by rewrite met_set_met|apply wp_ret, (HQ w), Hrefl].
Qed.

(** Postconditions that say nothing of the world but the depth do not see the instrumentation. *)
Lemma wp_instrumented {B A} q o f (m : go B W A) (Q : A → mach B W → Prop) U s :
  (∀ a t w, same_depth (mw t) w → Q a t → Q a (with_world w t)) →
  (∀ u t w, U u t → U u (with_world w t)) →
  (∀ w, wp m Q U (with_world w s)) → wp (instrumented q o f m) Q U s.
Proof.
  intros HQ HU Hm. destruct s as [b k w0 en]. unfold instrumented. apply wp_bind.
  assert (∀ w, wp (ending q o f m) Q U (Mach b k w en)) as Hend.
  { intros w. specialize (Hm w). unfold with_world in Hm. simpl in Hm. unfold ending.
    unfold wp in Hm |- * at 1. destruct (m _) as [[a|u| |] t]; try done.
    - enough (wp (done_end q o (f a) true;; mret a) Q U t) by done.
      apply wp_bind, wp_done_end_depth. intros w' Hw. apply wp_ret. by apply HQ.
    - enough (wp (done_end q o None false) (λ _ t', U (Some u) t') (λ _ _, False) t) as Hd.
      { unfold wp in Hd. by destruct (done_end _ _ _ _ t) as [[] t']. }
      apply wp_done_end_depth. intros w' _. by apply HU. }
  unfold instrument. destruct (qu_named q); [apply wp_updw|apply wp_ret]; apply Hend.
Qed.

Lemma rwp_done_end {B1 B2} q o e c (Q : unit → unit → mach B1 W → mach B2 W → Prop) U b1 b2 k w e1 e2 :
  (∀ w, Q () () (Mach b1 k w e1) (Mach b2 k w e2)) →
  rwp (done_end q o e c) (done_end q o e c) Q U (Mach b1 k w e1) (Mach b2 k w e2).
Proof.
  intros HQ. unfold done_end. repeat case_match; first [apply rwp_updw, HQ|apply rwp_ret, HQ].
Qed.

Lemma instrumented_refines {B1 B2 A} (R : B1 → B2 → Prop) q o (f : A → option err)
    (m1 : go B1 W A) (m2 : go B2 W A) :
  refines R m1 m2 → refines R (instrumented q o f m1) (instrumented q o f m2).
Proof.
  intros Hm [b1 k w e1] [b2 k2 w2 e2] Hs. pose proof Hs as [Hb Hk Hw He]. simpl in *. subst.
  assert (refines R (ending q o f m1) (ending q o f m2)) as Hend.
  { clear - Hm. intros s1 s2 Hs. specialize (Hm s1 s2 Hs). unfold ending, rwp in *.
    destruct (m1 s1) as [[a1|u1| |] t1], (m2 s2) as [[a2|u2| |] t2]; try done;
      destruct Hm as [-> Ht]; destruct t1, t2; pose proof Ht as [Hb Hk Hw He]; simpl in *; subst.
    - eapply (rwp_bind (done_end q o (f a2) true) (done_end q o (f a2) true)), rwp_done_end.
      intros w. apply rwp_ret. split; [done|by apply mrel_mach].
    - pose proof (rwp_done_end q o None false (λ _ _, mrel R) (λ _ _, False) mb mb0 mlk0 mw0 menv menv0) as Hd.
      unfold rwp in Hd. specialize (Hd ltac:(intros; by apply mrel_mach)).
      destruct (done_end _ _ _ _ (Mach mb _ _ _)) as [[] ?], (done_end _ _ _ _ _) as [[] ?]; try done.
      by destruct Hd. }
  unfold instrumented, instrument. destruct (qu_named q); apply rwp_bind.
  - apply rwp_updw. apply Hend. by apply mrel_mach.
  - apply rwp_ret. by apply Hend.
Qed.
End instrumentation.

(** * A call of one operation of the queue *)

Definition queue_exec {B W T} `{!Item W T} `{!Telemetry W} (ops : Ops B W T) (q : Queue W T)
    (o : Op W T) : go B W (Res T) :=
  match o with
  | OPush c vs o => '(ok, e) ← Queue.Push ops q c vs o; mret (RBool ok e)
  | OPop c n o => '(l, e) ← Queue.Pop ops q c n o; mret (RItems l e)
  | OPeek c o => '(v, ok, e) ← Queue.Peek ops q c o; mret (RItem v ok e)
  | OExists c v o => '(b, e) ← Queue.Exists_ ops q c v o; mret (RBool b e)
  | ODel c v o => '(n, e) ← Queue.Del ops q c v o; mret (RCount n e)
  | ONotEmpty c o => e ← Queue.NotEmpty ops q c o; mret (RErr e)
  | ONotFull c o => e ← Queue.NotFull ops q c o; mret (RErr e)
  | OLen => n ← Queue.Len ops; mret (RCount n None)
  | OClose c o => e ← Queue.Close ops q c o; mret (RErr e)
  | OClear c o => e ← Queue.Clear ops q c o; mret (RErr e)
  | OAll c y => Queue.RangeAll ops q c y;; mret (RErr None)
  end.

(** * Over the contract *)

Section contract.
Context {W T : Type} `{!Item W T} `{!World W} `{!Telemetry W}.
Context (priority excl : bool) (before : T → T → bool).
Context (P : list (entry T) → Prop) (latched : Prop) (ctx : Ctx W).
Abbreviation Q := (QState W T).
Abbreviation C := (contract_ops priority excl before).
Abbreviation outside := (outside P latched ctx).
Abbreviation gone := (gone P latched ctx).
Implicit Types (q : Queue W T).

Lemma outside_world r w (t : mach Q W) : outside r t → outside r (with_world w t).
Proof. done. Qed.
Lemma gone_world r u w (t : mach Q W) : gone r u t → gone r u (with_world w t).
Proof. done. Qed.

Lemma wp_instrumented_outside {A} q o (f : A → option err) (m : go Q W A) (K : A → mach Q W → Prop) r s :
  (∀ a t w, same_depth (mw t) w → K a t → K a (with_world w t)) → outside r s →
  (∀ s, outside r s → wp m K (gone r) s) → wp (instrumented q o f m) K (gone r) s.
Proof. intros HK Hs Hm. apply wp_instrumented; auto using gone_world, outside_world. Qed.

Lemma wp_recordDepth q r s (K : mach Q W → Prop) U :
  (0 ≤ r)%Z → outside r s → (∀ t, outside r t → K t) → wp (recordDepth C q) (λ _, K) U s.
Proof.
  intros Hr Hs HK. unfold recordDepth. destruct (qu_named q); [|by apply wp_ret, HK].
  apply wp_bind. eapply wp_mono; [| |by apply (wp_Len_exact P latched ctx r)]; [|done].
  intros n [b k w e] [Ht _]. apply wp_updw. by apply HK.
Qed.

(** An empty batch: only the options and the side effect run. *)
Lemma wp_push_empty q options r s :
  (0 ≤ r)%Z → outside r s →
  wp (push C q ctx [] options) (λ '(ok, e) t, ok = bool_decide (e = None) ∧ outside r t) (gone r) s.
Proof.
  intros Hr [Hk [HI He]]. destruct s as [b k w e]; simpl in *; subst. unfold push.
  unfold ResolveOpOptions. cbn [bool_decide decide_rel]. 
  simpl. apply wp_bind. apply wp_ret. destruct (apply_options _ _) as [opts [e'|]]; [by apply wp_ret|].
  destruct (SideEffect opts) as [se|]; [|by apply wp_ret].
  apply wp_bind, (wp_acquire (IP P) latched ctx r); [done..|].
  intros b' w' e' HI' He' _ _. repeat first [wstep|progress unfold RunLocked]; repeat (split; try done).
Qed.

(** The bare operation, then the depth. *)
Lemma wp_with_depth {A C} q (m : go Q W (A * option err)) (k : A → option err → go Q W C)
    (K : A * option err → mach Q W → Prop) (L : C → mach Q W → Prop) r s :
  wp m K (gone r) s →
  (∀ a e t, K (a, e) t → wp (k a e) L (gone r) t) →
  wp ('(a, e) ← m; k a e) L (gone r) s.
Proof.
  intros Hm Hk. apply wp_bind. eapply wp_mono; [| |exact Hm]; [|done]. intros [a e] t. apply Hk.
Qed.

Lemma wp_depth_ret {A} q (a : A) r s :
  (0 ≤ r)%Z → outside r s → wp (recordDepth C q;; mret a) (λ _ t, outside r t) (gone r) s.
Proof. intros Hr Hs. apply wp_bind, (wp_recordDepth _ r); [done..|]. intros t Ht. by apply wp_ret. Qed.
(** Whatever arrivals leave true, a push leaves true. *)
Lemma wp_push_keeps q vs options r s :
  (∀ l vs, P l → P (insert_all before vs false l)) → (0 ≤ r)%Z → outside r s →
  wp (push C q ctx vs options) (λ _ t, outside r t) (gone r) s.
Proof.
  intros HP Hr Hs. destruct vs as [|v vs].
  { eapply wp_mono; [| |by apply wp_push_empty]; [|done]. by intros [ok e] t [_ Ht]. }
  unfold push. rewrite (proj2 (Z.eqb_neq _ _)) by (rewrite zlen_cons; pose proof (zlen_nonneg vs); lia).
  destruct (qu_maxBatch q <? _)%Z; [by apply wp_ret|].
  apply wp_bind. eapply wp_mono; [| |by apply wp_Push]; [|done].
  intros [e|] t Ht; [by apply wp_ret|]. apply wp_depth_ret; [done|].
  destruct Ht as [(? & ? & ? & l & Hl & Hit)|[_ ?]]; [|done].
  split; [done|]. split; [|done]. split; [done|]. rewrite Hit. auto.
Qed.
End contract.

(** * Safety *)

Section safe.
Context {W T : Type} `{!Item W T} `{!World W} `{!Telemetry W}.
Context (priority excl : bool) (before : T → T → bool) (latched : Prop).
Abbreviation Q := (QState W T).
Abbreviation C := (contract_ops priority excl before).
Abbreviation any := (λ _ : list (entry T), True).
Implicit Types (q : Queue W T).

Lemma wp_queue_push q ctx vs options r s :
  (0 ≤ r)%Z → outside any latched ctx r s →
  wp (push C q ctx vs options) (λ _ t, outside any latched ctx r t) (gone any latched ctx r) s.
Proof. by apply wp_push_keeps. Qed.

(** An instrumented call in front of its result. *)
Lemma wp_call_op {A R} q o (f : A → option err) (m : go Q W A) (k : A → R) ctx r s :
  outside any latched ctx r s →
  (∀ s, outside any latched ctx r s →
     wp m (λ _ t, outside any latched ctx r t) (gone any latched ctx r) s) →
  wp (a ← instrumented q o f m; mret (k a)) (λ _ t, outside any latched ctx r t)
    (gone any latched ctx r) s.
Proof.
  intros Hs Hm. apply wp_bind. apply wp_instrumented_outside; [done..|].
  intros s' Hs'. eapply wp_mono; [| |by apply Hm]; [|done]. intros a t Ht. by apply wp_ret.
Qed.

Lemma wp_queue_Pop q ctx n options r s :
  (0 ≤ r)%Z → (0 ≤ n)%Z → outside any latched ctx r s →
  wp ('(items, e) ← Contract.Pop ctx n options;
      match e with
      | Some e => mret ([], Some e)
      | None => recordDepth C q;; mret (items, None)
      end) (λ _ t, outside any latched ctx r t) (gone any latched ctx r) s.
Proof.
  intros Hr Hn Hs. eapply wp_with_depth; [done|by apply wp_Pop|].
  intros l [e|] t Ht; [by apply wp_ret, Ht|]. apply wp_depth_ret; [done|].
  by destruct Ht as [(? & ? & ? & ? & ? & ? & _)|(_ & _ & ?)].
Qed.

Lemma wp_queue_Del q ctx v options r s :
  (0 ≤ r)%Z → outside any latched ctx r s →
  wp ('(count, e) ← Contract.Del ctx v options;
      match e with
      | Some e => mret (0%Z, Some e)
      | None => recordDepth C q;; mret (count, None)
      end) (λ _ t, outside any latched ctx r t) (gone any latched ctx r) s.
Proof.
  intros Hr Hs. eapply wp_with_depth; [done|by apply wp_Del|].
  intros n [e|] t Ht; [by apply wp_ret, Ht|]. apply wp_depth_ret; [done|].
  by destruct Ht as (? & ? & ? & ? & [(? & ? & ? & ?)|(? & ? & ? & _)]).
Qed.

Lemma wp_queue_Clear q ctx options r s :
  (0 ≤ r)%Z → outside any latched ctx r s →
  wp (iferr e := Contract.Clear ctx options then mret (Some e) else
      recordDepth C q;; mret None)
    (λ _ t, outside any latched ctx r t) (gone any latched ctx r) s.
Proof.
  intros Hr Hs. apply wp_bind. eapply wp_mono; [| |by apply wp_Clear]; [|done].
  intros [e|] t Ht; [by apply wp_ret|]. apply wp_depth_ret; [done|].
  by destruct Ht as [[? ?]|(? & ? & ? & ? & _)].
Qed.

Lemma wp_queue_All q ctx yield r s :
  (0 ≤ r)%Z → outside any latched ctx r s →
  wp (updw (set_rangeErr None);; Contract.All excl ctx (range_body yield);; w ← getw; mret (rangeErr w))
    (λ _ t, outside any latched ctx r t) (gone any latched ctx r) s.
Proof.
  intros Hr Hs. destruct s as [b k w e]. apply wp_bind, wp_updw, wp_bind.
  eapply wp_mono; [| |by apply wp_All]; [|done]. intros u t Ht. by apply wp_bind, wp_getw, wp_ret.
Qed.

(** Any operation of the queue, over the contract. *)
Lemma wp_queue_exec q (o : Op W T) r s :
  (0 ≤ r)%Z → outside any latched (op_ctx o) r s →
  wp (queue_exec C q o) (λ _ t, outside any latched (op_ctx o) r t)
    (gone any latched (op_ctx o) r) s.
Proof.
  intros Hr Hs. destruct o; simpl in *; try apply wp_pair_eta; try apply wp_triple_eta.
  - apply wp_call_op; [done|]. intros; by apply wp_queue_push.
  - unfold Queue.Pop. destruct (n <? 1)%Z eqn:Hn; [by apply wp_bind, wp_gopanic|]. bool_to_prop.
    apply wp_call_op; [done|]. intros; apply wp_queue_Pop; [done|lia|done].
  - apply wp_call_op; [done|]. intros s' Hs'. eapply wp_mono; [| |by apply wp_Peek]; [|done].
    by intros [[v ok] x] t1 [Ht _].
  - apply wp_call_op; [done|]. intros; by apply wp_Exists.
  - apply wp_call_op; [done|]. intros; by apply wp_queue_Del.
  - apply wp_call_op; [done|]. intros; by apply wp_NotEmpty.
  - apply wp_call_op; [done|]. intros; by apply wp_NotFull.
  - apply wp_bind. eapply wp_mono; [| |by apply wp_Len]; [|done]. intros ? ? [? _]; by apply wp_ret.
  - apply wp_call_op; [done|]. intros s' Hs'. eapply wp_mono; [| |by apply wp_Close]; [|done].
    by intros ? t [Ht _].
  - apply wp_call_op; [done|]. intros; by apply wp_queue_Clear.
  - apply wp_bind. apply (wp_call_op q QRangeAll id); [done|]. intros; by apply wp_queue_All.
Qed.
End safe.

(** * Over every backing *)

Section queue_implementation.
Context {B W T : Type} `{!Item W T} `{!World W} `{!Telemetry W} (R : B → QState W T → Prop)
  (ops : Ops B W T) (priority excl : bool) (before : T → T → bool).
Context `{!Implements R ops priority excl before}.
Abbreviation Q := (QState W T).
Abbreviation C := (contract_ops priority excl before).
Implicit Types (q : Queue W T).

Lemma recordDepth_refines q : refines R (recordDepth ops q) (recordDepth C q).
Proof.
  unfold recordDepth. destruct (qu_named q); [|apply refines_ret].
  apply refines_bind; [apply impl_Len|intros; apply refines_updw].
Qed.

Lemma push_refines q ctx vs options : refines R (push ops q ctx vs options) (push C q ctx vs options).
Proof.
  unfold push. destruct (zlen vs =? 0)%Z.
  { apply refines_bind; [apply refines_ResolveOpOptions|].
    intros [opts [e|]]; [apply refines_ret|]. destruct (SideEffect opts) as [se|]; [|apply refines_ret].
    apply refines_bind; [apply refines_acquire|]. intros _. 
    apply refines_bind; [apply refines_RunSideEffectLocked, refines_Unlock|].
    intros e. apply refines_bind; [apply refines_Unlock|]. intros _. destruct e; apply refines_ret. }
  destruct (qu_maxBatch q <? zlen vs)%Z; [apply refines_ret|].
  apply refines_bind; [apply impl_Push|]. intros [e|]; [apply refines_ret|].
  apply refines_bind; [apply recordDepth_refines|intros; apply refines_ret].
Qed.

Lemma queue_exec_refines q (o : Op W T) : refines R (queue_exec ops q o) (queue_exec C q o).
Proof.
  destruct o; simpl; try (apply refines_bind; [|intros; repeat split_match; apply refines_ret]).
  - apply instrumented_refines, push_refines.
  - unfold Queue.Pop. destruct (n <? 1)%Z eqn:Hn; [apply refines_gopanic|]. bool_to_prop.
    apply instrumented_refines, refines_bind; [apply impl_Pop; lia|]. intros [l [e|]]; [apply refines_ret|].
    apply refines_bind; [apply recordDepth_refines|intros; apply refines_ret].
  - apply instrumented_refines, impl_Peek.
  - apply instrumented_refines, impl_Exists.
  - apply instrumented_refines, refines_bind; [apply impl_Del|]. intros [n [e|]]; [apply refines_ret|].
    apply refines_bind; [apply recordDepth_refines|intros; apply refines_ret].
  - apply instrumented_refines, impl_NotEmpty.
  - apply instrumented_refines, impl_NotFull.
  - apply impl_Len.
  - apply instrumented_refines, impl_Close.
  - apply instrumented_refines, refines_bind; [apply impl_Clear|]. intros [e|]; [apply refines_ret|].
    apply refines_bind; [apply recordDepth_refines|intros; apply refines_ret].
  - apply refines_bind; [|intros; apply refines_ret].
    apply instrumented_refines, refines_bind; [apply refines_updw|]. intros _.
    apply refines_bind; [apply impl_All|]. intros _.
    apply refines_bind; [apply refines_getw|intros; apply refines_ret].
Qed.

(** Other goroutines using the same queue, each running one operation in a window of ours. *)
Definition queue_others q (others : list (Op W T)) : list (B → W → B * W) :=
  (λ o, run (queue_exec ops q o)) <$> others.

Lemma queue_rely q ctx others :
  rely (IP (λ _, True)) False ctx ((λ o, run (queue_exec C q o)) <$> others).
Proof.
  apply Forall_fmap. apply Forall_true. intros o. split; [|done].
  intros r b w Hr Hb. apply wp_run. 
  eapply wp_mono; [| |apply (wp_queue_exec priority excl before False q o r); [done|]].
  - intros ? t Ht. apply Ht.
  - intros ? t [Ht _]. apply Ht.
  - split; [done|]. split; [done|]. constructor.
Qed.

(** C6: Any operation of the public queue (copy-on-write iteration apart) over any backing that
    implements the contract, with the other goroutines running any operations of the same queue
    between its lock sections, never misuses the lock, gives it back however it ends, keeps the
    backing a valid queue, and stays parked only when nobody else acts. *)
Theorem queue_safe q (o : Op W T) others b w :
  represents R b →
  wp (queue_exec ops q o) (λ _ t, mlk t = Unlocked ∧ represents R (mb t))
    (λ u t, mlk t = Unlocked ∧ represents R (mb t) ∧ (u = None → menv t = []))
    (Mach b Unlocked w (queue_others q others)).
Proof.
  intros (q0 & Hr & HI).
  eapply wp_mono; [| |eapply refines_wp;
    [by apply queue_exec_refines
    |apply mrel_mach; [exact Hr|]
    |apply (wp_queue_exec priority excl before False q o 0); [done|]]].
  - intros ? t1 (t2 & Hm & Hout). destruct Hm as [Hb Hk _ _], Hout as (Hk' & [HI' _] & _).
    split; [by rewrite Hk|by eexists].
  - intros u t1 (t2 & Hm & [Hout He]). destruct Hm as [Hb Hk _ Henv], Hout as (Hk' & [HI' _] & _).
    split_and!; [by rewrite Hk|by eexists|]. intros Hu. rewrite (He Hu) in Henv.
    by apply Forall2_nil_inv_r in Henv.
  - apply Forall2_fmap_2, Forall_Forall2_diag, Forall_true. intros o'. apply refines_run, queue_exec_refines.
  - split; [done|]. split; [done|]. apply queue_rely.
Qed.
End queue_implementation.

(** * Running alone *)

Section depth.
Context {W T : Type} `{!Item W T} `{!World W} `{!Telemetry W}.
Context (priority excl : bool) (before : T → T → bool).
Abbreviation Q := (QState W T).
Abbreviation C := (contract_ops priority excl before).
Implicit Types (q : Queue W T).

(** The gauge of a named queue shows [n] items. *)
Definition shows q (n : Z) (w : W) : Prop := qu_named q = true → m_lastDepth (met w) = n.

(** With nobody interfering the recorded depth is the length, and nothing else happens. *)
Lemma wp_recordDepth_alone q (K : unit → mach Q W → Prop) U b w :
  (∀ w', shows q (zlen (q_items b)) w' → K () (Mach b Unlocked w' [])) →
  wp (recordDepth C q) K U (Mach b Unlocked w []).
Proof.
  intros HK. unfold recordDepth. destruct (qu_named q) eqn:Hn.
  - apply wp_bind. simpl. unfold Len, reading. repeat wstep. apply HK.
    intros _. by rewrite met_set_met.
  - apply wp_ret, HK. unfold shows. by rewrite Hn.
Qed.
End depth.

Section queue_alone.
Context {B W T : Type} `{!Item W T} `{!World W} `{!Telemetry W} (R : B → QState W T → Prop)
  (ops : Ops B W T) (priority excl : bool) (before : T → T → bool).
Context `{!Implements R ops priority excl before}.
Abbreviation Q := (QState W T).
Abbreviation C := (contract_ops priority excl before).
Implicit Types (q : Queue W T) (qs : QState W T).

(** The backing stands for a queue with these contents, and the lock is free. *)
Definition holds (l : list (entry T)) (t : mach B W) : Prop :=
  mlk t = Unlocked ∧ ∃ qs, R (mb t) qs ∧ Inv 0 qs ∧ q_items qs = l.

Abbreviation same qs := (λ l, l = q_items qs).

(** From the contract, with what the caller left in the gauge. *)
Lemma impl_instrumented {A} q o (f : A → option err) (m : go B W A) (m' : go Q W A) ctx qs b w
    (K : A → list (entry T) → W → Prop) :
  refines R m m' → R b qs → Inv 0 qs →
  (∀ a l w w', same_depth w w' → K a l w → K a l w') →
  (∀ w, outside (same qs) True ctx 0 (Mach qs Unlocked w []) →
     wp m' (λ a t, mlk t = Unlocked ∧ Inv 0 (mb t) ∧ K a (q_items (mb t)) (mw t))
       (gone (same qs) True ctx 0) (Mach qs Unlocked w [])) →
  wp (instrumented q o f m)
    (λ a t, ∃ l, holds l t ∧ K a l (mw t)) (λ _ t, holds (q_items qs) t) (Mach b Unlocked w []).
Proof.
  intros Href Hr HI HK Hm. apply wp_instrumented.
  - intros a t w' Hw (l & [Hk Hl] & Ha). exists l. split; [done|]. by eapply HK.
  - intros u t w' [Hk Hl]. done.
  - intros w'. eapply wp_mono; [| |exact (impl_alone R m m' ctx qs b w' _ Href Hr HI (Hm w'))]; simpl.
    + intros a t1 (t2 & [Hb Hk Hw _] & Hk2 & HI2 & Ha). exists (q_items (mb t2)).
      split; [|by rewrite Hw]. split; [by rewrite Hk|by exists (mb t2)].
    + intros u t1 (Hk & q' & ? & ? & ?). split; [done|by exists q'].
Qed.

Lemma queue_push_effect q ctx vs options b qs w :
  R b qs → Inv 0 qs →
  wp (Queue.Push ops q ctx vs options)
    (λ '(ok, e) t, ok = bool_decide (e = None) ∧
       match e with
       | None =>
           (vs = [] ∨ (zlen vs ≤ qu_maxBatch q)%Z) ∧
           holds (insert_all before vs false (q_items qs)) t ∧
           (vs ≠ [] → shows q (zlen (q_items qs) + zlen vs) (mw t))
       | Some _ => holds (q_items qs) t
       end)
    (λ _ t, holds (q_items qs) t) (Mach b Unlocked w []).
Proof.
  intros Hr HI. unfold Queue.Push.
  eapply wp_mono; [| |apply (impl_instrumented q QPush snd _ (push C q ctx vs options) ctx qs _ _
    (λ '(ok, e) l w, ok = bool_decide (e = None) ∧
       match e with
       | None => (vs = [] ∨ (zlen vs ≤ qu_maxBatch q)%Z) ∧ l = insert_all before vs false (q_items qs) ∧
           (vs ≠ [] → shows q (zlen (q_items qs) + zlen vs) w)
       | Some _ => l = q_items qs
       end)); [by apply push_refines|done..| |]]; [|done| |].
  - intros [ok [e|]] t (l & Hl & -> & Hcase); split; try done; [by rewrite <- Hcase|].
    by destruct Hcase as (? & <- & ?).
  - intros [ok [e|]] l w1 w2 [_ Hd]; [done|]. intros (? & ? & ? & Hs).
    split_and!; try done. intros ? Hn. rewrite Hd. by apply Hs.
  - clear w. intros w Hout. destruct vs as [|v vs].
    { eapply wp_mono; [| |by apply wp_push_empty]; [|done].
      intros [ok e] t [-> (Hk & [HI' Hl] & _)]. split_and!; try done. destruct e; [done|].
      split; [by left|]. done. }
    remember (v :: vs) as vs' eqn:Hvs'.
    unfold push. rewrite (proj2 (Z.eqb_neq _ _)) by (subst; rewrite zlen_cons; pose proof (zlen_nonneg vs); lia).
    destruct (qu_maxBatch q <? _)%Z eqn:Hmax; [by apply wp_ret|]. bool_to_prop.
    apply wp_bind. eapply wp_mono; [| |eapply wp_alone; [apply consumes_Push|done|by apply wp_Push]];
      [|by intros ? ? [? _]].
    intros [e|] [b' k' w' e'] [Ht He]; simpl in He; subst e'.
    { destruct Ht as (Hk & [HI' Hl] & _). by apply wp_ret. }
    destruct Ht as [(Hk & HI' & _ & l & -> & Hl)|[Hn _]]; [|done]. simpl in *. subst k'.
    apply wp_bind, wp_recordDepth_alone. intros w2 Hw2. apply wp_ret. simpl.
    split_and!; try done; [by right|]. intros _ Hn. rewrite (Hw2 Hn), Hl. unfold zlen.
    rewrite (Permutation_length (insert_all_Permutation _ _ _ _)), length_app, length_fmap. lia.
Qed.

(** C29: Push of the public queue returns ok exactly when its error is nil; then the batch was
    empty or within the batch limit, it stands behind what it does not come before, and the depth
    gauge of a named queue shows the new length; on an error, an unwind or a wait without end the
    contents are unchanged. *)
Theorem queue_push q ctx vs options b qs w :
  R b qs → Inv 0 qs →
  wp (Queue.Push ops q ctx vs options)
    (λ '(ok, e) t, ok = bool_decide (e = None) ∧
       match e with
       | None =>
           (vs = [] ∨ (zlen vs ≤ qu_maxBatch q)%Z) ∧
           holds (insert_all before vs false (q_items qs)) t ∧
           (vs ≠ [] → shows q (zlen (q_items qs) + zlen vs) (mw t))
       | Some _ => holds (q_items qs) t
       end)
    (λ _ t, holds (q_items qs) t) (Mach b Unlocked w []).
Proof. apply queue_push_effect. Qed.

(** C30: Pop of the public queue with n at least 1 returns on a nil error between 1 and n items,
    the first of the queue in order, removes exactly those and records the new depth; on an error it
    returns none, and then as on an unwind nothing is removed. *)
Theorem queue_pop q ctx n options b qs w :
  R b qs → Inv 0 qs → (1 ≤ n)%Z →
  wp (Queue.Pop ops q ctx n options)
    (λ '(items, e) t,
       match e with
       | None =>
           let k := Z.to_nat (Z.min n (zlen (q_items qs))) in
           items = e_item <$> take k (q_items qs) ∧ (1 ≤ zlen items ≤ n)%Z ∧
           holds (drop k (q_items qs)) t ∧ shows q (zlen (q_items qs) - zlen items) (mw t)
       | Some _ => items = [] ∧ holds (q_items qs) t
       end)
    (λ _ t, holds (q_items qs) t) (Mach b Unlocked w []).
Proof.
  intros Hr HI Hn. unfold Queue.Pop. rewrite (proj2 (Z.ltb_ge _ _)) by done.
  set (k := Z.to_nat (Z.min n (zlen (q_items qs)))).
  eapply wp_mono; [| |apply (impl_instrumented q QPop snd _
    ('(items, e) ← Contract.Pop ctx n options;
     match e with Some e => mret ([], Some e) | None => recordDepth C q;; mret (items, None) end) ctx qs _ _
    (λ '(items, e) l w,
       match e with
       | None => items = e_item <$> take k (q_items qs) ∧ (1 ≤ zlen items ≤ n)%Z ∧
           l = drop k (q_items qs) ∧ shows q (zlen (q_items qs) - zlen items) w
       | Some _ => items = [] ∧ l = q_items qs
       end)); [|done..| |]]; [|done| | |].
  - intros [items [e|]] t (l & Hl & Hcase); [by destruct Hcase as (-> & <-)|].
    by destruct Hcase as (-> & ? & <- & ?).
  - apply refines_bind; [by apply impl_Pop; lia|]. intros [l [e|]]; [apply refines_ret|].
    apply refines_bind; [by eapply recordDepth_refines|intros; apply refines_ret].
  - intros [items [e|]] l w1 w2 [_ Hd]; [done|]. intros (? & ? & ? & Hs).
    split_and!; try done; try lia. intros Hnm. rewrite Hd. by apply Hs.
  - clear w. intros w Hout. apply wp_bind.
    eapply wp_mono; [| |eapply wp_alone; [apply consumes_Pop|done|by apply wp_Pop]];
      [|by intros ? ? [? _]].
    intros [items [e|]] [b' k' w' e'] [Ht He]; simpl in He; subst e'.
    { destruct Ht as (-> & Hk & [HI' Hl] & _). by apply wp_ret. }
    destruct Ht as [(l & Hne & -> & Hk & HI' & _ & -> & Hl & _)|(Ht & _)]; [|done]. simpl in *. subst k'.
    assert (1 ≤ zlen (q_items qs))%Z as H1.
    { destruct (q_items qs); [done|]. rewrite zlen_cons. pose proof (zlen_nonneg l). lia. }
    assert (zlen (e_item <$> take k (q_items qs)) = Z.min n (zlen (q_items qs))) as Hlen.
    { unfold zlen in *. autorewrite with golen. lia. }
    apply wp_bind, wp_recordDepth_alone. intros w2 Hw2. apply wp_ret. simpl.
    fold k. rewrite Hlen. split_and!; try done; [lia..|]. intros Hnm. rewrite (Hw2 Hnm), Hl.
    unfold zlen, k in *. autorewrite with golen. lia.
Qed.
End queue_alone.

(** * What the telemetry counts *)

Section telemetry.
Context {B W T : Type} `{!Telemetry W}.
Implicit Types (q : Queue W T) (w : W).

(** The kind of failure a call that came to this end is counted under, if any: that of the error it
    returned, or the kind of a call that unwound. *)
Definition failure {A} (err_of : A → option err) (r : outcome A) : option errKind :=
  match r with
  | Done a => errorKind <$> err_of a
  | Unwound _ => Some errKindUnwind
  | _ => None
  end.

(** What was counted between two worlds, by operation, and by operation and kind of failure. *)
Definition ops_counted (w w' : W) (o : qop) : Z := (m_ops (met w') o - m_ops (met w) o)%Z.
Definition errs_counted (w w' : W) (o : qop) (k : errKind) : Z := (m_errs (met w') o k - m_errs (met w) o k)%Z.

Lemma counted_op w o o' :
  m_ops (met (set_met (count_op o (met w)) w)) o' =
  (m_ops (met w) o' + if bool_decide (o' = o) then 1 else 0)%Z.
Proof. rewrite met_set_met. simpl. case_bool_decide; lia. Qed.

Lemma blamed_err w o k o' k' :
  m_errs (met (set_met (count_err o k (met w)) w)) o' k' =
  (m_errs (met w) o' k' + if bool_decide (o' = o ∧ Some k' = Some k) then 1 else 0)%Z.
Proof. rewrite met_set_met. simpl. repeat case_bool_decide; naive_solver lia. Qed.

(** C39: An instrumented call of a named queue counts once as its operation, and once as a
    failure of that operation exactly when it returned an error or unwound out of caller code, of
    the kind of that error or of the kind of an unwind: over and above whatever the other operations
    and caller code that run during the call have counted, no other count moves. The call's outcome,
    backing, lock and depth gauge are those of the operation itself. *)
Theorem instrumented_counts {A} q o (f : A → option err) (m : go B W A) s :
  qu_named q = true →
  let s0 := with_world (set_met (count_op o (met (mw s))) (mw s)) s in
  let t := m s0 in
  let r := instrumented q o f m s in
  r.1 = t.1 ∧
  (mb r.2 = mb t.2 ∧ mlk r.2 = mlk t.2 ∧ menv r.2 = menv t.2 ∧ same_depth (mw t.2) (mw r.2)) ∧
  ∀ o',
    ops_counted (mw s) (mw r.2) o' = (ops_counted (mw s0) (mw t.2) o' + if bool_decide (o' = o) then 1 else 0)%Z ∧
    ∀ k, errs_counted (mw s) (mw r.2) o' k =
      (errs_counted (mw s0) (mw t.2) o' k + if bool_decide (o' = o ∧ Some k = failure f t.1) then 1 else 0)%Z.
Proof.
  intros Hn. destruct s as [b k w e].
  unfold instrumented, instrument, ending, done_end, with_world, ops_counted, errs_counted, same_depth. rewrite Hn.
  simpl. unfold mbind, go_bind. simpl. set (w0 := set_met (count_op o (met w)) w).
  assert (∀ o' k', m_errs (met w0) o' k' = m_errs (met w) o' k') as H1
    by (intros o' k'; unfold w0; by rewrite met_set_met).
  destruct (m (Mach b k w0 e)) as [[a|u| |] [b' k' w' e']]; simpl; [destruct (f a) eqn:Hf; simpl| | |];
    split_and!; rewrite ?Hf, ?met_set_met; try done; intros o'; (split; [|intros k0]);
    rewrite ?H1, ?blamed_err, ?(counted_op w), ?met_set_met; simpl; unfold w0; rewrite ?counted_op;
    repeat case_bool_decide; try lia; naive_solver.
Qed.
End telemetry.

(** * Whose fault it is *)

Lemma Is_wrapped m e (t : sentinel) es : e ∈ es → Is e t = true → Is (Errorf m es) t = true.
Proof. intros He Ht. simpl. apply existsb_exists. exists e. by rewrite <- list_elem_of_In. Qed.

(** The kinds of failure that name caller code. *)
Definition blames_caller (e : err) : Prop := errorKind e ≠ errKindQueue.

Lemma blames_tag m s e : s ∈ caller_sentinels → blames_caller (Errorf m [Sentinel s; e]).
Proof.
  intros Hs Hq. rewrite errorKind_queue_iff, Forall_forall in Hq. specialize (Hq s Hs).
  rewrite (Is_wrapped _ (Sentinel s)) in Hq; [done|by left|]. simpl. unfold sentinel_is.
  by rewrite bool_decide_true.
Qed.

Section blame.
Context {B W : Type}.

(** Every value a program can return. *)
Definition returns {A} (m : go B W A) (P : A → Prop) : Prop :=
  ∀ s a t, m s = (Done a, t) → P a.

Lemma returns_bind {A C} (m : go B W A) (k : A → go B W C) (P : A → Prop) (Q : C → Prop) :
  returns m P → (∀ a, P a → returns (k a) Q) → returns (m ≫= k) Q.
Proof.
  intros Hm Hk s c t. unfold mbind, go_bind. destruct (m s) as [[a| | |] t'] eqn:E; try done.
  intros Hc. eapply Hk, Hc. by eapply Hm.
Qed.
Lemma returns_ret {A} (a : A) (P : A → Prop) : P a → returns (mret a : go B W A) P.
Proof. by intros HP s a' t [= <- _]. Qed.
Lemma returns_any {A} (m : go B W A) : returns m (λ _, True).
Proof. done. Qed.

(** Nil, or an error of which [P] holds. *)
Definition errs (P : err → Prop) (e : option err) : Prop := match e with Some e => P e | None => True end.

Lemma returns_tagged m (f : go B W (option err)) (s : sentinel) :
  s ∈ caller_sentinels →
  returns (iferr e := f then mret (Some (Errorf m [Sentinel s; e])) else mret None) (errs blames_caller).
Proof.
  intros Hs. apply (returns_bind _ _ (λ _, True)); [done|].
  intros [e|] _; apply returns_ret; [by apply blames_tag|done].
Qed.

(** An error that came out of a backup, a side effect or an admission hook is never
    classified as a failure of the queue itself, and a backup's failure is always classified as one.
    *)
Theorem caller_blame (f : code W (option err)) (release : go B W unit) (inflight : lens B Z) n
    (notFull : lens B Signal) :
  returns (RunBackup f release) (errs (λ e, errorKind e = errKindBackup)) ∧
  returns (RunSideEffect (Some f)) (errs blames_caller) ∧
  returns (RunSideEffectLocked (Some f) release) (errs blames_caller) ∧
  returns (RunOnAdmit inflight n notFull f) (errs blames_caller).
Proof.
  split_and!.
  - apply (returns_bind _ _ (λ _, True)); [done|]. intros [e|] _; by apply returns_ret.
  - apply returns_tagged. repeat first [left|right].
  - apply returns_tagged. repeat first [left|right].
  - unfold RunOnAdmit. do 2 (apply (returns_bind _ _ (λ _, True)); [done|]; intros _ _).
    apply (returns_bind _ _ (λ _, True)); [done|]. intros e _.
    do 2 (apply (returns_bind _ _ (λ _, True)); [done|]; intros _ _).
    destruct e as [e|]; [|by apply returns_ret].
    apply (returns_bind _ _ (λ _, True)); [done|]. intros _ _. apply returns_ret.
    apply blames_tag. repeat first [left|right].
Qed.
End blame.
