(* ===== verification/QueueNew.v ===== *)
(** Building a queue: which options are rejected before anything is touched, that a construction
    whose hydration fails leaves nothing open, and that a queue built over a backup holds what the
    backup held. *)

From S2P Require Import Prelude Errors Machine Core Slice Contract Logic Priority ContractFacts.
From S2P Require Import Interface SeqOrder Fifo FifoRefines FifoFacts Heap HeapRefines HeapFacts Queue QueueFacts.

(** * Options *)

Section options.
Context {B W T : Type} `{!Item W T} `{!World W} `{!Telemetry W} (ops : Ops B W T) (setup : Setup B W T).

(** The last WithMaxBatch and the last WithBackup are the ones that count. *)
Definition resolved (options : list (Option W T)) : queueOptions W T :=
  foldl (λ o option, option o) defaults options.

Definition acceptable (given : bool) (o : queueOptions W T) : bool :=
  given && (1 <=? o_maxBatch o)%Z && match o_backup o with BadBackup => false | _ => true end.

(** New given a nil backing, a last WithMaxBatch below 1 or a WithBackup that is no Backup
    of the item type returns an error that is ErrBadOption and has touched neither the backing nor
    the world. *)
Theorem New_rejects ctx named given maxSize options s :
  acceptable given (resolved options) = false →
  ∃ e, New ops setup ctx named given maxSize options s = (Done (inr e), s) ∧ Is e ErrBadOption = true.
Proof.
  unfold acceptable, New, resolved, validateOptions. destruct given; simpl; [|by eexists].
  destruct (foldl _ _ options) as [n bk]; simpl. destruct (n <? 1)%Z eqn:Hn; [by eexists|].
  bool_to_prop. rewrite (proj2 (Z.leb_le 1 n)) by done. simpl. destruct bk; try done. by eexists.
Qed.
End options.

(** * A construction that fails *)

Section failing.
Context {B W T : Type} `{!Item W T} `{!World W} `{!Telemetry W} (R : B → QState W T → Prop)
  (ops : Ops B W T) (setup : Setup B W T) (priority excl : bool) (before : T → T → bool).
Context `{!Implements R ops priority excl before}.
Implicit Types (qs : QState W T).

(** Close of a queue without a backup, with no options: it is closed, whatever it was. *)
Lemma contract_Close_alone ctx qs w :
  q_backup qs = None →
  ∃ x qs', Contract.Close ctx [] (Mach qs Unlocked w []) = (Done x, Mach qs' Unlocked w []) ∧
           q_closed qs' = true.
Proof.
  intros Hb. unfold Contract.Close, ResolveOpOptions, mbind, go_bind. simpl.
  destruct (q_closed qs) eqn:Hc; simpl; [by do 2 eexists|]. rewrite Hb. simpl. by do 2 eexists.
Qed.

Lemma impl_Close_alone ctx b qs w :
  R b qs → q_backup qs = None →
  ∃ x b' qs', op_Close ops ctx [] (Mach b Unlocked w []) = (Done x, Mach b' Unlocked w []) ∧
              R b' qs' ∧ q_closed qs' = true.
Proof.
  intros Hr Hb. destruct (contract_Close_alone ctx qs w Hb) as (x & qs' & Hrun & Hc).
  pose proof (impl_Close ctx [] (Mach b Unlocked w []) (Mach qs Unlocked w [])
    ltac:(by apply mrel_mach)) as Hrel.
  unfold rwp in Hrel. rewrite Hrun in Hrel.
  destruct (op_Close _ _ _ _) as [[] [b' k' w' e']]; try done.
  destruct Hrel as [-> [Hb' Hk' Hw' He']]; simpl in *; subst. apply Forall2_nil_inv_r in He' as ->.
  by exists x, b', qs'.
Qed.

(** The machine as New hands it to Hydrate. *)
Definition hydrating (named : bool) (b : B) (w : W) : mach B W :=
  Mach b Unlocked (if named then set_met newQueueMetrics w else w) [].

(** Nothing is left open: the backing is closed and then the backup was told to close. *)
Definition released (bk : Backup W T) (ctx : Ctx W) (w : W) (t : mach B W) : Prop :=
  mlk t = Unlocked ∧ (∃ qs, R (mb t) qs ∧ q_closed qs = true) ∧ mw t = (bk_Close bk ctx w).2.

(** C34: When Hydrate fails or unwinds, New returns an error or unwinds with the lock released,
    the backing closed and, after that, the backup closed: nothing is leaked. *)
Theorem New_failed_hydrate ctx named maxSize options bk b0 b1 b2 w qs b3 w3 r :
  validateOptions (resolved options) = inl (Some bk) →
  op_SetMaxBatch setup (o_maxBatch (resolved options)) b0 = (b1, None) →
  op_SetMaxSize setup (if (maxSize <? 1)%Z then 0%Z else maxSize) b1 = (b2, None) →
  op_Hydrate setup ctx bk (hydrating named b2 w) = (r, Mach b3 Unlocked w3 []) →
  R b3 qs → q_backup qs = None →
  (∃ e, r = Done (Some e)) ∨ (∃ u, r = Unwound u) →
  let x := New ops setup ctx named true maxSize options (Mach b0 Unlocked w []) in
  released bk ctx w3 x.2 ∧
  ((∃ e, x.1 = Done (inr e)) ∨ (∃ u, x.1 = Unwound u)).
Proof.
  intros Hval Hmb Hms Hhyd Hr Hqb Hend x.
  destruct (impl_Close_alone ctx b3 qs w3 Hr Hqb) as (y & b4 & qs4 & Hclose & Hr4 & Hc4).
  assert (x = (iferr e := RunLocked (op_Hydrate setup ctx bk)
                 (op_Close ops ctx [];; call (bk_Close bk ctx);; mret ())
               then
                 be ← op_Close ops ctx [];
                 ke ← call (bk_Close bk ctx);
                 match Join [Some e; be; WrapBackup ke] with
                 | Some e => mret (inr e)
                 | None => mret (inr e)
                 end
               else recordDepth ops (MkQueue (Some bk) (o_maxBatch (resolved options)) named);;
                    mret (inl (MkQueue (Some bk) (o_maxBatch (resolved options)) named)))
              (hydrating named b2 w)) as ->.
  { subst x. unfold New. simpl. fold (resolved options). rewrite Hval.
    unfold set_up, mbind, go_bind. simpl. rewrite Hmb. simpl. rewrite Hms. simpl.
    unfold hydrating. by destruct named. }
  unfold mbind, go_bind, RunLocked, on_unwind. rewrite Hhyd.
  destruct Hend as [(e & ->)|(u & ->)]; rewrite Hclose; unfold call; simpl.
  - destruct (bk_Close bk ctx w3) as [[ke|u] w4] eqn:Hk; simpl.
    + split; [|left; by eexists]. split; [done|]. split; [by exists qs4|by rewrite Hk].
    + split; [|right; by eexists]. split; [done|]. split; [by exists qs4|by rewrite Hk].
  - destruct (bk_Close bk ctx w3) as [[ke|u'] w4] eqn:Hk; simpl.
    all: split; [|right; by eexists]; split; [done|]; split; [by exists qs4|by rewrite Hk].
Qed.
End failing.

(** * Restoring a queue from its backup *)

(** The setup of the two in-memory slice backings. *)
Definition fifo_setup {W T} `{!Item W T} `{!World W} `{!Grow} : Setup (Fifo.Backing W T) W T :=
  MkSetup Fifo.AllCOW Fifo.Hydrate Fifo.SetMaxBatch Fifo.SetMaxSize.
Definition heap_setup {W T} `{!Item W T} `{!World W} `{!Grow} : Setup (Heap.Backing W T) W T :=
  MkSetup Heap.AllCOW Heap.Hydrate Heap.SetMaxBatch Heap.SetMaxSize.

Section hydrating.
Context {W T : Type} `{!Item W T} `{!World W} `{!PureItem W T}.

(** A backup that lists the items [vs] and accepts each of them in OnLoad. *)
Definition lists (bk : Backup W T) (ctx : Ctx W) (vs : list T) : Prop :=
  bk_RangeAll bk ctx = (λ v w, (Ok (Some (v, None)), w)) <$> vs ∧
  ∀ v w, bk_OnLoad bk ctx v w = (Ok None, w).

Lemma contract_hydrate priority before bk ctx vs (qs : QState W T) w :
  lists bk ctx vs → Forall (kind_ok priority) vs →
  Contract.Hydrate priority before ctx bk (Mach qs Unlocked w []) =
    (Done None, Mach (Contract.set_backup (Some bk) (Contract.set_items (insert_all before vs true (q_items qs)) qs))
                  Unlocked w []).
Proof.
  intros [Hl Hon] Hvs. unfold Contract.Hydrate, writing, mbind, go_bind. simpl. unfold defer.
  rewrite Hl. clear Hl.
  assert (∀ (qs : QState W T), hydrate_from priority before ctx bk
    ((λ v w, (Ok (Some (v, None)), w)) <$> vs) (Mach qs WLocked w []) =
    (Done None, Mach (Contract.set_backup (Some bk) (Contract.set_items (insert_all before vs true (q_items qs)) qs))
                  WLocked w [])) as Hloop.
  { induction Hvs as [|v vs Hv _ IH]; intros q; simpl; [by destruct q|].
    unfold ValidateKindOne, mbind, go_bind, call, mret, go_ret. simpl. rewrite Priority_pure. simpl.
    unfold kind_ok in Hv. rewrite Hv. destruct priority; simpl; rewrite Hon; simpl; by rewrite IH. }
  by rewrite Hloop.
Qed.

(** [New] over an empty backing that a Hydrate of the contract describes. *)
Lemma New_hydrated {B} (R : B → QState W T → Prop) (ops : Ops B W T) (setup : Setup B W T)
    priority excl before `{!Telemetry W} `{!Implements R ops priority excl before}
    ctx named maxSize options bk b0 b1 b2 qs vs w :
  validateOptions (resolved options) = inl (Some bk) →
  op_SetMaxBatch setup (o_maxBatch (resolved options)) b0 = (b1, None) →
  op_SetMaxSize setup (if (maxSize <? 1)%Z then 0%Z else maxSize) b1 = (b2, None) →
  (∀ w, rwp (op_Hydrate setup ctx bk) (Contract.Hydrate priority before ctx bk)
    (λ a1 a2 t1 t2, a1 = a2 ∧ (a1 = None → mrel R t1 t2)) (λ _ _, True)
    (Mach b2 Unlocked w []) (Mach qs Unlocked w [])) →
  lists bk ctx vs → Forall (kind_ok priority) vs → q_items qs = [] →
  ∃ t, New ops setup ctx named true maxSize options (Mach b0 Unlocked w []) =
         (Done (inl (MkQueue (Some bk) (o_maxBatch (resolved options)) named)), t) ∧
       mlk t = Unlocked ∧
       R (mb t) (Contract.set_backup (Some bk) (Contract.set_items (insert_all before vs true []) qs)) ∧
       (named = true → m_lastDepth (met (mw t)) = zlen vs ∧ m_depth (met (mw t)) = zlen vs).
Proof.
  intros Hval Hmb Hms Hhyd Hl Hvs Hq. set (q1 := Contract.set_backup _ _).
  set (w1 := if named then set_met newQueueMetrics w else w).
  assert (∃ b3, op_Hydrate setup ctx bk (hydrating named b2 w) = (Done None, Mach b3 Unlocked w1 []) ∧
    R b3 q1) as (b3 & Hh & Hr3).
  { specialize (Hhyd w1). unfold rwp in Hhyd. unfold hydrating. fold w1.
    rewrite (contract_hydrate priority before bk ctx vs qs w1 Hl Hvs), Hq in Hhyd. fold q1 in Hhyd.
    destruct (op_Hydrate _ _ _ _) as [[] [b3 k3 w3 e3]]; try done. destruct Hhyd as [-> Hm].
    destruct (Hm eq_refl) as [Hb Hk Hw He]; simpl in *; subst.
    apply Forall2_nil_inv_r in He as ->. by exists b3. }
  set (q := MkQueue (Some bk) (o_maxBatch (resolved options)) named).
  assert (New ops setup ctx named true maxSize options (Mach b0 Unlocked w []) =
    (recordDepth ops q;; mret (inl q)) (Mach b3 Unlocked w1 [])) as Hnew.
  { unfold New. simpl. fold (resolved options). rewrite Hval.
    unfold set_up, mbind, go_bind. simpl. rewrite Hmb. simpl. rewrite Hms. simpl.
    unfold RunLocked, on_unwind. unfold hydrating in Hh. fold w1 in Hh.
    destruct named; unfold w1 in Hh |- *; simpl in *; rewrite Hh; done. }
  rewrite Hnew. unfold recordDepth, q, qu_named, w1. clear Hnew Hh. destruct named; simpl.
  2: { unfold mbind, go_bind. simpl. by eexists. }
  pose proof (impl_Len (Mach b3 Unlocked w1 []) (Mach q1 Unlocked w1 []) ltac:(by apply mrel_mach)) as Hlen.
  unfold rwp in Hlen. simpl in Hlen. unfold w1 in Hlen. simpl in Hlen.
  unfold mbind, go_bind. simpl.
  destruct (op_Len ops _) as [[] [b4 k4 w4 e4]]; try done.
  destruct Hlen as [-> [Hb4 Hk4 Hw4 _]]; simpl in *; subst.
  eexists. split; [done|]. split; [done|]. split; [done|]. intros _. simpl. rewrite !met_set_met. simpl.
  assert (zlen (insert_all before vs true []) = zlen vs) as ->.
  { unfold zlen. by rewrite (Permutation_length (insert_all_Permutation _ _ _ _)), length_app, length_fmap, Nat.add_0_r. }
  split; [done|lia].
Qed.
End hydrating.

Section restore.
Context {W T : Type} `{!Item W T} `{!World W} `{!PureItem W T} `{!Telemetry W} `{!Grow}.

(** A new queue whose backup lists [vs]. *)
Definition restored_state (maxSize : Z) (bk : Backup W T) (l : list (entry T)) : QState W T :=
  MkQ l (if (maxSize <? 1)%Z then 0 else maxSize)%Z 0 NewSignal NewSignal false (Some bk).

Lemma counted_restored before vs : counted (insert_all before vs true ([] : list (entry T))) = 0%Z.
Proof.
  rewrite (counted_Permutation _ _ (insert_all_Permutation _ vs true [])), app_nil_r.
  induction vs as [|v vs IH]; [done|]. by rewrite fmap_cons, counted_cons, IH.
Qed.

Lemma restored_inv maxSize bk before vs :
  Inv 0 (restored_state maxSize bk (insert_all before vs true [])).
Proof.
  constructor; simpl; try done; try by intros i Hi%elem_of_nil.
  - destruct (maxSize <? 1)%Z eqn:Hmx; bool_to_prop; lia.
  - intros Hm. rewrite load_counted. simpl. rewrite counted_restored. lia.
Qed.

(** A queue is built over a backup with this batch limit. *)
Definition over_backup (n : Z) (bk : Backup W T) : list (Option W T) :=
  [WithBackup (GoodBackup bk); WithMaxBatch n].

Lemma over_backup_valid n bk :
  (1 ≤ n)%Z → validateOptions (resolved (over_backup n bk)) = inl (Some bk).
Proof. intros Hn. unfold validateOptions. simpl. by rewrite (proj2 (Z.ltb_ge n 1)). Qed.

Lemma insert_all_nobefore vs (l : list (entry T)) :
  insert_all (λ _ _, false) vs true l = l ++ ((λ v, Entry v true) <$> vs).
Proof.
  unfold insert_all. revert l. induction vs as [|v vs IH]; intros l; simpl; [by rewrite app_nil_r|].
  rewrite IH, insert_entry_fifo. by rewrite <- app_assoc.
Qed.

(** A FIFO queue built over a backup that lists some items holds exactly those items in
    that order, open, mirroring to the backup, exempt from the size bound, with the depth gauge
    seeded. *)
Theorem fifo_restores ctx named maxSize n bk vs w :
  (1 ≤ n)%Z → lists bk ctx vs → Forall (λ v, prio v = 0%Z) vs →
  ∃ q t, New fifo_ops fifo_setup ctx named true maxSize (over_backup n bk)
           (Mach Fifo.New Unlocked w []) = (Done (inl q), t) ∧
    qu_maxBatch q = n ∧ mlk t = Unlocked ∧ fifo_inv (mb t) ∧
    live (mb t) = vs ∧ Fifo.backup (mb t) = Some bk ∧ Fifo.closed (mb t) = false ∧
    (named = true → m_lastDepth (met (mw t)) = zlen vs ∧ m_depth (met (mw t)) = zlen vs).
Proof.
  intros Hn Hl Hvs. set (m := (if (maxSize <? 1)%Z then 0 else maxSize)%Z).
  destruct (New_hydrated fifo_rel fifo_ops fifo_setup false false (λ _ _, false) ctx named maxSize
    (over_backup n bk) bk Fifo.New Fifo.New (Fifo.set_maxSize m Fifo.New)
    (MkQ [] m 0 NewSignal NewSignal false None) vs w) as (t & Hrun & Hk & Hr & Hd).
  - by apply over_backup_valid.
  - simpl. unfold Fifo.SetMaxBatch. by rewrite (proj2 (Z.ltb_ge n 1)).
  - fold m. simpl. unfold Fifo.SetMaxSize. rewrite (proj2 (Z.ltb_ge m 0)); [done|].
    unfold m. destruct (maxSize <? 1)%Z eqn:Hmx; bool_to_prop; lia.
  - intros w'. eapply rwp_mono; [| |apply fifo_Hydrate_refines]; [|done|..]; try done.
    + intros a1 a2 t1 t2 [-> Hm]. done.
    + apply mrel_mach; [apply New_rel|constructor].
  - done.
  - eapply Forall_impl; [exact Hvs|]. intros v Hv. unfold kind_ok. by rewrite Hv.
  - done.
  - do 2 eexists. split; [exact Hrun|]. split; [done|]. split; [done|].
    pose proof (restored_inv maxSize bk (λ _ _, false) vs) as HI.
    split; [by eapply fifo_inv_of|].
    rewrite <- (fr_items _ _ Hr), <- (fr_backup _ _ Hr), <- (fr_closed _ _ Hr). simpl.
    rewrite insert_all_nobefore. simpl. rewrite <- list_fmap_compose. simpl.
    split; [by apply list_fmap_id|]. done.
Qed.

Context `{!OrderLaws W T}.

Lemma heap_New_rel m :
  heap_rel (Heap.set_maxSize m Heap.New) (MkQ [] m 0 NewSignal NewSignal false None).
Proof.
  assert (heap_inv (Heap.New : Heap.Backing W T)) as Hnew.
  { constructor; try done; try (by intros i ?); try by constructor. }
  constructor; try done; [].
  exists []. split; [|done]. split_and!; try done; constructor.
Qed.

(** A priority queue built over a backup that lists some items delivers a stable priority
    sort of them, open and mirroring to the backup. *)
Theorem heap_restores ctx named maxSize n bk vs w :
  (1 ≤ n)%Z → lists bk ctx vs → unordered bk → Forall (λ v, prio v ≠ 0%Z) vs →
  ∃ q t, New heap_ops heap_setup ctx named true maxSize (over_backup n bk)
           (Mach Heap.New Unlocked w []) = (Done (inl q), t) ∧
    qu_maxBatch q = n ∧ mlk t = Unlocked ∧ heap_inv (mb t) ∧
    delivery (mb t) = arrive vs [] ∧ in_order (delivery (mb t)) ∧ delivery (mb t) ≡ₚ vs ∧
    Heap.backup (mb t) = Some bk ∧ Heap.closed (mb t) = false.
Proof.
  intros Hn Hl Hun Hvs. set (m := (if (maxSize <? 1)%Z then 0 else maxSize)%Z).
  destruct (New_hydrated heap_rel heap_ops heap_setup true true ltb ctx named maxSize
    (over_backup n bk) bk Heap.New Heap.New (Heap.set_maxSize m Heap.New)
    (MkQ [] m 0 NewSignal NewSignal false None) vs w) as (t & Hrun & Hk & Hr & Hd).
  - by apply over_backup_valid.
  - simpl. unfold Heap.SetMaxBatch. by rewrite (proj2 (Z.ltb_ge n 1)).
  - fold m. simpl. unfold Heap.SetMaxSize. rewrite (proj2 (Z.ltb_ge m 0)); [done|].
    unfold m. destruct (maxSize <? 1)%Z eqn:Hmx; bool_to_prop; lia.
  - intros w'. by apply heap_Hydrate_refines; [apply heap_New_rel|..].
  - done.
  - eapply Forall_impl; [exact Hvs|]. intros v Hv. by apply Z.eqb_neq.
  - done.
  - do 2 eexists. split; [exact Hrun|]. split; [done|]. split; [done|].
    pose proof (restored_inv maxSize bk ltb vs) as HI.
    split; [by eapply heap_inv_of|].
    rewrite <- (heap_rel_delivery _ _ Hr), <- (hr_backup _ _ Hr), <- (hr_closed _ _ Hr). simpl.
    rewrite insert_all_items. simpl. split_and!; try done.
    + apply arrive_in_order. constructor.
    + by rewrite arrive_Permutation, app_nil_r.
Qed.
End restore.
