(* ===== verification/Cbwfq.v ===== *)
(** The class-based weighted fair queuing scheduler (cbwfq/cbwfq.go, with its signal.go, errors.go
    and metrics.go) over an interface of class queues: a machine whose lock is the scheduler's
    mutex, on which the calls on a class queue run as programs of their own. *)

From S2P Require Import Prelude Errors Machine Core Contract Logic Interface.

(** * What the scheduler asks of a class queue *)

(** The operations of a [*queue.Queue] that the scheduler calls; [Cfg] is what is fixed when the
    queue is built and [Q] what changes. [cq_other] is a whole operation of another goroutine. *)
Class ClassQueue (Cfg Q W T : Type) := {
  cq_Push : Cfg → Ctx W → list T → list (OpOption W) → go Q W (bool * option err);
  cq_Pop : Cfg → Ctx W → Z → list (OpOption W) → go Q W (list T * option err);
  cq_Len : Cfg → go Q W Z;
  cq_Close : Cfg → Ctx W → list (OpOption W) → go Q W (option err);
  cq_other : Cfg → Op W T → Q → W → Q * W;
}.

(** What the scheduler relies on. The class queue holds some items; arrivals only add to them, and
    in their absence ([alone]) nothing changes that this call did not do. *)
Definition grown {T} (alone : Prop) (l k : list T) : Prop := l ⊆+ k ∧ (alone → k = l).

(** What goroutines that do not hold the scheduler's mutex do to a class queue: they push, and Close
    closes. *)
Definition arriving {W T} (o : Op W T) : Prop :=
  match o with OPush _ _ _ | OClose _ _ => True | _ => False end.

Class ClassQueueLaws (Cfg Q W T : Type) `{!ClassQueue Cfg Q W T} (holds : list T → Q → Prop) : Prop := {
  law_Len cfg l q w ps : holds l q → Forall arriving ps →
    wp (cq_Len cfg) (λ n t, ∃ k, grown (ps = []) l k ∧ n = zlen k ∧ holds k (mb t)) (λ _ _, False)
      (Mach q Unlocked w (cq_other cfg <$> ps));
  law_Pop cfg ctx n o l q w ps : (1 ≤ n)%Z → l ≠ [] → holds l q → Forall arriving ps →
    wp (cq_Pop cfg ctx n o)
      (λ '(items, e) t, ∃ k, grown (ps = []) l k ∧
         match e with
         | None => items = take (Z.to_nat n) k ∧
             ∃ m, grown (ps = []) (drop (Z.to_nat n) k) m ∧ holds m (mb t)
         | Some _ => items = [] ∧ holds k (mb t)
         end)
      (λ u t, is_Some u ∧ ∃ k, grown (ps = []) l k ∧ holds k (mb t))
      (Mach q Unlocked w (cq_other cfg <$> ps));
  law_Push cfg ctx vs o l q w : holds l q →
    wp (cq_Push cfg ctx vs o)
      (λ '(ok, e) t, ok = bool_decide (e = None) ∧
         ∃ k, holds k (mb t) ∧ if ok then k ≡ₚ vs ++ l else k = l)
      (λ _ t, holds l (mb t)) (Mach q Unlocked w []);
  law_Push_safe cfg ctx vs o l q w os : holds l q →
    wp (cq_Push cfg ctx vs o) (λ '(ok, e) t, ok = bool_decide (e = None) ∧ ∃ k, holds k (mb t))
      (λ _ t, ∃ k, holds k (mb t)) (Mach q Unlocked w (cq_other cfg <$> os));
  law_Close_safe cfg ctx o l q w os : holds l q →
    wp (cq_Close cfg ctx o) (λ _ t, ∃ k, holds k (mb t)) (λ u t, ∃ k, holds k (mb t))
      (Mach q Unlocked w (cq_other cfg <$> os));
}.

(** * Telemetry (metrics.go) *)

Inductive sop := SPush | SPull | SClose.

#[export] Instance sop_eq_dec : EqDecision sop.
Proof. solve_decision. Defined.

(** The totals of cbwfq.operations and cbwfq.operation.errors, and of cbwfq.class.depth by class. *)
Record schedMetrics := MkSchedMetrics {
  sm_ops : sop → Z;
  sm_errs : sop → Z;
  sm_depth : string → Z;
}.

Definition newSchedMetrics : schedMetrics := MkSchedMetrics (λ _, 0%Z) (λ _, 0%Z) (λ _, 0%Z).

Definition bump {K} `{EqDecision K} (k : K) (d : Z) (f : K → Z) : K → Z :=
  λ k', if bool_decide (k' = k) then (f k' + d)%Z else f k'.

Class SchedTelemetry (W : Type) := {
  smet : W → schedMetrics;
  set_smet : schedMetrics → W → W;
  smet_set_smet m w : smet (set_smet m w) = m;
}.

(** * The scheduler's state *)

Record Class_ (Cfg Q : Type) := MkClass {
  Name : string;
  Weight : Z;
  CQueue : option (Cfg * Q);
  Default : bool;
  IsPriority : bool;
}.
Arguments MkClass {Cfg Q} _ _ _ _ _.
Arguments Name {Cfg Q} _.
Arguments Weight {Cfg Q} _.
Arguments CQueue {Cfg Q} _.
Arguments Default {Cfg Q} _.
Arguments IsPriority {Cfg Q} _.

Record classState (Cfg Q : Type) := MkClassState {
  cs_name : string;
  cs_weight : Z;
  cs_cfg : Cfg;
  cs_queue : Q;
  cs_priority : bool;
  cs_deficit : Z;
  cs_lastDepth : Z;
}.
Arguments MkClassState {Cfg Q} _ _ _ _ _ _ _.
Arguments cs_name {Cfg Q} _.
Arguments cs_weight {Cfg Q} _.
Arguments cs_cfg {Cfg Q} _.
Arguments cs_queue {Cfg Q} _.
Arguments cs_priority {Cfg Q} _.
Arguments cs_deficit {Cfg Q} _.
Arguments cs_lastDepth {Cfg Q} _.

(** The classes in the order they were given to New; a pointer to a class is its position. [byName]
    finds the position of a name. [s_windows] is no field of the program: it is what other
    goroutines do to a class queue meanwhile, one element per call on one. *)
Record CBWFQ (Cfg Q W T : Type) := MkSched {
  s_classes : list (classState Cfg Q);
  s_weighted : list nat;
  s_cursor : nat;
  s_priority : option nat;
  s_def : nat;
  s_pending : Z;
  s_closed : bool;
  s_sig : Signal;
  s_named : bool;
  s_windows : list (list (Op W T));
}.
Arguments MkSched {Cfg Q W T} _ _ _ _ _ _ _ _ _ _.
Arguments s_classes {Cfg Q W T} _.
Arguments s_weighted {Cfg Q W T} _.
Arguments s_cursor {Cfg Q W T} _.
Arguments s_priority {Cfg Q W T} _.
Arguments s_def {Cfg Q W T} _.
Arguments s_pending {Cfg Q W T} _.
Arguments s_closed {Cfg Q W T} _.
Arguments s_sig {Cfg Q W T} _.
Arguments s_named {Cfg Q W T} _.
Arguments s_windows {Cfg Q W T} _.

Section setters.
Context {Cfg Q W T : Type}.
Abbreviation S_ := (CBWFQ Cfg Q W T).
Implicit Types (s : S_) (cs : classState Cfg Q).

Definition set_queue (q : Q) cs : classState Cfg Q :=
  MkClassState (cs_name cs) (cs_weight cs) (cs_cfg cs) q (cs_priority cs) (cs_deficit cs)
    (cs_lastDepth cs).
Definition set_deficit (d : Z) cs : classState Cfg Q :=
  MkClassState (cs_name cs) (cs_weight cs) (cs_cfg cs) (cs_queue cs) (cs_priority cs) d
    (cs_lastDepth cs).
Definition set_lastDepth (d : Z) cs : classState Cfg Q :=
  MkClassState (cs_name cs) (cs_weight cs) (cs_cfg cs) (cs_queue cs) (cs_priority cs)
    (cs_deficit cs) d.

Definition upd_class (i : nat) (f : classState Cfg Q → classState Cfg Q) s : S_ :=
  MkSched (alter f i (s_classes s)) (s_weighted s) (s_cursor s) (s_priority s) (s_def s)
    (s_pending s) (s_closed s) (s_sig s) (s_named s) (s_windows s).
Definition set_cursor (c : nat) s : S_ :=
  MkSched (s_classes s) (s_weighted s) c (s_priority s) (s_def s) (s_pending s) (s_closed s)
    (s_sig s) (s_named s) (s_windows s).
Definition add_pending (d : Z) s : S_ :=
  MkSched (s_classes s) (s_weighted s) (s_cursor s) (s_priority s) (s_def s) (s_pending s + d)%Z
    (s_closed s) (s_sig s) (s_named s) (s_windows s).
Definition set_closed s : S_ :=
  MkSched (s_classes s) (s_weighted s) (s_cursor s) (s_priority s) (s_def s) (s_pending s) true
    (s_sig s) (s_named s) (s_windows s).
Definition set_windows (ws : list (list (Op W T))) s : S_ :=
  MkSched (s_classes s) (s_weighted s) (s_cursor s) (s_priority s) (s_def s) (s_pending s)
    (s_closed s) (s_sig s) (s_named s) ws.
Definition sig_l : lens S_ Signal := Lens s_sig (λ g s,
  MkSched (s_classes s) (s_weighted s) (s_cursor s) (s_priority s) (s_def s) (s_pending s)
    (s_closed s) g (s_named s) (s_windows s)).
End setters.

(** The signal of this package is the one of package core, line for line. *)
Definition newSignal : Signal := NewSignal.
Definition signal_Wait {B W} : lens B Signal → Ctx W → go B W unit → go B W (option err) := Wait.
Definition signal_HasWaiters : Signal → bool := HasWaiters.
Definition signal_Signal {B W} : lens B Signal → go B W unit := DoSignal.

Section scheduler.
Context {Cfg Q W T : Type} `{!ClassQueue Cfg Q W T} `{!SchedTelemetry W}.
Abbreviation S_ := (CBWFQ Cfg Q W T).
Abbreviation M := (go (CBWFQ Cfg Q W T) W).
Implicit Types (s : S_).

(** A call on the queue of class [i]: it meets the next window of interference. *)
Definition on {A} (i : nat) (m : Cfg → go Q W A) : M A := λ t,
  match s_classes (mb t) !! i with
  | None => (Unwound Panicked, t)
  | Some cs =>
      let '(o, u) := m (cs_cfg cs) (Mach (cs_queue cs) Unlocked (mw t)
                       (cq_other (cs_cfg cs) <$> default [] (head (s_windows (mb t))))) in
      (o, Mach (set_windows (tail (s_windows (mb t))) (upd_class i (set_queue (mb u)) (mb t)))
            (mlk t) (mw u) (menv t))
  end.

Definition class_at (i : nat) : M (classState Cfg Q) :=
  s ← getb;
  match s_classes s !! i with
  | None => gopanic
  | Some cs => mret cs
  end.

Definition qLen (i : nat) : M Z := on i cq_Len.

(** * Instrumentation (metrics.go) *)

Definition updm (f : schedMetrics → schedMetrics) : M unit := updw (λ w, set_smet (f (smet w)) w).

(** [instrument] and the finisher it returns, which looks at the error alone. *)
Definition instrumented {A} (o : sop) (err_of : A → option err) (body : M A) : M A :=
  s ← getb;
  if s_named s then
    updm (λ m, MkSchedMetrics (bump o 1 (sm_ops m)) (sm_errs m) (sm_depth m));;
    a ← body;
    match err_of a with
    | Some _ => updm (λ m, MkSchedMetrics (sm_ops m) (bump o 1 (sm_errs m)) (sm_depth m))
    | None => mret ()
    end;;
    mret a
  else body.

Definition recordDepth (i : nat) : M unit :=
  s ← getb;
  if s_named s then
    cur ← qLen i;
    cs ← class_at i;
    updb (upd_class i (set_lastDepth cur));;
    updm (λ m, MkSchedMetrics (sm_ops m) (sm_errs m)
                 (bump (cs_name cs) (cur - cs_lastDepth cs) (sm_depth m)))
  else mret ().

(** * Construction *)

Definition find_class (name : string) (l : list (classState Cfg Q)) : option nat :=
  fst <$> list_find (λ cs, cs_name cs = name) l.

(** The loop over the classes: the scheduler so far, the number of defaults and of priorities, and
    the total of the lengths. *)
Fixpoint New_loop (classes : list (Class_ Cfg Q)) (defaults priorities : nat) (total : Z)
    : M (nat * nat * Z + err) :=
  match classes with
  | [] => mret (inl (defaults, priorities, total))
  | c :: classes =>
      s ← getb;
      if bool_decide (Name c = "") then mret (inr (Errorf "class name cannot be empty" []))
      else match find_class (Name c) (s_classes s) with
      | Some _ => mret (inr (Errorf "duplicate class name %q" []))
      | None =>
      match CQueue c with
      | None => mret (inr (Errorf "class %q has a nil Queue" []))
      | Some (cfg, q) =>
      if negb (IsPriority c) && (Weight c <? 1)%Z
      then mret (inr (Errorf "class %q has Weight %d, want >= 1" []))
      else
        let i := length (s_classes s) in
        let cs := MkClassState (Name c) (Weight c) cfg q (IsPriority c) 0 0 in
        updb (λ s, MkSched (s_classes s ++ [cs])
                (if IsPriority c then s_weighted s else s_weighted s ++ [i]) (s_cursor s)
                (if IsPriority c then Some i else s_priority s)
                (if Default c then i else s_def s) (s_pending s) (s_closed s) (s_sig s) (s_named s)
                (s_windows s));;
        len ← qLen i;
        New_loop classes (if Default c then S defaults else defaults)
          (if IsPriority c then S priorities else priorities) (total + len)%Z
      end
      end
  end.

(** [New]: the scheduler under construction is the state of the machine, which starts empty.
    [given] says that the classifier is not nil. *)
Definition New (named given : bool) (classes : list (Class_ Cfg Q)) : M (option err) :=
  if negb given then mret (Some (Errorf "classifier cannot be nil" []))
  else match classes with
  | [] => mret (Some (Errorf "at least one class is required" []))
  | _ =>
      r ← New_loop classes 0 0 0;
      match r with
      | inr e => mret (Some e)
      | inl (defaults, priorities, total) =>
          if (defaults =? 0)%nat
          then mret (Some (Errorf "exactly one class must set Default, got none" []))
          else if (1 <? defaults)%nat
          then mret (Some (Errorf "exactly one class must set Default, got %d" []))
          else if (1 <? priorities)%nat
          then mret (Some (Errorf "at most one class may set Priority, got %d" []))
          else
            updb (λ s, MkSched (s_classes s) (s_weighted s) (s_cursor s) (s_priority s) (s_def s)
                    total (s_closed s) (s_sig s) named (s_windows s));;
            (if named then updm (λ _, newSchedMetrics) else mret ());;
            mret None
      end
  end.

Definition empty_sched (ws : list (list (Op W T))) : S_ :=
  MkSched [] [] 0 None 0 0 false newSignal false ws.

(** * Operations *)

Definition closedOrCause (ctx : Ctx W) : M (option err) :=
  Lock;;
  s ← getb;
  Unlock;;
  if s_closed s then mret (Some (Sentinel ErrClosed))
  else w ← getw; mret (ctx_cause ctx w).

Definition Push (classifier : T → code W string) (ctx : Ctx W) (item : T)
    (options : list (OpOption W)) : M (option err) :=
  instrumented SPush id (
    name ← call (classifier item);
    s ← getb;
    let i := default (s_def s) (find_class name (s_classes s)) in
    '(ok, e) ← on i (λ c, cq_Push c ctx [item] options);
    if negb ok then mret e else
    Lock;;
    updb (add_pending 1);;
    recordDepth i;;
    s ← getb;
    (if signal_HasWaiters (s_sig s) then signal_Signal sig_l else mret ());;
    Unlock;;
    mret e).

Definition advance s : nat := (S (s_cursor s) mod length (s_weighted s))%nat.

(** The scan of [serveable]: [scanned] counts down. *)
Fixpoint scan (scanned : nat) : M (option nat) :=
  match scanned with
  | O => mret None
  | S scanned =>
      s ← getb;
      match s_weighted s !! s_cursor s with
      | None => gopanic
      | Some i =>
          len ← qLen i;
          if (len =? 0)%Z then
            updb (upd_class i (set_deficit 0));;
            updb (λ s, set_cursor (advance s) s);;
            scan scanned
          else
            cs ← class_at i;
            (if (cs_deficit cs =? 0)%Z then updb (upd_class i (set_deficit (cs_weight cs)))
             else mret ());;
            mret (Some i)
      end
  end.

Definition serveable : M (option nat) :=
  s ← getb;
  let weighted := scan (length (s_weighted s)) in
  match s_priority s with
  | None => weighted
  | Some p => len ← qLen p; if (0 <? len)%Z then mret (Some p) else weighted
  end.

Definition serve (ctx : Ctx W) (i : nat) (n : Z) (options : list (OpOption W))
    : M (list T * option err) :=
  cs ← class_at i;
  len ← qLen i;
  let take := Z.min n len in
  let take := if cs_priority cs then take else Z.min take (cs_deficit cs) in
  '(items, e) ← on i (λ c, cq_Pop c ctx take options);
  updb (add_pending (- zlen items));;
  recordDepth i;;
  match e with
  | Some e => mret (items, Some e)
  | None =>
      if cs_priority cs then mret (items, None)
      else
        updb (upd_class i (λ cs, set_deficit (cs_deficit cs - zlen items) cs));;
        cs ← class_at i;
        done ← (if (cs_deficit cs =? 0)%Z then mret true else len ← qLen i; mret (len =? 0)%Z);
        (if done : bool then
           len ← qLen i;
           (if (len =? 0)%Z then updb (upd_class i (set_deficit 0)) else mret ());;
           updb (λ s, set_cursor (advance s) s)
         else mret ());;
        mret (items, None)
  end.

Definition Pull (ctx : Ctx W) (n : Z) (options : list (OpOption W))
    : M (list T * string * option err) :=
  if (n <? 1)%Z then gopanic else
  instrumented SPull snd (forever (
    Lock;;
    s ← getb;
    if s_closed s then Unlock;; return_ ([], "", Some (Sentinel ErrClosed))
    else
      o ← serveable;
      match o with
      | Some i =>
          '(items, e) ← serve ctx i n options;
          Unlock;;
          cs ← class_at i;
          return_ (items, cs_name cs, e)
      | None =>
          iferr werr := signal_Wait sig_l ctx Unlock
          then e ← closedOrCause ctx; return_ ([], "", e)
          else continue_
      end)).

Definition Len : M Z := s ← getb; mret (s_pending s).

Definition ClassLen (name : string) : M (Z * option err) :=
  s ← getb;
  match find_class name (s_classes s) with
  | None => mret (0%Z, Some (Errorf "%w: %q" [Sentinel ErrUnknownClass]))
  | Some i => len ← qLen i; mret (len, None)
  end.
(** The loop of Close over the class queues, in the order the runtime ranges over the map. *)
Fixpoint close_all (ctx : Ctx W) (order : list nat) (e : option err) : M (option err) :=
  match order with
  | [] => mret e
  | i :: order =>
      cerr ← on i (λ c, cq_Close c ctx []);
      close_all ctx order (match e with None => cerr | Some _ => e end)
  end.

Definition Close (order : list nat) (ctx : Ctx W) : M (option err) :=
  instrumented SClose id (
    Lock;;
    s ← getb;
    if s_closed s then Unlock;; mret (Some (Sentinel ErrClosed))
    else
      updb set_closed;;
      signal_Signal sig_l;;
      Unlock;;
      close_all ctx order None).
End scheduler.
