(* ===== verification/CbwfqFacts.v ===== *)
(** The scheduler over any class queues that keep the laws: what every step under its mutex does to
    the deficits, the cursor and the contents, in the presence of arrivals. *)

From S2P Require Import Prelude Errors Machine Core Contract Logic ContractFacts Interface Cbwfq.

(** * Rotations *)

Section rotation.
Context {A : Type}.
Implicit Types (l : list A).

(** The list read from position [c] on, all the way round. *)
Definition rotation l (c : nat) : list A := drop c l ++ take c l.

Lemma rotation_Permutation l c : rotation l c ≡ₚ l.
Proof. unfold rotation. by rewrite Permutation_app_comm, take_drop. Qed.

Lemma rotation_head l c x : l !! c = Some x → ∃ r, rotation l c = x :: r.
Proof. intros Hx. unfold rotation. rewrite (drop_S _ x) by done. by eexists. Qed.

Lemma rotation_next l c x r :
  c < length l → rotation l c = x :: r → rotation l (S c mod length l) = r ++ [x].
Proof.
  intros Hc Hr. destruct (lookup_lt_is_Some_2 l c Hc) as [y Hy].
  unfold rotation in *. rewrite (drop_S _ y) in Hr by done. injection Hr as -> <-.
  rewrite <- app_assoc, <- take_S_r by done.
  destruct (decide (S c = length l)) as [He|He].
  - rewrite He, Nat.Div0.mod_same. rewrite drop_0, take_0, app_nil_r.
    by rewrite drop_ge, take_ge by lia.
  - by rewrite Nat.mod_small by lia.
Qed.

Lemma rotation_0 l : rotation l 0 = l.
Proof. unfold rotation. by rewrite drop_0, take_0, app_nil_r. Qed.

Lemma app_split_l (a : list A) x sk rest :
  a ++ [x] = sk ++ rest → length sk ≤ length a →
  ∃ rest', a = sk ++ rest' ∧ rest = rest' ++ [x].
Proof.
  intros He Hlen. exists (drop (length sk) a). split.
  - rewrite <- (take_drop (length sk) a) at 1. f_equal.
    by rewrite <- (take_app_le a [x]), He, take_app_length by done.
  - by rewrite <- drop_app_le, He, drop_app_length by done.
Qed.
End rotation.

(** * The state under the mutex *)

Section under_lock.
Context {Cfg Q W T : Type} `{!ClassQueue Cfg Q W T} (holds : list T → Q → Prop).
Context `{!ClassQueueLaws Cfg Q W T holds} `{!SchedTelemetry W}.
Abbreviation S_ := (CBWFQ Cfg Q W T).
Implicit Types (s sh : CBWFQ Cfg Q W T) (cs : classState Cfg Q) (ls : list (list T)).

(** What never changes of a class. *)
Record same_class cs cs' : Prop := {
  sc_name : cs_name cs' = cs_name cs;
  sc_weight : cs_weight cs' = cs_weight cs;
  sc_cfg : cs_cfg cs' = cs_cfg cs;
  sc_priority : cs_priority cs' = cs_priority cs;
}.

(** The scheduler differs from [sh] at most in these deficits, this cursor, this pending count and
    these contents; the windows to come bring arrivals only. *)
Record At sh (ds : list Z) (c : nat) (p : Z) ls s : Prop := {
  at_classes : Forall2 same_class (s_classes sh) (s_classes s);
  at_weighted : s_weighted s = s_weighted sh;
  at_priority : s_priority s = s_priority sh;
  at_def : s_def s = s_def sh;
  at_named : s_named s = s_named sh;
  at_closed : s_closed s = s_closed sh;
  at_sig : s_sig s = s_sig sh;
  at_deficits : cs_deficit <$> s_classes s = ds;
  at_cursor : s_cursor s = c;
  at_pending : s_pending s = p;
  at_queues : Forall2 (λ cs l, holds l (cs_queue cs)) (s_classes s) ls;
  at_windows : Forall (Forall arriving) (s_windows s);
  at_alone : s_windows sh = [] → s_windows s = [];
}.

(** [ls] grew to [ls'] by arrivals. *)
Definition Grown sh : list (list T) → list (list T) → Prop := Forall2 (grown (s_windows sh = [])).

Lemma grown_trans (P : Prop) (a b c : list T) : grown P a b → grown P b c → grown P a c.
Proof.
  intros [H1 H2] [H3 H4]. split; [by etransitivity|]. intros HP. by rewrite (H4 HP), (H2 HP).
Qed.

#[export] Instance Grown_preorder sh : PreOrder (Grown sh).
Proof.
  split.
  - intros ls. apply Forall_Forall2_diag, Forall_true. intros l. done.
  - intros a b c Hab Hbc. eapply Forall2_trans; [|exact Hab|exact Hbc].
    intros x y z. apply grown_trans.
Qed.

Lemma Grown_insert sh ls i l l' :
  ls !! i = Some l → grown (s_windows sh = []) l l' → Grown sh ls (<[i:=l']> ls).
Proof.
  intros Hl Hg. unfold Grown. rewrite <- (list_insert_id ls i l Hl) at 1.
  apply Forall2_insert; [|done]. apply Forall_Forall2_diag, Forall_true. intros x. done.
Qed.

Lemma alter_Some {A} (f : A → A) (i : nat) (l : list A) x : l !! i = Some x → alter f i l = <[i:=f x]> l.
Proof.
  intros Hx. rewrite list_insert_alter. apply list_alter_ext; [|done].
  intros y Hy. by rewrite Hx in Hy; injection Hy as ->.
Qed.

(** One class changes, in its mutable fields; its queue then holds [l]. *)
Lemma At_class sh ds c p ls s i cs cs' l :
  At sh ds c p ls s → s_classes s !! i = Some cs → same_class cs cs' → holds l (cs_queue cs') →
  (i < length ls) →
  At sh (<[i:=cs_deficit cs']> ds) c p (<[i:=l]> ls) (upd_class i (λ _, cs') s).
Proof.
  intros [Hcl Hw Hp Hd Hn Hclo Hsg Hds Hc Hpe Hq Hwi Hal] Hcs Hsame Hl Hi.
  assert (alter (λ _, cs') i (s_classes s) = <[i:=cs']> (s_classes s)) as Halt
    by by apply (alter_Some (λ _, cs') i _ cs).
  constructor; simpl; try done; rewrite Halt.
  - destruct (Forall2_lookup_r _ _ _ _ _ Hcl Hcs) as (x & Hx & Hxs).
    rewrite <- (list_insert_id (s_classes sh) i x Hx). apply Forall2_insert; [done|].
    destruct Hxs as [? ? ? ?], Hsame as [? ? ? ?]. constructor; congruence.
  - by rewrite list_fmap_insert, Hds.
  - by apply Forall2_insert.
Qed.

Lemma At_upd sh ds c p ls s i cs f l :
  At sh ds c p ls s → s_classes s !! i = Some cs → ls !! i = Some l →
  same_class cs (f cs) → cs_queue (f cs) = cs_queue cs →
  At sh (<[i:=cs_deficit (f cs)]> ds) c p ls (upd_class i f s).
Proof.
  intros Hat Hcs Hl Hf Hfq.
  assert (upd_class i f s = upd_class i (λ _, f cs) s) as ->.
  { unfold upd_class. by rewrite (alter_Some f i _ cs), (alter_Some (λ _, f cs) i _ cs). }
  rewrite <- (list_insert_id ls i l Hl). apply At_class with cs; try done.
  - rewrite Hfq. exact (Forall2_lookup_lr _ _ _ _ _ _ (at_queues _ _ _ _ _ _ Hat) Hcs Hl).
  - by apply lookup_lt_Some in Hl.
Qed.

Lemma At_cursor sh ds c p ls s c' : At sh ds c p ls s → At sh ds c' p ls (set_cursor c' s).
Proof. intros []. by constructor. Qed.
Lemma At_pending sh ds c p ls s d : At sh ds c p ls s → At sh ds c (p + d)%Z ls (add_pending d s).
Proof. intros []. constructor; simpl; try done. by f_equal. Qed.

Lemma At_lookup sh ds c p ls s i l :
  At sh ds c p ls s → ls !! i = Some l →
  ∃ cs0 cs d, s_classes sh !! i = Some cs0 ∧ s_classes s !! i = Some cs ∧ same_class cs0 cs ∧
    ds !! i = Some d ∧ cs_deficit cs = d ∧ holds l (cs_queue cs).
Proof.
  intros [] Hl. destruct (Forall2_lookup_r _ _ _ _ _ at_queues0 Hl) as (cs & Hcs & Hh).
  destruct (Forall2_lookup_r _ _ _ _ _ at_classes0 Hcs) as (cs0 & Hcs0 & Hsame).
  exists cs0, cs, (cs_deficit cs). split_and!; try done. by rewrite <- at_deficits0, list_lookup_fmap, Hcs.
Qed.

(** A call on a class queue that only pushes can disturb. *)
Lemma wp_on {A} i (m : Cfg → go Q W A) (K : A → mach S_ W → Prop) U sh ds c p ls s k w e l
    (Kq : A → list T → Prop) (Uq : option unwind → list T → Prop) :
  At sh ds c p ls s → ls !! i = Some l →
  (∀ cfg q ps, holds l q → Forall arriving ps → (s_windows sh = [] → ps = []) →
     wp (m cfg) (λ a t, ∃ k, Kq a k ∧ holds k (mb t)) (λ u t, ∃ k, Uq u k ∧ holds k (mb t))
       (Mach q Unlocked w (cq_other cfg <$> ps))) →
  (∀ a k' s' w', Kq a k' → At sh ds c p (<[i:=k']> ls) s' → K a (Mach s' k w' e)) →
  (∀ u k' s' w', Uq u k' → At sh ds c p (<[i:=k']> ls) s' → U u (Mach s' k w' e)) →
  wp (on i m) K U (Mach s k w e).
Proof.
  intros Hat Hl Hm HK HU. destruct (At_lookup _ _ _ _ _ _ _ _ Hat Hl) as (cs0 & cs & d & _ & Hcs & _ & Hd & Hd' & Hh).
  unfold wp, on. simpl. rewrite Hcs. set (ps := default [] (head (s_windows s))).
  assert (Forall arriving ps) as Hps.
  { pose proof (at_windows _ _ _ _ _ _ Hat) as Hw. subst ps. by destruct Hw. }
  specialize (Hm (cs_cfg cs) (cs_queue cs) ps Hh Hps).
  assert (s_windows sh = [] → ps = []) as Halone.
  { intros Ha. subst ps. by rewrite (at_alone _ _ _ _ _ _ Hat Ha). }
  specialize (Hm Halone). unfold wp in Hm.
  assert (∀ q k', holds k' q → At sh ds c p (<[i:=k']> ls)
    (set_windows (tail (s_windows s)) (upd_class i (set_queue q) s))) as Hnew.
  { intros q k' Hk'. assert (upd_class i (set_queue q) s = upd_class i (λ _, set_queue q cs) s) as ->.
    { unfold upd_class. by rewrite (alter_Some (set_queue q) i _ cs), (alter_Some (λ _, set_queue q cs) i _ cs). }
    assert (At sh ds c p (<[i:=k']> ls) (upd_class i (λ _, set_queue q cs) s)) as [].
    { rewrite <- (list_insert_id ds i d Hd), <- Hd'. apply (At_class _ _ _ _ _ _ _ cs (set_queue q cs)); try done.
      by apply lookup_lt_Some in Hl. }
    constructor; try done; simpl in *.
    - destruct at_windows0; [constructor|done].
    - intros Ha. by rewrite (at_alone0 Ha). }
  destruct (m _ _) as [[a|u| |] t]; try done; destruct Hm as (k' & Hk' & Hh'); eauto.
Qed.

Lemma wp_qLen i (K : Z → mach S_ W → Prop) U sh ds c p ls s k w e l :
  At sh ds c p ls s → ls !! i = Some l →
  (∀ l' s' w', grown (s_windows sh = []) l l' → At sh ds c p (<[i:=l']> ls) s' →
     K (zlen l') (Mach s' k w' e)) →
  wp (qLen i) K U (Mach s k w e).
Proof.
  intros Hat Hl HK. eapply (wp_on i _ K U _ _ _ _ _ _ _ _ _ l
    (λ n l', n = zlen l' ∧ grown (s_windows sh = []) l l') (λ _ _, False)); [done..| | |].
  - intros cfg q ps Hh Hps Ha. eapply wp_mono; [| |by apply law_Len]; [|done].
    intros n t (k' & [Hs Hk] & -> & Hh'). exists k'. split; [|done]. split; [done|]. split; [done|]. auto.
  - intros n l' s' w' [-> Hg] Hat'. by apply HK.
  - done.
Qed.

(** * Deficit round robin *)

Definition weight sh (i : nat) : Z := default 0%Z (cs_weight <$> s_classes sh !! i).
Definition deficit (ds : list Z) (i : nat) : Z := default 0%Z (ds !! i).

(** What New establishes once and for all. *)
Record shape_ok sh : Prop := {
  sh_weighted i : i ∈ s_weighted sh →
    ∃ cs, s_classes sh !! i = Some cs ∧ cs_priority cs = false ∧ (1 ≤ cs_weight cs)%Z;
  sh_nodup : NoDup (s_weighted sh);
  sh_priority p : s_priority sh = Some p → ∃ cs, s_classes sh !! p = Some cs ∧ cs_priority cs = true;
  sh_def : is_Some (s_classes sh !! s_def sh);
}.

(** No class owes more than its weight, and the cursor points at a class. *)
Record dwrr_ok sh (ds : list Z) (c : nat) : Prop := {
  dw_deficit i : i ∈ s_weighted sh → (0 ≤ deficit ds i ≤ weight sh i)%Z;
  dw_cursor : s_weighted sh ≠ [] → c < length (s_weighted sh);
}.

(** Passing over empty classes forfeits what they had left; arriving at a class grants its quantum. *)
Definition forfeit (sk : list nat) (ds : list Z) : list Z := foldl (λ ds j, <[j:=0%Z]> ds) ds sk.
Definition grant sh (i : nat) (ds : list Z) : list Z :=
  if decide (deficit ds i = 0%Z) then <[i:=weight sh i]> ds else ds.

Definition seen_empty ls (sk : list nat) : Prop := Forall (λ j : nat, ls !! j = Some []) sk.

Lemma deficit_insert ds i d j : i < length ds → deficit (<[i:=d]> ds) j = if decide (i = j) then d else deficit ds j.
Proof.
  intros Hi. unfold deficit. case_decide as Hij; [subst; by rewrite list_lookup_insert_eq|].
  by rewrite list_lookup_insert_ne.
Qed.

Lemma At_length sh ds c p ls s i :
  At sh ds c p ls s → is_Some (s_classes sh !! i) →
  i < length ds ∧ i < length ls ∧ is_Some (s_classes s !! i) ∧ is_Some (ls !! i).
Proof.
  intros [] Hi. apply lookup_lt_is_Some in Hi.
  apply Forall2_length in at_classes0, at_queues0.
  rewrite !lookup_lt_is_Some, <- at_deficits0, length_fmap. lia.
Qed.

Lemma weight_lookup sh i cs : s_classes sh !! i = Some cs → weight sh i = cs_weight cs.
Proof. intros Hcs. unfold weight. by rewrite Hcs. Qed.

Lemma weighted_class sh i : shape_ok sh → i ∈ s_weighted sh → is_Some (s_classes sh !! i).
Proof. intros Hsh Hi. destruct (sh_weighted _ Hsh i Hi) as (cs & -> & _). done. Qed.

Lemma dwrr_forfeit sh ds c i :
  dwrr_ok sh ds c → i < length ds → (0 ≤ weight sh i)%Z → dwrr_ok sh (<[i:=0%Z]> ds) c.
Proof.
  intros [Hd Hc] Hi Hw. split; [|done]. intros j Hj. rewrite deficit_insert by done.
  case_decide; [subst; lia|auto].
Qed.

Lemma grant_deficit sh ds i j :
  i < length ds → deficit (grant sh i ds) j =
    if decide (i = j ∧ deficit ds i = 0%Z) then weight sh i else deficit ds j.
Proof.
  intros Hi. unfold grant. destruct (decide (deficit ds i = 0%Z)).
  - rewrite deficit_insert by done. repeat case_decide; naive_solver.
  - rewrite decide_False; naive_solver.
Qed.

Lemma dwrr_grant sh ds c i :
  dwrr_ok sh ds c → i < length ds → (0 ≤ weight sh i)%Z → dwrr_ok sh (grant sh i ds) c.
Proof.
  intros [Hd Hc] Hi Hw. split; [|done]. intros j Hj. rewrite grant_deficit by done.
  case_decide; [destruct_and?; subst; lia|auto].
Qed.

Lemma Grown_empty sh ls ls' j : Grown sh ls ls' → ls' !! j = Some [] → ls !! j = Some [].
Proof.
  intros Hg Hj. destruct (Forall2_lookup_r _ _ _ _ _ Hg Hj) as (l & Hl & [Hs _]).
  by apply submseteq_nil_r in Hs as ->.
Qed.

Lemma Grown_nonempty sh ls ls' j l :
  Grown sh ls ls' → ls !! j = Some l → l ≠ [] → ∃ l', ls' !! j = Some l' ∧ l' ≠ [].
Proof.
  intros Hg Hj Hl. destruct (Forall2_lookup_l _ _ _ _ _ Hg Hj) as (l' & Hl' & [Hs _]).
  exists l'. split; [done|]. intros ->. by apply submseteq_nil_r in Hs.
Qed.

(** The scan stops at the first class in rotation that it does not find empty. *)
Lemma wp_scan_spec n (K : option nat → mach S_ W → Prop) U sh ds c p ls s k w e :
  shape_ok sh → dwrr_ok sh ds c → At sh ds c p ls s → n ≤ length (s_weighted sh) →
  (∀ o sk rest ls' s' w' c',
     rotation (s_weighted sh) c = sk ++ match o with Some i => i :: rest | None => rest end →
     rotation (s_weighted sh) c' = match o with Some i => i :: rest | None => rest end ++ sk →
     match o with Some i => length sk < n ∧ ∃ l, ls' !! i = Some l ∧ l ≠ [] | None => length sk = n end →
     seen_empty ls sk → Grown sh ls ls' →
     let ds' := match o with Some i => grant sh i (forfeit sk ds) | None => forfeit sk ds end in
     dwrr_ok sh ds' c' → At sh ds' c' p ls' s' → K o (Mach s' k w' e)) →
  wp (scan n) K U (Mach s k w e).
Proof.
  intros Hsh. revert ds c ls s w K. induction n as [|n IH]; intros ds c ls s w K Hok Hat Hn HK; simpl.
  { apply wp_ret. eapply (HK None [] (rotation (s_weighted sh) c) ls s w c);
      try done; [by rewrite app_nil_r|constructor]. }
  apply wp_bind, wp_getb. cbn [mb]. rewrite (at_weighted _ _ _ _ _ _ Hat), (at_cursor _ _ _ _ _ _ Hat).
  assert (c < length (s_weighted sh)) as Hc by (apply Hok; intros He; rewrite He in Hn; simpl in Hn; lia).
  destruct (lookup_lt_is_Some_2 _ _ Hc) as [i Hi]. rewrite Hi.
  pose proof (list_elem_of_lookup_2 _ _ _ Hi) as Hin.
  destruct (sh_weighted _ Hsh i Hin) as (cs0 & Hcs0 & _ & Hw1).
  pose proof (weight_lookup _ _ _ Hcs0) as Hwt.
  destruct (At_length _ _ _ _ _ _ i Hat ltac:(by eexists)) as (Hids & Hils & _ & [l Hl]).
  destruct (rotation_head _ _ _ Hi) as [r Hr].
  pose proof (rotation_next _ _ _ _ Hc Hr) as Hnext.
  assert (length r = length (s_weighted sh) - 1) as Hlr.
  { pose proof (Permutation_length (rotation_Permutation (s_weighted sh) c)) as Hp. rewrite Hr in Hp.
    simpl in Hp. lia. }
  apply wp_bind. eapply wp_qLen; [done..|]. intros l' s1 w1 Hg Hat1.
  pose proof (Grown_insert _ _ _ _ _ Hl Hg) as Hgr.
  destruct (zlen l' =? 0)%Z eqn:Hz; bool_to_prop.
  - apply zlen_nil_iff in Hz as ->. apply wp_bind, wp_updb, wp_bind, wp_updb.
    assert (l = []) as -> by (destruct Hg as [Hs _]; by apply submseteq_nil_r in Hs).
    assert (<[i:=[]]> ls !! i = Some []) as Hl1 by by apply list_lookup_insert_eq.
    destruct (At_lookup _ _ _ _ _ _ _ _ Hat1 Hl1) as (_ & cs & d & _ & Hcs & _).
    assert (At sh (<[i:=0%Z]> ds) c p (<[i:=[]]> ls) (upd_class i (set_deficit 0) s1)) as Hat2
      by by apply (At_upd _ _ _ _ _ _ _ cs (set_deficit 0) []).
    assert (advance (upd_class i (set_deficit 0) s1) = S c mod length (s_weighted sh))%nat as Hadv.
    { unfold advance. by rewrite (at_cursor _ _ _ _ _ _ Hat2), (at_weighted _ _ _ _ _ _ Hat2). }
    apply (IH (<[i:=0%Z]> ds) (S c mod length (s_weighted sh)) (<[i:=[]]> ls)); [| |lia|].
    { apply dwrr_forfeit; [split; [apply (dw_deficit _ _ _ Hok)|]|done|lia]. intros _. apply Nat.mod_upper_bound. lia. }
    { rewrite <- Hadv. eapply At_cursor, Hat2. }
    intros o sk rest' ls' s' w' c' Hrot Hrot' Hlen Hsk Hgr' ds' Hok' Hat'. rewrite Hnext in Hrot.
    assert (∃ rest, r = sk ++ match o with Some j => j :: rest | None => rest end ∧ rest' = rest ++ [i])
      as (rest & Hr0 & ->).
    { destruct o as [j|].
      - destruct (app_split_l r i (sk ++ [j]) rest') as (rest & -> & ->).
        + by rewrite Hrot, <- app_assoc.
        + rewrite length_app. simpl. lia.
        + exists rest. by rewrite <- app_assoc.
      - destruct (app_split_l r i sk rest' Hrot) as (rest & -> & ->); [lia|]. by exists rest. }
    apply (HK o (i :: sk) rest ls' s' w' c'); try done.
    + by rewrite Hr, Hr0.
    + rewrite Hrot'. destruct o; simpl; by rewrite <- !app_assoc.
    + destruct o; simpl in *; [|lia]. split; [lia|by apply Hlen].
    + constructor; [done|]. eapply Forall_impl; [exact Hsk|]. intros j. by apply (Grown_empty sh).
    + by etransitivity.
  - assert (<[i:=l']> ls !! i = Some l') as Hl1 by by apply list_lookup_insert_eq.
    assert (l' ≠ []) as Hne by (intros ->; done).
    destruct (At_lookup _ _ _ _ _ _ _ _ Hat1 Hl1) as (cs0' & cs & d & Hcs0' & Hcs & Hsame & Hd & Hdd & _).
    rewrite Hcs0 in Hcs0'; injection Hcs0' as <-.
    unfold class_at. apply wp_bind, wp_bind, wp_getb. cbn [mb]. rewrite Hcs. apply wp_ret.
    assert (deficit ds i = cs_deficit cs) as Hdef by (unfold deficit; by rewrite Hd).
    assert (∀ s', At sh (grant sh i ds) c p (<[i:=l']> ls) s' → K (Some i) (Mach s' k w1 e)) as Hend.
    { intros s' Hs'. apply (HK (Some i) [] r (<[i:=l']> ls) s' w1 c); try done.
      - by rewrite app_nil_r.
      - split; [simpl; lia|]. by exists l'.
      - constructor.
      - apply dwrr_grant; [done|done|lia]. }
    destruct (cs_deficit cs =? 0)%Z eqn:Hz0; bool_to_prop; apply wp_bind.
    + apply wp_updb, wp_ret, Hend. unfold grant. rewrite decide_True by congruence.
      rewrite Hwt, <- (sc_weight _ _ Hsame). by apply (At_upd _ _ _ _ _ _ _ cs (set_deficit (cs_weight cs)) l').
    + apply wp_ret, wp_ret, Hend. unfold grant. by rewrite decide_False by congruence.
Qed.
(** * Serving a class *)

Lemma wp_recordDepth_class i (K : unit → mach S_ W → Prop) U sh ds c p ls s k w e l :
  At sh ds c p ls s → ls !! i = Some l →
  (∀ l' s' w', grown (s_windows sh = []) l l' → At sh ds c p (<[i:=l']> ls) s' → K () (Mach s' k w' e)) →
  wp (recordDepth i) K U (Mach s k w e).
Proof.
  intros Hat Hl HK. unfold recordDepth. apply wp_bind, wp_getb. cbn [mb].
  destruct (s_named s); [|apply wp_ret, (HK l); [done|by rewrite list_insert_id]].
  apply wp_bind. eapply wp_qLen; [done..|]. intros l' s1 w1 Hg Hat1.
  assert (<[i:=l']> ls !! i = Some l') as Hl1 by by apply list_lookup_insert_eq, (lookup_lt_Some _ _ _ Hl).
  destruct (At_lookup _ _ _ _ _ _ _ _ Hat1 Hl1) as (_ & cs & d & _ & Hcs & _ & Hd & Hdd & _).
  unfold class_at. apply wp_bind, wp_bind, wp_getb. cbn [mb]. rewrite Hcs. apply wp_ret.
  apply wp_bind, wp_updb, wp_updw, (HK l'); [done|].
  pose proof (At_upd _ _ _ _ _ _ _ _ (set_lastDepth (zlen l')) _ Hat1 Hcs Hl1) as Hat2. simpl in Hat2.
  rewrite Hdd, list_insert_id in Hat2 by done. by apply Hat2.
Qed.

(** Class [i] gave up [items], the first of what it held. *)
Record served sh (p : Z) ls (i : nat) (n : Z) (items : list T) (p' : Z) ls' : Prop := {
  sv_items : ∃ l k l', ls !! i = Some l ∧ grown (s_windows sh = []) l k ∧
    items = take (length items) k ∧
    grown (s_windows sh = []) (drop (length items) k) l' ∧ ls' = <[i:=l']> ls;
  sv_count : (1 ≤ zlen items ≤ n)%Z;
  sv_pending : p' = (p - zlen items)%Z;
  sv_most : s_windows sh = [] → ∀ cs l, s_classes sh !! i = Some cs → cs_priority cs = true →
    ls !! i = Some l → zlen items = Z.min n (zlen l);
}.

(** What that did to the round: [adv] says that the cursor moved on. *)
Record spent sh (ds : list Z) (c : nat) ls (i : nat) (n : Z) (items : list T) (adv : bool)
    (ds' : list Z) (c' : nat) : Prop := {
  sp_bound : (zlen items ≤ deficit ds i)%Z;
  sp_cursor : c' = if adv then S c mod length (s_weighted sh) else c;
  sp_deficit : ∃ d, ds' = <[i:=d]> ds ∧ (0 ≤ d ≤ deficit ds i - zlen items)%Z ∧
    (adv = false → d = (deficit ds i - zlen items)%Z ∧ d ≠ 0%Z) ∧
    (s_windows sh = [] → adv = true → d = 0%Z);
  sp_alone : s_windows sh = [] → ∀ l, ls !! i = Some l →
    zlen items = Z.min n (Z.min (zlen l) (deficit ds i)) ∧
    adv = bool_decide (zlen items = deficit ds i ∨ zlen items = zlen l);
}.

Lemma grown_zlen P (l k : list T) : grown P l k → (zlen l ≤ zlen k)%Z.
Proof. intros [Hs _]. unfold zlen. apply submseteq_length in Hs. lia. Qed.

(** The quantum after a weighted class was served. *)
Lemma wp_settle i (items : list T) (K : list T * option err → mach S_ W → Prop) U sh ds c p ls s k w e l :
  dwrr_ok sh ds c → At sh ds c p ls s → ls !! i = Some l → s_weighted sh ≠ [] → i ∈ s_weighted sh →
  (zlen items ≤ deficit ds i)%Z →
  (∀ (adv : bool) d ls' l' c' s' w', ls' = <[i:=l']> ls → grown (s_windows sh = []) l l' →
     c' = (if (adv : bool) then S c mod length (s_weighted sh) else c) →
     (0 ≤ d ≤ deficit ds i - zlen items)%Z →
     (adv = false → d = (deficit ds i - zlen items)%Z ∧ d ≠ 0%Z) →
     (s_windows sh = [] → (adv = true → d = 0%Z) ∧ adv = bool_decide (zlen items = deficit ds i ∨ l = [])) →
     dwrr_ok sh (<[i:=d]> ds) c' →
     At sh (<[i:=d]> ds) c' p ls' s' → K (items, None) (Mach s' k w' e)) →
  wp (updb (upd_class i (λ cs, set_deficit (cs_deficit cs - zlen items) cs));;
      cs ← class_at i;
      done ← (if (cs_deficit cs =? 0)%Z then mret true else len ← qLen i; mret (len =? 0)%Z);
      (if done : bool then
         len ← qLen i;
         (if (len =? 0)%Z then updb (upd_class i (set_deficit 0)) else mret ());;
         updb (λ s, set_cursor (advance s) s)
       else mret ());;
      mret (items, None)) K U (Mach s k w e).
Proof.
  intros Hok Hat Hl Hwne Hin Hle HK. pose proof (dw_deficit _ _ _ Hok i Hin) as Hdi.
  destruct (At_lookup _ _ _ _ _ _ _ _ Hat Hl) as (_ & cs & d & _ & Hcs & _ & Hd & Hdd & _).
  assert (deficit ds i = d) as Hdef by (unfold deficit; by rewrite Hd).
  pose proof (lookup_lt_Some _ _ _ Hd) as Hids. pose proof (lookup_lt_Some _ _ _ Hl) as Hils.
  set (d1 := (d - zlen items)%Z).
  assert (∀ s', At sh (<[i:=d1]> ds) c p ls s' → ∃ cs', s_classes s' !! i = Some cs' ∧ cs_deficit cs' = d1)
    as Hlook.
  { intros s' Hs'. destruct (At_lookup _ _ _ _ _ _ _ _ Hs' Hl) as (_ & cs' & d' & _ & Hcs' & _ & Hd' & Hdd' & _).
    exists cs'. split; [done|]. rewrite list_lookup_insert_eq in Hd' by done. congruence. }
  pose proof (At_upd _ _ _ _ _ _ _ _ (λ cs, set_deficit (cs_deficit cs - zlen items) cs) _ Hat Hcs Hl
    ltac:(done) ltac:(done)) as Hat1. simpl in Hat1. rewrite Hdd in Hat1. fold d1 in Hat1.
  assert (∀ d', (0 ≤ d' ≤ d1)%Z → ∀ c', c' < length (s_weighted sh) → dwrr_ok sh (<[i:=d']> ds) c') as Hokd.
  { intros d' Hd' c' Hc'. split; [|done]. intros j Hj. rewrite deficit_insert by done.
    destruct (decide (i = j)) as [<-|]; [unfold d1 in *; pose proof (zlen_nonneg items); lia|by apply Hok]. }
  assert (0 < length (s_weighted sh)) as Hpos by (destruct (s_weighted sh); [done|simpl; lia]).
  apply wp_bind, wp_updb. unfold class_at. apply wp_bind, wp_bind, wp_getb. cbn [mb].
  destruct (Hlook _ Hat1) as (cs1 & -> & Hcs1). apply wp_ret. rewrite Hcs1.
  (* the part that moves on *)
  assert (∀ lx s' w', grown (s_windows sh = []) l lx → At sh (<[i:=d1]> ds) c p (<[i:=lx]> ls) s' →
    (s_windows sh = [] → zlen items = deficit ds i ∨ l = []) →
    wp ((len ← qLen i;
         (if (len =? 0)%Z then updb (upd_class i (set_deficit 0)) else mret ());;
         updb (λ s, set_cursor (advance s) s));;
        mret (items, None)) K U (Mach s' k w' e)) as Hmove.
  { intros lx s' w' Hg Hs' Hreason.
    assert (<[i:=lx]> ls !! i = Some lx) as Hlx by by apply list_lookup_insert_eq.
    apply wp_bind, wp_bind. eapply wp_qLen; [done..|]. intros l2 s2 w2 Hg2 Hat2.
    rewrite list_insert_insert_eq in Hat2. pose proof (grown_trans _ _ _ _ Hg Hg2) as Hgl2.
    assert (∀ d' s3 w3, At sh (<[i:=d']> ds) c p (<[i:=l2]> ls) s3 → (0 ≤ d' ≤ d1)%Z →
      (s_windows sh = [] → d' = 0%Z) →
      K (items, None) (Mach (set_cursor (advance s3) s3) k w3 e)) as Hfin.
    { intros d' s3 w3 Hs3 Hd' Hz'. pose proof (Nat.mod_upper_bound (S c) (length (s_weighted sh)) ltac:(lia)).
      assert (advance s3 = S c mod length (s_weighted sh))%nat as Hadv.
      { unfold advance. by rewrite (at_cursor _ _ _ _ _ _ Hs3), (at_weighted _ _ _ _ _ _ Hs3). }
      eapply (HK true d' _ l2 (advance s3)); [done|done|done|lia|done| | |eapply At_cursor, Hs3]; [|rewrite Hadv; by apply Hokd].
      intros Ha. split; [intros _; by apply Hz'|]. symmetry. by apply bool_decide_true, Hreason. }
    destruct (zlen l2 =? 0)%Z eqn:Hz; bool_to_prop.
    - assert (<[i:=l2]> ls !! i = Some l2) as Hl2 by by apply list_lookup_insert_eq.
      destruct (At_lookup _ _ _ _ _ _ _ _ Hat2 Hl2) as (_ & cs2 & d2 & _ & Hcs2 & _).
      pose proof (At_upd _ _ _ _ _ _ _ _ (set_deficit 0) _ Hat2 Hcs2 Hl2 ltac:(done) ltac:(done)) as Hat3.
      simpl in Hat3. rewrite list_insert_insert_eq in Hat3.
      apply wp_bind, wp_updb, wp_updb, wp_ret. apply (Hfin 0%Z); [done|lia|done].
    - apply wp_bind, wp_ret, wp_updb, wp_ret. apply (Hfin d1); [done|lia|].
      intros Ha. destruct (Hreason Ha) as [Hr|Hr]; [unfold d1; lia|]. subst l.
      destruct Hgl2 as [_ Hal]. by rewrite (Hal Ha) in Hz. }
  destruct (d1 =? 0)%Z eqn:Hd1; bool_to_prop.
  - apply wp_bind, wp_ret. apply (Hmove l); [done| |].
    + by rewrite (list_insert_id ls i l).
    + intros _. left. unfold d1 in Hd1. lia.
  - apply wp_bind, wp_bind. eapply wp_qLen; [exact Hat1|exact Hl|]. intros l1 s1 w1 Hg1 Hs1. apply wp_ret.
    destruct (zlen l1 =? 0)%Z eqn:Hz1; bool_to_prop.
    + apply (Hmove l1); [done..|]. intros _. right. apply zlen_nil_iff in Hz1 as ->.
      destruct Hg1 as [Hs _]. by apply submseteq_nil_r in Hs.
    + apply wp_bind, wp_ret, wp_ret. eapply (HK false d1 _ l1); [done..| | | | |exact Hs1].
      * unfold d1. lia.
      * unfold d1 in *. split; [lia|done].
      * intros Ha. split; [done|]. symmetry. apply bool_decide_false. unfold d1 in *. intros [? | ->]; [lia|].
        destruct Hg1 as [_ Hal]. by rewrite (Hal Ha) in Hz1.
      * apply Hokd; [unfold d1 in *; lia|]. by apply Hok.
Qed.

(** The class that gives up [items] in the right order, and what is left of it. *)
Lemma wp_take ctx i m o (K : list T * option err → mach S_ W → Prop) U sh ds c p ls s k w e l :
  At sh ds c p ls s → ls !! i = Some l → l ≠ [] → (1 ≤ m ≤ zlen l)%Z →
  (∀ items x kk l' s' w', grown (s_windows sh = []) l kk →
     match x with
     | None => zlen items = m ∧ items = take (length items) kk ∧
         grown (s_windows sh = []) (drop (length items) kk) l'
     | Some _ => items = [] ∧ l' = kk
     end → At sh ds c p (<[i:=l']> ls) s' → K (items, x) (Mach s' k w' e)) →
  (∀ u l' s' w', grown (s_windows sh = []) l l' → At sh ds c p (<[i:=l']> ls) s' →
     U (Some u) (Mach s' k w' e)) →
  wp (on i (λ c, cq_Pop c ctx m o)) K U (Mach s k w e).
Proof.
  intros Hat Hl Hne [Hm1 Hm2] HK HU. set (al := s_windows sh = []).
  eapply (wp_on i _ K U _ _ _ _ _ _ _ _ _ l
    (λ '(items, x) l', ∃ kk, grown al l kk ∧
      match x with
      | None => items = take (Z.to_nat m) kk ∧ grown al (drop (Z.to_nat m) kk) l'
      | Some _ => items = [] ∧ l' = kk
      end)
    (λ u l', is_Some u ∧ grown al l l')); [done..| | |].
  - intros cfg q ps Hh Hps Ha.
    assert (∀ a b : list T, grown (ps = []) a b → grown al a b) as Hweak.
    { intros a b [Hs Hk]. split; [done|]. intros Hal. by apply Hk, Ha. }
    eapply wp_mono; [| |by apply law_Pop].
    + intros [items [x|]] t (kk & Hg & Hit & Hrest).
      * exists kk. split; [|done]. exists kk. auto.
      * destruct Hrest as (l' & Hg' & Hh'). exists l'. split; [|done]. exists kk. auto.
    + intros u t (Hu & kk & Hg & Hh'). exists kk. auto.
  - intros [items x] l' s' w' (kk & Hg & Hx) Hat'. eapply (HK items x kk l'); [done| |done].
    destruct x as [x|]; [done|]. destruct Hx as [-> Hd].
    pose proof (grown_zlen _ _ _ Hg) as Hlen. unfold zlen in *.
    rewrite length_take_le by lia. split; [lia|done].
  - intros u l' s' w' [[u' ->] Hg] Hat'. eauto.
Qed.

Lemma wp_serve ctx i n o (K : list T * option err → mach S_ W → Prop) U sh ds c p ls s k w e l cs0 :
  dwrr_ok sh ds c → At sh ds c p ls s → s_classes sh !! i = Some cs0 → ls !! i = Some l → l ≠ [] →
  (1 ≤ n)%Z → (cs_priority cs0 = false → i ∈ s_weighted sh ∧ (1 ≤ deficit ds i)%Z) →
  (∀ items x ds' c' p' ls' s' w',
     match x with
     | Some _ => items = [] ∧ ds' = ds ∧ c' = c ∧ p' = p ∧ Grown sh ls ls'
     | None => served sh p ls i n items p' ls' ∧
         if cs_priority cs0 then ds' = ds ∧ c' = c else ∃ adv, spent sh ds c ls i n items adv ds' c'
     end → dwrr_ok sh ds' c' → At sh ds' c' p' ls' s' → K (items, x) (Mach s' k w' e)) →
  (∀ u ls' s' w', Grown sh ls ls' → At sh ds c p ls' s' → U (Some u) (Mach s' k w' e)) →
  wp (serve ctx i n o) K U (Mach s k w e).
Proof.
  intros Hok Hat Hcs0 Hl Hne Hn Hprio HK HU. unfold serve, class_at.
  destruct (At_lookup _ _ _ _ _ _ _ _ Hat Hl) as (cs0' & cs & d & Hcs0' & Hcs & Hsame & Hd & Hdd & _).
  rewrite Hcs0 in Hcs0'; injection Hcs0' as <-.
  assert (deficit ds i = d) as Hdef by (unfold deficit; by rewrite Hd).
  pose proof (lookup_lt_Some _ _ _ Hl) as Hils.
  apply wp_bind, wp_bind, wp_getb. cbn [mb]. rewrite Hcs. apply wp_ret.
  rewrite (sc_priority _ _ Hsame), Hdd.
  apply wp_bind. eapply wp_qLen; [done..|]. intros l1 s1 w1 Hg1 Hat1.
  assert (<[i:=l1]> ls !! i = Some l1) as Hl1 by by apply list_lookup_insert_eq.
  assert (1 ≤ zlen l1)%Z as Hz1.
  { apply grown_zlen in Hg1. destruct l; [done|]. rewrite zlen_cons in Hg1. pose proof (zlen_nonneg l). lia. }
  set (m := if cs_priority cs0 then Z.min n (zlen l1) else Z.min (Z.min n (zlen l1)) d).
  assert (1 ≤ m ≤ zlen l1 ∧ m ≤ n ∧ (cs_priority cs0 = false → m ≤ d))%Z as (Hm & Hmn & Hmd).
  { unfold m. destruct (cs_priority cs0); [lia|]. destruct (Hprio eq_refl). lia. }
  apply wp_bind. eapply (wp_take ctx i m o); [exact Hat1|exact Hl1|by intros ->|done| |].
  2: { intros u l' s' w' Hg Hs'. rewrite list_insert_insert_eq in Hs'. eapply HU, Hs'.
       eapply Grown_insert; [done|]. by eapply grown_trans. }
  intros items x kk l2 s2 w2 Hgk Hx Hat2. rewrite list_insert_insert_eq in Hat2.
  pose proof (grown_trans _ _ _ _ Hg1 Hgk) as Hgl.
  apply wp_bind, wp_updb. pose proof (At_pending _ _ _ _ _ _ (- zlen items)%Z Hat2) as Hat3.
  assert (<[i:=l2]> ls !! i = Some l2) as Hl2 by by apply list_lookup_insert_eq.
  apply wp_bind. eapply wp_recordDepth_class; [done..|]. intros l3 s3 w3 Hg3 Hat4.
  rewrite list_insert_insert_eq in Hat4.
  destruct x as [x|].
  { destruct Hx as [-> ->]. apply wp_ret. eapply HK; [|exact Hok|exact Hat4]. split_and!; try done.
    - unfold zlen. simpl. lia.
    - eapply Grown_insert; [done|]. by eapply grown_trans. }
  destruct Hx as (Hzi & Htake & Hgd). pose proof (grown_trans _ _ _ _ Hgd Hg3) as Hgd3.
  assert (∀ l4, grown (s_windows sh = []) l3 l4 → served sh p ls i n items (p + - zlen items)%Z (<[i:=l4]> ls))
    as Hserved.
  { intros l4 Hg4. split; [|lia|lia|].
    - exists l, kk, l4. split_and!; try done. by eapply grown_trans.
    - intros Ha cs1 ll Hcs1 Hpr Hll. rewrite Hcs0 in Hcs1; injection Hcs1 as <-.
      rewrite Hl in Hll; injection Hll as <-. destruct Hg1 as [_ H1]. specialize (H1 Ha) as ->.
      rewrite Hzi. unfold m. by rewrite Hpr. }
  destruct (cs_priority cs0) eqn:Hp.
  { apply wp_ret. eapply HK; [split; [by apply Hserved|done]|done|exact Hat4]. }
  destruct (Hprio eq_refl) as [Hin Hd1].
  assert (<[i:=l3]> ls !! i = Some l3) as Hl3 by by apply list_lookup_insert_eq.
  eapply (wp_settle i items K U sh ds c _ _ s3 k w3 e l3);
    [exact Hok|exact Hat4|exact Hl3| |done|rewrite Hdef, Hzi; auto|].
  { by intros He; rewrite He in Hin; apply elem_of_nil in Hin. }
  intros adv d4 ls4 l4 c4 s4 w4 -> Hg4 Hc4 Hd4 Hadv Hal Hok4 Hat5. rewrite list_insert_insert_eq in Hat5.
  eapply HK; [split; [by apply (Hserved l4)|]|done|exact Hat5].
  exists adv. split; [rewrite Hdef, Hzi; auto|done| |].
  - exists d4. split_and!; try done; [lia|lia|]. intros Ha. by apply Hal.
  - intros Ha ll Hll. rewrite Hl in Hll; injection Hll as <-.
    destruct Hg1 as [_ H1], Hgk as [_ H2], Hgd3 as [_ H3].
    specialize (H1 Ha) as ->. specialize (H2 Ha) as ->. specialize (H3 Ha) as ->.
    destruct (Hal Ha) as [_ ->]. rewrite Hzi, Hdef. split; [unfold m; lia|].
    apply bool_decide_ext. split; intros [?|Hl0]; [by left|right|by left|right].
    + apply (f_equal length) in Hl0. rewrite length_drop in Hl0. simpl in Hl0. unfold zlen in *. lia.
    + apply drop_ge. unfold zlen in *. lia.
Qed.

(** * Choosing a class *)

(** What [serveable] settles on: the priority class whenever it holds something, else the first class
    in rotation that does; nothing only when every class was seen empty. *)
Inductive chosen sh (ds : list Z) (c : nat) ls : option nat → list Z → nat → list (list T) → Prop :=
  | chosen_priority p l ls' :
      s_priority sh = Some p → Grown sh ls ls' → ls' !! p = Some l → l ≠ [] →
      chosen sh ds c ls (Some p) ds c ls'
  | chosen_weighted i sk rest l ls' c' :
      (∀ p, s_priority sh = Some p → ls !! p = Some []) →
      rotation (s_weighted sh) c = sk ++ i :: rest →
      rotation (s_weighted sh) c' = i :: rest ++ sk → seen_empty ls sk →
      Grown sh ls ls' → ls' !! i = Some l → l ≠ [] →
      chosen sh ds c ls (Some i) (grant sh i (forfeit sk ds)) c' ls'
  | chosen_none ls' c' :
      (∀ p, s_priority sh = Some p → ls !! p = Some []) → seen_empty ls (s_weighted sh) →
      rotation (s_weighted sh) c' = rotation (s_weighted sh) c → Grown sh ls ls' →
      chosen sh ds c ls None (forfeit (rotation (s_weighted sh) c) ds) c' ls'.

Lemma wp_serveable (K : option nat → mach S_ W → Prop) U sh ds c p ls s k w e :
  shape_ok sh → dwrr_ok sh ds c → At sh ds c p ls s →
  (∀ o ds' c' ls' s' w', chosen sh ds c ls o ds' c' ls' → dwrr_ok sh ds' c' → At sh ds' c' p ls' s' →
     K o (Mach s' k w' e)) →
  wp serveable K U (Mach s k w e).
Proof.
  intros Hsh Hok Hat HK. unfold serveable. apply wp_bind, wp_getb. cbn [mb].
  rewrite (at_weighted _ _ _ _ _ _ Hat), (at_priority _ _ _ _ _ _ Hat).
  assert (∀ ls1 s1 w1, Grown sh ls ls1 → At sh ds c p ls1 s1 →
    (∀ p, s_priority sh = Some p → ls !! p = Some []) →
    wp (scan (length (s_weighted sh))) K U (Mach s1 k w1 e)) as Hscan.
  { intros ls1 s1 w1 Hg1 Hat1 Hpe. eapply wp_scan_spec; [done..|lia|].
    intros o sk rest ls' s' w' c' Hrot Hrot' Hlen Hsk Hg' ds' Hok' Hat'.
    assert (seen_empty ls sk) as Hsk0.
    { eapply Forall_impl; [exact Hsk|]. intros j. by apply (Grown_empty sh). }
    eapply HK; [|exact Hok'|exact Hat']. destruct o as [i|].
    - destruct Hlen as (_ & l & Hl & Hne). eapply chosen_weighted; try done. by etransitivity.
    - assert (rest = []) as ->.
      { apply (f_equal length) in Hrot. rewrite (Permutation_length (rotation_Permutation _ _)), length_app in Hrot.
        apply length_zero_iff_nil. lia. }
      rewrite app_nil_r in Hrot. simpl in Hrot'. subst ds'. rewrite <- Hrot. apply chosen_none; try done.
      + unfold seen_empty. rewrite <- (rotation_Permutation (s_weighted sh) c). by rewrite Hrot.
      + by rewrite Hrot, Hrot'.
      + by etransitivity. }
  destruct (s_priority sh) as [pc|] eqn:Hp; [|by apply (Hscan ls)].
  destruct (sh_priority _ Hsh pc Hp) as (cs0 & Hcs0 & _).
  destruct (At_length _ _ _ _ _ _ pc Hat ltac:(by eexists)) as (_ & Hpl & _ & [l Hl]).
  apply wp_bind. eapply wp_qLen; [done..|]. intros l' s1 w1 Hg Hat1.
  pose proof (Grown_insert _ _ _ _ _ Hl Hg) as Hgr.
  destruct (0 <? zlen l')%Z eqn:Hz; bool_to_prop.
  - apply wp_ret. eapply HK; [|exact Hok|exact Hat1].
    eapply chosen_priority; [done|done|by apply list_lookup_insert_eq|]. by intros ->.
  - eapply Hscan; [exact Hgr|exact Hat1|]. intros ? [= <-]. rewrite Hl.
    assert (l' = []) as -> by (apply zlen_nil_iff; pose proof (zlen_nonneg l'); lia).
    destruct Hg as [Hs _]. by apply submseteq_nil_r in Hs as ->.
Qed.

(** * What stands ahead of a class *)

(** What a class may still emit in the current round. *)
Definition quantum sh (ds : list Z) (k : nat) : Z :=
  if decide (deficit ds k = 0%Z) then weight sh k else deficit ds k.

(** What the classes up to [i] may emit before the cursor gets to it. *)
Fixpoint ahead sh (ds : list Z) (i : nat) (rot : list nat) : Z :=
  match rot with
  | [] => 0
  | k :: rot => if decide (k = i) then 0 else quantum sh ds k + ahead sh ds i rot
  end.

Lemma quantum_nonneg sh ds c k : dwrr_ok sh ds c → k ∈ s_weighted sh → (0 ≤ quantum sh ds k ≤ weight sh k)%Z.
Proof. intros Hok Hk. pose proof (dw_deficit _ _ _ Hok k Hk). unfold quantum. case_decide; lia. Qed.

Lemma ahead_app sh ds i a b :
  ahead sh ds i (a ++ b) = if decide (i ∈ a) then ahead sh ds i a else (ahead sh ds i a + ahead sh ds i b)%Z.
Proof.
  induction a as [|k a IH]; [done|]. cbn [ahead app]. rewrite IH. clear IH.
  destruct (decide (i ∈ k :: a)) as [Hin|Hin], (decide (k = i)) as [->|Hk]; try done.
  - rewrite decide_True; [done|]. apply elem_of_cons in Hin as [->|?]; done.
  - by destruct Hin; left.
  - rewrite decide_False; [lia|]. intros Ha. apply Hin. by right.
Qed.

Lemma ahead_ext sh ds ds' i rot :
  (∀ k, k ∈ rot → k ≠ i → quantum sh ds' k = quantum sh ds k) → ahead sh ds' i rot = ahead sh ds i rot.
Proof.
  induction rot as [|k rot IH]; intros Hk; simpl; [done|]. destruct (decide (k = i)); [done|].
  rewrite IH by (intros; apply Hk; [by right|done]). by rewrite (Hk k) by (done || by left).
Qed.

Lemma ahead_bound sh ds c i rot :
  dwrr_ok sh ds c → (∀ k, k ∈ rot → k ∈ s_weighted sh) →
  (0 ≤ ahead sh ds i rot ≤ foldr (λ k z, (if decide (k = i) then 0 else weight sh k) + z) 0 rot)%Z.
Proof.
  intros Hok. induction rot as [|k rot IH]; intros Hin; simpl; [lia|].
  specialize (IH ltac:(intros; apply Hin; by right)).
  pose proof (quantum_nonneg sh ds c k Hok ltac:(apply Hin; by left)). case_decide; lia.
Qed.

Lemma forfeit_other sk (ds : list Z) k : k ∉ sk → deficit (forfeit sk ds) k = deficit ds k.
Proof.
  unfold forfeit. revert ds. induction sk as [|j sk IH]; intros ds Hk; simpl; [done|].
  apply not_elem_of_cons in Hk as [Hj Hk]. rewrite IH by done. unfold deficit.
  by rewrite list_lookup_insert_ne.
Qed.

Lemma length_forfeit sk (ds : list Z) : length (forfeit sk ds) = length ds.
Proof.
  unfold forfeit. revert ds. induction sk as [|j sk IH]; intros ds; simpl; [done|].
  by rewrite IH, length_insert.
Qed.

(** The debt to class [i]: what may still be served before it. *)
Definition debt sh ds c i : Z := ahead sh ds i (rotation (s_weighted sh) c).

Section debt.
Variables (sh : CBWFQ Cfg Q W T) (ds : list Z) (c i j c' : nat) (sk rest : list nat) (ls : list (list T)).
Hypothesis (Hsh : shape_ok sh) (Hok : dwrr_ok sh ds c) (Hj : j < length ds).
Hypothesis (Hrot : rotation (s_weighted sh) c = sk ++ j :: rest).
Hypothesis (Hrot' : rotation (s_weighted sh) c' = j :: rest ++ sk).
Hypothesis (Hin : i ∈ s_weighted sh) (Hij : j ≠ i) (Hsk : i ∉ sk).

Let ds1 := grant sh j (forfeit sk ds).

Lemma rotation_nodup : NoDup (sk ++ j :: rest).
Proof. rewrite <- Hrot, rotation_Permutation. by apply Hsh. Qed.

Lemma debt_members k : k ∈ sk ++ j :: rest → k ∈ s_weighted sh.
Proof. rewrite <- Hrot, rotation_Permutation. done. Qed.

Lemma debt_in_rest : i ∈ rest.
Proof.
  assert (i ∈ sk ++ j :: rest) as Hi by by rewrite <- Hrot, rotation_Permutation.
  rewrite elem_of_app, elem_of_cons in Hi. naive_solver.
Qed.

Lemma debt_not_skipped : j ∉ sk.
Proof. pose proof rotation_nodup as Hnd. apply NoDup_app in Hnd as (_ & Hd & _). intros Hs. by apply (Hd j Hs); left. Qed.

Lemma debt_granted : deficit ds1 j = quantum sh ds j.
Proof.
  unfold ds1. rewrite grant_deficit by by rewrite length_forfeit. unfold quantum.
  rewrite forfeit_other by exact debt_not_skipped.
  destruct (decide (deficit ds j = 0%Z)); [by rewrite decide_True|]. rewrite decide_False; [done|].
  by intros [_ ?].
Qed.

Lemma debt_rest ds2 : (∀ k, k ≠ j → deficit ds2 k = deficit ds1 k) →
  ahead sh ds2 i rest = ahead sh ds i rest.
Proof.
  intros Hds. apply ahead_ext. intros k Hk Hki.
  pose proof rotation_nodup as Hnd. apply NoDup_app in Hnd as (_ & Hd & Hnd). apply NoDup_cons in Hnd as [Hjr _].
  assert (k ≠ j) as Hkj by (by intros ->). assert (k ∉ sk) as Hks by (intros Hs; by apply (Hd k Hs); right).
  assert (deficit ds2 k = deficit ds k) as He; [|unfold quantum; by rewrite He].
  rewrite Hds by done. unfold ds1. rewrite grant_deficit by by rewrite length_forfeit.
  rewrite decide_False by (intros [Hjk _]; by apply Hkj). by apply forfeit_other.
Qed.

Lemma debt_before : (quantum sh ds j + ahead sh ds i rest ≤ debt sh ds c i)%Z.
Proof.
  unfold debt. rewrite Hrot, ahead_app, decide_False by done. cbn [ahead]. rewrite decide_False by done.
  pose proof (ahead_bound sh ds c i sk Hok ltac:(intros; apply debt_members, elem_of_app; by left)). lia.
Qed.

(** Choosing another class does not add to the debt, and serving it pays off what it emits. *)
Lemma debt_chosen : (debt sh ds1 c' i ≤ debt sh ds c i)%Z.
Proof.
  unfold debt at 1. rewrite Hrot'. cbn [ahead]. rewrite decide_False by done.
  rewrite ahead_app, decide_True by exact debt_in_rest. rewrite (debt_rest ds1) by done.
  pose proof debt_before. pose proof debt_granted as Hg. unfold quantum at 1. rewrite Hg.
  assert (0 < weight sh j)%Z as Hw.
  { destruct (sh_weighted _ Hsh j ltac:(apply debt_members, elem_of_app; right; by left)) as (cs & Hcs & _ & ?).
    rewrite (weight_lookup _ _ _ Hcs). lia. }
  case_decide as Hz; [|lia]. unfold quantum in Hz. case_decide; lia.
Qed.

Lemma debt_spent n (items : list T) adv ds2 c2 :
  c' < length (s_weighted sh) → spent sh ds1 c' ls j n items adv ds2 c2 →
  (debt sh ds2 c2 i + zlen items ≤ debt sh ds c i)%Z.
Proof.
  intros Hc' [Hb Hc2 (d & -> & Hd & Hadv & _) _]. rewrite debt_granted in *. pose proof debt_before as Hbef.
  assert (j < length ds1) as Hj1.
  { unfold ds1, grant. by case_decide; rewrite ?length_insert, length_forfeit. }
  assert (ahead sh (<[j:=d]> ds1) i rest = ahead sh ds i rest) as Hrest.
  { apply debt_rest. intros k Hk. unfold deficit. by rewrite list_lookup_insert_ne. }
  unfold debt at 1. destruct adv; subst c2.
  - rewrite (rotation_next _ _ _ _ Hc' Hrot'), <- app_assoc, ahead_app, decide_True by exact debt_in_rest. lia.
  - rewrite Hrot'. cbn [ahead]. rewrite decide_False by done.
    rewrite ahead_app, decide_True by exact debt_in_rest. destruct (Hadv eq_refl) as [Hdj Hnz].
    assert (quantum sh (<[j:=d]> ds1) j = d) as ->; [|lia].
    unfold quantum. by rewrite deficit_insert, (decide_True (P := j = j)), decide_False by done.
Qed.
End debt.
End under_lock.
