(* ===== verification/CbwfqPull.v ===== *)
(** The operations of the scheduler: which class a Pull serves and what that does to the round, that
    no class starves, where a Push goes, and who holds the mutex afterwards. *)

From S2P Require Import Prelude Errors Machine Core Contract Logic ContractFacts Interface Cbwfq CbwfqFacts.

Section operations.
Context {Cfg Q W T : Type} `{!ClassQueue Cfg Q W T} (holds : list T → Q → Prop).
Context `{!ClassQueueLaws Cfg Q W T holds} `{!SchedTelemetry W}.
Abbreviation S_ := (CBWFQ Cfg Q W T).
Abbreviation At := (At holds).
Implicit Types (s sh : CBWFQ Cfg Q W T) (cs : classState Cfg Q) (ls : list (list T)).

(** * Instrumentation *)

Lemma wp_sched_counted {A} o f (m : go S_ W A) (K : A → mach S_ W → Prop) U s k w e :
  (∀ a s k w w' e, K a (Mach s k w e) → K a (Mach s k w' e)) →
  wp m K U (Mach s k w e) → (∀ x, wp m K U (Mach s k (set_smet x w) e)) →
  wp (instrumented o f m) K U (Mach s k w e).
Proof.
  intros HK Hw Hm. unfold instrumented. apply wp_bind, wp_getb. cbn [mb]. destruct (s_named s); [|done].
  apply wp_bind, wp_updw, wp_bind. eapply wp_mono; [| |apply Hm]; [|done].
  intros a [s' k' w' e'] Ha. apply wp_bind. destruct (f a); [apply wp_updw|apply wp_ret]; apply wp_ret; by eapply HK.
Qed.

Lemma wp_sched_instrumented {A} o f (m : go S_ W A) (K : A → mach S_ W → Prop) U s k w e :
  (∀ a s k w w' e, K a (Mach s k w e) → K a (Mach s k w' e)) →
  (∀ w, wp m K U (Mach s k w e)) → wp (instrumented o f m) K U (Mach s k w e).
Proof. intros HK Hm. by apply wp_sched_counted. Qed.

(** * The invariant *)

Definition deficits s : list Z := cs_deficit <$> s_classes s.

Record Sound s : Prop := {
  so_shape : shape_ok s;
  so_dwrr : dwrr_ok s (deficits s) (s_cursor s);
  so_queues : ∃ ls, Forall2 (λ cs l, holds l (cs_queue cs)) (s_classes s) ls;
  so_windows : Forall (Forall arriving) (s_windows s);
  so_signal : signal_ok (s_sig s);
}.

(** The classes of [s] hold [ls]. *)
Definition filled s ls : Prop := Forall2 (λ cs l, holds l (cs_queue cs)) (s_classes s) ls.

Lemma same_class_refl cs : same_class cs cs.
Proof. done. Qed.

Lemma At_self s ls :
  filled s ls → Forall (Forall arriving) (s_windows s) →
  At s (deficits s) (s_cursor s) (s_pending s) ls s.
Proof.
  intros Hf Hw. constructor; try done. apply Forall_Forall2_diag, Forall_true. intros cs. apply same_class_refl.
Qed.

Lemma same_class_lookup sh s i :
  Forall2 same_class (s_classes sh) (s_classes s) →
  ∀ cs, s_classes sh !! i = Some cs → ∃ cs', s_classes s !! i = Some cs' ∧ same_class cs cs'.
Proof. intros Hf cs Hcs. exact (Forall2_lookup_l _ _ _ _ _ Hf Hcs). Qed.

Lemma At_weight sh ds c p ls s i : At sh ds c p ls s → weight s i = weight sh i.
Proof.
  intros Hat. pose proof (at_classes _ _ _ _ _ _ _ Hat) as Hf. unfold weight.
  destruct (s_classes sh !! i) as [cs|] eqn:Hcs.
  - destruct (same_class_lookup _ _ _ Hf cs Hcs) as (cs' & -> & Hsame). simpl. apply Hsame.
  - apply Forall2_length in Hf. apply lookup_ge_None in Hcs.
    by rewrite (proj2 (lookup_ge_None (s_classes s) i)) by lia.
Qed.

Lemma At_shape sh ds c p ls s : At sh ds c p ls s → shape_ok sh → shape_ok s.
Proof.
  intros Hat [Hw Hn Hp Hd]. pose proof (at_classes _ _ _ _ _ _ _ Hat) as Hf.
  constructor; rewrite ?(at_weighted _ _ _ _ _ _ _ Hat), ?(at_priority _ _ _ _ _ _ _ Hat), ?(at_def _ _ _ _ _ _ _ Hat); [|done| |].
  - intros i Hi. destruct (Hw i Hi) as (cs & Hcs & H1 & H2).
    destruct (same_class_lookup _ _ _ Hf cs Hcs) as (cs' & Hcs' & [? ? ? ?]). exists cs'. split; [done|]. split; congruence.
  - intros i Hi. destruct (Hp i Hi) as (cs & Hcs & H1).
    destruct (same_class_lookup _ _ _ Hf cs Hcs) as (cs' & Hcs' & [? ? ? ?]). exists cs'. split; [done|]. congruence.
  - destruct Hd as [cs Hcs]. destruct (same_class_lookup _ _ _ Hf cs Hcs) as (cs' & Hcs' & _). by exists cs'.
Qed.

Lemma At_dwrr sh ds c p ls s : At sh ds c p ls s → dwrr_ok sh ds c → dwrr_ok s (deficits s) (s_cursor s).
Proof.
  intros Hat [Hd Hc]. unfold deficits. rewrite (at_deficits _ _ _ _ _ _ _ Hat), (at_cursor _ _ _ _ _ _ _ Hat).
  constructor; rewrite (at_weighted _ _ _ _ _ _ _ Hat); [|done].
  intros i Hi. rewrite (At_weight _ _ _ _ _ _ _ Hat). auto.
Qed.

Lemma At_sound sh ds c p ls s :
  At sh ds c p ls s → shape_ok sh → dwrr_ok sh ds c → signal_ok (s_sig sh) → Sound s.
Proof.
  intros Hat Hsh Hok Hsig. constructor.
  - by eapply At_shape.
  - by eapply At_dwrr.
  - exists ls. apply Hat.
  - apply Hat.
  - by rewrite (at_sig _ _ _ _ _ _ _ Hat).
Qed.

Lemma At_name sh ds c p ls s i cs :
  At sh ds c p ls s → s_classes sh !! i = Some cs → ∃ cs', s_classes s !! i = Some cs' ∧ cs_name cs' = cs_name cs.
Proof.
  intros Hat Hcs. destruct (same_class_lookup _ _ _ (at_classes _ _ _ _ _ _ _ Hat) cs Hcs) as (cs' & ? & []).
  by exists cs'.
Qed.

(** * A trip of Pull under the mutex *)

(** What a Pull that got the mutex did before it gave it back. *)
Inductive pulled sh ls (n : Z) : list T * string * option err → list Z → nat → Z → list (list T) → Prop :=
  | pulled_items i cs items ds1 c1 ls1 ds' c' p' ls' :
      chosen sh (deficits sh) (s_cursor sh) ls (Some i) ds1 c1 ls1 → dwrr_ok sh ds1 c1 →
      s_classes sh !! i = Some cs → served sh (s_pending sh) ls1 i n items p' ls' →
      (if cs_priority cs then ds' = ds1 ∧ c' = c1 else ∃ adv, spent sh ds1 c1 ls1 i n items adv ds' c') →
      pulled sh ls n (items, cs_name cs, None) ds' c' p' ls'
  | pulled_error i cs ds1 c1 ls1 ls' e :
      chosen sh (deficits sh) (s_cursor sh) ls (Some i) ds1 c1 ls1 → dwrr_ok sh ds1 c1 →
      s_classes sh !! i = Some cs → Grown sh ls1 ls' →
      pulled sh ls n ([], cs_name cs, Some e) ds1 c1 (s_pending sh) ls'.

(** The class chosen is there, is worth serving and, when it is weighted, is in credit. *)
Lemma chosen_class sh ds c ls i ds1 c1 ls1 :
  shape_ok sh → dwrr_ok sh ds c → length ds = length (s_classes sh) →
  chosen sh ds c ls (Some i) ds1 c1 ls1 →
  ∃ cs l, s_classes sh !! i = Some cs ∧ ls1 !! i = Some l ∧ l ≠ [] ∧
    (cs_priority cs = false → i ∈ s_weighted sh ∧ (1 ≤ deficit ds1 i)%Z).
Proof.
  intros Hsh Hok Hlen Hch. inversion Hch as [p l ls' Hp Hg Hl Hne| i' sk rest l ls' c' Hpe Hrot Hrot' Hsk Hg Hl Hne|]; subst.
  - destruct (sh_priority _ Hsh i Hp) as (cs & Hcs & Hpr). exists cs, l. rewrite Hpr. done.
  - assert (i ∈ s_weighted sh) as Hi.
    { rewrite <- (rotation_Permutation _ c), Hrot. apply elem_of_app. right. by left. }
    destruct (sh_weighted _ Hsh i Hi) as (cs & Hcs & Hpr & Hw). exists cs, l. split_and!; try done.
    intros _. split; [done|].
    rewrite grant_deficit by (rewrite length_forfeit, Hlen; by eapply lookup_lt_Some).
    assert (i ∉ sk) as Hisk.
    { pose proof (sh_nodup _ Hsh) as Hnd. rewrite <- (rotation_Permutation _ c), Hrot in Hnd.
      apply NoDup_app in Hnd as (_ & Hd & _). intros Hs. by apply (Hd i Hs); left. }
    rewrite forfeit_other by done. pose proof (dw_deficit _ _ _ Hok i Hi). rewrite (weight_lookup _ _ _ Hcs) in *.
    case_decide; [lia|]. assert (deficit ds i ≠ 0%Z); [|lia]. naive_solver.
Qed.

Lemma wp_pull_trip ctx n o (K : option (list T * string * option err) → mach S_ W → Prop) U s ls w e i ds1 c1 ls1 s1 :
  shape_ok s → dwrr_ok s (deficits s) (s_cursor s) → (1 ≤ n)%Z →
  chosen s (deficits s) (s_cursor s) ls (Some i) ds1 c1 ls1 → dwrr_ok s ds1 c1 → At s ds1 c1 (s_pending s) ls1 s1 →
  (∀ r ds' c' p' ls' s' w', pulled s ls n r ds' c' p' ls' → dwrr_ok s ds' c' → At s ds' c' p' ls' s' →
     K (Some r) (Mach s' Unlocked w' e)) →
  (∀ u ls' s' w', Grown s ls1 ls' → At s ds1 c1 (s_pending s) ls' s' → U (Some u) (Mach s' WLocked w' e)) →
  wp ('(items, x) ← serve ctx i n o; Unlock;; cs ← class_at i; return_ (items, cs_name cs, x)) K U
    (Mach s1 WLocked w e).
Proof.
  intros Hsh Hok Hn Hch Hok1 Hat HK HU.
  destruct (chosen_class s (deficits s) (s_cursor s) ls i ds1 c1 ls1) as (cs & l & Hcs & Hl & Hne & Hcred); try done.
  { unfold deficits. by rewrite length_fmap. }
  apply wp_bind. eapply (wp_serve holds); [exact Hok1|exact Hat|exact Hcs|exact Hl|done|done|done| |exact HU].
  intros items x ds' c' p' ls' s' w' Hx Hok' Hat'. apply wp_bind, wp_Unlock.
  destruct (At_name _ _ _ _ _ _ _ _ Hat' Hcs) as (cs' & Hcs' & Hname).
  unfold class_at. apply wp_bind, wp_bind, wp_getb. cbn [mb]. rewrite Hcs'. apply wp_ret, wp_ret. rewrite Hname.
  destruct x as [x|].
  - destruct Hx as (-> & -> & -> & -> & Hg). eapply HK; [by eapply pulled_error|done|done].
  - destruct Hx as [Hsv Hsp]. eapply HK; [|exact Hok'|exact Hat']. by eapply pulled_items.
Qed.

(** What no operation changes. *)
Record same_shape sh s : Prop := {
  ss_classes : Forall2 same_class (s_classes sh) (s_classes s);
  ss_weighted : s_weighted s = s_weighted sh;
  ss_priority : s_priority s = s_priority sh;
  ss_def : s_def s = s_def sh;
  ss_named : s_named s = s_named sh;
  ss_closed : s_closed sh = true → s_closed s = true;
  ss_alone : s_windows sh = [] → s_windows s = [];
}.

#[export] Instance same_class_preorder : PreOrder (@same_class Cfg Q).
Proof. split; [done|]. intros x y z [] []. constructor; congruence. Qed.

#[export] Instance same_shape_preorder : PreOrder same_shape.
Proof.
  split.
  - intros s. by constructor.
  - intros x y z [Hxy] [Hyz]. constructor; try congruence; auto.
    eapply Forall2_trans; [|exact Hxy|exact Hyz]. intros ???. apply transitivity.
Qed.

Lemma At_same_shape sh ds c p ls s : At sh ds c p ls s → same_shape sh s.
Proof. intros []. constructor; first [done|congruence]. Qed.

(** The scheduler that was built as [base], at any later time. *)
Definition Live base s : Prop := Sound s ∧ same_shape base s.

Lemma Live_sig base g s : Live base s → signal_ok g → Live base (lset sig_l g s).
Proof.
  intros [[[Hw Hn Hp Hd] [Hdd Hc] Hq Hwi Hs] []] Hg.
  split; constructor; done.
Qed.

Lemma At_live base sh ds c p ls s :
  Live base sh → dwrr_ok sh ds c → At sh ds c p ls s → Live base s.
Proof.
  intros [[] Hb] Hok Hat. split; [by eapply At_sound|].
  etransitivity; [exact Hb|]. by eapply At_same_shape.
Qed.

(** The interference of whoever else keeps the scheduler sound. *)
Abbreviation calm base := (rely (λ _, Live base) False).

Lemma wp_sched_Wait base ctx s w e (K : option err → mach S_ W → Prop) U :
  Live base s → calm base ctx e →
  (e = [] → U None (Mach (lupd sig_l Register s) Unlocked w [])) →
  (∀ s' w' e', Live base s' → calm base ctx e' → length e' < length e →
     K (ctx_cause ctx w') (Mach s' Unlocked w' e')) →
  wp (signal_Wait sig_l ctx Unlock) K U (Mach s WLocked w e).
Proof.
  intros Hs He HU HK. unfold signal_Wait, Wait. apply wp_bind, wp_getb, wp_bind, wp_updb, wp_bind, wp_Unlock, wp_bind.
  apply (wp_Park (λ _, Live base) False ctx 0%Z); [done| |done| |].
  - apply Live_sig; [done|]. apply Register_ok, Hs.
  - intros ->. by apply HU.
  - intros s' w' e' Hs' He' Hl. apply wp_bind, wp_updb, wp_bind, wp_getw, wp_ret. apply HK; [|done..].
    apply Live_sig; [done|]. apply Unregister_ok, Hs'.
Qed.

Lemma wp_sched_closedOrCause base ctx s w e (K : option err → mach S_ W → Prop) U :
  Live base s → calm base ctx e →
  (∀ x s' w' e', Live base s' → calm base ctx e' → K x (Mach s' Unlocked w' e')) →
  wp (closedOrCause ctx) K U (Mach s Unlocked w e).
Proof.
  intros Hs He HK. unfold closedOrCause. apply wp_bind, (wp_acquire (λ _, Live base) False ctx 0%Z); [done..|].
  intros s' w' e' Hs' He' _ _. apply wp_bind, wp_getb, wp_bind, wp_Unlock. cbn [mb].
  destruct (s_closed s'); [by apply wp_ret, HK|]. apply wp_bind, wp_getw, wp_ret. by apply HK.
Qed.

(** All that Pull does with the mutex in hand, from a sound scheduler that is not closed. *)
Definition pull_body (ctx : Ctx W) n o : go S_ W (option (list T * string * option err)) :=
  q ← serveable;
  match q with
  | Some i =>
      '(items, e) ← serve ctx i n o; Unlock;; cs ← class_at i; return_ (items, cs_name cs, e)
  | None =>
      iferr werr := signal_Wait sig_l ctx Unlock
      then e ← closedOrCause ctx; return_ ([], "", e)
      else continue_
  end.

(** Nothing was there to serve when Pull looked. *)
Definition all_empty sh ls : Prop :=
  seen_empty ls (s_weighted sh) ∧ (∀ p, s_priority sh = Some p → ls !! p = Some []).

Record parked_at base sh ls (s' : S_) : Prop := {
  pa_empty : all_empty sh ls;
  pa_waiting : sg_next (s_sig sh) ∈ sg_parked (s_sig s');
  pa_live : Live base s';
}.

Lemma wp_pull_body base ctx n o (K : option (list T * string * option err) → mach S_ W → Prop) U s ls w e :
  Live base s → filled s ls → (1 ≤ n)%Z → calm base ctx e →
  (∀ r ds' c' p' ls' s' w', pulled s ls n r ds' c' p' ls' → dwrr_ok s ds' c' → At s ds' c' p' ls' s' →
     K (Some r) (Mach s' Unlocked w' e)) →
  (∀ x s' w' e', all_empty s ls → e ≠ [] → Live base s' → calm base ctx e' →
     match x with Some r => r.1 = ([], "") | None => length e' < length e end →
     K x (Mach s' Unlocked w' e')) →
  (∀ u ls' s' w', Grown s ls ls' → filled s' ls' → Live base s' → U (Some u) (Mach s' WLocked w' e)) →
  (∀ s' w', parked_at base s ls s' → e = [] → U None (Mach s' Unlocked w' [])) →
  wp (pull_body ctx n o) K U (Mach s WLocked w e).
Proof.
  intros Hs Hf Hn He HK HKw HU HP. pose proof Hs as [[Hsh Hok _ Hwi Hsig] _]. unfold pull_body.
  apply wp_bind. eapply (wp_serveable holds); [exact Hsh|exact Hok|by apply At_self|].
  intros [i|] ds1 c1 ls1 s1 w1 Hch Hok1 Hat1.
  - apply (wp_pull_trip ctx n o K U s ls w1 e i ds1 c1 ls1 s1 Hsh Hok Hn Hch Hok1 Hat1 HK).
    intros u ls' s' w' Hg Hat'. eapply HU; [|apply Hat'|by eapply At_live].
    etransitivity; [|exact Hg]. by inversion Hch.
  - assert (all_empty s ls) as Hae by by inversion Hch.
    assert (Live base s1) as Hs1 by by eapply At_live. apply wp_bind, (wp_sched_Wait base); [done|done| |].
    + intros ->. apply HP; [|done]. split; [done| |apply Live_sig; [done|]; apply Register_ok, (proj1 Hs1)].
      simpl. rewrite (at_sig _ _ _ _ _ _ _ Hat1). apply elem_of_app. right. by left.
    + intros s' w' e' Hs' He' Hl. assert (e ≠ []) by (by intros ->; simpl in Hl; lia). destruct (ctx_cause ctx w') as [x|]; [|by apply wp_ret, HKw].
      apply wp_bind, (wp_sched_closedOrCause base); [done..|]. intros x' s2 w2 e2 Hs2 He2.
      by apply wp_ret, HKw.
Qed.

Lemma Pull_eq ctx n o : (1 ≤ n)%Z →
  Pull ctx n o = instrumented SPull snd (forever (
    Lock;; s ← getb;
    if s_closed s then Unlock;; return_ ([], "", Some (Sentinel ErrClosed)) else pull_body ctx n o)).
Proof. intros Hn. unfold Pull. by rewrite (proj2 (Z.ltb_ge _ _)) by done. Qed.

Lemma calm_any base ctx ctx' (e : list (S_ → W → S_ * W)) : calm base ctx e → calm base ctx' e.
Proof. intros He. eapply Forall_impl; [exact He|]. intros f [Hf _]. split; [exact Hf|done]. Qed.

(** A Pull while others are at it. *)
Lemma wp_Pull base ctx n o s w e :
  Live base s → (1 ≤ n)%Z → calm base ctx e →
  wp (Pull ctx n o)
    (λ r t, mlk t = Unlocked ∧ Live base (mb t) ∧
       (s_closed base = true → r = ([], "", Some (Sentinel ErrClosed))))
    (λ u t, Live base (mb t) ∧ s_closed base = false ∧
       match u with
       | Some _ => mlk t = WLocked
       | None => mlk t = Unlocked ∧ menv t = []
       end) (Mach s Unlocked w e).
Proof.
  intros Hs Hn He. rewrite Pull_eq by done. apply wp_sched_instrumented; [done|]. clear w. intros w.
  apply (wp_forever (λ t, mlk t = Unlocked ∧ Live base (mb t) ∧ calm base ctx (menv t))); [done|].
  clear s w e Hs He. intros [s k w e] (Hk & Hs & He). simpl in *. subst k.
  apply wp_bind, (wp_acquire (λ _, Live base) False ctx 0%Z); [done..|].
  clear s Hs. intros s w' e' Hs He' Hl _. apply wp_bind, wp_getb. cbn [mb]. destruct (s_closed s) eqn:Hc.
  { by apply wp_bind, wp_Unlock, wp_ret. }
  assert (s_closed base = false) as Hcb.
  { destruct (s_closed base) eqn:Hb; [|done]. by rewrite (ss_closed _ _ (proj2 Hs) Hb) in Hc. }
  rewrite Hcb. destruct (so_queues _ (proj1 Hs)) as [ls Hf].
  apply (wp_pull_body base ctx n o _ _ s ls); try done; simpl.
  - intros r ds' c' p' ls' s' w2 Hp Hok Hat. split; [done|]. split; [by eapply At_live|done].
  - intros [r|] s' w2 e2 _ _ Hs' He2; [done|]. intros Hl'. split; [done|]. lia.
  - intros s' w2 Hp _. split; [by apply Hp|]. done.
Qed.
End operations.
