(* ===== verification/CbwfqSafe.v ===== *)
(** The scheduler in company: its public operations while other goroutines run any of them, and who
    holds the mutex when an operation is over. *)

From S2P Require Import Prelude Errors Machine Core Contract Logic ContractFacts Interface Cbwfq CbwfqFacts CbwfqPull.

(** One public operation; [SClose] carries the order in which the runtime ranges over the map. *)
Inductive SOp (W T : Type) :=
  | SOPush (ctx : Ctx W) (item : T) (options : list (OpOption W))
  | SOPull (ctx : Ctx W) (n : Z) (options : list (OpOption W))
  | SOLen
  | SOClassLen (name : string)
  | SOClose (order : list nat) (ctx : Ctx W).
Arguments SOPush {W T}.
Arguments SOPull {W T}.
Arguments SOLen {W T}.
Arguments SOClassLen {W T}.
Arguments SOClose {W T}.

Definition is_pull {W T} (o : SOp W T) : bool := match o with SOPull _ n _ => (1 <=? n)%Z | _ => false end.

(** What it hands back. *)
Inductive SRes (T : Type) :=
  | SRErr (e : option err)
  | SRItems (items : list T) (class : string) (e : option err)
  | SRLen (n : Z) (e : option err).
Arguments SRErr {T} _.
Arguments SRItems {T} _ _ _.
Arguments SRLen {T} _ _.

Section safety.
Context {Cfg Q W T : Type} `{!ClassQueue Cfg Q W T} (holds : list T → Q → Prop).
Context `{!ClassQueueLaws Cfg Q W T holds} `{!SchedTelemetry W} (classifier : T → code W string).
Abbreviation S_ := (CBWFQ Cfg Q W T).
Abbreviation Live := (Live holds).
Abbreviation calm base := (rely (λ _, Live base) False).
Implicit Types (s sh : CBWFQ Cfg Q W T) (cs : classState Cfg Q) (ls : list (list T)).

Definition sched_exec (o : SOp W T) : go S_ W (SRes T) :=
  match o with
  | SOPush ctx item o => e ← Cbwfq.Push classifier ctx item o; mret (SRErr e)
  | SOPull ctx n o => '(items, class, e) ← Pull ctx n o; mret (SRItems items class e)
  | SOLen => n ← Cbwfq.Len; mret (SRLen n None)
  | SOClassLen name => '(n, e) ← ClassLen name; mret (SRLen n e)
  | SOClose order ctx => e ← Cbwfq.Close order ctx; mret (SRErr e)
  end.

(** The windows of interference in which the goroutines [os] run. *)
Definition sched_others (os : list (SOp W T)) : list (S_ → W → S_ * W) := (λ o, run (sched_exec o)) <$> os.

(** Outside the mutex on a sound scheduler. *)
Definition free base (t : mach S_ W) : Prop := mlk t = Unlocked ∧ Live base (mb t).

Lemma Live_class base s i : Live base s → is_Some (s_classes base !! i) → is_Some (s_classes s !! i).
Proof.
  intros [_ [Hf]] Hi. apply Forall2_length in Hf. rewrite !lookup_lt_is_Some in *. lia.
Qed.

Lemma filled_lookup s ls i :
  filled holds s ls → is_Some (s_classes s !! i) → is_Some (ls !! i).
Proof. intros Hf Hi. apply Forall2_length in Hf. rewrite !lookup_lt_is_Some in *. lia. Qed.

(** What no call on a class queue touches. *)
Definition same_signal s s' : Prop := s_closed s' = s_closed s ∧ s_sig s' = s_sig s.

Lemma At_same_signal sh ds c p ls s : At holds sh ds c p ls s → same_signal sh s.
Proof. by intros []. Qed.

Lemma wp_on_live {A} base i (m : Cfg → go Q W A) (K : A → mach S_ W → Prop) U s k w e :
  Live base s →
  (∀ cfg q l ps, holds l q →
     wp (m cfg) (λ _ t, ∃ k, holds k (mb t)) (λ _ t, ∃ k, holds k (mb t))
       (Mach q Unlocked w (cq_other cfg <$> ps))) →
  (∀ a s' w', Live base s' → same_signal s s' → K a (Mach s' k w' e)) →
  (∀ u s' w', Live base s' → same_signal s s' → U u (Mach s' k w' e)) →
  wp (on i m) K U (Mach s k w e).
Proof.
  intros Hs Hm HK HU. pose proof Hs as [Hso _]. destruct (so_queues _ _ Hso) as [ls Hf].
  destruct (s_classes s !! i) as [cs|] eqn:Hcs; [|unfold wp, on; cbn [mb]; rewrite Hcs; by apply HU].
  destruct (filled_lookup s ls i Hf ltac:(by eexists)) as [l Hl].
  eapply (wp_on holds i m K U); [by apply At_self, Hso|exact Hl| | |].
  - intros cfg q ps Hh _ _. eapply wp_mono; [| |eapply Hm, Hh].
    + intros a t [k' Hk']. exists k'. split; [exact I|exact Hk'].
    + intros u t [k' Hk']. exists k'. split; [exact I|exact Hk'].
  - intros a k' s' w' _ Hat. apply HK; [|by eapply At_same_signal]. eapply At_live; [exact Hs|apply Hso|exact Hat].
  - intros u k' s' w' _ Hat. apply HU; [|by eapply At_same_signal]. eapply At_live; [exact Hs|apply Hso|exact Hat].
Qed.

Lemma wp_recordDepth_live base i (K : unit → mach S_ W → Prop) U s k w e :
  Live base s → is_Some (s_classes base !! i) → (∀ s' w', Live base s' → K () (Mach s' k w' e)) →
  wp (recordDepth i) K U (Mach s k w e).
Proof.
  intros Hs Hi HK. pose proof Hs as [Hso _]. destruct (so_queues _ _ Hso) as [ls Hf].
  destruct (filled_lookup s ls i Hf (Live_class base s i Hs Hi)) as [l Hl].
  eapply (wp_recordDepth_class holds); [by apply At_self, Hso|exact Hl|].
  intros l' s' w' _ Hat. eapply HK, At_live; [exact Hs|apply Hso|exact Hat].
Qed.

Lemma wp_sched_Signal s k w e (K : unit → mach S_ W → Prop) U :
  signal_ok (s_sig s) → (∀ g, signal_ok g → sg_parked g = [] → K () (Mach (lset sig_l g s) k w e)) →
  wp (if signal_HasWaiters (s_sig s) then signal_Signal sig_l else mret ()) K U (Mach s k w e).
Proof.
  intros Hs HK. unfold signal_HasWaiters. destruct (HasWaiters (s_sig s)) eqn:Hw.
  - unfold signal_Signal, DoSignal. apply wp_updb. by apply (HK (Broadcast (s_sig s))); [apply Broadcast_ok|].
  - apply wp_ret. specialize (HK (s_sig s) Hs). destruct s. apply HK. by apply no_waiters.
Qed.

Lemma find_class_lookup name (l : list (classState Cfg Q)) i :
  find_class name l = Some i → is_Some (l !! i).
Proof.
  unfold find_class. destruct (list_find _ l) as [[j cs]|] eqn:Hf; [|done]. simpl. intros [= <-].
  apply list_find_Some in Hf as (Hj & _). by eexists.
Qed.

(** The class a name leads to. *)
Definition route s (name : string) : nat := default (s_def s) (find_class name (s_classes s)).

Lemma route_class base s name : Live base s → is_Some (s_classes base !! route s name).
Proof.
  intros [[Hsh] [Hf]]. unfold route. apply Forall2_length in Hf.
  rewrite lookup_lt_is_Some, Hf, <- lookup_lt_is_Some.
  destruct (find_class _ _) eqn:Hn; simpl; [by eapply find_class_lookup|apply Hsh].
Qed.

Lemma Push_free base ctx item o s w e :
  Live base s → calm base ctx e →
  wp (Cbwfq.Push classifier ctx item o) (λ _, free base) (λ _, free base) (Mach s Unlocked w e).
Proof.
  intros Hs He. unfold Cbwfq.Push. apply wp_sched_instrumented; [done|]. clear w. intros w.
  apply wp_bind, wp_call; [|by intros u w']. intros name w' _. apply wp_bind, wp_getb. cbn [mb].
  pose proof (route_class base s name Hs) as Hi. fold (route s name). set (i := route s name) in *.
  apply wp_bind, (wp_on_live base); [done| | |done].
  { intros cfg q l ps Hh. eapply wp_mono; [| |apply (law_Push_safe (holds := holds) _ _ _ _ l), Hh]; [|done].
    intros [ok x] t [_ Hk]. exact Hk. }
  intros [ok x] s1 w1 Hs1 _. destruct ok; [|by apply wp_ret]. simpl.
  apply wp_bind, (wp_acquire (λ _, Live base) False ctx 0%Z); [done..|]. intros s2 w2 e2 Hs2 He2 _ _.
  apply wp_bind, wp_updb, wp_bind, (wp_recordDepth_live base); [|done|].
  { destruct Hs2 as [[[] [] ] []]. split; constructor; done. }
  intros s3 w3 Hs3. apply wp_bind, wp_getb, wp_bind, wp_sched_Signal; [apply Hs3|].
  intros g Hg _. apply wp_bind, wp_Unlock, wp_ret. split; [done|]. by apply Live_sig.
Qed.

Lemma close_all_free base ctx order x s w e :
  Live base s →
  wp (close_all ctx order x) (λ _ t, free base t ∧ same_signal s (mb t))
    (λ _ t, free base t ∧ same_signal s (mb t)) (Mach s Unlocked w e).
Proof.
  intros Hs. revert x s w Hs. induction order as [|i order IH]; intros x s w Hs; simpl; [by apply wp_ret|].
  apply wp_bind, (wp_on_live base); [done| | |done].
  - intros cfg q l ps Hh. by apply (law_Close_safe (holds := holds) _ _ _ l).
  - intros a s' w' Hs' [Hc Hg]. eapply wp_mono; [| |by apply IH].
    + intros x' t [Ht [Hc' Hg']]. split; [done|]. split; congruence.
    + intros u t [Ht [Hc' Hg']]. split; [done|]. split; congruence.
Qed.

Lemma Close_free base order ctx s w e :
  Live base s → calm base ctx e →
  wp (Cbwfq.Close order ctx) (λ _, free base) (λ _, free base) (Mach s Unlocked w e).
Proof.
  intros Hs He. unfold Cbwfq.Close. apply wp_sched_instrumented; [done|]. clear w. intros w.
  apply wp_bind, (wp_acquire (λ _, Live base) False ctx 0%Z); [done..|]. intros s1 w1 e1 Hs1 He1 _ _.
  apply wp_bind, wp_getb. cbn [mb]. destruct (s_closed s1); [by apply wp_bind, wp_Unlock, wp_ret|].
  apply wp_bind, wp_updb, wp_bind, wp_updb, wp_bind, wp_Unlock.
  eapply wp_mono; [| |apply (close_all_free base), Live_sig; [|apply Broadcast_ok]].
  - by intros a t [Ht _].
  - by intros u t [Ht _].
  - destruct Hs1 as [[[] []] []]. split; constructor; done.
Qed.

Lemma ClassLen_free base name s w e :
  Live base s → wp (ClassLen name) (λ _, free base) (λ _ _, False) (Mach s Unlocked w e).
Proof.
  intros Hs. unfold ClassLen. apply wp_bind, wp_getb. cbn [mb].
  destruct (find_class name (s_classes s)) as [i|] eqn:Hi; [|by apply wp_ret].
  pose proof Hs as [Hso _]. destruct (so_queues _ _ Hso) as [ls Hf].
  destruct (filled_lookup s ls i Hf (find_class_lookup _ _ _ Hi)) as [l Hl].
  apply wp_bind. eapply (wp_qLen holds); [by apply At_self, Hso|exact Hl|].
  intros l' s' w' _ Hat. apply wp_ret. split; [done|]. eapply At_live; [exact Hs|apply Hso|exact Hat].
Qed.

(** How any operation ends. *)
Definition ended base (o : SOp W T) (u : option unwind) (t : mach S_ W) : Prop :=
  Live base (mb t) ∧ (mlk t = Unlocked ∨ is_pull o = true ∧ u ≠ None ∧ mlk t = WLocked).

Lemma sched_exec_ends base o ctx s w e :
  Live base s → calm base ctx e →
  wp (sched_exec o) (λ _, free base) (ended base o) (Mach s Unlocked w e).
Proof.
  intros Hs He. destruct o as [c item o|c n o| |name|order c]; simpl.
  - apply wp_bind. eapply wp_mono; [| |by eapply Push_free, calm_any, He]; [by intros|].
    intros u t [Hk Ht]. split; [done|]. by left.
  - destruct (1 <=? n)%Z eqn:Hn; bool_to_prop.
    + apply wp_triple_eta, wp_bind. eapply wp_mono; [| |by eapply (wp_Pull holds base), calm_any, He].
      * intros r t (Hk & Hr & _). by split.
      * intros [u|] t (Hl & _ & Ht); (split; [done|]); [|by left; apply Ht]. right. simpl. by rewrite (proj2 (Z.leb_le 1 n)).
    + unfold Pull. rewrite (proj2 (Z.ltb_lt n 1)) by lia. apply wp_bind, wp_gopanic. split; [done|]. by left.
  - by apply wp_bind, wp_bind, wp_getb, wp_ret, wp_ret.
  - apply wp_bind. eapply wp_mono; [| |by apply (ClassLen_free base)]; [|done]. by intros [] t.
  - apply wp_bind. eapply wp_mono; [| |by eapply Close_free, calm_any, He]; [by intros|].
    intros u t [Hk Ht]. split; [done|]. by left.
Qed.

Lemma sched_calm base ctx os : calm base ctx (sched_others os).
Proof.
  apply Forall_fmap, Forall_true. intros o. split; [|done]. intros _ s w _ Hs.
  apply wp_run. eapply wp_mono; [| |by apply (sched_exec_ends base o background); [|constructor]].
  - intros a t Ht. apply Ht.
  - intros u t Ht. apply Ht.
Qed.

(** C31: Whatever public operation a goroutine runs on a live scheduler while others run theirs,
    the scheduler stays sound (deficits within the weights, the cursor at a class, every class queue
    a queue), no mutex is misused, and the mutex is free when the operation returns or waits; it is
    also free when caller code unwound out of it, Pull excepted. *)
Theorem sched_safe base o os s w :
  Live base s →
  let r := sched_exec o (Mach s Unlocked w (sched_others os)) in
  Live base (mb r.2) ∧
  match r.1 with
  | Done _ | Parked => mlk r.2 = Unlocked
  | Unwound _ => is_pull o = false → mlk r.2 = Unlocked
  | Fatal => False
  end.
Proof.
  intros Hs. pose proof (sched_exec_ends base o background s w _ Hs (sched_calm base background os)) as H.
  unfold wp in H. destruct (sched_exec o _) as [[a|u| |] t]; simpl in *; try done.
  - by destruct H.
  - destruct H as [? [?|[Hp _]]]; (split; [done|]); [done|]. by rewrite Hp.
  - destruct H as [? [?|(_ & ? & _)]]; done.
Qed.

(** C38: When caller code unwinds out of a Pull - a side effect that panics, say, run by the
    class queue under the scheduler's mutex - the mutex stays locked. *)
Theorem sched_pull_unwound base ctx n o os s w u t :
  Live base s → (1 ≤ n)%Z →
  Pull ctx n o (Mach s Unlocked w (sched_others os)) = (Unwound u, t) → mlk t = WLocked.
Proof.
  intros Hs Hn Hr. pose proof (wp_Pull holds base ctx n o s w _ Hs Hn (sched_calm base ctx os)) as H.
  unfold wp in H. rewrite Hr in H. apply H.
Qed.

(** Once the scheduler is closed every Pull returns ErrClosed and no item, whatever other
    operations run; none of them parks or unwinds. *)
Theorem sched_closed_pull base ctx n o os s w :
  Live base s → s_closed base = true → (1 ≤ n)%Z →
  let r := Pull ctx n o (Mach s Unlocked w (sched_others os)) in
  r.1 = Done ([], "", Some (Sentinel ErrClosed)) ∧ mlk r.2 = Unlocked ∧ Live base (mb r.2).
Proof.
  intros Hs Hc Hn. pose proof (wp_Pull holds base ctx n o s w _ Hs Hn (sched_calm base ctx os)) as H.
  unfold wp in H. destruct (Pull ctx n o _) as [[a|u| |] t]; simpl in *; try done.
  - destruct H as (Hk & Hl & Hr). by rewrite (Hr Hc).
  - destruct H as (_ & Hf & _). congruence.
  - destruct H as (_ & Hf & _). congruence.
Qed.

(** Close, the first time, leaves the scheduler closed with every parked Pull woken,
    whatever the class queues do when they are closed in turn; after that it returns ErrClosed and
    changes nothing. *)
Theorem sched_close order ctx s w :
  Sound holds s →
  let r := Cbwfq.Close order ctx (Mach s Unlocked w []) in
  (s_closed s = true → r.1 = Done (Some (Sentinel ErrClosed)) ∧ mb r.2 = s) ∧
  s_closed (mb r.2) = true ∧ (s_closed s = false → sg_parked (s_sig (mb r.2)) = []) ∧
  free s r.2 ∧ r.1 ≠ Fatal.
Proof.
  intros Hs. assert (Live s s) as Hl by by split.
  assert (wp (Cbwfq.Close order ctx)
    (λ x t, (s_closed s = true → x = Some (Sentinel ErrClosed) ∧ mb t = s) ∧
       s_closed (mb t) = true ∧ (s_closed s = false → sg_parked (s_sig (mb t)) = []) ∧ free s t)
    (λ _ t, s_closed s = false ∧ s_closed (mb t) = true ∧ sg_parked (s_sig (mb t)) = [] ∧ free s t)
    (Mach s Unlocked w [])) as H.
  { unfold Cbwfq.Close. apply wp_sched_instrumented; [done|]. clear w. intros w.
    apply wp_bind, wp_acquire_nil, wp_bind, wp_getb. cbn [mb].
    destruct (s_closed s) eqn:Hc; [by apply wp_bind, wp_Unlock, wp_ret|].
    apply wp_bind, wp_updb, wp_bind, wp_updb, wp_bind, wp_Unlock.
    assert (Live s (lset sig_l (Broadcast (s_sig s)) (set_closed s))) as Hl'.
    { apply Live_sig; [|apply Broadcast_ok]. destruct Hl as [[[] []] []]. split; constructor; done. }
    eapply wp_mono; [| |by apply (close_all_free s)]; simpl.
    - intros x t (Ht & -> & ->). done.
    - intros u t (Ht & -> & ->). done. }
  unfold wp in H. destruct (Cbwfq.Close order ctx _) as [[a|u| |] t]; simpl in *; try done.
  - destruct H as (H1 & H2 & H3 & H4). split_and!; try done. intros Hc. by destruct (H1 Hc) as [-> ->].
  - destruct H as (Hf & H2 & H3 & H4). split_and!; try done. congruence.
  - destruct H as (Hf & H2 & H3 & H4). split_and!; try done. congruence.
Qed.
End safety.
