(* ===== verification/CbwfqFair.v ===== *)
(** Deficit weighted round robin as a queue of classes, which the scheduler refines, the bound on how long
    a class waits for its turn, and what a Pull returns when others push, pull and close meanwhile. *)

From S2P Require Import Prelude Errors Machine Core Contract Logic ContractFacts Interface Cbwfq CbwfqFacts CbwfqPull CbwfqSafe.

Section fair.
Context {Cfg Q W T : Type} `{!ClassQueue Cfg Q W T} (holds : list T → Q → Prop).
Context `{!ClassQueueLaws Cfg Q W T holds} `{!SchedTelemetry W}.
Abbreviation S_ := (CBWFQ Cfg Q W T).
Abbreviation At := (At holds).
Implicit Types (s sh : CBWFQ Cfg Q W T) (cs : classState Cfg Q) (ls : list (list T)).

(** * The discipline *)

(** The classes passed over and the rest of the round. *)
Fixpoint pass_empty ls (rot : list nat) : list nat * list nat :=
  match rot with
  | [] => ([], [])
  | i :: rot =>
      match ls !!! i with
      | [] => let '(sk, rest) := pass_empty ls rot in (i :: sk, rest)
      | _ => ([], i :: rot)
      end
  end.

(** One turn: the classes stand in a queue. Those at its head that are empty forfeit what credit they
    have and go to the back; the next one gets its weight as credit unless it is still spending an
    earlier one, and emits up to [n] items on it; when the credit or the items are used up it goes to
    the back without credit. The priority class comes before everybody, on no credit. *)
Definition turn sh ls (ds : list Z) (rot : list nat) (n : Z) : option (nat * list T * list Z * list nat) :=
  let weighted :=
    let '(sk, rest) := pass_empty ls rot in
    match rest with
    | [] => None
    | i :: rest =>
        let ds := grant sh i (forfeit sk ds) in
        let items := take (Z.to_nat (Z.min n (deficit ds i))) (ls !!! i) in
        let left := (deficit ds i - zlen items)%Z in
        if (left =? 0)%Z || (length items =? length (ls !!! i))%nat
        then Some (i, items, <[i:=0%Z]> ds, rest ++ sk ++ [i])
        else Some (i, items, <[i:=left]> ds, i :: rest ++ sk)
    end in
  match s_priority sh with
  | Some p =>
      match ls !!! p with
      | [] => weighted
      | l => Some (p, take (Z.to_nat n) l, ds, rot)
      end
  | None => weighted
  end.

Lemma pass_empty_spec ls sk i rest l :
  seen_empty ls sk → ls !! i = Some l → l ≠ [] → pass_empty ls (sk ++ i :: rest) = (sk, i :: rest).
Proof.
  intros Hsk Hl Hne. induction Hsk as [|j sk Hj _ IH]; simpl.
  - rewrite (list_lookup_total_correct _ _ _ Hl). by destruct l.
  - by rewrite (list_lookup_total_correct _ _ _ Hj), IH.
Qed.

Lemma pass_empty_all ls rot : seen_empty ls rot → pass_empty ls rot = (rot, []).
Proof.
  induction 1 as [|j sk Hj _ IH]; [done|]. simpl. by rewrite (list_lookup_total_correct _ _ _ Hj), IH.
Qed.

(** * In the absence of arrivals *)

Lemma grown_alone (P : Prop) (l k : list T) : P → grown P l k → k = l.
Proof. intros HP [_ H]. auto. Qed.

Lemma Grown_alone sh ls ls' : s_windows sh = [] → Grown sh ls ls' → ls' = ls.
Proof.
  intros Ha Hg. induction Hg as [|l k ls ls' H _ IH]; [done|]. by rewrite IH, (grown_alone _ _ _ Ha H).
Qed.

Lemma served_alone sh p ls i n items p' ls' :
  s_windows sh = [] → served sh p ls i n items p' ls' →
  ∃ l, ls !! i = Some l ∧ items = take (length items) l ∧ ls' = <[i:=drop (length items) l]> ls.
Proof.
  intros Ha [(l & k & l' & Hl & Hg & Hi & Hd & ->) _ _]. apply (grown_alone _ _ _ Ha) in Hg as ->.
  apply (grown_alone _ _ _ Ha) in Hd as ->. eauto.
Qed.

(** The weighted class that was served, as the discipline has it. *)
Lemma turn_weighted sh ls n items i sk rest l c c' adv ds' c2 :
  shape_ok sh → c' < length (s_weighted sh) → (1 ≤ n)%Z → s_windows sh = [] →
  (∀ p, s_priority sh = Some p → ls !! p = Some []) →
  rotation (s_weighted sh) c = sk ++ i :: rest → rotation (s_weighted sh) c' = i :: rest ++ sk →
  seen_empty ls sk → ls !! i = Some l → l ≠ [] → items = take (length items) l →
  (1 ≤ deficit (grant sh i (forfeit sk (deficits sh))) i)%Z →
  spent sh (grant sh i (forfeit sk (deficits sh))) c' ls i n items adv ds' c2 →
  turn sh ls (deficits sh) (rotation (s_weighted sh) c) n = Some (i, items, ds', rotation (s_weighted sh) c2).
Proof.
  intros Hsh Hc' Hn Ha Hp Hrot Hrot' Hsk Hl Hne Hit Hd1 [Hb Hc2 (d & -> & Hd & Hadv & Hadv0) Halone].
  destruct (Halone Ha l Hl) as [Hlen Hadv']. set (ds1 := grant _ _ _) in *.
  assert (turn sh ls (deficits sh) (rotation (s_weighted sh) c) n =
    let items := take (Z.to_nat (Z.min n (deficit ds1 i))) l in
    if (deficit ds1 i - zlen items =? 0)%Z || (length items =? length l)%nat
    then Some (i, items, <[i:=0%Z]> ds1, rest ++ sk ++ [i])
    else Some (i, items, <[i:=(deficit ds1 i - zlen items)%Z]> ds1, i :: rest ++ sk)) as ->.
  { unfold turn. rewrite Hrot, (pass_empty_spec ls sk i rest l) by done.
    rewrite (list_lookup_total_correct _ _ _ Hl). destruct (s_priority sh) as [p|]; [|done].
    by rewrite (list_lookup_total_correct _ _ _ (Hp p eq_refl)). }
  assert (take (Z.to_nat (Z.min n (deficit ds1 i))) l = items) as ->.
  { etransitivity; [|symmetry; exact Hit]. clear Hit. unfold zlen in Hlen.
    destruct (decide (Z.min n (deficit ds1 i) ≤ Z.of_nat (length l))%Z); [f_equal; lia|].
    by rewrite !take_ge by lia. }
  simpl. replace ((deficit ds1 i - zlen items =? 0)%Z || (length items =? length l)%nat) with adv.
  { destruct adv; subst c2.
    - rewrite (Hadv0 Ha eq_refl). by rewrite (rotation_next _ _ _ _ Hc' Hrot'), app_assoc.
    - destruct (Hadv eq_refl) as [-> _]. by rewrite Hrot'. }
  rewrite Hadv'. apply eq_true_iff_eq. rewrite bool_decide_eq_true, orb_true_iff, Z.eqb_eq, Nat.eqb_eq.
  unfold zlen. lia.
Qed.

Lemma pulled_turn sh ls n items name ds' c' p' ls' :
  Sound holds sh → s_windows sh = [] → (1 ≤ n)%Z → pulled sh ls n (items, name, None) ds' c' p' ls' →
  ∃ i cs l, s_classes sh !! i = Some cs ∧ name = cs_name cs ∧ ls !! i = Some l ∧
    turn sh ls (deficits sh) (rotation (s_weighted sh) (s_cursor sh)) n =
      Some (i, items, ds', rotation (s_weighted sh) c') ∧
    ls' = <[i:=drop (length items) l]> ls ∧ p' = (s_pending sh - zlen items)%Z.
Proof.
  intros [Hsh Hok _ _ _] Ha Hn Hp.
  inversion Hp as [i cs ? ds1 c1 ls1 ? ? ? ? Hch Hok1 Hcs Hsv Hrest|]; subst.
  assert (ls1 = ls) as -> by (apply (Grown_alone sh); [done|by inversion Hch]).
  destruct (served_alone _ _ _ _ _ _ _ _ Ha Hsv) as (l & Hl & Hit & ->). exists i, cs, l. split_and!; try done; [|by destruct Hsv].
  destruct (chosen_class sh (deficits sh) (s_cursor sh) ls i ds1 c1 ls) as (cs' & l' & Hcs' & Hl' & Hne & Hcred); try done.
  { unfold deficits. by rewrite length_fmap. }
  rewrite Hcs in Hcs'; injection Hcs' as <-. rewrite Hl in Hl'; injection Hl' as <-.
  inversion Hch as [? l1 ? Hpr _ Hl1 _|? sk rest l1 ? ? Hpe Hrot Hrot' Hsk _ Hl1 _|]; subst.
  - destruct (sh_priority _ Hsh i Hpr) as (cs1 & Hcs1 & Hprio). rewrite Hcs in Hcs1; injection Hcs1 as <-.
    rewrite Hprio in Hrest. destruct Hrest as [-> ->]. unfold turn.
    rewrite Hpr, (list_lookup_total_correct _ _ _ Hl). destruct l as [|x l]; [done|].
    pose proof (sv_most _ _ _ _ _ _ _ _ Hsv Ha cs _ Hcs Hprio Hl) as Hm.
    assert (items = take (Z.to_nat n) (x :: l)) as <-; [|done].
    rewrite Hit. unfold zlen in Hm. destruct (decide (n ≤ Z.of_nat (length (x :: l)))%Z); [f_equal; lia|].
    by rewrite !take_ge by lia.
  - destruct (cs_priority cs) eqn:Hprio.
    { exfalso. assert (i ∈ s_weighted sh) as Hi.
      { rewrite <- (rotation_Permutation _ (s_cursor sh)), Hrot. apply elem_of_app. right. by left. }
      destruct (sh_weighted _ Hsh i Hi) as (cs1 & Hcs1 & Hf & _). congruence. }
    destruct Hrest as [adv Hsp]. destruct (Hcred eq_refl) as [Hin Hd1].
    apply (turn_weighted sh ls n items i sk rest l _ c1 adv); try done. apply (dw_cursor _ _ _ Hok1). intros He. rewrite He in Hin. by apply elem_of_nil in Hin.
Qed.

(** What is left of the classes after an error: everything, and the class that would have been served. *)
Lemma pulled_failed sh ls n items name x ds' c' p' ls' :
  s_windows sh = [] → pulled sh ls n (items, name, Some x) ds' c' p' ls' →
  items = [] ∧ ls' = ls ∧ p' = s_pending sh ∧ ∃ i cs, s_classes sh !! i = Some cs ∧ name = cs_name cs.
Proof.
  intros Ha Hp. inversion Hp as [|i cs ds1 c1 ls1 ? ? Hch Hok1 Hcs Hg]; subst. split_and!; try done.
  - rewrite (Grown_alone _ _ _ Ha Hg). apply (Grown_alone sh); [done|by inversion Hch].
  - by exists i, cs.
Qed.

Lemma all_empty_turn sh ls ds rot n :
  all_empty sh ls → rot ≡ₚ s_weighted sh → turn sh ls ds rot n = None.
Proof.
  intros [Hsk Hp] Hrot. unfold turn. unfold seen_empty in Hsk. rewrite <- Hrot in Hsk.
  rewrite (pass_empty_all _ _ Hsk). destruct (s_priority sh) as [p|]; [|done].
  by rewrite (list_lookup_total_correct _ _ _ (Hp p eq_refl)).
Qed.

(** Pull when nobody else runs. *)
Lemma wp_pull_alone ctx n o s ls w :
  Sound holds s → filled holds s ls → s_closed s = false → (1 ≤ n)%Z →
  wp (Pull ctx n o)
    (λ r t, mlk t = Unlocked ∧ menv t = [] ∧ Live holds s (mb t) ∧ ∃ ds' c' p' ls',
       pulled s ls n r ds' c' p' ls' ∧ dwrr_ok s ds' c' ∧ At s ds' c' p' ls' (mb t))
    (λ u t, match u with
            | Some _ => mlk t = WLocked ∧ Live holds s (mb t) ∧ ∃ ls', Grown s ls ls' ∧ filled holds (mb t) ls'
            | None => mlk t = Unlocked ∧ parked_at holds s s ls (mb t)
            end) (Mach s Unlocked w []).
Proof.
  intros Hs Hf Hc Hn. assert (Live holds s s) as Hl by by split.
  rewrite Pull_eq by done. apply wp_sched_instrumented; [done|]. clear w. intros w.
  apply (wp_forever (λ t, mlk t = Unlocked ∧ mb t = s ∧ menv t = [])); [done|].
  intros [b k w' e] (Hk & Hb & He). simpl in *. subst.
  apply wp_bind, wp_acquire_nil, wp_bind, wp_getb. cbn [mb]. rewrite Hc.
  apply (wp_pull_body holds s ctx n o _ _ s ls); try done.
  - constructor.
  - intros r ds' c' p' ls' s' w2 Hp Hok Hat. do 2 (split; [done|]). split; [by eapply At_live|]. eauto 8.
  - intros u ls' s' w2 Hg Hf' Hl'. split; [done|]. eauto.
Qed.
(** C4: By itself Pull is one turn of deficit weighted round robin, stated on a queue of
    classes: what it returns, the class it names and the round it leaves behind (deficits and the
    cursor's place) are those of the turn, the items leave the front of that class and Len goes down
    by their number; it waits only when no class has anything, and an error takes no item from any
    class. *)
Theorem sched_pull_turn ctx n o s ls w :
  Sound holds s → filled holds s ls → s_windows s = [] → s_closed s = false → (1 ≤ n)%Z →
  let r := Pull ctx n o (Mach s Unlocked w []) in
  let s' := mb r.2 in
  match r.1 with
  | Done (items, class, None) =>
      ∃ i cs l, s_classes s !! i = Some cs ∧ class = cs_name cs ∧ ls !! i = Some l ∧
        turn s ls (deficits s) (rotation (s_weighted s) (s_cursor s)) n =
          Some (i, items, deficits s', rotation (s_weighted s) (s_cursor s')) ∧
        filled holds s' (<[i:=drop (length items) l]> ls) ∧
        s_pending s' = (s_pending s - zlen items)%Z ∧ Live holds s s' ∧ mlk r.2 = Unlocked
  | Done (items, class, Some e) =>
      items = [] ∧ filled holds s' ls ∧ s_pending s' = s_pending s ∧ Live holds s s' ∧ mlk r.2 = Unlocked
  | Unwound _ => filled holds s' ls ∧ Live holds s s' ∧ mlk r.2 = WLocked
  | Parked => turn s ls (deficits s) (rotation (s_weighted s) (s_cursor s)) n = None ∧
      parked_at holds s s ls s' ∧ mlk r.2 = Unlocked
  | Fatal => False
  end.
Proof.
  intros Hs Hf Ha Hc Hn. pose proof (wp_pull_alone ctx n o s ls w Hs Hf Hc Hn) as H. unfold wp in H.
  destruct (Pull ctx n o _) as [[[[items class] x]|u| |] t]; simpl in *; [| |done|].
  - destruct H as (Hk & _ & Hl & ds' & c' & p' & ls' & Hp & Hok & Hat). destruct x as [x|].
    + destruct (pulled_failed _ _ _ _ _ _ _ _ _ _ Ha Hp) as (-> & -> & Hp' & _).
      split; [done|]. split; [apply Hat|]. split; [|done]. rewrite <- Hp'. apply Hat.
    + destruct (pulled_turn _ _ _ _ _ _ _ _ _ Hs Ha Hn Hp) as (i & cs & l & Hcs & Hcl & Hl' & Ht & -> & ->).
      exists i, cs, l. split_and!; try done.
      * unfold deficits at 2. by rewrite (at_deficits _ _ _ _ _ _ _ Hat), (at_cursor _ _ _ _ _ _ _ Hat).
      * apply Hat.
      * apply Hat.
  - destruct H as (Hk & Hl & ls' & Hg & Hf'). by rewrite (Grown_alone _ _ _ Ha Hg) in Hf'.
  - destruct H as [Hk Hp]. split; [|done]. apply all_empty_turn; [apply Hp|apply rotation_Permutation].
Qed.

(** * No class starves *)

(** Pulls one after the other. *)
Fixpoint pulls (reqs : list (Ctx W * Z * list (OpOption W))) : go S_ W (list (list T * string * option err)) :=
  match reqs with
  | [] => mret []
  | (ctx, n, o) :: reqs => r ← Pull ctx n o; rs ← pulls reqs; mret (r :: rs)
  end.

Definition emitted (rs : list (list T * string * option err)) : Z := foldr (λ r z, zlen r.1.1 + z)%Z 0%Z rs.

(** The weights of the classes other than [i]. *)
Definition others_weight s (i : nat) : Z :=
  foldr (λ k z, (if decide (k = i) then 0 else weight s k) + z)%Z 0%Z (s_weighted s).

Lemma others_weight_bound s ds c i : dwrr_ok s ds c → (0 ≤ debt s ds c i ≤ others_weight s i)%Z.
Proof.
  intros Hok. unfold debt, others_weight.
  pose proof (ahead_bound s ds c i (rotation (s_weighted s) c) Hok
    ltac:(intros k; by rewrite rotation_Permutation)) as Hb.
  assert (∀ a b : list nat, a ≡ₚ b →
    foldr (λ k z, (if decide (k = i) then 0 else weight s k) + z)%Z 0%Z a =
    foldr (λ k z, (if decide (k = i) then 0 else weight s k) + z)%Z 0%Z b) as Hperm.
  { induction 1; simpl; lia. }
  by rewrite (Hperm _ _ (rotation_Permutation _ _)) in Hb.
Qed.

Lemma debt_shape sh s ds c i : same_shape sh s → debt s ds c i = debt sh ds c i.
Proof.
  intros [Hf Hw _ _ _]. unfold debt. rewrite Hw.
  assert (∀ k, weight s k = weight sh k) as Hwt.
  { intros k. unfold weight. destruct (s_classes sh !! k) as [cs|] eqn:Hcs.
    - destruct (same_class_lookup _ _ _ Hf cs Hcs) as (cs' & -> & Hsame). simpl. apply Hsame.
    - apply Forall2_length in Hf. apply lookup_ge_None in Hcs.
      by rewrite (proj2 (lookup_ge_None (s_classes s) k)) by lia. }
  generalize (rotation (s_weighted sh) c). intros rot. induction rot as [|k rot IH]; simpl; [done|].
  rewrite IH. unfold quantum. by rewrite Hwt.
Qed.

(** The class of a result is neither class [i] nor the priority class. *)
Definition elsewhere s (i : nat) (name : string) : Prop :=
  ∀ j cs, s_classes s !! j = Some cs → j = i ∨ s_priority s = Some j → name ≠ cs_name cs.

Lemma chosen_elsewhere sh ls i j cs ds1 c1 ls1 l :
  Sound holds sh → i ∈ s_weighted sh → ls !! i = Some l → l ≠ [] →
  chosen sh (deficits sh) (s_cursor sh) ls (Some j) ds1 c1 ls1 →
  s_classes sh !! j = Some cs → elsewhere sh i (cs_name cs) →
  j ≠ i ∧ cs_priority cs = false ∧ (debt sh ds1 c1 i ≤ debt sh (deficits sh) (s_cursor sh) i)%Z ∧
  ∀ n items adv ds2 c2, c1 < length (s_weighted sh) → spent sh ds1 c1 ls1 j n items adv ds2 c2 →
    (debt sh ds2 c2 i + zlen items ≤ debt sh (deficits sh) (s_cursor sh) i)%Z.
Proof.
  intros [Hsh Hok _ _ _] Hin Hl Hne Hch Hcs Helse.
  assert (j ≠ i) as Hji by (intros ->; by apply (Helse i cs); [|left|]).
  inversion Hch as [? ? ? Hpr|? sk rest ? ? ? Hpe Hrot Hrot' Hsk _ _ _|]; subst.
  { exfalso. by apply (Helse j cs); [|right|]. }
  assert (i ∉ sk) as Hisk.
  { intros Hi. unfold seen_empty in Hsk. rewrite Forall_forall in Hsk. specialize (Hsk i Hi). congruence. }
  assert (j < length (deficits sh)) as Hj.
  { unfold deficits. rewrite length_fmap. by eapply lookup_lt_Some. }
  split; [done|]. split; [|split].
  - assert (j ∈ s_weighted sh) as Hjw.
    { rewrite <- (rotation_Permutation _ (s_cursor sh)), Hrot. apply elem_of_app. right. by left. }
    destruct (sh_weighted _ Hsh j Hjw) as (cs1 & Hcs1 & Hf & _). congruence.
  - by eapply debt_chosen.
  - intros n items adv ds2 c2 Hc1 Hsp. by eapply debt_spent.
Qed.

(** One Pull from another class pays off the debt by what it emits. *)
Lemma pulled_debt sh ls n items name x ds' c' p' ls' i l :
  Sound holds sh → i ∈ s_weighted sh → ls !! i = Some l → l ≠ [] →
  pulled sh ls n (items, name, x) ds' c' p' ls' → elsewhere sh i name →
  (debt sh ds' c' i + zlen items ≤ debt sh (deficits sh) (s_cursor sh) i)%Z ∧
  ∃ l', ls' !! i = Some l' ∧ l' ≠ [].
Proof.
  intros Hs Hin Hl Hne Hp Helse.
  inversion Hp as [j cs ? ds1 c1 ls1 ? ? ? ? Hch Hok1 Hcs Hsv Hrest|j cs ds1 c1 ls1 ? ? Hch Hok1 Hcs Hg]; subst;
    destruct (chosen_elsewhere _ _ _ _ _ _ _ _ _ Hs Hin Hl Hne Hch Hcs Helse) as (Hji & Hprio & Hd & Hsp).
  - assert (Grown sh ls ls1) as Hg1 by by inversion Hch.
    rewrite Hprio in Hrest. destruct Hrest as [adv Hrest]. split.
    + eapply Hsp, Hrest. apply (dw_cursor _ _ _ Hok1). intros He. rewrite He in Hin. by apply elem_of_nil in Hin.
    + destruct (sv_items _ _ _ _ _ _ _ _ Hsv) as (? & ? & ? & _ & _ & _ & _ & ->).
      rewrite list_lookup_insert_ne by done. by eapply Grown_nonempty.
  - split; [unfold zlen; simpl; lia|]. apply (Grown_nonempty sh ls _ i l); [|done..].
    etransitivity; [by inversion Hch|done].
Qed.

Lemma elsewhere_shape sh s i name : same_shape sh s → elsewhere sh i name → elsewhere s i name.
Proof.
  intros [Hf _ Hp _ _] He j cs Hcs Hj.
  destruct (Forall2_lookup_r _ _ _ _ _ Hf Hcs) as (cs0 & Hcs0 & Hsame).
  rewrite (sc_name _ _ Hsame). apply (He j); [done|]. by rewrite <- Hp.
Qed.

Lemma wp_pulls reqs i s ls w :
  Sound holds s → filled holds s ls → s_closed s = false → i ∈ s_weighted s →
  Forall (λ r : Ctx W * Z * list (OpOption W), (1 ≤ r.1.2)%Z) reqs →
  wp (pulls reqs)
    (λ rs _, (∃ l, ls !! i = Some l ∧ l ≠ []) →
       Forall (λ r : list T * string * option err, elsewhere s i r.1.2) rs →
       (emitted rs ≤ debt s (deficits s) (s_cursor s) i)%Z)
    (λ _ _, True) (Mach s Unlocked w []).
Proof.
  revert s ls w. induction reqs as [|[[ctx n] o] reqs IH]; intros s ls w Hs Hf Hc Hin Hn; simpl.
  { apply wp_ret. intros _ _. simpl. by apply (others_weight_bound s _ _ i), Hs. }
  apply Forall_cons in Hn as [Hn Hns]. simpl in Hn. apply wp_bind.
  eapply wp_mono; [| |by apply (wp_pull_alone ctx n o s ls w)]; [|done].
  intros [[items name] x] [s' k w' e] (Hk & He & [Hs' Hshape] & ds' & c' & p' & ls' & Hp & Hok & Hat).
  simpl in *. subst. apply wp_bind.
  eapply wp_mono; [intros rs t Hrs; apply wp_ret; exact Hrs|done|].
  eapply wp_mono; [| |apply (IH s' ls'); try done]; [|done|apply Hat| |by rewrite (ss_weighted _ _ Hshape)].
  2: by rewrite (at_closed _ _ _ _ _ _ _ Hat).
  intros rs t Hrs (l & Hl & Hne) Hall. apply Forall_cons in Hall as [Hhd Htl].
  destruct (pulled_debt _ _ _ _ _ _ _ _ _ _ _ _ Hs Hin Hl Hne Hp Hhd) as [Hd Hl'].
  specialize (Hrs Hl' ltac:(eapply Forall_impl; [exact Htl|]; intros r; by apply elsewhere_shape)).
  unfold deficits in Hrs. rewrite (at_deficits _ _ _ _ _ _ _ Hat), (at_cursor _ _ _ _ _ _ _ Hat) in Hrs.
  rewrite (debt_shape _ _ _ _ _ Hshape) in Hrs. simpl. lia.
Qed.

(** C5: No class starves: however many Pulls run one after the other, while a weighted class
    holds something and neither it nor the priority class is the one served, all of them together
    emit at most the weights of the other classes, also while items arrive. *)
Theorem sched_no_starvation reqs i s l ls w rs t :
  Sound holds s → filled holds s ls → s_closed s = false → i ∈ s_weighted s → ls !! i = Some l → l ≠ [] →
  Forall (λ r : Ctx W * Z * list (OpOption W), (1 ≤ r.1.2)%Z) reqs →
  pulls reqs (Mach s Unlocked w []) = (Done rs, t) →
  Forall (λ r : list T * string * option err, elsewhere s i r.1.2) rs →
  (emitted rs ≤ others_weight s i)%Z.
Proof.
  intros Hs Hf Hc Hin Hl Hne Hn Hr Hall.
  pose proof (wp_done _ _ _ _ _ _ (wp_pulls reqs i s ls w Hs Hf Hc Hin Hn) Hr) as H. simpl in H.
  pose proof (others_weight_bound s (deficits s) (s_cursor s) i (so_dwrr _ _ Hs)).
  specialize (H ltac:(by exists l) Hall). lia.
Qed.
End fair.

(** * In company *)

Section company.
Context {Cfg Q W T : Type} `{!ClassQueue Cfg Q W T} (holds : list T → Q → Prop).
Context `{!ClassQueueLaws Cfg Q W T holds} `{!SchedTelemetry W} (classifier : T → code W string).
Abbreviation S_ := (CBWFQ Cfg Q W T).
Abbreviation exec := (sched_exec classifier).
Abbreviation others := (sched_others classifier).
Abbreviation Live := (Live holds).
Abbreviation filled := (filled holds).
Implicit Types (s : S_) (ls : list (list T)) (os : list (SOp W T)).

(** A moment of a run: the scheduler, the world, and what the others are still going to do. *)
Definition moment : Type := S_ * W * list (SOp W T).

(** What a Pull does before it has something to serve: it counts itself; it looks, finds every class empty,
    which forfeits their credit, and registers; woken, it takes itself off the list. The world moves only
    while it looks, as the class queues like. *)
Inductive looks s w : S_ → W → Prop :=
  | looks_counted x : looks s w s (set_smet x w)
  | looks_empty ls ds c ls' s' w' :
      s_closed s = false → filled s ls → chosen s (deficits s) (s_cursor s) ls None ds c ls' →
      dwrr_ok s ds c → At holds s ds c (s_pending s) ls' s' → looks s w (lupd sig_l Register s') w'
  | looks_up i : looks s w (lupd sig_l (Unregister i) s) w.

(** How one moment of a Pull led to another: by the others' operations, each of which ran from start to end,
    and this Pull's own looks. *)
Inductive led (m : moment) : moment → Prop :=
  | led_here : led m m
  | led_other s w o os : led m (s, w, o :: os) → led m (run (exec o) s w, os)
  | led_look s w os s' w' : led m (s, w, os) → looks s w s' w' → led m (s', w', os).

Lemma led_live base m m' : Live base m.1.1 → led m m' → Live base m'.1.1.
Proof.
  intros Hm. induction 1 as [|s w o os _ IH|s w os s' w' _ IH Hl]; [done| |].
  - pose proof (sched_calm holds classifier base background [o]) as Hc. apply Forall_inv in Hc as [Hc _].
    exact (Hc 0%Z s w ltac:(done) IH).
  - cbn in *. destruct Hl as [|ls ds c ls' s' w' _ _ _ Hok Hat|i]; [done| |].
    + apply Live_sig; [by eapply At_live|]. apply Register_ok. change (signal_ok (s_sig s')).
      rewrite (at_sig _ _ _ _ _ _ _ Hat). apply IH.
    + apply Live_sig; [done|]. apply Unregister_ok. apply (proj1 IH).
Qed.

(** Whatever the others do, a context that is done stays done. *)
Definition stays_done (ctx : Ctx W) os : Prop :=
  Forall (λ o, ∀ s w e, ctx_cause ctx w = Some e → ctx_cause ctx (run (exec o) s w).2 = Some e) os.

Lemma led_done ctx m m' : stays_done ctx m.2 → led m m' → stays_done ctx m'.2.
Proof. intros Hm. induction 1; simpl in *; try done. by inversion_clear IHled. Qed.

(** How a Pull that began at [m] returned: it served what it found in one trip under the mutex, or the
    scheduler was closed, or its context was done. *)
Inductive outcome_of (m : moment) (ctx : Ctx W) n : list T * string * option err → S_ → Prop :=
  | outcome_trip s w os ls r ds' c' p' ls' s' :
      led m (s, w, os) → s_closed s = false → filled s ls →
      pulled s ls n r ds' c' p' ls' → dwrr_ok s ds' c' → At holds s ds' c' p' ls' s' → outcome_of m ctx n r s'
  | outcome_closed s w os :
      led m (s, w, os) → s_closed s = true → outcome_of m ctx n ([], "", Some (Sentinel ErrClosed)) s
  | outcome_done s w os e :
      led m (s, w, os) → s_closed s = false → ctx_cause ctx w = Some e → outcome_of m ctx n ([], "", Some e) s.

Section trace.
Context (m : moment) (base : S_) (ctx : Ctx W) (Hm : Live base m.1.1) (Hdone : stays_done ctx m.2).

Lemma wp_led_lock s w os (K : unit → mach S_ W → Prop) U :
  led m (s, w, os) →
  (∀ s' w' os', led m (s', w', os') → length os' ≤ length os →
     (∀ e, ctx_cause ctx w = Some e → ctx_cause ctx w' = Some e) → K () (Mach s' WLocked w' (others os'))) →
  wp Lock K U (Mach s Unlocked w (others os)).
Proof.
  intros Hl HK. unfold wp, Lock, acquire, interfere. destruct os as [|o os]; simpl; [by apply (HK s w [])|].
  pose proof (led_other _ _ _ _ _ Hl) as Hl'. pose proof (led_done ctx _ _ Hdone Hl) as Hd.
  apply Forall_inv in Hd. apply (HK (run (exec o) s w).1 (run (exec o) s w).2 os); [exact Hl'|simpl; lia|exact (Hd s w)].
Qed.

Lemma wp_led_wait s s1 w w1 os (K : option err → mach S_ W → Prop) (U : option unwind → mach S_ W → Prop) :
  led m (s, w, os) → looks s w (lupd sig_l Register s1) w1 →
  (os = [] → U None (Mach (lupd sig_l Register s1) Unlocked w1 [])) →
  (∀ s' w' os', led m (s', w', os') → length os' < length os →
     K (ctx_cause ctx w') (Mach s' Unlocked w' (others os'))) →
  wp (signal_Wait sig_l ctx Unlock) K U (Mach s1 WLocked w1 (others os)).
Proof.
  intros Hl Hlk HU HK. pose proof (led_look _ _ _ _ _ _ Hl Hlk) as Hl1.
  unfold signal_Wait, Wait. apply wp_bind, wp_getb, wp_bind, wp_updb, wp_bind, wp_Unlock, wp_bind.
  unfold wp at 1, Park, interfere. simpl. destruct os as [|o os]; simpl; [by apply HU|].
  pose proof (led_other _ _ _ _ _ Hl1) as Hl2.
  apply wp_bind, wp_updb, wp_bind, wp_getw, wp_ret. apply (HK _ _ os); [|simpl; lia].
  eapply led_look; [exact Hl2|apply looks_up].
Qed.

(** The last look of a Pull whose context is done. *)
Lemma wp_led_closedOrCause n s w os e (K : option err → mach S_ W → Prop) U :
  led m (s, w, os) → ctx_cause ctx w = Some e →
  (∀ x s' w' os', outcome_of m ctx n ([], "", x) s' → K x (Mach s' Unlocked w' (others os'))) →
  wp (closedOrCause ctx) K U (Mach s Unlocked w (others os)).
Proof.
  intros Hl He HK. unfold closedOrCause. apply wp_bind, (wp_led_lock _ _ _ _ _ Hl).
  intros s' w' os' Hl' _ Hd. apply wp_bind, wp_getb, wp_bind, wp_Unlock. cbn [mb].
  destruct (s_closed s') eqn:Hc; [by apply wp_ret, HK; eapply outcome_closed|].
  apply wp_bind, wp_getw, wp_ret. cbn [mw]. rewrite (Hd e He). apply HK. eapply outcome_done; [done..|]. by apply Hd.
Qed.

Lemma wp_led_pull n o s w os :
  led m (s, w, os) → (1 ≤ n)%Z →
  wp (Pull ctx n o) (λ r t, mlk t = Unlocked ∧ outcome_of m ctx n r (mb t))
    (λ u t, match u with
            | Some _ => mlk t = WLocked
            | None => mlk t = Unlocked ∧ ∃ s w ls, led m (s, w, []) ∧ filled s ls ∧ s_closed s = false ∧
                parked_at holds base s ls (mb t)
            end) (Mach s Unlocked w (others os)).
Proof.
  intros Hl Hn. rewrite Pull_eq by done.
  enough (∀ w, led m (s, w, os) → wp (forever (
      Lock;; s ← getb;
      if s_closed s then Unlock;; return_ ([], "", Some (Sentinel ErrClosed)) else pull_body ctx n o))
    (λ r t, mlk t = Unlocked ∧ outcome_of m ctx n r (mb t))
    (λ u t, match u with
            | Some _ => mlk t = WLocked
            | None => mlk t = Unlocked ∧ ∃ s w ls, led m (s, w, []) ∧ filled s ls ∧ s_closed s = false ∧
                parked_at holds base s ls (mb t)
            end) (Mach s Unlocked w (others os))) as Hbody.
  { apply wp_sched_counted; [done|by apply Hbody|]. intros x. apply Hbody.
    eapply led_look; [exact Hl|apply looks_counted]. }
  clear w Hl. intros w Hl.
  apply (wp_forever (λ t, mlk t = Unlocked ∧ ∃ os, menv t = others os ∧ led m (mb t, mw t, os))).
  { split; [done|]. by exists os. }
  clear s w os Hl. intros [s k w e] (Hk & os & He & Hl). simpl in *. subst.
  apply wp_bind, (wp_led_lock _ _ _ _ _ Hl). intros s2 w2 os' Hl2 Hlen _. clear s w Hl.
  revert s2 w2 Hl2. intros s w Hl.
  apply wp_bind, wp_getb. cbn [mb]. destruct (s_closed s) eqn:Hc.
  { apply wp_bind, wp_Unlock, wp_ret. split; [done|]. by eapply outcome_closed. }
  pose proof (led_live base _ _ Hm Hl) as Hs. simpl in Hs.
  destruct (so_queues _ _ (proj1 Hs)) as [ls Hf]. unfold pull_body.
  pose proof Hs as [[Hsh Hok _ Hwi Hsig] _]. apply wp_bind.
  eapply (wp_serveable holds); [exact Hsh|exact Hok|by apply At_self|].
  intros [i|] ds1 c1 ls1 s1 w1 Hch Hok1 Hat1.
  - eapply (wp_pull_trip holds ctx n o _ _ s ls w1 _ i ds1 c1 ls1 s1 Hsh Hok Hn Hch Hok1 Hat1); [|done].
    intros r ds' c' p' ls' s' w' Hp Hok' Hat. split; [done|]. by eapply outcome_trip.
  - assert (all_empty s ls) as Hae by by inversion Hch.
    assert (looks s w (lupd sig_l Register s1) w1) as Hlk by by eapply looks_empty.
    apply wp_bind, (wp_led_wait _ _ _ _ _ _ _ Hl Hlk).
    + intros ->. split; [done|]. exists s, w, ls. split_and!; try done. split; [done| |].
      * simpl. rewrite (at_sig _ _ _ _ _ _ _ Hat1). apply elem_of_app. right. by left.
      * exact (led_live base _ _ Hm (led_look _ _ _ _ _ _ Hl Hlk)).
    + intros s' w' os2 Hl2 Hlt. destruct (ctx_cause ctx w') as [x|] eqn:Hx.
      * apply wp_bind, (wp_led_closedOrCause n _ _ _ _ _ _ Hl2 Hx). intros x' s2 w2 os3 Ho.
        apply wp_ret. by split.
      * apply wp_ret. split; [split; [done|by exists os2]|]. simpl. unfold sched_others. rewrite !length_fmap. lia.
Qed.
End trace.

End company.
