(* ===== verification/CbwfqOps.v ===== *)
(** Building a scheduler and pushing to it: New accepts exactly the lists of classes its comment
    describes and hands back a sound scheduler; Push puts the item where the classifier says. *)

From S2P Require Import Prelude Errors Machine Core Contract Logic ContractFacts Interface Cbwfq CbwfqFacts CbwfqPull CbwfqSafe.

Section ops.
Context {Cfg Q W T : Type} `{!ClassQueue Cfg Q W T} (holds : list T → Q → Prop).
Context `{!ClassQueueLaws Cfg Q W T holds} `{!SchedTelemetry W} (classifier : T → code W string).
Abbreviation S_ := (CBWFQ Cfg Q W T).
Abbreviation filled := (filled holds).
Implicit Types (s sh : CBWFQ Cfg Q W T) (cs : classState Cfg Q) (ls : list (list T)).

(** * Push *)

(** Where the item went. *)
Record pushed s ls (item : T) (name : string) (s' : S_) : Prop := {
  pd_class : ∃ l k, ls !! route s name = Some l ∧ k ≡ₚ item :: l ∧ filled s' (<[route s name:=k]> ls);
  pd_pending : s_pending s' = (s_pending s + 1)%Z;
  pd_deficits : deficits s' = deficits s;
  pd_cursor : s_cursor s' = s_cursor s;
  pd_woken : sg_parked (s_sig s') = [];
}.

(** Nothing moved. *)
Definition unmoved s ls (t : mach S_ W) : Prop :=
  mlk t = Unlocked ∧ filled (mb t) ls ∧ s_pending (mb t) = s_pending s ∧ Live holds s (mb t).

Lemma At_push s ds c p ls s' :
  Sound holds s → dwrr_ok s ds c → At holds s ds c p ls s' → Live holds s s' ∧ filled s' ls ∧ s_pending s' = p.
Proof.
  intros Hs Hok Hat. split; [|by destruct Hat]. eapply At_live; [by split|exact Hok|exact Hat].
Qed.

Lemma wp_Push_alone ctx item o s ls w :
  Sound holds s → filled s ls → s_windows s = [] →
  wp (Cbwfq.Push classifier ctx item o)
    (λ e t, match e with
            | None => (∃ name, (∃ w0 w1, classifier item w0 = (Ok name, w1)) ∧ pushed s ls item name (mb t)) ∧
                mlk t = Unlocked ∧ Live holds s (mb t)
            | Some _ => unmoved s ls t
            end)
    (λ _, unmoved s ls) (Mach s Unlocked w []).
Proof.
  intros Hs Hf Ha. assert (Live holds s s) as Hlive by by split.
  unfold Cbwfq.Push. apply wp_sched_instrumented; [by intros [e|]|]. clear w. intros w.
  apply wp_bind, wp_call; [|by intros u w']. intros name w' Hcl. apply wp_bind, wp_getb. cbn [mb].
  pose proof (route_class holds s s name Hlive) as Hi. fold (route s name). set (i := route s name) in *.
  destruct (filled_lookup holds s ls i Hf Hi) as [l Hl]. pose proof (so_dwrr _ _ Hs) as Hok.
  pose proof (At_self holds s ls Hf (so_windows _ _ Hs)) as Hat0.
  apply wp_bind. eapply (wp_on holds i _ _ _ _ _ _ _ _ _ _ _ _ l
    (λ '(ok, e) k, ok = bool_decide (e = None) ∧ if ok : bool then k ≡ₚ item :: l else k = l) (λ _ k, k = l));
    [exact Hat0|exact Hl| | |].
  - intros cfg q ps Hh Hps Hnil. rewrite (Hnil Ha).
    eapply wp_mono; [| |by apply (law_Push (holds := holds))].
    + intros [ok e] t [Hok' (k & Hk & Hp)]. exists k. split; [|done]. split; [done|]. by destruct ok.
    + intros u t Ht. by exists l.
  - assert (i < length ls) as Hils by by eapply lookup_lt_Some.
    intros [ok x] k s1 w1 [-> Hk] Hat1. destruct x as [x|]; simpl.
    { rewrite bool_decide_eq_false_2 in * by done. subst k. rewrite list_insert_id in Hat1 by done.
      apply wp_ret. by destruct (At_push _ _ _ _ _ _ Hs Hok Hat1) as (? & ? & ?). }
    rewrite bool_decide_eq_true_2 in * by done. simpl.
    apply wp_bind, wp_acquire_nil, wp_bind, wp_updb, wp_bind.
    pose proof (At_pending _ _ _ _ _ _ _ 1%Z Hat1) as Hat2.
    eapply (wp_recordDepth_class holds); [exact Hat2|by apply list_lookup_insert_eq|].
    intros k' s3 w3 Hg Hat3. rewrite list_insert_insert_eq in Hat3.
    assert (k' = k) as -> by (destruct Hg as [_ Hg]; by apply Hg).
    apply wp_bind, wp_getb, wp_bind. cbn [mb].
    destruct (At_push _ _ _ _ _ _ Hs Hok Hat3) as (Hl3 & Hf3 & Hp3).
    apply wp_sched_Signal; [apply Hl3|]. intros g Hg' Hpark. apply wp_bind, wp_Unlock, wp_ret.
    split; [|split; [done|by apply Live_sig]]. exists name. split; [eauto|].
    constructor; try done; [|exact (at_deficits _ _ _ _ _ _ _ Hat3)|exact (at_cursor _ _ _ _ _ _ _ Hat3)].
    exists l, k. split; [exact Hl|]. by split.
  - intros u k s1 w1 -> Hat1. rewrite list_insert_id in Hat1 by done.
    by destruct (At_push _ _ _ _ _ _ Hs Hok Hat1) as (? & ? & ?).
Qed.

(** C33: By itself a Push that succeeds puts the item into the class the classifier names - the
    Default class when it names none - and nowhere else, Len goes up by one, the round is left alone
    and every parked Pull is woken; one that fails, unwinds or parks (its class is full) changes no
    class. *)
Theorem sched_push ctx item o s ls w :
  Sound holds s → filled s ls → s_windows s = [] →
  let r := Cbwfq.Push classifier ctx item o (Mach s Unlocked w []) in
  match r.1 with
  | Done None => (∃ name, (∃ w0 w1, classifier item w0 = (Ok name, w1)) ∧ pushed s ls item name (mb r.2)) ∧
      mlk r.2 = Unlocked ∧ Live holds s (mb r.2)
  | Fatal => False
  | _ => unmoved s ls r.2
  end.
Proof.
  intros Hs Hf Ha. pose proof (wp_Push_alone ctx item o s ls w Hs Hf Ha) as H. unfold wp in H.
  by destruct (Cbwfq.Push classifier ctx item o _) as [[[e|]|u| |] t].
Qed.

(** * New *)

(** A class that New takes. *)
Record valid_class (c : Class_ Cfg Q) : Prop := {
  vc_name : Name c ≠ "";
  vc_queue : CQueue c ≠ None;
  vc_weight : IsPriority c = false → (1 ≤ Weight c)%Z;
}.

Definition count (f : Class_ Cfg Q → bool) (cl : list (Class_ Cfg Q)) : nat := length (filter (λ c, f c = true) cl).

(** What the comment on New asks of the classes. *)
Record valid_classes (cl : list (Class_ Cfg Q)) : Prop := {
  vl_classes : Forall valid_class cl;
  vl_names : NoDup (Name <$> cl);
  vl_default : count Default cl = 1;
  vl_priority : count IsPriority cl ≤ 1;
}.

(** The queue of a class holds [l]. *)
Definition class_holds (c : Class_ Cfg Q) (l : list T) : Prop :=
  match CQueue c with Some (_, q) => holds l q | None => True end.

(** The state of a class that has just been registered. *)
Record registered (c : Class_ Cfg Q) cs : Prop := {
  rg_name : cs_name cs = Name c;
  rg_weight : cs_weight cs = Weight c;
  rg_priority : cs_priority cs = IsPriority c;
  rg_deficit : cs_deficit cs = 0%Z;
}.

(** The scheduler with the classes [cl] in it, which hold [ls]. *)
Record building (cl : list (Class_ Cfg Q)) ls s : Prop := {
  bu_classes : Forall2 registered cl (s_classes s);
  bu_filled : filled s ls;
  bu_valid : Forall valid_class cl;
  bu_names : NoDup (Name <$> cl);
  bu_weighted i : i ∈ s_weighted s ↔ ∃ c, cl !! i = Some c ∧ IsPriority c = false;
  bu_nodup : NoDup (s_weighted s);
  bu_priority : match s_priority s with
                | Some p => ∃ c, cl !! p = Some c ∧ IsPriority c = true
                | None => count IsPriority cl = 0
                end;
  bu_def : count Default cl ≠ 0 → ∃ c, cl !! s_def s = Some c ∧ Default c = true;
  bu_cursor : s_cursor s = 0;
  bu_sig : s_sig s = newSignal;
  bu_windows : s_windows s = [];
  bu_closed : s_closed s = false;
  bu_named : s_named s = false;
}.

Lemma building_length cl ls s : building cl ls s → length cl = length (s_classes s) ∧ length ls = length (s_classes s).
Proof. intros []. apply Forall2_length in bu_classes0, bu_filled0. lia. Qed.

(** The call on the new class queue changes nothing that matters. *)
Lemma building_At cl ls s ls' s' :
  building cl ls s → At holds s (deficits s) (s_cursor s) (s_pending s) ls' s' → building cl ls' s'.
Proof.
  intros [] Hat. destruct Hat. constructor; rewrite ?at_weighted, ?at_priority, ?at_def, ?at_cursor, ?at_sig, ?at_closed, ?at_named; try done; [|auto].
  apply Forall2_same_length_lookup. pose proof (Forall2_length _ _ _ bu_classes0) as Hl1.
  pose proof (Forall2_length _ _ _ at_classes) as Hl2. split; [lia|]. intros i c cs' Hc Hcs'.
  destruct (Forall2_lookup_l _ _ _ _ _ bu_classes0 Hc) as (cs & Hcs & Hreg).
  pose proof (Forall2_lookup_lr _ _ _ _ _ _ at_classes Hcs Hcs') as Hsame.
  assert (cs_deficit cs' = cs_deficit cs) as Hd.
  { unfold deficits in at_deficits. apply (f_equal (λ l, l !! i)) in at_deficits.
    rewrite !list_lookup_fmap, Hcs, Hcs' in at_deficits. by injection at_deficits. }
  destruct Hreg, Hsame. constructor; congruence.
Qed.

Lemma count_snoc f (cl : list (Class_ Cfg Q)) c : count f (cl ++ [c]) = (if f c then S (count f cl) else count f cl).
Proof.
  unfold count. rewrite filter_app, length_app. destruct (f c) eqn:Hf.
  - rewrite filter_cons_True by done. simpl. lia.
  - rewrite filter_cons_False by by rewrite Hf. simpl. lia.
Qed.

Lemma lookup_snoc_Some {A} (l : list A) x i y :
  (l ++ [x]) !! i = Some y ↔ l !! i = Some y ∨ i = length l ∧ y = x.
Proof.
  rewrite lookup_app_Some. split.
  - intros [?|[Hi Hx]]; [by left|]. right. apply list_lookup_singleton_Some in Hx as [? <-]. split; [lia|done].
  - intros [?|[-> ->]]; [by left|]. right. by rewrite Nat.sub_diag.
Qed.

(** The class is put in. *)
Lemma building_step cl ls s c cfg q l :
  building cl ls s → valid_class c → Name c ∉ Name <$> cl → CQueue c = Some (cfg, q) → holds l q →
  building (cl ++ [c]) (ls ++ [l])
    (MkSched (s_classes s ++ [MkClassState (Name c) (Weight c) cfg q (IsPriority c) 0 0])
       (if IsPriority c then s_weighted s else s_weighted s ++ [length (s_classes s)]) (s_cursor s)
       (if IsPriority c then Some (length (s_classes s)) else s_priority s)
       (if Default c then length (s_classes s) else s_def s) (s_pending s) (s_closed s) (s_sig s) (s_named s)
       (s_windows s)).
Proof.
  intros Hb Hv Hname Hq Hl. destruct (building_length _ _ _ Hb) as [Hlen _]. destruct Hb.
  constructor; simpl; try done.
  - apply Forall2_app; [done|]. by constructor.
  - apply Forall2_app; [done|]. by constructor.
  - apply Forall_app. by rewrite Forall_singleton.
  - rewrite fmap_app. apply NoDup_app. split; [done|]. split; [|by apply NoDup_singleton].
    intros x Hx ->%list_elem_of_singleton. done.
  - intros i. setoid_rewrite lookup_snoc_Some. destruct (IsPriority c) eqn:Hp; rewrite ?elem_of_app, bu_weighted0, ?list_elem_of_singleton.
    + split; [intros (c' & ? & ?); eauto|]. intros (c' & [?|[_ ->]] & ?); [eauto|congruence].
    + split; [intros [(c' & ? & ?)| ->]; eauto|]. intros (c' & [?|[-> _]] & ?); [eauto|right; lia].
  - destruct (IsPriority c); [done|]. apply NoDup_app. split; [done|]. split; [|by apply NoDup_singleton].
    intros x Hx ->%list_elem_of_singleton. apply bu_weighted0 in Hx as (c' & Hc' & _).
    apply lookup_lt_Some in Hc'. lia.
  - destruct (IsPriority c) eqn:Hp.
    + exists c. split; [|done]. apply lookup_snoc_Some. right. by split.
    + destruct (s_priority s) as [p|]; [|by rewrite count_snoc, Hp].
      destruct bu_priority0 as (c' & ? & ?). exists c'. split; [|done]. apply lookup_snoc_Some. by left.
  - intros Hne. rewrite count_snoc in Hne. destruct (Default c) eqn:Hd.
    + exists c. split; [|done]. apply lookup_snoc_Some. right. by split.
    + destruct bu_def0 as (c' & ? & ?); [done|].
      exists c'. split; [|done]. apply lookup_snoc_Some. by left.
Qed.

Definition total (ls : list (list T)) : Z := foldr (λ l z, (zlen l + z)%Z) 0%Z ls.

Lemma total_app l1 l2 : total (l1 ++ l2) = (total l1 + total l2)%Z.
Proof. induction l1 as [|l l1 IH]; simpl; [done|]. rewrite IH. lia. Qed.

Lemma find_class_None name (l : list (classState Cfg Q)) : find_class name l = None ↔ name ∉ cs_name <$> l.
Proof.
  unfold find_class. rewrite fmap_None, list_find_None, Forall_forall, list_elem_of_fmap. naive_solver.
Qed.

Lemma building_names cl ls s : building cl ls s → cs_name <$> s_classes s = Name <$> cl.
Proof.
  intros []. apply list_eq_Forall2, Forall2_fmap_2, Forall2_flip. eapply Forall2_impl; [exact bu_classes0|].
  by intros c cs [].
Qed.

(** The classes that are left to take in. *)
Definition acceptable (cl rest : list (Class_ Cfg Q)) : Prop :=
  Forall valid_class rest ∧ NoDup (Name <$> (cl ++ rest)).

Lemma acceptable_cons cl c rest :
  acceptable cl (c :: rest) ↔ valid_class c ∧ acceptable (cl ++ [c]) rest.
Proof. unfold acceptable. rewrite Forall_cons, <- app_assoc. naive_solver. Qed.

Lemma acceptable_head cl c rest : acceptable cl (c :: rest) → valid_class c ∧ Name c ∉ Name <$> cl.
Proof.
  intros [Hv Hn]. split; [by inversion Hv|]. rewrite fmap_app in Hn. apply NoDup_app in Hn as (_ & Hd & _).
  intros Hin. apply (Hd _ Hin). by left.
Qed.

(** What the loop of New comes to. *)
Lemma wp_New_loop rest lr cl ls s k w (K : nat * nat * Z + err → mach S_ W → Prop) :
  building cl ls s → Forall2 class_holds rest lr →
  (∀ s' w', acceptable cl rest → building (cl ++ rest) (ls ++ lr) s' →
     K (inl (count Default (cl ++ rest), count IsPriority (cl ++ rest), total (ls ++ lr))) (Mach s' k w' [])) →
  (∀ e s' w', ¬ acceptable cl rest → K (inr e) (Mach s' k w' [])) →
  wp (New_loop rest (count Default cl) (count IsPriority cl) (total ls)) K (λ _ _, False) (Mach s k w []).
Proof.
  intros Hb Hr. revert cl ls s w Hb K. induction Hr as [|c l rest lr Hc Hr IH]; intros cl ls s w Hb K HK HE; simpl.
  { apply wp_ret. specialize (HK s w). rewrite !app_nil_r in HK. apply HK; [|done]. split; [done|]. rewrite app_nil_r. apply Hb. }
  assert (∀ e s' w', ¬ (valid_class c ∧ Name c ∉ Name <$> cl) → K (inr e) (Mach s' k w' [])) as Hbad.
  { intros e s' w' Hno. apply HE. intros Hacc. by apply Hno, (acceptable_head _ _ rest). }
  apply wp_bind, wp_getb. cbn [mb]. destruct (bool_decide (Name c = "")) eqn:Hn.
  { apply bool_decide_eq_true in Hn. apply wp_ret, Hbad. by intros [[] _]. }
  apply bool_decide_eq_false in Hn. destruct (find_class (Name c) (s_classes s)) as [j|] eqn:Hfc.
  { apply wp_ret, Hbad. intros [_ Hni]. revert Hni. rewrite <- (building_names _ _ _ Hb), <- find_class_None. by rewrite Hfc. }
  apply find_class_None in Hfc. rewrite (building_names _ _ _ Hb) in Hfc.
  destruct (CQueue c) as [[cfg q]|] eqn:Hq; [|apply wp_ret, Hbad; by intros [[] _]].
  destruct (negb (IsPriority c) && (Weight c <? 1)%Z) eqn:Hw.
  { apply wp_ret, Hbad. intros [[_ _ Hv] _]. destruct (IsPriority c); [done|]. simpl in Hw. bool_to_prop.
    specialize (Hv eq_refl). lia. }
  assert (valid_class c) as Hv.
  { split; [done|by rewrite Hq|]. intros Hp. rewrite Hp in Hw. simpl in Hw. bool_to_prop. lia. }
  unfold class_holds in Hc. rewrite Hq in Hc.
  pose proof (building_step cl ls s c cfg q l Hb Hv Hfc Hq Hc) as Hb'.
  destruct (building_length _ _ _ Hb) as [Hl1 Hl2].
  apply wp_bind, wp_updb, wp_bind. set (s1 := MkSched _ _ _ _ _ _ _ _ _ _) in *.
  eapply (wp_qLen holds); [apply At_self; [apply Hb'|by rewrite (bu_windows _ _ _ Hb')]|apply lookup_snoc_Some; right; by rewrite Hl2|].
  intros l' s' w' Hg Hat.
  assert (l' = l) as -> by (destruct Hg as [_ Hg]; apply Hg; apply Hb').
  rewrite list_insert_id in Hat by (apply lookup_snoc_Some; right; by rewrite Hl2).
  pose proof (building_At _ _ _ _ _ Hb' Hat) as Hb2. pose proof (acceptable_cons cl c rest) as Hacc.
  pose proof (count_snoc Default cl c) as Hcd. pose proof (count_snoc IsPriority cl c) as Hcp.
  assert (total ls + zlen l = total (ls ++ [l]))%Z as -> by (rewrite total_app; simpl; lia).
  rewrite <- Hcd, <- Hcp. apply (IH (cl ++ [c]) (ls ++ [l])); [exact Hb2| |].
  - intros s2 w2 Ha Hb3. rewrite <- !app_assoc in *. simpl in *. apply HK; [|done]. by apply Hacc.
  - intros e s2 w2 Ha. apply HE. intros Ha'. by apply Ha, Hacc.
Qed.

Lemma building_sound cl ls s : building cl ls s → count Default cl = 1 → Sound holds s.
Proof.
  intros Hb Hd. pose proof Hb as [].
  assert (∀ i c, cl !! i = Some c → ∃ cs, s_classes s !! i = Some cs ∧ registered c cs) as Hlook.
  { intros i c Hc. destruct (Forall2_lookup_l _ _ _ _ _ bu_classes0 Hc) as (cs & ? & ?). eauto. }
  constructor.
  - constructor; [|done| |].
    + intros i Hi. apply bu_weighted0 in Hi as (c & Hc & Hp). destruct (Hlook i c Hc) as (cs & Hcs & []).
      exists cs. split; [done|]. rewrite rg_priority0, rg_weight0. split; [done|].
      rewrite Forall_forall in bu_valid0. apply bu_valid0; [by eapply list_elem_of_lookup_2|done].
    + intros p Hp. rewrite Hp in bu_priority0. destruct bu_priority0 as (c & Hc & Hpr).
      destruct (Hlook p c Hc) as (cs & Hcs & []). exists cs. split; [done|congruence].
    + destruct bu_def0 as (c & Hc & _); [lia|]. destruct (Hlook _ c Hc) as (cs & Hcs & _). by exists cs.
  - assert (∀ i, deficit (deficits s) i = 0%Z) as Hz.
    { intros i. unfold deficit, deficits. rewrite list_lookup_fmap.
      destruct (s_classes s !! i) as [cs|] eqn:Hcs; [|done]. simpl.
      destruct (Forall2_lookup_r _ _ _ _ _ bu_classes0 Hcs) as (c & _ & []). done. }
    split.
    + intros i Hi. rewrite Hz. apply bu_weighted0 in Hi as (c & Hc & Hp). destruct (Hlook i c Hc) as (cs & Hcs & []).
      rewrite (weight_lookup _ _ _ Hcs), rg_weight0. rewrite Forall_forall in bu_valid0.
      pose proof (vc_weight _ (bu_valid0 c ltac:(by eapply list_elem_of_lookup_2)) Hp). lia.
    + intros Hne. rewrite bu_cursor0. destruct (s_weighted s); [done|simpl; lia].
  - by exists ls.
  - by rewrite bu_windows0.
  - rewrite bu_sig0. intros i Hi. by apply elem_of_nil in Hi.
Qed.

(** What New hands back. *)
Record ready named cl ls s : Prop := {
  rd_sound : Sound holds s;
  rd_filled : filled s ls;
  rd_classes : Forall2 registered cl (s_classes s);
  rd_weighted i : i ∈ s_weighted s ↔ ∃ c, cl !! i = Some c ∧ IsPriority c = false;
  rd_pending : s_pending s = total ls;
  rd_cursor : s_cursor s = 0;
  rd_closed : s_closed s = false;
  rd_named : s_named s = named;
}.

Lemma building_ready named cl ls s :
  building cl ls s → count Default cl = 1 →
  ready named cl ls (MkSched (s_classes s) (s_weighted s) (s_cursor s) (s_priority s) (s_def s) (total ls)
    (s_closed s) (s_sig s) named (s_windows s)).
Proof.
  intros Hb Hd. destruct (building_sound _ _ _ Hb Hd) as [[] [] ? ? ?], Hb.
  by constructor.
Qed.

Lemma building_nil : building [] [] (empty_sched []).
Proof.
  split; try done; try constructor.
  - intros Hi. by apply elem_of_nil in Hi.
  - intros (c & Hc & _). by rewrite lookup_nil in Hc.
Qed.

Lemma wp_New named given cl ls w :
  Forall2 class_holds cl ls →
  wp (Cbwfq.New named given cl)
    (λ e t, (e = None ↔ given = true ∧ valid_classes cl) ∧ (e = None → ready named cl ls (mb t)))
    (λ _ _, False) (Mach (empty_sched []) Unlocked w []).
Proof.
  intros Hh. unfold Cbwfq.New. destruct given; simpl; [|apply wp_ret; split; [naive_solver|done]].
  destruct cl as [|c0 cl0]; [apply wp_ret; split; [|done]; split; [done|by intros [_ []]]|].
  set (cl := c0 :: cl0) in *. apply wp_bind, (wp_New_loop cl ls [] []); [exact building_nil|done| |].
  2: { intros e s' w' Ha. apply wp_ret. split; [|done]. split; [done|]. intros [_ []]. by destruct Ha. }
  intros s' w' [Hv Hn] Hb. simpl in Hb, Hn. simpl.
  assert (∀ (x : err) s w, ¬ (count Default cl = 1 ∧ count IsPriority cl ≤ 1) →
    (Some x = None ↔ true = true ∧ valid_classes cl) ∧ (Some x = None → ready named cl ls (mb (Mach s Unlocked w [] : mach S_ W)))) as Hbad.
  { intros x s1 w1 Hno. split; [|done]. split; [done|]. intros [_ []]. by destruct Hno. }
  destruct (count Default cl =? 0)%nat eqn:H0; bool_to_prop; [apply wp_ret, Hbad; lia|].
  destruct (1 <? count Default cl)%nat eqn:H1; [apply Nat.ltb_lt in H1; apply wp_ret, Hbad; lia|].
  destruct (1 <? count IsPriority cl)%nat eqn:H2; [apply Nat.ltb_lt in H2; apply wp_ret, Hbad; lia|].
  apply Nat.ltb_ge in H1, H2. assert (count Default cl = 1) as Hd by lia.
  pose proof (building_ready named cl ls s' Hb Hd) as Hr.
  apply wp_bind, wp_updb, wp_bind. destruct named; [apply wp_updw|apply wp_ret]; apply wp_ret; (split; [|done]);
    (split; [|done]); intros _; (split; [done|]); by constructor.
Qed.

(** New accepts exactly a classifier and a list of classes with distinct names that are not
    empty, a queue each, a weight of at least 1 where the class is weighted, one Default and at most
    one Priority; the scheduler it returns is sound, open, holds what the queues held, counts it in
    Len, and starts its round at the first weighted class with no class in credit. *)
Theorem sched_New named given cl ls w :
  Forall2 class_holds cl ls →
  ∃ e t, New named given cl (Mach (empty_sched []) Unlocked w []) = (Done e, t) ∧
    (e = None ↔ given = true ∧ valid_classes cl) ∧
    (e = None → ready named cl ls (mb t)).
Proof.
  intros Hh. pose proof (wp_New named given cl ls w Hh) as H. unfold wp in H.
  destruct (Cbwfq.New named given cl _) as [[e|u| |] t] eqn:E; try done. exists e, t. by split.
Qed.
End ops.
