(* ===== verification/CbwfqQueue.v ===== *)
(** A queue of this package as a class queue of the scheduler: over every backing that implements the
    contract, the public operations keep what the scheduler relies on. *)

From S2P Require Import Prelude Errors Machine Core Contract Logic ContractFacts Interface.
From S2P Require Import Cbwfq Queue QueueFacts.

Section class_queue.
Context {B W T : Type} `{!Item W T} `{!World W} `{!Telemetry W} (R : B → QState W T → Prop)
  (ops : Ops B W T) (priority excl : bool) (before : T → T → bool).
Context `{!Implements R ops priority excl before}.
Abbreviation Q := (QState W T).
Abbreviation C := (contract_ops priority excl before).
Implicit Types (c : Queue W T) (qs : QState W T).

#[export] Instance queue_class : ClassQueue (Queue W T) B W T := {
  cq_Push := Queue.Push ops;
  cq_Pop := Queue.Pop ops;
  cq_Len := λ _, Queue.Len ops;
  cq_Close := Queue.Close ops;
  cq_other := λ c o, run (queue_exec ops c o);
}.

Definition contents qs : list T := e_item <$> q_items qs.

(** The items of the queue a backing stands for. *)
Definition queue_holds (l : list T) (b : B) : Prop := ∃ qs, R b qs ∧ Inv 0 qs ∧ contents qs = l.

Definition grows (alone : Prop) (l : list T) (k : list (entry T)) : Prop := grown alone l (e_item <$> k).

Lemma grown_refl alone (l : list T) : grown alone l l.
Proof. done. Qed.

Lemma grows_insert alone l k vs : ¬ alone → grows alone l k → grows alone l (insert_all before vs false k).
Proof.
  intros Hna [Hs _]. split; [|done]. etransitivity; [exact Hs|].
  rewrite insert_all_Permutation, fmap_app, <- list_fmap_compose. simpl.
  by apply submseteq_inserts_l.
Qed.

(** Pushes of other goroutines are interference that only adds. *)
Lemma rely_pushes c ctx l ps e :
  Forall arriving ps → e `suffix_of` ((λ o, run (queue_exec C c o)) <$> ps) →
  rely (IP (grows (ps = []) l)) False ctx e.
Proof.
  intros Hps Hsuf. destruct ps as [|p ps].
  { apply suffix_nil_inv in Hsuf as ->. constructor. }
  destruct Hsuf as [e' He]. assert (Forall (λ f, (∀ r b w, (0 ≤ r)%Z →
    IP (grows (p :: ps = []) l) r b → IP (grows (p :: ps = []) l) r (f b w).1) ∧
    (False → ∀ b w x, ctx_cause ctx w = Some x → ctx_cause ctx (f b w).2 = Some x))
    ((λ o, run (queue_exec C c o)) <$> (p :: ps))) as Hall.
  { apply Forall_fmap. eapply Forall_impl; [exact Hps|]. intros o Ho. split; [|done].
    intros r b w Hr Hb. apply wp_run.
    assert (∀ ctx', outside (grows (p :: ps = []) l) False ctx' r (Mach b Unlocked w [])) as Hout.
    { split; [done|]. split; [done|constructor]. }
    destruct o as [ctx' vs o| | | | | | | |ctx' o| |]; try done; simpl; [apply wp_pair_eta, wp_bind|apply wp_bind].
    all: eapply wp_mono; [| |apply (wp_instrumented_outside (grows (p :: ps = []) l) False ctx' c _ _ _
      (λ _ t, outside (grows (p :: ps = []) l) False ctx' r t) r); [done|apply Hout|]];
      [intros a t Ht; apply wp_ret; apply Ht|intros u t [Ht _]; apply Ht|].
    - intros s Hs. apply wp_push_keeps; [|done..]. intros k vs'. by apply grows_insert.
    - intros s Hs. eapply wp_mono; [| |by apply wp_Close]; [|done]. by intros a t [Ht _]. }
  rewrite He, Forall_app in Hall. by destruct Hall.
Qed.

Lemma related_pushes c os :
  Forall2 (env_rel R) (cq_other c <$> os) ((λ o, run (queue_exec C c o)) <$> os).
Proof.
  apply Forall2_fmap_2, Forall_Forall2_diag, Forall_true. intros o. by eapply refines_run, queue_exec_refines.
Qed.

(** From the contract to the backing. *)
Lemma wp_transfer {A} (m : go B W A) (m' : go Q W A) c b qs w os
    (K : A → Q → Prop) (U : option unwind → Q → Prop) :
  refines R m m' → R b qs →
  wp m' (λ a t, K a (mb t)) (λ u t, U u (mb t))
    (Mach qs Unlocked w ((λ o, run (queue_exec C c o)) <$> os)) →
  wp m (λ a t, ∃ qs, R (mb t) qs ∧ K a qs) (λ u t, ∃ qs, R (mb t) qs ∧ U u qs)
    (Mach b Unlocked w (cq_other c <$> os)).
Proof.
  intros Hm Hr Hwp. eapply wp_mono; [| |eapply refines_wp; [exact Hm|apply mrel_mach|exact Hwp]].
  - intros a t1 (t2 & Ht & Ha). exists (mb t2). split; [apply Ht|done].
  - intros u t1 (t2 & Ht & Ha). exists (mb t2). split; [apply Ht|done].
  - done.
  - apply related_pushes.
Qed.

(** Where every contract-level call starts. *)
Lemma outside_pushes c ctx qs w ps :
  Forall arriving ps → Inv 0 qs →
  outside (grows (ps = []) (contents qs)) False ctx 0
    (Mach qs Unlocked w ((λ o, run (queue_exec C c o)) <$> ps)).
Proof.
  intros Hps HI. split; [done|]. split; [split; [done|apply grown_refl]|].
  by apply (rely_pushes c ctx _ ps _ Hps).
Qed.

Lemma contract_class_Len c qs w ps :
  Forall arriving ps → Inv 0 qs →
  wp (Contract.Len) (λ n t, ∃ k, grown (ps = []) (contents qs) k ∧ n = zlen k ∧ Inv 0 (mb t) ∧ contents (mb t) = k)
    (λ _ _, False) (Mach qs Unlocked w ((λ o, run (queue_exec C c o)) <$> ps)).
Proof.
  intros Hps HI. eapply wp_mono; [| |apply (wp_Len_exact (grows (ps = []) (contents qs)) False background 0);
    [done|by apply outside_pushes]]; [|done].
  intros n t [(_ & [HI' Hg] & _) ->]. exists (contents (mb t)). split_and!; try done.
  unfold contents. by rewrite zlen_fmap.
Qed.

Lemma take_min_length {A} n (l : list A) : take (Z.to_nat (Z.min n (zlen l))) l = take (Z.to_nat n) l.
Proof.
  unfold zlen. destruct (decide (n ≤ Z.of_nat (length l))%Z); [by rewrite Z.min_l|].
  rewrite Z.min_r, Nat2Z.id, !take_ge by lia. done.
Qed.

Lemma drop_min_length {A} n (l : list A) : drop (Z.to_nat (Z.min n (zlen l))) l = drop (Z.to_nat n) l.
Proof.
  unfold zlen. destruct (decide (n ≤ Z.of_nat (length l))%Z); [by rewrite Z.min_l|].
  rewrite Z.min_r, Nat2Z.id, !drop_ge by lia. done.
Qed.

Lemma contract_class_Pop c ctx n o qs w ps :
  Forall arriving ps → Inv 0 qs → (1 ≤ n)%Z → contents qs ≠ [] →
  wp (Queue.Pop C c ctx n o)
    (λ '(items, e) t, Inv 0 (mb t) ∧ ∃ k, grown (ps = []) (contents qs) k ∧
       match e with
       | None => items = take (Z.to_nat n) k ∧ grown (ps = []) (drop (Z.to_nat n) k) (contents (mb t))
       | Some _ => items = [] ∧ contents (mb t) = k
       end)
    (λ u t, is_Some u ∧ Inv 0 (mb t) ∧ grown (ps = []) (contents qs) (contents (mb t)))
    (Mach qs Unlocked w ((λ o, run (queue_exec C c o)) <$> ps)).
Proof.
  intros Hps HI Hn Hne. unfold Queue.Pop. rewrite (proj2 (Z.ltb_ge _ _)) by done.
  apply wp_instrumented; [by intros [items [e|]]|done|]. intros w'. apply wp_bind.
  eapply wp_mono; [| |eapply wp_consumes; [apply consumes_Pop|];
    apply (wp_Pop_nonempty (grows (ps = []) (contents qs)) False ctx 0); [done| |by apply outside_pushes]].
  - intros [items [e|]] t [Ht Hsuf].
    { destruct Ht as (-> & _ & [HI' Hg] & _). apply wp_ret. split; [done|]. by exists (contents (mb t)). }
    destruct Ht as (l & -> & Hk & HI' & _ & Hg & Hl & _). simpl in Hsuf.
    rewrite drop_min_length in Hl. rewrite take_min_length.
    apply wp_bind, (wp_recordDepth _ _ _ (grows (ps = []) (contents (mb t))) False ctx c 0); [done| |].
    { split; [done|]. split; [split; [done|apply grown_refl]|]. by apply (rely_pushes c ctx _ ps _ Hps). }
    intros t' (_ & [HI'' Hg'] & _). apply wp_ret. split; [done|]. exists (e_item <$> l).
    split; [done|]. rewrite fmap_take. split; [done|]. unfold contents in Hg'. by rewrite Hl, fmap_drop in Hg'.
  - intros u t [(Hu & _ & [HI' Hg] & _) _]. done.
  - intros l [Hs _] ->. by apply submseteq_nil_r in Hs.
Qed.

Lemma returns_instrumented {B' A} c o (f : A → option err) (m : go B' W A) P :
  returns m P → returns (instrumented c o f m) P.
Proof.
  intros Hm. unfold instrumented. apply (returns_bind _ _ (λ _, True)); [done|]. intros _ _ s a t.
  unfold ending. destruct (m s) as [[a'|u| |] t'] eqn:E; [|by destruct (done_end _ _ _ _ t') as [[] ?]|done..].
  unfold mbind, go_bind. destruct (done_end _ _ _ _ t') as [[] ?]; try done. intros [= <- _]. by eapply Hm.
Qed.

(** Push reports success by both of its results. *)
Lemma Push_ok c ctx vs o :
  returns (Queue.Push ops c ctx vs o) (λ x, x.1 = bool_decide (x.2 = None)).
Proof.
  apply returns_instrumented. unfold push. destruct (zlen vs =? 0)%Z.
  - apply (returns_bind _ _ (λ _, True)); [done|]. intros [opts [e|]] _; [by apply returns_ret|].
    destruct (SideEffect opts); [|by apply returns_ret].
    do 3 (apply (returns_bind _ _ (λ _, True)); [done|]; intros ? _). destruct a0; by apply returns_ret.
  - destruct (qu_maxBatch c <? zlen vs)%Z; [by apply returns_ret|].
    apply (returns_bind _ _ (λ _, True)); [done|]. intros [e|] _; [by apply returns_ret|].
    apply (returns_bind _ _ (λ _, True)); [done|]. intros _ _. by apply returns_ret.
Qed.

Lemma wp_returns {B' A} (m : go B' W A) P Q' U s :
  returns m P → wp m Q' U s → wp m (λ a t, P a ∧ Q' a t) U s.
Proof.
  unfold wp. intros Hm. destruct (m s) as [[a| | |] t] eqn:E; try done. intros HQ. split; [by eapply Hm|done].
Qed.

(** Any call keeps the queue a queue. *)
Lemma class_call_safe {A} c (o : qop) (f : A → option err) (m : go B W A) (m' : go Q W A) ctx l b w os :
  refines R m m' →
  (∀ s, outside (λ _, True) False ctx 0 s →
     wp m' (λ _ t, outside (λ _, True) False ctx 0 t) (gone (λ _, True) False ctx 0) s) →
  queue_holds l b →
  wp (instrumented c o f m) (λ _ t, ∃ k, queue_holds k (mb t)) (λ _ t, ∃ k, queue_holds k (mb t))
    (Mach b Unlocked w (cq_other c <$> os)).
Proof.
  intros Hm Hwp (qs & Hr & HI & _).
  eapply wp_mono; [| |apply (wp_transfer _ (instrumented c o f m') c b qs w os
    (λ _ q, Inv 0 q) (λ _ q, Inv 0 q)); [by apply instrumented_refines|done|]]; simpl.
  - intros a t (q & HR & HI'). by exists (contents q), q.
  - intros u t (q & HR & HI'). by exists (contents q), q.
  - eapply wp_mono; [| |apply (wp_instrumented_outside (λ _, True) False ctx c o f m'
      (λ _ t, outside (λ _, True) False ctx 0 t) 0); [done| |exact Hwp]].
    + intros a t (_ & [? _] & _). done.
    + intros u t [(_ & [? _] & _) _]. done.
    + split; [done|]. split; [done|]. apply queue_rely.
Qed.

#[export] Instance queue_class_laws : ClassQueueLaws (Queue W T) B W T queue_holds.
Proof.
  constructor; simpl.
  - intros c l b w ps (qs & Hr & HI & <-) Hps.
    eapply wp_mono; [| |apply (wp_transfer _ Contract.Len c b qs w ps
      (λ n q, ∃ k, grown (ps = []) (contents qs) k ∧ n = zlen k ∧ Inv 0 q ∧ contents q = k)
      (λ _ _, False)); [apply impl_Len|done|by apply contract_class_Len]]; simpl.
    + intros n t (q & HR & k & Hg & Hn & HI' & Hk). exists k. split_and!; try done. by exists q.
    + by intros u t (q & _ & ?).
  - intros c ctx n o l b w ps Hn Hne (qs & Hr & HI & <-) Hps.
    eapply wp_mono; [| |apply (wp_transfer _ (Queue.Pop C c ctx n o) c b qs w ps
      (λ '(items, e) q, Inv 0 q ∧ ∃ k, grown (ps = []) (contents qs) k ∧
         match e with
         | None => items = take (Z.to_nat n) k ∧ grown (ps = []) (drop (Z.to_nat n) k) (contents q)
         | Some _ => items = [] ∧ contents q = k
         end)
      (λ u q, is_Some u ∧ Inv 0 q ∧ grown (ps = []) (contents qs) (contents q)));
      [|done|eapply wp_mono; [| |by apply contract_class_Pop]; [by intros [? ?]|done]]]; simpl.
    + intros [items [e|]] t (q & HR & HI' & k & Hg & Hi & Hk); exists k; (split; [done|]); (split; [done|]).
      * by exists q.
      * exists (contents q). split; [done|by exists q].
    + intros u t (q & HR & Hu & HI' & Hg). split; [done|]. exists (contents q). split; [done|by exists q].
    + unfold Queue.Pop. rewrite (proj2 (Z.ltb_ge _ _)) by done. apply instrumented_refines.
      apply refines_bind; [apply impl_Pop; lia|]. intros [items [e|]]; [apply refines_ret|].
      apply refines_bind; [by eapply recordDepth_refines|intros; apply refines_ret].
  - intros c ctx vs o l b w (qs & Hr & HI & <-).
    eapply wp_mono; [| |by apply (queue_push_effect R ops priority excl before)]; simpl.
    + intros [ok [e|]] t [-> Ht]; simpl.
      * destruct Ht as (_ & q & HR & HI' & Hq). split; [done|]. exists (contents qs).
        split; [|done]. exists q. unfold contents. by rewrite Hq.
      * destruct Ht as (_ & (_ & q & HR & HI' & Hq) & _). split; [done|]. exists (contents q).
        split; [by exists q|]. unfold contents. rewrite Hq, insert_all_Permutation, fmap_app, <- list_fmap_compose.
        simpl. by rewrite list_fmap_id.
    + intros u t (_ & q & HR & HI' & Hq). exists q. unfold contents. by rewrite Hq.
  - intros c ctx vs o l b w os Hl.
    eapply wp_mono; [| |apply wp_returns; [apply Push_ok|];
      eapply (class_call_safe c QPush snd _ (push C c ctx vs o) ctx); [by apply push_refines| |done]]; [|done|].
    + intros [ok e] t [Hok Ht]. by split.
    + intros s Hs. by apply wp_queue_push.
  - intros c ctx o l b w os Hl. eapply (class_call_safe c QClose id _ (Contract.Close ctx o) ctx).
    + apply impl_Close.
    + intros s Hs. eapply wp_mono; [| |by apply wp_Close]; [|done]. by intros x t [Ht _].
    + done.
Qed.
End class_queue.
