(* ===== verification/QLock.v ===== *)
(** The lock of a queue and its backing (core/qlock.go) under every interleaving: a read-write mutex
    with the counter by which a copy-on-write iteration learns that a writer is blocked. *)

From S2P Require Import Prelude.

(** * State *)

(** Where a goroutine is: outside; in Lock, having read [cowActive], having counted itself, blocked in
    the mutex's Lock, or in it and still counted ([true]: on the path that counts); holding the lock
    for writing or for reading; inside CowEnter and CowExit, without and with the read lock. *)
Inductive lpc :=
  | Out
  | Checked (guarded : bool)
  | Bumped
  | Blocked (guarded : bool)
  | Got
  | HoldW
  | HoldR
  | CowOut
  | CowR.

#[export] Instance lpc_eq_dec : EqDecision lpc.
Proof. solve_decision. Defined.

(** [pending] and [cowActive] are the two counters, [pcs] the goroutines; the mutex is what they hold. *)
Record QLock := MkQLock { pcs : list lpc; pending : Z; cowActive : Z }.

Definition New (n : nat) : QLock := MkQLock (replicate n Out) 0 0.

Definition writes (c : lpc) : bool := match c with Got | HoldW => true | _ => false end.
Definition reads (c : lpc) : bool := match c with HoldR | CowR => true | _ => false end.
Definition blocked (c : lpc) : bool := match c with Blocked _ => true | _ => false end.

(** [sync.RWMutex]: a writer gets in when nobody is in, a reader when no writer is in or blocked. *)
Definition write_free (s : QLock) : bool := forallb (λ c, negb (writes c || reads c)) (pcs s).
Definition read_free (s : QLock) : bool := forallb (λ c, negb (writes c || blocked c)) (pcs s).

Definition goes (t : nat) (c : lpc) (dp dc : Z) (s : QLock) : option QLock :=
  Some (MkQLock (<[t:=c]> (pcs s)) (pending s + dp) (cowActive s + dc)).

(** The next action of Lock. *)
Definition Lock (t : nat) (s : QLock) : option QLock :=
  match pcs s !! t with
  | Some Out => goes t (Checked (0 <? cowActive s)%Z) 0 0 s
  | Some (Checked true) => goes t Bumped 1 0 s
  | Some (Checked false) => goes t (Blocked false) 0 0 s
  | Some Bumped => goes t (Blocked true) 0 0 s
  | Some (Blocked g) => if write_free s then goes t (if g : bool then Got else HoldW) 0 0 s else None
  | Some Got => goes t HoldW (-1) 0 s
  | _ => None
  end.

Definition Unlock (t : nat) (s : QLock) : option QLock :=
  match pcs s !! t with Some HoldW => goes t Out 0 0 s | _ => None end.

Definition RLock (t : nat) (s : QLock) : option QLock :=
  match pcs s !! t with
  | Some Out => if read_free s then goes t HoldR 0 0 s else None
  | Some CowOut => if read_free s then goes t CowR 0 0 s else None
  | _ => None
  end.

Definition RUnlock (t : nat) (s : QLock) : option QLock :=
  match pcs s !! t with
  | Some HoldR => goes t Out 0 0 s
  | Some CowR => goes t CowOut 0 0 s
  | _ => None
  end.

Definition CowEnter (t : nat) (s : QLock) : option QLock :=
  match pcs s !! t with Some Out => goes t CowOut 0 1 s | _ => None end.
Definition CowExit (t : nat) (s : QLock) : option QLock :=
  match pcs s !! t with Some CowOut => goes t Out 0 (-1) s | _ => None end.

Definition WriteWanted (s : QLock) : bool := (0 <? pending s)%Z.

Inductive lstep : QLock → QLock → Prop :=
  | st_Lock t s s' : Lock t s = Some s' → lstep s s'
  | st_Unlock t s s' : Unlock t s = Some s' → lstep s s'
  | st_RLock t s s' : RLock t s = Some s' → lstep s s'
  | st_RUnlock t s s' : RUnlock t s = Some s' → lstep s s'
  | st_CowEnter t s s' : CowEnter t s = Some s' → lstep s s'
  | st_CowExit t s s' : CowExit t s = Some s' → lstep s s'.

Inductive lreach (n : nat) : QLock → Prop :=
  | lr_New : lreach n (New n)
  | lr_step s s' : lreach n s → lstep s s' → lreach n s'.

(** * Invariant *)

Definition counts (c : lpc) : bool := match c with Bumped | Blocked true | Got => true | _ => false end.
Definition cow (c : lpc) : bool := match c with CowOut | CowR => true | _ => false end.

Definition tally (f : lpc → bool) (l : list lpc) : Z := zlen (filter (λ c, f c = true) l).

Lemma tally_insert f l t c c' :
  l !! t = Some c → tally f (<[t:=c']> l) = (tally f l + (if f c' then 1 else 0) - (if f c then 1 else 0))%Z.
Proof.
  intros Ht. rewrite <- (take_drop_middle l t c Ht) at 2. rewrite insert_take_drop by by eapply lookup_lt_Some.
  unfold tally, zlen. rewrite !filter_app, !filter_cons, !length_app.
  repeat case_decide; destruct (f c), (f c'); try done; simpl; lia.
Qed.

Lemma tally_nonneg f l : (0 ≤ tally f l)%Z.
Proof. unfold tally, zlen. lia. Qed.

Lemma tally_pos f l : (0 < tally f l)%Z ↔ ∃ t c, l !! t = Some c ∧ f c = true.
Proof.
  unfold tally, zlen. split.
  - destruct (filter _ l) as [|c r] eqn:Hf; [simpl; lia|]. intros _.
    assert (c ∈ filter (λ c, f c = true) l) as Hc by (rewrite Hf; by left).
    apply list_elem_of_filter in Hc as [Hc Hl]. apply list_elem_of_lookup in Hl as [t Ht]. eauto.
  - intros (t & c & Ht & Hc). assert (c ∈ filter (λ c, f c = true) l) as Hin.
    { apply list_elem_of_filter. split; [done|]. by eapply list_elem_of_lookup_2. }
    destruct (filter _ l); [by apply elem_of_nil in Hin|simpl; lia].
Qed.

(** The counters count, and the mutex excludes. *)
Record linv (s : QLock) : Prop := {
  li_pending : pending s = tally counts (pcs s);
  li_cow : cowActive s = tally cow (pcs s);
  li_writer t t' c c' : pcs s !! t = Some c → pcs s !! t' = Some c' → writes c = true →
    writes c' || reads c' = true → t = t';
}.

Lemma linv_goes s t c c' dp dc s' :
  linv s → pcs s !! t = Some c → goes t c' dp dc s = Some s' →
  dp = ((if counts c' then 1 else 0) - (if counts c then 1 else 0))%Z →
  dc = ((if cow c' then 1 else 0) - (if cow c then 1 else 0))%Z →
  (writes c' = true → writes c = true ∨ write_free s = true) →
  (reads c' = true → reads c = true ∨ read_free s = true) → linv s'.
Proof.
  intros [Hp Hc Hw] Ht [= <-] -> -> Hwf Hrf.
  assert (∀ t' c1, write_free s = true → pcs s !! t' = Some c1 → writes c1 || reads c1 = false) as Hfree.
  { intros t' c1 Hf Hl. unfold write_free in Hf. rewrite forallb_forall in Hf.
    apply negb_true_iff, Hf. apply list_elem_of_In. by eapply list_elem_of_lookup_2. }
  assert (∀ t' c1, read_free s = true → pcs s !! t' = Some c1 → writes c1 = false) as Hrfree.
  { intros t' c1 Hf Hl. unfold read_free in Hf. rewrite forallb_forall in Hf.
    specialize (Hf c1 ltac:(apply list_elem_of_In; by eapply list_elem_of_lookup_2)). by destruct (writes c1). }
  constructor; simpl.
  - rewrite (tally_insert _ _ _ _ _ Ht). lia.
  - rewrite (tally_insert _ _ _ _ _ Ht). lia.
  - intros t1 t2 c1 c2 [(-> & -> & _)|[Hne1 H1]]%list_lookup_insert_Some [(-> & -> & _)|[Hne2 H2]]%list_lookup_insert_Some H1w H2w; try done.
    + destruct (Hwf H1w) as [?|Hf]; [by apply (Hw _ _ c c2)|]. by rewrite (Hfree _ _ Hf H2) in H2w.
    + destruct (writes c2) eqn:Hw2.
      * destruct (Hwf eq_refl) as [?|Hf]; [apply (Hw _ _ c1 c); try done; by rewrite H|].
        specialize (Hfree _ _ Hf H1). by rewrite H1w in Hfree.
      * simpl in H2w. destruct (Hrf H2w) as [?|Hf]; [apply (Hw _ _ c1 c); try done; by rewrite H, orb_true_r|].
        by rewrite (Hrfree _ _ Hf H1) in H1w.
    + by apply (Hw t1 t2 c1 c2).
Qed.

(** Splits an action into its cases and applies [linv_goes]. *)
Ltac goes_from Ht :=
  lazymatch goal with
  | |- match ?l !! ?t with _ => _ end = Some _ → _ =>
      destruct (l !! t) as [[|[]| |[]| | | | |]|] eqn:Ht; try done; try (case_match; try done)
  end.

Lemma lstep_linv s s' : linv s → lstep s s' → linv s'.
Proof.
  intros HI Hs. destruct Hs as [t s s' H|t s s' H|t s s' H|t s s' H|t s s' H|t s s' H]; revert H;
    unfold Lock, Unlock, RLock, RUnlock, CowEnter, CowExit; goes_from Ht; intros Hg;
    eapply (linv_goes s t _ _ _ _ _ HI Ht Hg); simpl; auto.
Qed.

Lemma lreach_linv n s : lreach n s → linv s.
Proof.
  induction 1 as [|s s' _ IH Hs]; [|by eapply lstep_linv].
  assert (∀ f, f Out = false → tally f (replicate n Out) = 0%Z) as Hz.
  { intros f Hf. unfold tally. induction n as [|m IHm]; [done|]. simpl. rewrite filter_cons, decide_False by by rewrite Hf. done. }
  constructor; simpl; [by rewrite Hz|by rewrite Hz|].
  intros t t' c c' [-> _]%lookup_replicate _ Hw. done.
Qed.

(** * What the lock promises *)

Definition at_pc (t : nat) (f : lpc → bool) (s : QLock) : Prop := ∃ c, pcs s !! t = Some c ∧ f c = true.

(** C25: In every interleaving a writer holds the lock alone, neither counter goes below zero,
    and WriteWanted says exactly whether a writer on the counting path has yet to get the lock or to
    take its count back. *)
Theorem qlock_safe n s :
  lreach n s →
  (∀ t t', at_pc t writes s → at_pc t' (λ c, writes c || reads c) s → t = t') ∧
  (0 ≤ pending s)%Z ∧ (0 ≤ cowActive s)%Z ∧
  (WriteWanted s = true ↔ ∃ t, at_pc t counts s).
Proof.
  intros Hr. destruct (lreach_linv n s Hr) as [Hp Hc Hw]. split_and!.
  - intros t t' (c & Ht & Hcw) (c' & Ht' & Hc'). by apply (Hw t t' c c').
  - rewrite Hp. apply tally_nonneg.
  - rewrite Hc. apply tally_nonneg.
  - unfold WriteWanted. rewrite Hp, Z.ltb_lt, tally_pos. unfold at_pc. naive_solver.
Qed.

(** Steps during which goroutine [r] keeps its read lock. *)
Inductive while_reading (r : nat) : QLock → QLock → Prop :=
  | wr_refl s : while_reading r s s
  | wr_step s s' s'' : while_reading r s s' → at_pc r reads s' → lstep s' s'' → at_pc r reads s'' → while_reading r s s''.

Lemma goes_other s t t' c dp dc s' : goes t c dp dc s = Some s' → t ≠ t' → pcs s' !! t' = pcs s !! t'.
Proof. intros [= <-] Hne. simpl. by rewrite list_lookup_insert_ne. Qed.

Lemma blocked_stays s s' r t :
  at_pc r reads s → pcs s !! t = Some (Blocked true) → lstep s s' → pcs s' !! t = Some (Blocked true).
Proof.
  intros (c & Hr & Hc) Ht Hs. assert (write_free s = false) as Hwf.
  { apply not_true_iff_false. intros Hf. unfold write_free in Hf. rewrite forallb_forall in Hf.
    specialize (Hf c ltac:(apply list_elem_of_In; by eapply list_elem_of_lookup_2)). rewrite Hc in Hf. by destruct (writes c). }
  destruct Hs as [u s s' H|u s s' H|u s s' H|u s s' H|u s s' H|u s s' H];
    (destruct (decide (u = t)) as [->|Hne];
     [revert H; unfold Lock, Unlock, RLock, RUnlock, CowEnter, CowExit; rewrite Ht, ?Hwf; done|]); revert H;
    unfold Lock, Unlock, RLock, RUnlock, CowEnter, CowExit; goes_from Hu; intros Hg;
    by rewrite (goes_other _ _ _ _ _ _ _ Hg Hne).
Qed.

(** C37: The signal cannot be missed by an iteration that was inside CowEnter when the writer
    looked: from the moment such a writer is blocked, WriteWanted stays true for as long as the
    iteration keeps its read lock, whatever the other goroutines do. *)
Theorem write_wanted_stays n s s' r t :
  lreach n s → at_pc r reads s → pcs s !! t = Some (Blocked true) → while_reading r s s' →
  pcs s' !! t = Some (Blocked true) ∧ WriteWanted s' = true.
Proof.
  intros Hreach Hr Ht Hw. assert (lreach n s' ∧ at_pc r reads s' ∧ pcs s' !! t = Some (Blocked true)) as (Hn & _ & Hb).
  { induction Hw as [s|s s' s'' Hw IH H1 Hs H2]; [done|]. destruct (IH Hreach Hr Ht) as (Hn & Hr' & Ht').
    split_and!; [by eapply lr_step|done|by eapply blocked_stays]. }
  split; [done|]. apply (qlock_safe n s' Hn). exists t, (Blocked true). done.
Qed.

(** The state after goroutine 1 found no iteration, goroutine 0 began one, and 1 blocked behind it. *)
Definition missed : QLock := MkQLock [CowR; Blocked false] 0 1.

(** A writer that looked just before the iteration entered is not seen: it is blocked
    behind the iteration's read lock and WriteWanted is false, and stays false until the iteration
    gives the lock up of its own accord. *)
Theorem write_wanted_missed :
  lreach 2 missed ∧ at_pc 0 reads missed ∧ at_pc 1 blocked missed ∧
  ∀ s', while_reading 0 missed s' → at_pc 1 blocked s' ∧ WriteWanted s' = false.
Proof.
  split_and!.
  - apply (lr_step _ (MkQLock [CowR; Checked false] 0 1)); [|by apply (st_Lock 1)].
    apply (lr_step _ (MkQLock [CowOut; Checked false] 0 1)); [|by apply (st_RLock 0)].
    apply (lr_step _ (MkQLock [Out; Checked false] 0 0)); [|by apply (st_CowEnter 0)].
    apply (lr_step _ (New 2)); [constructor|by apply (st_Lock 1)].
  - by exists CowR.
  - by exists (Blocked false).
  - intros s' Hw. assert (s' = missed) as ->; [|by split; [exists (Blocked false)|]].
    remember missed as s0 eqn:Hs0. induction Hw as [s|s s' s'' Hw IH _ Hs Hr]; [done|]. specialize (IH Hs0). subst s' s.
    inversion Hs as [u ? ? H|u ? ? H|u ? ? H|u ? ? H|u ? ? H|u ? ? H]; subst; destruct u as [|[|u]];
      cbv in H; first [discriminate H|injection H as <-; by destruct Hr as (c & [= <-] & ?)].
Qed.
