(* ===== verification/Parker.v ===== *)
(** The broadcast wake primitive (internal/parker/parker.go) under every interleaving of the
    goroutines that wait and the goroutines that wake: one atomic action of the source per step. *)

From stdpp Require Import gmap.
From S2P Require Import Prelude.

(** * Data *)

Inductive pstate := parkInit | parkParked | parkWoken.

#[export] Instance pstate_eq_dec : EqDecision pstate.
Proof. solve_decision. Defined.

(** A [Parker] without the fields that never change while it is in use; no goroutine is [None]. *)
Record Parker_ := MkParker { state : pstate; g : option nat }.

Definition fresh : Parker_ := MkParker parkInit None.

(** Where a goroutine that waits is: it has registered; it called gopark; [unlockf] has captured it; it
    is asleep; Park has returned; it took the parker off the list and is about to recycle it. *)
Inductive pc :=
  | Registered (p : nat)
  | Parking (p : nat)
  | Captured (p : nat)
  | Waiting (p : nat)
  | Returned (p : nat)
  | Releasing (p : nat).

Definition pc_parker (c : pc) : nat :=
  match c with Registered p | Parking p | Captured p | Waiting p | Returned p | Releasing p => p end.

(** The [context.AfterFunc] that calls [Wake]: none (or stopped in time), waiting, or started. *)
Inductive watch := NoWatch | Armed | Fired.

#[export] Instance watch_eq_dec : EqDecision watch.
Proof. solve_decision. Defined.

(** A goroutine inside [Broadcast] or [Wake]: the parkers it has yet to look at, and whether it is
    between the swap that found a parker parked and the goready that follows. *)
Inductive waker := Loop (l : list nat) | Goready (p : nat) (l : list nat).

Record St := MkSt {
  cells : gmap nat Parker_;
  pool : list nat;
  parkers : list nat;
  waiting : gmap nat (pc * watch);
  wakers : list waker;
  crashed : bool;
}.

(** [New], in a process whose pool has recycled nothing yet. *)
Definition New : St := MkSt ∅ [] [] ∅ [] false.

(** * Actions *)

Definition set_cells c s := MkSt c (pool s) (parkers s) (waiting s) (wakers s) (crashed s).
Definition set_parkers l s := MkSt (cells s) (pool s) l (waiting s) (wakers s) (crashed s).
Definition set_waiting m s := MkSt (cells s) (pool s) (parkers s) m (wakers s) (crashed s).
Definition set_wakers ws s := MkSt (cells s) (pool s) (parkers s) (waiting s) ws (crashed s).
Definition set_pool l s := MkSt (cells s) l (parkers s) (waiting s) (wakers s) (crashed s).
Definition crash s := MkSt (cells s) (pool s) (parkers s) (waiting s) (wakers s) true.

(** The removal loop of Detach and Release. *)
Fixpoint remove_first (p : nat) (l : list nat) : list nat :=
  match l with
  | [] => []
  | q :: l => if bool_decide (q = p) then l else q :: remove_first p l
  end.

(** [parkerPool.Get]: a parker the pool recycles, or a new one. *)
Definition pool_get (p : nat) (s : St) : option St :=
  if bool_decide (p ∈ pool s) then Some (set_pool (filter (λ q, q ≠ p) (pool s)) s)
  else match cells s !! p with
       | Some _ => None
       | None => Some (set_cells (<[p:=fresh]> (cells s)) s)
       end.

(** [Register] of goroutine [i]. *)
Definition Register (i p : nat) (s : St) : option St :=
  match waiting s !! i with
  | Some _ => None
  | None =>
      s ← pool_get p s;
      Some (set_waiting (<[i:=(Registered p, NoWatch)]> (waiting s)) (set_parkers (parkers s ++ [p]) s))
  end.

(** [context.AfterFunc(ctx, p.WakeFunc())]. *)
Definition AfterFunc (i : nat) (s : St) : option St :=
  match waiting s !! i with
  | Some (Registered p, NoWatch) => Some (set_waiting (<[i:=(Registered p, Armed)]> (waiting s)) s)
  | _ => None
  end.

(** [Park]: gopark takes the goroutine off the processor... *)
Definition Park (i : nat) (s : St) : option St :=
  match waiting s !! i with
  | Some (Registered p, w) => Some (set_waiting (<[i:=(Parking p, w)]> (waiting s)) s)
  | _ => None
  end.

(** ... and runs [parkerUnlockf], first the store to [p.g] ... *)
Definition unlockf_store (i : nat) (s : St) : option St :=
  match waiting s !! i with
  | Some (Parking p, w) =>
      Some (set_waiting (<[i:=(Captured p, w)]> (waiting s))
              (set_cells (alter (λ c, MkParker (state c) (Some i)) p (cells s)) s))
  | _ => None
  end.

(** ... then the compare-and-swap, whose failure resumes the goroutine. *)
Definition unlockf_cas (i : nat) (s : St) : option St :=
  match waiting s !! i with
  | Some (Captured p, w) =>
      c ← cells s !! p;
      if bool_decide (state c = parkInit)
      then Some (set_waiting (<[i:=(Waiting p, w)]> (waiting s))
                   (set_cells (<[p:=MkParker parkParked (g c)]> (cells s)) s))
      else Some (set_waiting (<[i:=(Returned p, w)]> (waiting s)) s)
  | _ => None
  end.

(** The context is cancelled: the callback starts. *)
Definition Fire (i : nat) (s : St) : option St :=
  match waiting s !! i with
  | Some (c, Armed) =>
      Some (set_wakers (wakers s ++ [Loop [pc_parker c]]) (set_waiting (<[i:=(c, Fired)]> (waiting s)) s))
  | _ => None
  end.

(** [Broadcast] takes the whole list. *)
Definition Broadcast (s : St) : option St :=
  Some (set_wakers (wakers s ++ [Loop (parkers s)]) (set_parkers [] s)).

(** The swap to [parkWoken] of [Broadcast] and [Wake]. *)
Definition swap_woken (k : nat) (s : St) : option St :=
  match wakers s !! k with
  | Some (Loop (p :: l)) =>
      c ← cells s !! p;
      Some (set_wakers (<[k:=if bool_decide (state c = parkParked) then Goready p l else Loop l]> (wakers s))
              (set_cells (<[p:=MkParker parkWoken (g c)]> (cells s)) s))
  | _ => None
  end.

(** [goready] of the goroutine the parker names: the runtime throws unless it is asleep. *)
Definition goready (k : nat) (s : St) : option St :=
  match wakers s !! k with
  | Some (Goready p l) =>
      match cells s !! p ≫= g with
      | Some i =>
          match waiting s !! i with
          | Some (Waiting q, w) =>
              Some (set_wakers (<[k:=Loop l]> (wakers s)) (set_waiting (<[i:=(Returned q, w)]> (waiting s)) s))
          | _ => Some (crash s)
          end
      | None => Some (crash s)
      end
  | _ => None
  end.

(** [cancel()] in time: the callback will not run. *)
Definition stop (i : nat) (s : St) : option St :=
  match waiting s !! i with
  | Some (Returned p, Armed) => Some (set_waiting (<[i:=(Returned p, NoWatch)]> (waiting s)) s)
  | _ => None
  end.

Definition Detach (i : nat) (s : St) : option St :=
  match waiting s !! i with
  | Some (Returned p, Fired) =>
      Some (set_waiting (delete i (waiting s)) (set_parkers (remove_first p (parkers s)) s))
  | _ => None
  end.

(** [Release]: off the list, then [Reset] and back to the pool. *)
Definition Release_list (i : nat) (s : St) : option St :=
  match waiting s !! i with
  | Some (Returned p, NoWatch) =>
      Some (set_waiting (<[i:=(Releasing p, NoWatch)]> (waiting s)) (set_parkers (remove_first p (parkers s)) s))
  | _ => None
  end.
Definition Release_put (i : nat) (s : St) : option St :=
  match waiting s !! i with
  | Some (Releasing p, w) =>
      Some (set_waiting (delete i (waiting s))
              (set_pool (p :: pool s) (set_cells (<[p:=fresh]> (cells s)) s)))
  | _ => None
  end.

(** * Interleavings *)

Inductive action :=
  | ARegister (i p : nat)
  | AAfterFunc (i : nat)
  | APark (i : nat)
  | AStore (i : nat)
  | ACas (i : nat)
  | AFire (i : nat)
  | ABroadcast
  | ASwap (k : nat)
  | AReady (k : nat)
  | AStop (i : nat)
  | ADetach (i : nat)
  | AUnlist (i : nat)
  | APut (i : nat).

Definition act (a : action) : St → option St :=
  match a with
  | ARegister i p => Register i p
  | AAfterFunc i => AfterFunc i
  | APark i => Park i
  | AStore i => unlockf_store i
  | ACas i => unlockf_cas i
  | AFire i => Fire i
  | ABroadcast => Broadcast
  | ASwap k => swap_woken k
  | AReady k => goready k
  | AStop i => stop i
  | ADetach i => Detach i
  | AUnlist i => Release_list i
  | APut i => Release_put i
  end.

(** What any interleaving leads to. *)
Inductive reachable : St → Prop :=
  | reach_New : reachable New
  | reach_step s a s' : reachable s → act a s = Some s' → reachable s'.

(** A schedule that is known. *)
Fixpoint schedule (l : list action) (s : St) : option St :=
  match l with
  | [] => Some s
  | a :: l => s ← act a s; schedule l s
  end.

Lemma schedule_reachable l s s' : reachable s → schedule l s = Some s' → reachable s'.
Proof.
  revert s. induction l as [|a l IH]; intros s Hs; simpl; [by intros [= <-]|].
  destruct (act a s) as [s1|] eqn:Ha; [|done]. simpl. apply IH. by eapply reach_step.
Qed.
