(* ===== verification/ParkerFacts.v ===== *)
(** No wakeup is lost and none goes to the wrong goroutine: the invariant of the broadcast primitive,
    kept by every action, and what it means once the goroutines that wake are done. *)

From stdpp Require Import gmap.
From S2P Require Import Prelude Parker.

Implicit Types (s : St) (p q i j k : nat) (w : watch) (c : pc) (x : Parker_).

(** * Counting *)

Definition cnt p (l : list nat) : nat := length (filter (λ q, q = p) l).

Lemma cnt_nil p : cnt p [] = 0.
Proof. done. Qed.
Lemma cnt_cons p q l : cnt p (q :: l) = (if decide (q = p) then 1 else 0) + cnt p l.
Proof. unfold cnt. rewrite filter_cons. by case_decide. Qed.
Lemma cnt_app p l1 l2 : cnt p (l1 ++ l2) = cnt p l1 + cnt p l2.
Proof. unfold cnt. by rewrite filter_app, length_app. Qed.
Lemma cnt_remove p q l : cnt q (remove_first p l) = cnt q l - if decide (p = q) then 1 else 0.
Proof.
  induction l as [|r l IH]; simpl; [by case_decide|]. destruct (bool_decide (r = p)) eqn:Hr.
  - apply bool_decide_eq_true in Hr as ->. rewrite cnt_cons. case_decide; lia.
  - apply bool_decide_eq_false in Hr. rewrite !cnt_cons, IH. repeat case_decide; subst; try done; lia.
Qed.

(** * Pending work *)

Definition work (y : waker) : list nat := match y with Loop l => l | Goready _ l => l end.
Definition owed (y : waker) : list nat := match y with Loop _ => [] | Goready p _ => [p] end.

(** How many swaps of [p] are still to come: from a Broadcast that will find it on the list, and from
    the wakers that hold it; and how many wakers are about to make its goroutine ready. *)
Definition pending s p : nat := cnt p (parkers s) + cnt p (concat (work <$> wakers s)).
Definition readying s p : nat := cnt p (concat (owed <$> wakers s)).

Definition owner s i p : Prop := ∃ c w, waiting s !! i = Some (c, w) ∧ pc_parker c = p.

Lemma cnt_insert (f : waker → list nat) (ws : list waker) k y z p :
  ws !! k = Some y → cnt p (concat (f <$> <[k:=z]> ws)) + cnt p (f y) = cnt p (concat (f <$> ws)) + cnt p (f z).
Proof.
  intros Hk. rewrite <- (take_drop_middle ws k y Hk) at 2.
  rewrite insert_take_drop by by eapply lookup_lt_Some.
  rewrite !fmap_app, !concat_app. simpl. rewrite !cnt_app. lia.
Qed.

Lemma cnt_snoc (f : waker → list nat) (ws : list waker) z p :
  cnt p (concat (f <$> ws ++ [z])) = cnt p (concat (f <$> ws)) + cnt p (f z).
Proof. rewrite fmap_app, concat_app, cnt_app. simpl. by rewrite app_nil_r. Qed.

(** * The invariant *)

(** What goes with the place of a goroutine: the cell of its parker and the work that is pending on it. *)
Definition placed s i c : Prop :=
  ∃ x, cells s !! pc_parker c = Some x ∧
    match c with
    | Registered p | Parking p => state x = parkInit ∧ 0 < pending s p ∨ state x = parkWoken
    | Captured p => g x = Some i ∧ (state x = parkInit ∧ 0 < pending s p ∨ state x = parkWoken)
    | Waiting p => g x = Some i ∧
        (state x = parkParked ∧ 0 < pending s p ∨ state x = parkWoken ∧ 0 < readying s p)
    | Returned _ | Releasing _ => state x = parkWoken
    end.

(** A parker that no callback can touch is swapped at most once more, not at all when it is woken. *)
Definition bounded s p : Prop := ∀ x, cells s !! p = Some x →
  pending s p ≤ if decide (state x = parkWoken) then 0 else 1.

Record Inv s : Prop := {
  in_owner i j p : owner s i p → owner s j p → i = j;
  in_pool p : p ∈ pool s → cells s !! p = Some fresh ∧ pending s p = 0 ∧ ∀ i, ¬ owner s i p;
  in_placed i c w : waiting s !! i = Some (c, w) → placed s i c;
  in_once i c w : waiting s !! i = Some (c, w) → w ≠ Fired → bounded s (pc_parker c);
  in_releasing i p w : waiting s !! i = Some (Releasing p, w) → w = NoWatch;
  in_pending p : 0 < pending s p → ∃ x, cells s !! p = Some x ∧ (state x = parkWoken ∨ ∃ i, owner s i p);
  in_readying p : 0 < readying s p → ∃ i w x, waiting s !! i = Some (Waiting p, w) ∧
    cells s !! p = Some x ∧ state x = parkWoken ∧ g x = Some i;
  in_readying_once p : readying s p ≤ 1;
  in_crashed : crashed s = false;
}.

Lemma Inv_New : Inv New.
Proof.
  assert (∀ i y, waiting New !! i = Some y → False) as Hno.
  { intros i y Hy. change (waiting New) with (∅ : gmap nat (pc * watch)) in Hy. by rewrite lookup_empty in Hy. }
  constructor; try (intros; exfalso; by eapply Hno).
  - intros i j p (c & w & Hc & _). by destruct (Hno _ _ Hc).
  - intros p Hp. by apply elem_of_nil in Hp.
  - intros p Hp. unfold pending, cnt in Hp. simpl in Hp. lia.
  - intros p Hp. unfold readying, cnt in Hp. simpl in Hp. lia.
  - intros p. unfold readying, cnt. simpl. lia.
  - done.
Qed.

Lemma owner_intro s i c w : waiting s !! i = Some (c, w) → owner s i (pc_parker c).
Proof. intros Hc. by exists c, w. Qed.

(** One goroutine, its parker and the work pending on that parker change; nothing else does. *)
Lemma Inv_update s s' i c w c' w' x x' :
  Inv s → waiting s !! i = Some (c, w) → pc_parker c' = pc_parker c → cells s !! pc_parker c = Some x →
  cells s' = <[pc_parker c:=x']> (cells s) → waiting s' = <[i:=(c', w')]> (waiting s) →
  pool s' = pool s → crashed s' = false →
  (∀ q, q ≠ pc_parker c → pending s' q = pending s q ∧ readying s' q = readying s q) →
  placed s' i c' → (w' ≠ Fired → bounded s' (pc_parker c)) →
  (∀ p, c' = Releasing p → w' = NoWatch) →
  (0 < readying s' (pc_parker c) → c' = Waiting (pc_parker c) ∧ state x' = parkWoken ∧ g x' = Some i) →
  readying s' (pc_parker c) ≤ 1 →
  Inv s'.
Proof.
  intros HI Hi Hcc Hx Hcells Hwait Hpool Hcr Hother Hplaced Hbound Hrel Hready Hready1.
  set (p := pc_parker c) in *. pose proof (owner_intro _ _ _ _ Hi) as Hown. fold p in Hown.
  assert (∀ j q, owner s' j q ↔ owner s j q) as Ho.
  { intros j q. unfold owner. rewrite Hwait. destruct (decide (j = i)) as [->|Hj].
    - rewrite lookup_insert_eq, Hi. split; intros (c1 & w1 & [= <- <-] & <-); eauto.
    - by rewrite lookup_insert_ne. }
  assert (∀ j c1 w1, j ≠ i → waiting s !! j = Some (c1, w1) → pc_parker c1 ≠ p) as Hne.
  { intros j c1 w1 Hj Hc1 He. apply Hj, (in_owner _ HI j i p); [|done]. rewrite <- He. by eapply owner_intro. }
  constructor.
  - intros j1 j2 q. rewrite !Ho. apply HI.
  - intros q. rewrite Hpool. intros Hq. destruct (in_pool _ HI q Hq) as (Hcq & Hpq & Hoq).
    assert (q ≠ p) as Hqp by (intros ->; by eapply Hoq). destruct (Hother q Hqp) as [-> _].
    rewrite Hcells, lookup_insert_ne by done. split_and!; [done..|]. intros j. rewrite Ho. apply Hoq.
  - intros j c1 w1. rewrite Hwait. destruct (decide (j = i)) as [->|Hj].
    { rewrite lookup_insert_eq. by intros [= <- <-]. }
    rewrite lookup_insert_ne by done. intros Hc1. pose proof (Hne j c1 w1 Hj Hc1) as Hq.
    destruct (in_placed _ HI j c1 w1 Hc1) as (y & Hy & Hcase). exists y.
    rewrite Hcells, lookup_insert_ne by done. split; [done|].
    destruct (Hother (pc_parker c1) Hq) as [Hp1 Hp2]. by destruct c1; simpl in *; rewrite ?Hp1, ?Hp2.
  - intros j c1 w1. rewrite Hwait. destruct (decide (j = i)) as [->|Hj].
    { rewrite lookup_insert_eq. intros [= <- <-] Hw. rewrite Hcc. by apply Hbound. }
    rewrite lookup_insert_ne by done. intros Hc1 Hw y. pose proof (Hne j c1 w1 Hj Hc1) as Hq.
    rewrite Hcells, lookup_insert_ne by done. destruct (Hother (pc_parker c1) Hq) as [-> _].
    by apply (in_once _ HI j c1 w1).
  - intros j q w1. rewrite Hwait. destruct (decide (j = i)) as [->|Hj].
    { rewrite lookup_insert_eq. intros [= -> ->]. by eapply Hrel. }
    rewrite lookup_insert_ne by done. apply HI.
  - intros q Hq. destruct (decide (q = p)) as [->|Hqp].
    { exists x'. rewrite Hcells, lookup_insert_eq. split; [done|]. right. exists i. by apply Ho. }
    destruct (Hother q Hqp) as [Hp1 _]. rewrite Hp1 in Hq. destruct (in_pending _ HI q Hq) as (y & Hy & Hcase).
    exists y. rewrite Hcells, lookup_insert_ne by done. split; [done|].
    destruct Hcase as [?|[j Hj]]; [by left|right; exists j; by apply Ho].
  - intros q Hq. destruct (decide (q = p)) as [->|Hqp].
    { destruct (Hready Hq) as (-> & Hs & Hg). exists i, w', x'.
      rewrite Hwait, Hcells, !lookup_insert_eq. done. }
    destruct (Hother q Hqp) as [_ Hp2]. rewrite Hp2 in Hq. destruct (in_readying _ HI q Hq) as (j & w1 & y & Hj & Hy & Hs & Hg).
    assert (j ≠ i) as Hji. { intros ->. rewrite Hi in Hj. injection Hj as Hc _. apply Hqp. unfold p. by rewrite Hc. }
    exists j, w1, y. rewrite Hwait, Hcells, !lookup_insert_ne by done. done.
  - intros q. destruct (decide (q = p)) as [->|Hqp]; [done|]. destruct (Hother q Hqp) as [_ ->]. apply HI.
  - done.
Qed.

(** Less work pending, on parkers that are woken. *)
Lemma Inv_less s s' :
  Inv s → cells s' = cells s → waiting s' = waiting s → pool s' = pool s → crashed s' = crashed s →
  (∀ p, readying s' p = readying s p) → (∀ p, pending s' p ≤ pending s p) →
  (∀ p x, cells s !! p = Some x → pending s' p = pending s p ∨ state x = parkWoken) → Inv s'.
Proof.
  intros HI Hcells Hwait Hpool Hcr Hready Hless Hown.
  assert (∀ j q, owner s' j q ↔ owner s j q) as Ho by (intros; unfold owner; by rewrite Hwait).
  constructor.
  - intros i j p. rewrite !Ho. apply HI.
  - intros p. rewrite Hpool, Hcells. intros Hp. destruct (in_pool _ HI p Hp) as (? & ? & Hno).
    split_and!; [done| |intros i; rewrite Ho; apply Hno]. specialize (Hless p). lia.
  - intros i c w. rewrite Hwait. intros Hi. destruct (in_placed _ HI i c w Hi) as (x & Hx & Hcase).
    exists x. rewrite Hcells. split; [done|]. destruct (Hown _ x Hx) as [Hp|Hw].
    + destruct c; simpl in *; by rewrite ?Hp, ?Hready.
    + destruct c; simpl in *; rewrite ?Hready; intuition congruence.
  - intros i c w. rewrite Hwait. intros Hi Hw x. rewrite Hcells. intros Hx.
    pose proof (in_once _ HI i c w Hi Hw x Hx). specialize (Hless (pc_parker c)). lia.
  - intros i p w. rewrite Hwait. apply HI.
  - intros p Hp. rewrite Hcells. specialize (Hless p). destruct (in_pending _ HI p) as (x & Hx & Hcase); [lia|].
    exists x. split; [done|]. destruct Hcase as [?|[i Hi]]; [by left|right; exists i; by apply Ho].
  - intros p. rewrite Hready, Hwait, Hcells. apply HI.
  - intros p. rewrite Hready. apply HI.
  - rewrite Hcr. apply HI.
Qed.

Lemma pending_wakers s k y z p :
  wakers s !! k = Some y →
  pending (set_wakers (<[k:=z]> (wakers s)) s) p + cnt p (work y) = pending s p + cnt p (work z).
Proof. intros Hk. unfold pending. simpl. pose proof (cnt_insert work _ _ _ z p Hk). lia. Qed.

Lemma readying_wakers s k y z p :
  wakers s !! k = Some y →
  readying (set_wakers (<[k:=z]> (wakers s)) s) p + cnt p (owed y) = readying s p + cnt p (owed z).
Proof. intros Hk. unfold readying. simpl. apply (cnt_insert owed _ _ _ z p Hk). Qed.

(** Whose goroutine is about to be made ready is asleep. *)
Lemma ready_asleep s i c w :
  Inv s → waiting s !! i = Some (c, w) → 0 < readying s (pc_parker c) →
  c = Waiting (pc_parker c) ∧ ∃ x, cells s !! pc_parker c = Some x ∧ state x = parkWoken ∧ g x = Some i.
Proof.
  intros HI Hi Hr. destruct (in_readying _ HI _ Hr) as (j & w1 & x & Hj & Hx & Hs & Hg).
  assert (j = i) as ->.
  { apply (in_owner _ HI j i (pc_parker c)); [exact (owner_intro _ _ _ _ Hj)|by eapply owner_intro]. }
  rewrite Hi in Hj. injection Hj as Hc _. split; [exact Hc|]. by exists x.
Qed.

(** A goroutine moves on and no work is done for others. *)
Lemma Inv_moves s i c w c' w' x x' :
  Inv s → waiting s !! i = Some (c, w) → pc_parker c' = pc_parker c → cells s !! pc_parker c = Some x →
  (∀ s', cells s' !! pc_parker c = Some x' → pending s' (pc_parker c) = pending s (pc_parker c) →
     readying s' (pc_parker c) = readying s (pc_parker c) → placed s' i c') →
  (w' ≠ Fired → w ≠ Fired ∧ (state x = parkWoken ↔ state x' = parkWoken)) →
  (∀ p, c' = Releasing p → w' = NoWatch) →
  (c = Waiting (pc_parker c) → c' = c ∧ x' = x) →
  Inv (set_waiting (<[i:=(c', w')]> (waiting s)) (set_cells (<[pc_parker c:=x']> (cells s)) s)).
Proof.
  intros HI Hi Hcc Hx Hplaced Hw Hrel Hwait.
  apply (Inv_update s _ i c w c' w' x x'); try done; simpl.
  - apply HI.
  - apply Hplaced; [|done..]. simpl. by rewrite lookup_insert_eq.
  - intros Hf y. destruct (Hw Hf) as [Hf' Hiff]. simpl. rewrite lookup_insert_eq. intros [= <-].
    pose proof (in_once _ HI _ _ _ Hi Hf' x Hx) as Hb. unfold pending in *. simpl.
    repeat case_decide; naive_solver.
  - intros Hr. destruct (ready_asleep s i c w HI Hi Hr) as (Hc & y & Hy & Hs & Hg).
    destruct (Hwait Hc) as [-> ->]. by simplify_eq.
  - apply HI.
Qed.

Lemma set_cells_id s p x : cells s !! p = Some x → set_cells (<[p:=x]> (cells s)) s = s.
Proof. intros Hx. rewrite insert_id by done. by destruct s. Qed.

(** The same, when its parker stays as it is. *)
Lemma Inv_goes s i c w c' w' x :
  Inv s → waiting s !! i = Some (c, w) → pc_parker c' = pc_parker c → cells s !! pc_parker c = Some x →
  placed s i c' → (w' ≠ Fired → w ≠ Fired) → (∀ p, c' = Releasing p → w' = NoWatch) →
  (c = Waiting (pc_parker c) → c' = c) →
  Inv (set_waiting (<[i:=(c', w')]> (waiting s)) s).
Proof.
  intros HI Hi Hcc Hx Hpl Hw Hrel Hwait. rewrite <- (set_cells_id s (pc_parker c) x Hx) at 2.
  apply (Inv_moves s i c w c' w' x x); try done.
  - intros s' Hx' Hp Hr. destruct Hpl as (y & Hy & Hcase). rewrite Hcc in Hy. exists y.
    rewrite Hcc, Hx'. rewrite Hx in Hy. split; [done|].
    injection Hy as <-. destruct c'; simpl in *; subst; by rewrite ?Hp, ?Hr.
  - naive_solver.
  - intros Hc. by rewrite (Hwait Hc).
Qed.

(** The actions of a goroutine that waits. *)
Lemma Inv_AfterFunc i s s' : Inv s → AfterFunc i s = Some s' → Inv s'.
Proof.
  unfold AfterFunc. intros HI. destruct (waiting s !! i) as [[[p| | | | |] []]|] eqn:Hi; try done. intros [= <-].
  pose proof (in_placed _ HI _ _ _ Hi) as Hpl. destruct (Hpl) as (x & Hx & _).
  by apply (Inv_goes s i (Registered p) NoWatch _ _ x).
Qed.

Lemma Inv_Park i s s' : Inv s → Park i s = Some s' → Inv s'.
Proof.
  unfold Park. intros HI. destruct (waiting s !! i) as [[[p| | | | |] w]|] eqn:Hi; try done. intros [= <-].
  pose proof (in_placed _ HI _ _ _ Hi) as Hpl. destruct (Hpl) as (x & Hx & _).
  by apply (Inv_goes s i (Registered p) w _ _ x).
Qed.

Lemma Inv_store i s s' : Inv s → unlockf_store i s = Some s' → Inv s'.
Proof.
  unfold unlockf_store. intros HI. destruct (waiting s !! i) as [[[|p| | | |] w]|] eqn:Hi; try done. intros [= <-].
  destruct (in_placed _ HI _ _ _ Hi) as (x & Hx & Hcase). simpl in Hx.
  assert (alter (λ x, MkParker (state x) (Some i)) p (cells s) = <[p:=MkParker (state x) (Some i)]> (cells s)) as ->.
  { apply map_eq. intros q. destruct (decide (q = p)) as [->|Hq].
    - by rewrite lookup_alter_eq, lookup_insert_eq, Hx.
    - by rewrite lookup_alter_ne, lookup_insert_ne. }
  apply (Inv_moves s i (Parking p) w (Captured p) w x); try done.
  intros s' Hx' Hp Hr. eexists. split; [exact Hx'|]. simpl in *. by rewrite Hp.
Qed.

Lemma Inv_cas i s s' : Inv s → unlockf_cas i s = Some s' → Inv s'.
Proof.
  unfold unlockf_cas. intros HI. destruct (waiting s !! i) as [[[| |p| | |] w]|] eqn:Hi; try done.
  destruct (in_placed _ HI _ _ _ Hi) as (x & Hx & Hg & Hcase). simpl in *. rewrite Hx. simpl.
  destruct (bool_decide (state x = parkInit)) eqn:Hs; intros [= <-].
  - apply bool_decide_eq_true in Hs. apply (Inv_moves s i (Captured p) w (Waiting p) w x); try done.
    + intros s' Hx' Hp Hr. eexists. split; [exact Hx'|]. simpl in *. split; [done|].
      left. rewrite Hp. split; [done|]. destruct Hcase as [[_ ?]|?]; [done|congruence].
    + intros Hf. rewrite Hs. by split.
  - apply bool_decide_eq_false in Hs. apply (Inv_goes s i (Captured p) w _ _ x); try done.
    exists x. split; [done|]. destruct Hcase as [[? _]|?]; done.
Qed.

Lemma Inv_stop i s s' : Inv s → stop i s = Some s' → Inv s'.
Proof.
  unfold stop. intros HI. destruct (waiting s !! i) as [[[| | | |p|] []]|] eqn:Hi; try done. intros [= <-].
  pose proof (in_placed _ HI _ _ _ Hi) as Hpl. destruct (Hpl) as (x & Hx & _).
  by apply (Inv_goes s i (Returned p) Armed _ _ x).
Qed.

Lemma Inv_Release_list i s s' : Inv s → Release_list i s = Some s' → Inv s'.
Proof.
  unfold Release_list. intros HI. destruct (waiting s !! i) as [[[| | | |p|] []]|] eqn:Hi; try done. intros [= <-].
  destruct (in_placed _ HI _ _ _ Hi) as (x & Hx & Hs). simpl in Hx.
  pose proof (in_once _ HI _ _ _ Hi ltac:(done) x Hx) as Hb. simpl in Hb. rewrite decide_True in Hb by done.
  apply (Inv_update s _ i (Returned p) NoWatch (Releasing p) NoWatch x x); try done; simpl.
  - symmetry. by apply insert_id.
  - apply HI.
  - intros q Hq. unfold pending, readying. simpl. rewrite cnt_remove, decide_False by done. lia.
  - by exists x.
  - intros _ y. simpl. rewrite Hx. intros [= <-]. rewrite decide_True by done.
    unfold pending in *. simpl. rewrite cnt_remove. case_decide; lia.
  - intros Hr. by destruct (ready_asleep s i _ _ HI Hi Hr) as [? _].
  - apply HI.
Qed.

(** The goroutine is done with its parker. *)
Lemma Inv_leave s s' i c w x' :
  Inv s → waiting s !! i = Some (c, w) → waiting s' = delete i (waiting s) →
  cells s' = <[pc_parker c:=x']> (cells s) → state x' = parkWoken ∨ x' = fresh ∧ pending s' (pc_parker c) = 0 →
  c ≠ Waiting (pc_parker c) → crashed s' = crashed s →
  (∀ p, p ∈ pool s' → p ∈ pool s ∨ p = pc_parker c ∧ x' = fresh) →
  (∀ p, readying s' p = readying s p) → (∀ p, p ≠ pc_parker c → pending s' p = pending s p) → Inv s'.
Proof.
  intros HI Hi Hwait Hcells Hx' Hc Hcr Hpool Hready Hother. set (p := pc_parker c) in *.
  assert (∀ j c1 w1, waiting s' !! j = Some (c1, w1) → waiting s !! j = Some (c1, w1) ∧ pc_parker c1 ≠ p) as Hsub.
  { intros j c1 w1. rewrite Hwait. intros [Hj Hc1]%lookup_delete_Some. split; [done|].
    intros He. apply Hj, (in_owner _ HI i j p); [by eapply owner_intro|]. rewrite <- He. by eapply owner_intro. }
  assert (∀ j q, owner s' j q → owner s j q ∧ q ≠ p) as Ho.
  { intros j q (c1 & w1 & Hj & <-). destruct (Hsub j c1 w1 Hj) as [Hj' Hne]. split; [by eapply owner_intro|done]. }
  assert (∀ j q, owner s j q → q ≠ p → owner s' j q) as Ho'.
  { intros j q (c1 & w1 & Hj & <-) Hq. exists c1, w1. split; [|done]. rewrite Hwait, lookup_delete_ne; [done|].
    intros ->. rewrite Hi in Hj. by injection Hj as <- <-. }
  assert (readying s p = 0) as Hr0.
  { destruct (decide (0 < readying s p)) as [Hr|]; [|lia]. by destruct (ready_asleep s i c w HI Hi Hr). }
  constructor.
  - intros j1 j2 q [H1 _]%Ho [H2 _]%Ho. by eapply HI.
  - intros q Hq. destruct (Hpool q Hq) as [Hq'|[-> ->]].
    + destruct (in_pool _ HI q Hq') as (Hcq & Hpq & Hno).
      assert (q ≠ p) as Hqp. { intros ->. apply (Hno i). by eapply owner_intro. }
      rewrite Hcells, lookup_insert_ne, Hother by done. split_and!; [done..|]. intros j Hj. by eapply Hno, Ho.
    + rewrite Hcells, lookup_insert_eq. split; [done|]. split; [|intros j Hj; by apply Ho in Hj as [_ ?]].
      by destruct Hx' as [?|[_ ?]].
  - intros j c1 w1 Hj. destruct (Hsub j c1 w1 Hj) as [Hj' Hne].
    destruct (in_placed _ HI j c1 w1 Hj') as (y & Hy & Hcase). exists y.
    rewrite Hcells, lookup_insert_ne by done. split; [done|]. pose proof (Hother _ Hne) as Hp.
    destruct c1; simpl in *; by rewrite ?Hp, ?Hready.
  - intros j c1 w1 Hj Hw y. destruct (Hsub j c1 w1 Hj) as [Hj' Hne].
    rewrite Hcells, lookup_insert_ne, Hother by done. by eapply (in_once _ HI).
  - intros j q w1 Hj. destruct (Hsub j _ w1 Hj) as [Hj' _]. by eapply HI.
  - intros q Hq. destruct (decide (q = p)) as [->|Hqp].
    { exists x'. rewrite Hcells, lookup_insert_eq. split; [done|]. left. destruct Hx' as [?|[_ Hz]]; [done|lia]. }
    rewrite Hother in Hq by done. destruct (in_pending _ HI q Hq) as (y & Hy & Hcase). exists y.
    rewrite Hcells, lookup_insert_ne by done. split; [done|]. destruct Hcase as [?|[j Hj]]; [by left|right; exists j; auto].
  - intros q. rewrite Hready. intros Hq. assert (q ≠ p) as Hqp by (intros ->; lia).
    destruct (in_readying _ HI q Hq) as (j & w1 & y & Hj & Hrest). exists j, w1, y.
    rewrite Hcells, lookup_insert_ne, Hwait, lookup_delete_ne by (done || intros ->; rewrite Hi in Hj; injection Hj as -> _; done).
    done.
  - intros q. rewrite Hready. apply HI.
  - rewrite Hcr. apply HI.
Qed.

Lemma Inv_Detach i s s' : Inv s → Detach i s = Some s' → Inv s'.
Proof.
  unfold Detach. intros HI. destruct (waiting s !! i) as [[[| | | |p|] []]|] eqn:Hi; try done. intros [= <-].
  destruct (in_placed _ HI _ _ _ Hi) as (x & Hx & Hs). simpl in Hx.
  apply (Inv_leave s _ i (Returned p) Fired x); try done; simpl; [by rewrite insert_id|by left|by left|].
  intros q Hq. unfold pending. simpl. rewrite cnt_remove, decide_False by done. lia.
Qed.

Lemma Inv_Release_put i s s' : Inv s → Release_put i s = Some s' → Inv s'.
Proof.
  unfold Release_put. intros HI. destruct (waiting s !! i) as [[[| | | | |p] w]|] eqn:Hi; try done. intros [= <-].
  pose proof (in_releasing _ HI _ _ _ Hi) as ->. destruct (in_placed _ HI _ _ _ Hi) as (x & Hx & Hs). simpl in Hx.
  pose proof (in_once _ HI _ _ _ Hi ltac:(done) x Hx) as Hb. simpl in Hb. rewrite decide_True in Hb by done.
  apply (Inv_leave s _ i (Releasing p) NoWatch fresh); try done; simpl.
  - right. split; [done|]. unfold pending in *. simpl. lia.
  - intros q [->|?]%elem_of_cons; [by right|by left].
Qed.

(** The actions of a goroutine that wakes. *)
Lemma Inv_Broadcast s s' : Inv s → Broadcast s = Some s' → Inv s'.
Proof.
  unfold Broadcast. intros HI [= <-].
  assert (∀ p, pending (set_wakers (wakers s ++ [Loop (parkers s)]) (set_parkers [] s)) p = pending s p) as Hp.
  { intros p. unfold pending. simpl. rewrite cnt_snoc. simpl. rewrite ?cnt_nil. lia. }
  apply (Inv_less s); try done.
  - intros p. unfold readying. simpl. rewrite cnt_snoc. simpl. rewrite ?cnt_nil. lia.
  - intros p. by rewrite Hp.
  - intros p x _. left. apply Hp.
Qed.

Lemma Inv_Fire i s s' : Inv s → Fire i s = Some s' → Inv s'.
Proof.
  unfold Fire. intros HI. destruct (waiting s !! i) as [[c []]|] eqn:Hi; try done. intros [= <-].
  destruct (in_placed _ HI _ _ _ Hi) as (x & Hx & Hcase).
  assert (∀ q, readying (set_wakers (wakers s ++ [Loop [pc_parker c]]) (set_waiting (<[i:=(c, Fired)]> (waiting s)) s)) q
    = readying s q) as Hr.
  { intros q. unfold readying. simpl. rewrite cnt_snoc. simpl. rewrite ?cnt_nil. lia. }
  assert (∀ q, pending (set_wakers (wakers s ++ [Loop [pc_parker c]]) (set_waiting (<[i:=(c, Fired)]> (waiting s)) s)) q
    = pending s q + if decide (pc_parker c = q) then 1 else 0) as Hp.
  { intros q. unfold pending. simpl. rewrite cnt_snoc. simpl. rewrite cnt_cons, ?cnt_nil. lia. }
  apply (Inv_update s _ i c Armed c Fired x x); try done; simpl.
  - symmetry. by apply insert_id.
  - apply HI.
  - intros q Hq. rewrite Hp, Hr, decide_False by done. lia.
  - exists x. split; [done|]. destruct c; simpl in *; rewrite ?Hp, ?Hr; intuition lia.
  - intros p ->. by pose proof (in_releasing _ HI _ _ _ Hi).
  - rewrite Hr. intros Hrd. destruct (ready_asleep s i c _ HI Hi Hrd) as (Hc & y & Hy & ? & ?).
    by simplify_eq.
  - rewrite Hr. apply HI.
Qed.

Lemma Inv_swap k s s' : Inv s → swap_woken k s = Some s' → Inv s'.
Proof.
  unfold swap_woken. intros HI. destruct (wakers s !! k) as [[[|p l]|]|] eqn:Hk; try done.
  destruct (cells s !! p) as [x|] eqn:Hx; [|done]. simpl. intros [= <-].
  set (y := if bool_decide (state x = parkParked) then Goready p l else Loop l).
  set (s1 := set_wakers _ _).
  assert (work y = l) as Hwork by (unfold y; by case_bool_decide).
  assert (∀ q, pending s1 q + (if decide (p = q) then 1 else 0) = pending s q) as Hp.
  { intros q. pose proof (pending_wakers s k _ y q Hk) as H. simpl in H. rewrite cnt_cons, Hwork in H.
    unfold pending in *. simpl in *. lia. }
  assert (∀ q, readying s1 q = readying s q + if decide (state x = parkParked ∧ p = q) then 1 else 0) as Hr.
  { intros q. pose proof (readying_wakers s k _ y q Hk) as H. unfold readying in *. simpl in *. rewrite cnt_nil in H.
    assert (cnt q (owed y) = if decide (state x = parkParked ∧ p = q) then 1 else 0) as <-; [|lia].
    unfold y. case_bool_decide; simpl; [|by rewrite decide_False by tauto].
    rewrite cnt_cons, cnt_nil. destruct (decide (p = q)); [by rewrite decide_True|by rewrite decide_False by tauto]. }
  assert (0 < pending s p) as Hpos by (specialize (Hp p); rewrite decide_True in Hp; [lia|done]).
  destruct (in_pending _ HI p Hpos) as (x' & Hx' & Hcase). rewrite Hx in Hx'. injection Hx' as <-.
  destruct (decide (state x = parkWoken)) as [Hw|Hw].
  { (* nobody is there any more *)
    apply (Inv_less s); try done.
    - simpl. rewrite <- Hw. apply insert_id. rewrite Hx. by destruct x.
    - intros q. rewrite Hr, decide_False; [lia|]. rewrite Hw. by intros [? _].
    - intros q. specialize (Hp q). lia.
    - intros q z Hz. specialize (Hp q). destruct (decide (p = q)) as [<-|]; [right; by simplify_eq|left; lia]. }
  destruct Hcase as [?|[i (c & w & Hi & <-)]]; [done|].
  assert (cells s1 !! pc_parker c = Some (MkParker parkWoken (g x))) as Hnew by apply lookup_insert_eq.
  assert (readying s (pc_parker c) = 0) as Hr0.
  { destruct (decide (0 < readying s (pc_parker c))) as [Hpos'|]; [|lia].
    destruct (ready_asleep s i c w HI Hi Hpos') as (_ & z & Hz & Hzw & _). by simplify_eq. }
  apply (Inv_update s s1 i c w c w x (MkParker parkWoken (g x))); try done; simpl.
  - symmetry. by apply insert_id.
  - apply HI.
  - intros q Hq. specialize (Hp q). specialize (Hr q). rewrite decide_False in Hp by done.
    rewrite decide_False in Hr by (by intros [_ ?]). lia.
  - destruct (in_placed _ HI _ _ _ Hi) as (z & Hz & Hcase). rewrite Hx in Hz. injection Hz as <-.
    exists (MkParker parkWoken (g x)). split; [done|].
    destruct c as [q|q|q|q|q|q]; simpl in *; try tauto. destruct Hcase as [Hg [[Hs _]|[? _]]]; [|done].
    split; [done|]. right. split; [done|]. rewrite Hr, decide_True by done. lia.
  - intros Hf z. rewrite Hnew. intros [= <-]. rewrite decide_True by done.
    pose proof (in_once _ HI _ _ _ Hi Hf x Hx) as Hb. rewrite decide_False in Hb by done.
    specialize (Hp (pc_parker c)). rewrite decide_True in Hp by done. lia.
  - intros p ->. by pose proof (in_releasing _ HI _ _ _ Hi).
  - intros Hrd. destruct (in_placed _ HI _ _ _ Hi) as (z & Hz & Hcase). rewrite Hx in Hz. injection Hz as <-.
    rewrite Hr, Hr0 in Hrd. case_decide as Hd; [|lia]. destruct Hd as [Hpk _].
    destruct c as [q|q|q|q|q|q]; simpl in *; intuition congruence.
  - rewrite Hr, Hr0. destruct (decide _); simpl; lia.
Qed.

Lemma Inv_goready k s s' : Inv s → goready k s = Some s' → Inv s'.
Proof.
  unfold goready. intros HI. destruct (wakers s !! k) as [[l|p l]|] eqn:Hk; try done.
  assert (0 < readying s p) as Hpos.
  { pose proof (readying_wakers s k _ (Loop l) p Hk) as H. simpl in H. rewrite cnt_cons, cnt_nil, decide_True in H by done. lia. }
  destruct (in_readying _ HI p Hpos) as (i & w & x & Hi & Hx & Hs & Hg). rewrite Hx. simpl. rewrite Hg, Hi.
  intros [= <-]. set (s1 := set_wakers _ _).
  assert (∀ q, pending s1 q = pending s q) as Hp.
  { intros q. pose proof (pending_wakers s k _ (Loop l) q Hk) as H. unfold pending in *. simpl in *. lia. }
  assert (∀ q, readying s1 q + (if decide (p = q) then 1 else 0) = readying s q) as Hr.
  { intros q. pose proof (readying_wakers s k _ (Loop l) q Hk) as H. unfold readying in *. simpl in *.
    rewrite cnt_cons, cnt_nil in H. lia. }
  apply (Inv_update s s1 i (Waiting p) w (Returned p) w x x); try done; simpl.
  - symmetry. by apply insert_id.
  - apply HI.
  - intros q Hq. specialize (Hr q). rewrite decide_False in Hr by done. rewrite Hp. lia.
  - by exists x.
  - intros Hf y Hy. rewrite Hp. by apply (in_once _ HI _ _ _ Hi).
  - specialize (Hr p). rewrite decide_True in Hr by done. pose proof (in_readying_once _ HI p). lia.
  - specialize (Hr p). rewrite decide_True in Hr by done. pose proof (in_readying_once _ HI p). lia.
Qed.

(** A goroutine takes a parker that nobody can touch any more. *)
Lemma Inv_enter s s' i p :
  Inv s → waiting s !! i = None → pending s p = 0 → (∀ j, ¬ owner s j p) →
  cells s' = <[p:=fresh]> (cells s) → waiting s' = <[i:=(Registered p, NoWatch)]> (waiting s) →
  parkers s' = parkers s ++ [p] → wakers s' = wakers s → crashed s' = crashed s →
  (∀ q, q ∈ pool s' → q ∈ pool s ∧ q ≠ p) → Inv s'.
Proof.
  intros HI Hi Hp0 Hno Hcells Hwait Hpark Hwak Hcr Hpool.
  assert (∀ q, readying s' q = readying s q) as Hr by (intros; unfold readying; by rewrite Hwak).
  assert (∀ q, pending s' q = pending s q + if decide (p = q) then 1 else 0) as Hp.
  { intros q. unfold pending. rewrite Hwak, Hpark, cnt_app, cnt_cons, cnt_nil. lia. }
  assert (∀ j q, owner s' j q → owner s j q ∧ q ≠ p ∨ j = i ∧ q = p) as Ho.
  { intros j q (c & w & Hj & <-). rewrite Hwait in Hj. apply lookup_insert_Some in Hj as [[<- [= <- <-]]|[Hne Hj]]; [by right|].
    left. split; [by eapply owner_intro|]. intros He. apply (Hno j). rewrite <- He. by eapply owner_intro. }
  assert (∀ j q, owner s j q → owner s' j q) as Ho'.
  { intros j q (c & w & Hj & <-). exists c, w. split; [|done]. rewrite Hwait, lookup_insert_ne; [done|]. by intros ->; rewrite Hi in Hj. }
  assert (∀ j c w, waiting s' !! j = Some (c, w) →
    j = i ∧ c = Registered p ∧ w = NoWatch ∨ waiting s !! j = Some (c, w) ∧ pc_parker c ≠ p) as Hcase.
  { intros j c w Hj. pose proof (owner_intro _ _ _ _ Hj) as Hown. rewrite Hwait in Hj.
    apply lookup_insert_Some in Hj as [[<- [= <- <-]]|[Hne Hj]]; [by left|]. right. split; [done|].
    intros He. apply (Hno j). rewrite <- He. by eapply owner_intro. }
  constructor.
  - intros j1 j2 q [[H1 Hq]|[-> ->]]%Ho [[H2 Hq']|[-> Hq']]%Ho; try done. by eapply HI.
  - intros q [Hq Hqp]%Hpool. destruct (in_pool _ HI q Hq) as (? & ? & Hnq).
    rewrite Hcells, lookup_insert_ne, Hp, decide_False by done. split_and!; [done|lia|].
    intros j [[Hj _]|[_ ?]]%Ho; [by eapply Hnq|done].
  - intros j c w [(-> & -> & _)|[Hj Hne]]%Hcase.
    { exists fresh. simpl. rewrite Hcells, lookup_insert_eq, Hp, decide_True by done. split; [done|]. left. split; [done|lia]. }
    destruct (in_placed _ HI j c w Hj) as (x & Hx & Hc). exists x. rewrite Hcells, lookup_insert_ne by done. split; [done|].
    assert (pending s' (pc_parker c) = pending s (pc_parker c)) as Hpc by (rewrite Hp, decide_False by done; lia).
    destruct c; simpl in *; by rewrite ?Hpc, ?Hr.
  - intros j c w [(-> & -> & ->)|[Hj Hne]]%Hcase Hf x; simpl.
    { rewrite Hcells, lookup_insert_eq. intros [= <-]. rewrite Hp, decide_True by done. simpl. lia. }
    rewrite Hcells, lookup_insert_ne, Hp, decide_False by done. intros Hx. pose proof (in_once _ HI j c w Hj Hf x Hx). lia.
  - intros j q w [(_ & ? & _)|[Hj _]]%Hcase; [done|by eapply HI].
  - intros q Hq. rewrite Hp in Hq. destruct (decide (p = q)) as [<-|Hne].
    + exists fresh. rewrite Hcells, lookup_insert_eq. split; [done|]. right. exists i, (Registered p), NoWatch.
      by rewrite Hwait, lookup_insert_eq.
    + destruct (in_pending _ HI q ltac:(lia)) as (x & Hx & Hc). exists x. rewrite Hcells, lookup_insert_ne by done.
      split; [done|]. destruct Hc as [?|[j ?]]; [by left|right; exists j; auto].
  - intros q. rewrite Hr. intros Hq. destruct (in_readying _ HI q Hq) as (j & w & x & Hj & Hx & Hs & Hg).
    exists j, w, x. assert (q ≠ p) as Hqp. { intros ->. apply (Hno j). exact (owner_intro _ _ _ _ Hj). }
    rewrite Hcells, Hwait, !lookup_insert_ne by (done || by intros ->; rewrite Hi in Hj). done.
  - intros q. rewrite Hr. apply HI.
  - rewrite Hcr. apply HI.
Qed.

Lemma Inv_Register i p s s' : Inv s → Register i p s = Some s' → Inv s'.
Proof.
  unfold Register, pool_get. intros HI. destruct (waiting s !! i) as [?|] eqn:Hi; [done|].
  destruct (bool_decide (p ∈ pool s)) eqn:Hb; simpl.
  - apply bool_decide_eq_true in Hb. intros [= <-]. destruct (in_pool _ HI p Hb) as (Hc & Hp0 & Hno).
    apply (Inv_enter s _ i p); try done; simpl; [by rewrite insert_id|].
    intros q Hq. apply list_elem_of_filter in Hq. naive_solver.
  - apply bool_decide_eq_false in Hb. destruct (cells s !! p) as [x|] eqn:Hc; [done|]. simpl. intros [= <-].
    apply (Inv_enter s _ i p); try done; simpl.
    + destruct (decide (0 < pending s p)) as [Hpos|]; [|lia]. destruct (in_pending _ HI p Hpos) as (x & Hx & _). congruence.
    + intros j (c & w & Hj & <-). destruct (in_placed _ HI j c w Hj) as (x & Hx & _). congruence.
    + intros q Hq. split; [done|]. by intros ->.
Qed.

Lemma act_Inv a s s' : Inv s → act a s = Some s' → Inv s'.
Proof.
  destruct a; simpl; [eapply Inv_Register|eapply Inv_AfterFunc|eapply Inv_Park|eapply Inv_store|eapply Inv_cas|eapply Inv_Fire
    |eapply Inv_Broadcast|eapply Inv_swap|eapply Inv_goready|eapply Inv_stop|eapply Inv_Detach|eapply Inv_Release_list
    |eapply Inv_Release_put].
Qed.

Lemma reachable_Inv s : reachable s → Inv s.
Proof. induction 1 as [|s a s' _ IH Ha]; [apply Inv_New|by eapply act_Inv]. Qed.

(** * What it means *)

#[export] Instance waker_eq_dec : EqDecision waker.
Proof. solve_decision. Defined.

(** Every Broadcast and every Wake that was called has returned. *)
Definition quiet s : Prop := Forall (λ y, y = Loop []) (wakers s).

Definition of_waker (a : action) : Prop := match a with ASwap _ | AReady _ => True | _ => False end.

Lemma quiet_pending s p : quiet s → pending s p = cnt p (parkers s) ∧ readying s p = 0.
Proof.
  unfold quiet, pending, readying. intros Hq. induction Hq as [|y ws -> _ IH]; simpl; [rewrite cnt_nil; lia|]. done.
Qed.

Lemma cnt_pos p l : 0 < cnt p l → p ∈ l.
Proof.
  induction l as [|q l IH]; [rewrite cnt_nil; lia|]. rewrite cnt_cons. case_decide as Hq; [subst; by left|]. intros. right. apply IH. lia.
Qed.

(** The actions that are left to a waker. *)
Definition left_of (y : waker) : nat := match y with Loop l => 2 * length l | Goready _ l => S (2 * length l) end.
Definition left_over s : nat := foldr (λ y n, left_of y + n) 0 (wakers s).

Lemma left_insert (ws : list waker) k y z :
  ws !! k = Some y → left_of z < left_of y →
  foldr (λ y n, left_of y + n) 0 (<[k:=z]> ws) < foldr (λ y n, left_of y + n) 0 ws.
Proof.
  revert k. induction ws as [|x ws IH]; intros [|k] Hk Hlt; simpl in *; try done; [injection Hk as ->; lia|].
  specialize (IH k Hk Hlt). lia.
Qed.

(** A waker that is not done is never stuck. *)
Lemma waker_progress s k y :
  Inv s → wakers s !! k = Some y → y ≠ Loop [] →
  ∃ a s', of_waker a ∧ act a s = Some s' ∧ left_over s' < left_over s ∧ parkers s' = parkers s.
Proof.
  intros HI Hk Hy. destruct y as [[|p l]|p l]; [done| |].
  - assert (0 < pending s p) as Hp.
    { pose proof (pending_wakers s k _ (Loop l) p Hk) as H. simpl in H. rewrite cnt_cons, decide_True in H by done.
      unfold pending in *. simpl in *. lia. }
    destruct (in_pending _ HI p Hp) as (x & Hx & _). exists (ASwap k). simpl. unfold swap_woken. rewrite Hk, Hx. simpl.
    eexists. split_and!; [done|done| |done]. apply left_insert with (y := Loop (p :: l)); [done|].
    case_bool_decide; simpl; lia.
  - assert (0 < readying s p) as Hpos.
    { pose proof (readying_wakers s k _ (Loop l) p Hk) as H. simpl in H. rewrite cnt_cons, cnt_nil, decide_True in H by done. lia. }
    destruct (in_readying _ HI p Hpos) as (i & w & x & Hi & Hx & Hs & Hg).
    exists (AReady k). simpl. unfold goready. rewrite Hk, Hx. simpl. rewrite Hg, Hi. eexists. split_and!; [done|done| |done].
    apply left_insert with (y := Goready p l); [done|]. simpl. lia.
Qed.

Lemma wakers_finish s :
  Inv s → ∃ l s', Forall of_waker l ∧ length l ≤ left_over s ∧ schedule l s = Some s' ∧ quiet s' ∧ parkers s' = parkers s ∧ Inv s'.
Proof.
  remember (left_over s) as n eqn:Hn. revert s Hn. induction n as [n IH] using lt_wf_ind. intros s Hn HI.
  destruct (decide (Forall (λ y, y = Loop []) (wakers s))) as [Hq|Hq]; [by exists [], s; split_and!; try done; simpl; lia|].
  apply not_Forall_Exists, Exists_exists in Hq as (y & [k Hk]%list_elem_of_lookup & Hy); [|apply _].
  destruct (waker_progress s k y HI Hk Hy) as (a & s1 & Ha & Hact & Hlt & Hpk).
  destruct (IH (left_over s1) ltac:(lia) s1 eq_refl ltac:(by eapply act_Inv)) as (l & s' & Hl & Hlen & Hs & Hrest & Hpk' & HI').
  exists (a :: l), s'. split_and!; [by constructor|simpl; lia|by simpl; rewrite Hact|done|congruence|done].
Qed.

Lemma cnt_zero p l : cnt p l = 0 → p ∉ l.
Proof.
  induction l as [|q l IH]; [intros _ H; by apply elem_of_nil in H|]. rewrite cnt_cons. case_decide as Hq; [lia|].
  intros Hz [->|Hp]%elem_of_cons; [done|]. by apply IH.
Qed.

Lemma cnt_concat_zero (f : waker → list nat) (ws : list waker) p :
  cnt p (concat (f <$> ws)) = 0 → Forall (λ y, p ∉ f y) ws.
Proof.
  induction ws as [|y ws IH]; simpl; [constructor|]. rewrite cnt_app. intros Hz.
  change (list_fmap waker (list nat) f ws) with (f <$> ws) in Hz.
  constructor; [apply cnt_zero; lia|apply IH; lia].
Qed.

(** C36: In every interleaving no goroutine is made ready that is not asleep, each parker has
    one owner, and a parker in the pool is as good as new: nobody holds it and no Broadcast or Wake
    will touch it. *)
Theorem parker_safe s :
  reachable s →
  crashed s = false ∧ (∀ i j p, owner s i p → owner s j p → i = j) ∧
  ∀ p, p ∈ pool s → cells s !! p = Some fresh ∧ (∀ i, ¬ owner s i p) ∧ p ∉ parkers s ∧
    Forall (λ y, p ∉ work y) (wakers s) ∧ Forall (λ y, p ∉ owed y) (wakers s).
Proof.
  intros Hr. pose proof (reachable_Inv s Hr) as HI. split; [apply HI|]. split; [apply HI|]. intros p Hp.
  destruct (in_pool _ HI p Hp) as (Hc & Hpend & Hno). unfold pending in Hpend. split_and!; try done.
  - apply cnt_zero. lia.
  - apply cnt_concat_zero. lia.
  - apply cnt_concat_zero. destruct (decide (0 < readying s p)) as [Hpos|]; [|unfold readying in *; lia].
    destruct (in_readying _ HI p Hpos) as (i & w & x & Hi & _). destruct (Hno i). exact (owner_intro _ _ _ _ Hi).
Qed.

(** C23: No wakeup is lost: when every Broadcast and Wake that was called has returned, a
    goroutine that is asleep registered after the last Broadcast took the list; its parker is still
    on it. *)
Theorem no_lost_wakeup s i p w :
  reachable s → quiet s → waiting s !! i = Some (Waiting p, w) → p ∈ parkers s.
Proof.
  intros Hr Hq Hi. destruct (in_placed _ (reachable_Inv s Hr) _ _ _ Hi) as (x & _ & _ & Hcase).
  destruct (quiet_pending s p Hq) as [Hp Hrd]. apply cnt_pos. destruct Hcase as [[_ ?]|[_ ?]]; lia.
Qed.

(** C24: A Broadcast gets everybody up: whatever the goroutines that wait are doing, the wakers
    are done after a bounded number of actions of their own, none of which blocks, and then no
    goroutine that had registered is asleep, and those that have yet to park find their parker
    woken. *)
Theorem broadcast_wakes s s1 :
  reachable s → Broadcast s = Some s1 →
  ∃ l s', Forall of_waker l ∧ length l ≤ left_over s1 ∧ schedule l s1 = Some s' ∧ quiet s' ∧
    ∀ i c w, waiting s' !! i = Some (c, w) →
      (∀ p, c ≠ Waiting p) ∧ ∃ x, cells s' !! pc_parker c = Some x ∧ state x = parkWoken.
Proof.
  intros Hr Hb. assert (Inv s1) as HI by (eapply Inv_Broadcast; [by apply reachable_Inv|done]).
  destruct (wakers_finish s1 HI) as (l & s' & Hl & Hlen & Hs & Hq & Hpk & HI'). exists l, s'. split_and!; try done.
  assert (parkers s' = []) as Hnil by (rewrite Hpk; by injection Hb as <-).
  intros i c w Hi. destruct (in_placed _ HI' _ _ _ Hi) as (x & Hx & Hcase).
  destruct (quiet_pending s' (pc_parker c) Hq) as [Hp Hrd]. rewrite Hnil, cnt_nil in Hp.
  split; [intros p ->; simpl in *; intuition lia|]. exists x. split; [done|]. destruct c; simpl in *; intuition lia.
Qed.
