(* ===== verification/Btree.v ===== *)
(** Package btype, btype_btree.go: the positional copy-on-write B-tree. Nodes live in a store, so that
    what a tree shares with its snapshots, and what a write to a shared node would do, can be stated.
    A node's keys and values are one list of pairs, the first len slots of the two arrays; a branch's
    children and counts are the first len+1. The tree's hooks dataCopy and dataRelease are nil and its
    string prefixes off, as in the one tree this module makes, so they are left out. *)

From S2P Require Import Prelude.

Definition fanout : nat := 64.
Definition maxItems : nat := fanout - 1.
Definition minItems : nat := maxItems / 2.
Arguments maxItems : simpl never.
Arguments minItems : simpl never.

Lemma items_bounds : maxItems = 63 ∧ minItems = 31.
Proof. done. Qed.

(** Arithmetic with the two constants. *)
Ltac node_lia := pose proof items_bounds; lia.

(** A pointer to a node is an index into the store. *)
Abbreviation loc := nat (only parsing).

Record branch := MkBranch { children : list loc; counts : list Z }.

Record node (K V : Type) := MkNode {
  items : list (K * V);
  rc : Z;
  nbranch : option branch;
}.
Arguments MkNode {K V} _ _ _.
Arguments items {K V} _.
Arguments rc {K V} _.
Arguments nbranch {K V} _.

Record tree (K V : Type) := MkTree {
  copied : bool;
  tcount : Z;
  root : option loc;
  spare : option loc;
  dataCompare : option (K → V → K → V → Z);
}.
Arguments MkTree {K V} _ _ _ _ _.
Arguments copied {K V} _.
Arguments tcount {K V} _.
Arguments root {K V} _.
Arguments spare {K V} _.
Arguments dataCompare {K V} _.

(** * Code over a store *)

(** [None] is a fault: a nil dereference, an index out of range, or an item pushed off the end of a
    node's arrays. The theorems show that it does not happen. *)
Definition sto (K V A : Type) : Type := list (node K V) → option (A * list (node K V)).

#[export] Instance sto_ret {K V} : MRet (sto K V) := λ A a σ, Some (a, σ).
#[export] Instance sto_bind {K V} : MBind (sto K V) := λ A C k m σ,
  match m σ with
  | Some (a, σ') => k a σ'
  | None => None
  end.

Section btree.
Context {K V : Type}.
Abbreviation N := (node K V).
Abbreviation T := (tree K V).
Abbreviation M := (sto K V).
Implicit Types (n : loc) (nd : N) (t : T).

Definition fault {A} : M A := λ _, None.
Definition ofopt {A} (o : option A) : M A :=
  match o with Some a => mret a | None => fault end.
Definition load n : M N := λ σ, match σ !! n with Some nd => Some (nd, σ) | None => None end.
Definition set n nd : M unit := λ σ,
  match σ !! n with Some _ => Some (tt, <[n := nd]> σ) | None => None end.
Definition alloc nd : M loc := λ σ, Some (length σ, σ ++ [nd]).

Definition set_items (its : list (K * V)) nd : N := MkNode its (rc nd) (nbranch nd).
Definition set_rc (c : Z) nd : N := MkNode (items nd) c (nbranch nd).
Definition set_branch (b : option branch) nd : N := MkNode (items nd) (rc nd) b.
Definition set_root (r : option loc) t : T :=
  MkTree (copied t) (tcount t) r (spare t) (dataCompare t).
Definition set_count (c : Z) t : T :=
  MkTree (copied t) c (root t) (spare t) (dataCompare t).
Definition set_spare (s : option loc) t : T :=
  MkTree (copied t) (tcount t) (root t) s (dataCompare t).

Definition len nd : nat := length (items nd).

Definition leaf nd : bool := match nbranch nd with None => true | Some _ => false end.

(** The branch of a node that is not a leaf. *)
Definition the_branch nd : M branch := ofopt (nbranch nd).

Definition child nd (i : nat) : M loc := b ← the_branch nd; ofopt (children b !! i).

Definition set_child n (i : nat) (c : loc) : M unit :=
  nd ← load n; b ← the_branch nd;
  set n (set_branch (Some (MkBranch (<[i := c]> (children b)) (counts b))) nd).

(** [n.branch.counts[i] = f(n.branch.counts[i])]; past the last child the slot is never read. *)
Definition upd_count n (i : nat) (f : Z → Z) : M unit :=
  nd ← load n; b ← the_branch nd;
  set n (set_branch (Some (MkBranch (children b) (alter f i (counts b)))) nd).

Definition newNode (isleaf : bool) : M loc :=
  alloc (MkNode [] 0 (if isleaf then None else Some (MkBranch [] []))).

Definition count nd : Z :=
  (zlen (items nd) + match nbranch nd with None => 0 | Some b => foldr Z.add 0 (counts b) end)%Z.

(** [n.branch.counts[i] = n.branch.children[i].count()]; a nil child counts 0. *)
Definition recount n (i : nat) : M unit :=
  nd ← load n; b ← the_branch nd;
  c ← match children b !! i with
      | None => mret 0%Z
      | Some c => cn ← load c; mret (count cn)
      end;
  upd_count n i (λ _, c).

(** * Splitting *)

(** Called on full nodes only, so that the right half gets the [maxItems - m - 1] items after the middle. *)
Definition splitNode n : M (loc * (K * V)) :=
  let m := maxItems - minItems - 1 in
  nd ← load n;
  mitem ← ofopt (items nd !! m);
  rgt ← newNode (leaf nd);
  let half (b : branch) := MkBranch (take (S m) (children b)) (take (S m) (counts b)) in
  let rest (b : branch) := MkBranch (drop (S m) (children b)) (drop (S m) (counts b)) in
  set n (MkNode (take m (items nd)) (rc nd) (half <$> nbranch nd));;
  set rgt (MkNode (drop (S m) (items nd)) 0 (rest <$> nbranch nd));;
  mret (rgt, mitem).

Definition insertItemAt n (x : K * V) (i : nat) : M unit :=
  nd ← load n;
  if decide (len nd < maxItems)
  then set n (set_items (take i (items nd) ++ x :: drop i (items nd)) nd)
  else fault.

(** The counts from [i] on move up one slot; slot [i] keeps its value until it is recounted. *)
Definition insertChildAt n (c : loc) (i : nat) : M unit :=
  nd ← load n; b ← the_branch nd;
  set n (set_branch (Some (MkBranch (take i (children b) ++ c :: drop i (children b))
    (take i (counts b) ++ default 0%Z (counts b !! i) :: drop i (counts b)))) nd).

Definition splitBranch n (i : nat) : M unit :=
  nd ← load n; c ← child nd i;
  '(rgt, mitem) ← splitNode c;
  insertItemAt n mitem i;;
  insertChildAt n rgt (S i);;
  recount n i;;
  recount n (S i).

Definition ensureBranch n (i : nat) : M bool :=
  nd ← load n; c ← child nd i; cn ← load c;
  if decide (len cn = maxItems) then splitBranch n i;; mret true else mret false.

(** [t.newNode(t.root.leaf())] is allocated and overwritten at once. *)
Definition splitRoot t : M T :=
  root2 ← newNode false;
  r ← ofopt (root t);
  '(rgt, mitem) ← splitNode r;
  rn ← load r;
  _ ← newNode (leaf rn);
  set root2 (MkNode [] 0 (Some (MkBranch [r; rgt] [0; 0]%Z)));;
  insertItemAt root2 mitem 0;;
  recount root2 0;;
  recount root2 1;;
  mret (set_root (Some root2) t).

Definition ensureRoot t : M T :=
  r ← ofopt (root t); nd ← load r;
  if decide (len nd = maxItems) then splitRoot t else mret t.

Definition insertFirstItem (x : K * V) t : M T :=
  '(r, t) ← match spare t with
            | Some s => mret (s, set_spare None t)
            | None => r ← newNode true; mret (r, t)
            end;
  nd ← load r;
  set r (set_items [x] nd);;
  mret (set_count 1 (set_root (Some r) t)).

(** * Copy-on-write *)

Definition add_rc n (d : Z) : M Z :=
  nd ← load n; set n (set_rc (rc nd + d) nd);; mret (rc nd + d)%Z.

Definition each (f : loc → M unit) : list loc → M unit :=
  fix go cs := match cs with [] => mret () | c :: cs => f c;; go cs end.

(** [fuel] bounds the depth of the recursion, here and below: the tree gives its item count, which no
    tree's height reaches. *)
Fixpoint releaseNode (fuel : nat) n : M unit :=
  match fuel with
  | O => fault
  | S fuel =>
      c ← add_rc n (-1);
      if (c <? 0)%Z then
        nd ← load n;
        match nbranch nd with
        | None => mret ()
        | Some b => each (releaseNode fuel) (children b)
        end
      else mret ()
  end.

Definition copyNode n : M loc :=
  nd ← load n;
  n2 ← newNode (leaf nd);
  match nbranch nd with
  | None => mret ()
  | Some b => each (λ c, add_rc c 1;; mret ()) (children b)
  end;;
  set n2 (MkNode (items nd) 0 (nbranch nd));;
  mret n2.

Definition cow0 (fuel : nat) n : M loc :=
  n2 ← copyNode n;
  releaseNode fuel n;;
  mret n2.

Definition cowRoot (fuel : nat) (mut : bool) t : M T :=
  match root t with
  | Some r =>
      if mut && copied t then
        nd ← load r;
        if (0 <? rc nd)%Z then r2 ← cow0 fuel r; mret (set_root (Some r2) t) else mret t
      else mret t
  | None => mret t
  end.

Definition cowChild (fuel : nat) t n (i : nat) (mut : bool) : M unit :=
  if mut && copied t then
    nd ← load n; c ← child nd i; cn ← load c;
    if (0 <? rc cn)%Z then c2 ← cow0 fuel c; set_child n i c2 else mret ()
  else mret ().

(** * Deleting *)

(** rebalance's first way to repair: merge (left, item, right) into the left node. *)
Definition merge_pair n (i : nat) (lft rgt : loc) : M unit :=
  nd ← load n; b ← the_branch nd; x ← ofopt (items nd !! i);
  ln ← load lft; rn ← load rgt;
  set lft (MkNode (items ln ++ x :: items rn) (rc ln)
    match nbranch ln, nbranch rn with
    | Some lb, Some rb => Some (MkBranch (children lb ++ children rb) (counts lb ++ counts rb))
    | lb, _ => lb
    end);;
  set n (MkNode (delete i (items nd)) (rc nd)
    (Some (MkBranch (delete (S i) (children b)) (delete (S i) (counts b))))).

(** The second: move left -> right over one slot. *)
Definition move_right n (i : nat) (lft rgt : loc) : M unit :=
  nd ← load n; x ← ofopt (items nd !! i);
  ln ← load lft; rn ← load rgt;
  y ← ofopt (last (items ln));
  set rgt (MkNode (x :: items rn) (rc rn)
    match nbranch ln, nbranch rn with
    | Some lb, Some rb => Some (MkBranch (drop (len ln) (children lb) ++ children rb)
                                         (drop (len ln) (counts lb) ++ counts rb))
    | _, rb => rb
    end);;
  set n (set_items (<[i := y]> (items nd)) nd);;
  set lft (MkNode (take (len ln - 1) (items ln)) (rc ln)
    ((λ lb, MkBranch (take (len ln) (children lb)) (take (len ln) (counts lb))) <$> nbranch ln)).

(** The third: move left <- right over one slot. *)
Definition move_left n (i : nat) (lft rgt : loc) : M unit :=
  nd ← load n; x ← ofopt (items nd !! i);
  ln ← load lft; rn ← load rgt;
  y ← ofopt (items rn !! 0);
  set lft (MkNode (items ln ++ [x]) (rc ln)
    match nbranch ln, nbranch rn with
    | Some lb, Some rb => Some (MkBranch (children lb ++ take 1 (children rb))
                                         (counts lb ++ take 1 (counts rb)))
    | lb, _ => lb
    end);;
  set n (set_items (<[i := y]> (items nd)) nd);;
  set rgt (MkNode (drop 1 (items rn)) (rc rn)
    ((λ rb, MkBranch (drop 1 (children rb)) (drop 1 (counts rb))) <$> nbranch rn)).

(** Repairs a child that fell below [minItems], with its right neighbour or, if it is the last, its
    left one. *)
Definition rebalance (fuel : nat) t n (i : nat) : M unit :=
  nd ← load n;
  let i := if decide (i = len nd) then i - 1 else i in
  cowChild fuel t n i true;;
  cowChild fuel t n (S i) true;;
  nd ← load n; lft ← child nd i; rgt ← child nd (S i);
  ln ← load lft; rn ← load rgt;
  (if decide (len ln + len rn < maxItems) then merge_pair n i lft rgt
   else if decide (len rn < len ln) then move_right n i lft rgt
   else move_left n i lft rgt);;
  recount n i;;
  recount n (S i).

(** What every deletion does once the child [i] of [n] lost an item. *)
Definition child_lost (fuel : nat) t n (i : nat) : M unit :=
  upd_count n i (λ c, c - 1)%Z;;
  nd ← load n; c ← child nd i; cn ← load c;
  if decide (len cn < minItems) then rebalance fuel t n i else mret ().

Fixpoint nodeDeleteMax (fuel : nat) t n : M (K * V) :=
  match fuel with
  | O => fault
  | S fuel =>
      nd ← load n;
      if leaf nd then
        old ← ofopt (last (items nd));
        set n (set_items (take (len nd - 1) (items nd)) nd);;
        mret old
      else
        let i := len nd in
        cowChild fuel t n i true;;
        nd ← load n; c ← child nd i;
        old ← nodeDeleteMax fuel t c;
        child_lost fuel t n i;;
        mret old
  end.

Fixpoint nodePopFront (fuel : nat) t n : M (K * V) :=
  match fuel with
  | O => fault
  | S fuel =>
      nd ← load n;
      if leaf nd then
        old ← ofopt (items nd !! 0);
        set n (set_items (drop 1 (items nd)) nd);;
        mret old
      else
        cowChild fuel t n 0 true;;
        nd ← load n; c ← child nd 0;
        old ← nodePopFront fuel t c;
        child_lost fuel t n 0;;
        mret old
  end.

Fixpoint nodePopBack (fuel : nat) t n : M (K * V) :=
  match fuel with
  | O => fault
  | S fuel =>
      nd ← load n;
      if leaf nd then
        old ← ofopt (last (items nd));
        set n (set_items (take (len nd - 1) (items nd)) nd);;
        mret old
      else
        let i := len nd in
        cowChild fuel t n i true;;
        nd ← load n; c ← child nd i;
        old ← nodePopBack fuel t c;
        child_lost fuel t n i;;
        mret old
  end.

(** The scan of a branch's counts for a position: the child to descend into, the position left for
    it, and whether the position is that of the item after that child. *)
Fixpoint seekAt (cs : list Z) (n : nat) (index : Z) : nat * Z * bool :=
  match cs, n with
  | c :: cs, S n =>
      if (index <=? c)%Z then (0, index, (index =? c)%Z)
      else let '(i, index, found) := seekAt cs n (index - (c + 1)) in (S i, index, found)
  | _, _ => (0, index, false)
  end.

Fixpoint nodeDeleteAt (fuel : nat) t n (index : Z) : M (K * V) :=
  match fuel with
  | O => fault
  | S fuel =>
      nd ← load n;
      if leaf nd then
        let i := Z.to_nat index in
        old ← ofopt (items nd !! i);
        set n (set_items (delete i (items nd)) nd);;
        mret old
      else
        b ← the_branch nd;
        let '(i, index, found) := seekAt (counts b) (len nd) index in
        cowChild fuel t n i true;;
        nd ← load n; c ← child nd i;
        old ← (if found : bool then
          old ← ofopt (items nd !! i);
          mx ← nodeDeleteMax fuel t c;
          nd ← load n;
          set n (set_items (<[i := mx]> (items nd)) nd);;
          mret old
        else nodeDeleteAt fuel t c index);
        child_lost fuel t n i;;
        mret old
  end.

Definition collapseRootIfNeeded t : M T :=
  if (tcount t =? 0)%Z then
    spare' ← match spare t, root t with
             | None, Some r =>
                 nd ← load r;
                 mret (if leaf nd && (rc nd =? 0)%Z then Some r else None)
             | s, _ => mret s
             end;
    mret (set_root None (set_spare spare' t))
  else
    r ← ofopt (root t); nd ← load r;
    if (len nd =? 0) && negb (leaf nd)
    then c ← child nd 0; mret (set_root (Some c) t)
    else mret t.

(** The depth that bounds the recursions of an operation on [t]. *)
Definition depth t : nat := Z.to_nat (tcount t).

(** What PopFront, PopBack and DeleteAt do around the descent. *)
Definition removing (f : loc → M (K * V)) t : M (option (K * V) * T) :=
  t ← cowRoot (depth t) true t;
  r ← ofopt (root t);
  old ← f r;
  let t := set_count (tcount t - 1) t in
  t ← collapseRootIfNeeded t;
  mret (Some old, t).

Definition PopFront t : M (option (K * V) * T) :=
  if (tcount t =? 0)%Z then mret (None, t)
  else removing (nodePopFront (depth t) t) t.

Definition PopBack t : M (option (K * V) * T) :=
  if (tcount t =? 0)%Z then mret (None, t)
  else removing (nodePopBack (depth t) t) t.

Definition DeleteAt (index : Z) t : M (option (K * V) * T) :=
  if ((index <? 0) || (tcount t <=? index))%Z then mret (None, t)
  else removing (λ r, nodeDeleteAt (depth t) t r index) t.

(** * Inserting *)

Definition gte t (a b : K * V) : bool :=
  match dataCompare t with Some f => (0 <=? f a.1 a.2 b.1 b.2)%Z | None => false end.
Definition lte t (a b : K * V) : bool :=
  match dataCompare t with Some f => (f a.1 a.2 b.1 b.2 <=? 0)%Z | None => false end.

(** The descents of PushFront and PushBack; they answer false when the item is out of order. *)
Fixpoint pushFront_loop (fuel : nat) t n (x : K * V) : M bool :=
  match fuel with
  | O => fault
  | S fuel =>
      nd ← load n;
      if leaf nd then
        first ← ofopt (items nd !! 0);
        if gte t x first then mret false
        else insertItemAt n x 0;; mret true
      else
        cowChild fuel t n 0 true;;
        _ ← ensureBranch n 0;
        upd_count n 0 (λ c, c + 1)%Z;;
        nd ← load n; c ← child nd 0;
        pushFront_loop fuel t c x
  end.

Fixpoint pushBack_loop (fuel : nat) t n (x : K * V) : M bool :=
  match fuel with
  | O => fault
  | S fuel =>
      nd ← load n;
      if leaf nd then
        first ← ofopt (items nd !! 0); final ← ofopt (last (items nd));
        if lte t x (final.1, first.2) then mret false
        else insertItemAt n x (len nd);; mret true
      else
        cowChild fuel t n (len nd) true;;
        _ ← ensureBranch n (len nd);
        nd ← load n;
        upd_count n (len nd) (λ c, c + 1)%Z;;
        c ← child nd (len nd);
        pushBack_loop fuel t c x
  end.

(** out of order, rollback counts *)
Fixpoint rollbackFront (fuel : nat) n : M unit :=
  match fuel with
  | O => fault
  | S fuel =>
      nd ← load n;
      if leaf nd then mret ()
      else upd_count n 0 (λ c, c - 1)%Z;; c ← child nd 0; rollbackFront fuel c
  end.

Fixpoint rollbackBack (fuel : nat) n : M unit :=
  match fuel with
  | O => fault
  | S fuel =>
      nd ← load n;
      if leaf nd then mret ()
      else upd_count n (len nd) (λ c, c - 1)%Z;; c ← child nd (len nd); rollbackBack fuel c
  end.

Definition PushFront (x : K * V) t : M (bool * T) :=
  if (tcount t =? 0)%Z then t ← insertFirstItem x t; mret (true, t)
  else
    t ← cowRoot (depth t) true t;
    t ← ensureRoot t;
    r ← ofopt (root t);
    ok ← pushFront_loop (depth t) t r x;
    if ok : bool then mret (true, set_count (tcount t + 1) t)
    else rollbackFront (depth t) r;; mret (false, t).

Definition PushBack (x : K * V) t : M (bool * T) :=
  if (tcount t =? 0)%Z then t ← insertFirstItem x t; mret (true, t)
  else
    t ← cowRoot (depth t) true t;
    t ← ensureRoot t;
    r ← ofopt (root t);
    ok ← pushBack_loop (depth t) t r x;
    if ok : bool then mret (true, set_count (tcount t + 1) t)
    else rollbackBack (depth t) r;; mret (false, t).

(** The loop of InsertAt; a child that had to be split is looked for again, so that a level takes two
    trips. *)
Fixpoint insertAt_loop (fuel : nat) t n (index : Z) (x : K * V) : M bool :=
  match fuel with
  | O => fault
  | S fuel =>
      nd ← load n;
      if leaf nd then insertItemAt n x (Z.to_nat index);; mret true
      else
        b ← the_branch nd;
        let '(i, index', _) := seekAt (counts b) (len nd) index in
        cowChild fuel t n i true;;
        split ← ensureBranch n i;
        if split : bool then insertAt_loop fuel t n index x
        else
          upd_count n i (λ c, c + 1)%Z;;
          nd ← load n; c ← child nd i;
          insertAt_loop fuel t c index' x
  end.

(** * Reading *)

Fixpoint front_loop (fuel : nat) t n (mut : bool) : M (K * V) :=
  match fuel with
  | O => fault
  | S fuel =>
      nd ← load n;
      if leaf nd then ofopt (items nd !! 0)
      else cowChild fuel t n 0 mut;; nd ← load n; c ← child nd 0; front_loop fuel t c mut
  end.

Fixpoint back_loop (fuel : nat) t n (mut : bool) : M (K * V) :=
  match fuel with
  | O => fault
  | S fuel =>
      nd ← load n;
      if leaf nd then ofopt (last (items nd))
      else cowChild fuel t n (len nd) mut;; nd ← load n; c ← child nd (len nd); back_loop fuel t c mut
  end.

Fixpoint getAt_loop (fuel : nat) t n (index : Z) (mut : bool) : M (K * V) :=
  match fuel with
  | O => fault
  | S fuel =>
      nd ← load n;
      if leaf nd then ofopt (items nd !! Z.to_nat index)
      else
        b ← the_branch nd;
        let '(i, index, found) := seekAt (counts b) (len nd) index in
        if found : bool then ofopt (items nd !! i)
        else cowChild fuel t n i mut;; nd ← load n; c ← child nd i; getAt_loop fuel t c index mut
  end.

(** The readers share their start: nothing of an empty tree, the root made private if [mut]. *)
Definition reading (loop : T → loc → M (K * V)) (mut : bool) t : M (option (K * V) * T) :=
  if (tcount t =? 0)%Z then mret (None, t)
  else
    t ← cowRoot (depth t) mut t;
    r ← ofopt (root t);
    x ← loop t r;
    mret (Some x, t).

Definition front0 (mut : bool) t : M (option (K * V) * T) :=
  reading (λ t r, front_loop (depth t) t r mut) mut t.
Definition back0 (mut : bool) t : M (option (K * V) * T) :=
  reading (λ t r, back_loop (depth t) t r mut) mut t.
Definition getAt0 (index : Z) (mut : bool) t : M (option (K * V) * T) :=
  if ((index <? 0) || (tcount t <=? index))%Z then mret (None, t)
  else if (index =? 0)%Z then front0 mut t
  else if (index =? tcount t - 1)%Z then back0 mut t
  else reading (λ t r, getAt_loop (depth t) t r index mut) mut t.

Definition Front t : M (option (K * V) * T) := front0 false t.
Definition Back t : M (option (K * V) * T) := back0 false t.
Definition GetAt (index : Z) t : M (option (K * V) * T) := getAt0 index false t.
Definition FrontMut t : M (option (K * V) * T) := front0 true t.
Definition BackMut t : M (option (K * V) * T) := back0 true t.
Definition GetAtMut (index : Z) t : M (option (K * V) * T) := getAt0 index true t.

Definition Len t : Z := tcount t.

Fixpoint height_loop (fuel : nat) n : M nat :=
  match fuel with
  | O => fault
  | S fuel =>
      nd ← load n;
      if leaf nd then mret 0 else c ← child nd 0; h ← height_loop fuel c; mret (S h)
  end.

Definition Height t : M nat :=
  if (tcount t =? 0)%Z then mret 0 else r ← ofopt (root t); height_loop (depth t) r.

(** InsertAt, past the range check a front or a back push where it is one. *)
Definition InsertAt (index : Z) (x : K * V) t : M (bool * T) :=
  if ((index <? 0) || (tcount t <? index))%Z then mret (false, t)
  else if (index =? 0)%Z then PushFront x t
  else if (index =? tcount t)%Z then PushBack x t
  else
    r ← ofopt (root t);
    ordered ← match dataCompare t with
              | None => mret true
              | Some _ =>
                  a ← getAt_loop (depth t) t r (index - 1) false;
                  if gte t a x then mret false
                  else
                    b ← getAt_loop (depth t) t r index false;
                    mret (negb (gte t x b))
              end;
    if ordered : bool then
      t ← cowRoot (depth t) true t;
      t ← ensureRoot t;
      r ← ofopt (root t);
      ok ← insertAt_loop (2 * depth t) t r index x;
      mret (ok, set_count (tcount t + 1) t)
    else mret (false, t).

(** * Whole trees *)

Definition Clear t : T := set_root None (set_count 0 t).

(** [t.CopyInto(t2)]: the trees [t] and [t2] after it. *)
Definition CopyInto t : M (T * T) :=
  let t := MkTree true (tcount t) (root t) (spare t) (dataCompare t) in
  match root t with Some r => add_rc r 1;; mret (t, t) | None => mret (t, t) end.

Definition Release t : M T :=
  match root t with Some r => releaseNode (depth t) r | None => mret () end;;
  mret (Clear t).

(** A tree nothing was put into. *)
Definition new_tree (cmp : option (K → V → K → V → Z)) : T := MkTree false 0 None None cmp.

End btree.

(** * Iterating *)

(** The loops over all items call the loop body between the nodes they read, so they run in whatever
    the body runs in: a monad with a way to read a node. [A] holds the variables that the body assigns;
    the body says whether to go on. No loop here mutates the nodes ([mut] is false), so that cowChild
    does nothing. *)
Section iterate.
Context {K V A : Type} {M : Type → Type} `{!MRet M, !MBind M}.
Variable load' : loc → M (node K V).
Variable nil_deref : M (A * bool).
Variable yield : A → K * V → M (A * bool).

Fixpoint yield_all (xs : list (K * V)) (a : A) : M (A * bool) :=
  match xs with
  | [] => mret (a, true)
  | x :: xs => '(a, go) ← yield a x; if go : bool then yield_all xs a else mret (a, false)
  end.

(** A child before each item, and the last child. *)
Fixpoint interleave (visit : loc → A → M (A * bool)) (cs : list loc) (xs : list (K * V)) (a : A) :
    M (A * bool) :=
  match cs, xs with
  | c :: cs, x :: xs =>
      '(a, go) ← visit c a;
      if go : bool then
        '(a, go) ← yield a x;
        if go : bool then interleave visit cs xs a else mret (a, false)
      else mret (a, false)
  | c :: _, [] => visit c a
  | [], _ => nil_deref
  end.

Fixpoint nodeAll (fuel : nat) (n : loc) (a : A) : M (A * bool) :=
  match fuel with
  | O => nil_deref
  | S fuel =>
      nd ← load' n;
      match nbranch nd with
      | None => yield_all (items nd) a
      | Some b => interleave (nodeAll fuel) (children b) (items nd) a
      end
  end.

Fixpoint nodeBackward (fuel : nat) (n : loc) (a : A) : M (A * bool) :=
  match fuel with
  | O => nil_deref
  | S fuel =>
      nd ← load' n;
      match nbranch nd with
      | None => yield_all (reverse (items nd)) a
      | Some b => interleave (nodeBackward fuel) (reverse (children b)) (reverse (items nd)) a
      end
  end.

(** [for k, v := range t.All() { ... }], and the variables after it. *)
Definition all0 (t : tree K V) (a : A) : M A :=
  if (0 <? tcount t)%Z
  then
    match root t with
    | Some r => '(a, _) ← nodeAll (depth t) r a; mret a
    | None => '(a, _) ← nil_deref; mret a
    end
  else mret a.

Definition backward0 (t : tree K V) (a : A) : M A :=
  if (0 <? tcount t)%Z
  then
    match root t with
    | Some r => '(a, _) ← nodeBackward (depth t) r a; mret a
    | None => '(a, _) ← nil_deref; mret a
    end
  else mret a.
End iterate.
