(* ===== verification/BtreeOwn.v ===== *)
(** Who owns which node of a B-tree store. An assertion [own] splits the store in the nodes that are
    open (exclusively held and being worked on) and the rest, of which only the references the holder
    accounts for are known: each stands for a subtree with its contents, and the reference counters of
    the nodes bound the references there are. The rules below are what the copy-on-write code lives by:
    opening a node whose counter is zero, closing it, writing to an open node, sharing, releasing. *)

From stdpp Require Import gmap.
From S2P Require Import Prelude Btree.

(** * Weaving items between the contents of children *)

Fixpoint weave {A} (xss : list (list A)) (its : list A) : list A :=
  match xss, its with
  | [], its => its
  | [xs], [] => xs
  | xs :: xss, [] => xs ++ weave xss []
  | xs :: xss, x :: its => xs ++ x :: weave xss its
  end.

(** * References to subtrees *)

Section own.
Context {K V : Type}.
Abbreviation node := (node K V).
Abbreviation item := (K * V)%type.
Abbreviation store := (list node).
Implicit Types (σ : store) (O H : gmap nat node) (l : nat).

(** A reference: to which node, at what height, with how many items in the node itself, and the
    contents of the whole subtree. *)
Record ref := MkRef { r_loc : nat; r_h : nat; r_len : nat; r_xs : list item }.
Implicit Types (d : ref) (ds Γ : list ref).

Definition mknode (its : list item) (c : Z) (h : nat) ds : node :=
  MkNode its c
    match h with
    | O => None
    | S _ => Some (MkBranch (r_loc <$> ds) ((λ d, zlen (r_xs d)) <$> ds))
    end.

(** The children a node of height [h] with [k] items has. *)
Definition fits (h : nat) ds (k : nat) : Prop :=
  match h with
  | O => ds = []
  | S h => length ds = S k ∧ Forall (λ d, r_h d = h ∧ minItems ≤ r_len d) ds
  end.

Definition contents (its : list item) ds : list item := weave (r_xs <$> ds) its.

(** A node with items [its] and children [ds] is what [d] says. *)
Definition node_of d (its : list item) ds : Prop :=
  length its = r_len d ∧ r_len d ≤ maxItems ∧ fits (r_h d) ds (r_len d) ∧ r_xs d = contents its ds.

(** [rep H h l k xs]: in [H] the node [l] is the root of a subtree of height [h] that holds [xs], with
    [k] items of its own. *)
Fixpoint rep H (h : nat) l (k : nat) (xs : list item) : Prop :=
  ∃ its c ds,
    H !! l = Some (mknode its c h ds) ∧ length its = k ∧ k ≤ maxItems ∧ fits h ds k ∧
    xs = contents its ds ∧
    match h with
    | O => True
    | S h => Forall (λ d, rep H h (r_loc d) (r_len d) (r_xs d)) ds
    end.

Definition reps H d : Prop := rep H (r_h d) (r_loc d) (r_len d) (r_xs d).

(** * Counting references *)

Definition occ l (ls : list nat) : nat := count_occ Nat.eq_dec ls l.

Definition kids (n : node) : list nat :=
  match nbranch n with None => [] | Some b => children b end.

(** How many child slots of [H] refer to [l]. *)
Definition indeg H l : nat := map_fold (λ _ n a, occ l (kids n) + a) 0 H.

(** What others hold while this code runs (the snapshots of iterations that hold no lock): references
    into the store, and the nodes under them, each of which is kept alive by such a reference or by a
    parent among them. *)
Class Frozen := MkFrozen {
  fz_refs : list ref;
  fz_nodes : gmap nat node;
  fz_reps : Forall (reps fz_nodes) fz_refs;
  fz_held l n : fz_nodes !! l = Some n →
    l ∈ r_loc <$> fz_refs ∨ ∃ p m, fz_nodes !! p = Some m ∧ l ∈ kids m;
}.

(** The same items and branches; the counters may differ. *)
Definition same_shape H H' : Prop := ∀ l n,
  H !! l = Some n → ∃ n', H' !! l = Some n' ∧ items n' = items n ∧ nbranch n' = nbranch n.

Context `{F : Frozen}.

Definition refs H Γ l : nat := indeg H l + occ l (r_loc <$> Γ) + occ l (r_loc <$> fz_refs).

(** [own cp σ O Γ]: the store holds the open nodes [O], which nothing refers to, and closed nodes, whose
    counters bound the references to them, [Γ] and the frozen ones included. Unless some tree was copied
    ([cp]) no counter was ever raised. Frozen nodes are closed and as they were. *)
Record owned (cp : bool) σ O Γ H : Prop := MkOwned {
  ow_open l n : O !! l = Some n → σ !! l = Some n;
  ow_closed l n : H !! l = Some n → σ !! l = Some n;
  ow_disj l n : O !! l = Some n → H !! l = None;
  ow_rc l n : H !! l = Some n → (0 ≤ rc n)%Z ∧ (Z.of_nat (refs H Γ l) ≤ rc n + 1)%Z;
  ow_cp l n : cp = false → H !! l = Some n → rc n = 0%Z;
  ow_unref l n : O !! l = Some n → refs H Γ l = 0;
  ow_alloc l : length σ ≤ l → refs H Γ l = 0;
  ow_reps : Forall (reps H) Γ;
  ow_frozen : same_shape fz_nodes H;
}.

Definition own (cp : bool) σ O Γ : Prop := ∃ H, owned cp σ O Γ H.

(** The counter of a node is zero. *)
Definition private σ l : Prop := ∃ n, σ !! l = Some n ∧ rc n = 0%Z.

(** ** Weaving *)

Lemma weave_nil {A} (its : list A) : weave [] its = its.
Proof. by destruct its. Qed.

Lemma weave_cons {A} (xs : list A) xss x its :
  weave (xs :: xss) (x :: its) = xs ++ x :: weave xss its.
Proof. by destruct xss. Qed.

Lemma weave_one {A} (xs : list A) : weave [xs] [] = xs.
Proof. done. Qed.

(** What stands before the children [yss] when as many children as items do. *)
Lemma weave_app {A} (xss yss : list (list A)) its jts :
  length xss = length its →
  weave (xss ++ yss) (its ++ jts) = mjoin (zip_with (λ xs i, xs ++ [i]) xss its) ++ weave yss jts.
Proof.
  revert its. induction xss as [|xs xss IH]; intros [|i its] Hl; try discriminate; [done|].
  cbn [app zip_with]. rewrite weave_cons, IH by (cbn in Hl; lia). cbn [mjoin list_join].
  by rewrite <-!(assoc_L (++)).
Qed.

(** Two subtrees and the item between them. *)
Lemma weave_join {A} (xss yss : list (list A)) its x jts :
  length xss = S (length its) →
  weave (xss ++ yss) (its ++ x :: jts) = weave xss its ++ x :: weave yss jts.
Proof.
  revert its. induction xss as [|xs xss IH]; intros its Hl; [discriminate|].
  destruct its as [|i its].
  - destruct xss; [|discriminate]. cbn [app]. by rewrite weave_cons.
  - cbn [app]. rewrite !weave_cons, IH by (cbn in Hl; lia).
    by rewrite <-(assoc_L (++)).
Qed.

Lemma weave_prepend {A} (p xs : list A) xss its :
  weave ((p ++ xs) :: xss) its = p ++ weave (xs :: xss) its.
Proof.
  destruct its as [|x its]; [|by rewrite !weave_cons, <-(assoc_L (++))].
  destruct xss; cbn; [done|]. by rewrite <-(assoc_L (++)).
Qed.

(** A stretch of children and the items between them reads as one child. *)
Lemma weave_collapse {A} (xss yss : list (list A)) its jts :
  length xss = S (length its) →
  weave (xss ++ yss) (its ++ jts) = weave (weave xss its :: yss) jts.
Proof.
  revert its. induction xss as [|xs xss IH]; intros its Hl; [discriminate|].
  destruct its as [|x its].
  - destruct xss; [done|discriminate].
  - cbn [app]. rewrite !weave_cons, IH by (cbn in Hl; lia).
    rewrite weave_prepend. f_equal. symmetry. apply (weave_prepend [x]).
Qed.

(** ** Occurrences *)

Lemma occ_app l a b : occ l (a ++ b) = occ l a + occ l b.
Proof. apply count_occ_app. Qed.

Lemma occ_cons l x a : occ l (x :: a) = (if decide (x = l) then 1 else 0) + occ l a.
Proof. unfold occ. cbn. destruct (Nat.eq_dec x l), (decide (x = l)); congruence || lia. Qed.

Lemma occ_pos l a : l ∈ a → 1 ≤ occ l a.
Proof. intros Hl. apply list_elem_of_In in Hl. by apply (count_occ_In Nat.eq_dec) in Hl. Qed.

Lemma occ_zero l a : occ l a = 0 → l ∉ a.
Proof. intros Hz Hl. apply occ_pos in Hl. lia. Qed.

Lemma occ_Permutation l a b : a ≡ₚ b → occ l a = occ l b.
Proof. induction 1; rewrite ?occ_cons in *; lia. Qed.

Lemma indeg_insert H p n l :
  H !! p = None → indeg (<[p := n]> H) l = occ l (kids n) + indeg H l.
Proof.
  intros Hp. unfold indeg. rewrite map_fold_insert_L; [done| |done].
  intros. lia.
Qed.

Lemma indeg_delete H p n l :
  H !! p = Some n → indeg H l = occ l (kids n) + indeg (delete p H) l.
Proof.
  intros Hp. rewrite <-(indeg_insert (delete p H) p n l) by apply lookup_delete_eq.
  by rewrite insert_delete_id.
Qed.

(** A node's counter says nothing about where it points. *)
Lemma indeg_update H p n n' l :
  H !! p = Some n → kids n' = kids n → indeg (<[p := n']> H) l = indeg H l.
Proof.
  intros Hp Hk. rewrite <-insert_delete_eq, indeg_insert by apply lookup_delete_eq.
  rewrite Hk. symmetry. by apply indeg_delete.
Qed.

Lemma indeg_kid H p n l : H !! p = Some n → l ∈ kids n → 1 ≤ indeg H l.
Proof. intros Hp Hl. rewrite (indeg_delete _ _ _ _ Hp). apply occ_pos in Hl. lia. Qed.

Lemma kids_mknode its c h ds : kids (mknode its c (S h) ds) = r_loc <$> ds.
Proof. done. Qed.

Lemma kids_mknode_fits its c h ds k : fits h ds k → kids (mknode its c h ds) = r_loc <$> ds.
Proof. destruct h; cbn; [by intros ->|done]. Qed.

(** ** What a subtree depends on *)

Lemma rep_shape H H' h l k xs : same_shape H H' → rep H h l k xs → rep H' h l k xs.
Proof.
  intros Hs. revert l k xs.
  induction h as [|h IH]; cbn [rep]; intros l k xs (its & c & ds & Hl & ? & ? & ? & ? & Hk);
    destruct (Hs _ _ Hl) as (n' & Hn' & Hi & Hb);
    exists its, (rc n'), ds; (split; [rewrite Hn'; destruct n'; cbn in *; subst; done|]);
    split_and!; try done.
  eapply Forall_impl; [exact Hk|]. cbn. auto.
Qed.

Lemma rep_insert H h l k xs p n : H !! p = None → rep H h l k xs → rep (<[p := n]> H) h l k xs.
Proof.
  intros Hp. apply rep_shape. intros l' n' Hl. exists n'.
  rewrite lookup_insert_ne by congruence. done.
Qed.

Lemma rep_delete H h l k xs p :
  indeg (delete p H) p = 0 → l ≠ p → rep H h l k xs → rep (delete p H) h l k xs.
Proof.
  intros Hp. revert l k xs.
  induction h as [|h IH]; cbn [rep]; intros l k xs Hlp (its & c & ds & Hl & ? & ? & ? & ? & Hk);
    exists its, c, ds; rewrite lookup_delete_ne by done; split_and!; try done.
  apply Forall_forall. intros d Hd. rewrite Forall_forall in Hk. apply IH; [|by apply Hk].
  intros Hdp. enough (1 ≤ indeg (delete p H) p) by lia.
  eapply (indeg_kid _ l); [by rewrite lookup_delete_ne|].
  rewrite kids_mknode, <-Hdp. by apply list_elem_of_fmap_2.
Qed.

Lemma reps_delete H Γ p :
  refs (delete p H) Γ p = 0 → Forall (reps H) Γ → Forall (reps (delete p H)) Γ.
Proof.
  unfold refs. intros Hz HΓ. apply Forall_forall. intros d Hd. rewrite Forall_forall in HΓ.
  apply rep_delete; [lia| |by apply HΓ].
  intros Heq. assert (occ p (r_loc <$> Γ) = 0) as Hz' by lia. apply occ_zero in Hz'.
  apply Hz'. rewrite <-Heq. by apply list_elem_of_fmap_2.
Qed.
Lemma shape_trans H H' H'' : same_shape H H' → same_shape H' H'' → same_shape H H''.
Proof.
  intros Ha Hb l n Hl. destruct (Ha _ _ Hl) as (n' & Hn' & ? & ?).
  destruct (Hb _ _ Hn') as (n'' & ? & ? & ?). exists n''. split_and!; congruence.
Qed.

(** Changing a counter keeps what the node represents. *)
Lemma shape_rc H l n c : H !! l = Some n → same_shape H (<[l := set_rc c n]> H).
Proof.
  intros Hl l' m Hm. destruct (decide (l = l')) as [<-|Hne].
  - rewrite lookup_insert_eq. exists (set_rc c n). rewrite Hl in Hm. injection Hm as <-. done.
  - rewrite lookup_insert_ne by done. by exists m.
Qed.

Lemma shape_insert H l n : H !! l = None → same_shape H (<[l := n]> H).
Proof. intros Hl l' m Hm. exists m. rewrite lookup_insert_ne by congruence. done. Qed.

(** A node that one reference keeps alive, and nothing else, is not frozen. *)
Lemma frozen_unshared H Γ l :
  same_shape fz_nodes H → refs H Γ l ≤ occ l (r_loc <$> Γ) → fz_nodes !! l = None.
Proof.
  intros Hs Hr. unfold refs in Hr. destruct (fz_nodes !! l) as [n|] eqn:E; [|done]. exfalso.
  destruct (fz_held _ _ E) as [Hl|(p & m & Hp & Hl)].
  - apply occ_pos in Hl. lia.
  - destruct (Hs _ _ Hp) as (m' & Hm' & _ & Hb).
    assert (1 ≤ indeg H l); [|lia]. apply (indeg_kid _ p m'); [done|]. unfold kids. by rewrite Hb.
Qed.

Lemma shape_delete H l : same_shape fz_nodes H → fz_nodes !! l = None → same_shape fz_nodes (delete l H).
Proof.
  intros Hs Hl l' m Hm. rewrite lookup_delete_ne by congruence. by apply Hs.
Qed.
End own.
Arguments Frozen : clear implicits.

(** Nothing is frozen. *)
Definition nothing {K V} : Frozen K V.
Proof. refine (MkFrozen [] ∅ _ _); [constructor|]. intros l n Hl. by rewrite lookup_empty in Hl. Defined.
