(* ===== verification/BtreeRules.v ===== *)
(** The rules of the ownership assertion of [BtreeOwn.v], and the copy-on-write code of
    btype_btree.go against them: releaseNode, copyNode, cow0, cowChild. *)

From stdpp Require Import gmap.
From S2P Require Import Prelude Btree BtreeOwn.

(** * Running code *)

Section rules.
Context {K V : Type} `{F : !Frozen K V}.
Abbreviation node := (node K V).
Abbreviation ref := (@ref K V).
Abbreviation tree := (tree K V).
Abbreviation item := (K * V)%type.
Abbreviation store := (list node).
Implicit Types (σ : store) (O H : gmap nat node) (l : nat) (d : ref) (ds Γ : list ref) (t : tree).

(** [m] does not fault and ends with [Q]. *)
Definition runs {A} (m : sto K V A) σ (Q : A → store → Prop) : Prop :=
  match m σ with Some (a, σ') => Q a σ' | None => False end.

#[local] Arguments runs : simpl never.

Lemma runs_ret {A} (a : A) σ (Q : A → store → Prop) : Q a σ → runs (mret a) σ Q.
Proof. done. Qed.

Lemma runs_bind {A B} (m : sto K V A) (k : A → sto K V B) σ Q :
  runs m σ (λ a σ', runs (k a) σ' Q) → runs (m ≫= k) σ Q.
Proof. unfold runs, mbind, sto_bind. by destruct (m σ) as [[a σ']|]. Qed.

Lemma runs_mono {A} (m : sto K V A) σ (P Q : A → store → Prop) :
  runs m σ P → (∀ a σ', P a σ' → Q a σ') → runs m σ Q.
Proof. unfold runs. destruct (m σ) as [[a σ']|]; auto. Qed.

(** Two steps of a sequence at once. *)
Lemma runs_seq {A B C} (a : sto K V A) (b : sto K V B) (k : B → sto K V C) σ P Q :
  runs (a;; b) σ P → (∀ x σ', P x σ' → runs (k x) σ' Q) → runs (a;; x ← b; k x) σ Q.
Proof.
  unfold runs, mbind, sto_bind. destruct (a σ) as [[? σ']|]; [|done].
  destruct (b σ') as [[x σ'']|]; [|done]. intros HP HQ. by apply HQ.
Qed.

Lemma runs_load l n σ Q : σ !! l = Some n → Q n σ → runs (load l) σ Q.
Proof. unfold runs, load. by intros ->. Qed.

Lemma runs_set l n n' σ Q : σ !! l = Some n → Q () (<[l := n']> σ) → runs (set l n') σ Q.
Proof. unfold runs, set. by intros ->. Qed.

Lemma runs_alloc n σ Q : Q (length σ) (σ ++ [n]) → runs (alloc n) σ Q.
Proof. done. Qed.

Lemma runs_some {A} (a : A) o σ Q : o = Some a → Q a σ → runs (ofopt o) σ Q.
Proof. intros ->. done. Qed.

(** * The rules *)

Lemma own_open_lookup cp σ O Γ l n : own cp σ O Γ → O !! l = Some n → σ !! l = Some n.
Proof. intros [H Hw]. apply (ow_open _ _ _ _ _ Hw). Qed.

Lemma refs_app H Γ Γ' l : refs H (Γ ++ Γ') l =
  indeg H l + occ l (r_loc <$> Γ) + occ l (r_loc <$> Γ') + occ l (r_loc <$> fz_refs).
Proof. unfold refs. rewrite fmap_app, occ_app. lia. Qed.

Lemma own_perm cp σ O Γ Γ' : Γ ≡ₚ Γ' → own cp σ O Γ → own cp σ O Γ'.
Proof.
  intros Hp [H [H1 H2 H3 H4 H5 H6 H8 H7 H9]]. exists H.
  assert (∀ l, refs H Γ' l = refs H Γ l) as Hr.
  { intros l. unfold refs. by rewrite (occ_Permutation l (r_loc <$> Γ') (r_loc <$> Γ)) by by rewrite Hp. }
  split; try done.
  - intros l n. rewrite Hr. apply H4.
  - intros l n. rewrite Hr. apply H6.
  - intros l. rewrite Hr. apply H8.
  - by rewrite <-Hp.
Qed.

(** Forgetting references. *)
Lemma own_drop cp σ O Γ Γ' : own cp σ O (Γ ++ Γ') → own cp σ O Γ'.
Proof.
  intros [H [H1 H2 H3 H4 H5 H6 H8 H7 H9]]. exists H. split; try done.
  - intros l n Hl. destruct (H4 l n Hl) as [? Hr]. rewrite refs_app in Hr.
    split; [done|]. unfold refs. lia.
  - intros l n Hl. specialize (H6 l n Hl). rewrite refs_app in H6. unfold refs. lia.
  - intros l Hl. specialize (H8 l Hl). rewrite refs_app in H8. unfold refs. lia.
  - by apply Forall_app in H7 as [_ ?].
Qed.

(** Forgetting an open node. *)
Lemma own_forget cp σ O Γ l : own cp σ O Γ → own cp σ (delete l O) Γ.
Proof.
  intros [H [H1 H2 H3 H4 H5 H6 H8 H7 H9]]. exists H.
  split; try done; intros l' n Hl'; apply lookup_delete_Some in Hl' as [_ Hl']; eauto.
Qed.

(** The node a reference stands for. *)
Lemma reps_node H d : reps H d →
  ∃ its c ds, H !! r_loc d = Some (mknode its c (r_h d) ds) ∧ node_of d its ds ∧ Forall (reps H) ds.
Proof.
  intros Hd. unfold reps in Hd. destruct (r_h d) as [|h] eqn:Eh; cbn [rep] in Hd;
    destruct Hd as (its & c & ds & Hl & ? & ? & Hfit & ? & Hk); exists its, c, ds;
    unfold node_of; rewrite Eh; split_and!; try done.
  - cbn in Hfit. by subst.
  - cbn in Hfit. destruct Hfit as [_ Hfit]. rewrite Forall_forall in Hk, Hfit |- *.
    intros e He. unfold reps. destruct (Hfit e He) as [-> _]. by apply Hk.
Qed.

Lemma node_reps H d its c ds :
  H !! r_loc d = Some (mknode its c (r_h d) ds) → node_of d its ds → Forall (reps H) ds → reps H d.
Proof.
  unfold reps, node_of. intros Hl (? & ? & Hfit & ?) Hk.
  destruct (r_h d) as [|h]; cbn [rep]; exists its, c, ds; split_and!; try done.
  destruct Hfit as [_ Hfit]. rewrite Forall_forall in Hk, Hfit |- *. intros e He.
  specialize (Hk e He). unfold reps in Hk. by destruct (Hfit e He) as [<- _].
Qed.

(** A reference whose node's counter is zero is the only one, so the node can be opened. *)
Lemma own_open cp σ O Γ d :
  own cp σ O (d :: Γ) → private σ (r_loc d) →
  ∃ its ds, own cp σ (<[r_loc d := mknode its 0 (r_h d) ds]> O) (ds ++ Γ) ∧
    O !! r_loc d = None ∧ node_of d its ds.
Proof.
  intros [H [H1 H2 H3 H4 H5 H6 H8 H7 H9]] (n & Hn & Hrc).
  apply Forall_cons in H7 as [Hd HΓ].
  destruct (reps_node _ _ Hd) as (its & c & ds & Hl & Hnode & Hds).
  assert (c = 0%Z) as ->.
  { rewrite (H2 _ _ Hl) in Hn. injection Hn as <-. done. }
  set (n0 := mknode its 0 (r_h d) ds) in *.
  assert (kids n0 = r_loc <$> ds) as Hkids by by eapply kids_mknode_fits, Hnode.
  assert (O !! r_loc d = None) as HO.
  { destruct (O !! r_loc d) eqn:E; [|done]. apply H3 in E. congruence. }
  assert (∀ l, refs (delete (r_loc d) H) (ds ++ Γ) l + (if decide (r_loc d = l) then 1 else 0)
    = refs H (d :: Γ) l) as Href.
  { intros l. rewrite refs_app. unfold refs. rewrite fmap_cons, occ_cons.
    rewrite (indeg_delete _ _ _ l Hl), Hkids. lia. }
  exists its, ds. split_and!; try done. exists (delete (r_loc d) H).
  assert (refs (delete (r_loc d) H) (ds ++ Γ) (r_loc d) = 0) as Hself.
  { specialize (Href (r_loc d)). rewrite decide_True in Href by done.
    destruct (H4 _ _ Hl) as [_ Hle]. cbn in Hle. lia. }
  split.
  - intros l m Hlm. apply lookup_insert_Some in Hlm as [[<- <-]|[_ ?]]; eauto.
  - intros l m Hlm. apply lookup_delete_Some in Hlm as [_ ?]. eauto.
  - intros l m Hlm. apply lookup_insert_Some in Hlm as [[<- <-]|[? ?]]; [apply lookup_delete_eq|].
    rewrite lookup_delete_ne by done. eauto.
  - intros l m Hlm. apply lookup_delete_Some in Hlm as [Hne Hlm]. destruct (H4 _ _ Hlm).
    specialize (Href l). rewrite decide_False in Href by done. split; [done|lia].
  - intros l m ? Hlm. apply lookup_delete_Some in Hlm as [_ ?]. eauto.
  - intros l m Hlm. apply lookup_insert_Some in Hlm as [[<- <-]|[Hne Hlm]]; [done|].
    specialize (Href l). rewrite decide_False in Href by done. specialize (H6 _ _ Hlm). lia.
  - intros l Hlm. specialize (Href l). specialize (H8 _ Hlm). lia.
  - apply reps_delete; [done|]. apply Forall_app. done.
  - apply shape_delete; [done|]. apply (frozen_unshared H (d :: Γ)); [done|].
    destruct (H4 _ _ Hl) as [_ Hle]. unfold refs in Hle |- *. cbn [rc mknode] in Hle.
    rewrite fmap_cons, occ_cons, decide_True in Hle |- * by done. cbn in Hle. lia.
Qed.

(** The converse. *)
Lemma own_close cp σ O Γ d its ds :
  own cp σ O (ds ++ Γ) → O !! r_loc d = Some (mknode its 0 (r_h d) ds) → node_of d its ds →
  own cp σ (delete (r_loc d) O) (d :: Γ).
Proof.
  intros [H [H1 H2 H3 H4 H5 H6 H8 H7 H9]] Hl Hnode. set (l := r_loc d) in *.
  set (n := mknode its 0 (r_h d) ds) in *.
  assert (kids n = r_loc <$> ds) as Hkids by by eapply kids_mknode_fits, Hnode.
  assert (H !! l = None) as HH by eauto.
  assert (∀ l', refs (<[l := n]> H) (d :: Γ) l' =
    refs H (ds ++ Γ) l' + (if decide (l = l') then 1 else 0)) as Href.
  { intros l'. rewrite refs_app. unfold refs. rewrite fmap_cons, occ_cons, indeg_insert, Hkids by done.
    fold l. lia. }
  apply Forall_app in H7 as [Hds HΓ]. exists (<[l := n]> H). split.
  - intros l' m Hm. apply lookup_delete_Some in Hm as [_ ?]. eauto.
  - intros l' m Hm. apply lookup_insert_Some in Hm as [[<- <-]|[_ ?]]; eauto.
  - intros l' m Hm. apply lookup_delete_Some in Hm as [? ?]. rewrite lookup_insert_ne by done. eauto.
  - intros l' m Hm. rewrite Href. apply lookup_insert_Some in Hm as [[<- <-]|[Hne Hm]].
    + rewrite (H6 _ _ Hl), decide_True by done. cbn. lia.
    + rewrite decide_False by done. destruct (H4 _ _ Hm). split; [done|lia].
  - intros l' m ? Hm. apply lookup_insert_Some in Hm as [[<- <-]|[_ ?]]; [done|eauto].
  - intros l' m Hm. apply lookup_delete_Some in Hm as [Hne ?]. rewrite Href, decide_False by done.
    erewrite H6 by done. lia.
  - intros l' Hl'. rewrite Href, H8 by done. apply H1, lookup_lt_Some in Hl.
    rewrite decide_False by lia. done.
  - constructor.
    + eapply node_reps; [apply lookup_insert_eq|done|].
      eapply Forall_impl; [exact Hds|]. intros e. by apply rep_insert.
    + eapply Forall_impl; [exact HΓ|]. intros e. by apply rep_insert.
  - eapply shape_trans; [exact H9|]. by apply shape_insert.
Qed.

(** Writing to an open node. *)
Lemma own_write cp σ O Γ l n n' :
  own cp σ O Γ → O !! l = Some n → own cp (<[l := n']> σ) (<[l := n']> O) Γ.
Proof.
  intros [H [H1 H2 H3 H4 H5 H6 H8 H7 H9]] Hl. exists H.
  assert (l < length σ) by (eapply lookup_lt_Some, H1, Hl). split; try done.
  - intros l' m Hm. apply lookup_insert_Some in Hm as [[<- <-]|[? ?]].
    + by apply list_lookup_insert_eq.
    + rewrite list_lookup_insert_ne by done. eauto.
  - intros l' m Hm. rewrite list_lookup_insert_ne; [eauto|]. intros ->.
    rewrite (H3 _ _ Hl) in Hm. done.
  - intros l' m Hm. apply lookup_insert_Some in Hm as [[<- <-]|[? ?]]; eauto.
  - intros l' m Hm. apply lookup_insert_Some in Hm as [[<- <-]|[? ?]]; eauto.
  - intros l'. rewrite length_insert. apply H8.
Qed.

(** A new node is open. *)
Lemma owned_alloc cp σ O Γ n H :
  owned cp σ O Γ H → owned cp (σ ++ [n]) (<[length σ := n]> O) Γ H ∧ O !! length σ = None.
Proof.
  intros [H1 H2 H3 H4 H5 H6 H8 H7 H9].
  assert (∀ l (m : node), σ !! l = Some m → l ≠ length σ) as Hne.
  { intros l m Hm ->. apply lookup_lt_Some in Hm. lia. }
  split; [|destruct (O !! length σ) eqn:E; [apply H1, Hne in E; done|done]].
  split; try done.
  - intros l m Hm. apply lookup_insert_Some in Hm as [[<- <-]|[_ Hm]].
    + by apply list_lookup_middle.
    + apply lookup_app_l_Some. eauto.
  - intros l m Hm. apply lookup_app_l_Some. eauto.
  - intros l m Hm. apply lookup_insert_Some in Hm as [[<- <-]|[_ Hm]]; [|eauto].
    destruct (H !! length σ) eqn:E; [apply H2, Hne in E; done|done].
  - intros l m Hm. apply lookup_insert_Some in Hm as [[<- <-]|[_ Hm]]; [by apply H8|eauto].
  - intros l Hl. rewrite length_app in Hl. apply H8. lia.
Qed.

Lemma runs_newNode cp σ O Γ (isleaf : bool) Q :
  own cp σ O Γ →
  (∀ l σ', own cp σ' (<[l := MkNode [] 0 (if isleaf then None else Some (MkBranch [] []))]> O) Γ →
    O !! l = None → Q l σ') →
  runs (newNode isleaf) σ Q.
Proof.
  intros [H Hw] HQ. apply runs_alloc.
  destruct (owned_alloc _ _ _ _ (MkNode [] 0 (if isleaf then None else Some (MkBranch [] []))) _ Hw).
  apply HQ; [by exists H|done].
Qed.

Lemma runs_load_open cp σ O Γ l n Q :
  own cp σ O Γ → O !! l = Some n → Q n σ → runs (load l) σ Q.
Proof. intros Ho Hl. apply runs_load. by eapply own_open_lookup. Qed.

Lemma runs_set_open cp σ O Γ l n n' Q :
  own cp σ O Γ → O !! l = Some n →
  (∀ σ', own cp σ' (<[l := n']> O) Γ → Q () σ') → runs (set l n') σ Q.
Proof.
  intros Ho Hl HQ. eapply runs_set; [by eapply own_open_lookup|]. eapply HQ. by eapply own_write.
Qed.

(** Only the node [l] was written. *)
Definition only l σ σ' : Prop := ∀ l', l' ≠ l → σ' !! l' = σ !! l'.

Lemma only_refl l σ : only l σ σ.
Proof. done. Qed.

Lemma only_trans l σ σ' σ'' : only l σ σ' → only l σ' σ'' → only l σ σ''.
Proof. intros H1 H2 l' Hl. by rewrite H2, H1. Qed.

Lemma only_private l l' σ σ' : only l σ σ' → l' ≠ l → private σ l' → private σ' l'.
Proof. intros H Hl (n & Hn & Hrc). exists n. by rewrite H. Qed.

Lemma runs_set_only cp σ O Γ l n n' Q :
  own cp σ O Γ → O !! l = Some n →
  (∀ σ', own cp σ' (<[l := n']> O) Γ → only l σ σ' → Q () σ') → runs (set l n') σ Q.
Proof.
  intros Ho Hl HQ. eapply runs_set; [by eapply own_open_lookup|]. eapply HQ; [by eapply own_write|].
  intros l' Hne. by apply list_lookup_insert_ne.
Qed.

(** ** Sharing and releasing *)

Lemma owned_rc cp σ O Γ Γ' H l n c :
  owned cp σ O Γ H → H !! l = Some n → cp = true → (0 ≤ c)%Z →
  (∀ l', l' ≠ l → occ l' (r_loc <$> Γ') = occ l' (r_loc <$> Γ)) →
  (Z.of_nat (refs H Γ' l) ≤ c + 1)%Z →
  Forall (reps H) Γ' →
  owned true (<[l := set_rc c n]> σ) O Γ' (<[l := set_rc c n]> H).
Proof.
  intros [H1 H2 H3 H4 H5 H6 H8 H7 H9] Hl -> Hc Hne Hle HΓ'.
  assert (l < length σ) by (eapply lookup_lt_Some, H2, Hl).
  assert (∀ l', l' ≠ l → refs (<[l := set_rc c n]> H) Γ' l' = refs H Γ l') as Href.
  { intros l' Hn. unfold refs. by rewrite Hne, (indeg_update _ _ n) by done. }
  split; try done.
  - intros l' m Hm. rewrite list_lookup_insert_ne; [eauto|]. intros ->. apply H3 in Hm. congruence.
  - intros l' m Hm. apply lookup_insert_Some in Hm as [[<- <-]|[? ?]].
    + by apply list_lookup_insert_eq.
    + rewrite list_lookup_insert_ne by done. eauto.
  - intros l' m Hm. rewrite lookup_insert_ne; [eauto|]. intros ->. apply H3 in Hm. congruence.
  - intros l' m Hm. apply lookup_insert_Some in Hm as [[<- <-]|[? Hm]].
    + unfold refs. rewrite (indeg_update _ _ n) by done. done.
    + rewrite Href by done. eauto.
  - intros l' m Hm. rewrite Href; [eauto|]. intros ->. apply H3 in Hm. congruence.
  - intros l' Hl'. rewrite length_insert in Hl'. rewrite Href by lia. auto.
  - eapply Forall_impl; [exact HΓ'|]. intros e. apply rep_shape. by apply shape_rc.
  - eapply shape_trans; [exact H9|]. by apply shape_rc.
Qed.

(** Raising a counter pays for one more reference. *)
Lemma add_rc_share σ O Γ H d :
  owned true σ O Γ H → reps H d →
  runs (add_rc (r_loc d) 1) σ (λ _ σ', ∃ H', owned true σ' O (d :: Γ) H' ∧ same_shape H H').
Proof.
  intros Hw Hd. destruct (reps_node _ _ Hd) as (its & c & ds & Hl & _).
  pose proof (ow_closed _ _ _ _ _ Hw _ _ Hl) as Hσ. destruct (ow_rc _ _ _ _ _ Hw _ _ Hl) as [Hpos Hle].
  unfold add_rc. apply runs_bind. eapply runs_load; [done|]. apply runs_bind.
  eapply runs_set; [done|]. apply runs_ret. eexists. split; [|by apply shape_rc].
  apply (owned_rc true σ O Γ); try done.
  - lia.
  - intros l' Hne. rewrite fmap_cons, occ_cons, decide_False by congruence. done.
  - unfold refs in *. rewrite fmap_cons, occ_cons, decide_True by done. lia.
  - constructor; [done|]. apply (ow_reps _ _ _ _ _ Hw).
Qed.

Lemma share_all σ O Γ H ds :
  owned true σ O Γ H → Forall (reps H) ds →
  runs (each (λ c, add_rc c 1;; mret ()) (r_loc <$> ds)) σ (λ _ σ', own true σ' O (ds ++ Γ)).
Proof.
  intros Hw Hds. enough (runs (each (λ c, add_rc c 1;; mret ()) (r_loc <$> ds)) σ
    (λ _ σ', own true σ' O (reverse ds ++ Γ))) as Hr.
  { eapply runs_mono; [exact Hr|]. cbn. intros _ σ'. apply own_perm. by rewrite reverse_Permutation. }
  revert σ H Γ Hw Hds. induction ds as [|d ds IH]; intros σ H Γ Hw Hds.
  - apply runs_ret. by exists H.
  - apply Forall_cons in Hds as [Hd Hds]. cbn [fmap list_fmap each]. apply runs_bind, runs_bind.
    eapply runs_mono; [by eapply add_rc_share|]. cbv beta. intros _ σ' (H' & Hw' & Hs). apply runs_ret.
    rewrite reverse_cons, <-(assoc_L (++)). apply (IH σ' H' (d :: Γ)); [exact Hw'|].
    eapply Forall_impl; [exact Hds|]. intros e. by apply rep_shape.
Qed.

Lemma own_counter cp σ O Γ d :
  own cp σ O (d :: Γ) → ∃ n, σ !! r_loc d = Some n ∧ (0 ≤ rc n)%Z.
Proof.
  intros [H Hw]. pose proof (ow_reps _ _ _ _ _ Hw) as HΓ. apply Forall_cons in HΓ as [Hd _].
  destruct (reps_node _ _ Hd) as (its & c & ds & Hl & _).
  eexists. split; [by eapply ow_closed|]. by destruct (ow_rc _ _ _ _ _ Hw _ _ Hl).
Qed.

Lemma release_all fuel cp σ O Γ ds :
  (∀ σ e, e ∈ ds → ∀ O Γ, own cp σ O (e :: Γ) →
    runs (releaseNode fuel (r_loc e)) σ (λ _ σ', own cp σ' O Γ)) →
  own cp σ O (ds ++ Γ) →
  runs (each (releaseNode fuel) (r_loc <$> ds)) σ (λ _ σ', own cp σ' O Γ).
Proof.
  revert σ. induction ds as [|d ds IH]; intros σ Hone Ho; [by apply runs_ret|].
  cbn [fmap list_fmap each]. apply runs_bind. eapply runs_mono; [apply Hone; [set_solver|exact Ho]|].
  cbn. intros _ σ' Ho'. apply IH; [|done]. intros. apply Hone; [set_solver|done].
Qed.

(** Giving a reference back: its node loses one count or, when that was the last, dies and releases its
    children. *)
Lemma releaseNode_ok fuel cp σ O Γ d :
  own cp σ O (d :: Γ) → r_h d < fuel →
  runs (releaseNode fuel (r_loc d)) σ (λ _ σ', own cp σ' O Γ).
Proof.
  revert σ O Γ d. induction fuel as [|fuel IH]; intros σ O Γ d Ho Hf; [lia|].
  cbn [releaseNode]. unfold add_rc. destruct (own_counter _ _ _ _ _ Ho) as (n & Hn & Hpos).
  destruct (decide (rc n = 0%Z)) as [Hz|Hz].
  - destruct (own_open cp σ O Γ d Ho) as (its & ds & Ho' & HO & (_ & _ & Hfit & _)); [by exists n|].
    apply runs_bind, runs_bind. eapply runs_load_open; [exact Ho'|apply lookup_insert_eq|].
    apply runs_bind. eapply runs_set_open; [exact Ho'|apply lookup_insert_eq|].
    rewrite insert_insert_eq. intros σ1 Ho1. apply runs_ret.
    change (rc (mknode its 0 (r_h d) ds) + -1 <? 0)%Z with true. cbn iota.
    apply runs_bind. eapply runs_load_open; [exact Ho1|apply lookup_insert_eq|].
    enough (∀ σ2, own cp σ2 (<[r_loc d := set_rc (rc (mknode its 0 (r_h d) ds) + -1)
        (mknode its 0 (r_h d) ds)]> O) Γ → own cp σ2 O Γ) as Hend.
    + destruct (r_h d) as [|h]; cbn.
      * cbn in Hfit. subst ds. apply runs_ret. by apply Hend.
      * destruct Hfit as [_ Hfit]. eapply runs_mono; [apply (release_all fuel cp _ (<[r_loc d := set_rc (rc (mknode its 0 (S h) ds) + -1) (mknode its 0 (S h) ds)]> O) Γ ds)|].
        -- intros σ2 e He O' Γ' He'. rewrite Forall_forall in Hfit. destruct (Hfit e He) as [? _].
           apply IH; [done|lia].
        -- exact Ho1.
        -- intros a σ2. apply Hend.
    + intros σ2 Ho2. apply own_forget with (l := r_loc d) in Ho2.
      by rewrite delete_insert_eq, delete_id in Ho2.
  - destruct Ho as [H Hw]. 
    pose proof (ow_reps _ _ _ _ _ Hw) as HΓ. apply Forall_cons in HΓ as [Hd HΓ].
    destruct (reps_node _ _ Hd) as (its & c & ds & Hl & _).
    pose proof (ow_closed _ _ _ _ _ Hw _ _ Hl) as Hσ. destruct (ow_rc _ _ _ _ _ Hw _ _ Hl) as [_ Hle].
    rewrite Hσ in Hn. injection Hn as <-.
    assert (cp = true) as ->.
    { destruct cp; [done|]. destruct Hz. by apply (ow_cp _ _ _ _ _ Hw _ _ eq_refl Hl). }
    apply runs_bind, runs_bind. eapply runs_load; [done|]. apply runs_bind.
    eapply runs_set; [done|]. apply runs_ret. cbn [rc mknode] in *.
    replace (c + -1 <? 0)%Z with false by (symmetry; apply Z.ltb_ge; lia). apply runs_ret.
    eexists. apply (owned_rc true σ O (d :: Γ)); try done.
    + lia.
    + intros l' Hne. rewrite fmap_cons, occ_cons, decide_False by congruence. done.
    + unfold refs in *. rewrite fmap_cons, occ_cons, decide_True in Hle by done. lia.
Qed.
(** ** Copy-on-write *)

Lemma leaf_mknode its c h ds : leaf (mknode its c h ds) = match h with O => true | S _ => false end.
Proof. by destruct h. Qed.

Lemma copyNode_ok σ O Γ d :
  own true σ O (d :: Γ) →
  runs (copyNode (r_loc d)) σ (λ n2 σ', ∃ its ds, O !! n2 = None ∧ node_of d its ds ∧
    own true σ' (<[n2 := mknode its 0 (r_h d) ds]> O) (ds ++ d :: Γ)).
Proof.
  intros [H Hw].
  pose proof (ow_reps _ _ _ _ _ Hw) as HΓ. apply Forall_cons in HΓ as [Hd _].
  destruct (reps_node _ _ Hd) as (its & c & ds & Hl & Hnode & Hds).
  unfold copyNode. apply runs_bind. eapply runs_load; [by eapply ow_closed|].
  apply runs_bind. unfold newNode. apply runs_alloc.
  set (n0 := MkNode [] 0 (if leaf (mknode its c (r_h d) ds) then None else Some (MkBranch [] []))).
  destruct (owned_alloc _ _ _ _ n0 _ Hw) as [Hw' HO].
  apply runs_bind.
  eapply runs_mono with (P := λ _ σ', own true σ' (<[length σ := n0]> O) (ds ++ d :: Γ)).
  - clearbody n0. destruct (r_h d) as [|h] eqn:Eh; cbn [nbranch mknode children].
    + apply runs_ret. destruct Hnode as (_ & _ & Hfit & _). rewrite Eh in Hfit. cbn in Hfit. subst.
      by exists H.
    + by eapply share_all.
  - intros [] σ' Ho. apply runs_bind. eapply runs_set_open; [exact Ho|apply lookup_insert_eq|].
    intros σ2 Ho2. apply runs_ret. rewrite insert_insert_eq in Ho2.
    exists its, ds. split_and!; done.
Qed.

(** The copy replaces the reference to the original. *)
Lemma cow0_ok fuel σ O Γ d :
  own true σ O (d :: Γ) → r_h d < fuel →
  runs (cow0 fuel (r_loc d)) σ (λ n2 σ', ∃ its ds, O !! n2 = None ∧ node_of d its ds ∧
    own true σ' (<[n2 := mknode its 0 (r_h d) ds]> O) (ds ++ Γ)).
Proof.
  intros Ho Hf. unfold cow0. apply runs_bind. eapply runs_mono; [by apply copyNode_ok|].
  intros n2 σ' (its & ds & ? & ? & Ho'). apply runs_bind.
  eapply own_perm in Ho'; [|symmetry; apply Permutation_middle].
  eapply runs_mono; [by eapply releaseNode_ok|]. intros [] σ2 Ho2. apply runs_ret. by exists its, ds.
Qed.

(** Nothing is shared before the first copy. *)
Lemma own_uncopied σ O Γ d : own false σ O Γ → d ∈ Γ → private σ (r_loc d).
Proof.
  intros [H Hw] Hd. pose proof (ow_reps _ _ _ _ _ Hw) as HΓ. rewrite Forall_forall in HΓ.
  destruct (reps_node _ _ (HΓ d Hd)) as (? & ? & ? & Hl & _).
  eexists. split; [by apply (ow_closed _ _ _ _ _ Hw)|]. by apply (ow_cp _ _ _ _ _ Hw _ _ eq_refl Hl).
Qed.

(** A write of slot [i] of the children. *)
Lemma mknode_child its h (ds1 ds2 : list ref) d c n :
  length ds1 = n → r_xs c = r_xs d →
  set_branch (Some (MkBranch (<[n := r_loc c]> (r_loc <$> ds1 ++ d :: ds2))
    ((λ d, zlen (r_xs d)) <$> ds1 ++ d :: ds2))) (mknode its 0 (S h) (ds1 ++ d :: ds2)) =
  mknode its 0 (S h) (ds1 ++ c :: ds2).
Proof.
  intros <- Hxs. unfold set_branch, mknode. cbn [items rc]. f_equal. f_equal.
  rewrite !fmap_app, !fmap_cons, Hxs. f_equal. rewrite <-(length_fmap r_loc ds1).
  by rewrite insert_app_r_alt, Nat.sub_diag by lia.
Qed.

(** cowChild leaves the child of slot [i] private; here it is opened at once. *)
Lemma cowChild_ok fuel t σ O Γ n i its h ds1 d ds2 :
  own (copied t) σ O (d :: Γ) →
  O !! n = Some (mknode its 0 (S h) (ds1 ++ d :: ds2)) → length ds1 = i → r_h d < fuel →
  runs (cowChild fuel t n i true) σ (λ _ σ', ∃ c cits cds, 
    let d' := MkRef c (r_h d) (r_len d) (r_xs d) in
    O !! c = None ∧ node_of d' cits cds ∧
    own (copied t) σ' (<[c := mknode cits 0 (r_h d) cds]> (<[n := mknode its 0 (S h) (ds1 ++ d' :: ds2)]> O))
      (cds ++ Γ)).
Proof.
  intros Ho Hn Hi Hf.
  assert (private σ (r_loc d) → ∃ c cits cds, let d' := MkRef c (r_h d) (r_len d) (r_xs d) in
    O !! c = None ∧ node_of d' cits cds ∧
    own (copied t) σ (<[c := mknode cits 0 (r_h d) cds]> (<[n := mknode its 0 (S h) (ds1 ++ d' :: ds2)]> O))
      (cds ++ Γ)) as Hpriv.
  { intros Hp. destruct (own_open _ _ _ _ _ Ho Hp) as (cits & cds & Ho' & HO & Hnode).
    exists (r_loc d), cits, cds. cbn. split_and!; [done|by destruct d|].
    destruct d; cbn in *. by rewrite (insert_id O n). }
  destruct (own_counter _ _ _ _ _ Ho) as (m & Hm & Hpos).
  unfold cowChild. destruct (copied t) eqn:Ecp; cbn [andb].
  2:{ apply runs_ret, Hpriv. eapply own_uncopied; [exact Ho|set_solver]. }
  assert ((r_loc <$> ds1 ++ d :: ds2) !! i = Some (r_loc d)) as Hslot.
  { rewrite fmap_app, fmap_cons, lookup_app_r by (rewrite length_fmap; lia).
    by rewrite length_fmap, Hi, Nat.sub_diag. }
  apply runs_bind. eapply runs_load_open; [exact Ho|exact Hn|].
  apply runs_bind. unfold child, the_branch. apply runs_bind. eapply runs_some; [done|].
  cbn [children]. eapply runs_some; [exact Hslot|].
  apply runs_bind. eapply runs_load; [exact Hm|].
  destruct (0 <? rc m)%Z eqn:Erc.
  - apply runs_bind. eapply runs_mono; [by apply cow0_ok|].
    intros c σ' (cits & cds & HO & Hnode & Ho'). unfold set_child.
    assert (c ≠ n) as Hcn by congruence.
    apply runs_bind. eapply runs_load_open; [exact Ho'|by rewrite lookup_insert_ne|].
    apply runs_bind. eapply runs_some; [done|].
    eapply runs_set_open; [exact Ho'|by rewrite lookup_insert_ne|].
    intros σ2 Ho2. exists c, cits, cds. cbn. split_and!; [done|by destruct d|].
    cbn [children counts] in Ho2.
    pose proof (mknode_child its h ds1 ds2 d (MkRef c (r_h d) (r_len d) (r_xs d)) i Hi eq_refl) as E.
    cbn [r_loc] in E. rewrite E in Ho2.
    by rewrite insert_insert_ne in Ho2.
  - apply runs_ret, Hpriv. exists m. split; [done|]. apply Z.ltb_ge in Erc. lia.
Qed.
End rules.
