(* ===== verification/BtreeDelete.v ===== *)
(** Deletions from the B-tree of btype_btree.go: rebalance restores the shape of a branch one of whose
    children lost an item, and the descents remove exactly the item they should. *)

From stdpp Require Import gmap.
From S2P Require Import Prelude Btree BtreeOwn BtreeRules.

(** Equalities between maps of open nodes that differ in the order of updates. *)
Ltac solve_open :=
  apply map_eq; intros ?j;
  rewrite ?lookup_insert, ?lookup_delete; rewrite ?lookup_insert, ?lookup_delete;
  repeat case_decide; simplify_eq; try congruence.

(** Says what the node last written is. *)
Tactic Notation "written" ident(H) "as" uconstr(N) "by" tactic3(tac) :=
  match type of H with own _ _ (<[_ := ?M]> _) _ =>
    let E := fresh in assert (M = N) as E by tac; rewrite E in H; clear E end.

Section delete.
Context {K V : Type} `{F : !Frozen K V}.
Abbreviation node := (node K V).
Abbreviation ref := (@ref K V).
Abbreviation tree := (tree K V).
Abbreviation item := (K * V)%type.
Abbreviation store := (list node).
Implicit Types (σ : store) (O H : gmap nat node) (l : nat) (d : ref) (ds Γ : list ref) (t : tree).

Definition sizes ds : list Z := (λ d, zlen (r_xs d)) <$> ds.

Lemma length_sizes ds : length (sizes ds) = length ds.
Proof. apply length_fmap. Qed.

(** What the store holds for a reference. *)
Lemma own_node cp σ O Γ d :
  own cp σ O Γ → d ∈ Γ →
  ∃ its c ds, σ !! r_loc d = Some (mknode its c (r_h d) ds) ∧ node_of d its ds.
Proof.
  intros [H Hw] Hd. pose proof (ow_reps _ _ _ _ _ Hw) as HΓ. rewrite Forall_forall in HΓ.
  destruct (reps_node _ _ (HΓ d Hd)) as (its & c & ds & Hl & ? & _).
  exists its, c, ds. split; [by eapply ow_closed|done].
Qed.

Lemma zlen_weave {A} (xss : list (list A)) (its : list A) :
  zlen (weave xss its) = (zlen its + foldr Z.add 0 (zlen <$> xss))%Z.
Proof.
  revert its. induction xss as [|xs xss IH]; intros its; [rewrite weave_nil; cbn [fmap list_fmap foldr]; lia|].
  destruct its as [|x its].
  - destruct xss as [|ys xss]; [cbn; change (zlen (@nil A)) with 0%Z; lia|].
    change (weave (xs :: ys :: xss) []) with (xs ++ weave (ys :: xss) []).
    rewrite zlen_app, IH. cbn [fmap list_fmap foldr]. change (zlen (@nil A)) with 0%Z. lia.
  - rewrite weave_cons, zlen_app, !zlen_cons, IH. cbn [fmap list_fmap foldr]. lia.
Qed.

(** count() of a node is the size of its subtree. *)
Lemma count_mknode d its c ds : node_of d its ds → count (mknode its c (r_h d) ds) = zlen (r_xs d).
Proof.
  intros (_ & _ & Hfit & ->). unfold count, contents. rewrite zlen_weave.
  destruct (r_h d); cbn in *; [by subst|]. do 2 f_equal. by rewrite <-list_fmap_compose.
Qed.

Lemma own_close' cp σ O Γ d its ds :
  own cp σ O (ds ++ Γ) → O !! r_loc d = Some (mknode its 0 (r_h d) ds) → node_of d its ds →
  own cp σ (delete (r_loc d) O) (d :: Γ) ∧ private σ (r_loc d).
Proof.
  intros Ho Hl Hn. split; [by eapply own_close|]. eexists. split; [by eapply own_open_lookup|done].
Qed.

(** ** Recounting *)

Lemma recount_at cp σ O Γ n its ds1 a ds2 ns1 x ns2 :
  own cp σ O Γ →
  O !! n = Some (MkNode its 0 (Some (MkBranch (r_loc <$> ds1 ++ a :: ds2) (ns1 ++ x :: ns2)))) →
  a ∈ Γ → length ns1 = length ds1 →
  runs (recount n (length ds1)) σ (λ _ σ', only n σ σ' ∧ own cp σ' (<[n := MkNode its 0
    (Some (MkBranch (r_loc <$> ds1 ++ a :: ds2) (ns1 ++ zlen (r_xs a) :: ns2)))]> O) Γ).
Proof.
  intros Ho Hn Ha Hlen. unfold recount.
  destruct (own_node _ _ _ _ a Ho Ha) as (cits & c & cds & Hl & Hnode).
  apply runs_bind. eapply runs_load_open; [exact Ho|exact Hn|].
  apply runs_bind. eapply runs_some; [done|]. cbn [children counts].
  rewrite list_lookup_fmap, list_lookup_middle by done. cbn [fmap option_fmap option_map].
  apply runs_bind, runs_bind. eapply runs_load; [exact Hl|]. apply runs_ret.
  rewrite (count_mknode a) by done. unfold upd_count.
  apply runs_bind. eapply runs_load_open; [exact Ho|exact Hn|].
  apply runs_bind. eapply runs_some; [done|]. eapply runs_set_only; [exact Ho|exact Hn|].
  intros σ' Ho' Honly. split; [done|]. revert Ho'. unfold set_branch. cbn [children counts items rc].
  by rewrite alter_app_r_alt, <-Hlen, Nat.sub_diag by lia.
Qed.

(** Past the last child there is nothing to count. *)
Lemma recount_past cp σ O Γ n its ds ns i :
  own cp σ O Γ → O !! n = Some (MkNode its 0 (Some (MkBranch (r_loc <$> ds) ns))) →
  length ds ≤ i → length ns ≤ i →
  runs (recount n i) σ (λ _ σ', only n σ σ' ∧ own cp σ' O Γ).
Proof.
  intros Ho Hn Hds Hns. unfold recount.
  apply runs_bind. eapply runs_load_open; [exact Ho|exact Hn|].
  apply runs_bind. eapply runs_some; [done|]. cbn [children counts].
  rewrite list_lookup_fmap, lookup_ge_None_2 by lia. cbn [fmap option_fmap option_map].
  apply runs_bind, runs_ret. unfold upd_count.
  apply runs_bind. eapply runs_load_open; [exact Ho|exact Hn|].
  apply runs_bind. eapply runs_some; [done|]. eapply runs_set_only; [exact Ho|exact Hn|].
  intros σ' Ho' Honly. split; [done|]. revert Ho'. unfold set_branch. cbn [children counts items rc].
  replace (alter (λ _ : Z, 0%Z) i ns) with ns; [by rewrite (insert_id O n)|].
  apply list_eq. intros j. destruct (decide (i = j)) as [<-|]; [|by rewrite list_lookup_alter_ne].
  by rewrite list_lookup_alter_eq, lookup_ge_None_2 by lia.
Qed.

(** The two recounts at the end of a split or a repair: all counts are right after them. *)
Lemma recount_both cp σ O Γ n its h ds1 a ds2 x ns2 :
  own cp σ O Γ →
  O !! n = Some (MkNode its 0 (Some (MkBranch (r_loc <$> ds1 ++ a :: ds2) (sizes ds1 ++ x :: ns2)))) →
  (∀ d, d ∈ ds1 ++ a :: ds2 → d ∈ Γ) → length ns2 = length ds2 → drop 1 ns2 = drop 1 (sizes ds2) →
  runs (recount n (length ds1);; recount n (S (length ds1))) σ
    (λ _ σ', only n σ σ' ∧ own cp σ' (<[n := mknode its 0 (S h) (ds1 ++ a :: ds2)]> O) Γ).
Proof.
  intros Ho Hn Hin Hlen Hdrop. apply runs_bind.
  assert (length (sizes ds1) = length ds1) as Hs1 by apply length_fmap.
  eapply runs_mono; [eapply recount_at; [exact Ho|exact Hn|apply Hin; set_solver|done]|].
  cbv beta. intros _ σ1 [Honly Ho1]. destruct ds2 as [|b ds2], ns2 as [|y ns2]; try discriminate.
  - eapply runs_mono.
    + eapply recount_past; [exact Ho1|apply lookup_insert_eq| |]; rewrite length_app; cbn; lia.
    + cbv beta. intros _ σ2 [Honly2 Ho2]. split; [by eapply only_trans|]. revert Ho2. unfold mknode. by rewrite fmap_app, (fmap_app _ ds1).
  - rewrite (cons_middle a ds1), (cons_middle (zlen (r_xs a)) (sizes ds1)), !(assoc_L (++)) in Ho1.
    rewrite (cons_middle a ds1), (assoc_L (++)) in Hin |- *.
    replace (S (length ds1)) with (length (ds1 ++ [a])) by (rewrite length_app; cbn; lia).
    eapply runs_mono.
    + eapply recount_at; [exact Ho1|apply lookup_insert_eq|apply Hin; set_solver|].
      rewrite !length_app. cbn. lia.
    + cbv beta. intros _ σ2 [Honly2 Ho2]. split; [by eapply only_trans|]. revert Ho2. rewrite insert_insert_eq. unfold mknode. change (ns2 = sizes ds2) in Hdrop. subst ns2.
      by rewrite !(fmap_app (λ d, zlen (r_xs d))).
Qed.

(** ** Nodes put together and taken apart *)

Lemma fits_join h ds1 ds2 k1 k2 : fits h ds1 k1 → fits h ds2 k2 → fits h (ds1 ++ ds2) (k1 + S k2).
Proof.
  destruct h; cbn; [intros -> ->; done|]. rewrite length_app, Forall_app. intros [? ?] [? ?].
  split; [lia|done].
Qed.

Lemma contents_join h its1 x its2 ds1 ds2 :
  fits h ds1 (length its1) → fits h ds2 (length its2) →
  contents (its1 ++ x :: its2) (ds1 ++ ds2) = contents its1 ds1 ++ x :: contents its2 ds2.
Proof.
  unfold contents. destruct h; cbn.
  - intros -> ->. cbn [app fmap list_fmap]. by rewrite !weave_nil.
  - intros [? _] _. rewrite fmap_app. apply weave_join. by rewrite length_fmap.
Qed.

Lemma fits_split h ds k1 k2 : fits h ds (k1 + S k2) →
  ∃ ds1 ds2, ds = ds1 ++ ds2 ∧ fits h ds1 k1 ∧ fits h ds2 k2.
Proof.
  destruct h; cbn; [intros ->; by exists [], []|]. intros [Hl Hf].
  exists (take (S k1) ds), (drop (S k1) ds). rewrite take_drop. split_and!; try done.
  - rewrite length_take. lia.
  - by apply Forall_take.
  - rewrite length_drop. lia.
  - by apply Forall_drop.
Qed.

Lemma mknode_items its c h ds : items (mknode its c h ds) = its.
Proof. done. Qed.

Lemma len_mknode its c h ds : len (mknode its c h ds) = length its.
Proof. done. Qed.

Lemma join_node h its1 its2 x ds1 ds2 :
  MkNode (its1 ++ x :: its2) 0
    match nbranch (mknode its1 0 h ds1), nbranch (mknode its2 0 h ds2) with
    | Some lb, Some rb => Some (MkBranch (children lb ++ children rb) (counts lb ++ counts rb))
    | lb, _ => lb
    end = mknode (its1 ++ x :: its2) 0 h (ds1 ++ ds2).
Proof. destruct h; [done|]. unfold mknode. cbn. by rewrite !fmap_app. Qed.

Lemma delete_parent (its1 its2 : list item) x ds1 (a b : ref) ds2 :
  length its1 = length ds1 →
  MkNode (delete (length ds1) (its1 ++ x :: its2)) 0
    (Some (MkBranch (delete (S (length ds1)) (r_loc <$> ds1 ++ a :: b :: ds2))
       (delete (S (length ds1)) (sizes (ds1 ++ a :: b :: ds2))))) =
  MkNode (its1 ++ its2) 0 (Some (MkBranch (r_loc <$> ds1 ++ a :: ds2)
    (sizes ds1 ++ zlen (r_xs a) :: sizes ds2))).
Proof.
  intros Hl.
  assert (∀ {A} (f : ref → A), delete (S (length ds1)) (f <$> ds1 ++ a :: b :: ds2) =
    f <$> ds1 ++ a :: ds2) as Hd.
  { intros A f. rewrite (cons_middle a ds1 ds2), (cons_middle a ds1 (b :: ds2)), !(assoc_L (++)).
    rewrite !(fmap_app f (ds1 ++ [a])), fmap_cons.
    replace (S (length ds1)) with (length (f <$> ds1 ++ [a])); [apply delete_middle|].
    rewrite length_fmap, length_app. cbn. lia. }
  unfold sizes at 1. rewrite !Hd, <-Hl, delete_middle, !fmap_app. done.
Qed.

(** The nodes an item moves out of and into. *)
Lemma take_node h its y ds1 ds2 :
  fits h ds1 (length its) →
  MkNode (take (length (its ++ [y]) - 1) (its ++ [y])) 0
    ((λ lb, MkBranch (take (length (its ++ [y])) (children lb)) (take (length (its ++ [y])) (counts lb)))
      <$> nbranch (mknode (its ++ [y]) 0 h (ds1 ++ ds2))) = mknode its 0 h ds1.
Proof.
  intros Hf. rewrite length_app. cbn [length].
  replace (length its + 1 - 1) with (length its) by lia. rewrite take_app_length.
  destruct h; [done|]. destruct Hf as [Hl _]. unfold mknode. cbn. do 3 f_equal;
  rewrite fmap_app; apply take_app_length'; rewrite length_fmap; lia.
Qed.

Lemma cons_node h its y x its2 ds1 ds2 ds3 :
  fits h ds1 (length its) →
  MkNode (x :: its2) 0
    match nbranch (mknode (its ++ [y]) 0 h (ds1 ++ ds2)), nbranch (mknode its2 0 h ds3) with
    | Some lb, Some rb => Some (MkBranch (drop (length (its ++ [y])) (children lb) ++ children rb)
                                         (drop (length (its ++ [y])) (counts lb) ++ counts rb))
    | _, rb => rb
    end = mknode (x :: its2) 0 h (ds2 ++ ds3).
Proof.
  intros Hf. destruct h; [done|]. destruct Hf as [Hl _]. unfold mknode. cbn. do 3 f_equal;
  rewrite !fmap_app, length_app; f_equal; apply drop_app_length'; rewrite length_fmap; cbn; lia.
Qed.

Lemma snoc_node h its x y its2 ds1 ds2 ds3 :
  fits h ds2 0 →
  MkNode (its ++ [x]) 0
    match nbranch (mknode its 0 h ds1), nbranch (mknode (y :: its2) 0 h (ds2 ++ ds3)) with
    | Some lb, Some rb => Some (MkBranch (children lb ++ take 1 (children rb))
                                         (counts lb ++ take 1 (counts rb)))
    | lb, _ => lb
    end = mknode (its ++ [x]) 0 h (ds1 ++ ds2).
Proof.
  intros Hf. destruct h; [done|]. destruct Hf as [Hl _].
  destruct ds2 as [|d [|]]; try discriminate. unfold mknode. cbn. by rewrite !fmap_app.
Qed.

Lemma drop_node h y its ds1 ds2 :
  fits h ds1 0 →
  MkNode (drop 1 (y :: its)) 0
    ((λ rb, MkBranch (drop 1 (children rb)) (drop 1 (counts rb)))
      <$> nbranch (mknode (y :: its) 0 h (ds1 ++ ds2))) = mknode its 0 h ds2.
Proof.
  intros Hf. destruct h; [done|]. destruct Hf as [Hl _].
  destruct ds1 as [|d [|]]; try discriminate. done.
Qed.

Lemma swap_item its1 x its2 y h ds i :
  i = length its1 →
  set_items (<[i := y]> (its1 ++ x :: its2)) (mknode (its1 ++ x :: its2) 0 h ds) =
  mknode (its1 ++ y :: its2) 0 h ds.
Proof.
  intros ->. unfold set_items, mknode. cbn [rc nbranch]. f_equal.
  by rewrite insert_app_r_alt, Nat.sub_diag by lia.
Qed.

(** ** rebalance *)

Definition child_ok (h : nat) d : Prop := r_h d = h ∧ minItems ≤ r_len d.

(** What a repair of the neighbours [a] and [b] around [x] leaves between the rest of the branch. *)
Definition repaired (h : nat) (a b : ref) (x : item) (mid : list item) (dmid : list ref) : Prop :=
  length mid ≤ 1 ∧ length dmid = S (length mid) ∧ Forall (child_ok h) dmid ∧
  contents mid dmid = r_xs a ++ x :: r_xs b.

(** The three repairs, with both neighbours open in a branch that is. *)
Section repair.
Context (cp : bool) (O : gmap nat node) (Γ : list ref) (n h : nat) (a b : ref).
Context (aits bits : list item) (ads bds : list ref) (x : item).
Context (its1 its2 : list item) (ds1 ds2 : list ref).
Hypothesis Hn : O !! n = Some (mknode (its1 ++ x :: its2) 0 (S h) (ds1 ++ a :: b :: ds2)).
Hypothesis Ha : O !! r_loc a = Some (mknode aits 0 h ads).
Hypothesis Hb : O !! r_loc b = Some (mknode bits 0 h bds).
Hypothesis Hha : r_h a = h.
Hypothesis Hhb : r_h b = h.
Hypothesis Hna : node_of a aits ads.
Hypothesis Hnb : node_of b bits bds.
Hypothesis Hanb : r_loc a ≠ r_loc b.
Hypothesis Hna' : r_loc a ≠ n.
Hypothesis Hnb' : r_loc b ≠ n.
Hypothesis Hits1 : length its1 = length ds1.
Hypothesis Hmina : minItems ≤ S (r_len a).
Hypothesis Hminb : minItems ≤ S (r_len b).
Hypothesis Hdef : r_len a < minItems ∨ r_len b < minItems.

(** All but the counts of the two children. *)
Definition stale (σ : store) : Prop := ∃ mid m dmid ns2, repaired h a b x mid (m :: dmid) ∧
  length ns2 = length (dmid ++ ds2) ∧ drop 1 ns2 = drop 1 (sizes (dmid ++ ds2)) ∧
  own cp σ (<[n := MkNode (its1 ++ mid ++ its2) 0 (Some (MkBranch (r_loc <$> ds1 ++ m :: dmid ++ ds2)
    (sizes ds1 ++ zlen (r_xs a) :: ns2)))]> (delete (r_loc a) (delete (r_loc b) O)))
    (m :: dmid ++ ds1 ++ ds2 ++ Γ).

Lemma merge_pair_ok σ :
  own cp σ O (bds ++ ads ++ ds1 ++ ds2 ++ Γ) → length aits + length bits < maxItems →
  runs (merge_pair n (length ds1) (r_loc a) (r_loc b)) σ (λ _ σ', stale σ').
Proof.
  intros Ho Hlt. unfold merge_pair.
  apply runs_bind. eapply runs_load_open; [exact Ho|exact Hn|].
  apply runs_bind. eapply runs_some; [done|].
  apply runs_bind. eapply runs_some; [cbn; by apply list_lookup_middle|].
  apply runs_bind. eapply runs_load_open; [exact Ho|exact Ha|].
  apply runs_bind. eapply runs_load_open; [exact Ho|exact Hb|].
  apply runs_bind. eapply runs_set_open; [exact Ho|exact Ha|]. intros σ1 Ho1.
  written Ho1 as (mknode (aits ++ x :: bits) 0 h (ads ++ bds)) by apply join_node.
  eapply runs_set_open; [exact Ho1|by rewrite lookup_insert_ne|]. intros σ2 Ho2.
  written Ho2 as (MkNode (its1 ++ its2) 0 (Some (MkBranch (r_loc <$> ds1 ++ a :: ds2)
    (sizes ds1 ++ zlen (r_xs a) :: sizes ds2)))) by by apply delete_parent.
  destruct Hna as (Hka & Hmaxa & Hfita & Hxa), Hnb as (Hkb & Hmaxb & Hfitb & Hxb).
  set (m := MkRef (r_loc a) h (length (aits ++ x :: bits)) (r_xs a ++ x :: r_xs b)).
  assert (node_of m (aits ++ x :: bits) (ads ++ bds)) as Hm.
  { unfold node_of. cbn. rewrite Hha in Hfita. rewrite Hhb in Hfitb. split_and!; [done| | |].
    - rewrite length_app. cbn. lia.
    - rewrite length_app. cbn. rewrite Hka, Hkb. by apply fits_join.
    - rewrite Hxa, Hxb. symmetry. eapply contents_join; [by rewrite Hka|by rewrite Hkb]. }
  exists [], m, [], (sizes ds2). split_and!.
  - split_and!; [cbn; lia|done| |done]. constructor; [|done]. split; [done|]. cbn. rewrite length_app. cbn.
    node_lia.
  - apply length_sizes.
  - done.
  - assert (own cp σ2 (delete (r_loc a) (delete (r_loc b) (<[n := MkNode (its1 ++ its2) 0
      (Some (MkBranch (r_loc <$> ds1 ++ a :: ds2) (sizes ds1 ++ zlen (r_xs a) :: sizes ds2)))]>
      (<[r_loc a := mknode (aits ++ x :: bits) 0 h (ads ++ bds)]> O)))) (m :: ds1 ++ ds2 ++ Γ)) as Hend.
    { apply (own_close cp σ2 _ _ m (aits ++ x :: bits) (ads ++ bds)); [|by simplify_map_eq|done].
      apply own_forget. eapply own_perm; [|exact Ho2]. solve_Permutation. }
    replace (<[n := _]> (delete _ _)) with (delete (r_loc a) (delete (r_loc b) (<[n := MkNode (its1 ++ its2) 0
      (Some (MkBranch (r_loc <$> ds1 ++ a :: ds2) (sizes ds1 ++ zlen (r_xs a) :: sizes ds2)))]>
      (<[r_loc a := mknode (aits ++ x :: bits) 0 h (ads ++ bds)]> O)))); [done|].
    cbn [app]. rewrite !fmap_app. cbn. solve_open.
Qed.
(** The end of either move. *)
Lemma moved_stale σ y ai ad bi bd :
  own cp σ (<[n := mknode (its1 ++ y :: its2) 0 (S h) (ds1 ++ a :: b :: ds2)]>
    (<[r_loc a := mknode ai 0 h ad]> (<[r_loc b := mknode bi 0 h bd]> O)))
    (bd ++ ad ++ ds1 ++ ds2 ++ Γ) →
  fits h ad (length ai) → fits h bd (length bi) → minItems ≤ length ai ≤ maxItems →
  minItems ≤ length bi ≤ maxItems →
  contents ai ad ++ y :: contents bi bd = r_xs a ++ x :: r_xs b → stale σ.
Proof.
  intros Ho Hfa Hfb Hla Hlb Hxs.
  set (l := MkRef (r_loc a) h (length ai) (contents ai ad)).
  set (r := MkRef (r_loc b) h (length bi) (contents bi bd)).
  assert (node_of l ai ad) as Hl by by split_and!; try apply Hla.
  assert (node_of r bi bd) as Hr by by split_and!; try apply Hlb.
  exists [y], l, [r], (zlen (r_xs b) :: sizes ds2). split_and!.
  - split_and!; [done..| |by rewrite <-Hxs].
    repeat constructor; cbn; lia.
  - cbn. by rewrite length_sizes.
  - done.
  - eapply (own_close cp σ _ (ad ++ ds1 ++ ds2 ++ Γ) r bi bd) in Ho;
      [|cbn [r_loc r]; by simplify_map_eq|done].
    apply (own_perm _ _ _ _ (ad ++ r :: ds1 ++ ds2 ++ Γ)) in Ho; [|solve_Permutation].
    eapply (own_close cp σ _ (r :: ds1 ++ ds2 ++ Γ) l ai ad) in Ho; [|cbn [r_loc r l]; by simplify_map_eq|done].
    cbn [app] in *. cbn [r_loc r l] in Ho. unfold mknode in Ho.
    rewrite !fmap_app in Ho |- *. rewrite !fmap_cons in Ho |- *.
    match type of Ho with own _ _ ?A _ => match goal with |- own _ _ ?B _ => replace B with A; [done|] end end.
    solve_open. by rewrite fmap_app.
Qed.

Lemma move_right_ok σ :
  own cp σ O (bds ++ ads ++ ds1 ++ ds2 ++ Γ) → maxItems ≤ length aits + length bits →
  length bits < length aits →
  runs (move_right n (length ds1) (r_loc a) (r_loc b)) σ (λ _ σ', stale σ').
Proof.
  intros Ho Hge Hlt.
  destruct Hna as (Hka & Hmaxa & Hfita & Hxa), Hnb as (Hkb & Hmaxb & Hfitb & Hxb).
  assert (∃ ai y, aits = ai ++ [y]) as (ai & y & Eaits).
  { destruct (last aits) as [y|] eqn:E; [apply last_Some in E as [? ?]; by eauto|].
    apply last_None in E. rewrite E in Hlt. cbn in Hlt. lia. }
  rewrite Hha in Hfita. rewrite Hhb in Hfitb. rewrite <-Hka, Eaits, length_app in Hfita.
  destruct (fits_split h ads (length ai) 0 Hfita) as (ad & es & Eads & Hfad & Hfes).
  pose proof Ha as Ha'. rewrite Eads in Ha', Hxa, Ho. rewrite Eaits in Ha', Hge, Hlt, Hka, Hxa.
  unfold move_right.
  apply runs_bind. eapply runs_load_open; [exact Ho|exact Hn|].
  apply runs_bind. eapply runs_some; [cbn; by apply list_lookup_middle|].
  apply runs_bind. eapply runs_load_open; [exact Ho|exact Ha'|].
  apply runs_bind. eapply runs_load_open; [exact Ho|exact Hb|].
  apply runs_bind. eapply runs_some; [cbn; by apply last_snoc|].
  apply runs_bind. eapply runs_set_open; [exact Ho|exact Hb|]. intros σ1 Ho1.
  written Ho1 as (mknode (x :: bits) 0 h (es ++ bds)) by by apply cons_node.
  apply runs_bind. eapply runs_set_open; [exact Ho1|by rewrite lookup_insert_ne|]. intros σ2 Ho2.
  written Ho2 as (mknode (its1 ++ y :: its2) 0 (S h) (ds1 ++ a :: b :: ds2)) by by apply swap_item.
  eapply runs_set_open; [exact Ho2|by rewrite !lookup_insert_ne|]. intros σ3 Ho3.
  written Ho3 as (mknode ai 0 h ad) by by apply take_node.
  eapply (moved_stale σ3 y ai ad (x :: bits) (es ++ bds)).
  - rewrite insert_insert_ne in Ho3 by done. eapply own_perm; [|exact Ho3]. solve_Permutation.
  - done.
  - cbn [length]. apply (fits_join h es bds 0); [done|by rewrite Hkb].
  - rewrite length_app in *. cbn in *. node_lia.
  - cbn. rewrite length_app in *. cbn in *. node_lia.
  - rewrite Hxa, Hxb, (contents_join h ai y [] ad es) by done.
    rewrite <-(assoc_L (++)). f_equal. cbn [app]. f_equal.
    apply (contents_join h [] x bits es bds); [done|by rewrite Hkb].
Qed.

Lemma move_left_ok σ :
  own cp σ O (bds ++ ads ++ ds1 ++ ds2 ++ Γ) → maxItems ≤ length aits + length bits →
  length aits ≤ length bits →
  runs (move_left n (length ds1) (r_loc a) (r_loc b)) σ (λ _ σ', stale σ').
Proof.
  intros Ho Hge Hle.
  destruct Hna as (Hka & Hmaxa & Hfita & Hxa), Hnb as (Hkb & Hmaxb & Hfitb & Hxb).
  assert (∃ y bi, bits = y :: bi) as (y & bi & Ebits).
  { destruct bits; [cbn in *; node_lia|by eauto]. }
  rewrite Hha in Hfita. rewrite Hhb in Hfitb. rewrite <-Hkb, Ebits in Hfitb.
  destruct (fits_split h bds 0 (length bi) Hfitb) as (es & bd & Ebds & Hfes & Hfbd).
  pose proof Hb as Hb'. rewrite Ebds in Hb', Hxb, Ho. rewrite Ebits in Hb', Hge, Hle, Hkb, Hxb.
  unfold move_left.
  apply runs_bind. eapply runs_load_open; [exact Ho|exact Hn|].
  apply runs_bind. eapply runs_some; [cbn; by apply list_lookup_middle|].
  apply runs_bind. eapply runs_load_open; [exact Ho|exact Ha|].
  apply runs_bind. eapply runs_load_open; [exact Ho|exact Hb'|].
  apply runs_bind. eapply runs_some; [done|].
  apply runs_bind. eapply runs_set_open; [exact Ho|exact Ha|]. intros σ1 Ho1.
  written Ho1 as (mknode (aits ++ [x]) 0 h (ads ++ es)) by by apply snoc_node.
  apply runs_bind. eapply runs_set_open; [exact Ho1|by rewrite lookup_insert_ne|]. intros σ2 Ho2.
  written Ho2 as (mknode (its1 ++ y :: its2) 0 (S h) (ds1 ++ a :: b :: ds2)) by by apply swap_item.
  eapply runs_set_open; [exact Ho2|by rewrite !lookup_insert_ne|]. intros σ3 Ho3.
  written Ho3 as (mknode bi 0 h bd) by by apply drop_node.
  eapply (moved_stale σ3 y (aits ++ [x]) (ads ++ es) bi bd).
  - rewrite insert_insert_ne in Ho3 by done. rewrite (insert_insert_ne _ (r_loc b)) in Ho3 by done.
    eapply own_perm; [|exact Ho3]. solve_Permutation.
  - rewrite length_app. apply (fits_join h ads es _ 0); [by rewrite Hka|done].
  - done.
  - rewrite length_app in *. cbn in *. node_lia.
  - cbn in *. node_lia.
  - rewrite Hxa, Hxb, (contents_join h aits x [] ads es) by (by rewrite ?Hka).
    rewrite <-(assoc_L (++)). f_equal. cbn [app]. f_equal.
    symmetry. by apply (contents_join h [] y bi es bd).
Qed.
End repair.
End delete.
