(* ===== verification/BtreeRemove.v ===== *)
(** The descents of btype_btree.go that remove an item, and what they remove. *)

From stdpp Require Import gmap.
From S2P Require Import Prelude Btree BtreeOwn BtreeRules BtreeDelete.

Section remove.
Context {K V : Type} `{F : !Frozen K V}.
Abbreviation node := (node K V).
Abbreviation ref := (@ref K V).
Abbreviation tree := (tree K V).
Abbreviation item := (K * V)%type.
Abbreviation store := (list node).
Implicit Types (σ : store) (O H : gmap nat node) (l : nat) (d e : ref) (ds Γ : list ref) (t : tree).

(** ** rebalance *)

Lemma rebalance_pair fuel t σ O Γ n j its1 x its2 h ds1 a b ds2 :
  own (copied t) σ O (a :: b :: ds1 ++ ds2 ++ Γ) →
  O !! n = Some (mknode (its1 ++ x :: its2) 0 (S h) (ds1 ++ a :: b :: ds2)) →
  length its1 = length ds1 → length its2 = length ds2 →
  (if decide (j = length (its1 ++ x :: its2)) then j - 1 else j) = length ds1 →
  r_h a = h → r_h b = h → h < fuel → minItems ≤ S (r_len a) → minItems ≤ S (r_len b) →
  r_len a < minItems ∨ r_len b < minItems →
  runs (rebalance fuel t n j) σ (λ _ σ', ∃ mid dmid, repaired h a b x mid dmid ∧
    own (copied t) σ' (<[n := mknode (its1 ++ mid ++ its2) 0 (S h) (ds1 ++ dmid ++ ds2)]> O)
      (dmid ++ ds1 ++ ds2 ++ Γ)).
Proof.
  intros Ho Hn Hits1 Hits2 Hj Ha Hb Hf Hmina Hminb Hdef. unfold rebalance.
  apply runs_bind. eapply runs_load_open; [exact Ho|exact Hn|]. rewrite len_mknode, Hj.
  apply runs_bind. eapply runs_mono; [eapply cowChild_ok; [exact Ho|exact Hn|done|lia]|].
  cbv beta zeta. intros _ σ1 (la & aits & ads & HOa & Hanode & Ho1).
  assert (la ≠ n) as Hlan by congruence.
  set (a' := MkRef la (r_h a) (r_len a) (r_xs a)) in *.
  eapply own_perm in Ho1; [|symmetry; apply Permutation_middle].
  rewrite (cons_middle a' ds1), (assoc_L (++) ds1) in Ho1.
  apply runs_bind. eapply runs_mono.
  { eapply cowChild_ok; [exact Ho1| | |lia]; [by rewrite lookup_insert_ne, lookup_insert_eq by done|].
    rewrite length_app. cbn. lia. }
  cbv beta zeta. intros _ σ2 (lb & bits & bds & HOb & Hbnode & Ho2).
  set (b' := MkRef lb (r_h b) (r_len b) (r_xs b)) in *.
  apply lookup_insert_None in HOb as [HOb Hla]. apply lookup_insert_None in HOb as [HOb Hln].
  rewrite <-(assoc_L (++) ds1) in Ho2. cbn [app] in Ho2.
  rewrite Ha, Hb in Ho2. 
  set (O3 := <[lb := _]> _) in Ho2.
  assert (O3 !! n = Some (mknode (its1 ++ x :: its2) 0 (S h) (ds1 ++ a' :: b' :: ds2))) as Hn3.
  { unfold O3. by simplify_map_eq. }
  assert (O3 !! la = Some (mknode aits 0 h ads)) as Ha3 by (unfold O3; by simplify_map_eq).
  assert (O3 !! lb = Some (mknode bits 0 h bds)) as Hb3 by (unfold O3; by simplify_map_eq).
  apply runs_bind. eapply runs_load_open; [exact Ho2|exact Hn3|].
  apply runs_bind. apply runs_bind. eapply runs_some; [done|].
  eapply runs_some; [cbn; rewrite list_lookup_fmap, list_lookup_middle by done; done|].
  apply runs_bind. apply runs_bind. eapply runs_some; [done|].
  eapply runs_some.
  { cbn. rewrite list_lookup_fmap, (cons_middle a' ds1), (assoc_L (++)), list_lookup_middle; [done|].
    rewrite length_app. cbn. lia. }
  cbn [r_loc a' b'].
  apply runs_bind. eapply runs_load_open; [exact Ho2|exact Ha3|].
  apply runs_bind. eapply runs_load_open; [exact Ho2|exact Hb3|]. rewrite !len_mknode.
  apply runs_bind. eapply runs_mono with (P := λ _ σ',
    stale (copied t) O3 Γ n h a' b' x its1 its2 ds1 ds2 σ').
  - destruct Hanode as (Hka & Hna), Hbnode as (Hkb & Hnb). cbn in Hka, Hkb.
    clear Hj. repeat case_decide.
    + eapply (merge_pair_ok _ O3 Γ n h a' b' aits bits ads bds); try done; lia.
    + eapply (move_right_ok _ O3 Γ n h a' b' aits bits ads bds); try done; lia.
    + eapply (move_left_ok _ O3 Γ n h a' b' aits bits ads bds); try done; lia.
  - intros [] σ3 (mid & m & dmid & ns2 & Hrep & Hlen & Hdrop & Ho3).
    eapply runs_mono.
    + eapply (recount_both _ _ _ _ _ _ h); [exact Ho3|apply lookup_insert_eq| |done|done]. set_solver.
    + cbv beta. intros _ σ4 [_ Ho4]. rewrite insert_insert_eq in Ho4.
      exists mid, (m :: dmid). split; [done|].
      match type of Ho4 with own _ _ ?A _ => match goal with |- own _ _ ?B _ => replace B with A; [done|] end end.
      unfold O3, a', b'. cbn [r_loc]. cbn [app]. solve_open; done.
Qed.

(** ** After a child lost an item *)

Lemma upd_count_ok cp σ O Γ n its h ds1 d e ds2 f :
  own cp σ O Γ → O !! n = Some (mknode its 0 (S h) (ds1 ++ d :: ds2)) →
  r_loc e = r_loc d → zlen (r_xs e) = f (zlen (r_xs d)) →
  runs (upd_count n (length ds1) f) σ
    (λ _ σ', only n σ σ' ∧ own cp σ' (<[n := mknode its 0 (S h) (ds1 ++ e :: ds2)]> O) Γ).
Proof.
  intros Ho Hn Hl Hz. unfold upd_count.
  apply runs_bind. eapply runs_load_open; [exact Ho|exact Hn|].
  apply runs_bind. eapply runs_some; [done|]. eapply runs_set_only; [exact Ho|exact Hn|].
  intros σ' Ho' Honly. split; [done|].
  written Ho' as (mknode its 0 (S h) (ds1 ++ e :: ds2)) by
    (unfold set_branch, mknode; cbn; f_equal; f_equal; rewrite !fmap_app, !fmap_cons, Hl;
     f_equal; rewrite alter_app_r_alt, length_fmap, Nat.sub_diag by (by rewrite length_fmap);
     cbn; by rewrite Hz).
  done.
Qed.

(** The branch [n] once [d], one of its children, has become [e] with one item less. *)
Lemma child_lost_ok fuel t σ O Γ n i its h ds1 d e ds2 :
  own (copied t) σ O (e :: ds1 ++ ds2 ++ Γ) →
  O !! n = Some (mknode its 0 (S h) (ds1 ++ d :: ds2)) → i = length ds1 →
  r_loc e = r_loc d → r_h e = h → zlen (r_xs e) = (zlen (r_xs d) - 1)%Z → minItems ≤ S (r_len e) →
  Forall (child_ok h) ds1 → Forall (child_ok h) ds2 → 1 ≤ length its →
  length its = length ds1 + length ds2 → h < fuel →
  runs (child_lost fuel t n i) σ (λ _ σ', ∃ its' ds',
    own (copied t) σ' (<[n := mknode its' 0 (S h) ds']> O) (ds' ++ Γ) ∧
    fits (S h) ds' (length its') ∧ contents its' ds' = contents its (ds1 ++ e :: ds2) ∧
    length its ≤ S (length its') ∧ length its' ≤ length its).
Proof.
  intros Ho Hn -> Hle Hhe Hz Hmin Hds1 Hds2 Hone Hlen Hf. unfold child_lost.
  apply runs_bind. eapply runs_mono; [by eapply (upd_count_ok _ _ _ _ _ _ _ ds1 d e)|].
  cbv beta. intros _ σ1 [_ Ho1].
  apply runs_bind. eapply runs_load_open; [exact Ho1|apply lookup_insert_eq|].
  apply runs_bind, runs_bind. eapply runs_some; [done|].
  eapply runs_some; [cbn; rewrite list_lookup_fmap, list_lookup_middle by done; done|].
  destruct (own_node _ _ _ _ e Ho1) as (cits & c & cds & Hc & Hcn); [set_solver|].
  apply runs_bind. eapply runs_load; [exact Hc|]. rewrite len_mknode.
  destruct Hcn as (-> & _).
  destruct (decide (r_len e < minItems)) as [Hdef|Hok].
  2:{ apply runs_ret. exists its, (ds1 ++ e :: ds2). split_and!; [|split|done|lia..].
      - eapply own_perm; [|exact Ho1]. solve_Permutation.
      - rewrite length_app. cbn. lia.
      - apply Forall_app_2; [done|]. constructor; [|done]. split; [done|lia]. }
  assert (∀ d, child_ok h d → minItems ≤ S (r_len d)) as Hw by (intros ? [_ ?]; lia).
  destruct ds2 as [|b ds2].
  - (* the last child: its left neighbour helps *)
    destruct ds1 as [|a ds1 _] using rev_ind; [cbn in Hlen; lia|].
    rewrite length_app in *. cbn [length] in *.
    destruct its as [|x its _] using rev_ind; [cbn in Hone; lia|]. rewrite length_app in *. cbn [length] in *.
    apply Forall_app in Hds1 as [Hds1 Ha]. apply Forall_cons in Ha as [Ha _].
    rewrite <-(assoc_L (++)) in Ho1. cbn [app] in Ho1.
    eapply runs_mono.
    + eapply (rebalance_pair _ _ _ _ Γ _ _ its x [] h ds1 a e []); try done.
      * eapply own_perm; [|exact Ho1]. solve_Permutation.
      * apply lookup_insert_eq.
      * lia.
      * rewrite length_app, decide_True by (cbn; lia). lia.
      * apply Ha.
      * by apply Hw.
      * by right.
    + cbv beta. intros _ σ2 (mid & dmid & (Hm1 & Hm2 & Hm3 & Hm4) & Ho2). rewrite insert_insert_eq in Ho2.
      exists (its ++ mid), (ds1 ++ dmid). rewrite !app_nil_r in Ho2. split_and!.
      * eapply own_perm; [|exact Ho2]. solve_Permutation.
      * split; [rewrite !length_app; lia|]. by apply Forall_app_2.
      * unfold contents in *. rewrite fmap_app, weave_app by (rewrite length_fmap; lia).
        rewrite Hm4, <-(assoc_L (++)), fmap_app, weave_app by (rewrite length_fmap; lia). done.
      * rewrite length_app. lia.
      * rewrite length_app. lia.
  - apply Forall_cons in Hds2 as [Hb Hds2]. cbn [length] in *.
    assert (∃ its1 x its2, its = its1 ++ x :: its2 ∧ length its1 = length ds1)
      as (its1 & x & its2 & -> & Hl1).
    { destruct (lookup_lt_is_Some_2 its (length ds1)) as [x Hx]; [lia|].
      exists (take (length ds1) its), x, (drop (S (length ds1)) its).
      rewrite take_drop_middle, length_take by done. split; [done|lia]. }
    rewrite length_app in Hlen. cbn [length] in Hlen.
    eapply runs_mono.
    + eapply (rebalance_pair _ _ _ _ Γ _ _ its1 x its2 h ds1 e b ds2); try done.
      * eapply own_perm; [|exact Ho1]. solve_Permutation.
      * apply lookup_insert_eq.
      * lia.
      * rewrite length_app, decide_False by (cbn; lia). done.
      * apply Hb.
      * by apply Hw.
      * by left.
    + cbv beta. intros _ σ2 (mid & dmid & (Hm1 & Hm2 & Hm3 & Hm4) & Ho2). rewrite insert_insert_eq in Ho2.
      exists (its1 ++ mid ++ its2), (ds1 ++ dmid ++ ds2). split_and!.
      * eapply own_perm; [|exact Ho2]. solve_Permutation.
      * split; [rewrite !length_app; lia|]. by repeat apply Forall_app_2.
      * unfold contents in *. rewrite !fmap_app, !(weave_app (r_xs <$> ds1)) by (rewrite length_fmap; lia).
        f_equal. rewrite weave_collapse, Hm4 by (rewrite length_fmap; lia).
        change (r_xs <$> e :: b :: ds2) with ([r_xs e; r_xs b] ++ (r_xs <$> ds2)).
        change (x :: its2) with ([x] ++ its2). by rewrite (weave_collapse [r_xs e; r_xs b]) by done.
      * rewrite !length_app. cbn. lia.
      * rewrite !length_app. cbn. lia.
Qed.

(** ** Where the contents of a branch lie *)

(** What comes before the children from some slot on. *)
Definition lead (its : list item) ds : list item :=
  mjoin (zip_with (λ xs i, xs ++ [i]) (r_xs <$> ds) its).

Lemma contents_lead its1 its2 ds1 ds2 :
  length its1 = length ds1 → contents (its1 ++ its2) (ds1 ++ ds2) = lead its1 ds1 ++ contents its2 ds2.
Proof. intros Hl. unfold contents. rewrite fmap_app. apply weave_app. by rewrite length_fmap. Qed.

Lemma contents_cons e x its ds : contents (x :: its) (e :: ds) = r_xs e ++ x :: contents its ds.
Proof. apply weave_cons. Qed.

Lemma lead_cons x its e ds : lead (x :: its) (e :: ds) = r_xs e ++ x :: lead its ds.
Proof. unfold lead. cbn. by rewrite <-(assoc_L (++)). Qed.

Lemma contents_one e : contents [] [e] = r_xs e.
Proof. done. Qed.

Lemma node_nonempty d its ds : node_of d its ds → 1 ≤ r_len d → r_xs d ≠ [].
Proof.
  intros (Hl & _ & Hf & ->) Hlen. destruct its as [|x its]; [cbn in Hl; lia|].
  destruct ds as [|e ds]; [done|]. rewrite contents_cons. by destruct (r_xs e).
Qed.

Lemma seekAt_ok its ds index :
  length ds = S (length its) → (0 ≤ index ≤ zlen (contents its ds))%Z →
  ∃ i idx found its1 its2 ds1 e ds2, seekAt (sizes ds) (length its) index = (i, idx, found) ∧
    its = its1 ++ its2 ∧ ds = ds1 ++ e :: ds2 ∧ length ds1 = i ∧ length its1 = i ∧
    length its2 = length ds2 ∧ index = (zlen (lead its1 ds1) + idx)%Z ∧ (0 ≤ idx ≤ zlen (r_xs e))%Z ∧
    (found = true ↔ idx = zlen (r_xs e) ∧ its2 ≠ []).
Proof.
  revert ds index. induction its as [|x its IH]; intros ds index Hl Hi.
  - destruct ds as [|e [|]]; try discriminate. exists 0, index, false, [], [], [], e, [].
    rewrite contents_one in Hi. split_and!; try done; naive_solver.
  - destruct ds as [|e ds]; [discriminate|]. cbn [length sizes fmap list_fmap seekAt] in *.
    rewrite contents_cons, zlen_app, zlen_cons in Hi.
    destruct (index <=? zlen (r_xs e))%Z eqn:E.
    + apply Z.leb_le in E. exists 0, index, (index =? zlen (r_xs e))%Z, [], (x :: its), [], e, ds.
      split_and!; try done; try lia; [cbn; lia|]. rewrite Z.eqb_eq. naive_solver.
    + apply Z.leb_gt in E.
      destruct (IH ds (index - (zlen (r_xs e) + 1))%Z) as
        (i & idx & found & its1 & its2 & ds1 & e' & ds2 & Hs & -> & -> & Hl1 & Hl2 & Hl3 & Hidx & Hle & Hf);
        [lia|lia|].
      fold (sizes (ds1 ++ e' :: ds2)). rewrite Hs.
      exists (S i), idx, found, (x :: its1), its2, (e :: ds1), e', ds2. split_and!; try done; try (cbn; lia).
      rewrite lead_cons, zlen_app, zlen_cons. lia.
Qed.
End remove.
