(* ===== verification/BtreeDescend.v ===== *)
(** The recursive removals of btype_btree.go remove the item they should and keep the tree's shape:
    nodeDeleteMax, nodePopBack, nodePopFront and nodeDeleteAt. *)

From stdpp Require Import gmap.
From S2P Require Import Prelude Btree BtreeOwn BtreeRules BtreeDelete BtreeRemove.

Section descend.
Context {K V : Type} `{F : !Frozen K V}.
Abbreviation node := (node K V).
Abbreviation ref := (@ref K V).
Abbreviation tree := (tree K V).
Abbreviation item := (K * V)%type.
Abbreviation store := (list node).
Implicit Types (σ : store) (O H : gmap nat node) (l : nat) (d e : ref) (ds Γ : list ref) (t : tree).

(** [d] with other contents, at most one of its own items fewer. *)
Definition lost d d' (xs : list item) : Prop :=
  r_loc d' = r_loc d ∧ r_h d' = r_h d ∧ r_xs d' = xs ∧ r_len d ≤ S (r_len d') ∧ r_len d' ≤ r_len d.

(** [m] takes [x] out of the private subtree [d] and leaves [xs]. *)
Definition removes cp (m : sto K V item) σ O Γ d (x : item) (xs : list item) : Prop :=
  runs m σ (λ a σ', a = x ∧ ∃ d', lost d d' xs ∧ own cp σ' O (d' :: Γ) ∧ private σ' (r_loc d)).

(** Making the child to descend into private. *)
Lemma enter_child {A} fuel t σ O Γ n i its h ds1 e ds2 (k : sto K V A) Q :
  own (copied t) σ (<[n := mknode its 0 (S h) (ds1 ++ e :: ds2)]> O) ((ds1 ++ e :: ds2) ++ Γ) →
  length ds1 = i → r_h e < fuel →
  (∀ σ' e', r_h e' = r_h e → r_len e' = r_len e → r_xs e' = r_xs e → r_loc e' ≠ n →
    own (copied t) σ' (<[n := mknode its 0 (S h) (ds1 ++ e' :: ds2)]> O) (e' :: ds1 ++ ds2 ++ Γ) →
    private σ' (r_loc e') → runs k σ' Q) →
  runs (cowChild fuel t n i true;; k) σ Q.
Proof.
  intros Ho Hi Hf Hk. apply runs_bind. eapply runs_mono.
  { eapply (cowChild_ok _ _ _ _ (ds1 ++ ds2 ++ Γ) _ _ _ h ds1 e ds2);
      [|apply lookup_insert_eq|done|done]. eapply own_perm; [|exact Ho]. solve_Permutation. }
  cbv beta zeta. intros _ σ1 (c & cits & cds & HO & Hnode & Ho1).
  set (e' := MkRef c (r_h e) (r_len e) (r_xs e)) in *.
  apply lookup_insert_None in HO as [HO Hnc]. rewrite insert_insert_eq in Ho1.
  eapply (own_close' _ _ _ _ e') in Ho1 as [Ho1 Hp]; [|apply lookup_insert_eq|done].
  cbn [r_loc e'] in Ho1. rewrite delete_insert_eq, delete_id in Ho1 by (by rewrite lookup_insert_ne).
  by apply (Hk σ1 e').
Qed.

Lemma enter_ok {A} fuel t σ O Γ n i its h ds1 e ds2 (k : node → nat → sto K V A) Q :
  own (copied t) σ (<[n := mknode its 0 (S h) (ds1 ++ e :: ds2)]> O) ((ds1 ++ e :: ds2) ++ Γ) →
  length ds1 = i → r_h e < fuel →
  (∀ σ' e', r_h e' = r_h e → r_len e' = r_len e → r_xs e' = r_xs e →
    own (copied t) σ' (<[n := mknode its 0 (S h) (ds1 ++ e' :: ds2)]> O) (e' :: ds1 ++ ds2 ++ Γ) →
    private σ' (r_loc e') → runs (k (mknode its 0 (S h) (ds1 ++ e' :: ds2)) (r_loc e')) σ' Q) →
  runs (cowChild fuel t n i true;; nd ← load n; c ← child nd i; k nd c) σ Q.
Proof.
  intros Ho Hi Hf Hk. eapply enter_child; [done..|]. intros σ1 e' ? ? ? _ Ho1 Hp.
  apply runs_bind. eapply runs_load_open; [exact Ho1|apply lookup_insert_eq|].
  apply runs_bind, runs_bind. eapply runs_some; [done|].
  eapply runs_some; [cbn; rewrite list_lookup_fmap, list_lookup_middle by done; done|].
  by apply (Hk σ1 e').
Qed.

(** Repairing and closing the branch after the descent. *)
Lemma leave_ok {A} cp fuel t σ O Γ d i its h ds1 e0 e ds2 (a : A) Q :
  cp = copied t →
  own cp σ (<[r_loc d := mknode its 0 (S h) (ds1 ++ e0 :: ds2)]> O) (e :: ds1 ++ ds2 ++ Γ) →
  O !! r_loc d = None → r_h d = S h → length its = r_len d → r_len d ≤ maxItems → 1 ≤ r_len d →
  i = length ds1 → r_loc e = r_loc e0 → r_h e = h → zlen (r_xs e) = (zlen (r_xs e0) - 1)%Z →
  minItems ≤ S (r_len e) → Forall (child_ok h) ds1 → Forall (child_ok h) ds2 →
  length its = length ds1 + length ds2 → h < fuel →
  (∀ σ' d', lost d d' (contents its (ds1 ++ e :: ds2)) → own cp σ' O (d' :: Γ) →
    private σ' (r_loc d) → Q a σ') →
  runs (child_lost fuel t (r_loc d) i;; mret a) σ Q.
Proof.
  intros -> Ho HO Hh Hlen Hmax Hone Hi Hloc Hhe Hz Hmin Hds1 Hds2 Hl Hf HQ.
  apply runs_bind. eapply runs_mono.
  { eapply (child_lost_ok _ _ _ _ Γ _ _ its h ds1 e0 e ds2); try done; [|lia]. apply lookup_insert_eq. }
  cbv beta. intros _ σ1 (its' & ds' & Ho1 & Hfit & Hc & Hge & Hle). rewrite insert_insert_eq in Ho1.
  set (d' := MkRef (r_loc d) (S h) (length its') (contents its' ds')).
  eapply (own_close' _ _ _ _ d' its') in Ho1 as [Ho1 Hp].
  - cbn [r_loc d'] in Ho1. rewrite delete_insert_eq, delete_id in Ho1 by done. apply runs_ret.
    eapply HQ; [|exact Ho1|exact Hp]. repeat split; cbn; [done|done|lia|lia].
  - apply lookup_insert_eq.
  - repeat split; cbn; try done; [lia|apply Hfit..].
Qed.

(** The last step of a removal, in a leaf. *)
Lemma leaf_removed cp σ O Γ d (its its' : list item) (x : item) :
  own cp σ (<[r_loc d := mknode its 0 0 []]> O) Γ → O !! r_loc d = None → r_h d = 0 →
  length its = r_len d → r_len d ≤ maxItems → r_len d = S (length its') →
  runs (set (r_loc d) (set_items its' (mknode its 0 0 []));; mret x) σ
    (λ (a : item) σ', a = x ∧ ∃ d', lost d d' its' ∧ own cp σ' O (d' :: Γ) ∧ private σ' (r_loc d)).
Proof.
  intros Ho HO Hh Hl Hmax Hlen. apply runs_bind.
  eapply runs_set_open; [exact Ho|apply lookup_insert_eq|]. intros σ1 Ho1. apply runs_ret. split; [done|].
  rewrite insert_insert_eq in Ho1. exists (MkRef (r_loc d) 0 (length its') its').
  set (d' := MkRef (r_loc d) 0 (length its') its').
  eapply (own_close' _ _ _ Γ d' its' []) in Ho1 as [Ho1 Hp].
  - cbn [r_loc d'] in Ho1. rewrite delete_insert_eq, delete_id in Ho1 by done.
    split_and!; try done. repeat split; cbn; [done|lia|lia].
  - apply lookup_insert_eq.
  - repeat split; cbn; lia.
Qed.

Lemma child_nonempty cp σ O Γ e : own cp σ O Γ → e ∈ Γ → minItems ≤ r_len e → r_xs e ≠ [].
Proof.
  intros Ho He Hm. destruct (own_node _ _ _ _ e Ho He) as (its & c & ds & _ & Hn).
  eapply node_nonempty; [exact Hn|]. node_lia.
Qed.

Lemma lost_size d d' x xs ys : r_xs d = xs ++ x :: ys → lost d d' (xs ++ ys) →
  zlen (r_xs d') = (zlen (r_xs d) - 1)%Z.
Proof. intros E (_ & _ & -> & _). rewrite E, !zlen_app, zlen_cons. lia. Qed.

Lemma contents_leaf (its : list item) : contents its [] = its.
Proof. apply weave_nil. Qed.

(** ** The largest item *)

Lemma nodeDeleteMax_ok fuel t σ O Γ d xs x :
  own (copied t) σ O (d :: Γ) → private σ (r_loc d) → r_h d < fuel → 1 ≤ r_len d →
  r_xs d = xs ++ [x] →
  removes (copied t) (nodeDeleteMax fuel t (r_loc d)) σ O Γ d x xs.
Proof.
  revert σ O Γ d xs x. induction fuel as [|fuel IH]; intros σ O Γ d xs x Ho Hp Hf Hone Hxs; [lia|].
  destruct (own_open _ _ _ _ _ Ho Hp) as (its & ds & Ho1 & HO & Hlen & Hmax & Hfit & Hc).
  unfold removes. cbn [nodeDeleteMax]. apply runs_bind.
  eapply runs_load_open; [exact Ho1|apply lookup_insert_eq|].
  destruct (r_h d) as [|h] eqn:Eh; rewrite leaf_mknode.
  - cbn in Hfit. subst ds. rewrite Hxs in Hc. rewrite contents_leaf in Hc.
    apply runs_bind. eapply runs_some; [cbn; rewrite <-Hc; apply last_snoc|].
    rewrite len_mknode, mknode_items, <-Hc, length_app. cbn [length].
    rewrite Nat.add_sub, take_app_length. rewrite Hc. eapply leaf_removed; try done.
    rewrite <-Hlen, <-Hc, length_app. cbn. lia.
  - destruct Hfit as [Hl Hkids]. destruct ds as [|e ds1 _] using rev_ind; [discriminate|].
    rewrite length_app in Hl. cbn in Hl. apply Forall_app in Hkids as [Hds1 He].
    apply Forall_cons in He as [[Hhe Hme] _]. rewrite len_mknode.
    destruct (last (r_xs e)) as [y|] eqn:Ey.
    2:{ apply last_None in Ey. destruct (child_nonempty _ _ _ _ e Ho1); [set_solver|done|done]. }
    apply last_Some in Ey as [ys Hys].
    assert (xs = lead its ds1 ++ ys ∧ x = y) as [-> ->].
    { rewrite <-(app_nil_r its), contents_lead, contents_one, Hys, Hxs, (assoc_L (++)) in Hc by lia.
      by apply app_inj_tail in Hc. }
    cbv zeta. eapply enter_ok; [exact Ho1|lia|lia|]. intros σ1 e' Hhe' Hle' Hxe' Ho2 Hp2.
    rewrite Hys in Hxe'. apply runs_bind. eapply runs_mono.
    { eapply IH; [exact Ho2|exact Hp2|lia|node_lia|exact Hxe']. }
    intros a σ2 (-> & e'' & Hlost & Ho3 & Hp3).
    eapply (leave_ok _ _ _ _ _ Γ d (length its) its h ds1 e' e'' []); try done; try lia;
      try (destruct Hlost as (? & ? & ? & ? & ?); congruence || lia).
    + eapply (lost_size e' e'' y ys []); [done|by rewrite app_nil_r].
    + cbn. lia.
    + intros σ3 d' Hd' Ho4 Hp4. split; [done|]. exists d'. split_and!; try done.
      rewrite <-(app_nil_r its), contents_lead, contents_one in Hd' by lia.
      destruct Hlost as (_ & _ & Hx'' & _). by rewrite Hx'' in Hd'.
Qed.

Lemma nodePopBack_ok fuel t σ O Γ d xs x :
  own (copied t) σ O (d :: Γ) → private σ (r_loc d) → r_h d < fuel → 1 ≤ r_len d →
  r_xs d = xs ++ [x] →
  removes (copied t) (nodePopBack fuel t (r_loc d)) σ O Γ d x xs.
Proof. exact (nodeDeleteMax_ok fuel t σ O Γ d xs x). Qed.

(** ** The first item *)

Lemma nodePopFront_ok fuel t σ O Γ d xs x :
  own (copied t) σ O (d :: Γ) → private σ (r_loc d) → r_h d < fuel → 1 ≤ r_len d →
  r_xs d = x :: xs →
  removes (copied t) (nodePopFront fuel t (r_loc d)) σ O Γ d x xs.
Proof.
  revert σ O Γ d xs x. induction fuel as [|fuel IH]; intros σ O Γ d xs x Ho Hp Hf Hone Hxs; [lia|].
  destruct (own_open _ _ _ _ _ Ho Hp) as (its & ds & Ho1 & HO & Hlen & Hmax & Hfit & Hc).
  unfold removes. cbn [nodePopFront]. apply runs_bind.
  eapply runs_load_open; [exact Ho1|apply lookup_insert_eq|].
  destruct (r_h d) as [|h] eqn:Eh; rewrite leaf_mknode.
  - cbn in Hfit. subst ds. rewrite Hxs in Hc. rewrite contents_leaf in Hc. subst its.
    apply runs_bind. eapply runs_some; [done|]. by eapply leaf_removed.
  - destruct Hfit as [Hl Hkids]. destruct ds as [|e ds2]; [discriminate|]. cbn in Hl.
    apply Forall_cons in Hkids as [[Hhe Hme] Hds2].
    destruct (r_xs e) as [|y ys] eqn:Ey.
    { destruct (child_nonempty _ _ _ _ e Ho1); [set_solver|done|done]. }
    assert (∀ e', r_xs e' = ys → x = y ∧ xs = contents its (e' :: ds2)) as Hcont.
    { intros e' He'. rewrite Hxs in Hc. unfold contents in *. cbn [fmap list_fmap] in *.
      rewrite Ey in Hc. rewrite He'. rewrite (weave_prepend [y] ys) in Hc. by injection Hc. }
    eapply (enter_ok _ _ _ _ _ _ _ _ _ [] e ds2); [exact Ho1|done|lia|].
    intros σ1 e' Hhe' Hle' Hxe' Ho2 Hp2. rewrite Ey in Hxe'. apply runs_bind. eapply runs_mono.
    { eapply IH; [exact Ho2|exact Hp2|lia|node_lia|exact Hxe']. }
    intros a σ2 (-> & e'' & Hlost & Ho3 & Hp3).
    assert (r_xs e'' = ys) as Hx'' by apply Hlost. destruct (Hcont e'' Hx'') as [-> ->].
    eapply (leave_ok _ _ _ _ _ Γ d 0 its h [] e' e'' ds2); try done; try lia;
      try (destruct Hlost as (? & ? & ? & ? & ?); congruence || lia).
    + by apply (lost_size e' e'' y [] ys).
    + cbn. lia.
    + intros σ3 d' Hd' Ho4 Hp4. split; [done|]. by exists d'.
Qed.

(** ** The item at a position *)

(** Contents from a child on: the child's, then the rest. *)
Lemma contents_head its e ds :
  length its = length ds → ∃ tl, (∀ e', contents its (e' :: ds) = r_xs e' ++ tl) ∧ (its = [] → tl = []).
Proof.
  intros Hl. destruct its as [|z its]; destruct ds as [|b ds]; try discriminate.
  - exists []. split; [intros; by rewrite app_nil_r|done].
  - exists (z :: contents its (b :: ds)). split; [intros; apply contents_cons|done].
Qed.

Lemma child_split its e ds xs x ys pre idx :
  xs ++ x :: ys = pre ++ contents its (e :: ds) → zlen xs = (zlen pre + idx)%Z →
  (0 ≤ idx ≤ zlen (r_xs e))%Z → (idx = zlen (r_xs e) → its = []) → length its = length ds →
  ∃ es1 es2, r_xs e = es1 ++ x :: es2 ∧ zlen es1 = idx ∧ xs = pre ++ es1 ∧
    ∀ e', r_xs e' = es1 ++ es2 → xs ++ ys = pre ++ contents its (e' :: ds).
Proof.
  intros Hxs Hlen Hi Hend Hl. destruct (contents_head its e ds Hl) as (tl & Htl & Hnil).
  rewrite Htl in Hxs. assert (idx < zlen (r_xs e))%Z as Hlt.
  { destruct (decide (idx = zlen (r_xs e))) as [E|]; [|lia]. rewrite (Hnil (Hend E)), app_nil_r in Hxs.
    apply (f_equal zlen) in Hxs. rewrite !zlen_app, zlen_cons in Hxs. pose proof (zlen_nonneg ys). lia. }
  destruct (lookup_lt_is_Some_2 (r_xs e) (Z.to_nat idx)) as [y Hy]; [unfold zlen in *; lia|].
  exists (take (Z.to_nat idx) (r_xs e)), (drop (S (Z.to_nat idx)) (r_xs e)).
  pose proof (take_drop_middle _ _ _ Hy) as Hmid. pose proof (lookup_lt_Some _ _ _ Hy) as Hk.
  rewrite <-Hmid in Hxs. rewrite (assoc_L (++) pre), <-!(assoc_L (++)) in Hxs. cbn [app] in Hxs.
  rewrite (assoc_L (++)) in Hxs. apply app_inj_1 in Hxs as [-> Hys].
  2:{ rewrite length_app, length_take. unfold zlen in *. lia. }
  injection Hys as -> ->. split_and!; [by rewrite Hmid| |done|].
  - unfold zlen. rewrite length_take. unfold zlen in *. lia.
  - intros e' He'. rewrite Htl, He', <-!(assoc_L (++)). done.
Qed.

(** Where the scan of the counts sends a descent to the item [x] after [xs]: it is the item after a child, or
    inside the child. *)
Definition aims its ds its1 its2 ds1 e ds2 (xs : list item) x ys : Prop :=
  its = its1 ++ its2 ∧ ds = ds1 ++ e :: ds2 ∧ length its1 = length ds1 ∧ length its2 = length ds2 ∧
  ((∃ idx its3, seekAt (sizes ds) (length its) (zlen xs) = (length ds1, idx, true) ∧
      its2 = x :: its3 ∧ xs = lead its1 ds1 ++ r_xs e ∧ ys = contents its3 ds2 ∧ 1 ≤ length ds2) ∨
   (∃ es1 es2, seekAt (sizes ds) (length its) (zlen xs) = (length ds1, zlen es1, false) ∧
      r_xs e = es1 ++ x :: es2 ∧ xs = lead its1 ds1 ++ es1 ∧
      ∀ (e' : ref) es, r_xs e' = es1 ++ es ++ es2 → xs ++ es ++ ys = contents its (ds1 ++ e' :: ds2))).

Lemma at_index its ds (xs : list item) x ys :
  length ds = S (length its) → contents its ds = xs ++ x :: ys →
  ∃ its1 its2 ds1 e ds2, aims its ds its1 its2 ds1 e ds2 xs x ys.
Proof.
  intros Hl Hc. destruct (seekAt_ok its ds (zlen xs)) as
    (i & idx & found & its1 & its2 & ds1 & e & ds2 & Hseek & -> & -> & <- & Hl2 & Hl3 & Hidx & Hle & Hfound).
  { done. }
  { rewrite Hc, zlen_app, zlen_cons. pose proof (zlen_nonneg xs). pose proof (zlen_nonneg ys). lia. }
  exists its1, its2, ds1, e, ds2. do 3 (split; [done|]). split; [done|].
  rewrite contents_lead in Hc by done. symmetry in Hc. destruct found.
  - left. destruct Hfound as [Hfound _]. destruct Hfound as [Hi2 Hne]; [done|].
    destruct its2 as [|z its2]; [done|]. destruct ds2 as [|b ds2]; [discriminate|].
    rewrite contents_cons, (assoc_L (++)) in Hc. apply app_inj_1 in Hc as [-> Hc].
    + injection Hc as -> ->. exists idx, its2. split_and!; try done. cbn. lia.
    + apply Nat2Z.inj. change (zlen xs = zlen (lead its1 ds1 ++ r_xs e)). rewrite zlen_app. lia.
  - right. destruct (child_split its2 e ds2 xs x ys (lead its1 ds1) idx) as (es1 & es2 & Hes & <- & -> & _);
      [done|done|done| |done|].
    { intros Hi2. destruct its2; [done|]. destruct Hfound as [_ Hfound]. discriminate Hfound; done. }
    exists es1, es2. split_and!; try done. intros e' es He'.
    destruct (contents_head its2 e ds2 Hl3) as (tl & Htl & _).
    rewrite contents_lead, Htl, He' by lia. rewrite Htl, Hes, <-!(assoc_L (++)) in Hc.
    apply app_inv_head, app_inv_head in Hc. injection Hc as ->. by rewrite <-!(assoc_L (++)).
Qed.

Lemma nodeDeleteAt_ok fuel t σ O Γ d xs x ys :
  own (copied t) σ O (d :: Γ) → private σ (r_loc d) → r_h d < fuel → 1 ≤ r_len d →
  r_xs d = xs ++ x :: ys →
  removes (copied t) (nodeDeleteAt fuel t (r_loc d) (zlen xs)) σ O Γ d x (xs ++ ys).
Proof.
  revert σ O Γ d xs x ys. induction fuel as [|fuel IH]; intros σ O Γ d xs x ys Ho Hp Hf Hone Hxs; [lia|].
  destruct (own_open _ _ _ _ _ Ho Hp) as (its & ds & Ho1 & HO & Hlen & Hmax & Hfit & Hc).
  unfold removes. cbn [nodeDeleteAt]. apply runs_bind.
  eapply runs_load_open; [exact Ho1|apply lookup_insert_eq|].
  destruct (r_h d) as [|h] eqn:Eh; rewrite leaf_mknode.
  - cbn in Hfit. subst ds. rewrite Hxs in Hc. rewrite contents_leaf in Hc. subst its.
    cbv zeta. unfold zlen. rewrite Nat2Z.id.
    apply runs_bind. eapply runs_some; [cbn; by apply list_lookup_middle|].
    rewrite mknode_items, delete_middle. eapply leaf_removed; try done.
    rewrite <-Hlen, !length_app. cbn. lia.
  - destruct Hfit as [Hl Hkids].
    apply runs_bind. eapply runs_some; [done|]. cbn [counts]. rewrite len_mknode.
    destruct (at_index its ds xs x ys) as (its1 & its2 & ds1 & e & ds2 & -> & -> & Hl2 & Hl3 & Haim);
      [lia|congruence|].
    apply Forall_app in Hkids as [Hds1 Hkids]. apply Forall_cons in Hkids as [[Hhe Hme] Hds2].
    destruct Haim as [(idx & its3 & Hseek & -> & -> & -> & Hds)|(es1 & es2 & Hseek & Hes & -> & Hys)];
      unfold sizes in Hseek; rewrite Hseek; cbv iota beta;
      (eapply enter_ok; [exact Ho1|done|lia|]); intros σ1 e' Hhe' Hle' Hxe' Ho2 Hp2.
    + (* the item after the child: the child's largest takes its place *)
      destruct (last (r_xs e)) as [y|] eqn:Ey.
      2:{ apply last_None in Ey. destruct (child_nonempty _ _ _ _ e Ho1); [set_solver|done|done]. }
      apply last_Some in Ey as [es Hes].
      apply runs_bind, runs_bind. eapply runs_some; [cbn; by apply list_lookup_middle|].
      apply runs_bind. eapply runs_mono.
      { eapply nodeDeleteMax_ok; [exact Ho2|exact Hp2|lia|node_lia|by rewrite Hxe']. }
      intros a σ2 (-> & e'' & Hlost & Ho3 & Hp3).
      apply runs_bind. eapply runs_load_open; [exact Ho3|apply lookup_insert_eq|].
      apply runs_bind. eapply runs_set_open; [exact Ho3|apply lookup_insert_eq|]. intros σ3 Ho4.
      written Ho4 as (mknode (its1 ++ y :: its3) 0 (S h) (ds1 ++ e' :: ds2)) by by apply swap_item.
      rewrite insert_insert_eq in Ho4. apply runs_ret.
      eapply (leave_ok _ _ _ _ _ Γ d _ (its1 ++ y :: its3) h ds1 e' e'' ds2); try done; try lia;
        try (destruct Hlost as (? & ? & ? & ? & ?); congruence || lia).
      * rewrite <-Hlen, !length_app. done.
      * eapply (lost_size e' e'' y es []); [by rewrite Hxe'|by rewrite app_nil_r].
      * rewrite length_app. cbn in *. lia.
      * intros σ4 d' Hd' Ho5 Hp5. split; [done|]. exists d'. split_and!; try done.
        destruct ds2 as [|b ds2]; [cbn in Hds; lia|].
        rewrite contents_lead, contents_cons in Hd' by (cbn in *; lia).
        assert (r_xs e'' = es) as Hx'' by apply Hlost. rewrite Hx'' in Hd'.
        rewrite Hes, <-!(assoc_L (++)). done.
    + (* in the child *)
      apply runs_bind. eapply runs_mono.
      { eapply IH; [exact Ho2|exact Hp2|lia|node_lia|by rewrite Hxe']. }
      intros a σ2 (-> & e'' & Hlost & Ho3 & Hp3).
      eapply (leave_ok _ _ _ _ _ Γ d _ (its1 ++ its2) h ds1 e' e'' ds2); try done; try lia;
        try (destruct Hlost as (? & ? & ? & ? & ?); congruence || lia).
      * eapply (lost_size e' e'' x es1 es2); [by rewrite Hxe'|done].
      * rewrite length_app. lia.
      * intros σ4 d' Hd' Ho5 Hp5. split; [done|]. exists d'. split_and!; try done.
        pose proof (Hys e'' [] ltac:(apply Hlost)) as Hc'. cbn [app] in Hc'. by rewrite Hc'.
Qed.
End descend.
