(* ===== verification/BtreeInsert.v ===== *)
(** Insertions into the B-tree of btype_btree.go: splitting a full child, and the descents of PushFront
    and PushBack. *)

From stdpp Require Import gmap.
From S2P Require Import Prelude Btree BtreeOwn BtreeRules BtreeDelete BtreeRemove BtreeDescend.

Section insert.
Context {K V : Type} `{F : !Frozen K V}.
Abbreviation node := (node K V).
Abbreviation ref := (@ref K V).
Abbreviation tree := (tree K V).
Abbreviation item := (K * V)%type.
Abbreviation store := (list node).
Implicit Types (σ : store) (O H : gmap nat node) (l : nat) (d e : ref) (ds Γ : list ref) (t : tree).
Implicit Types (x y : item) (its : list item).

(** ** Splitting *)

Lemma half_node its1 x its2 h ds1 ds2 c :
  fits h ds1 (length its1) →
  MkNode (take (length its1) (its1 ++ x :: its2)) c
    ((λ b, MkBranch (take (S (length its1)) (children b)) (take (S (length its1)) (counts b)))
      <$> nbranch (mknode (its1 ++ x :: its2) c h (ds1 ++ ds2))) = mknode its1 c h ds1.
Proof.
  intros Hf. rewrite take_app_length. destruct h; [done|]. destruct Hf as [Hl _].
  unfold mknode. cbn. rewrite !fmap_app, !take_app_length' by (rewrite length_fmap; lia). done.
Qed.

Lemma rest_node its1 x its2 h ds1 ds2 c c' :
  fits h ds1 (length its1) →
  MkNode (drop (S (length its1)) (its1 ++ x :: its2)) c
    ((λ b, MkBranch (drop (S (length its1)) (children b)) (drop (S (length its1)) (counts b)))
      <$> nbranch (mknode (its1 ++ x :: its2) c' h (ds1 ++ ds2))) = mknode its2 c h ds2.
Proof.
  intros Hf. rewrite (cons_middle x its1), (assoc_L (++)), drop_app_length'
    by (rewrite length_app; cbn; lia).
  destruct h; [done|]. destruct Hf as [Hl _].
  unfold mknode. cbn. rewrite !fmap_app, !drop_app_length' by (rewrite length_fmap; lia). done.
Qed.

Lemma splitNode_ok cp σ O Γ l its h ds :
  own cp σ O Γ → O !! l = Some (mknode its 0 h ds) → length its = maxItems → fits h ds maxItems →
  runs (splitNode l) σ (λ '(r, m) σ', ∃ its1 its2 ds1 ds2,
    its = its1 ++ m :: its2 ∧ ds = ds1 ++ ds2 ∧ length its1 = minItems ∧ length its2 = minItems ∧
    fits h ds1 minItems ∧ fits h ds2 minItems ∧ O !! r = None ∧
    own cp σ' (<[r := mknode its2 0 h ds2]> (<[l := mknode its1 0 h ds1]> O)) Γ).
Proof.
  intros Ho Hl Hlen Hfit. unfold splitNode. cbv zeta.
  change (maxItems - minItems - 1) with minItems.
  assert (∃ its1 m its2, its = its1 ++ m :: its2 ∧ length its1 = minItems) as (its1 & m & its2 & -> & Hl1).
  { destruct (lookup_lt_is_Some_2 its minItems) as [m Hm]; [node_lia|].
    exists (take minItems its), m, (drop (S minItems) its).
    rewrite take_drop_middle, length_take by done. split; [done|node_lia]. }
  rewrite length_app in Hlen. cbn in Hlen. assert (length its2 = minItems) as Hl2 by node_lia.
  replace maxItems with (minItems + S minItems) in Hfit by done.
  destruct (fits_split h ds minItems minItems Hfit) as (ds1 & ds2 & -> & Hf1 & Hf2).
  apply runs_bind. eapply runs_load_open; [exact Ho|exact Hl|].
  apply runs_bind. eapply runs_some; [rewrite <-Hl1; cbn; by apply list_lookup_middle|].
  apply runs_bind. eapply runs_newNode; [exact Ho|]. intros r σ1 Ho1 Hr.
  assert (r ≠ l) as Hrl by congruence.
  apply runs_bind. eapply runs_set_open; [exact Ho1|by rewrite lookup_insert_ne|]. intros σ2 Ho2.
  written Ho2 as (mknode its1 0 h ds1) by by rewrite <-Hl1; apply half_node; rewrite Hl1.
  apply runs_bind. eapply runs_set_open; [exact Ho2| |].
  { rewrite lookup_insert_ne by done. apply lookup_insert_eq. }
  intros σ3 Ho3.
  written Ho3 as (mknode its2 0 h ds2) by by rewrite <-Hl1; apply rest_node; rewrite Hl1.
  apply runs_ret. exists its1, its2, ds1, ds2. split_and!; try done.
  rewrite (insert_insert_ne O l r), insert_insert_eq in Ho3 by done. done.
Qed.

Lemma insertItemAt_ok cp σ O Γ l its1 its2 (b : option branch) x i Q :
  own cp σ O Γ → O !! l = Some (MkNode (its1 ++ its2) 0 b) → i = length its1 →
  length (its1 ++ its2) < maxItems →
  (∀ σ', own cp σ' (<[l := MkNode (its1 ++ x :: its2) 0 b]> O) Γ → only l σ σ' → Q () σ') →
  runs (insertItemAt l x i) σ Q.
Proof.
  intros Ho Hl -> Hlen HQ. unfold insertItemAt.
  apply runs_bind. eapply runs_load_open; [exact Ho|exact Hl|]. unfold len. cbn [items].
  rewrite decide_True by done. eapply runs_set_only; [exact Ho|exact Hl|].
  intros σ'. rewrite take_app_length, drop_app_length. apply HQ.
Qed.

Lemma insert_child (its' : list item) h ds1 (e lo hi : ref) ds2 q :
  r_loc lo = r_loc e →
  set_branch (Some (MkBranch
      (take (S (length ds1)) (r_loc <$> ds1 ++ e :: ds2) ++ r_loc hi ::
        drop (S (length ds1)) (r_loc <$> ds1 ++ e :: ds2))
      (take (S (length ds1)) (sizes (ds1 ++ e :: ds2)) ++ q ::
        drop (S (length ds1)) (sizes (ds1 ++ e :: ds2)))))
    (mknode its' 0 (S h) (ds1 ++ e :: ds2)) =
  MkNode its' 0 (Some (MkBranch (r_loc <$> ds1 ++ lo :: hi :: ds2)
    (sizes ds1 ++ zlen (r_xs e) :: q :: sizes ds2))).
Proof.
  intros Hlo.
  assert (∀ {A} (f : ref → A), take (S (length ds1)) (f <$> ds1 ++ e :: ds2) = (f <$> ds1) ++ [f e] ∧
    drop (S (length ds1)) (f <$> ds1 ++ e :: ds2) = f <$> ds2) as Hsplit.
  { intros A f. rewrite (cons_middle e ds1), (assoc_L (++)), fmap_app.
    rewrite take_app_length', drop_app_length' by (rewrite length_fmap, length_app; cbn; lia).
    by rewrite fmap_app. }
  unfold sizes at 1 2. destruct (Hsplit _ r_loc) as [-> ->].
  destruct (Hsplit _ (λ d, zlen (r_xs d))) as [-> ->].
  unfold set_branch, mknode. cbn [items rc]. rewrite fmap_app, !fmap_cons, Hlo, <-!(assoc_L (++)). done.
Qed.

(** Two halves and the item between them. *)
Definition halves h e (lo hi : ref) (m : item) : Prop :=
  child_ok h lo ∧ child_ok h hi ∧ r_len lo < maxItems ∧ r_len hi < maxItems ∧
  r_xs e = r_xs lo ++ m :: r_xs hi.

Lemma splitBranch_ok cp σ O Γ n its1 its2 h ds1 e ds2 :
  own cp σ (<[n := mknode (its1 ++ its2) 0 (S h) (ds1 ++ e :: ds2)]> O) (e :: ds1 ++ ds2 ++ Γ) →
  private σ (r_loc e) → length its1 = length ds1 → length (its1 ++ its2) < maxItems →
  r_h e = h → r_len e = maxItems →
  runs (splitBranch n (length ds1)) σ (λ _ σ', ∃ m lo hi, halves h e lo hi m ∧
    own cp σ' (<[n := mknode (its1 ++ m :: its2) 0 (S h) (ds1 ++ lo :: hi :: ds2)]> O)
      (lo :: hi :: ds1 ++ ds2 ++ Γ) ∧ private σ' (r_loc lo) ∧ private σ' (r_loc hi) ∧
    r_loc lo ≠ n ∧ r_loc hi ≠ n).
Proof.
  intros Ho Hp Hl1 Hlen Hhe Hle. unfold splitBranch.
  apply runs_bind. eapply runs_load_open; [exact Ho|apply lookup_insert_eq|].
  apply runs_bind, runs_bind. eapply runs_some; [done|].
  eapply runs_some; [cbn; rewrite list_lookup_fmap, list_lookup_middle by done; done|].
  destruct (own_open _ _ _ _ _ Ho Hp) as (its & ds & Ho1 & HO & Hk & _ & Hfit & Hxs).
  apply lookup_insert_None in HO as [HO Hne]. rewrite Hhe in Ho1, Hfit. rewrite Hle in Hk, Hfit.
  apply runs_bind. eapply runs_mono; [by eapply splitNode_ok; [exact Ho1|apply lookup_insert_eq|..]|].
  intros [r m] σ1 (i1 & i2 & d1 & d2 & -> & -> & Hk1 & Hk2 & Hf1 & Hf2 & Hr & Ho2).
  apply lookup_insert_None in Hr as [Hr Hre]. apply lookup_insert_None in Hr as [Hr Hrn].
  rewrite insert_insert_eq in Ho2.
  set (lo := MkRef (r_loc e) h minItems (contents i1 d1)).
  set (hi := MkRef r h minItems (contents i2 d2)).
  assert (halves h e lo hi m) as Hhalves.
  { unfold halves, child_ok. cbn. split_and!; try done; try node_lia.
    rewrite Hxs. apply (contents_join h); by rewrite ?Hk1, ?Hk2. }
  (* close both halves *)
  apply (own_perm _ _ _ _ (d2 ++ d1 ++ ds1 ++ ds2 ++ Γ)) in Ho2; [|solve_Permutation].
  eapply (own_close' _ _ _ _ hi i2) in Ho2 as [Ho3 Hphi];
    [|apply lookup_insert_eq|unfold node_of; cbn [r_len r_h r_xs hi lo]; split_and!; try done; node_lia].
  cbn [r_loc hi] in Ho3. rewrite delete_insert_eq, delete_id in Ho3 by by simplify_map_eq.
  apply (own_perm _ _ _ _ (d1 ++ hi :: ds1 ++ ds2 ++ Γ)) in Ho3; [|solve_Permutation].
  eapply (own_close' _ _ _ _ lo i1) in Ho3 as [Ho4 Hplo];
    [|apply lookup_insert_eq|unfold node_of; cbn [r_len r_h r_xs hi lo]; split_and!; try done; node_lia].
  cbn [r_loc lo] in Ho4. rewrite delete_insert_eq, delete_id in Ho4 by by simplify_map_eq.
  (* the parent takes the middle item and the right half *)
  apply runs_bind. eapply (insertItemAt_ok _ _ _ _ _ its1 its2); [exact Ho4|apply lookup_insert_eq|done|done|].
  intros σ2 Ho5 Honly2. rewrite insert_insert_eq in Ho5.
  apply runs_bind. unfold insertChildAt.
  apply runs_bind. eapply runs_load_open; [exact Ho5|apply lookup_insert_eq|].
  apply runs_bind. eapply runs_some; [done|].
  eapply runs_set_only; [exact Ho5|apply lookup_insert_eq|]. intros σ3 Ho6 Honly3.
  rewrite insert_insert_eq in Ho6. cbn [children counts] in Ho6.
  match type of Ho6 with own _ _ (<[_ := set_branch (Some (MkBranch _ (_ ++ ?q :: _))) _]> _) _ =>
    written Ho6 as (MkNode (its1 ++ m :: its2) 0 (Some (MkBranch (r_loc <$> ds1 ++ lo :: hi :: ds2)
      (sizes ds1 ++ zlen (r_xs e) :: q :: sizes ds2)))) by by apply (insert_child _ h ds1 e lo hi ds2 q) end.
  eapply runs_mono.
  { eapply (recount_both _ _ _ _ _ _ h ds1 lo (hi :: ds2)); [exact Ho6|apply lookup_insert_eq| |..].
    - set_solver.
    - cbn. by rewrite length_sizes.
    - done. }
  cbv beta. intros _ σ4 [Honly4 Ho7]. rewrite insert_insert_eq in Ho7.
  assert (only n σ1 σ4) as Honly by (repeat (eapply only_trans; [eassumption|]); done).
  exists m, lo, hi. split_and!; try done; by eapply only_private.
Qed.

(** ensureBranch, for a child that is private. *)
Lemma ensureBranch_ok cp σ O Γ n its1 its2 h ds1 e ds2 :
  own cp σ (<[n := mknode (its1 ++ its2) 0 (S h) (ds1 ++ e :: ds2)]> O) (e :: ds1 ++ ds2 ++ Γ) →
  private σ (r_loc e) → length its1 = length ds1 → length (its1 ++ its2) < maxItems → r_h e = h →
  runs (ensureBranch n (length ds1)) σ (λ split σ',
    split = false ∧ σ' = σ ∧ r_len e < maxItems ∨
    split = true ∧ ∃ m lo hi, halves h e lo hi m ∧
      own cp σ' (<[n := mknode (its1 ++ m :: its2) 0 (S h) (ds1 ++ lo :: hi :: ds2)]> O)
        (lo :: hi :: ds1 ++ ds2 ++ Γ) ∧ private σ' (r_loc lo) ∧ private σ' (r_loc hi) ∧
      r_loc lo ≠ n ∧ r_loc hi ≠ n).
Proof.
  intros Ho Hp Hl Hlen Hhe. unfold ensureBranch.
  apply runs_bind. eapply runs_load_open; [exact Ho|apply lookup_insert_eq|].
  apply runs_bind, runs_bind. eapply runs_some; [done|].
  eapply runs_some; [cbn; rewrite list_lookup_fmap, list_lookup_middle by done; done|].
  destruct (own_node _ _ _ _ e Ho) as (cits & c & cds & Hc & Hk & Hm & _); [set_solver|].
  apply runs_bind. eapply runs_load; [exact Hc|]. rewrite len_mknode, Hk.
  destruct (decide (r_len e = maxItems)).
  - apply runs_bind. eapply runs_mono; [by eapply splitBranch_ok|].
    cbv beta. intros _ σ1 Hsplit. apply runs_ret. by right.
  - apply runs_ret. left. split_and!; [done..|lia].
Qed.

(** ** The descents *)

(** [d] with other contents and at least as many items of its own. *)
Definition gained d d' (xs : list item) : Prop :=
  r_loc d' = r_loc d ∧ r_h d' = r_h d ∧ r_xs d' = xs ∧ r_len d ≤ r_len d'.

(** [m] accepts the item and leaves the private subtree [d] with contents [xs]. *)
Definition adds cp (m : sto K V bool) σ O Γ d (xs : list item) : Prop :=
  runs m σ (λ ok σ', ok = true ∧ ∃ d', gained d d' xs ∧ own cp σ' O (d' :: Γ) ∧ private σ' (r_loc d)).

(** The count is raised before the descent, and right after it. *)
Lemma grow_ok cp σ O Γ d its h ds1 e ds2 i xs ys (k : sto K V bool) :
  own cp σ (<[r_loc d := mknode its 0 (S h) (ds1 ++ e :: ds2)]> O) (e :: ds1 ++ ds2 ++ Γ) →
  private σ (r_loc e) → r_loc e ≠ r_loc d → O !! r_loc d = None → r_h d = S h →
  r_len d ≤ length its ≤ maxItems → length its = length ds1 + length ds2 →
  Forall (child_ok h) ds1 → Forall (child_ok h) ds2 → child_ok h e → i = length ds1 →
  zlen xs = (zlen (r_xs e) + 1)%Z → (∀ e', r_xs e' = xs → contents its (ds1 ++ e' :: ds2) = ys) →
  (∀ σ' e1 O', r_loc e1 = r_loc e → O' = <[r_loc d := mknode its 0 (S h) (ds1 ++ e1 :: ds2)]> O →
    own cp σ' O' (e :: ds1 ++ ds2 ++ Γ) → private σ' (r_loc e) →
    adds cp k σ' O' (ds1 ++ ds2 ++ Γ) e xs) →
  adds cp (upd_count (r_loc d) i (λ c, c + 1)%Z;; k) σ O Γ d ys.
Proof.
  intros Ho Hp Hed HO Hh Hlen Hl Hds1 Hds2 [Hhe Hme] -> Hz Hys Hk. unfold adds.
  set (e1 := MkRef (r_loc e) (r_h e) (r_len e) xs).
  apply runs_bind. eapply runs_mono.
  { eapply (upd_count_ok _ _ _ _ _ its h ds1 e e1 ds2); [exact Ho|apply lookup_insert_eq|done|done]. }
  cbv beta. intros _ σ1 [Honly Ho1]. rewrite insert_insert_eq in Ho1.
  eapply runs_mono; [apply (Hk σ1 e1 _ eq_refl eq_refl Ho1); by eapply only_private|].
  intros ok σ2 [-> (e2 & (Hl2 & Hh2 & Hx2 & Hle2) & Ho2 & Hp2)]. split; [done|].
  set (d' := MkRef (r_loc d) (S h) (length its) ys).
  replace (mknode its 0 (S h) (ds1 ++ e1 :: ds2)) with (mknode its 0 (S h) (ds1 ++ e2 :: ds2)) in Ho2.
  2:{ unfold mknode. by rewrite !fmap_app, !fmap_cons, Hl2, Hx2. }
  apply (own_perm _ _ _ _ ((ds1 ++ e2 :: ds2) ++ Γ)) in Ho2; [|solve_Permutation].
  eapply (own_close' _ _ _ _ d' its) in Ho2 as [Ho3 Hp3]; [|apply lookup_insert_eq|].
  - cbn [r_loc d'] in Ho3. rewrite delete_insert_eq, delete_id in Ho3 by done.
    exists d'. split_and!; try done. split_and!; try done. cbn. lia.
  - unfold node_of. cbn [r_len r_h r_xs d']. split_and!; [done|lia| |by rewrite Hys].
    split; [rewrite length_app; cbn; lia|]. apply Forall_app_2; [done|].
    constructor; [|done]. split; [congruence|lia].
Qed.

(** The leaf the item goes into. *)
Lemma leaf_added cp σ O Γ d its1 its2 x i :
  own cp σ (<[r_loc d := mknode (its1 ++ its2) 0 0 []]> O) Γ → O !! r_loc d = None → r_h d = 0 →
  length (its1 ++ its2) = r_len d → r_len d < maxItems → i = length its1 →
  adds cp (insertItemAt (r_loc d) x i;; mret true) σ O Γ d (its1 ++ x :: its2).
Proof.
  intros Ho HO Hh Hl Hmax ->. unfold adds. apply runs_bind.
  eapply (insertItemAt_ok _ _ _ _ _ its1 its2); [exact Ho|apply lookup_insert_eq|done|lia|].
  intros σ1 Ho1 _. rewrite insert_insert_eq in Ho1. apply runs_ret. split; [done|].
  set (d' := MkRef (r_loc d) 0 (length (its1 ++ x :: its2)) (its1 ++ x :: its2)).
  rewrite length_app in Hl.
  eapply (own_close' _ _ _ Γ d' (its1 ++ x :: its2) []) in Ho1 as [Ho2 Hp2]; [|apply lookup_insert_eq|].
  - cbn [r_loc d'] in Ho2. rewrite delete_insert_eq, delete_id in Ho2 by done.
    exists d'. split_and!; try done. split_and!; try done. cbn. rewrite length_app. cbn. lia.
  - unfold node_of. cbn [r_len r_h r_xs d']. split_and!; try done.
    rewrite length_app. cbn. lia.
Qed.

(** ** PushBack and PushFront *)

Lemma lte_nil t x y : dataCompare t = None → lte t x y = false.
Proof. unfold lte. by intros ->. Qed.

Lemma gte_nil t x y : dataCompare t = None → gte t x y = false.
Proof. unfold gte. by intros ->. Qed.

Lemma contents_snoc its ds e ys :
  length its = length ds → contents its (ds ++ [e]) ++ ys = lead its ds ++ r_xs e ++ ys.
Proof.
  intros Hl. rewrite <-(app_nil_r its) at 1.
  by rewrite contents_lead, contents_one, <-(assoc_L (++)).
Qed.

Lemma lead_snoc its ds m e :
  length its = length ds → lead (its ++ [m]) (ds ++ [e]) = lead its ds ++ r_xs e ++ [m].
Proof.
  intros Hl. unfold lead. rewrite fmap_app, zip_with_app by (by rewrite length_fmap).
  rewrite join_app. cbn. by rewrite app_nil_r.
Qed.

Lemma pushBack_loop_ok fuel t σ O Γ d x :
  dataCompare t = None →
  own (copied t) σ O (d :: Γ) → private σ (r_loc d) → r_h d < fuel → 1 ≤ r_len d < maxItems →
  adds (copied t) (pushBack_loop fuel t (r_loc d) x) σ O Γ d (r_xs d ++ [x]).
Proof.
  intros Hcmp. revert σ O Γ d. induction fuel as [|fuel IH]; intros σ O Γ d Ho Hp Hf Hk; [lia|].
  destruct (own_open _ _ _ _ _ Ho Hp) as (its & ds & Ho1 & HO & Hlen & Hmax & Hfit & Hc).
  cbn [pushBack_loop]. unfold adds. apply runs_bind.
  eapply runs_load_open; [exact Ho1|apply lookup_insert_eq|].
  destruct (r_h d) as [|h] eqn:Eh; rewrite leaf_mknode.
  - cbn in Hfit. subst ds. rewrite contents_leaf in Hc.
    assert (∃ a z, items (mknode its 0 0 []) !! 0 = Some a ∧ last (items (mknode its 0 0 [])) = Some z)
      as (a & z & Ha & Hz).
    { rewrite mknode_items. destruct its as [|a its]; [cbn in Hlen; lia|]. exists a.
      destruct (last (a :: its)) eqn:E; [by eexists|]. by apply last_None in E. }
    apply runs_bind. eapply runs_some; [exact Ha|]. apply runs_bind. eapply runs_some; [exact Hz|].
    rewrite lte_nil by done. rewrite Hc, len_mknode.
    replace (mknode its 0 0 []) with (mknode (its ++ []) 0 0 [] : node) in Ho1 by by rewrite app_nil_r.
    eapply leaf_added; try done; [by rewrite app_nil_r|lia].
  - destruct Hfit as [Hl Hkids]. destruct ds as [|e ds1 _] using rev_ind; [discriminate|].
    rewrite length_app in Hl. cbn in Hl. apply Forall_app in Hkids as [Hds1 He].
    apply Forall_cons in He as [[Hhe Hme] _]. rewrite len_mknode.
    eapply enter_child; [exact Ho1|lia|lia|]. intros σ1 e' Hhe' Hle' Hxe' Hne' Ho2 Hp2.
    replace (mknode its 0 (S h) (ds1 ++ [e'])) with (mknode (its ++ []) 0 (S h) (ds1 ++ [e']) : node) in Ho2
      by by rewrite app_nil_r.
    replace (length its) with (length ds1) by lia.
    apply runs_bind. eapply runs_mono.
    { eapply (ensureBranch_ok _ _ _ Γ _ its [] h ds1 e' []); try done; [lia|rewrite app_nil_r; lia|lia]. }
    cbv beta. intros split σ2 [(-> & -> & Hsmall)|(-> & m & lo & hi & Hhalf & Ho3 & Hplo & Hphi & Hnlo & Hnhi)].
    + rewrite app_nil_r in Ho2. apply runs_bind.
      eapply runs_load_open; [exact Ho2|apply lookup_insert_eq|]. rewrite len_mknode.
      eapply (grow_ok _ _ _ Γ d its h ds1 e' [] (length its) (r_xs e ++ [x]));
        try done; try (cbn; lia).
      * split; lia.
      * rewrite Hxe', zlen_app. done.
      * intros e2 He2. rewrite Hc, contents_snoc by lia. rewrite <-(app_nil_r its) at 1.
        by rewrite contents_lead, contents_one, He2 by lia.
      * intros σ3 e1 O' He1 -> Ho3 Hp3. unfold adds.
        apply runs_bind. apply runs_bind. eapply runs_some; [done|].
        eapply runs_some; [cbn; rewrite list_lookup_fmap, list_lookup_middle by lia; done|].
        rewrite <-Hxe'. apply IH; [done|done|lia|node_lia].
    + destruct Hhalf as ([Hhl Hml] & [Hhh Hmh] & Hlmax & Hhmax & Hxs).
      apply runs_bind. eapply runs_load_open; [exact Ho3|apply lookup_insert_eq|]. rewrite len_mknode.
      replace (mknode (its ++ [m]) 0 (S h) (ds1 ++ [lo; hi])) with
        (mknode (its ++ [m]) 0 (S h) ((ds1 ++ [lo]) ++ [hi]) : node) in Ho3 by by rewrite <-(assoc_L (++)).
      eapply (grow_ok _ _ _ Γ d (its ++ [m]) h (ds1 ++ [lo]) hi [] _ (r_xs hi ++ [x]));
        try done; rewrite ?length_app; try (cbn; lia).
      * eapply own_perm; [|exact Ho3]. solve_Permutation.
      * apply Forall_app_2; [done|]. repeat constructor; done.
      * rewrite zlen_app. done.
      * intros e2 He2. rewrite Hc, contents_snoc by lia.
        rewrite <-(app_nil_r (its ++ [m])), contents_lead, contents_one, He2 by (rewrite !length_app; cbn; lia).
        rewrite lead_snoc, <-Hxe', Hxs, <-!(assoc_L (++)) by lia. done.
      * intros σ3 e1 O' He1 -> Ho4 Hp4. unfold adds.
        apply runs_bind. apply runs_bind. eapply runs_some; [done|].
        eapply runs_some.
        { cbn. replace (ds1 ++ [lo; hi]) with ((ds1 ++ [lo]) ++ [hi]) by by rewrite <-(assoc_L (++)).
          rewrite list_lookup_fmap, (list_lookup_middle (ds1 ++ [lo]) [] hi); [done|].
          rewrite length_app. cbn. lia. }
        apply IH; [done|done|lia|node_lia].
Qed.

Lemma pushFront_loop_ok fuel t σ O Γ d x :
  dataCompare t = None →
  own (copied t) σ O (d :: Γ) → private σ (r_loc d) → r_h d < fuel → 1 ≤ r_len d < maxItems →
  adds (copied t) (pushFront_loop fuel t (r_loc d) x) σ O Γ d (x :: r_xs d).
Proof.
  intros Hcmp. revert σ O Γ d. induction fuel as [|fuel IH]; intros σ O Γ d Ho Hp Hf Hk; [lia|].
  destruct (own_open _ _ _ _ _ Ho Hp) as (its & ds & Ho1 & HO & Hlen & Hmax & Hfit & Hc).
  cbn [pushFront_loop]. unfold adds. apply runs_bind.
  eapply runs_load_open; [exact Ho1|apply lookup_insert_eq|].
  destruct (r_h d) as [|h] eqn:Eh; rewrite leaf_mknode.
  - cbn in Hfit. subst ds. rewrite contents_leaf in Hc.
    destruct its as [|a its]; [cbn in Hlen; lia|].
    apply runs_bind. eapply runs_some; [done|].
    rewrite gte_nil by done. rewrite Hc.
    apply (leaf_added _ _ _ _ _ [] (a :: its)); try done; lia.
  - destruct Hfit as [Hl Hkids]. destruct ds as [|e ds2]; [discriminate|]. cbn in Hl.
    apply Forall_cons in Hkids as [[Hhe Hme] Hds2].
    eapply (enter_child _ _ _ _ _ _ _ _ _ [] e ds2); [exact Ho1|done|lia|].
    intros σ1 e' Hhe' Hle' Hxe' Hne' Ho2 Hp2.
    apply runs_bind. eapply runs_mono.
    { eapply (ensureBranch_ok _ _ _ Γ _ [] its h [] e' ds2); try done; cbn; lia. }
    cbv beta. intros split σ2 [(-> & -> & Hsmall)|(-> & m & lo & hi & Hhalf & Ho3 & Hplo & Hphi & Hnlo & Hnhi)].
    + eapply (grow_ok _ _ _ Γ d its h [] e' ds2 0 (x :: r_xs e)); try done; try (cbn; lia).
      * split; lia.
      * rewrite Hxe', zlen_cons. lia.
      * intros e2 He2. rewrite Hc. unfold contents. cbn [app fmap list_fmap]. rewrite He2.
        apply (weave_prepend [x]).
      * intros σ3 e1 O' He1 -> Ho3 Hp3. unfold adds.
        apply runs_bind. eapply runs_load_open; [exact Ho3|apply lookup_insert_eq|].
        apply runs_bind. apply runs_bind. eapply runs_some; [done|]. eapply runs_some; [done|].
        rewrite <-Hxe', He1. apply IH; [done|done|lia|node_lia].
    + destruct Hhalf as ([Hhl Hml] & [Hhh Hmh] & Hlmax & Hhmax & Hxs).
      eapply (grow_ok _ _ _ Γ d (m :: its) h [] lo (hi :: ds2) 0 (x :: r_xs lo)); try done; try (cbn; lia).
      * by constructor.
      * rewrite zlen_cons. lia.
      * intros e2 He2. rewrite Hc. unfold contents. cbn [app fmap list_fmap]. rewrite He2.
        change (r_xs e2 :: ?l) with (r_xs e2 :: l).
        rewrite <-Hxe', Hxs. rewrite weave_cons.
        rewrite (cons_middle m (r_xs lo)), (assoc_L (++) (r_xs lo)), weave_prepend.
        rewrite <-(assoc_L (++)). done.
      * intros σ3 e1 O' He1 -> Ho4 Hp4. unfold adds.
        apply runs_bind. eapply runs_load_open; [exact Ho4|apply lookup_insert_eq|].
        apply runs_bind. apply runs_bind. eapply runs_some; [done|]. eapply runs_some; [done|].
        rewrite He1. apply IH; [done|done|lia|node_lia].
Qed.
End insert.
