(* ===== verification/BtreeTree.v ===== *)
(** Whole trees of btype_btree.go: what it means that a tree holds a list of items next to whatever
    shares nodes with it, and that every operation does to the list what it should. *)

From stdpp Require Import gmap.
From S2P Require Import Prelude Btree BtreeOwn BtreeRules BtreeDelete BtreeRemove BtreeDescend BtreeInsert.

Section trees.
Context {K V : Type} `{F : !Frozen K V}.
Abbreviation node := (node K V).
Abbreviation ref := (@ref K V).
Abbreviation tree := (tree K V).
Abbreviation item := (K * V)%type.
Abbreviation store := (list node).
Implicit Types (σ : store) (O H : gmap nat node) (l : nat) (d e : ref) (ds Γ : list ref) (t : tree).
Implicit Types (x y : item) (its xs ys : list item).

(** ** Heights *)

(** A tree is no deeper than it has items, so the item count is fuel enough. *)
Lemma rep_height H d : reps H d → 1 ≤ r_len d → r_h d < length (r_xs d).
Proof.
  remember (r_h d) as h eqn:Eh. revert d Eh.
  induction h as [|h IH]; intros d Eh Hrep Hk;
    destruct (reps_node _ _ Hrep) as (its & c & ds & _ & (Hlen & _ & Hfit & ->) & Hds);
    rewrite <-Eh in Hfit; cbn in Hfit.
  - subst ds. rewrite contents_leaf. lia.
  - destruct Hfit as [Hn Hf]. destruct its as [|x its]; [cbn in Hlen; lia|].
    destruct ds as [|e ds]; [discriminate|]. rewrite contents_cons, length_app. cbn.
    apply Forall_cons in Hf as [[Hh Hm] _]. apply Forall_cons in Hds as [He _].
    specialize (IH e (eq_sym Hh) He). node_lia.
Qed.

Lemma own_height cp σ O Γ d : own cp σ O Γ → d ∈ Γ → 1 ≤ r_len d → r_h d < length (r_xs d).
Proof.
  intros [H Hw] Hd. pose proof (ow_reps _ _ _ _ _ Hw) as HΓ. rewrite Forall_forall in HΓ.
  apply (rep_height H). by apply HΓ.
Qed.

(** ** The root *)

Lemma set_root_id t r : root t = r → set_root r t = t.
Proof. destruct t; cbn. by intros <-. Qed.

Lemma cowRoot_ok fuel t σ O Γ d :
  own (copied t) σ O (d :: Γ) → root t = Some (r_loc d) → r_h d < fuel →
  runs (cowRoot fuel true t) σ (λ t' σ', ∃ d', t' = set_root (Some (r_loc d')) t ∧
    r_h d' = r_h d ∧ r_len d' = r_len d ∧ r_xs d' = r_xs d ∧
    own (copied t) σ' O (d' :: Γ) ∧ private σ' (r_loc d')).
Proof.
  intros Ho Hr Hf.
  assert (private σ (r_loc d) → runs (mret t) σ (λ t' σ', ∃ d', t' = set_root (Some (r_loc d')) t ∧
    r_h d' = r_h d ∧ r_len d' = r_len d ∧ r_xs d' = r_xs d ∧
    own (copied t) σ' O (d' :: Γ) ∧ private σ' (r_loc d'))) as Hpriv.
  { intros Hp. apply runs_ret. exists d. split_and!; try done. by rewrite set_root_id. }
  destruct (own_counter _ _ _ _ _ Ho) as (m & Hm & Hpos).
  unfold cowRoot. rewrite Hr. destruct (copied t) eqn:Ecp; cbn [andb].
  2:{ apply Hpriv. eapply own_uncopied; [exact Ho|set_solver]. }
  apply runs_bind. eapply runs_load; [exact Hm|]. destruct (0 <? rc m)%Z eqn:Erc.
  - apply runs_bind. eapply runs_mono; [by apply cow0_ok|].
    intros c σ' (cits & cds & HO & Hnode & Ho'). apply runs_ret.
    set (d' := MkRef c (r_h d) (r_len d) (r_xs d)). exists d'.
    eapply (own_close' _ _ _ Γ d' cits cds) in Ho' as [Ho' Hp']; [|apply lookup_insert_eq|done].
    cbn [r_loc d'] in Ho'. rewrite delete_insert_eq, delete_id in Ho' by done. done.
  - apply Hpriv. exists m. split; [done|]. apply Z.ltb_ge in Erc. lia.
Qed.

Lemma splitRoot_ok cp t σ O Γ d :
  own cp σ O (d :: Γ) → private σ (r_loc d) → root t = Some (r_loc d) → r_len d = maxItems →
  runs (splitRoot t) σ (λ t' σ', ∃ d', t' = set_root (Some (r_loc d')) t ∧
    r_len d' = 1 ∧ r_xs d' = r_xs d ∧ own cp σ' O (d' :: Γ) ∧ private σ' (r_loc d')).
Proof.
  intros Ho Hp Hr Hfull. unfold splitRoot.
  destruct (own_open _ _ _ _ _ Ho Hp) as (its & ds & Ho1 & HO & Hk & _ & Hfit & Hxs).
  rewrite Hfull in Hk, Hfit. set (h := r_h d) in *.
  apply runs_bind. eapply runs_newNode; [exact Ho1|]. intros n σ1 Ho2 Hn.
  apply lookup_insert_None in Hn as [Hn Hne].
  apply runs_bind. rewrite Hr. eapply runs_some; [done|].
  apply runs_bind. eapply runs_mono.
  { eapply splitNode_ok; [exact Ho2|rewrite lookup_insert_ne by done; apply lookup_insert_eq|done|done]. }
  intros [r m] σ2 (i1 & i2 & d1 & d2 & -> & -> & Hk1 & Hk2 & Hf1 & Hf2 & Hrn & Ho3).
  apply lookup_insert_None in Hrn as [Hrn Hnr]. apply lookup_insert_None in Hrn as [Hrn Hdr].
  set (lo := MkRef (r_loc d) h minItems (contents i1 d1)).
  set (hi := MkRef r h minItems (contents i2 d2)).
  apply runs_bind. eapply runs_load_open; [exact Ho3|by rewrite lookup_insert_ne, lookup_insert_eq|].
  apply runs_bind. eapply runs_newNode; [exact Ho3|]. intros g σ3 Ho4 Hg.
  apply lookup_insert_None in Hg as [Hg Hgr]. apply lookup_insert_None in Hg as [Hg Hgd].
  apply lookup_insert_None in Hg as [Hg Hgn]. apply lookup_insert_None in Hg as [Hg _].
  apply (own_forget _ _ _ _ g) in Ho4.
  rewrite delete_insert_eq, delete_id in Ho4 by by simplify_map_eq.
  (* close both halves *)
  apply (own_perm _ _ _ _ (d2 ++ d1 ++ Γ)) in Ho4; [|solve_Permutation].
  eapply (own_close _ _ _ _ hi i2) in Ho4;
    [|apply lookup_insert_eq|unfold node_of; cbn [r_len r_h r_xs hi lo]; split_and!; try done; node_lia].
  cbn [r_loc hi] in Ho4. rewrite delete_insert_eq, delete_id in Ho4 by by simplify_map_eq.
  apply (own_perm _ _ _ _ (d1 ++ hi :: Γ)) in Ho4; [|solve_Permutation].
  eapply (own_close _ _ _ _ lo i1) in Ho4;
    [|apply lookup_insert_eq|unfold node_of; cbn [r_len r_h r_xs hi lo]; split_and!; try done; node_lia].
  cbn [r_loc lo] in Ho4.
  match type of Ho4 with own _ _ ?A _ => replace A with (<[n := MkNode [] 0 (Some (MkBranch [] []))]> O)
    in Ho4 by (symmetry; solve_open) end.
  apply runs_bind. eapply runs_set_open; [exact Ho4|apply lookup_insert_eq|].
  intros σ4 Ho5. rewrite insert_insert_eq in Ho5.
  apply runs_bind. eapply (insertItemAt_ok _ _ _ _ _ [] []); [exact Ho5|apply lookup_insert_eq|done|cbn; node_lia|].
  intros σ5 Ho6 _. rewrite insert_insert_eq in Ho6. cbn [app] in Ho6.
  eapply runs_seq.
  { eapply (recount_both _ _ _ _ n _ h [] lo [hi] 0%Z [0%Z]); [exact Ho6|apply lookup_insert_eq|..]; try done.
    set_solver. }
  cbv beta. intros _ σ6 [_ Ho7]. rewrite insert_insert_eq in Ho7. apply runs_ret.
  set (d' := MkRef n (S h) 1 (r_xs d)). exists d'.
  eapply (own_close' _ _ _ Γ d' [m] [lo; hi]) in Ho7 as [Ho8 Hp8]; [|apply lookup_insert_eq|].
  - cbn [r_loc d'] in Ho8. rewrite delete_insert_eq, delete_id in Ho8 by done. done.
  - unfold node_of. cbn [r_len r_h r_xs d']. split_and!; [done|node_lia| |].
    + split; [done|]. repeat constructor; done.
    + rewrite Hxs. apply (contents_join h); by rewrite ?Hk1, ?Hk2.
Qed.

(** After ensureRoot there is room in the root. *)
Lemma ensureRoot_ok cp t σ O Γ d :
  own cp σ O (d :: Γ) → private σ (r_loc d) → root t = Some (r_loc d) → 1 ≤ r_len d →
  runs (ensureRoot t) σ (λ t' σ', ∃ d', t' = set_root (Some (r_loc d')) t ∧
    1 ≤ r_len d' < maxItems ∧ r_xs d' = r_xs d ∧ own cp σ' O (d' :: Γ) ∧ private σ' (r_loc d')).
Proof.
  intros Ho Hp Hr Hone. unfold ensureRoot. rewrite Hr. apply runs_bind. eapply runs_some; [done|].
  destruct (own_node _ _ _ _ d Ho) as (its & c & ds & Hd & Hk & Hm & _); [set_solver|].
  apply runs_bind. eapply runs_load; [exact Hd|]. rewrite len_mknode, Hk.
  destruct (decide (r_len d = maxItems)).
  - eapply runs_mono; [by eapply splitRoot_ok|]. intros t' σ' (d' & ? & Hl & ?).
    exists d'. rewrite Hl. split; [done|]. split; [node_lia|done].
  - apply runs_ret. exists d. split_and!; try done; [by rewrite set_root_id|lia].
Qed.

(** ** What a tree holds *)

(** The spare leaf, if any, is open: nothing else may refer to it. *)
Definition spares t : gmap nat node :=
  match spare t with Some s => {[s := MkNode [] 0 None]} | None => ∅ end.

(** [holds cmp σ t xs Γ]: the tree [t], with its comparison [cmp], holds the items [xs], and [Γ] are the
    references that others hold into the same nodes. *)
Definition holds (cmp : option (K → V → K → V → Z)) σ t xs Γ : Prop :=
  tcount t = zlen xs ∧ dataCompare t = cmp ∧
  match root t with
  | None => xs = [] ∧ own (copied t) σ (spares t) Γ
  | Some r => spare t = None ∧
      ∃ d, r_loc d = r ∧ r_xs d = xs ∧ 1 ≤ r_len d ∧ own (copied t) σ ∅ (d :: Γ)
  end.

(** A positional tree has no comparison. *)
Abbreviation tree_own := (holds None).

(** A tree whose root is known. *)
Lemma tree_own_root {cmp} σ t d Γ n :
  own (copied t) σ ∅ (d :: Γ) → 1 ≤ r_len d → dataCompare t = cmp → spare t = None →
  n = zlen (r_xs d) → holds cmp σ (set_count n (set_root (Some (r_loc d)) t)) (r_xs d) Γ.
Proof. intros Ho Hk Hc Hs ->. split_and!; [done..|]. cbn. split; [done|]. by exists d. Qed.

Lemma tree_own_nonempty {cmp} σ t xs Γ :
  holds cmp σ t xs Γ → xs ≠ [] →
  ∃ d, root t = Some (r_loc d) ∧ spare t = None ∧ r_xs d = xs ∧ 1 ≤ r_len d ∧
    r_h d < depth t ∧ own (copied t) σ ∅ (d :: Γ) ∧ dataCompare t = cmp ∧ tcount t = zlen xs.
Proof.
  intros (Hn & Hc & Ht) Hne. destruct (root t) as [r|]; [|by destruct Ht].
  destruct Ht as (Hs & d & <- & <- & Hk & Ho). exists d. split_and!; try done.
  unfold depth. rewrite Hn. unfold zlen. rewrite Nat2Z.id. eapply own_height; [exact Ho|set_solver|done].
Qed.

(** ** Pushing *)

Lemma insertFirstItem_ok {cmp} x σ t Γ :
  holds cmp σ t [] Γ →
  runs (insertFirstItem x t) σ (λ t' σ', holds cmp σ' t' [x] Γ ∧ copied t' = copied t).
Proof.
  intros (_ & Hc & Ht).
  assert (own (copied t) σ (spares t) Γ) as Ho.
  { destruct (root t) as [r|]; [|by destruct Ht]. exfalso.
    destruct Ht as (_ & d & _ & Hd & Hk & Ho).
    destruct (own_node _ _ _ _ d Ho) as (its & c & ds & _ & Hn); [set_solver|].
    by eapply node_nonempty. }
  unfold insertFirstItem.
  assert (∀ r σ1 O1 t1, own (copied t) σ1 O1 Γ → O1 = <[r := MkNode [] 0 None]> ∅ →
    copied t1 = copied t → dataCompare t1 = cmp → spare t1 = None →
    runs (nd ← load r; set r (set_items [x] nd);; mret (set_count 1 (set_root (Some r) t1))) σ1
      (λ t' σ', holds cmp σ' t' [x] Γ ∧ copied t' = copied t)) as Hfill.
  { intros r σ1 O1 t1 Ho1 -> Hcp Hc1 Hs1.
    apply runs_bind. eapply runs_load_open; [exact Ho1|apply lookup_insert_eq|].
    apply runs_bind. eapply runs_set_open; [exact Ho1|apply lookup_insert_eq|].
    intros σ2 Ho2. rewrite insert_insert_eq in Ho2. apply runs_ret. split; [|done].
    set (d := MkRef r 0 1 [x]).
    eapply (own_close _ _ _ Γ d [x] []) in Ho2;
      [|apply lookup_insert_eq|unfold node_of; cbn; split_and!; try done; node_lia].
    cbn [r_loc d] in Ho2. rewrite delete_insert_eq, delete_id in Ho2 by done.
    apply (tree_own_root _ t1 d); try done; by rewrite Hcp. }
  unfold spares in Ho. destruct (spare t) as [s|] eqn:Es.
  - apply runs_bind, runs_ret. by apply (Hfill s _ {[s := MkNode [] 0 None]}).
  - apply runs_bind, runs_bind. eapply runs_newNode; [exact Ho|]. intros r σ1 Ho1 _. apply runs_ret.
    by eapply Hfill.
Qed.

(** What every insertion does, past the empty tree. *)
Lemma inserting_ok {cmp B C} (loop : tree → loc → sto K V B) (k : B → tree → loc → sto K V C) σ t xs ys Γ b Q :
  holds cmp σ t xs Γ → xs ≠ [] →
  (∀ σ t' d, copied t' = copied t → dataCompare t' = cmp → r_xs d = xs → r_h d < depth t →
    own (copied t) σ ∅ (d :: Γ) → private σ (r_loc d) → 1 ≤ r_len d < maxItems → depth t' = depth t →
    runs (loop t' (r_loc d)) σ (λ b' σ', b' = b ∧
      ∃ d', gained d d' ys ∧ own (copied t) σ' ∅ (d' :: Γ) ∧ private σ' (r_loc d))) →
  (∀ t' r σ', tcount t' = zlen xs → copied t' = copied t →
    (∀ n, n = zlen ys → holds cmp σ' (set_count n t') ys Γ) → runs (k b t' r) σ' Q) →
  runs (t ← cowRoot (depth t) true t; t ← ensureRoot t; r ← ofopt (root t); b ← loop t r; k b t r) σ Q.
Proof.
  intros Ht Hne Hloop Hk.
  destruct (tree_own_nonempty _ _ _ _ Ht Hne) as (d & Hr & Hs & Hx & Hk1 & Hh & Ho & Hc & Hn).
  apply runs_bind. eapply runs_mono; [by eapply cowRoot_ok|].
  intros t1 σ1 (d1 & -> & Hh1 & Hk2 & Hx1 & Ho1 & Hp1).
  apply runs_bind. eapply runs_mono; [eapply ensureRoot_ok; [exact Ho1|exact Hp1|done|lia]|].
  intros t2 σ2 (d2 & -> & Hk3 & Hx2 & Ho2 & Hp2).
  apply runs_bind. eapply runs_some; [done|].
  apply runs_bind. eapply runs_mono.
  { eapply (Hloop σ2 _ d2); try done; [congruence|].
    unfold depth. rewrite Hn, <-Hx, <-Hx1, <-Hx2. unfold zlen. rewrite Nat2Z.id.
    eapply own_height; [exact Ho2|set_solver|lia]. }
  intros b' σ3 (-> & d3 & (Hl3 & _ & <- & Hk4) & Ho3 & _). apply Hk; [done..|].
  intros n ->. rewrite <-Hl3. apply (tree_own_root _ _ d3); try done. lia.
Qed.

(** PushBack, PushFront and InsertAt. *)
Lemma pushing_ok (loop : tree → loc → sto K V bool) (k : bool → tree → loc → sto K V (bool * tree)) σ t xs ys Γ :
  (∀ t r, k true t r = mret (true, set_count (tcount t + 1) t)) → tree_own σ t xs Γ → xs ≠ [] → zlen ys = (zlen xs + 1)%Z →
  (∀ σ t' d, copied t' = copied t → dataCompare t' = None → r_xs d = xs → r_h d < depth t →
    own (copied t) σ ∅ (d :: Γ) → private σ (r_loc d) → 1 ≤ r_len d < maxItems →
    depth t' = depth t → adds (copied t) (loop t' (r_loc d)) σ ∅ Γ d ys) →
  runs (t ← cowRoot (depth t) true t; t ← ensureRoot t; r ← ofopt (root t); ok ← loop t r; k ok t r) σ
    (λ '(ok, t') σ', ok = true ∧ tree_own σ' t' ys Γ ∧ copied t' = copied t).
Proof.
  intros Hend Ht Hne Hz Hloop. eapply inserting_ok; [exact Ht|exact Hne|exact Hloop|].
  intros t' r σ' Hn Hcp Hholds. rewrite Hend. apply runs_ret. split; [done|]. split; [|done].
  apply Hholds. lia.
Qed.

Lemma PushBack_ok x σ t xs Γ :
  tree_own σ t xs Γ →
  runs (PushBack x t) σ (λ '(ok, t') σ', ok = true ∧ tree_own σ' t' (xs ++ [x]) Γ ∧ copied t' = copied t).
Proof.
  intros Ht. unfold PushBack. pose proof Ht as (Hn & _ & _). rewrite Hn.
  destruct (zlen xs =? 0)%Z eqn:E.
  - apply Z.eqb_eq, zlen_nil_iff in E. subst xs. apply runs_bind.
    eapply runs_mono; [by eapply insertFirstItem_ok|]. intros t' σ' ?. by apply runs_ret.
  - apply (pushing_ok (λ t r, pushBack_loop (depth t) t r x) (λ ok t r,
      if ok then mret (true, set_count (tcount t + 1) t) else rollbackBack (depth t) r;; mret (false, t)) σ t xs).
    + done.
    + done.
    + intros ->. done.
    + by rewrite zlen_app.
    + intros σ1 t' d Hcp Hc <- Hh Ho Hp Hk ->. rewrite <-Hcp. apply pushBack_loop_ok; try done. by rewrite Hcp.
Qed.

Lemma PushFront_ok x σ t xs Γ :
  tree_own σ t xs Γ →
  runs (PushFront x t) σ (λ '(ok, t') σ', ok = true ∧ tree_own σ' t' (x :: xs) Γ ∧ copied t' = copied t).
Proof.
  intros Ht. unfold PushFront. pose proof Ht as (Hn & _ & _). rewrite Hn.
  destruct (zlen xs =? 0)%Z eqn:E.
  - apply Z.eqb_eq, zlen_nil_iff in E. subst xs. apply runs_bind.
    eapply runs_mono; [by eapply insertFirstItem_ok|]. intros t' σ' ?. by apply runs_ret.
  - apply (pushing_ok (λ t r, pushFront_loop (depth t) t r x) (λ ok t r,
      if ok then mret (true, set_count (tcount t + 1) t) else rollbackFront (depth t) r;; mret (false, t)) σ t xs).
    + done.
    + done.
    + intros ->. done.
    + rewrite zlen_cons. lia.
    + intros σ1 t' d Hcp Hc <- Hh Ho Hp Hk ->. rewrite <-Hcp. apply pushFront_loop_ok; try done. by rewrite Hcp.
Qed.

(** ** Removing *)

(** collapseRootIfNeeded, after the root subtree [d] lost an item. *)
Lemma collapse_ok {cmp} σ t d Γ :
  own (copied t) σ ∅ (d :: Γ) → private σ (r_loc d) → root t = Some (r_loc d) →
  dataCompare t = cmp → spare t = None → tcount t = zlen (r_xs d) →
  runs (collapseRootIfNeeded t) σ (λ t' σ', σ' = σ ∧ holds cmp σ t' (r_xs d) Γ ∧ copied t' = copied t).
Proof.
  intros Ho Hp Hr Hc Hs Hn. unfold collapseRootIfNeeded. rewrite Hn, Hs, Hr.
  destruct (own_open _ _ _ _ _ Ho Hp) as (its & ds & Ho1 & HO & Hk & Hm & Hfit & Hxs).
  pose proof (own_open_lookup _ _ _ _ _ _ Ho1 (lookup_insert_eq _ _ _)) as Hl.
  destruct (zlen (r_xs d) =? 0)%Z eqn:E.
  - apply Z.eqb_eq, zlen_nil_iff in E.
    assert (its = [] ∧ r_h d = 0 ∧ ds = []) as (-> & Hh & ->).
    { rewrite E in Hxs. destruct its as [|x its].
      - destruct (r_h d) as [|h]; [by cbn in Hfit; subst|]. destruct Hfit as [Hl' Hf]. exfalso.
        rewrite <-Hk in Hl'. destruct ds as [|e [|]]; try discriminate. rewrite contents_one in Hxs.
        apply Forall_cons in Hf as [[_ Hme] _].
        destruct (child_nonempty _ _ _ _ e Ho1); [set_solver|done|congruence].
      - exfalso. destruct ds as [|e ds]; [done|]. rewrite contents_cons in Hxs. by destruct (r_xs e). }
    rewrite Hh in Hl, Ho1. apply runs_bind, runs_bind. eapply runs_load; [exact Hl|]. apply runs_ret.
    cbn [leaf nbranch mknode rc andb Z.eqb]. apply runs_ret. split; [done|]. split; [|done].
    split; [done|]. split; [done|]. cbn. done.
  - apply runs_bind. eapply runs_some; [done|]. apply runs_bind. eapply runs_load; [exact Hl|].
    rewrite len_mknode, leaf_mknode. apply Z.eqb_neq in E.
    destruct (length its =? 0) eqn:El; cbn [andb].
    + apply Nat.eqb_eq, nil_length_inv in El. subst its. destruct (r_h d) as [|h] eqn:Eh.
      { cbn in Hfit. subst ds. rewrite Hxs in E. done. }
      destruct Hfit as [Hl' Hf]. rewrite <-Hk in Hl'. destruct ds as [|e [|]]; try discriminate.
      cbn [negb]. apply runs_bind. apply runs_bind. eapply runs_some; [done|].
      eapply runs_some; [done|]. apply runs_ret. split; [done|]. split; [|done].
      apply Forall_cons in Hf as [[_ Hme] _]. rewrite Hxs, contents_one.
      apply (own_forget _ _ _ _ (r_loc d)) in Ho1. rewrite delete_insert_eq, delete_id in Ho1 by done.
      assert (tcount t = zlen (r_xs e)) as Hn' by by rewrite Hn, Hxs.
      replace (set_root _ t) with (set_count (tcount t) (set_root (Some (r_loc e)) t)) by by destruct t.
      apply (tree_own_root _ t e); try done. node_lia.
    + apply runs_ret. split; [done|]. split; [|done]. apply Nat.eqb_neq in El.
      replace t with (set_count (tcount t) (set_root (Some (r_loc d)) t)) by (destruct t; cbn in Hr |- *; by rewrite Hr).
      apply (tree_own_root _ t d); try done. lia.
Qed.

(** PopFront, PopBack and DeleteAt, past their checks. *)
Lemma removing_ok {cmp} (f : loc → sto K V item) σ t xs x ys Γ :
  holds cmp σ t xs Γ → xs ≠ [] → zlen xs = (zlen ys + 1)%Z →
  (∀ σ d, r_xs d = xs → r_h d < depth t → own (copied t) σ ∅ (d :: Γ) → private σ (r_loc d) →
    1 ≤ r_len d → removes (copied t) (f (r_loc d)) σ ∅ Γ d x ys) →
  runs (removing f t) σ (λ '(o, t') σ', o = Some x ∧ holds cmp σ' t' ys Γ ∧ copied t' = copied t).
Proof.
  intros Ht Hne Hz Hf.
  destruct (tree_own_nonempty _ _ _ _ Ht Hne) as (d & Hr & Hs & Hx & Hk & Hh & Ho & Hc & Hn).
  unfold removing. apply runs_bind. eapply runs_mono; [by eapply cowRoot_ok|].
  intros t1 σ1 (d1 & -> & Hh1 & Hk1 & Hx1 & Ho1 & Hp1).
  apply runs_bind. eapply runs_some; [done|].
  apply runs_bind. eapply runs_mono; [apply (Hf σ1 d1); try done; congruence || lia|].
  intros a σ2 (-> & d2 & (Hl2 & _ & <- & _) & Ho2 & Hp2). cbv zeta.
  apply runs_bind. eapply runs_mono.
  { eapply (collapse_ok σ2 _ d2); try done; cbn; [by rewrite Hl2|by rewrite Hl2|lia]. }
  intros t' σ3 (-> & Ht' & Hcp). by apply runs_ret.
Qed.

Lemma PopFront_ok {cmp} σ t xs Γ :
  holds cmp σ t xs Γ →
  runs (PopFront t) σ (λ '(o, t') σ', o = head xs ∧ holds cmp σ' t' (tail xs) Γ ∧ copied t' = copied t).
Proof.
  intros Ht. unfold PopFront. pose proof Ht as (Hn & _ & _). rewrite Hn. destruct xs as [|x xs].
  - by apply runs_ret.
  - rewrite zlen_cons. rewrite (proj2 (Z.eqb_neq _ _)) by (pose proof (zlen_nonneg xs); lia).
    cbn [head tail]. eapply removing_ok; [exact Ht|done|rewrite zlen_cons; lia|].
    intros σ1 d Hx Hh Ho Hp Hk. by apply nodePopFront_ok.
Qed.

Lemma PopBack_ok {cmp} σ t xs x Γ :
  holds cmp σ t (xs ++ [x]) Γ →
  runs (PopBack t) σ (λ '(o, t') σ', o = Some x ∧ holds cmp σ' t' xs Γ ∧ copied t' = copied t).
Proof.
  intros Ht. unfold PopBack. pose proof Ht as (Hn & _ & _). rewrite Hn, zlen_app.
  rewrite (proj2 (Z.eqb_neq _ _)) by (pose proof (zlen_nonneg xs); unfold zlen at 2; cbn; lia).
  eapply removing_ok; [exact Ht|by destruct xs|by rewrite zlen_app|].
  intros σ1 d Hx Hh Ho Hp Hk. by apply nodePopBack_ok.
Qed.

Lemma DeleteAt_ok {cmp} σ t xs x ys Γ :
  holds cmp σ t (xs ++ x :: ys) Γ →
  runs (DeleteAt (zlen xs) t) σ
    (λ '(o, t') σ', o = Some x ∧ holds cmp σ' t' (xs ++ ys) Γ ∧ copied t' = copied t).
Proof.
  intros Ht. unfold DeleteAt. pose proof Ht as (Hn & _ & _). rewrite Hn, zlen_app, zlen_cons.
  pose proof (zlen_nonneg xs). pose proof (zlen_nonneg ys).
  rewrite (proj2 (Z.ltb_ge _ _)), (proj2 (Z.leb_gt _ _)) by lia. cbn [orb].
  eapply removing_ok; [exact Ht|by destruct xs|rewrite !zlen_app, zlen_cons; lia|].
  intros σ1 d Hx Hh Ho Hp Hk. by apply nodeDeleteAt_ok.
Qed.

(** ** Sharing *)

Lemma own_weaken cp σ O Γ : own cp σ O Γ → own true σ O Γ.
Proof. intros [H [H1 H2 H3 H4 H5 H6 H7 H8 H9]]. by exists H. Qed.

(** The references a copy holds. *)
Definition copy_of (s : tree) ys Γ : Prop :=
  tcount s = zlen ys ∧
  match root s with
  | None => ys = [] ∧ Γ = []
  | Some r => ∃ d, Γ = [d] ∧ r_loc d = r ∧ r_xs d = ys ∧ 1 ≤ r_len d
  end.

Lemma CopyInto_ok {cmp} σ t xs Γ :
  holds cmp σ t xs Γ →
  runs (CopyInto t) σ (λ '(t', s) σ', ∃ Γ', holds cmp σ' t' xs (Γ' ++ Γ) ∧ copy_of s xs Γ' ∧
    copied t' = true).
Proof.
  intros (Hn & Hc & Ht). unfold CopyInto. destruct (root t) as [r|] eqn:Er; cbn [root].
  - destruct Ht as (Hs & d & <- & <- & Hk & Ho). apply own_weaken in Ho as [H Hw].
    pose proof (ow_reps _ _ _ _ _ Hw) as HΓ. apply Forall_cons in HΓ as [Hd _].
    apply runs_bind. eapply runs_mono; [by eapply add_rc_share|].
    cbv beta. intros _ σ1 (H' & Hw' & _). apply runs_ret. exists [d]. split_and!; try done.
    + split; [done|]. split; [done|]. cbn. split; [done|]. exists d. split_and!; try done. by exists H'.
    + split; [done|]. by exists d.
  - destruct Ht as [-> Ho]. apply runs_ret. exists []. split_and!; try done.
    split; [done|]. split; [done|]. cbn. split; [done|]. by eapply own_weaken.
Qed.

(** Releasing a copy gives its references back. *)
Lemma Release_copy_ok cp σ O s ys Γ Γ' :
  own cp σ O (Γ' ++ Γ) → copy_of s ys Γ' →
  runs (Release s) σ (λ _ σ', own cp σ' O Γ).
Proof.
  intros Ho (Hn & Hs). unfold Release. destruct (root s) as [r|].
  - destruct Hs as (d & -> & <- & Hx & Hk). apply runs_bind. eapply runs_mono.
    { eapply releaseNode_ok; [exact Ho|]. unfold depth. rewrite Hn, <-Hx. unfold zlen. rewrite Nat2Z.id.
      eapply own_height; [exact Ho|set_solver|done]. }
    cbv beta. intros _ σ1 Ho1. by apply runs_ret.
  - destruct Hs as [_ ->]. by apply runs_bind, runs_ret.
Qed.

Lemma Clear_ok {cmp} σ t xs Γ : holds cmp σ t xs Γ → holds cmp σ (Clear t) [] Γ.
Proof.
  intros (Hn & Hc & Ht). split_and!; [done..|]. cbn. split; [done|].
  destruct (root t); [|by destruct Ht]. destruct Ht as (Hs & d & _ & _ & _ & Ho).
  unfold spares. cbn. rewrite Hs. by apply (own_drop _ _ _ [d]).
Qed.

(** ** Reading *)

(** What reading needs: the nodes of the subtree are in the store. *)
Definition shows σ d : Prop := ∃ H, (∀ l n, H !! l = Some n → σ !! l = Some n) ∧ reps H d.

Lemma own_shows cp σ O Γ d : own cp σ O Γ → d ∈ Γ → shows σ d.
Proof.
  intros [H Hw] Hd. exists H. split; [apply (ow_closed _ _ _ _ _ Hw)|].
  pose proof (ow_reps _ _ _ _ _ Hw) as HΓ. rewrite Forall_forall in HΓ. by apply HΓ.
Qed.

Lemma shows_node σ d : shows σ d →
  ∃ its c ds, σ !! r_loc d = Some (mknode its c (r_h d) ds) ∧ node_of d its ds ∧ Forall (shows σ) ds.
Proof.
  intros (H & Hσ & Hd). destruct (reps_node _ _ Hd) as (its & c & ds & Hl & Hn & Hds).
  exists its, c, ds. split_and!; [by apply Hσ|done|].
  eapply Forall_impl; [exact Hds|]. intros e He. by exists H.
Qed.

(** Loading a node that is known, and the child in a slot of it. *)
Lemma runs_load_shown σ d its c ds Q :
  σ !! r_loc d = Some (mknode its c (r_h d) ds) → Q (mknode its c (r_h d) ds) σ →
  runs (load (r_loc d)) σ Q.
Proof. apply runs_load. Qed.

Lemma runs_child (its : list item) c h ds1 e ds2 i σ Q :
  i = length ds1 → Q (r_loc e) σ →
  runs (child (mknode its c (S h) (ds1 ++ e :: ds2)) i) σ Q.
Proof.
  intros -> HQ. unfold child. apply runs_bind. eapply runs_some; [done|].
  eapply runs_some; [|exact HQ]. cbn. by rewrite list_lookup_fmap, list_lookup_middle.
Qed.

Lemma runs_stay fuel t n i σ Q : Q () σ → runs (cowChild fuel t n i false) σ Q.
Proof. done. Qed.

Lemma height_loop_ok fuel σ d :
  shows σ d → r_h d < fuel →
  runs (height_loop fuel (r_loc d)) σ (λ h σ', h = r_h d ∧ σ' = σ).
Proof.
  revert d. induction fuel as [|fuel IH]; intros d Hd Hf; [lia|].
  destruct (shows_node _ _ Hd) as (its & c & ds & Hl & (Hlen & _ & Hfit & Hc) & Hds).
  cbn [height_loop]. apply runs_bind. eapply runs_load; [exact Hl|]. rewrite leaf_mknode.
  destruct (r_h d) as [|h] eqn:Eh; [by apply runs_ret|].
  destruct Hfit as [Hn Hkids]. destruct ds as [|e ds2]; [discriminate|].
  apply Forall_cons in Hds as [He _]. apply Forall_cons in Hkids as [[Hhe Hme] _].
  apply runs_bind, (runs_child _ _ _ []); [done|].
  apply runs_bind. eapply runs_mono; [apply IH; [done|lia]|]. intros a σ' [-> ->].
  apply runs_ret. by rewrite Hhe.
Qed.

(** A node of height [h] with [k] items stands for at least [(k + 1) * 32 ^ h - 1]. *)
Lemma shows_size σ d : shows σ d → (r_len d + 1) * 32 ^ r_h d ≤ length (r_xs d) + 1.
Proof.
  remember (r_h d) as h eqn:Eh. revert d Eh. induction h as [|h IH]; intros d Eh Hd;
    destruct (shows_node _ _ Hd) as (its & c & ds & _ & (Hlen & _ & Hfit & ->) & Hds);
    rewrite <-Eh in Hfit; cbn in Hfit.
  - subst ds. rewrite contents_leaf. cbn. lia.
  - destruct Hfit as [Hn Hf].
    assert (length (contents its ds) = length its + foldr Nat.add 0 (length <$> (r_xs <$> ds))) as Hsum.
    { pose proof (zlen_weave (r_xs <$> ds) its) as Hz. unfold contents, zlen in *.
      assert (∀ yss : list (list item), foldr Z.add 0%Z ((λ ys, Z.of_nat (length ys)) <$> yss) =
        Z.of_nat (foldr Nat.add 0 (length <$> yss))) as Hcast.
      { induction yss as [|ys yss IHl]; [done|]. cbn. rewrite IHl. lia. }
      rewrite Hcast in Hz. lia. }
    assert (length ds * (32 ^ S h) ≤ foldr Nat.add 0 (length <$> (r_xs <$> ds)) + length ds) as Hkids.
    { clear Hsum Hn. induction ds as [|e ds IHds]; [done|].
      apply Forall_cons in Hds as [He Hds]. apply Forall_cons in Hf as [[Hhe Hme] Hf].
      specialize (IHds Hf Hds). specialize (IH e (eq_sym Hhe) He).
      assert (32 * 32 ^ h ≤ (r_len e + 1) * 32 ^ h) by (apply Nat.mul_le_mono_r; node_lia).
      cbn [fmap list_fmap foldr length]. cbn [Nat.pow] in *. lia. }
    rewrite Hsum, Hn in *. nia.
Qed.
(** A tree that can be read: one's own, or a copy. *)
Definition reads σ t xs : Prop :=
  tcount t = zlen xs ∧
  match root t with
  | None => xs = []
  | Some r => ∃ d, r_loc d = r ∧ r_xs d = xs ∧ 1 ≤ r_len d ∧ shows σ d
  end.

Lemma tree_own_reads {cmp} σ t xs Γ : holds cmp σ t xs Γ → reads σ t xs.
Proof.
  intros (Hn & _ & Ht). split; [done|]. destruct (root t); [|by destruct Ht].
  destruct Ht as (_ & d & ? & ? & ? & Ho). exists d. split_and!; try done.
  eapply own_shows; [exact Ho|set_solver].
Qed.

Lemma copy_reads cp σ O c ys Γ Γ' : own cp σ O Γ → copy_of c ys Γ' → Γ' ⊆ Γ → reads σ c ys.
Proof.
  intros Ho (Hn & Hc) Hsub. split; [done|]. destruct (root c); [|by destruct Hc].
  destruct Hc as (d & -> & ? & ? & ?). exists d. split_and!; try done.
  eapply own_shows; [exact Ho|]. apply Hsub. set_solver.
Qed.

Lemma reads_nonempty σ t xs : reads σ t xs → xs ≠ [] →
  ∃ d, root t = Some (r_loc d) ∧ r_xs d = xs ∧ 1 ≤ r_len d ∧ shows σ d ∧ r_h d < depth t.
Proof.
  intros (Hn & Ht) Hne. destruct (root t) as [r|]; [|done].
  destruct Ht as (d & <- & <- & Hk & Hd). exists d. split_and!; try done.
  unfold depth. rewrite Hn. unfold zlen. rewrite Nat2Z.id. destruct Hd as (H & _ & Hd).
  by eapply rep_height.
Qed.
End trees.
Abbreviation tree_own := (holds None).

(** A new tree in an empty store. *)
Lemma tree_own_new {K V} cmp : holds (F := @nothing K V) cmp [] (new_tree cmp) [] [].
Proof.
  split_and!; [done..|]. cbn. split; [done|]. exists ∅. by split.
Qed.
