(* ===== verification/BtreeAccess.v ===== *)
(** Reading the tree of btype_btree.go with either value of [mut]: a walk that leaves the nodes as they are
    works on every tree whose nodes are in the store, a walk that makes the nodes it visits private on the
    tree that owns them. What the readers and the iterations do on the way is the same for both. Then reading
    by position, from the root: what is found, and that the tree is as it was, or the same with nodes of
    its own. *)

From stdpp Require Import gmap.
From S2P Require Import Prelude Btree BtreeOwn BtreeRules BtreeDelete BtreeRemove BtreeDescend BtreeInsert.
From S2P Require Import BtreeTree.

(** The item at a position, if it is one. *)
Definition at_pos {A} (i : Z) (xs : list A) : option A :=
  if decide (0 ≤ i < zlen xs)%Z then xs !! Z.to_nat i else None.

Section access.
Context {K V : Type} `{F : !Frozen K V}.
Abbreviation node := (node K V).
Abbreviation ref := (@ref K V).
Abbreviation tree := (tree K V).
Abbreviation item := (K * V)%type.
Abbreviation store := (list node).
Implicit Types (σ : store) (O : gmap nat node) (d e : ref) (ds Γ : list ref) (t : tree).
Implicit Types (x y : item) (its xs ys : list item).

(** Another subtree with the same items in it. *)
Definition same d d' : Prop := r_h d' = r_h d ∧ r_len d' = r_len d ∧ r_xs d' = r_xs d.

Lemma same_refl d : same d d.
Proof. done. Qed.

Lemma same_kids ds ds' : Forall2 same ds ds' →
  length ds' = length ds ∧ r_xs <$> ds' = r_xs <$> ds ∧
  ∀ h, Forall (child_ok h) ds → Forall (child_ok h) ds'.
Proof.
  induction 1 as [|e e' ds ds' (Hh & Hk & Hx) _ (IH1 & IH2 & IH3)]; [done|].
  cbn. split_and!; [congruence|congruence|]. intros h [[He1 He2] Hds]%Forall_cons.
  constructor; [split; [congruence|lia]|by apply IH3].
Qed.

Lemma same_node d its ds ds' : Forall2 same ds ds' → node_of d its ds → node_of d its ds'.
Proof.
  intros (Hl & Hx & Hok)%same_kids (H1 & H2 & H3 & H4). split_and!; [done|done| |].
  - destruct (r_h d); [by destruct ds, ds'|]. destruct H3 as [H3 Hf]. split; [lia|].
    by apply Hok in Hf.
  - rewrite H4. unfold contents. by rewrite Hx.
Qed.

(** [at_ f σ d]: the subtree [d] may be walked, in a surrounding [f]. [inside f d its ds σ]: the walk is at
    its root, which has these items and children. *)
Class Access t (mut : bool) := MkAccess {
  frame : Type;
  at_ : frame → store → ref → Prop;
  inside : frame → ref → list item → list ref → store → Prop;
  acc_open f σ d : at_ f σ d → ∃ its ds, node_of d its ds ∧ inside f d its ds σ;
  acc_load f σ d its ds : inside f d its ds σ → ∃ c, σ !! r_loc d = Some (mknode its c (r_h d) ds);
  acc_close f σ d its ds : inside f d its ds σ → node_of d its ds → at_ f σ d;
  acc_child {A} fuel f σ d its h ds1 e ds2 (k : sto K V A) Q :
    inside f d its (ds1 ++ e :: ds2) σ → r_h d = S h → r_h e < fuel →
    (∀ f' e' σ', same e e' → at_ f' σ' e' → inside f d its (ds1 ++ e' :: ds2) σ' →
      (∀ σ'', at_ f' σ'' e' → inside f d its (ds1 ++ e' :: ds2) σ'') → runs k σ' Q) →
    runs (cowChild fuel t (r_loc d) (length ds1) mut;; k) σ Q;
}.

(** The owner makes what it visits private. *)
Definition owner t : Access t true.
Proof.
  refine (MkAccess t true (gmap nat node * list ref)
    (λ f σ d, own (copied t) σ f.1 (d :: f.2) ∧ private σ (r_loc d))
    (λ f d its ds σ, own (copied t) σ (<[r_loc d := mknode its 0 (r_h d) ds]> f.1) (ds ++ f.2) ∧
      f.1 !! r_loc d = None) _ _ _ _).
  - intros [O Γ] σ d [Ho Hp]. destruct (own_open _ _ _ _ _ Ho Hp) as (its & ds & Ho1 & HO & Hn).
    by exists its, ds.
  - intros [O Γ] σ d its ds [Ho _]. exists 0%Z. eapply own_open_lookup; [exact Ho|apply lookup_insert_eq].
  - intros [O Γ] σ d its ds [Ho HO] Hn. cbn [fst snd] in *.
    eapply (own_close' _ _ _ _ d its) in Ho as [Ho Hp]; [|apply lookup_insert_eq|done].
    by rewrite delete_insert_eq, delete_id in Ho by done.
  - intros A fuel [O Γ] σ d its h ds1 e ds2 k Q [Ho HO] Hh Hf Hk. cbn [fst snd] in *. rewrite Hh in Ho.
    eapply enter_child; [exact Ho|done|done|]. intros σ' e' ? ? ? _ Ho' Hp'.
    apply (Hk (<[r_loc d := mknode its 0 (S h) (ds1 ++ e' :: ds2)]> O, ds1 ++ ds2 ++ Γ) e'); [done|done|..];
      [split; [|done]|intros σ'' [Ho'' _]; split; [|done]]; rewrite Hh;
      (eapply own_perm; [|eassumption]); cbn; solve_Permutation.
Defined.

(** Who only reads leaves the store as it is. *)
Definition reader t : Access t false.
Proof.
  refine (MkAccess t false store
    (λ σ0 σ d, σ = σ0 ∧ shows σ d)
    (λ σ0 d its ds σ, σ = σ0 ∧ shows σ d ∧ Forall (shows σ) ds ∧
      ∃ c, σ !! r_loc d = Some (mknode its c (r_h d) ds)) _ _ _ _).
  - intros σ0 σ d [-> Hd]. destruct (shows_node _ _ Hd) as (its & c & ds & Hl & Hn & Hds).
    exists its, ds. split_and!; try done. by exists c.
  - by intros σ0 σ d its ds (_ & _ & _ & Hl).
  - by intros σ0 σ d its ds (-> & Hd & _).
  - intros A fuel σ0 σ d its h ds1 e ds2 k Q (-> & Hd & Hds & Hl) Hh Hf Hk.
    apply runs_bind, runs_stay. apply Forall_app in Hds as Hds'. destruct Hds' as [_ [He _]%Forall_cons].
    apply (Hk σ0 e); [done|done|done|]. by intros σ'' [-> _].
Defined.

Lemma branch_kids d its ds h : node_of d its ds → r_h d = S h →
  length ds = S (length its) ∧ Forall (child_ok h) ds.
Proof. intros (Hl & _ & Hfit & _) Eh. rewrite Eh in Hfit. destruct Hfit as [? ?]. split; [lia|done]. Qed.

Lemma leaf_items d its ds : node_of d its ds → r_h d = 0 → its = r_xs d.
Proof. intros (_ & _ & Hfit & Hc) Eh. rewrite Eh in Hfit. cbn in Hfit. subst ds. by rewrite Hc, contents_leaf. Qed.

(** ** Trees *)

(** A tree that holds [xs] may be walked from its root, and the walk leaves [R]. *)
Definition rooted (mut : bool) σ t xs (R : tree → store → Prop) : Prop :=
  tcount t = zlen xs ∧ R t σ ∧ (xs ≠ [] →
    runs (cowRoot (depth t) mut t) σ (λ t' σ', ∃ (acc : Access t' mut) f d,
      root t' = Some (r_loc d) ∧ at_ f σ' d ∧ r_xs d = xs ∧ 1 ≤ r_len d ∧ r_h d < depth t' ∧
      tcount t' = tcount t ∧ dataCompare t' = dataCompare t ∧ ∀ σ'', at_ f σ'' d → R t' σ'')).

Lemma rooted_owner cmp σ t xs Γ :
  holds cmp σ t xs Γ → rooted true σ t xs (λ t' σ', holds cmp σ' t' xs Γ ∧ copied t' = copied t).
Proof.
  intros Ht. pose proof Ht as (Hn & _). split; [done|]. split; [done|]. intros Hne.
  destruct (tree_own_nonempty _ _ _ _ Ht Hne) as (d & Hr & Hs & Hx & Hk & Hh & Ho & Hc & _).
  eapply runs_mono; [by eapply cowRoot_ok|]. intros t1 σ1 (d1 & -> & Hh1 & Hk1 & Hx1 & Ho1 & Hp1).
  exists (owner _), (∅, Γ), d1. cbn [owner at_ frame fst snd]. split_and!; try done; try congruence; try lia.
  - unfold depth in *. cbn. lia.
  - intros σ2 [Ho2 _]. split; [|done].
    replace (set_root _ t) with (set_count (tcount t) (set_root (Some (r_loc d1)) t)) by by destruct t.
    rewrite <-Hx, <-Hx1. apply tree_own_root; try done; [lia|congruence].
Qed.

Lemma rooted_reader σ t xs : reads σ t xs → rooted false σ t xs (λ t' σ', t' = t ∧ σ' = σ).
Proof.
  intros Ht. pose proof Ht as [Hn _]. split; [done|]. split; [done|]. intros Hne.
  destruct (reads_nonempty _ _ _ Ht Hne) as (d & Hr & Hx & Hk & Hd & Hh).
  unfold cowRoot. rewrite Hr. cbn [andb]. apply runs_ret. exists (reader t), σ, d.
  cbn [reader at_ frame]. split_and!; try done. by intros σ'' [-> _].
Qed.

Lemma rooted_mono mut σ t xs (R R' : tree → store → Prop) :
  (∀ t' σ', R t' σ' → R' t' σ') → rooted mut σ t xs R → rooted mut σ t xs R'.
Proof.
  intros HR (Hn & Hnil & Hne). split; [done|]. split; [auto|]. intros Hx. eapply runs_mono; [by apply Hne|].
  cbv beta. intros t' σ' (acc & f & d & H1 & H2 & H3 & H4 & H5 & H6 & H7 & H8).
  exists acc, f, d. split_and!; try done. auto.
Qed.

Lemma rooted_holds cmp mut σ t xs Γ :
  holds cmp σ t xs Γ → rooted mut σ t xs (λ t' σ', holds cmp σ' t' xs Γ ∧ copied t' = copied t).
Proof.
  intros Ht. destruct mut; [by apply rooted_owner|].
  eapply rooted_mono; [|eapply rooted_reader, tree_own_reads; exact Ht]. by intros ?? [-> ->].
Qed.

(** A walk from the root. *)
Lemma rooted_walk {B C} mut σ t xs R (walk : tree → loc → sto K V B) (k : B → tree → sto K V C) res Q :
  rooted mut σ t xs R → xs ≠ [] →
  (∀ t' (acc : Access t' mut) f d σ', at_ f σ' d → r_xs d = xs → 1 ≤ r_len d → r_h d < depth t' →
    tcount t' = tcount t → dataCompare t' = dataCompare t →
    runs (walk t' (r_loc d)) σ' (λ b σ'', b = res ∧ at_ f σ'' d)) →
  (∀ t' σ', R t' σ' → runs (k res t') σ' Q) →
  runs (t ← cowRoot (depth t) mut t; r ← ofopt (root t); b ← walk t r; k b t) σ Q.
Proof.
  intros (_ & _ & Hroot) Hne Hwalk Hk. apply runs_bind. eapply runs_mono; [by apply Hroot|].
  cbv beta. intros t' σ' (acc & f & d & Hr & Hat & Hx & Hlen & Hh & Hn & Hc & HR).
  apply runs_bind. rewrite Hr. eapply runs_some; [done|].
  apply runs_bind. eapply runs_mono; [by apply (Hwalk t' acc f d)|].
  cbv beta. intros b σ'' [-> Hat']. by apply Hk, HR.
Qed.

(** ** Walks *)

Section walks.
Context {t : tree} {mut : bool} `{acc : !Access t mut}.

(** [m] answers [a] and leaves the subtree as it was. *)
Definition walks {A} (m : sto K V A) f σ d (a : A) : Prop :=
  runs m σ (λ a' σ', a' = a ∧ at_ f σ' d).

(** Loading the node that the walk is at. *)
Lemma walk_load {A} f σ d its ds (k : node → sto K V A) Q :
  inside f d its ds σ → (∀ c, runs (k (mknode its c (r_h d) ds)) σ Q) →
  runs (nd ← load (r_loc d); k nd) σ Q.
Proof.
  intros Hin Hk. destruct (acc_load _ _ _ _ _ Hin) as [c Hc]. apply runs_bind.
  eapply runs_load; [exact Hc|]. apply Hk.
Qed.

(** Going into a child and staying there. *)
Lemma walk_down {A} (slot : node → nat) fuel f σ d its ds1 e ds2 (k : loc → sto K V A) a :
  (∀ c h ds, slot (mknode its c h ds) = length ds1) → inside f d its (ds1 ++ e :: ds2) σ → node_of d its (ds1 ++ e :: ds2) → r_h d ≤ fuel →
  (∀ f' e' σ', same e e' → S (r_h e') = r_h d → minItems ≤ r_len e' → at_ f' σ' e' →
    walks (k (r_loc e')) f' σ' e' a) →
  walks (cowChild fuel t (r_loc d) (length ds1) mut;; nd ← load (r_loc d); c ← child nd (slot nd); k c)
    f σ d a.
Proof.
  intros Hslot Hin Hn Hf Hk. pose proof Hn as (_ & _ & Hfit & _).
  destruct (r_h d) as [|h] eqn:Eh; [by destruct ds1|].
  destruct Hfit as [_ Hkids]. apply Forall_app in Hkids as [_ [[Hhe Hme] _]%Forall_cons].
  eapply acc_child; [exact Hin|exact Eh|lia|]. intros f' e' σ1 Hsame Hat Hin1 Hback.
  eapply walk_load; [exact Hin1|]. intros c. rewrite Hslot, Eh. apply runs_bind, runs_child; [done|].
  pose proof Hsame as (Hh' & Hk' & _).
  eapply runs_mono; [apply (Hk f' e'); [done|lia|lia|done]|]. intros r σ2 [-> Hat2]. split; [done|].
  eapply acc_close; [by apply Hback|]. eapply same_node; [|exact Hn].
  apply Forall2_app; [apply Forall2_same_length_lookup_2; [done|]; intros; by simplify_eq|].
  constructor; [done|]. apply Forall2_same_length_lookup_2; [done|]. intros. by simplify_eq.
Qed.
End walks.
End access.

Section read.
Context {K V : Type} `{F : !Frozen K V}.
Abbreviation node := (node K V).
Abbreviation ref := (@ref K V).
Abbreviation tree := (tree K V).
Abbreviation item := (K * V)%type.
Abbreviation store := (list node).
Implicit Types (σ : store) (d e : ref) (ds Γ : list ref) (t : tree) (x y : item) (its xs ys lo hi : list item).

(** ** By position *)

Section position.
Context {t : tree} {mut : bool} `{acc : !Access t mut}.

Lemma acc_nonempty f σ d : at_ f σ d → 1 ≤ r_len d → r_xs d ≠ [].
Proof. intros Hat Hk. destruct (acc_open _ _ _ Hat) as (its & ds & Hn & _). by eapply node_nonempty. Qed.

Lemma front_walk fuel : ∀ f σ d x xs, at_ f σ d → r_h d < fuel → 1 ≤ r_len d → r_xs d = x :: xs →
  walks (front_loop fuel t (r_loc d) mut) f σ d x.
Proof.
  induction fuel as [|fuel IH]; intros f σ d x xs Hat Hf Hk Hxs; [lia|]. cbn [front_loop].
  destruct (acc_open _ _ _ Hat) as (its & ds & Hn & Hin). eapply walk_load; [exact Hin|]. intros c.
  rewrite leaf_mknode, mknode_items. destruct (r_h d) as [|h] eqn:Eh.
  - rewrite (leaf_items _ _ _ Hn Eh), Hxs. by eapply runs_some.
  - destruct (branch_kids _ _ _ _ Hn Eh) as [Hl Hkids]. pose proof Hn as (Hlen & _ & _ & Hc).
    destruct its as [|z its]; [cbn in Hlen; lia|]. destruct ds as [|e ds2]; [discriminate|].
    rewrite contents_cons, Hxs in Hc.
    eapply (walk_down (λ _, 0) fuel f σ d (z :: its) [] e ds2 _ x); [done|exact Hin|exact Hn|lia|].
    intros f' e' σ1 (_ & _ & Hx') Hh' Hme' Hat'. destruct (r_xs e) as [|y ys] eqn:Ey.
    + destruct (acc_nonempty _ _ _ Hat'); [node_lia|congruence].
    + injection Hc as -> _. eapply IH; [exact Hat'|lia|node_lia|exact Hx'].
Qed.

Lemma back_walk fuel : ∀ f σ d x xs, at_ f σ d → r_h d < fuel → 1 ≤ r_len d → r_xs d = xs ++ [x] →
  walks (back_loop fuel t (r_loc d) mut) f σ d x.
Proof.
  induction fuel as [|fuel IH]; intros f σ d x xs Hat Hf Hk Hxs; [lia|]. cbn [back_loop].
  destruct (acc_open _ _ _ Hat) as (its & ds & Hn & Hin). eapply walk_load; [exact Hin|]. intros c.
  rewrite leaf_mknode, mknode_items, len_mknode. destruct (r_h d) as [|h] eqn:Eh.
  - rewrite (leaf_items _ _ _ Hn Eh), Hxs. eapply runs_some; [apply last_snoc|done].
  - destruct (branch_kids _ _ _ _ Hn Eh) as [Hl Hkids]. pose proof Hn as (Hlen & _ & _ & Hc).
    destruct ds as [|e ds1 _] using rev_ind; [discriminate|].
    rewrite length_app, Nat.add_1_r in Hl. injection Hl as Hl. rewrite <-Hl.
    rewrite <-(app_nil_r (contents _ _)), contents_snoc, app_nil_r, Hxs in Hc by lia.
    eapply (walk_down len fuel f σ d its ds1 e [] _ x); [by intros; rewrite len_mknode|exact Hin|exact Hn|lia|].
    intros f' e' σ1 (_ & _ & Hx') Hh' Hme' Hat'. destruct (last (r_xs e)) as [y|] eqn:Ey.
    2:{ apply last_None in Ey. destruct (acc_nonempty _ _ _ Hat'); [node_lia|congruence]. }
    apply last_Some in Ey as [ys Hys]. rewrite Hys, (assoc_L (++)) in Hc.
    apply app_inj_tail in Hc as [_ ->]. eapply IH; [exact Hat'|lia|node_lia|by rewrite Hx'].
Qed.

Lemma getAt_walk fuel : ∀ f σ d xs x ys, at_ f σ d → r_h d < fuel → r_xs d = xs ++ x :: ys →
  walks (getAt_loop fuel t (r_loc d) (zlen xs) mut) f σ d x.
Proof.
  induction fuel as [|fuel IH]; intros f σ d xs x ys Hat Hf Hxs; [lia|]. cbn [getAt_loop].
  destruct (acc_open _ _ _ Hat) as (its & ds & Hn & Hin). eapply walk_load; [exact Hin|]. intros c.
  rewrite leaf_mknode, len_mknode. destruct (r_h d) as [|h] eqn:Eh.
  - rewrite mknode_items, (leaf_items _ _ _ Hn Eh), Hxs. unfold zlen. rewrite Nat2Z.id.
    eapply runs_some; [by apply list_lookup_middle|done].
  - destruct (branch_kids _ _ _ _ Hn Eh) as [Hl Hkids]. pose proof Hn as (Hlen & _ & _ & Hc).
    apply runs_bind. eapply runs_some; [done|]. cbn [counts].
    destruct (at_index its ds xs x ys) as (its1 & its2 & ds1 & e & ds2 & -> & -> & Hl1 & Hl2 &
      [(idx & its3 & Hseek & -> & _)|(es1 & es2 & Hseek & Hes & _)]);
      [done|congruence|..]; unfold sizes in Hseek; rewrite Hseek; cbv iota beta.
    + eapply runs_some; [rewrite mknode_items; by apply list_lookup_middle|].
      split; [done|]. eapply acc_close; [exact Hin|exact Hn].
    + eapply (walk_down (λ _, length ds1)); [done|exact Hin|exact Hn|lia|].
      intros f' e' σ1 (_ & _ & Hx') Hh' Hme' Hat'. eapply IH; [exact Hat'|lia|by rewrite Hx'].
Qed.
End position.

(** The readers from the root. *)
Lemma reading_walk mut σ t xs R (loop : tree → loc → sto K V item) x :
  rooted mut σ t xs R → xs ≠ [] →
  (∀ t' (acc : Access t' mut) f d σ', at_ f σ' d → r_xs d = xs → 1 ≤ r_len d → r_h d < depth t' →
    walks (loop t' (r_loc d)) f σ' d x) →
  runs (reading loop mut t) σ (λ '(o, t') σ', o = Some x ∧ R t' σ').
Proof.
  intros Hroot Hne Hloop. unfold reading. destruct (Hroot) as (-> & _).
  rewrite (proj2 (Z.eqb_neq _ _)) by by rewrite zlen_nil_iff.
  eapply (rooted_walk _ _ _ _ _ loop (λ x t, mret (Some x, t))); [exact Hroot|done| |].
  - intros t' acc f d σ' Hat Hx Hk Hh _ _. by apply (Hloop t' acc f d).
  - intros t' σ' HR. by apply runs_ret.
Qed.

Lemma reading_empty mut σ t R (loop : tree → loc → sto K V item) :
  rooted mut σ t [] R → runs (reading loop mut t) σ (λ '(o, t') σ', o = None ∧ R t' σ').
Proof. intros (Hn & Hnil & _). unfold reading. rewrite Hn. apply runs_ret. done. Qed.

Lemma front0_ok mut σ t xs R :
  rooted mut σ t xs R → runs (front0 mut t) σ (λ '(o, t') σ', o = head xs ∧ R t' σ').
Proof.
  intros Hroot. destruct xs as [|x xs]; [by apply reading_empty|]. eapply reading_walk; [exact Hroot|done|].
  intros t' acc f d σ' Hat Hx Hk Hh. by eapply front_walk.
Qed.

Lemma back0_ok mut σ t xs R :
  rooted mut σ t xs R → runs (back0 mut t) σ (λ '(o, t') σ', o = last xs ∧ R t' σ').
Proof.
  intros Hroot. destruct (last xs) as [x|] eqn:E.
  - pose proof E as [ys ->]%last_Some. eapply reading_walk; [exact Hroot|by destruct ys|].
    intros t' acc f d σ' Hat Hx Hk Hh. by eapply back_walk.
  - apply last_None in E. subst. by apply reading_empty.
Qed.

Lemma getAt0_ok mut σ t xs R i :
  rooted mut σ t xs R → runs (getAt0 i mut t) σ (λ '(o, t') σ', o = at_pos i xs ∧ R t' σ').
Proof.
  intros Hroot. pose proof Hroot as (Hn & HR & _). unfold getAt0, at_pos. rewrite Hn.
  destruct (decide (0 ≤ i < zlen xs)%Z) as [Hi|Hi].
  2:{ rewrite (proj2 (orb_true_iff _ _)) by (rewrite Z.ltb_lt, Z.leb_le; lia). by apply runs_ret. }
  rewrite (proj2 (orb_false_iff _ _)) by (rewrite Z.ltb_ge, Z.leb_gt; lia).
  destruct (i =? 0)%Z eqn:E0.
  { apply Z.eqb_eq in E0. subst i. eapply runs_mono; [by apply front0_ok|].
    intros [o t'] σ' (-> & ?). by destruct xs. }
  destruct (i =? zlen xs - 1)%Z eqn:E1.
  { apply Z.eqb_eq in E1. eapply runs_mono; [by apply back0_ok|].
    intros [o t'] σ' (-> & ?). split; [|done]. rewrite last_lookup. f_equal. unfold zlen in *. lia. }
  destruct (lookup_lt_is_Some_2 xs (Z.to_nat i)) as [x Hx]; [unfold zlen in *; lia|].
  pose proof (take_drop_middle _ _ _ Hx) as Hmid. rewrite Hx.
  eapply reading_walk; [exact Hroot|by intros ->|]. intros t' acc f d σ' Hat Hxs Hk Hh.
  replace i with (zlen (take (Z.to_nat i) xs)) by (unfold zlen in *; rewrite length_take; lia).
  eapply getAt_walk; [exact Hat|done|by rewrite Hmid].
Qed.
End read.
