(* ===== verification/BtreeInsertAt.v ===== *)
(** InsertAt of btype_btree.go: the descent to a position, which looks again for the position in a branch
    whose child it had to split, and so takes at most two trips a level. *)

From stdpp Require Import gmap.
From S2P Require Import Prelude Btree BtreeOwn BtreeRules BtreeDelete BtreeRemove BtreeDescend BtreeInsert.
From S2P Require Import BtreeTree.

Section insert_at.
Context {K V : Type} `{F : !Frozen K V}.
Abbreviation node := (node K V).
Abbreviation ref := (@ref K V).
Abbreviation tree := (tree K V).
Abbreviation item := (K * V)%type.
Abbreviation store := (list node).
Implicit Types (σ : store) (O : gmap nat node) (d e : ref) (ds Γ : list ref) (t : tree).
Implicit Types (x y : item) (its xs ys : list item).

(** ** Where the position falls *)

Lemma seekAt_shift its1 ds1 cs n index :
  length its1 = length ds1 → (0 ≤ index)%Z →
  seekAt (sizes ds1 ++ cs) (length its1 + n) (zlen (lead its1 ds1) + index) =
    let '(i, idx, found) := seekAt cs n index in (length ds1 + i, idx, found).
Proof.
  revert ds1. induction its1 as [|y its1 IH]; intros [|e ds1] Hl Hi; try discriminate.
  - change (seekAt cs n index = let '(i, idx, found) := seekAt cs n index in (i, idx, found)).
    by destruct (seekAt cs n index) as [[??]?].
  - cbn [length Nat.add sizes fmap list_fmap app seekAt]. rewrite lead_cons, zlen_app, zlen_cons.
    pose proof (zlen_nonneg (lead its1 ds1)).
    rewrite (proj2 (Z.leb_gt _ _)) by lia. injection Hl as Hl. fold (sizes ds1).
    replace (zlen (r_xs e) + (1 + zlen (lead its1 ds1)) + index - (zlen (r_xs e) + 1))%Z
      with (zlen (lead its1 ds1) + index)%Z by lia.
    rewrite IH by done. by destruct (seekAt cs n index) as [[??]?].
Qed.

Lemma seekAt_here c cs n index : (index ≤ c)%Z → ∃ idx found, seekAt (c :: cs) n index = (0, idx, found).
Proof.
  intros Hi. destruct n; cbn [seekAt]; [by eexists _, _|].
  rewrite (proj2 (Z.leb_le _ _)) by lia. by eexists _, _.
Qed.

Lemma seekAt_next c cs n index : (c < index)%Z → seekAt (c :: cs) (S n) index =
  let '(i, idx, found) := seekAt cs n (index - (c + 1)) in (S i, idx, found).
Proof. intros Hi. cbn [seekAt]. by rewrite (proj2 (Z.leb_gt _ _)) by lia. Qed.

(** The child at a position has room. *)
Definition room (index : Z) its ds : Prop :=
  ∀ e, ds !! (seekAt (sizes ds) (length its) index).1.1 = Some e → r_len e < maxItems.

Lemma room_halves its1 m its2 ds1 (lo hi : ref) ds2 idx :
  length its1 = length ds1 → (0 ≤ idx ≤ zlen (r_xs lo) + 1 + zlen (r_xs hi))%Z →
  r_len lo < maxItems → r_len hi < maxItems →
  room (zlen (lead its1 ds1) + idx) (its1 ++ m :: its2) (ds1 ++ lo :: hi :: ds2).
Proof.
  intros Hl Hi Hlo Hhi. unfold room. rewrite length_app. unfold sizes. rewrite fmap_app.
  fold (sizes ds1). rewrite seekAt_shift by lia. cbn [length fmap list_fmap].
  destruct (decide (idx ≤ zlen (r_xs lo))%Z) as [E|E].
  - match goal with |- context [seekAt (_ :: ?cs) ?n ?i] =>
      destruct (seekAt_here (zlen (r_xs lo)) cs n i E) as (j & f & ->) end.
    intros e. cbn [fst]. rewrite Nat.add_0_r, list_lookup_middle by done. naive_solver.
  - rewrite seekAt_next by lia. match goal with |- context [seekAt (_ :: ?cs) ?n ?i] =>
      destruct (seekAt_here (zlen (r_xs hi)) cs n i) as (j & f & ->); [lia|] end.
    intros e. cbn [fst]. rewrite lookup_app_r, Nat.add_comm by lia. rewrite Nat.add_sub. cbn. naive_solver.
Qed.

(** An item put into a child is put at the position of the whole. *)
Lemma child_grown its e ds xs ys pre idx x :
  xs ++ ys = pre ++ contents its (e :: ds) → zlen xs = (zlen pre + idx)%Z →
  (0 ≤ idx ≤ zlen (r_xs e))%Z → length its = length ds →
  ∃ es1 es2, r_xs e = es1 ++ es2 ∧ zlen es1 = idx ∧
    ∀ e', r_xs e' = es1 ++ x :: es2 → xs ++ x :: ys = pre ++ contents its (e' :: ds).
Proof.
  intros Hxs Hlen Hi Hl. destruct (contents_head its e ds Hl) as (tl & Htl & _).
  exists (take (Z.to_nat idx) (r_xs e)), (drop (Z.to_nat idx) (r_xs e)).
  rewrite take_drop. split; [done|].
  assert (zlen (take (Z.to_nat idx) (r_xs e)) = idx) as Htake.
  { unfold zlen in *. rewrite length_take. lia. }
  split; [done|]. intros e' He'. rewrite Htl in *. rewrite He'.
  rewrite <-(take_drop (Z.to_nat idx) (r_xs e)), <-!(assoc_L (++)), (assoc_L (++) pre) in Hxs.
  apply app_inj_1 in Hxs as [-> ->].
  - rewrite <-!(assoc_L (++)). done.
  - apply Nat2Z.inj. change (zlen xs = zlen (pre ++ take (Z.to_nat idx) (r_xs e))). rewrite zlen_app. lia.
Qed.

(** ** One trip *)

Lemma ensureBranch_room cp σ O Γ n its h ds1 e ds2 :
  own cp σ (<[n := mknode its 0 (S h) (ds1 ++ e :: ds2)]> O) Γ → e ∈ Γ → r_len e < maxItems →
  runs (ensureBranch n (length ds1)) σ (λ split σ', split = false ∧ σ' = σ).
Proof.
  intros Ho He Hr. unfold ensureBranch.
  apply runs_bind. eapply runs_load_open; [exact Ho|apply lookup_insert_eq|].
  apply runs_bind, runs_bind. eapply runs_some; [done|].
  eapply runs_some; [cbn; rewrite list_lookup_fmap, list_lookup_middle by done; done|].
  destruct (own_node _ _ _ _ e Ho He) as (cits & c & cds & Hc & Hk & _).
  apply runs_bind. eapply runs_load; [exact Hc|]. rewrite len_mknode, Hk, decide_False by lia.
  by apply runs_ret.
Qed.

(** What the descent into a child does, with the fuel [fuel]. *)
Definition descends fuel t x h : Prop := ∀ σ O Γ e xs ys,
  own (copied t) σ O (e :: Γ) → private σ (r_loc e) → r_h e = h → 1 ≤ r_len e < maxItems →
  r_xs e = xs ++ ys →
  adds (copied t) (insertAt_loop fuel t (r_loc e) (zlen xs) x) σ O Γ e (xs ++ x :: ys).

(** Into a child with room. *)
Lemma down_ok fuel t σ O Γ d h its1 its2 ds1 e ds2 xs ys x idx :
  own (copied t) σ (<[r_loc d := mknode (its1 ++ its2) 0 (S h) (ds1 ++ e :: ds2)]> O)
    (e :: ds1 ++ ds2 ++ Γ) →
  private σ (r_loc e) → r_loc e ≠ r_loc d → O !! r_loc d = None → r_h d = S h →
  r_len d ≤ length (its1 ++ its2) ≤ maxItems → length its1 = length ds1 → length its2 = length ds2 →
  Forall (child_ok h) ds1 → Forall (child_ok h) ds2 → child_ok h e → r_len e < maxItems →
  contents (its1 ++ its2) (ds1 ++ e :: ds2) = xs ++ ys → zlen xs = (zlen (lead its1 ds1) + idx)%Z →
  (0 ≤ idx ≤ zlen (r_xs e))%Z → descends fuel t x h →
  adds (copied t) (upd_count (r_loc d) (length ds1) (λ c, c + 1)%Z;;
    nd ← load (r_loc d); c ← child nd (length ds1); insertAt_loop fuel t c idx x) σ O Γ d (xs ++ x :: ys).
Proof.
  intros Ho Hp Hne HO Hh Hlen Hl1 Hl2 Hds1 Hds2 He Hroom Hc Hz Hidx Hdown.
  rewrite contents_lead in Hc by done.
  destruct (child_grown _ _ _ _ _ _ _ x (eq_sym Hc) Hz Hidx Hl2) as (es1 & es2 & Hes & <- & Hys).
  eapply (grow_ok _ _ _ Γ d (its1 ++ its2) h ds1 e ds2 _ (es1 ++ x :: es2)); try done.
  - rewrite length_app. lia.
  - rewrite Hes, !zlen_app, zlen_cons. lia.
  - intros e' He'. rewrite contents_lead by done. by rewrite (Hys e' He').
  - intros σ1 e1 O' He1 -> Ho1 Hp1. unfold adds.
    apply runs_bind. eapply runs_load_open; [exact Ho1|apply lookup_insert_eq|].
    apply runs_bind. apply runs_bind. eapply runs_some; [done|].
    eapply runs_some; [cbn; rewrite list_lookup_fmap, list_lookup_middle by done; done|].
    rewrite He1. destruct He as [Hhe Hme]. apply Hdown; [done..|node_lia|done].
Qed.

Lemma trip_ok fuel t σ O Γ d h its ds xs ys x :
  own (copied t) σ (<[r_loc d := mknode its 0 (S h) ds]> O) (ds ++ Γ) →
  O !! r_loc d = None → r_h d = S h → r_len d ≤ length its ≤ maxItems → fits (S h) ds (length its) →
  contents its ds = xs ++ ys → h < fuel → descends fuel t x h →
  (room (zlen xs) its ds ∨ length its < maxItems ∧ ∀ σ its' ds',
    own (copied t) σ (<[r_loc d := mknode its' 0 (S h) ds']> O) (ds' ++ Γ) →
    r_len d ≤ length its' ≤ maxItems → fits (S h) ds' (length its') → contents its' ds' = xs ++ ys →
    room (zlen xs) its' ds' →
    adds (copied t) (insertAt_loop fuel t (r_loc d) (zlen xs) x) σ O Γ d (xs ++ x :: ys)) →
  adds (copied t) (insertAt_loop (S fuel) t (r_loc d) (zlen xs) x) σ O Γ d (xs ++ x :: ys).
Proof.
  intros Ho HO Hh Hlen [Hl Hkids] Hc Hfu Hdown Hagain. unfold adds. cbn [insertAt_loop].
  apply runs_bind. eapply runs_load_open; [exact Ho|apply lookup_insert_eq|]. rewrite leaf_mknode.
  apply runs_bind. eapply runs_some; [done|]. cbn [counts]. rewrite len_mknode.
  destruct (seekAt_ok its ds (zlen xs)) as
    (i & idx & found & its1 & its2 & ds1 & e & ds2 & Hseek & -> & -> & <- & Hl1 & Hl2 & Hidx & Hle & _).
  { lia. }
  { rewrite Hc, zlen_app. pose proof (zlen_nonneg xs). pose proof (zlen_nonneg ys). lia. }
  assert (Hroom : room (zlen xs) (its1 ++ its2) (ds1 ++ e :: ds2) → r_len e < maxItems).
  { intros Hroom. apply Hroom. rewrite Hseek. cbn. by apply list_lookup_middle. }
  unfold sizes in Hseek. rewrite Hseek. cbv iota beta.
  apply Forall_app in Hkids as [Hds1 Hkids]. apply Forall_cons in Hkids as [[Hhe Hme] Hds2].
  eapply enter_child; [exact Ho|done|lia|]. intros σ1 e' Hhe' Hle' Hxe' Hne' Ho2 Hp2.
  assert (contents (its1 ++ its2) (ds1 ++ e' :: ds2) = xs ++ ys) as Hc'.
  { rewrite <-Hc, !contents_lead by done. unfold contents. cbn [fmap list_fmap]. by rewrite Hxe'. }
  assert (child_ok h e') as He' by (split; [congruence|lia]).
  rewrite <-Hle' in Hroom.
  assert (r_len e' < maxItems → runs (split ← ensureBranch (r_loc d) (length ds1);
    if split : bool then insertAt_loop fuel t (r_loc d) (zlen xs) x
    else upd_count (r_loc d) (length ds1) (λ c, c + 1)%Z;; nd ← load (r_loc d); c ← child nd (length ds1);
      insertAt_loop fuel t c idx x) σ1 (λ ok σ', ok = true ∧ ∃ d', gained d d' (xs ++ x :: ys) ∧
        own (copied t) σ' O (d' :: Γ) ∧ private σ' (r_loc d))) as Hin.
  { intros Hr. apply runs_bind. eapply runs_mono; [eapply ensureBranch_room; [exact Ho2|set_solver|done]|].
    intros split σ2 [-> ->]. eapply down_ok; try done. by rewrite Hxe'. }
  destruct Hagain as [Hr|[Hspace Hagain]]; [by apply Hin, Hroom|].
  destruct (decide (r_len e' < maxItems)) as [Hr|Hfull]; [by apply Hin|]. clear Hin.
  apply runs_bind. eapply runs_mono; [eapply ensureBranch_ok; try done; lia|].
  cbv beta. intros split σ2 [(-> & -> & Hsmall)|(-> & m & lo & hi & Hhalf & Ho3 & _ & _ & _ & _)]; [lia|].
  destruct Hhalf as (Hlo & Hhi & Hlmax & Hhmax & Hxs).
  eapply Hagain.
  - eapply own_perm; [|exact Ho3]. solve_Permutation.
  - rewrite length_app in *. cbn. lia.
  - split; [rewrite !length_app in *; cbn in *; lia|]. apply Forall_app_2; [exact Hds1|].
    constructor; [exact Hlo|]. constructor; [exact Hhi|exact Hds2].
  - rewrite contents_lead, contents_cons by done. rewrite contents_lead in Hc' by done.
    rewrite <-Hc'. clear -Hxs Hl2. destruct (contents_head its2 e' ds2 Hl2) as (tl & Htl & _).
    rewrite (Htl e'), (Htl hi), Hxs, <-!(assoc_L (++)). done.
  - rewrite Hidx. apply room_halves; try done. rewrite Hxe' in Hxs. rewrite Hxs, zlen_app, zlen_cons in Hle. lia.
Qed.
(** ** InsertAt *)

Lemma insertAt_loop_ok t x : ∀ h fuel, 2 * h < fuel → descends fuel t x h.
Proof.
  induction h as [|h IH]; intros fuel Hf σ O Γ d xs ys Ho Hp Hh Hk Hxs;
    destruct (own_open _ _ _ _ _ Ho Hp) as (its & ds & Ho1 & HO & Hlen & Hmax & Hfit & Hc);
    rewrite Hh in Ho1, Hfit.
  - destruct fuel as [|fuel]; [lia|]. cbn in Hfit. subst ds. rewrite contents_leaf in Hc.
    rewrite Hxs in Hc. subst its. unfold adds. cbn [insertAt_loop]. apply runs_bind.
    eapply runs_load_open; [exact Ho1|apply lookup_insert_eq|]. rewrite leaf_mknode.
    eapply leaf_added; try done; [lia|]. unfold zlen. by rewrite Nat2Z.id.
  - destruct fuel as [|[|fuel]]; [lia..|]. rewrite <-Hlen in Hfit. rewrite Hxs in Hc.
    eapply trip_ok; try done; [lia|lia|apply IH; lia|]. right. split; [lia|].
    intros σ1 its1 ds1 Ho2 Hlen1 Hfit1 Hc1 Hroom.
    eapply trip_ok; try done; [lia|apply IH; lia|by left].
Qed.

Lemma InsertAt_ok i x σ t xs ys Γ :
  tree_own σ t (xs ++ ys) Γ → i = zlen xs →
  runs (InsertAt i x t) σ (λ '(ok, t') σ',
    ok = true ∧ tree_own σ' t' (xs ++ x :: ys) Γ ∧ copied t' = copied t).
Proof.
  intros Ht ->. pose proof Ht as (Hn & Hcmp & _). pose proof (zlen_nonneg xs). pose proof (zlen_nonneg ys).
  unfold InsertAt. rewrite Hn, zlen_app.
  rewrite (proj2 (orb_false_iff _ _)) by (rewrite !Z.ltb_ge; lia).
  destruct (zlen xs =? 0)%Z eqn:E0.
  { apply Z.eqb_eq, zlen_nil_iff in E0. subst xs. by apply PushFront_ok. }
  destruct (zlen xs =? zlen xs + zlen ys)%Z eqn:E1.
  { apply Z.eqb_eq in E1. assert (ys = []) as -> by (apply zlen_nil_iff; lia).
    rewrite app_nil_r in Ht. by apply PushBack_ok. }
  assert (xs ++ ys ≠ []) as Hne by (intros [-> ->]%app_nil; done).
  destruct (tree_own_nonempty _ _ _ _ Ht Hne) as (d & Hr & _).
  rewrite Hr, Hcmp. apply runs_bind. eapply runs_some; [done|]. apply runs_bind, runs_ret.
  eapply (pushing_ok (λ t r, insertAt_loop (2 * depth t) t r (zlen xs) x)
    (λ ok t r, mret (ok, set_count (tcount t + 1) t)) σ t (xs ++ ys)); try done.
  - rewrite !zlen_app, zlen_cons. lia.
  - intros σ1 t' e Hcp _ Hx Hh Ho Hp Hk ->. rewrite <-Hcp.
    eapply insertAt_loop_ok; [|by rewrite Hcp|done|done|done|done]. lia.
Qed.

Lemma InsertAt_range i x σ t xs Γ :
  tree_own σ t xs Γ → (i < 0 ∨ zlen xs < i)%Z →
  runs (InsertAt i x t) σ (λ '(ok, t') σ', ok = false ∧ t' = t ∧ σ' = σ).
Proof.
  intros (Hn & _) Hi. unfold InsertAt. rewrite Hn.
  rewrite (proj2 (orb_true_iff _ _)) by (rewrite !Z.ltb_lt; lia). by apply runs_ret.
Qed.
End insert_at.
