(* ===== verification/BtreeFacts.v ===== *)
(** The B-tree of btype_btree.go is a list: any sequence of operations on a tree and its copies answers
    what the same operations on lists answer, and no copy sees what is done to the tree after it was
    taken. Trees are balanced, and their height is logarithmic. *)

From stdpp Require Import gmap.
From S2P Require Import Prelude Btree BtreeOwn BtreeRules BtreeDelete BtreeRemove BtreeDescend BtreeInsert.
From S2P Require Import BtreeTree BtreeAccess BtreeInsertAt.

(** * Operations on a tree and its copies, and on lists *)

Section ops.
Context {K V : Type}.
Abbreviation item := (K * V)%type.

Inductive op :=
  | OPushBack (x : item) | OPushFront (x : item)
  | OInsertAt (i : Z) (x : item) | OPopFront | OPopBack | ODeleteAt (i : Z)
  | OFront | OBack | OGetAt (i : Z) | OLen | OClear
  | OCopy | OFrontOfCopy (k : nat) | OGetAtCopy (k : nat) (i : Z) | ORelease (k : nat).

Inductive answer := AItem (o : option item) | ABool (b : bool) | ALen (n : Z) | ADone.

(** A tree and its copies, the last one first. *)
Definition state : Type := tree K V * list (tree K V).

Definition on_copy (k : nat) (s : state) (f : tree K V → sto K V (answer * state)) :
    sto K V (answer * state) :=
  match s.2 !! k with Some c => f c | None => mret (ADone, s) end.

Definition do_op (o : op) (s : state) : sto K V (answer * state) :=
  let '(t, cs) := s in
  match o with
  | OPushBack x => '(b, t) ← PushBack x t; mret (ABool b, (t, cs))
  | OPushFront x => '(b, t) ← PushFront x t; mret (ABool b, (t, cs))
  | OInsertAt i x => '(b, t) ← InsertAt i x t; mret (ABool b, (t, cs))
  | OPopFront => '(x, t) ← PopFront t; mret (AItem x, (t, cs))
  | OPopBack => '(x, t) ← PopBack t; mret (AItem x, (t, cs))
  | ODeleteAt i => '(x, t) ← DeleteAt i t; mret (AItem x, (t, cs))
  | OFront => '(x, t) ← Front t; mret (AItem x, (t, cs))
  | OBack => '(x, t) ← Back t; mret (AItem x, (t, cs))
  | OGetAt i => '(x, t) ← GetAt i t; mret (AItem x, (t, cs))
  | OLen => mret (ALen (Len t), s)
  | OClear => mret (ADone, (Clear t, cs))
  | OCopy => '(t, c) ← CopyInto t; mret (ADone, (t, c :: cs))
  | OFrontOfCopy k => on_copy k s (λ c, '(x, _) ← Front c; mret (AItem x, s))
  | OGetAtCopy k i => on_copy k s (λ c, '(x, _) ← GetAt i c; mret (AItem x, s))
  | ORelease k => on_copy k s (λ c, _ ← Release c; mret (ADone, (t, delete k cs)))
  end.

Fixpoint do_ops (os : list op) (s : state) : sto K V (list answer * state) :=
  match os with
  | [] => mret ([], s)
  | o :: os => '(a, s) ← do_op o s; '(l, s) ← do_ops os s; mret (a :: l, s)
  end.

(** The same on lists. *)
Definition list_op (o : op) (s : list item * list (list item)) :
    answer * (list item * list (list item)) :=
  let '(xs, yss) := s in
  match o with
  | OPushBack x => (ABool true, (xs ++ [x], yss))
  | OPushFront x => (ABool true, (x :: xs, yss))
  | OInsertAt i x =>
      if decide (0 ≤ i ≤ zlen xs)%Z
      then (ABool true, (take (Z.to_nat i) xs ++ x :: drop (Z.to_nat i) xs, yss)) else (ABool false, s)
  | OPopFront => (AItem (head xs), (tail xs, yss))
  | OPopBack => (AItem (last xs), (take (length xs - 1) xs, yss))
  | ODeleteAt i =>
      (AItem (at_pos i xs), (if decide (0 ≤ i)%Z then delete (Z.to_nat i) xs else xs, yss))
  | OFront => (AItem (head xs), s)
  | OBack => (AItem (last xs), s)
  | OGetAt i => (AItem (at_pos i xs), s)
  | OLen => (ALen (zlen xs), s)
  | OClear => (ADone, ([], yss))
  | OCopy => (ADone, (xs, xs :: yss))
  | OFrontOfCopy k => match yss !! k with Some ys => (AItem (head ys), s) | None => (ADone, s) end
  | OGetAtCopy k i => match yss !! k with Some ys => (AItem (at_pos i ys), s) | None => (ADone, s) end
  | ORelease k => (ADone, (xs, delete k yss))
  end.

Fixpoint list_ops (os : list op) (s : list item * list (list item)) :
    list answer * (list item * list (list item)) :=
  match os with
  | [] => ([], s)
  | o :: os => let '(a, s) := list_op o s in let '(l, s) := list_ops os s in (a :: l, s)
  end.

(** Where the [k]-th copy is after an operation, which may be one on the other copies; [None] if it was
    released. *)
Definition stays (o : op) (k : nat) : option nat :=
  match o with
  | OCopy => Some (S k)
  | ORelease j => if decide (j = k) then None else Some (if decide (j < k) then k - 1 else k)
  | _ => Some k
  end.

Fixpoint still (os : list op) (k : nat) : option nat :=
  match os with
  | [] => Some k
  | o :: os => stays o k ≫= still os
  end.
End ops.
Arguments op : clear implicits.
Arguments answer : clear implicits.

(** * Reading *)

Section facts.
Context {K V : Type} `{F : !Frozen K V}.
Abbreviation node := (node K V).
Abbreviation ref := (@ref K V).
Abbreviation tree := (tree K V).
Abbreviation item := (K * V)%type.
Abbreviation store := (list node).
Implicit Types (σ : store) (d e : ref) (ds Γ : list ref) (t c : tree).
Implicit Types (x y : item) (its xs ys : list item).

Lemma Front_ok σ t xs :
  reads σ t xs → runs (Front t) σ (λ '(o, t') σ', o = head xs ∧ t' = t ∧ σ' = σ).
Proof. intros Ht. by eapply (front0_ok false), rooted_reader. Qed.

Lemma Back_ok σ t xs :
  reads σ t xs → runs (Back t) σ (λ '(o, t') σ', o = last xs ∧ t' = t ∧ σ' = σ).
Proof. intros Ht. by eapply (back0_ok false), rooted_reader. Qed.

Lemma GetAt_ok σ t xs i :
  reads σ t xs → runs (GetAt i t) σ (λ '(o, t') σ', o = at_pos i xs ∧ t' = t ∧ σ' = σ).
Proof. intros Ht. by eapply (getAt0_ok false), rooted_reader. Qed.

(** ** Removing, on every branch *)

Lemma PopBack_all {cmp} σ t xs Γ :
  holds cmp σ t xs Γ →
  runs (PopBack t) σ (λ '(o, t') σ', o = last xs ∧ holds cmp σ' t' (take (length xs - 1) xs) Γ).
Proof.
  intros Ht. destruct (last xs) as [x|] eqn:E.
  - apply last_Some in E as [ys ->]. rewrite length_app, Nat.add_sub, take_app_length.
    eapply runs_mono; [by eapply PopBack_ok|]. intros [o t'] σ' (-> & ? & _). done.
  - apply last_None in E. subst. unfold PopBack. destruct Ht as (Hn & Ht). rewrite Hn.
    by apply runs_ret.
Qed.

Lemma DeleteAt_all {cmp} σ t xs i Γ :
  holds cmp σ t xs Γ →
  runs (DeleteAt i t) σ (λ '(o, t') σ', o = at_pos i xs ∧
    holds cmp σ' t' (if decide (0 ≤ i)%Z then delete (Z.to_nat i) xs else xs) Γ).
Proof.
  intros Ht. unfold at_pos. destruct (decide (0 ≤ i < zlen xs)%Z) as [Hi|Hi].
  - destruct (lookup_lt_is_Some_2 xs (Z.to_nat i)) as [x Hx]; [unfold zlen in *; lia|].
    pose proof (take_drop_middle _ _ _ Hx) as Hmid. rewrite Hx, decide_True by lia.
    rewrite <-Hmid in Ht. rewrite delete_take_drop.
    pose proof (DeleteAt_ok _ _ _ _ _ _ Ht) as Hdel.
    replace (zlen (take (Z.to_nat i) xs)) with i in Hdel by (unfold zlen in *; rewrite length_take; lia).
    eapply runs_mono; [exact Hdel|]. intros [o t'] σ' (-> & ? & _). done.
  - pose proof Ht as (Hn & _). unfold DeleteAt. rewrite Hn.
    rewrite (proj2 (orb_true_iff _ _)) by (rewrite Z.ltb_lt, Z.leb_le; lia). apply runs_ret. split; [done|].
    case_decide; [|done]. unfold zlen in *.
    by rewrite delete_take_drop, take_ge, drop_ge, app_nil_r by lia.
Qed.

(** ** A tree and its copies *)

(** [copies cs yss Γ]: the copies [cs] hold [yss], by the references [Γ]. *)
Inductive copies : list tree → list (list item) → list ref → Prop :=
  | copies_nil : copies [] [] []
  | copies_cons c cs ys yss Γ' Γ :
      copy_of c ys Γ' → copies cs yss Γ → copies (c :: cs) (ys :: yss) (Γ' ++ Γ).

Definition family cmp σ (s : state) (ls : list item * list (list item)) : Prop :=
  ∃ Γ, holds cmp σ s.1 ls.1 Γ ∧ copies s.2 ls.2 Γ.

(** The [k]-th copy and the references that are left without it. *)
Lemma copies_lookup cs yss Γ k :
  copies cs yss Γ →
  match cs !! k with
  | None => yss !! k = None
  | Some c => ∃ ys Γ' Γ'', yss !! k = Some ys ∧ copy_of c ys Γ' ∧ Γ ≡ₚ Γ' ++ Γ'' ∧
      copies (delete k cs) (delete k yss) Γ''
  end.
Proof.
  intros Hc. revert k. induction Hc as [|c cs ys yss Γ' Γ Hcopy Hc IH]; intros k; [done|].
  destruct k as [|k]; cbn.
  - by exists ys, Γ', Γ.
  - specialize (IH k). destruct (cs !! k) as [c'|]; [|done].
    destruct IH as (ys' & Γ1 & Γ2 & ? & ? & HΓ & ?). exists ys', Γ1, (Γ' ++ Γ2). split_and!; try done.
    + rewrite HΓ. solve_Permutation.
    + by constructor.
Qed.

Lemma tree_own_perm {cmp} σ t xs Γ Γ' : Γ ≡ₚ Γ' → holds cmp σ t xs Γ → holds cmp σ t xs Γ'.
Proof.
  intros Hp (Hn & Hc & Ht). split_and!; try done. destruct (root t).
  - destruct Ht as (Hs & d & ? & ? & ? & Ho). split; [done|]. exists d. split_and!; try done.
    eapply own_perm; [|exact Ho]. by rewrite Hp.
  - destruct Ht as [? Ho]. split; [done|]. by eapply own_perm.
Qed.

Lemma tree_own_some {cmp} σ t xs Γ : holds cmp σ t xs Γ → ∃ cp O Γ', own cp σ O (Γ' ++ Γ) ∧
  ∀ σ', own cp σ' O (Γ' ++ Γ) → holds cmp σ' t xs Γ.
Proof.
  intros (Hn & Hc & Ht). destruct (root t) eqn:Er.
  - destruct Ht as (Hs & d & ? & ? & ? & Ho). exists (copied t), ∅, [d]. split; [done|].
    intros σ' Ho'. unfold holds. rewrite Er. split_and!; try done. by exists d.
  - destruct Ht as [? Ho]. exists (copied t), (spares t), []. split; [done|].
    intros σ' Ho'. unfold holds. by rewrite Er.
Qed.

Lemma tree_own_release {cmp} σ t xs Γ c ys Γ' :
  holds cmp σ t xs (Γ' ++ Γ) → copy_of c ys Γ' →
  runs (Release c) σ (λ _ σ', holds cmp σ' t xs Γ).
Proof.
  intros (Hn & Hc & Ht) Hcopy. destruct (root t) eqn:Er.
  - destruct Ht as (Hs & d & ? & ? & ? & Ho).
    eapply own_perm in Ho; [eapply runs_mono; [eapply (Release_copy_ok _ _ _ _ _ (d :: Γ)); [exact Ho|exact Hcopy]|]|].
    + cbv beta. intros _ σ' Ho'. unfold holds. rewrite Er. split_and!; try done. by exists d.
    + solve_Permutation.
  - destruct Ht as [? Ho]. eapply runs_mono; [by eapply Release_copy_ok|].
    cbv beta. intros _ σ' Ho'. unfold holds. by rewrite Er.
Qed.

(** What an operation answers and leaves. *)
Definition refines_op σ (o : op K V) s ls : Prop :=
  runs (do_op o s) σ (λ '(a, s') σ', a = (list_op o ls).1 ∧ family None σ' s' (list_op o ls).2).

Lemma mutates {cmp A B} (m : sto K V (A * tree)) σ t cs xs ys yss (f : A → B) a :
  family cmp σ (t, cs) (xs, yss) →
  (∀ Γ, holds cmp σ t xs Γ → runs m σ (λ '(r, t') σ', f r = a ∧ holds cmp σ' t' ys Γ)) →
  runs ('(r, t') ← m; mret (f r, (t', cs))) σ
    (λ '(a', s') σ', a' = a ∧ family cmp σ' s' (ys, yss)).
Proof.
  intros (Γ & Ht & Hcs) Hm. apply runs_bind. eapply runs_mono; [by apply Hm|].
  intros [r t'] σ' [<- Ht']. apply runs_ret. split; [done|]. by exists Γ.
Qed.

(** A copy can be read. *)
Lemma family_copy cmp σ s ls k : family cmp σ s ls →
  match s.2 !! k with
  | None => ls.2 !! k = None
  | Some c => ∃ ys, ls.2 !! k = Some ys ∧ reads σ c ys
  end.
Proof.
  intros (Γ & Ht & Hcs). pose proof (copies_lookup _ _ _ k Hcs) as Hk.
  destruct (s.2 !! k) as [c|]; [|done]. destruct Hk as (ys & Γ' & Γ'' & Hys & Hc & HΓ & _).
  exists ys. split; [done|]. destruct (tree_own_some _ _ _ _ Ht) as (cp & O & Γt & Ho & _).
  eapply copy_reads; [exact Ho|exact Hc|]. rewrite HΓ. set_solver.
Qed.

Lemma family_share cmp σ t cs xs yss : family cmp σ (t, cs) (xs, yss) →
  runs (CopyInto t) σ (λ '(t', c) σ', family cmp σ' (t', c :: cs) (xs, xs :: yss)).
Proof.
  intros (Γ & Ht & Hcs). eapply runs_mono; [eapply CopyInto_ok; exact Ht|].
  intros [t' c] σ' (Γ' & Ht' & Hc & _). exists (Γ' ++ Γ). split; [done|]. cbn. by constructor.
Qed.

Lemma family_release cmp σ t cs xs yss k c : family cmp σ (t, cs) (xs, yss) → cs !! k = Some c →
  runs (Release c) σ (λ _ σ', family cmp σ' (t, delete k cs) (xs, delete k yss)).
Proof.
  intros (Γ & Ht & Hcs) Ec. cbn in *. pose proof (copies_lookup _ _ _ k Hcs) as Hk. rewrite Ec in Hk.
  destruct Hk as (ys & Γ' & Γ'' & _ & Hc & HΓ & Hcs'). apply (tree_own_perm _ _ _ _ _ HΓ) in Ht.
  eapply runs_mono; [eapply tree_own_release; [exact Ht|exact Hc]|].
  cbv beta. intros _ σ' Ht'. by exists Γ''.
Qed.

(** Releasing a copy that is not there does nothing. *)
Lemma family_absent cmp σ s ls k : family cmp σ s ls → s.2 !! k = None → delete k ls.2 = ls.2.
Proof.
  intros Hf Hk. pose proof (family_copy _ _ _ _ k Hf) as Hls. rewrite Hk in Hls.
  by rewrite delete_take_drop, take_ge, drop_ge, app_nil_r; apply lookup_ge_None in Hls; try lia.
Qed.

Lemma observes {cmp A B} (m : sto K V (A * tree)) σ s ls (f : A → B) a :
  family cmp σ s ls → runs m σ (λ '(r, _) σ', f r = a ∧ σ' = σ) →
  runs ('(r, _) ← m; mret (f r, s)) σ (λ '(a', s') σ', a' = a ∧ family cmp σ' s' ls).
Proof.
  intros Hf Hm. apply runs_bind. eapply runs_mono; [exact Hm|].
  intros [r t'] σ' [<- ->]. by apply runs_ret.
Qed.

Lemma copy_observes {A} (m : tree → sto K V (A * tree)) σ s ls k (f : A → answer K V) (g : list item → answer K V) :
  family None σ s ls →
  (∀ c ys, reads σ c ys → runs (m c) σ (λ '(r, _) σ', f r = g ys ∧ σ' = σ)) →
  runs (on_copy k s (λ c, '(x, _) ← m c; mret (f x, s))) σ (λ '(a, s') σ',
    a = match ls.2 !! k with Some ys => g ys | None => ADone end ∧ family None σ' s' ls).
Proof.
  intros Hf Hm. unfold on_copy. pose proof (family_copy _ _ _ _ k Hf) as Hk.
  destruct (s.2 !! k) as [c|]; [|rewrite Hk; by apply runs_ret].
  destruct Hk as (ys & -> & Hc). eapply observes; [exact Hf|]. by apply Hm.
Qed.

Lemma op_refines σ o s ls : family None σ s ls → refines_op σ o s ls.
Proof.
  intros Hf. destruct s as [t cs], ls as [xs yss]. unfold refines_op.
  assert (∃ Γ, tree_own σ t xs Γ) as [Γ0 Ht0] by (destruct Hf as (Γ & ? & ?); by exists Γ).
  pose proof (tree_own_reads _ _ _ _ Ht0) as Hreads.
  destruct o; cbn [do_op list_op fst snd].
  - eapply mutates; [exact Hf|]. intros Γ Ht. eapply runs_mono; [by eapply PushBack_ok|].
    intros [r t'] σ' (-> & ? & _). done.
  - eapply mutates; [exact Hf|]. intros Γ Ht. eapply runs_mono; [by eapply PushFront_ok|].
    intros [r t'] σ' (-> & ? & _). done.
  - case_decide as Hi; (eapply mutates; [exact Hf|]); intros Γ Ht.
    + eapply runs_mono; [eapply (InsertAt_ok i x _ _ (take (Z.to_nat i) xs)); [by rewrite take_drop|]|].
      { unfold zlen in *. rewrite length_take. lia. }
      intros [r t'] σ' (-> & ? & _). done.
    + eapply runs_mono; [eapply InsertAt_range; [exact Ht|lia]|].
      intros [r t'] σ' (-> & -> & ->). done.
  - eapply mutates; [exact Hf|]. intros Γ Ht. eapply runs_mono; [by eapply PopFront_ok|].
    intros [r t'] σ' (-> & ? & _). done.
  - eapply mutates; [exact Hf|]. intros Γ Ht. eapply runs_mono; [by eapply PopBack_all|].
    intros [r t'] σ' (-> & ?). done.
  - eapply mutates; [exact Hf|]. intros Γ Ht. eapply runs_mono; [by eapply DeleteAt_all|].
    intros [r t'] σ' (-> & ?). done.
  - eapply mutates; [exact Hf|]. intros Γ Ht.
    eapply runs_mono; [eapply Front_ok, tree_own_reads; exact Ht|].
    intros [r t'] σ' (-> & -> & ->). done.
  - eapply mutates; [exact Hf|]. intros Γ Ht.
    eapply runs_mono; [eapply Back_ok, tree_own_reads; exact Ht|].
    intros [r t'] σ' (-> & -> & ->). done.
  - eapply mutates; [exact Hf|]. intros Γ Ht.
    eapply runs_mono; [eapply GetAt_ok, tree_own_reads; exact Ht|].
    intros [r t'] σ' (-> & -> & ->). done.
  - apply runs_ret. split; [|done]. destruct Hreads as [Hn _]. unfold Len. by rewrite Hn.
  - apply runs_ret. split; [done|]. destruct Hf as (Γ & Ht & Hcs). exists Γ. split; [|done].
    eapply Clear_ok. exact Ht.
  - apply runs_bind. eapply runs_mono; [by eapply family_share|]. intros [t' c] σ' ?. by apply runs_ret.
  - eapply runs_mono.
    + eapply (copy_observes Front _ _ _ _ AItem (λ ys, AItem (head ys))); [exact Hf|]. intros c ys Hc.
      eapply runs_mono; [by eapply Front_ok|]. by intros [r t'] σ' (-> & _ & ->).
    + cbn. intros [a s'] σ' [-> ?]. by destruct (yss !! k).
  - eapply runs_mono.
    + eapply (copy_observes (GetAt i) _ _ _ _ AItem (λ ys, AItem (at_pos i ys))); [exact Hf|]. intros c ys Hc.
      eapply runs_mono; [by eapply GetAt_ok|]. by intros [r t'] σ' (-> & _ & ->).
    + cbn. intros [a s'] σ' [-> ?]. by destruct (yss !! k).
  - unfold on_copy. cbn [snd]. destruct (cs !! k) as [c|] eqn:Ec.
    + apply runs_bind. eapply runs_mono; [by eapply family_release|].
      cbv beta. intros _ σ' Hf'. by apply runs_ret.
    + apply runs_ret. pose proof (family_absent _ _ _ _ _ Hf Ec) as Hdel. cbn in Hdel. by rewrite Hdel.
Qed.

Lemma ops_refine os : ∀ σ s ls, family None σ s ls →
  runs (do_ops os s) σ (λ '(l, s') σ', l = (list_ops os ls).1 ∧ family None σ' s' (list_ops os ls).2).
Proof.
  induction os as [|o os IH]; intros σ s ls Hf; [by apply runs_ret|].
  cbn [do_ops list_ops]. apply runs_bind. eapply runs_mono; [by apply op_refines|].
  intros [a s'] σ' [-> Hf']. destruct (list_op o ls) as [a' ls']. cbn [fst snd] in *.
  apply runs_bind. eapply runs_mono; [by apply IH|]. intros [l s''] σ'' [-> Hf''].
  apply runs_ret. by destruct (list_ops os ls').
Qed.

Lemma list_ops_app (os os' : list (op K V)) : ∀ s, list_ops (os ++ os') s =
  let '(l, s) := list_ops os s in let '(l', s) := list_ops os' s in (l ++ l', s).
Proof.
  induction os as [|o os IH]; intros s; cbn; [by destruct (list_ops os' s)|].
  destruct (list_op o s) as [a s1]. rewrite IH. destruct (list_ops os s1) as [l s2].
  by destruct (list_ops os' s2).
Qed.

Lemma delete_stays {A} (l : list A) (j k : nat) (z : A) :
  j ≠ k → l !! k = Some z → delete j l !! (if decide (j < k) then k - 1 else k) = Some z.
Proof.
  intros Hne Hk. case_decide as Hlt.
  - rewrite list_lookup_delete_ge by lia. by replace (S (k - 1)) with k by lia.
  - by rewrite list_lookup_delete_lt by lia.
Qed.

(** The copy itself is the same value, and so is the list. *)
Lemma do_op_stays (o : op K V) s σ a s' σ' k k' c :
  do_op o s σ = Some ((a, s'), σ') → stays o k = Some k' → s.2 !! k = Some c → s'.2 !! k' = Some c.
Proof.
  destruct s as [t cs]. intros Hrun Hk Hc. cbn [snd] in Hc.
  destruct o as [| | | | | | | | | | | |j|j ?|j]; cbn [do_op stays] in *; unfold on_copy in *; cbn [snd] in *.
  15: { case_decide as Hne; [done|]. injection Hk as <-. destruct (cs !! j) as [cj|] eqn:Ej.
    - unfold mbind, sto_bind, mret, sto_ret in Hrun. destruct (Release cj σ) as [[??]|]; [|done].
      injection Hrun as <- <- <-. by apply delete_stays.
    - injection Hrun as <- <- <-. apply lookup_ge_None in Ej. pose proof (lookup_lt_Some _ _ _ Hc).
      by rewrite decide_False by lia. }
  all: try destruct (cs !! j); unfold mbind, sto_bind, mret, sto_ret in Hrun; repeat case_match; by simplify_eq.
Qed.

Lemma list_op_stays (o : op K V) ls k k' ys :
  stays o k = Some k' → ls.2 !! k = Some ys → (list_op o ls).2.2 !! k' = Some ys.
Proof.
  destruct ls as [xs yss]. intros Hk Hc. cbn [snd] in Hc.
  destruct o as [| | | | | | | | | | | |j|j ?|j]; cbn [list_op stays] in *.
  15: { case_decide as Hne; [done|]. injection Hk as <-. by apply delete_stays. }
  all: repeat case_match; by simplify_eq.
Qed.

Lemma ops_stay os : ∀ σ s ls k k' c ys,
  family None σ s ls → still os k = Some k' → s.2 !! k = Some c → ls.2 !! k = Some ys →
  runs (do_ops os s) σ (λ '(l, s') σ', s'.2 !! k' = Some c ∧ (list_ops os ls).2.2 !! k' = Some ys ∧
    family None σ' s' (list_ops os ls).2).
Proof.
  induction os as [|o os IH]; intros σ s ls k k' c ys Hf Hk Hc Hys; cbn [still] in Hk.
  { simplify_eq. by apply runs_ret. }
  apply bind_Some in Hk as (k1 & Ho & Hk). cbn [do_ops list_ops]. apply runs_bind.
  pose proof (op_refines _ o _ _ Hf) as Hop. unfold refines_op, runs in Hop |- *.
  destruct (do_op o s σ) as [[[a s1] σ1]|] eqn:E; [|done]. destruct Hop as [-> Hf1].
  pose proof (do_op_stays _ _ _ _ _ _ _ _ _ E Ho Hc) as Hc1.
  pose proof (list_op_stays _ _ _ _ _ Ho Hys) as Hys1. destruct (list_op o ls) as [a' ls1]. cbn [fst snd] in *.
  specialize (IH _ _ _ _ _ _ _ Hf1 Hk Hc1 Hys1).
  apply runs_bind. eapply runs_mono; [exact IH|]. intros [l s2] σ2 ?. apply runs_ret. by destruct (list_ops os ls1).
Qed.

(** ** Balance *)

(** The node [nd] is [k] levels below the node at [l]. *)
Inductive below σ : nat → nat → node → Prop :=
  | below_here l nd : σ !! l = Some nd → below σ l 0 nd
  | below_child l nd m k nd' : σ !! l = Some nd → m ∈ kids nd → below σ m k nd' → below σ l (S k) nd'.

(** A B-tree of height [h]: the leaves are all [h] levels below the root, and no node is too full or, the
    root apart, too empty. *)
Definition balanced σ (r h : nat) : Prop := ∀ k nd, below σ r k nd →
  k ≤ h ∧ (leaf nd = true ↔ k = h) ∧ len nd ≤ maxItems ∧ match k with O => 1 | S _ => minItems end ≤ len nd ∧
  (leaf nd = false → length (kids nd) = S (len nd)).

Lemma shows_balanced σ d : shows σ d → 1 ≤ r_len d → balanced σ (r_loc d) (r_h d).
Proof.
  intros Hd Hone k nd Hb. remember (r_loc d) as l eqn:El. revert d El Hd Hone.
  induction Hb as [l nd Hl|l nd m k nd' Hl He Hb IH]; intros d -> Hd Hone;
    destruct (shows_node _ _ Hd) as (its & c & ds & Hl' & (Hlen & Hmax & Hfit & _) & Hds); simplify_eq.
  - unfold len, leaf, kids, mknode. cbn. destruct (r_h d); cbn in *; [split_and!; try done; lia|].
    destruct Hfit as [Hn _]. rewrite length_fmap. split_and!; try done; lia.
  - unfold kids, mknode in He. destruct (r_h d) as [|h]; cbn in *; [by apply elem_of_nil in He|].
    apply list_elem_of_fmap in He as (e' & -> & He). destruct Hfit as [_ Hf].
    rewrite Forall_forall in Hf, Hds. destruct (Hf _ He) as [<- Hm].
    specialize (IH e' eq_refl (Hds _ He) ltac:(node_lia)).
    destruct IH as (? & Hleaf & ? & Hmin & ?). split_and!; try done; [lia| |].
    + rewrite Hleaf. lia.
    + destruct k; [|done]. inversion Hb as [? nd1 Hnd1|]; subst.
      destruct (shows_node _ _ (Hds _ He)) as (its1 & c1 & ds1 & Hl1 & (Hlen1 & _) & _). simplify_eq.
      unfold len, mknode. cbn. lia.
Qed.

Lemma Height_ok σ t xs : reads σ t xs →
  runs (Height t) σ (λ h σ', σ' = σ ∧ (∀ r, root t = Some r → balanced σ r h) ∧
    (xs = [] ∧ h = 0 ∨ 2 * 32 ^ h ≤ length xs + 1)).
Proof.
  intros Ht. pose proof Ht as [Hn Hr]. unfold Height. rewrite Hn. destruct xs as [|x xs].
  { apply runs_ret. split; [done|]. split; [|by left]. intros r Hroot. rewrite Hroot in Hr.
    destruct Hr as (d & _ & Hx & Hone & Hd). pose proof (shows_size _ _ Hd) as Hsz. rewrite Hx in Hsz.
    exfalso. pose proof (Nat.pow_nonzero 32 (r_h d)). simpl in *. nia. }
  rewrite (proj2 (Z.eqb_neq _ _)) by by rewrite zlen_nil_iff.
  destruct (reads_nonempty _ _ _ Ht) as (d & -> & Hx & Hk & Hd & Hh); [done|].
  apply runs_bind. eapply runs_some; [done|]. eapply runs_mono; [by apply height_loop_ok|].
  intros h σ' [-> ->]. split; [done|]. split; [intros r [= <-]; by apply shows_balanced|]. right. rewrite <-Hx.
  pose proof (shows_size _ _ Hd). nia.
Qed.

End facts.

(** * The theorems *)

Section theorems.
Context {K V : Type}.
#[local] Existing Instance nothing.

Lemma family_new : family (K := K) (V := V) None [] (new_tree None, []) ([], []).
Proof. exists []. split; [apply tree_own_new|constructor]. Qed.

Lemma do_ops_new (os : list (op K V)) : ∃ s σ,
  do_ops os (new_tree None, []) [] = Some (((list_ops os ([], [])).1, s), σ) ∧
  family None σ s (list_ops os ([], [])).2.
Proof.
  pose proof (ops_refine os [] _ _ family_new) as Hrun. unfold runs in Hrun.
  destruct (do_ops _ _ _) as [[[l s] σ]|]; [|done]. destruct Hrun as [-> Hf]. by exists s, σ.
Qed.

(** C9: Any sequence of pushes at both ends, pops at both ends, insertions and deletions by
    position, reads by position, snapshots and their releases on a new tree runs without a nil
    dereference or an index out of range, and gives the answers that the same operations on a plain
    list give, reads of the snapshots included. *)
Theorem btree_is_list (os : list (op K V)) : ∃ s σ,
  do_ops os (new_tree None, []) [] = Some (((list_ops os ([], [])).1, s), σ).
Proof. destruct (do_ops_new os) as (s & σ & H & _). by exists s, σ. Qed.

(** C28: After any sequence of operations, CopyInto and Release among them, every leaf of the
    tree is at the same depth, which is its Height h, and h is logarithmic in the number n of its
    items: a tree that is not empty has 2 * 32 ^ h at most n + 1. *)
Theorem btree_height (os : list (op K V)) : ∃ l t cs σ h,
  do_ops os (new_tree None, []) [] = Some ((l, (t, cs)), σ) ∧ Height t σ = Some (h, σ) ∧
  (∀ r, root t = Some r → balanced σ r h) ∧
  (Len t = 0%Z ∧ h = 0 ∨ (2 * 32 ^ Z.of_nat h ≤ Len t + 1)%Z).
Proof.
  destruct (do_ops_new os) as ([t cs] & σ & Hrun & Γ & Ht & _). cbn in Ht.
  apply tree_own_reads in Ht as Hr. pose proof (Height_ok _ _ _ Hr) as Hh. unfold runs in Hh.
  destruct (Height t σ) as [[h σ']|] eqn:Eh; [|done]. destruct Hh as (-> & Hbal & Hle).
  exists (list_ops os ([], [])).1, t, cs, σ, h. split_and!; [done..|].
  destruct Hr as [Hn _]. unfold Len. rewrite Hn. unfold zlen.
  destruct Hle as [[-> ->]|Hle]; [by left|right].
  replace (32 ^ Z.of_nat h)%Z with (Z.of_nat (32 ^ h)) by (rewrite Nat2Z.inj_pow; done). lia.
Qed.

(** C19: A snapshot taken by CopyInto has, at every position, what the tree had there when it
    was taken, whatever operations the tree goes through afterwards, more CopyIntos and Releases of
    other snapshots among them, as long as it is not released itself. *)
Theorem btree_copy_keeps (os os' : list (op K V)) k :
  still os' 0 = Some k →
  ∃ l t c cs σ l' t' cs' σ',
    do_ops (os ++ [OCopy]) (new_tree None, []) [] = Some ((l, (t, c :: cs)), σ) ∧
    do_ops os' (t, c :: cs) σ = Some ((l', (t', cs')), σ') ∧
    cs' !! k = Some c ∧
    ∀ i, GetAt i c σ' = Some ((at_pos i (list_ops os ([], [])).2.1, c), σ').
Proof.
  intros Hk. destruct (do_ops_new (os ++ [OCopy])) as ([t cs] & σ & Hrun & Hf).
  rewrite list_ops_app in Hf, Hrun. destruct (list_ops os ([], [])) as [l1 [xs yss]] eqn:Hos.
  cbn [list_ops list_op fst snd] in *. pose proof (family_copy _ _ _ _ 0 Hf) as Hc. cbn [snd] in Hc.
  destruct cs as [|c cs]; [discriminate|]. cbn [lookup list_lookup] in Hc.
  pose proof (ops_stay os' σ (t, c :: cs) _ 0 k c xs Hf Hk eq_refl eq_refl) as Hrun'. unfold runs in Hrun'.
  destruct (do_ops os' (t, c :: cs) σ) as [[[l' [t' cs']] σ']|] eqn:E; [|done].
  destruct Hrun' as (Hck & Hxs & Hf'). pose proof (family_copy _ _ _ _ k Hf') as Hread. cbn [snd] in *.
  rewrite Hck in Hread. destruct Hread as (ys & Hys & Hread). rewrite Hxs in Hys. injection Hys as <-.
  eexists _, t, c, cs, σ, l', t', cs', σ'. split_and!; [exact Hrun|done|done|].
  intros i. pose proof (GetAt_ok _ _ _ i Hread) as Hget. unfold runs in Hget.
  destruct (GetAt i c σ') as [[[o c'] σ2]|]; [|done]. by destruct Hget as (-> & -> & ->).
Qed.
End theorems.

(** * The spare leaf *)

(** The field's comment calls the spare leaf exclusively owned, but CopyInto copies the pointer to it, so
    a tree and its copy that are both written to after the tree was emptied fill the same leaf: the push
    into the copy overwrites the tree's only item. The queue never writes to a copy. *)
Example spare_leaf_shared :
  (let run := '(_, t) ← PushBack ((), 0) (new_tree None); '(_, t) ← PopFront t;
              '(t, c) ← CopyInto t;
              '(_, t) ← PushBack ((), 1) t; '(_, c) ← PushBack ((), 2) c;
              '(x, _) ← Front t; mret x : sto unit nat (option (unit * nat)) in
   fst <$> run []) = Some (Some ((), 2)).
Proof. vm_compute. reflexivity. Qed.
