(* ===== verification/BtreeKeyed.v ===== *)
(** The rest of the tree of btype_btree.go: the operations by key, ReplaceAt, and the iterations, which with
    [mut] make every node they visit private, as the readers of [Btree.v] do. The body of an iteration runs
    on the store; [A] holds the variables it assigns, and it says whether to go on. A body that wrote to the
    tree it is run on would make a loop over the items of a node see what it wrote; here the items of a leaf
    are read when the walk comes to it. *)

From S2P Require Import Prelude Btree.

Section keyed.
Context {K V : Type}.
Abbreviation N := (node K V).
Abbreviation T := (tree K V).
Abbreviation M := (sto K V).
Abbreviation item := (K * V)%type.
Implicit Types (n : loc) (nd : N) (t : T) (x : item).

(** The field dataSearch, on the items of a node: the position of a key and whether it is there. *)
Variable dataSearch : list item → item → nat * bool.

Definition search nd x : nat * bool := dataSearch (items nd) x.

Definition eq t (a b : item) : M bool :=
  match dataCompare t with Some f => mret (f a.1 a.2 b.1 b.2 =? 0)%Z | None => fault end.

(** * Inserting by key *)

(** The descent that nodeInsert and nodeSet share; they differ in what they do, [hit], with the item that
    has the key already. It answers the value that was there, and how many items it put in. A child that
    had to be split makes the node be searched again. *)
Fixpoint upsert (hit : loc → nat → M V) (fuel : nat) t n x : M (option V * Z) :=
  match fuel with
  | O => fault
  | S fuel =>
      nd ← load n;
      let '(i, found) := search nd x in
      if found : bool then v ← hit n i; mret (Some v, 0%Z)
      else if leaf nd then insertItemAt n x i;; mret (None, 1%Z)
      else
        cowChild fuel t n i true;;
        split ← ensureBranch n i;
        if split : bool then upsert hit fuel t n x
        else
          nd ← load n; c ← child nd i;
          '(prev, inserted) ← upsert hit fuel t c x;
          upd_count n i (λ c, c + inserted)%Z;;
          mret (prev, inserted)
  end.

Definition value_at n (i : nat) : M V := nd ← load n; y ← ofopt (items nd !! i); mret y.2.

(** [old := n.values[i]; n.values[i] = value] *)
Definition swap_value (v : V) n (i : nat) : M V :=
  nd ← load n; y ← ofopt (items nd !! i);
  set n (set_items (<[i := (y.1, v)]> (items nd)) nd);;
  mret y.2.

Definition nodeInsert (fuel : nat) t n x : M (option V * Z) := upsert value_at fuel t n x.
Definition nodeSet (fuel : nat) t n x : M (option V * Z) := upsert (swap_value x.2) fuel t n x.

Definition Insert x t : M (option V * bool * T) :=
  if (tcount t =? 0)%Z then t ← insertFirstItem x t; mret (None, true, t)
  else
    t ← cowRoot (depth t) true t;
    t ← ensureRoot t;
    r ← ofopt (root t);
    '(current, inserted) ← nodeInsert (2 * depth t) t r x;
    mret (current, (inserted =? 1)%Z, set_count (tcount t + inserted) t).

Definition Set_ x t : M (option V * bool * T) :=
  if (tcount t =? 0)%Z then t ← insertFirstItem x t; mret (None, false, t)
  else
    t ← cowRoot (depth t) true t;
    t ← ensureRoot t;
    r ← ofopt (root t);
    '(current, inserted) ← nodeSet (2 * depth t) t r x;
    mret (current, (inserted =? 0)%Z, set_count (tcount t + inserted) t).

(** * Finding, replacing and deleting by key *)

Fixpoint replace_loop (fuel : nat) t n x : M (option V) :=
  match fuel with
  | O => fault
  | S fuel =>
      nd ← load n;
      let '(i, found) := search nd x in
      if found : bool then old ← swap_value x.2 n i; mret (Some old)
      else if leaf nd then mret None
      else cowChild fuel t n i true;; nd ← load n; c ← child nd i; replace_loop fuel t c x
  end.

Definition Replace x t : M (option V * T) :=
  if (tcount t =? 0)%Z then mret (None, t)
  else
    t ← cowRoot (depth t) true t;
    r ← ofopt (root t);
    old ← replace_loop (depth t) t r x;
    mret (old, t).

Fixpoint contains_loop (fuel : nat) n x : M bool :=
  match fuel with
  | O => fault
  | S fuel =>
      nd ← load n;
      let '(i, found) := search nd x in
      if found : bool then mret true
      else if leaf nd then mret false
      else c ← child nd i; contains_loop fuel c x
  end.

Definition Contains x t : M bool :=
  if (tcount t =? 0)%Z then mret false
  else r ← ofopt (root t); contains_loop (depth t) r x.

Fixpoint get_loop (fuel : nat) t n x (mut : bool) : M (option V) :=
  match fuel with
  | O => fault
  | S fuel =>
      nd ← load n;
      let '(i, found) := search nd x in
      if found : bool then y ← ofopt (items nd !! i); mret (Some y.2)
      else if leaf nd then mret None
      else cowChild fuel t n i mut;; nd ← load n; c ← child nd i; get_loop fuel t c x mut
  end.

Definition get0 x (mut : bool) t : M (option V * T) :=
  if (tcount t =? 0)%Z then mret (None, t)
  else
    t ← cowRoot (depth t) mut t;
    r ← ofopt (root t);
    v ← get_loop (depth t) t r x mut;
    mret (v, t).

Definition Get x t : M (option V * T) := get0 x false t.
Definition GetMut x t : M (option V * T) := get0 x true t.

Fixpoint nodeDelete (fuel : nat) t n x : M (option V) :=
  match fuel with
  | O => fault
  | S fuel =>
      nd ← load n;
      let '(i, found) := search nd x in
      if leaf nd then
        if found : bool then
          old ← ofopt (items nd !! i);
          set n (set_items (delete i (items nd)) nd);;
          mret (Some old.2)
        else mret None
      else
        cowChild fuel t n i true;;
        nd ← load n; c ← child nd i;
        old ← (if found : bool then
          old ← ofopt (items nd !! i);
          mx ← nodeDeleteMax fuel t c;
          nd ← load n;
          set n (set_items (<[i := mx]> (items nd)) nd);;
          mret (Some old.2)
        else nodeDelete fuel t c x);
        match old with
        | None => mret None
        | Some _ => child_lost fuel t n i;; mret old
        end
  end.

Definition Delete x t : M (option V * T) :=
  if (tcount t =? 0)%Z then mret (None, t)
  else
    t ← cowRoot (depth t) true t;
    r ← ofopt (root t);
    old ← nodeDelete (depth t) t r x;
    match old with
    | Some _ => t ← collapseRootIfNeeded (set_count (tcount t - 1) t); mret (old, t)
    | None => mret (None, t)
    end.

Fixpoint indexOf_loop (fuel : nat) n x (index : Z) : M (Z * bool) :=
  match fuel with
  | O => fault
  | S fuel =>
      nd ← load n;
      let '(i, found) := search nd x in
      let index := (index + Z.of_nat i)%Z in
      if leaf nd then mret (index, found)
      else
        b ← the_branch nd;
        let index := (index + foldr Z.add 0 (take i (counts b)))%Z in
        if found : bool then c ← ofopt (counts b !! i); mret ((index + c)%Z, true)
        else c ← child nd i; indexOf_loop fuel c x index
  end.

Definition IndexOf x t : M (Z * bool) :=
  if (tcount t =? 0)%Z then mret (0%Z, false)
  else r ← ofopt (root t); indexOf_loop (depth t) r x 0.

(** * Replacing by position *)

Definition put_item n (i : nat) x : M item :=
  nd ← load n; old ← ofopt (items nd !! i);
  set n (set_items (<[i := x]> (items nd)) nd);;
  mret old.

Fixpoint replaceAt_loop (fuel : nat) t n (index : Z) x : M item :=
  match fuel with
  | O => fault
  | S fuel =>
      nd ← load n;
      if leaf nd then put_item n (Z.to_nat index) x
      else
        b ← the_branch nd;
        let '(i, index, found) := seekAt (counts b) (len nd) index in
        if found : bool then put_item n i x
        else
          cowChild fuel t n i true;;
          nd ← load n; c ← child nd i;
          replaceAt_loop fuel t c index x
  end.

(** Whether an item may stand at a position: above the one before and below the one after. *)
Definition ordered_at t r (index : Z) x : M bool :=
  match dataCompare t with
  | None => mret true
  | Some _ =>
      low ← (if (0 <? index)%Z then a ← getAt_loop (depth t) t r (index - 1) false; mret (gte t a x)
             else mret false);
      if low : bool then mret false
      else if (index <? tcount t - 1)%Z then
        b ← getAt_loop (depth t) t r (index + 1) false;
        mret (negb (gte t x b))
      else mret true
  end.

Definition ReplaceAt (index : Z) x t : M (option item * T) :=
  if ((index <? 0) || (tcount t <=? index))%Z then mret (None, t)
  else
    r ← ofopt (root t);
    ok ← ordered_at t r index x;
    if ok : bool then
      t ← cowRoot (depth t) true t;
      r ← ofopt (root t);
      old ← replaceAt_loop (depth t) t r index x;
      mret (Some old, t)
    else mret (None, t).

(** * Iterating *)

Section iterate.
Context {A : Type}.
Variable yield : A → item → M (A * bool).
Variable mut : bool.
Implicit Types (a : A) (visit : loc → A → M (A * bool)).

Fixpoint yield_each (xs : list item) a : M (A * bool) :=
  match xs with
  | [] => mret (a, true)
  | x :: xs => '(a, go) ← yield a x; if go : bool then yield_each xs a else mret (a, false)
  end.

Definition yield_at n (i : nat) a : M (A * bool) :=
  nd ← load n; x ← ofopt (items nd !! i); yield a x.

Definition visit_child (fuel : nat) t visit n (i : nat) a : M (A * bool) :=
  cowChild fuel t n i mut;; nd ← load n; c ← child nd i; visit c a.

(** Child and item from slot [i] on, [k] times, and the last child. *)
Fixpoint all_loop (fuel : nat) t visit n (i k : nat) a : M (A * bool) :=
  '(a, go) ← visit_child fuel t visit n i a;
  if go : bool then
    match k with
    | O => mret (a, true)
    | S k =>
        '(a, go) ← yield_at n i a;
        if go : bool then all_loop fuel t visit n (S i) k a else mret (a, false)
    end
  else mret (a, false).

Fixpoint nodeAll (fuel : nat) t n a : M (A * bool) :=
  match fuel with
  | O => fault
  | S fuel =>
      nd ← load n;
      if leaf nd then yield_each (items nd) a
      else all_loop fuel t (nodeAll fuel t) n 0 (len nd) a
  end.

(** The item before slot [i] and the child before it, down to the first. *)
Fixpoint backward_loop (fuel : nat) t visit n (i : nat) a : M (A * bool) :=
  match i with
  | O => mret (a, true)
  | S i =>
      '(a, go) ← yield_at n i a;
      if go : bool then
        '(a, go) ← visit_child fuel t visit n i a;
        if go : bool then backward_loop fuel t visit n i a else mret (a, false)
      else mret (a, false)
  end.

Fixpoint nodeBackward (fuel : nat) t n a : M (A * bool) :=
  match fuel with
  | O => fault
  | S fuel =>
      nd ← load n;
      if leaf nd then yield_each (reverse (items nd)) a
      else
        '(a, go) ← visit_child fuel t (nodeBackward fuel t) n (len nd) a;
        if go : bool then backward_loop fuel t (nodeBackward fuel t) n (len nd) a else mret (a, false)
  end.

(** The item of slot [i] and the child after it, [k] times. *)
Fixpoint forward_loop (fuel : nat) t visit n (i k : nat) a : M (A * bool) :=
  match k with
  | O => mret (a, true)
  | S k =>
      '(a, go) ← yield_at n i a;
      if go : bool then
        '(a, go) ← visit_child fuel t visit n (S i) a;
        if go : bool then forward_loop fuel t visit n (S i) k a else mret (a, false)
      else mret (a, false)
  end.

(** From a position on. *)
Fixpoint nodeAscendAt (fuel : nat) t n (index : Z) a : M (A * bool) :=
  match fuel with
  | O => fault
  | S fuel =>
      nd ← load n;
      if leaf nd then yield_each (drop (Z.to_nat index) (items nd)) a
      else
        b ← the_branch nd;
        let '(i, index, found) := seekAt (counts b) (len nd) index in
        '(a, go) ← (if found : bool then mret (a, true)
                    else visit_child fuel t (λ c, nodeAscendAt fuel t c index) n i a);
        if go : bool then forward_loop fuel t (nodeAll fuel t) n i (len nd - i) a else mret (a, false)
  end.

(** From a position, counted from the end, down; the counts are gone through from the last. *)
Fixpoint nodeDescendAt (fuel : nat) t n (index : Z) a : M (A * bool) :=
  match fuel with
  | O => fault
  | S fuel =>
      nd ← load n;
      if leaf nd then yield_each (drop (Z.to_nat index) (reverse (items nd))) a
      else
        b ← the_branch nd;
        let '(j, index, found) := seekAt (reverse (counts b)) (len nd) index in
        let i := len nd - j in
        '(a, go) ← (if found : bool then mret (a, true)
                    else visit_child fuel t (λ c, nodeDescendAt fuel t c index) n i a);
        if go : bool then backward_loop fuel t (nodeBackward fuel t) n i a else mret (a, false)
  end.

(** From a key on. *)
Fixpoint nodeAscend (fuel : nat) t n x a : M (A * bool) :=
  match fuel with
  | O => fault
  | S fuel =>
      nd ← load n;
      let '(i, found) := search nd x in
      if leaf nd then yield_each (drop i (items nd)) a
      else
        '(a, go) ← (if found : bool then mret (a, true)
                    else visit_child fuel t (λ c, nodeAscend fuel t c x) n i a);
        if go : bool then forward_loop fuel t (nodeAll fuel t) n i (len nd - i) a else mret (a, false)
  end.

(** From a key down: the item of slot [i] is the first if it has the key, or else the one before. *)
Fixpoint nodeDescend (fuel : nat) t n x a : M (A * bool) :=
  match fuel with
  | O => fault
  | S fuel =>
      nd ← load n;
      let '(i, found) := search nd x in
      let upto := if found : bool then S i else i in
      if leaf nd then yield_each (reverse (take upto (items nd))) a
      else
        '(a, go) ← (if found then mret (a, true)
                    else visit_child fuel t (λ c, nodeDescend fuel t c x) n i a);
        if go : bool then backward_loop fuel t (nodeBackward fuel t) n upto a else mret (a, false)
  end.

(** The iterations share their start. *)
Definition iterating (walk : T → loc → A → M (A * bool)) t a : M (A * T) :=
  if (0 <? tcount t)%Z then
    t ← cowRoot (depth t) mut t;
    r ← ofopt (root t);
    '(a, _) ← walk t r a;
    mret (a, t)
  else mret (a, t).

Definition all0 t a : M (A * T) := iterating (λ t, nodeAll (depth t) t) t a.
Definition backward0 t a : M (A * T) := iterating (λ t, nodeBackward (depth t) t) t a.
Definition ascend0 x t a : M (A * T) := iterating (λ t r, nodeAscend (depth t) t r x) t a.
Definition descend0 x t a : M (A * T) := iterating (λ t r, nodeDescend (depth t) t r x) t a.

Definition ascendAt0 (index : Z) t a : M (A * T) :=
  if (index <=? 0)%Z then all0 t a
  else if (tcount t <=? index)%Z then mret (a, t)
  else iterating (λ t r, nodeAscendAt (depth t) t r index) t a.

Definition descendAt0 (index : Z) t a : M (A * T) :=
  if (tcount t - 1 <=? index)%Z then backward0 t a
  else if (index <? 0)%Z then mret (a, t)
  else iterating (λ t r, nodeDescendAt (depth t) t r (tcount t - index - 1)) t a.

(** Drain and DrainBackward: every trip takes an item out, so that one trip more than there are items is
    the last. *)
Fixpoint drain_loop (pop : T → M (option item * T)) (fuel : nat) t a : M (A * T) :=
  match fuel with
  | O => fault
  | S fuel =>
      '(o, t) ← pop t;
      match o with
      | None => mret (a, t)
      | Some x => '(a, go) ← yield a x; if go : bool then drain_loop pop fuel t a else mret (a, t)
      end
  end.

Definition Drain t a : M (A * T) := drain_loop PopFront (S (depth t)) t a.
Definition DrainBackward t a : M (A * T) := drain_loop PopBack (S (depth t)) t a.
End iterate.

Definition All {A} f t (a : A) := all0 f false t a.
Definition AllMut {A} f t (a : A) := all0 f true t a.
Definition Backward {A} f t (a : A) := backward0 f false t a.
Definition BackwardMut {A} f t (a : A) := backward0 f true t a.
Definition Ascend {A} f x t (a : A) := ascend0 f false x t a.
Definition AscendMut {A} f x t (a : A) := ascend0 f true x t a.
Definition Descend {A} f x t (a : A) := descend0 f false x t a.
Definition DescendMut {A} f x t (a : A) := descend0 f true x t a.
Definition AscendAt {A} f i t (a : A) := ascendAt0 f false i t a.
Definition AscendAtMut {A} f i t (a : A) := ascendAt0 f true i t a.
Definition DescendAt {A} f i t (a : A) := descendAt0 f false i t a.
Definition DescendAtMut {A} f i t (a : A) := descendAt0 f true i t a.

(** The bodies of the seeks: the first item, or the first that is not the key. *)
Definition first_body (_ : option item) (y : item) : M (option item * bool) := mret (Some y, false).
Definition other_body t x (a : option item) (y : item) : M (option item * bool) :=
  same ← eq t x y; mret (if same : bool then (a, true) else (Some y, false)).

Definition seek0 x (mut : bool) t : M (option item * T) :=
  if (0 <? tcount t)%Z then ascend0 first_body mut x t None else mret (None, t).
Definition seekNext0 x (mut : bool) t : M (option item * T) := ascend0 (other_body t x) mut x t None.
Definition seekPrev0 x (mut : bool) t : M (option item * T) := descend0 (other_body t x) mut x t None.

Definition Seek x t := seek0 x false t.
Definition SeekMut x t := seek0 x true t.
Definition SeekNext x t := seekNext0 x false t.
Definition SeekNextMut x t := seekNext0 x true t.
Definition SeekPrev x t := seekPrev0 x false t.
Definition SeekPrevMut x t := seekPrev0 x true t.
End keyed.
