(* ===== verification/BtreeSorted.v ===== *)
(** The reference for the operations by key of btype_btree.go: where a key falls in a sorted list, and which
    way that sends a descent at a branch of the tree. *)

From Stdlib Require Import Sorted.
From stdpp Require Import sorting gmap.
From S2P Require Import Prelude Btree BtreeOwn BtreeRules BtreeDelete BtreeRemove BtreeDescend BtreeInsert.
From S2P Require Import BtreeKeyed.

Section sorted.
Context {K V : Type}.
Abbreviation item := (K * V)%type.
Abbreviation ref := (@ref K V).
Implicit Types (x y z : item) (xs ys its lo hi : list item) (o : option item) (ds : list ref) (e : ref).
Variable cmp : K → V → K → V → Z.

(** The field dataCompare, on items. *)
Definition comp x y : Z := cmp x.1 x.2 y.1 y.2.

Class Ordering : Prop := {
  comp_flip x y : (comp x y < 0)%Z ↔ (0 < comp y x)%Z;
  comp_trans x y z : (comp x y ≤ 0)%Z → (comp y z ≤ 0)%Z → (comp x z ≤ 0)%Z;
}.

Abbreviation below := (λ x y, (comp x y < 0)%Z).

Definition ascending xs : Prop := StronglySorted below xs.

(** The items below a key, the one that has it, and the items above. *)
Fixpoint locate x xs : list item * option item * list item :=
  match xs with
  | [] => ([], None, [])
  | y :: ys =>
      if (comp y x <? 0)%Z then let '(lo, o, hi) := locate x ys in (y :: lo, o, hi)
      else if (comp y x =? 0)%Z then ([], Some y, ys) else ([], None, y :: ys)
  end.

Definition isSome {A} (o : option A) : bool := match o with Some _ => true | None => false end.

(** What dataSearch does on the sorted items of a node. *)
Class Searches (dataSearch : list item → item → nat * bool) : Prop :=
  searches its x : ascending its →
    dataSearch its x = let '(lo, o, _) := locate x its in (length lo, isSome o).

Definition parts x xs lo o hi : Prop :=
  xs = lo ++ option_list o ++ hi ∧ Forall (λ y, comp y x < 0)%Z lo ∧
  (∀ y, o = Some y → comp y x = 0%Z) ∧ Forall (λ y, 0 < comp y x)%Z hi.

Lemma parts_locate x xs lo o hi : parts x xs lo o hi → locate x xs = (lo, o, hi).
Proof.
  intros (-> & Hlo & Ho & Hhi). induction Hlo as [|y lo Hy Hlo IH]; cbn [app locate].
  - destruct o as [y|]; simpl.
    + by rewrite (Ho y eq_refl).
    + destruct Hhi as [|y hi Hy Hhi]; [done|]. simpl.
      by rewrite (proj2 (Z.ltb_ge _ _)), (proj2 (Z.eqb_neq _ _)) by lia.
  - by rewrite (proj2 (Z.ltb_lt _ _)), IH by lia.
Qed.

Lemma parts_unique x xs lo o hi lo' o' hi' :
  parts x xs lo o hi → parts x xs lo' o' hi' → lo = lo' ∧ o = o' ∧ hi = hi'.
Proof. intros H%parts_locate H'%parts_locate. rewrite H in H'. by injection H'. Qed.

Context {Hcmp : Ordering}.

Lemma comp_refl x : comp x x = 0%Z.
Proof. pose proof (comp_flip x x). lia. Qed.

Lemma comp_eq x y : comp x y = 0%Z ↔ comp y x = 0%Z.
Proof. pose proof (comp_flip x y). pose proof (comp_flip y x). lia. Qed.

Lemma comp_le_lt x y z : (comp x y ≤ 0)%Z → (comp y z < 0)%Z → (comp x z < 0)%Z.
Proof.
  intros H1 H2. pose proof (comp_trans x y z H1). destruct (decide (comp x z = 0%Z)) as [E|]; [|lia].
  apply comp_eq in E. pose proof (comp_trans z x y). apply comp_flip in H2. lia.
Qed.

Lemma comp_lt_le x y z : (comp x y < 0)%Z → (comp y z ≤ 0)%Z → (comp x z < 0)%Z.
Proof.
  intros H1 H2. pose proof (comp_trans x y z). destruct (decide (comp x z = 0%Z)) as [E|]; [|lia].
  apply comp_eq in E. pose proof (comp_trans y z x). apply comp_flip in H1. lia.
Qed.

(** What has the same place as [x] falls where [x] falls. *)
Lemma comp_same x y z : comp y x = 0%Z → (comp y z < 0 ↔ comp x z < 0)%Z ∧ (comp z y < 0 ↔ comp z x < 0)%Z.
Proof.
  intros E. pose proof (proj1 (comp_eq _ _) E) as E'. split; split; intros ?.
  - by apply (comp_le_lt _ y); [lia|].
  - by apply (comp_le_lt _ x); [lia|].
  - by apply (comp_lt_le _ y); [|lia].
  - by apply (comp_lt_le _ x); [|lia].
Qed.

Lemma ascending_app xs ys : ascending (xs ++ ys) ↔
  ascending xs ∧ ascending ys ∧ ∀ x y, x ∈ xs → y ∈ ys → (comp x y < 0)%Z.
Proof. unfold ascending. rewrite StronglySorted_app. naive_solver. Qed.

Lemma ascending_cons x xs : ascending (x :: xs) ↔ Forall (below x) xs ∧ ascending xs.
Proof.
  split; [by intros H; apply StronglySorted_inv in H as [? ?]|]. intros [? ?]. by constructor.
Qed.

Lemma locate_parts x xs : ascending xs → ∃ lo o hi, locate x xs = (lo, o, hi) ∧ parts x xs lo o hi.
Proof.
  intros Hs. enough (∃ lo o hi, parts x xs lo o hi) as (lo & o & hi & Hp).
  { exists lo, o, hi. split; [|done]. by apply parts_locate. }
  induction xs as [|y ys IH]; [by exists [], None, []|]. apply ascending_cons in Hs as [Hy Hs].
  destruct (decide (comp y x < 0)%Z) as [Hlt|Hge].
  - destruct (IH Hs) as (lo & o & hi & -> & ? & ? & ?). exists (y :: lo), o, hi.
    split_and!; try done. by constructor.
  - assert (Forall (λ z, 0 < comp z x)%Z ys) as Hys.
    { eapply Forall_impl; [exact Hy|]. cbn. intros z Hz. apply comp_flip.
      apply (comp_le_lt _ y); [|done]. pose proof (comp_flip y x). pose proof (comp_flip x y). lia. }
    destruct (decide (comp y x = 0%Z)) as [E|E].
    + exists [], (Some y), ys. split_and!; try done. naive_solver.
    + exists [], None, (y :: ys). split_and!; try done. constructor; [lia|done].
Qed.

Lemma search_parts (dataSearch : list item → item → nat * bool) `{!Searches dataSearch} its x :
  ascending its → ∃ lo o hi, parts x its lo o hi ∧ dataSearch its x = (length lo, isSome o).
Proof.
  intros Hs. destruct (locate_parts x its Hs) as (lo & o & hi & Hl & Hp). exists lo, o, hi.
  split; [done|]. by rewrite searches, Hl.
Qed.

(** Putting an item in its place, over another or between its neighbours, keeps the list sorted. *)
Lemma ascending_put x xs lo o hi y :
  ascending xs → parts x xs lo o hi → comp y x = 0%Z → ascending (lo ++ y :: hi).
Proof.
  intros Hs (-> & Hlo & _ & Hhi) Hy. apply ascending_app in Hs as (Hslo & Hs & Hlt).
  apply ascending_app in Hs as (_ & Hshi & _).
  rewrite Forall_forall in Hlo. rewrite Forall_forall in Hhi.
  assert (∀ z, z ∈ hi → comp y z < 0)%Z as Hyhi.
  { intros z Hz. apply (comp_same x y z Hy), comp_flip, Hhi, Hz. }
  apply ascending_app. split_and!; [done| |].
  - apply ascending_cons. split; [|done]. apply Forall_forall. exact Hyhi.
  - intros z w Hz [->|Hw]%elem_of_cons; [by apply (comp_same x y z Hy), Hlo|].
    apply Hlt; [done|]. set_solver.
Qed.

Lemma ascending_drop_one lo o hi : ascending (lo ++ option_list o ++ hi) → ascending (lo ++ hi).
Proof.
  intros (Hlo & Hs & Hlt)%ascending_app. apply ascending_app in Hs as (_ & Hhi & _).
  apply ascending_app. split_and!; try done. set_solver.
Qed.

(** ** At a branch *)

Lemma ascending_sublist xs ys : sublist xs ys → ascending ys → ascending xs.
Proof.
  induction 1 as [|y xs ys Hsub IH|y xs ys Hsub IH]; [done|..]; intros (Hy & Hs)%ascending_cons; [|by apply IH].
  apply ascending_cons. split; [|by apply IH]. apply Forall_forall. intros z Hz.
  rewrite Forall_forall in Hy. apply Hy. by eapply elem_of_submseteq, sublist_submseteq.
Qed.

Lemma items_sublist its ds : length ds = S (length its) → sublist its (contents its ds).
Proof.
  revert ds. induction its as [|y its IH]; intros [|e ds] Hl; try discriminate; [apply sublist_nil_l|].
  rewrite contents_cons. apply sublist_inserts_l, sublist_skip, IH. cbn in Hl. lia.
Qed.

Lemma lead_below x its ds :
  length its = length ds → ascending (lead its ds) → Forall (λ y, comp y x < 0)%Z its →
  Forall (λ y, comp y x < 0)%Z (lead its ds).
Proof.
  intros Hl Hs Hits. destruct its as [|y its _] using rev_ind; [by destruct ds|].
  destruct ds as [|e ds _] using rev_ind; [rewrite length_app in Hl; cbn in Hl; lia|].
  rewrite !length_app in Hl. cbn in Hl. rewrite lead_snoc in * by lia. rewrite (assoc_L (++)) in *.
  apply ascending_app in Hs as (_ & _ & Hlt). apply Forall_app in Hits as [_ Hy].
  apply Forall_cons in Hy as [Hy _]. apply Forall_app_2; [|by constructor].
  apply Forall_forall. intros z Hz. apply (comp_lt_le _ y); [|lia]. apply Hlt; [done|set_solver].
Qed.

(** What the search of a branch finds: the child to descend into, whose key's place is the place in the
    whole; or the item after that child. *)
Definition routed x its ds its1 its2 ds1 e ds2 (found : bool) : Prop :=
  its = its1 ++ its2 ∧ ds = ds1 ++ e :: ds2 ∧ length its1 = length ds1 ∧ length its2 = length ds2 ∧
  ascending (r_xs e) ∧
  if found then ∃ y its3, its2 = y :: its3 ∧
    parts x (contents its ds) (lead its1 ds1 ++ r_xs e) (Some y) (contents its3 ds2)
  else ∃ tl, (∀ e' : ref, contents its2 (e' :: ds2) = r_xs e' ++ tl) ∧
    ∀ lo o hi, parts x (r_xs e) lo o hi → parts x (contents its ds) (lead its1 ds1 ++ lo) o (hi ++ tl).

Lemma search_branch (dataSearch : list item → item → nat * bool) `{!Searches dataSearch} x its ds :
  length ds = S (length its) → ascending (contents its ds) →
  ∃ its1 its2 ds1 e ds2 found, dataSearch its x = (length ds1, found) ∧
    routed x its ds its1 its2 ds1 e ds2 found.
Proof.
  intros Hl Hs. pose proof (ascending_sublist _ _ (items_sublist its ds Hl) Hs) as Hits.
  destruct (search_parts dataSearch its x Hits) as (its1 & o & its3 & (-> & Hlo & Ho & Hhi) & ->).
  rewrite length_app in Hl.
  assert (∃ ds1 e ds2, ds = ds1 ++ e :: ds2 ∧ length ds1 = length its1) as (ds1 & e & ds2 & -> & Hl1).
  { destruct (lookup_lt_is_Some_2 ds (length its1)) as [e He]; [lia|].
    exists (take (length its1) ds), e, (drop (S (length its1)) ds). rewrite take_drop_middle by done.
    split; [done|]. rewrite length_take. lia. }
  rewrite length_app in Hl. cbn in Hl.
  exists its1, (option_list o ++ its3), ds1, e, ds2, (isSome o). rewrite Hl1. split; [done|].
  rewrite contents_lead in Hs by done. pose proof Hs as (Hslead & Hsrest & Hltlead)%ascending_app.
  pose proof (lead_below x its1 ds1 (eq_sym Hl1) Hslead Hlo) as Hlead.
  unfold routed. rewrite contents_lead by done. do 3 (split; [done || lia|]). split; [lia|].
  destruct o as [y|]; simpl in *.
  - destruct ds2 as [|b ds2]; [cbn in Hl; lia|]. rewrite contents_cons in *.
    apply ascending_app in Hsrest as (He & Hsrest & Hlte). split; [done|]. apply ascending_cons in Hsrest as [Hy _].
    pose proof (Ho y eq_refl) as Eyx. exists y, its3. split; [done|].
    split_and!; [by rewrite <-(assoc_L (++))| |done|].
    + apply Forall_app_2; [done|]. apply Forall_forall. intros z Hz. apply (comp_lt_le _ y); [|lia].
      apply Hlte; [done|set_solver].
    + eapply Forall_impl; [exact Hy|]. cbn. intros z Hz. apply comp_flip. by apply (comp_same x y z).
  - destruct (contents_head its3 e ds2) as (tl & Htl & Htl0); [lia|].
    rewrite Htl in *. apply ascending_app in Hsrest as (He & Hstl & Hlte). split; [done|]. exists tl.
    split; [done|]. intros lo o hi (-> & Hlo' & Ho' & Hhi'). split_and!; [by rewrite <-!(assoc_L (++))| |done|].
    + by apply Forall_app_2.
    + apply Forall_app_2; [done|]. destruct its3 as [|z its3]; [by rewrite Htl0|].
      destruct ds2 as [|b ds2]; [cbn in Hl; lia|].
      specialize (Htl (MkRef 0 0 0 [])). rewrite contents_cons in Htl. cbn in Htl. subst tl.
      apply ascending_cons in Hstl as [Hz _]. apply Forall_cons in Hhi as [Hzx _].
      constructor; [done|]. eapply Forall_impl; [exact Hz|]. cbn. intros w Hw. apply comp_flip.
      apply comp_flip in Hzx. by apply (comp_le_lt _ z); [lia|].
Qed.
End sorted.
