(* ===== verification/BtreeIter.v ===== *)
(** The iterations of btype_btree.go visit the items in order, from where they should and until the body says
    so, whatever the value of [mut]. *)

From stdpp Require Import gmap.
From S2P Require Import Prelude Btree BtreeOwn BtreeRules BtreeDelete BtreeRemove BtreeDescend BtreeInsert.
From S2P Require Import BtreeTree BtreeKeyed BtreeAccess.

(** A body run on a list of items: what it leaves, and whether it would go on. *)
Fixpoint feed {X A} (body : A → X → A * bool) (xs : list X) (a : A) : A * bool :=
  match xs with
  | [] => (a, true)
  | x :: xs => let '(a, go) := body a x in if go then feed body xs a else (a, false)
  end.

Lemma feed_app {X A} (body : A → X → A * bool) xs ys a :
  feed body (xs ++ ys) a = let '(a, go) := feed body xs a in if go then feed body ys a else (a, false).
Proof.
  revert a. induction xs as [|x xs IH]; intros a; [done|]. cbn. destruct (body a x) as [a' [|]]; [|done].
  apply IH.
Qed.

Section iter.
Context {K V : Type} `{F : !Frozen K V}.
Abbreviation node := (node K V).
Abbreviation ref := (@ref K V).
Abbreviation tree := (tree K V).
Abbreviation item := (K * V)%type.
Abbreviation store := (list node).
Implicit Types (σ : store) (d e : ref) (ds Γ : list ref) (t : tree) (x y : item) (its xs ys : list item).

(** Items with the children after them. *)
Definition follow its ds : list item := mjoin (zip_with (λ x xs, x :: xs) its (r_xs <$> ds)).

Lemma contents_follow its e ds : length its = length ds → contents its (e :: ds) = r_xs e ++ follow its ds.
Proof.
  revert e ds. induction its as [|x its IH]; intros e [|e' ds] Hl; try discriminate.
  - by rewrite contents_one, app_nil_r.
  - rewrite contents_cons. cbn in Hl. rewrite IH by lia. done.
Qed.

Lemma follow_cons x its e ds : follow (x :: its) (e :: ds) = x :: r_xs e ++ follow its ds.
Proof. done. Qed.

Lemma follow_snoc its ds x e :
  length its = length ds → follow (its ++ [x]) (ds ++ [e]) = follow its ds ++ x :: r_xs e.
Proof.
  intros Hl. unfold follow. rewrite fmap_app, zip_with_app by (by rewrite length_fmap).
  rewrite join_app. cbn. by rewrite app_nil_r.
Qed.

Lemma contents_split its1 its2 ds1 e ds2 : length its1 = length ds1 → length its2 = length ds2 →
  contents (its1 ++ its2) (ds1 ++ e :: ds2) = lead its1 ds1 ++ r_xs e ++ follow its2 ds2.
Proof. intros. rewrite contents_lead, contents_follow by done. done. Qed.

(** The scan of the counts from the end. *)
Lemma seekAt_back its ds index :
  length ds = S (length its) → (0 ≤ index ≤ zlen (contents its ds))%Z →
  ∃ idx found its1 its2 ds1 e ds2,
    seekAt (reverse (sizes ds)) (length its) index = (length ds2, idx, found) ∧
    its = its1 ++ its2 ∧ ds = ds1 ++ e :: ds2 ∧ length its1 = length ds1 ∧ length its2 = length ds2 ∧
    index = (zlen (follow its2 ds2) + idx)%Z ∧ (0 ≤ idx ≤ zlen (r_xs e))%Z ∧
    (found = true ↔ idx = zlen (r_xs e) ∧ its1 ≠ []).
Proof.
  revert ds index. induction its as [|x its IH] using rev_ind; intros ds index Hl Hi.
  - destruct ds as [|e [|]]; try discriminate. exists index, false, [], [], [], e, [].
    rewrite contents_one in Hi. split_and!; try done; naive_solver.
  - destruct ds as [|e ds _] using rev_ind; [discriminate|].
    rewrite !length_app in *. cbn [length] in *. rewrite !Nat.add_1_r in *. injection Hl as Hl.
    assert (contents (its ++ [x]) (ds ++ [e]) = contents its ds ++ x :: r_xs e) as Hc.
    { unfold contents. rewrite fmap_app. apply (weave_join (r_xs <$> ds) [r_xs e] its x []).
      rewrite length_fmap. lia. }
    rewrite Hc, zlen_app, zlen_cons in Hi.
    unfold sizes. rewrite fmap_app, reverse_app. cbn [fmap list_fmap reverse rev_append app].
    fold (sizes ds). cbn [seekAt]. destruct (index <=? zlen (r_xs e))%Z eqn:E.
    + apply Z.leb_le in E. exists index, (index =? zlen (r_xs e))%Z, (its ++ [x]), [], ds, e, [].
      rewrite app_nil_r. split_and!; try done; try lia.
      { rewrite length_app. cbn. lia. }
      { rewrite Z.eqb_eq. split; [|naive_solver]. intros. split; [done|]. by destruct its. }
    + apply Z.leb_gt in E.
      destruct (IH ds (index - (zlen (r_xs e) + 1))%Z) as
        (idx & found & its1 & its2 & ds1 & e' & ds2 & Hs & -> & -> & Hl1 & Hl2 & Hidx & Hle & Hf); [lia|lia|].
      rewrite Hs. exists idx, found, its1, (its2 ++ [x]), ds1, e', (ds2 ++ [e]).
      rewrite follow_snoc, zlen_app, zlen_cons, !length_app by done. cbn [length]. split_and!; try done; try lia.
      * do 2 f_equal. lia.
      * by rewrite <-(assoc_L (++)).
      * by rewrite <-(assoc_L (++)).
Qed.

Section body.
Context {A : Type} {t : tree} {mut : bool} `{acc : !Access t mut}.
Variable yield : A → item → sto K V (A * bool).
Variable body : A → item → A * bool.
Hypothesis Hyield : ∀ a x, yield a x = mret (body a x).
Implicit Types (a : A).
#[local] Arguments feed : simpl never.

Lemma yield_each_ok xs a σ Q : Q (feed body xs a) σ → runs (yield_each yield xs a) σ Q.
Proof.
  revert a. induction xs as [|x xs IH]; intros a HQ; cbn [yield_each]; [by apply runs_ret|].
  rewrite Hyield. apply runs_bind, runs_ret. unfold feed in HQ. cbn in HQ. fold (feed body) in HQ.
  destruct (body a x) as [a' [|]]; [by apply IH|by apply runs_ret].
Qed.

Lemma yield_at_ok {B} f σ d its1 x its2 ds a (k : A * bool → sto K V B) Q :
  inside f d (its1 ++ x :: its2) ds σ → runs (k (body a x)) σ Q →
  runs (r ← yield_at yield (r_loc d) (length its1) a; k r) σ Q.
Proof.
  intros Hin Hk. apply runs_bind. unfold yield_at. eapply walk_load; [exact Hin|]. intros c.
  apply runs_bind. eapply runs_some; [rewrite mknode_items; by apply list_lookup_middle|].
  rewrite Hyield. by apply runs_ret.
Qed.

(** The visit of a child feeds the body what it should, in the order [ord]. *)
Definition visits (visit : loc → A → sto K V (A * bool)) (ord : list item → list item) (h : nat) : Prop :=
  ∀ f σ e a, at_ f σ e → r_h e = h → minItems ≤ r_len e →
    walks (visit (r_loc e) a) f σ e (feed body (ord (r_xs e)) a).

Lemma visit_one {B} fuel visit h f σ d its ds1 e ds2 a r (k : A * bool → sto K V B) Q :
  inside f d its (ds1 ++ e :: ds2) σ → r_h d = S h → h < fuel → r_h e = h →
  (∀ f' σ' e', same e e' → at_ f' σ' e' → walks (visit (r_loc e') a) f' σ' e' r) →
  (∀ e' σ', same e e' → inside f d its (ds1 ++ e' :: ds2) σ' → runs (k r) σ' Q) →
  runs (r ← visit_child mut fuel t visit (r_loc d) (length ds1) a; k r) σ Q.
Proof.
  intros Hin Hh Hf Hhe Hv Hk. apply runs_bind. unfold visit_child.
  eapply acc_child; [exact Hin|exact Hh|lia|]. intros f' e' σ1 Hsame Hat Hin1 Hback.
  eapply walk_load; [exact Hin1|]. intros c. rewrite Hh. apply runs_bind, runs_child; [done|].
  eapply runs_mono; [by apply (Hv f')|]. intros r' σ2 [-> Hat2]. by apply (Hk e'), Hback.
Qed.

Lemma visit_child_ok {B} fuel visit ord h f σ d its ds1 e ds2 a (k : A * bool → sto K V B) Q :
  inside f d its (ds1 ++ e :: ds2) σ → r_h d = S h → h < fuel → child_ok h e → visits visit ord h →
  (∀ e' σ', same e e' → inside f d its (ds1 ++ e' :: ds2) σ' →
    runs (k (feed body (ord (r_xs e)) a)) σ' Q) →
  runs (r ← visit_child mut fuel t visit (r_loc d) (length ds1) a; k r) σ Q.
Proof.
  intros Hin Hh Hf [Hhe Hme] Hv Hk. eapply visit_one; [exact Hin|exact Hh|done|done| |exact Hk].
  intros f' σ' e' (Hh' & Hk' & Hx') Hat. rewrite <-Hx'. apply Hv; [done|lia|lia].
Qed.

(** The part of a walk that is left at a branch. *)
Definition finishes (m : sto K V (A * bool)) f σ d its ds (r : A * bool) : Prop :=
  runs m σ (λ r' σ', r' = r ∧ ∃ ds', Forall2 same ds ds' ∧ inside f d its ds' σ').

Lemma same_middle ds1 e e' ds2 ds' :
  same e e' → Forall2 same (ds1 ++ e' :: ds2) ds' → Forall2 same (ds1 ++ e :: ds2) ds'.
Proof.
  intros (H1 & H2 & H3) H. apply Forall2_app_inv_l in H as (l1 & l2 & Ha & Hb & ->).
  apply Forall2_cons_inv_l in Hb as (e'' & l3 & (G1 & G2 & G3) & Hb & ->).
  apply Forall2_app; [done|]. constructor; [|done]. repeat split; congruence.
Qed.

Lemma same_all ds : Forall2 same ds ds.
Proof. induction ds; constructor; done. Qed.

Lemma stop_here f σ d its ds (r : A * bool) : inside f d its ds σ → finishes (mret r) f σ d its ds r.
Proof. intros Hin. apply runs_ret. split; [done|]. exists ds. split; [apply same_all|done]. Qed.

Lemma finishes_same m f σ d its ds1 e e' ds2 r :
  same e e' → finishes m f σ d its (ds1 ++ e' :: ds2) r → finishes m f σ d its (ds1 ++ e :: ds2) r.
Proof.
  intros Hs Hm. eapply runs_mono; [exact Hm|]. cbv beta. intros r' σ' (-> & ds' & H & Hin).
  split; [done|]. exists ds'. split; [|done]. by eapply same_middle.
Qed.

Lemma finished m f σ d its ds r :
  finishes m f σ d its ds r → node_of d its ds → walks m f σ d r.
Proof.
  intros Hm Hn. eapply runs_mono; [exact Hm|]. cbv beta. intros r' σ' (-> & ds' & Hs & Hin).
  split; [done|]. eapply acc_close; [exact Hin|]. by eapply same_node.
Qed.

(** ** The loops over a branch *)

Lemma forward_loop_ok fuel visit h f d its2 : visits visit id h → r_h d = S h → h < fuel →
  ∀ σ its1 ds1 e ds2 a, inside f d (its1 ++ its2) (ds1 ++ e :: ds2) σ → length its1 = length ds1 →
  length its2 = length ds2 → Forall (child_ok h) ds2 →
  finishes (forward_loop yield mut fuel t visit (r_loc d) (length its1) (length its2) a)
    f σ d (its1 ++ its2) (ds1 ++ e :: ds2) (feed body (follow its2 ds2) a).
Proof.
  intros Hv Hh Hf. induction its2 as [|x its2 IH]; intros σ its1 ds1 e ds2 a Hin Hl1 Hl2 Hds.
  - destruct ds2; [|discriminate]. cbn [length forward_loop]. by apply stop_here.
  - destruct ds2 as [|e2 ds2]; [discriminate|]. apply Forall_cons in Hds as [He2 Hds].
    cbn [length forward_loop]. eapply yield_at_ok; [exact Hin|].
    rewrite follow_cons. unfold feed. cbn [app]. fold (feed body). cbn.
    destruct (body a x) as [a1 [|]]; [|by apply stop_here]. rewrite feed_app.
    replace (S (length its1)) with (length (ds1 ++ [e])) by (rewrite length_app; cbn; lia).
    replace (ds1 ++ e :: e2 :: ds2) with ((ds1 ++ [e]) ++ e2 :: ds2) in * by by rewrite <-(assoc_L (++)).
    eapply visit_child_ok; [exact Hin|exact Hh|exact Hf|exact He2|exact Hv|]. intros e2' σ1 Hs Hin1.
    unfold id. destruct (feed body (r_xs e2) a1) as [a2 [|]].
    2:{ eapply finishes_same; [exact Hs|]. by apply stop_here. }
    eapply finishes_same; [exact Hs|].
    replace (its1 ++ x :: its2) with ((its1 ++ [x]) ++ its2) in * by by rewrite <-(assoc_L (++)).
    replace (length (ds1 ++ [e])) with (length (its1 ++ [x])) by (rewrite !length_app; cbn; lia).
    apply IH; try done; [rewrite !length_app; cbn; lia|]. cbn in Hl2. lia.
Qed.

Lemma all_loop_ok fuel visit h f d its2 : visits visit id h → r_h d = S h → h < fuel →
  ∀ σ its1 ds1 ds2 a, inside f d (its1 ++ its2) (ds1 ++ ds2) σ → length its1 = length ds1 →
  length ds2 = S (length its2) → Forall (child_ok h) ds2 →
  finishes (all_loop yield mut fuel t visit (r_loc d) (length its1) (length its2) a)
    f σ d (its1 ++ its2) (ds1 ++ ds2) (feed body (contents its2 ds2) a).
Proof.
  intros Hv Hh Hf. induction its2 as [|x its2 IH]; intros σ its1 ds1 ds2 a Hin Hl1 Hl2 Hds;
    (destruct ds2 as [|e ds2]; [discriminate|]); apply Forall_cons in Hds as [He Hds];
    cbn [length all_loop]; rewrite Hl1;
    (eapply visit_child_ok; [exact Hin|exact Hh|exact Hf|exact He|exact Hv|]); intros e' σ1 Hs Hin1;
    (eapply finishes_same; [exact Hs|]); unfold id.
  - destruct ds2; [|discriminate]. rewrite contents_one.
    destruct (feed body (r_xs e) a) as [a' [|]]; by apply stop_here.
  - rewrite contents_cons, feed_app. destruct (feed body (r_xs e) a) as [a1 [|]]; [|by apply stop_here].
    rewrite <-Hl1. eapply yield_at_ok; [exact Hin1|]. unfold feed. cbn. fold (feed body).
    destruct (body a1 x) as [a2 [|]]; [|by apply stop_here].
    replace (its1 ++ x :: its2) with ((its1 ++ [x]) ++ its2) in * by by rewrite <-(assoc_L (++)).
    replace (ds1 ++ e' :: ds2) with ((ds1 ++ [e']) ++ ds2) in * by by rewrite <-(assoc_L (++)).
    replace (S (length its1)) with (length (its1 ++ [x])) by (rewrite !length_app; cbn; lia).
    apply IH; try done; [rewrite !length_app; cbn; lia|]. cbn in Hl2. lia.
Qed.

Lemma backward_loop_ok fuel visit h f d its1 : visits visit reverse h → r_h d = S h → h < fuel →
  ∀ σ its2 ds1 ds2 a, inside f d (its1 ++ its2) (ds1 ++ ds2) σ → length its1 = length ds1 →
  Forall (child_ok h) ds1 →
  finishes (backward_loop yield mut fuel t visit (r_loc d) (length its1) a)
    f σ d (its1 ++ its2) (ds1 ++ ds2) (feed body (reverse (lead its1 ds1)) a).
Proof.
  intros Hv Hh Hf. induction its1 as [|x its1 IH] using rev_ind; intros σ its2 ds1 ds2 a Hin Hl1 Hds.
  - destruct ds1; [|discriminate]. cbn [length backward_loop]. by apply stop_here.
  - destruct ds1 as [|e ds1 _] using rev_ind; [rewrite length_app in Hl1; cbn in Hl1; lia|].
    rewrite !length_app in Hl1. cbn in Hl1. apply Forall_app in Hds as [Hds [He _]%Forall_cons].
    rewrite <-!(assoc_L (++)) in *. cbn [app] in *.
    rewrite length_app, Nat.add_1_r. cbn [backward_loop]. eapply yield_at_ok; [exact Hin|].
    rewrite lead_snoc by lia. rewrite !reverse_app. cbn [reverse rev_append app].
    unfold feed. cbn. fold (feed body). destruct (body a x) as [a1 [|]]; [|by apply stop_here].
    rewrite feed_app. replace (length its1) with (length ds1) by lia.
    eapply visit_child_ok; [exact Hin|exact Hh|exact Hf|exact He|exact Hv|]. intros e' σ1 Hs Hin1.
    eapply finishes_same; [exact Hs|]. destruct (feed body (reverse (r_xs e)) a1) as [a2 [|]]; [|by apply stop_here].
    replace (length ds1) with (length its1) by lia. apply IH; try done. lia.
Qed.

(** ** The walks *)

Lemma nodeAll_ok fuel : ∀ f σ d a, at_ f σ d → r_h d < fuel →
  walks (nodeAll yield mut fuel t (r_loc d) a) f σ d (feed body (r_xs d) a).
Proof.
  induction fuel as [|fuel IH]; intros f σ d a Hat Hf; [lia|]. cbn [nodeAll].
  destruct (acc_open _ _ _ Hat) as (its & ds & Hn & Hin). eapply walk_load; [exact Hin|]. intros c.
  rewrite leaf_mknode, mknode_items, len_mknode. destruct (r_h d) as [|h] eqn:Eh.
  - rewrite (leaf_items _ _ _ Hn Eh). by apply yield_each_ok.
  - destruct (branch_kids _ _ _ _ Hn Eh) as [Hl Hkids]. eapply finished; [|exact Hn].
    replace (r_xs d) with (contents its ds) by (symmetry; apply Hn).
    apply (all_loop_ok fuel _ h f d its) with (its1 := []) (ds1 := []); try done; [|lia].
    intros f' σ' e a' Hat' He _. apply IH; [done|lia].
Qed.

Lemma nodeBackward_ok fuel : ∀ f σ d a, at_ f σ d → r_h d < fuel →
  walks (nodeBackward yield mut fuel t (r_loc d) a) f σ d (feed body (reverse (r_xs d)) a).
Proof.
  induction fuel as [|fuel IH]; intros f σ d a Hat Hf; [lia|]. cbn [nodeBackward].
  destruct (acc_open _ _ _ Hat) as (its & ds & Hn & Hin). eapply walk_load; [exact Hin|]. intros c.
  rewrite leaf_mknode, mknode_items, len_mknode. destruct (r_h d) as [|h] eqn:Eh.
  - rewrite (leaf_items _ _ _ Hn Eh). by apply yield_each_ok.
  - destruct (branch_kids _ _ _ _ Hn Eh) as [Hl Hkids]. eapply finished; [|exact Hn].
    assert (Hv : visits (nodeBackward yield mut fuel t) reverse h).
    { intros f' σ' e a' Hat' He _. apply IH; [done|lia]. }
    destruct ds as [|e ds _] using rev_ind; [discriminate|]. rewrite length_app, Nat.add_1_r in Hl.
    injection Hl as Hl. apply Forall_app in Hkids as [Hkids [He _]%Forall_cons].
    destruct Hn as (_ & _ & _ & ->). rewrite <-(app_nil_r (contents its (ds ++ [e]))), contents_snoc by lia.
    rewrite app_nil_r, reverse_app, feed_app, <-Hl.
    eapply visit_child_ok; [exact Hin|exact Eh|lia|exact He|exact Hv|]. intros e' σ1 Hs Hin1.
    eapply finishes_same; [exact Hs|]. destruct (feed body (reverse (r_xs e)) a) as [a1 [|]]; [|by apply stop_here].
    rewrite Hl. pose proof (backward_loop_ok fuel _ h f d its Hv Eh ltac:(lia) σ1 [] ds [e'] a1) as Hrest.
    rewrite app_nil_r in Hrest. apply Hrest; [done|lia|done].
Qed.

(** A walk that starts somewhere in a branch: after or inside the child [e], whose part is [ys]. *)
Lemma ascend_branch fuel visit h f σ d its1 its2 ds1 e ds2 (found : bool) ys i a :
  node_of d (its1 ++ its2) (ds1 ++ e :: ds2) → inside f d (its1 ++ its2) (ds1 ++ e :: ds2) σ →
  r_h d = S h → h < fuel → i = length ds1 → length its1 = length ds1 → length its2 = length ds2 →
  (if found then ys = []
   else ∀ f' σ' e', same e e' → at_ f' σ' e' → walks (visit (r_loc e') a) f' σ' e' (feed body ys a)) →
  (∀ f σ d a, at_ f σ d → r_h d < fuel → walks (nodeAll yield mut fuel t (r_loc d) a) f σ d (feed body (r_xs d) a)) →
  walks ('(a, go) ← (if found then mret (a, true) else visit_child mut fuel t visit (r_loc d) i a);
    if go : bool then forward_loop yield mut fuel t (nodeAll yield mut fuel t) (r_loc d) i
      (length (its1 ++ its2) - i) a else mret (a, false)) f σ d (feed body (ys ++ follow its2 ds2) a).
Proof.
  intros Hn Hin Hh Hf -> Hl1 Hl2 Hv Hall. eapply finished; [|exact Hn].
  destruct (branch_kids _ _ _ _ Hn Hh) as [_ [_ [He Hds2]%Forall_cons]%Forall_app].
  rewrite length_app, Hl1. replace (length ds1 + length its2 - length ds1) with (length its2) by lia.
  assert (∀ σ1 e' a1, same e e' → inside f d (its1 ++ its2) (ds1 ++ e' :: ds2) σ1 →
    finishes (forward_loop yield mut fuel t (nodeAll yield mut fuel t) (r_loc d) (length ds1) (length its2) a1)
      f σ1 d (its1 ++ its2) (ds1 ++ e :: ds2) (feed body (follow its2 ds2) a1)) as Hrest.
  { intros σ1 e' a1 Hs Hin1. eapply finishes_same; [exact Hs|]. rewrite <-Hl1.
    eapply forward_loop_ok; try done. intros f' σ' e1 a' Hat' He' _. apply Hall; [done|lia]. }
  destruct found.
  - subst ys. apply runs_bind, runs_ret. by apply (Hrest σ e).
  - rewrite feed_app. destruct He as [Hhe _]. eapply visit_one; [exact Hin|exact Hh|done|done|exact Hv|].
    intros e' σ1 Hs Hin1. destruct (feed body ys a) as [a1 [|]]; [by eapply Hrest|].
    eapply finishes_same; [exact Hs|]. by apply stop_here.
Qed.

Lemma descend_branch fuel visit h f σ d its1 its2 ds1 ds2 e (found : bool) ys i j a :
  node_of d (its1 ++ its2) (ds1 ++ ds2) → inside f d (its1 ++ its2) (ds1 ++ ds2) σ →
  r_h d = S h → h < fuel → length its1 = length ds1 → j = length ds1 →
  (if found then ys = []
   else i = length ds1 ∧ head ds2 = Some e ∧
     ∀ f' σ' e', same e e' → at_ f' σ' e' → walks (visit (r_loc e') a) f' σ' e' (feed body ys a)) →
  (∀ f σ d a, at_ f σ d → r_h d < fuel →
    walks (nodeBackward yield mut fuel t (r_loc d) a) f σ d (feed body (reverse (r_xs d)) a)) →
  walks ('(a, go) ← (if found then mret (a, true) else visit_child mut fuel t visit (r_loc d) i a);
    if go : bool then backward_loop yield mut fuel t (nodeBackward yield mut fuel t) (r_loc d) j a
    else mret (a, false)) f σ d (feed body (ys ++ reverse (lead its1 ds1)) a).
Proof.
  intros Hn Hin Hh Hf Hl1 -> Hv Hall. eapply finished; [|exact Hn].
  destruct (branch_kids _ _ _ _ Hn Hh) as [_ Hkids]. pose proof Hkids as [Hds1 _]%Forall_app.
  assert (∀ σ1 ds2' a1, Forall2 same ds2 ds2' → inside f d (its1 ++ its2) (ds1 ++ ds2') σ1 →
    finishes (backward_loop yield mut fuel t (nodeBackward yield mut fuel t) (r_loc d) (length ds1) a1)
      f σ1 d (its1 ++ its2) (ds1 ++ ds2') (feed body (reverse (lead its1 ds1)) a1)) as Hrest.
  { intros σ1 ds2' a1 Hs Hin1. rewrite <-Hl1. eapply backward_loop_ok; try done.
    intros f' σ' e1 a' Hat' He' _. apply Hall; [done|lia]. }
  destruct found.
  - subst ys. apply runs_bind, runs_ret. apply Hrest; [apply same_all|done].
  - destruct Hv as (-> & Hhd & Hv). destruct ds2 as [|e0 ds2]; [done|]. injection Hhd as ->.
    apply Forall_app in Hkids as [_ [[Hhe _] _]%Forall_cons].
    rewrite feed_app. eapply visit_one; [exact Hin|exact Hh|done|done|exact Hv|].
    intros e' σ1 Hs Hin1. eapply finishes_same; [exact Hs|].
    destruct (feed body ys a) as [a1 [|]]; [|by apply stop_here].
    apply Hrest; [|done]. constructor; [done|]. apply same_all.
Qed.

Lemma nodeAscendAt_ok fuel : ∀ f σ d a xs ys, at_ f σ d → r_h d < fuel → r_xs d = xs ++ ys →
  walks (nodeAscendAt yield mut fuel t (r_loc d) (zlen xs) a) f σ d (feed body ys a).
Proof.
  induction fuel as [|fuel IH]; intros f σ d a xs ys Hat Hf Hxs; [lia|]. cbn [nodeAscendAt].
  destruct (acc_open _ _ _ Hat) as (its & ds & Hn & Hin). eapply walk_load; [exact Hin|]. intros c.
  rewrite leaf_mknode, mknode_items, len_mknode. destruct (r_h d) as [|h] eqn:Eh.
  - rewrite (leaf_items _ _ _ Hn Eh), Hxs. unfold zlen. rewrite Nat2Z.id, drop_app_length.
    by apply yield_each_ok.
  - destruct (branch_kids _ _ _ _ Hn Eh) as [Hl Hkids]. apply runs_bind. eapply runs_some; [done|].
    cbn [counts]. destruct (seekAt_ok its ds (zlen xs)) as
      (i & idx & found & its1 & its2 & ds1 & e & ds2 & Hseek & -> & -> & Hl1 & Hl2 & Hl3 & Hidx & Hle & Hfound).
    { done. }
    { pose proof Hn as (_ & _ & _ & Hc). rewrite <-Hc, Hxs, zlen_app. pose proof (zlen_nonneg xs).
      pose proof (zlen_nonneg ys). lia. }
    unfold sizes in Hseek. rewrite Hseek. cbv iota beta.
    pose proof Hn as (_ & _ & _ & Hc). rewrite Hxs, contents_split in Hc by lia.
    pose proof Hkids as [_ [[Hhe _] _]%Forall_cons]%Forall_app.
    set (es1 := take (Z.to_nat idx) (r_xs e)). set (es2 := drop (Z.to_nat idx) (r_xs e)).
    assert (r_xs e = es1 ++ es2) as Hes by (unfold es1, es2; by rewrite take_drop).
    assert (zlen es1 = idx) as Hes1 by (unfold es1, zlen in *; rewrite length_take; lia).
    assert (ys = es2 ++ follow its2 ds2) as ->.
    { rewrite Hes, <-(assoc_L (++) es1), (assoc_L (++) _ es1) in Hc. apply app_inj_1 in Hc as [_ ->]; [done|].
      apply Nat2Z.inj. change (zlen xs = zlen (lead its1 ds1 ++ es1)). rewrite zlen_app. lia. }
    eapply (ascend_branch fuel _ h f σ d its1 its2 ds1 e ds2); try done; try lia; [|by intros; apply nodeAll_ok].
    destruct found.
    + destruct Hfound as [Hfound _]. destruct (Hfound eq_refl) as [Hend _]. unfold es2.
      apply drop_ge. unfold zlen in *. lia.
    + intros f' σ' e' (Hh' & _ & Hx') Hat'. rewrite <-Hes1. apply IH; [done|lia|by rewrite Hx'].
Qed.

Lemma nodeDescendAt_ok fuel : ∀ f σ d a xs ys, at_ f σ d → r_h d < fuel → r_xs d = ys ++ xs →
  walks (nodeDescendAt yield mut fuel t (r_loc d) (zlen xs) a) f σ d (feed body (reverse ys) a).
Proof.
  induction fuel as [|fuel IH]; intros f σ d a xs ys Hat Hf Hxs; [lia|]. cbn [nodeDescendAt].
  destruct (acc_open _ _ _ Hat) as (its & ds & Hn & Hin). eapply walk_load; [exact Hin|]. intros c.
  rewrite leaf_mknode, mknode_items, len_mknode. destruct (r_h d) as [|h] eqn:Eh.
  - rewrite (leaf_items _ _ _ Hn Eh), Hxs. unfold zlen.
    rewrite Nat2Z.id, reverse_app, drop_app_length' by by rewrite length_reverse. by apply yield_each_ok.
  - destruct (branch_kids _ _ _ _ Hn Eh) as [Hl Hkids]. apply runs_bind. eapply runs_some; [done|].
    cbn [counts]. destruct (seekAt_back its ds (zlen xs)) as
      (idx & found & its1 & its2 & ds1 & e & ds2 & Hseek & -> & -> & Hl1 & Hl2 & Hidx & Hle & Hfound).
    { done. }
    { pose proof Hn as (_ & _ & _ & Hc). rewrite <-Hc, Hxs, zlen_app. pose proof (zlen_nonneg xs).
      pose proof (zlen_nonneg ys). lia. }
    unfold sizes in Hseek. rewrite Hseek. cbv iota beta zeta.
    pose proof Hn as (_ & _ & _ & Hc). rewrite Hxs, contents_split in Hc by lia.
    pose proof Hkids as [_ [[Hhe _] _]%Forall_cons]%Forall_app.
    set (n := length (r_xs e) - Z.to_nat idx).
    set (es1 := take n (r_xs e)). set (es2 := drop n (r_xs e)).
    assert (r_xs e = es1 ++ es2) as Hes by (unfold es1, es2; by rewrite take_drop).
    assert (zlen es2 = idx) as Hes2 by (unfold es2, n, zlen in *; rewrite length_drop; lia).
    assert (ys = lead its1 ds1 ++ es1) as ->.
    { rewrite Hes, <-(assoc_L (++) es1), (assoc_L (++) _ es1) in Hc. apply app_inj_2 in Hc as [-> _]; [done|].
      apply Nat2Z.inj. change (zlen xs = zlen (es2 ++ follow its2 ds2)). rewrite zlen_app. lia. }
    rewrite reverse_app. replace (length (its1 ++ its2) - length ds2) with (length ds1)
      by (rewrite length_app; lia).
    eapply (descend_branch fuel _ h f σ d its1 its2 ds1 (e :: ds2) e); try done; try lia; [|by intros; apply nodeBackward_ok].
    destruct found.
    + destruct Hfound as [Hfound _]. destruct (Hfound eq_refl) as [Hend _].
      assert (n = 0) as En by (unfold n, zlen in *; lia). unfold es1. by rewrite En.
    + split; [done|]. split; [done|]. intros f' σ' e' (Hh' & _ & Hx') Hat'. rewrite <-Hes2.
      apply IH; [done|lia|by rewrite Hx'].
Qed.
End body.
End iter.
