(* ===== verification/BtreeFind.v ===== *)
(** Reading the tree of btype_btree.go by key, and its iterations from the root: what they find and visit is
    what the sorted list of the items says. *)

From stdpp Require Import gmap.
From S2P Require Import Prelude Btree BtreeOwn BtreeRules BtreeDelete BtreeRemove BtreeDescend BtreeInsert.
From S2P Require Import BtreeTree BtreeAccess BtreeKeyed BtreeSorted BtreeIter.

(** What the body has not seen when it stops. *)
Fixpoint left_over {X A} (body : A → X → A * bool) (xs : list X) (a : A) : list X :=
  match xs with
  | [] => []
  | x :: xs => let '(a, go) := body a x in if go then left_over body xs a else xs
  end.

Section find.
Context {K V : Type} `{F : !Frozen K V}.
Abbreviation node := (node K V).
Abbreviation ref := (@ref K V).
Abbreviation tree := (tree K V).
Abbreviation item := (K * V)%type.
Abbreviation store := (list node).
Implicit Types (σ : store) (d e : ref) (ds Γ : list ref) (t : tree) (x y : item) (its xs ys lo hi : list item).
Context (cmp : K → V → K → V → Z) `{!Ordering cmp}.
Context (dataSearch : list item → item → nat * bool) `{!Searches cmp dataSearch}.

Section walks.
Context {t : tree} {mut : bool} `{acc : !Access t mut}.

(** At the node of a walk, the search says where the key is. *)
Lemma at_leaf d its ds x lo o hi :
  node_of d its ds → r_h d = 0 → ascending cmp (r_xs d) → parts cmp x (r_xs d) lo o hi →
  dataSearch its x = (length lo, isSome o).
Proof.
  intros Hn Eh Hs Hp. rewrite (leaf_items _ _ _ Hn Eh).
  destruct (search_parts cmp dataSearch _ x Hs) as (lo' & o' & hi' & Hp' & ->).
  by destruct (parts_unique _ _ _ _ _ _ _ _ _ Hp Hp') as (-> & -> & ->).
Qed.

(** At a branch: the child to go into, and where the key is in it; or the item after it. *)
Definition turns x its ds its1 its2 ds1 e ds2 lo o hi : Prop :=
  its = its1 ++ its2 ∧ ds = ds1 ++ e :: ds2 ∧ length its1 = length ds1 ∧ length its2 = length ds2 ∧
  dataSearch its x = (length ds1, true) ∧ (∃ y its3, its2 = y :: its3 ∧ o = Some y ∧
    lo = lead its1 ds1 ++ r_xs e ∧ hi = contents its3 ds2 ∧ follow its2 ds2 = y :: hi) ∨
  its = its1 ++ its2 ∧ ds = ds1 ++ e :: ds2 ∧ length its1 = length ds1 ∧ length its2 = length ds2 ∧
  dataSearch its x = (length ds1, false) ∧ ascending cmp (r_xs e) ∧ (∃ lo1 hi1,
    parts cmp x (r_xs e) lo1 o hi1 ∧ lo = lead its1 ds1 ++ lo1 ∧ hi = hi1 ++ follow its2 ds2).

Lemma at_branch d its ds h x lo o hi :
  node_of d its ds → r_h d = S h → ascending cmp (r_xs d) → parts cmp x (r_xs d) lo o hi →
  ∃ its1 its2 ds1 e ds2, turns x its ds its1 its2 ds1 e ds2 lo o hi.
Proof.
  intros Hn Eh Hs Hp. destruct (branch_kids _ _ _ _ Hn Eh) as [Hl _].
  destruct Hn as (_ & _ & _ & Hc). rewrite Hc in Hs, Hp.
  destruct (search_branch cmp dataSearch x its ds Hl Hs) as
    (its1 & its2 & ds1 & e & ds2 & found & Hsearch & -> & -> & Hl1 & Hl2 & He & Hroute).
  exists its1, its2, ds1, e, ds2. destruct found.
  - left. destruct Hroute as (y & its3 & -> & Hp'). destruct ds2 as [|b ds2]; [discriminate|].
    destruct (parts_unique _ _ _ _ _ _ _ _ _ Hp Hp') as (-> & -> & ->). split_and!; try done.
    exists y, its3. split_and!; try done. rewrite follow_cons. cbn in Hl2. rewrite contents_follow by lia. done.
  - right. destruct Hroute as (tl & Htl & Hroute). split_and!; try done.
    assert (tl = follow its2 ds2) as ->.
    { specialize (Htl (MkRef 0 0 0 [])). by rewrite contents_follow in Htl by done. }
    destruct (locate_parts cmp x (r_xs e) He) as (lo1 & o1 & hi1 & _ & Hp1).
    destruct (parts_unique _ _ _ _ _ _ _ _ _ Hp (Hroute _ _ _ Hp1)) as (-> & -> & ->).
    by exists lo1, hi1.
Qed.

Lemma get_walk fuel x : ∀ f σ d lo o hi, at_ f σ d → r_h d < fuel →
  ascending cmp (r_xs d) → parts cmp x (r_xs d) lo o hi →
  walks (get_loop dataSearch fuel t (r_loc d) x mut) f σ d (snd <$> o).
Proof.
  induction fuel as [|fuel IH]; intros f σ d lo o hi Hat Hf Hs Hp; [lia|]. cbn [get_loop].
  destruct (acc_open _ _ _ Hat) as (its & ds & Hn & Hin). eapply walk_load; [exact Hin|]. intros c.
  unfold search. rewrite leaf_mknode, mknode_items. destruct (r_h d) as [|h] eqn:Eh.
  - rewrite (at_leaf _ _ _ _ _ _ _ Hn Eh Hs Hp). destruct Hp as (Hx & _).
    rewrite (leaf_items _ _ _ Hn Eh), Hx. destruct o as [y|]; cbn [isSome]; [|by apply runs_ret].
    apply runs_bind. eapply runs_some; [by apply list_lookup_middle|]. by apply runs_ret.
  - destruct (at_branch _ _ _ _ _ _ _ _ Hn Eh Hs Hp) as (its1 & its2 & ds1 & e & ds2 &
      [(-> & -> & Hl1 & Hl2 & -> & y & its3 & -> & -> & _)|
       (-> & -> & Hl1 & Hl2 & -> & He & lo1 & hi1 & Hp1 & _)]).
    + apply runs_bind. eapply runs_some; [by apply list_lookup_middle|]. apply runs_ret.
      split; [done|]. by eapply acc_close.
    + eapply (walk_down (λ _, length ds1)); [done|exact Hin|exact Hn|lia|].
      intros f' e' σ1 (_ & _ & Hx') Hh' _ Hat'. rewrite <-Hx' in He, Hp1.
      eapply IH; [exact Hat'|lia|exact He|exact Hp1].
Qed.

Section body.
Context {A : Type} (yield : A → item → sto K V (A * bool)) (body : A → item → A * bool).
Hypothesis Hyield : ∀ a x, yield a x = mret (body a x).

Lemma nodeAscend_ok fuel x : ∀ f σ d a lo o hi, at_ f σ d → r_h d < fuel →
  ascending cmp (r_xs d) → parts cmp x (r_xs d) lo o hi →
  walks (nodeAscend dataSearch yield mut fuel t (r_loc d) x a) f σ d (feed body (option_list o ++ hi) a).
Proof.
  induction fuel as [|fuel IH]; intros f σ d a lo o hi Hat Hf Hs Hp; [lia|]. cbn [nodeAscend].
  destruct (acc_open _ _ _ Hat) as (its & ds & Hn & Hin). eapply walk_load; [exact Hin|]. intros c.
  unfold search. rewrite leaf_mknode, mknode_items, len_mknode. destruct (r_h d) as [|h] eqn:Eh.
  - rewrite (at_leaf _ _ _ _ _ _ _ Hn Eh Hs Hp). destruct Hp as (Hx & _).
    rewrite (leaf_items _ _ _ Hn Eh), Hx, drop_app_length. by eapply yield_each_ok.
  - destruct (at_branch _ _ _ _ _ _ _ _ Hn Eh Hs Hp) as (its1 & its2 & ds1 & e & ds2 &
      [(-> & -> & Hl1 & Hl2 & -> & y & its3 & -> & -> & -> & -> & Hfollow)|
       (-> & -> & Hl1 & Hl2 & -> & He & lo1 & hi1 & Hp1 & -> & ->)]).
    + simpl option_list. rewrite <-app_comm_cons, app_nil_l, <-Hfollow.
      eapply (ascend_branch yield body Hyield fuel (λ c, nodeAscend dataSearch yield mut fuel t c x) h f σ d its1 (y :: its3) ds1 e ds2 true []); try done; try lia.
      by intros; apply nodeAll_ok.
    + rewrite (assoc_L (++)).
      eapply (ascend_branch yield body Hyield fuel _ h f σ d its1 its2 ds1 e ds2 false); try done; try lia;
        [|by intros; apply nodeAll_ok].
      intros f' σ' e' (Hh' & _ & Hx') Hat'. rewrite <-Hx' in He, Hp1. eapply IH; [exact Hat'| |done|exact Hp1].
      destruct (branch_kids _ _ _ _ Hn Eh) as [_ [_ [[Hhe _] _]%Forall_cons]%Forall_app]. lia.
Qed.

Lemma nodeDescend_ok fuel x : ∀ f σ d a lo o hi, at_ f σ d → r_h d < fuel →
  ascending cmp (r_xs d) → parts cmp x (r_xs d) lo o hi →
  walks (nodeDescend dataSearch yield mut fuel t (r_loc d) x a) f σ d
    (feed body (reverse (lo ++ option_list o)) a).
Proof.
  induction fuel as [|fuel IH]; intros f σ d a lo o hi Hat Hf Hs Hp; [lia|]. cbn [nodeDescend].
  destruct (acc_open _ _ _ Hat) as (its & ds & Hn & Hin). eapply walk_load; [exact Hin|]. intros c.
  unfold search. rewrite leaf_mknode, mknode_items. destruct (r_h d) as [|h] eqn:Eh.
  - rewrite (at_leaf _ _ _ _ _ _ _ Hn Eh Hs Hp). destruct Hp as (Hx & _).
    rewrite (leaf_items _ _ _ Hn Eh), Hx, (assoc_L (++)), take_app_length'; [by eapply yield_each_ok|].
    rewrite length_app. destruct o; simpl; lia.
  - destruct (at_branch _ _ _ _ _ _ _ _ Hn Eh Hs Hp) as (its1 & its2 & ds1 & e & ds2 &
      [(-> & -> & Hl1 & Hl2 & -> & y & its3 & -> & -> & -> & -> & Hfollow)|
       (-> & -> & Hl1 & Hl2 & -> & He & lo1 & hi1 & Hp1 & -> & ->)]).
    + simpl option_list. rewrite <-(assoc_L (++)), <-lead_snoc by lia.
      rewrite (cons_middle y), (cons_middle e), !(assoc_L (++)) in Hn, Hin.
      eapply (descend_branch yield body Hyield fuel (λ c, nodeDescend dataSearch yield mut fuel t c x) h f σ d (its1 ++ [y]) its3 (ds1 ++ [e]) ds2 e true []);
        try done; try lia; rewrite ?length_app; try (cbn; lia). by intros; apply nodeBackward_ok.
    + rewrite <-(assoc_L (++)), reverse_app.
      eapply (descend_branch yield body Hyield fuel _ h f σ d its1 its2 ds1 (e :: ds2) e false); try done; try lia;
        [|by intros; apply nodeBackward_ok].
      split; [done|]. split; [done|]. intros f' σ' e' (Hh' & _ & Hx') Hat'. rewrite <-Hx' in He, Hp1.
      eapply IH; [exact Hat'| |done|exact Hp1].
      destruct (branch_kids _ _ _ _ Hn Eh) as [_ [_ [[Hhe _] _]%Forall_cons]%Forall_app]. lia.
Qed.
End body.
End walks.

(** ** Without making anything private *)

Lemma contains_ok fuel x σ : ∀ d lo o hi, shows σ d → r_h d < fuel →
  ascending cmp (r_xs d) → parts cmp x (r_xs d) lo o hi →
  runs (contains_loop dataSearch fuel (r_loc d) x) σ (λ b σ', b = isSome o ∧ σ' = σ).
Proof.
  induction fuel as [|fuel IH]; intros d lo o hi Hd Hf Hs Hp; [lia|]. cbn [contains_loop].
  destruct (shows_node _ _ Hd) as (its & c & ds & Hl & Hn & Hds). apply runs_bind.
  eapply runs_load; [exact Hl|]. unfold search. rewrite leaf_mknode, mknode_items.
  destruct (r_h d) as [|h] eqn:Eh.
  - rewrite (at_leaf _ _ _ _ _ _ _ Hn Eh Hs Hp). by destruct o; apply runs_ret.
  - destruct (at_branch _ _ _ _ _ _ _ _ Hn Eh Hs Hp) as (its1 & its2 & ds1 & e & ds2 &
      [(-> & -> & Hl1 & Hl2 & -> & y & its3 & -> & -> & _)|
       (-> & -> & Hl1 & Hl2 & -> & He & lo1 & hi1 & Hp1 & _)]); [by apply runs_ret|].
    destruct (branch_kids _ _ _ _ Hn Eh) as [_ [_ [[Hhe _] _]%Forall_cons]%Forall_app].
    apply Forall_app in Hds as [_ [Hde _]%Forall_cons].
    apply runs_bind, runs_child; [done|]. eapply IH; [exact Hde|lia|exact He|exact Hp1].
Qed.

Lemma zlen_lead its ds : length its = length ds →
  zlen (lead its ds) = (Z.of_nat (length its) + foldr Z.add 0 (sizes ds))%Z.
Proof.
  revert ds. induction its as [|x its IH]; intros [|e ds] Hl; try discriminate; [done|].
  rewrite lead_cons, zlen_app, zlen_cons, IH by (cbn in Hl; lia).
  change (sizes (e :: ds)) with (zlen (r_xs e) :: sizes ds). cbn [foldr length]. lia.
Qed.

Lemma indexOf_ok fuel x σ : ∀ d lo o hi index, shows σ d → r_h d < fuel →
  ascending cmp (r_xs d) → parts cmp x (r_xs d) lo o hi →
  runs (indexOf_loop dataSearch fuel (r_loc d) x index) σ
    (λ r σ', r = ((index + zlen lo)%Z, isSome o) ∧ σ' = σ).
Proof.
  induction fuel as [|fuel IH]; intros d lo o hi index Hd Hf Hs Hp; [lia|]. cbn [indexOf_loop].
  destruct (shows_node _ _ Hd) as (its & c & ds & Hl & Hn & Hds). apply runs_bind.
  eapply runs_load; [exact Hl|]. unfold search. rewrite leaf_mknode, mknode_items.
  destruct (r_h d) as [|h] eqn:Eh.
  - rewrite (at_leaf _ _ _ _ _ _ _ Hn Eh Hs Hp). by apply runs_ret.
  - destruct (at_branch _ _ _ _ _ _ _ _ Hn Eh Hs Hp) as (its1 & its2 & ds1 & e & ds2 &
      [(-> & -> & Hl1 & Hl2 & -> & y & its3 & -> & -> & -> & _)|
       (-> & -> & Hl1 & Hl2 & -> & He & lo1 & hi1 & Hp1 & -> & _)]);
      (apply runs_bind; eapply runs_some; [done|]); cbn [counts];
      rewrite fmap_app, take_app_length' by (by rewrite length_fmap); fold (sizes ds1);
      rewrite zlen_app, zlen_lead by done.
    + apply runs_bind. eapply runs_some.
      { rewrite lookup_app_r, length_sizes, Nat.sub_diag by (by rewrite length_sizes). done. }
      apply runs_ret. split; [|done]. f_equal. rewrite Hl1. lia.
    + destruct (branch_kids _ _ _ _ Hn Eh) as [_ [_ [[Hhe _] _]%Forall_cons]%Forall_app].
      apply Forall_app in Hds as [_ [Hde _]%Forall_cons].
      apply runs_bind, runs_child; [done|]. eapply runs_mono; [eapply IH; [exact Hde|lia|exact He|exact Hp1]|].
      intros r σ' [-> ->]. split; [|done]. f_equal. rewrite Hl1. lia.
Qed.

(** ** From the root *)

Lemma Contains_ok σ t xs x lo o hi :
  reads σ t xs → ascending cmp xs → parts cmp x xs lo o hi →
  runs (Contains dataSearch x t) σ (λ b σ', b = isSome o ∧ σ' = σ).
Proof.
  intros Ht Hs Hp. pose proof Ht as [Hn _]. unfold Contains. rewrite Hn. destruct (zlen xs =? 0)%Z eqn:E.
  - apply Z.eqb_eq, zlen_nil_iff in E. subst. apply runs_ret. apply parts_locate in Hp. by simplify_eq/=.
  - assert (xs ≠ []) as Hne by (intros ->; done).
    destruct (reads_nonempty _ _ _ Ht Hne) as (d & -> & <- & Hk & Hd & Hh).
    apply runs_bind. eapply runs_some; [done|]. by eapply contains_ok.
Qed.

Lemma IndexOf_ok σ t xs x lo o hi :
  reads σ t xs → ascending cmp xs → parts cmp x xs lo o hi →
  runs (IndexOf dataSearch x t) σ (λ r σ', r = (zlen lo, isSome o) ∧ σ' = σ).
Proof.
  intros Ht Hs Hp. pose proof Ht as [Hn _]. unfold IndexOf. rewrite Hn. destruct (zlen xs =? 0)%Z eqn:E.
  - apply Z.eqb_eq, zlen_nil_iff in E. subst. apply runs_ret. apply parts_locate in Hp. by simplify_eq/=.
  - assert (xs ≠ []) as Hne by (intros ->; done).
    destruct (reads_nonempty _ _ _ Ht Hne) as (d & -> & <- & Hk & Hd & Hh).
    apply runs_bind. eapply runs_some; [done|]. eapply runs_mono; [by eapply indexOf_ok|].
    intros r σ' [-> ->]. done.
Qed.

Lemma get0_ok mut σ t xs R x lo o hi :
  rooted mut σ t xs R → ascending cmp xs → parts cmp x xs lo o hi →
  runs (get0 dataSearch x mut t) σ (λ '(v, t') σ', v = snd <$> o ∧ R t' σ').
Proof.
  intros Hroot Hs Hp. unfold get0. pose proof Hroot as (-> & Hnil & _).
  destruct (zlen xs =? 0)%Z eqn:E.
  - apply Z.eqb_eq, zlen_nil_iff in E. subst. apply runs_ret. apply parts_locate in Hp. simplify_eq/=. auto.
  - eapply (rooted_walk _ _ _ _ _ (λ t r, get_loop dataSearch (depth t) t r x mut) (λ v t, mret (v, t)));
      [exact Hroot|by intros ->| |].
    + intros t' acc f d σ' Hat Hx Hk Hh _ _. rewrite <-Hx in Hs, Hp. by eapply get_walk.
    + intros t' σ' HR. by apply runs_ret.
Qed.

Section iterations.
Context {A : Type} (yield : A → item → sto K V (A * bool)) (body : A → item → A * bool).
Hypothesis Hyield : ∀ a x, yield a x = mret (body a x).
Context (mut : bool) (σ : store) (t : tree) (xs : list item) (R : tree → store → Prop).
Hypothesis Hroot : rooted mut σ t xs R.
Implicit Types (a : A).

(** What an iteration is to do: run the body on [ys]. *)
Definition iterates (m : A → sto K V (A * tree)) ys : Prop :=
  ∀ a, runs (m a) σ (λ '(a', t') σ', a' = (feed body ys a).1 ∧ R t' σ').

Lemma iterating_ok walk ys : (xs = [] → ys = []) →
  (∀ t' (acc : Access t' mut) f d σ' a, at_ f σ' d → r_xs d = xs → r_h d < depth t' → tcount t' = tcount t →
    walks (walk t' (r_loc d) a) f σ' d (feed body ys a)) →
  iterates (iterating mut walk t) ys.
Proof.
  intros Hys Hwalk a. unfold iterating. pose proof Hroot as (Hn & Hnil & _). rewrite Hn.
  destruct (0 <? zlen xs)%Z eqn:E.
  - apply Z.ltb_lt in E. eapply runs_mono.
    { eapply (rooted_walk _ _ _ _ _ (λ t r, walk t r a) (λ r t, let '(a, _) := r in mret (a, t)) (feed body ys a)
        (λ '(a', t') σ', a' = (feed body ys a).1 ∧ R t' σ')); [exact Hroot|by intros ->| |].
      - intros t' acc f d σ' Hat Hx Hk Hh Ht _. by apply (Hwalk t' acc f d).
      - intros t' σ' HR. destruct (feed body ys a) as [a' go]. by apply runs_ret. }
    by intros [a' t'].
  - apply Z.ltb_ge in E. assert (xs = []) as Hx by (apply zlen_nil_iff; pose proof (zlen_nonneg xs); lia).
    rewrite (Hys Hx). apply runs_ret. auto.
Qed.

Lemma all0_ok : iterates (all0 yield mut t) xs.
Proof.
  apply iterating_ok; [done|]. intros t' acc f d σ' a Hat Hx Hh _. rewrite <-Hx. by eapply nodeAll_ok.
Qed.

Lemma backward0_ok : iterates (backward0 yield mut t) (reverse xs).
Proof.
  apply iterating_ok; [by intros ->|]. intros t' acc f d σ' a Hat Hx Hh _. rewrite <-Hx.
  by eapply nodeBackward_ok.
Qed.

Lemma ascendAt0_ok i : iterates (ascendAt0 yield mut i t) (drop (Z.to_nat i) xs).
Proof.
  unfold ascendAt0. pose proof Hroot as (Hn & Hnil & _). intros a.
  destruct (i <=? 0)%Z eqn:E; [apply Z.leb_le in E|apply Z.leb_gt in E].
  { replace (Z.to_nat i) with 0 by lia. apply all0_ok. }
  rewrite Hn. destruct (zlen xs <=? i)%Z eqn:E1; [apply Z.leb_le in E1|apply Z.leb_gt in E1].
  - rewrite drop_ge by (unfold zlen in *; lia). apply runs_ret. done.
  - apply iterating_ok; [by intros ->; apply drop_nil|]. intros t' acc f d σ' a' Hat Hx Hh _.
    replace i with (zlen (take (Z.to_nat i) xs)) at 1 by (unfold zlen in *; rewrite length_take; lia).
    eapply nodeAscendAt_ok; [done|exact Hat|done|]. by rewrite take_drop.
Qed.

Lemma descendAt0_ok i : iterates (descendAt0 yield mut i t) (reverse (take (Z.to_nat (i + 1)) xs)).
Proof.
  unfold descendAt0. pose proof Hroot as (Hn & HR & _). intros a. rewrite Hn.
  destruct (zlen xs - 1 <=? i)%Z eqn:E; [apply Z.leb_le in E|apply Z.leb_gt in E].
  { rewrite take_ge by (unfold zlen in *; lia). apply backward0_ok. }
  destruct (i <? 0)%Z eqn:E1; [apply Z.ltb_lt in E1|apply Z.ltb_ge in E1].
  - replace (Z.to_nat (i + 1)) with 0 by lia. by apply runs_ret.
  - apply iterating_ok; [intros ->; by rewrite take_nil|]. intros t' acc f d σ' a' Hat Hx Hh Ht.
    rewrite Ht, Hn. replace (zlen xs - i - 1)%Z with (zlen (drop (Z.to_nat (i + 1)) xs))
      by (unfold zlen in *; rewrite length_drop; lia).
    eapply nodeDescendAt_ok; [done|exact Hat|done|]. by rewrite take_drop.
Qed.

Lemma ascend0_ok x lo o hi : ascending cmp xs → parts cmp x xs lo o hi →
  iterates (ascend0 dataSearch yield mut x t) (option_list o ++ hi).
Proof.
  intros Hs Hp. apply iterating_ok.
  - intros Hx. destruct Hp as (Hp & _). rewrite Hx in Hp. by apply eq_sym, app_nil in Hp as [_ ->].
  - intros t' acc f d σ' a Hat Hx Hh _. rewrite <-Hx in Hs, Hp. by eapply nodeAscend_ok.
Qed.

Lemma descend0_ok x lo o hi : ascending cmp xs → parts cmp x xs lo o hi →
  iterates (descend0 dataSearch yield mut x t) (reverse (lo ++ option_list o)).
Proof.
  intros Hs Hp. apply iterating_ok.
  - intros Hx. destruct Hp as (Hp & _). rewrite Hx in Hp. apply eq_sym, app_nil in Hp as [-> Hp].
    by apply app_nil in Hp as [-> _].
  - intros t' acc f d σ' a Hat Hx Hh _. rewrite <-Hx in Hs, Hp. by eapply nodeDescend_ok.
Qed.
End iterations.

(** ** Seeking *)

Section seeks.
Context (mut : bool) (σ : store) (t : tree) (xs : list item) (R : tree → store → Prop).
Hypothesis Hroot : rooted mut σ t xs R.
Context (x : item) (lo hi : list item) (o : option item).
Hypothesis Hs : ascending cmp xs.
Hypothesis Hp : parts cmp x xs lo o hi.

Lemma seek0_ok : runs (seek0 dataSearch x mut t) σ (λ '(r, t') σ', r = head (option_list o ++ hi) ∧ R t' σ').
Proof.
  unfold seek0. pose proof Hroot as (Hn & HR & _). rewrite Hn. destruct (0 <? zlen xs)%Z eqn:E.
  - eapply runs_mono; [eapply (ascend0_ok first_body (λ _ y, (Some y, false))); [done|exact Hroot|exact Hs|exact Hp]|].
    intros [r t'] σ' [-> ?]. by destruct (option_list o ++ hi).
  - apply Z.ltb_ge in E. assert (xs = []) as Hx by (apply zlen_nil_iff; pose proof (zlen_nonneg xs); lia).
    apply runs_ret. split; [|done]. destruct Hp as (Hp' & _). rewrite Hx in Hp'.
    by apply eq_sym, app_nil in Hp' as [_ ->].
Qed.

Definition other (a : option item) (y : item) : option item * bool :=
  if (comp cmp x y =? 0)%Z then (a, true) else (Some y, false).

Lemma other_body_eq : dataCompare t = Some cmp → ∀ a y, other_body t x a y = mret (other a y).
Proof.
  intros Hc a y. unfold other_body, eq, other, comp. rewrite Hc. by destruct (_ =? _)%Z.
Qed.

(** Past the item with the key, nothing has it. *)
Lemma other_first ys : Forall (λ y, comp cmp y x ≠ 0%Z) ys →
  (feed other (option_list o ++ ys) None).1 = head ys.
Proof.
  intros Hys. rewrite feed_app. assert (feed other (option_list o) None = (None, true)) as ->.
  { destruct Hp as (_ & _ & Ho & _). destruct o as [y|]; [|done]. simpl. unfold other.
    rewrite (proj2 (Z.eqb_eq _ _)); [done|]. by apply comp_eq, Ho. }
  destruct Hys as [|y ys Hy _]; [done|]. simpl. unfold other at 1.
  rewrite (proj2 (Z.eqb_neq _ _)); [done|]. by intros ?%comp_eq.
Qed.

Lemma seekNext0_ok : dataCompare t = Some cmp →
  runs (seekNext0 dataSearch x mut t) σ (λ '(r, t') σ', r = head hi ∧ R t' σ').
Proof.
  intros Hc. unfold seekNext0.
  eapply runs_mono; [eapply (ascend0_ok _ other); [by apply other_body_eq|exact Hroot|exact Hs|exact Hp]|].
  intros [r t'] σ' [-> ?]. split; [|done]. apply other_first. destruct Hp as (_ & _ & _ & Hhi).
  eapply Forall_impl; [exact Hhi|]. cbn. lia.
Qed.

Lemma seekPrev0_ok : dataCompare t = Some cmp →
  runs (seekPrev0 dataSearch x mut t) σ (λ '(r, t') σ', r = last lo ∧ R t' σ').
Proof.
  intros Hc. unfold seekPrev0.
  eapply runs_mono; [eapply (descend0_ok _ other); [by apply other_body_eq|exact Hroot|exact Hs|exact Hp]|].
  intros [r t'] σ' [-> ?]. split; [|done].
  rewrite reverse_app. replace (reverse (option_list o)) with (option_list o) by by destruct o.
  rewrite other_first, head_reverse; [done|]. destruct Hp as (_ & Hlo & _).
  apply Forall_reverse. eapply Forall_impl; [exact Hlo|]. cbn. lia.
Qed.
End seeks.

(** ** Draining *)

Lemma drain_loop_ok {A} (body : A → item → A * bool) yield pop (ord : list item → list item) c Γ :
  (∀ a x, yield a x = mret (body a x)) →
  (∀ σ t xs, holds c σ t (ord xs) Γ → runs (pop t) σ (λ '(o, t') σ',
    o = head xs ∧ holds c σ' t' (ord (tail xs)) Γ)) →
  ∀ fuel σ t xs (a : A), length xs < fuel → holds c σ t (ord xs) Γ →
  runs (drain_loop yield pop fuel t a) σ (λ '(a', t') σ',
    a' = (feed body xs a).1 ∧ holds c σ' t' (ord (left_over body xs a)) Γ).
Proof.
  intros Hy Hpop. induction fuel as [|fuel IH]; intros σ t xs a Hf Ht; [lia|]. cbn [drain_loop].
  apply runs_bind. eapply runs_mono; [by apply Hpop|]. intros [x t'] σ' [-> Ht'].
  destruct xs as [|x xs]; cbn [head tail feed left_over] in *; [by apply runs_ret|].
  rewrite Hy. apply runs_bind, runs_ret. destruct (body a x) as [a' [|]]; [|by apply runs_ret].
  apply IH; [cbn in Hf; lia|done].
Qed.

Lemma Drain_ok {A} (body : A → item → A * bool) yield c σ t xs Γ (a : A) :
  (∀ a x, yield a x = mret (body a x)) → holds c σ t xs Γ →
  runs (Drain yield t a) σ (λ '(a', t') σ',
    a' = (feed body xs a).1 ∧ holds c σ' t' (left_over body xs a) Γ).
Proof.
  intros Hy Ht. unfold Drain. eapply (drain_loop_ok body _ _ id); [done| |..|exact Ht].
  - intros σ1 t1 ys H1. eapply runs_mono; [by eapply PopFront_ok|]. by intros [o t'] σ' (-> & ? & _).
  - destruct Ht as [Hn _]. unfold depth. rewrite Hn. unfold zlen. lia.
Qed.

Lemma DrainBackward_ok {A} (body : A → item → A * bool) yield c σ t xs Γ (a : A) :
  (∀ a x, yield a x = mret (body a x)) → holds c σ t xs Γ →
  runs (DrainBackward yield t a) σ (λ '(a', t') σ',
    a' = (feed body (reverse xs) a).1 ∧ holds c σ' t' (reverse (left_over body (reverse xs) a)) Γ).
Proof.
  intros Hy Ht. unfold DrainBackward. eapply (drain_loop_ok body _ _ reverse); [done| |..].
  - intros σ1 t1 ys H1. destruct ys as [|y ys].
    + unfold PopBack. destruct H1 as (Hn & H1). rewrite Hn. by apply runs_ret.
    + rewrite reverse_cons in H1. eapply runs_mono; [by eapply PopBack_ok|]. by intros [o t'] σ' (-> & ? & _).
  - destruct Ht as [Hn _]. unfold depth. rewrite Hn, length_reverse. unfold zlen. lia.
  - by rewrite reverse_involutive.
Qed.
End find.
