(* ===== verification/BtreeEdit.v ===== *)
(** Replacing an item of the tree of btype_btree.go where it is, by position or by key, and deleting by key,
    which does what deleting at the key's position does. *)

From stdpp Require Import gmap.
From S2P Require Import Prelude Btree BtreeOwn BtreeRules BtreeDelete BtreeRemove BtreeDescend BtreeInsert.
From S2P Require Import BtreeTree BtreeAccess BtreeInsertAt BtreeKeyed BtreeSorted BtreeIter BtreeFind.

Section edit.
Context {K V : Type} `{F : !Frozen K V}.
Abbreviation node := (node K V).
Abbreviation ref := (@ref K V).
Abbreviation tree := (tree K V).
Abbreviation item := (K * V)%type.
Abbreviation store := (list node).
Implicit Types (σ : store) (O : gmap nat node) (d e : ref) (ds Γ : list ref) (t : tree).
Implicit Types (x y z : item) (its xs ys lo hi : list item) (o : option item).

(** ** The pieces *)

(** Closing a branch one of whose children was worked on. *)
Lemma close_child cp σ O Γ d its h ds1 e0 e ds2 :
  own cp σ (<[r_loc d := mknode its 0 (S h) (ds1 ++ e0 :: ds2)]> O) (e :: ds1 ++ ds2 ++ Γ) →
  O !! r_loc d = None → length its ≤ maxItems → length its = length ds1 + length ds2 →
  Forall (child_ok h) ds1 → Forall (child_ok h) ds2 → child_ok h e →
  r_loc e = r_loc e0 → zlen (r_xs e) = zlen (r_xs e0) →
  let d' := MkRef (r_loc d) (S h) (length its) (contents its (ds1 ++ e :: ds2)) in
  own cp σ O (d' :: Γ) ∧ private σ (r_loc d).
Proof.
  intros Ho HO Hmax Hl Hds1 Hds2 He Hloc Hz d'.
  replace (mknode its 0 (S h) (ds1 ++ e0 :: ds2)) with (mknode its 0 (S h) (ds1 ++ e :: ds2)) in Ho.
  2:{ unfold mknode. by rewrite !fmap_app, !fmap_cons, Hloc, Hz. }
  apply (own_perm _ _ _ _ ((ds1 ++ e :: ds2) ++ Γ)) in Ho; [|solve_Permutation].
  eapply (own_close' _ _ _ _ d' its) in Ho as [Ho Hp]; [|apply lookup_insert_eq|].
  - cbn [r_loc d'] in Ho. by rewrite delete_insert_eq, delete_id in Ho by done.
  - unfold node_of. cbn [r_len r_h r_xs d']. split_and!; [done|done| |done].
    split; [rewrite length_app; cbn; lia|]. apply Forall_app_2; [done|]. by constructor.
Qed.

(** Closing a node of whose items one was replaced. *)
Lemma close_same cp σ O Γ d h its ds xs :
  own cp σ (<[r_loc d := mknode its 0 h ds]> O) (ds ++ Γ) → O !! r_loc d = None →
  length its = r_len d → r_len d ≤ maxItems → fits h ds (r_len d) → xs = contents its ds →
  let d' := MkRef (r_loc d) h (r_len d) xs in own cp σ O (d' :: Γ) ∧ private σ (r_loc d).
Proof.
  intros Ho HO Hl Hmax Hfit Hxs d'.
  eapply (own_close' _ _ _ _ d' its) in Ho as [Ho Hp]; [|apply lookup_insert_eq|by split_and!].
  cbn [r_loc d'] in Ho. by rewrite delete_insert_eq, delete_id in Ho by done.
Qed.

Lemma put_item_ok cp σ O Γ n its1 z its2 h ds x i :
  own cp σ (<[n := mknode (its1 ++ z :: its2) 0 h ds]> O) Γ → i = length its1 →
  runs (put_item n i x) σ (λ a σ', a = z ∧ own cp σ' (<[n := mknode (its1 ++ x :: its2) 0 h ds]> O) Γ).
Proof.
  intros Ho ->. unfold put_item. apply runs_bind. eapply runs_load_open; [exact Ho|apply lookup_insert_eq|].
  rewrite mknode_items. apply runs_bind. eapply runs_some; [by apply list_lookup_middle|].
  apply runs_bind. eapply runs_set_open; [exact Ho|apply lookup_insert_eq|]. intros σ1 Ho1.
  rewrite swap_item, insert_insert_eq in Ho1 by done. by apply runs_ret.
Qed.

Lemma swap_value_ok cp σ O Γ n its1 z its2 h ds v i :
  own cp σ (<[n := mknode (its1 ++ z :: its2) 0 h ds]> O) Γ → i = length its1 →
  runs (swap_value v n i) σ
    (λ a σ', a = z.2 ∧ own cp σ' (<[n := mknode (its1 ++ (z.1, v) :: its2) 0 h ds]> O) Γ).
Proof.
  intros Ho ->. unfold swap_value. apply runs_bind. eapply runs_load_open; [exact Ho|apply lookup_insert_eq|].
  rewrite mknode_items. apply runs_bind. eapply runs_some; [by apply list_lookup_middle|].
  apply runs_bind. eapply runs_set_open; [exact Ho|apply lookup_insert_eq|]. intros σ1 Ho1.
  rewrite swap_item, insert_insert_eq in Ho1 by done. by apply runs_ret.
Qed.

(** [m] answers [a] and leaves in the private subtree [d], with as many items of its own, [xs]. *)
Definition edits {A} cp (m : sto K V A) σ O Γ d (a : A) (xs : list item) : Prop :=
  runs m σ (λ a' σ', a' = a ∧
    let d' := MkRef (r_loc d) (r_h d) (r_len d) xs in own cp σ' O (d' :: Γ) ∧ private σ' (r_loc d)).

Lemma edits_child {A} fuel t σ O Γ d its h ds1 e ds2 (k : loc → sto K V A) a ys xs :
  own (copied t) σ (<[r_loc d := mknode its 0 (S h) (ds1 ++ e :: ds2)]> O) ((ds1 ++ e :: ds2) ++ Γ) →
  O !! r_loc d = None → r_h d = S h → length its = r_len d → r_len d ≤ maxItems →
  fits (S h) (ds1 ++ e :: ds2) (r_len d) → h < fuel → zlen ys = zlen (r_xs e) →
  (∀ e' : ref, r_xs e' = ys → contents its (ds1 ++ e' :: ds2) = xs) →
  (∀ σ' O' Γ' e', same e e' → r_h e' = h → 1 ≤ r_len e' → own (copied t) σ' O' (e' :: Γ') → private σ' (r_loc e') →
    edits (copied t) (k (r_loc e')) σ' O' Γ' e' a ys) →
  edits (copied t) (cowChild fuel t (r_loc d) (length ds1) true;;
    nd ← load (r_loc d); c ← child nd (length ds1); k c) σ O Γ d a xs.
Proof.
  intros Ho HO Hh Hlen Hmax [Hl Hkids] Hf Hz Hxs Hk. rewrite length_app in Hl. cbn in Hl.
  apply Forall_app in Hkids as [Hds1 [[Hhe Hme] Hds2]%Forall_cons].
  unfold edits. eapply enter_ok; [exact Ho|done|lia|]. intros σ1 e' Hh' Hk' Hx' Ho1 Hp1. cbv beta.
  eapply runs_mono; [eapply (Hk σ1 _ (ds1 ++ ds2 ++ Γ) e'); [done|lia|node_lia|exact Ho1|done]|].
  cbv zeta. intros a' σ2 (-> & Ho2 & Hp2). split; [done|].
  eapply close_child in Ho2 as [Ho2 Hp]; try done; try lia.
  - cbn [r_xs] in Ho2. rewrite Hxs in Ho2 by done. by rewrite Hh, <-Hlen.
  - split; cbn; [congruence|lia].
  - cbn. by rewrite Hx'.
Qed.

(** ** By position *)

Lemma replaceAt_loop_ok fuel t x : ∀ σ O Γ d xs z ys,
  own (copied t) σ O (d :: Γ) → private σ (r_loc d) → r_h d < fuel → r_xs d = xs ++ z :: ys →
  edits (copied t) (replaceAt_loop fuel t (r_loc d) (zlen xs) x) σ O Γ d z (xs ++ x :: ys).
Proof.
  induction fuel as [|fuel IH]; intros σ O Γ d xs z ys Ho Hp Hf Hxs; [lia|].
  destruct (own_open _ _ _ _ _ Ho Hp) as (its & ds & Ho1 & HO & Hlen & Hmax & Hfit & Hc).
  unfold edits. cbn [replaceAt_loop]. apply runs_bind.
  eapply runs_load_open; [exact Ho1|apply lookup_insert_eq|].
  destruct (r_h d) as [|h] eqn:Eh; rewrite leaf_mknode.
  - cbn in Hfit. subst ds. rewrite Hxs, contents_leaf in Hc. subst its.
    eapply runs_mono; [eapply put_item_ok; [exact Ho1|unfold zlen; lia]|]. cbv beta.
    intros a σ1 [-> Ho2]. split; [done|].
    eapply (close_same _ _ O Γ d 0 _ []); [exact Ho2|done| |done|done|by rewrite contents_leaf].
    by rewrite <-Hlen, !length_app.
  - pose proof Hfit as [Hl Hkids]. apply runs_bind. eapply runs_some; [done|].
    cbn [counts]. rewrite len_mknode.
    destruct (at_index its ds xs z ys) as (its1 & its2 & ds1 & e & ds2 & -> & -> & Hl1 & Hl2 &
      [(idx & its3 & Hseek & -> & -> & -> & Hds)|(es1 & es2 & Hseek & Hes & -> & Hys)]);
      [lia|congruence|..]; unfold sizes in Hseek; rewrite Hseek; cbv iota beta.
    + eapply runs_mono; [eapply put_item_ok; [exact Ho1|done]|]. cbv beta.
      intros a σ1 [-> Ho2]. split; [done|]. destruct ds2 as [|b ds2]; [cbn in Hds; lia|].
      eapply close_same; [exact Ho2|done| |done|done|].
      * by rewrite <-Hlen, !length_app.
      * by rewrite contents_lead, contents_cons, <-(assoc_L (++)) by lia.
    + rewrite <-Eh. eapply (edits_child _ _ _ _ _ _ _ _ _ _ _ _ _ (es1 ++ x :: es2));
        [exact Ho1|exact HO|exact Eh|exact Hlen|exact Hmax|exact Hfit|lia| | |].
      * rewrite Hes, !zlen_app, !zlen_cons. done.
      * intros e' He'. symmetry. by apply (Hys e' [x]).
      * intros σ' O' Γ' e' (_ & _ & Hx') Hh' Hk' Ho' Hp'. apply IH; [done|done|lia|by rewrite Hx'].
Qed.

(** ** By key *)

Context (cmp : K → V → K → V → Z) `{!Ordering cmp}.
Context (dataSearch : list item → item → nat * bool) `{!Searches cmp dataSearch}.

Lemma replace_loop_ok fuel t x : ∀ σ O Γ d lo o hi,
  own (copied t) σ O (d :: Γ) → private σ (r_loc d) → r_h d < fuel →
  ascending cmp (r_xs d) → parts cmp x (r_xs d) lo o hi →
  edits (copied t) (replace_loop dataSearch fuel t (r_loc d) x) σ O Γ d (snd <$> o)
    (lo ++ option_list ((λ y, (y.1, x.2)) <$> o) ++ hi).
Proof.
  induction fuel as [|fuel IH]; intros σ O Γ d lo o hi Ho Hp Hf Hs Hpx; [lia|].
  destruct (own_open _ _ _ _ _ Ho Hp) as (its & ds & Ho1 & HO & Hn).
  pose proof Hn as (Hlen & Hmax & Hfit & Hc). unfold edits. cbn [replace_loop]. apply runs_bind.
  eapply runs_load_open; [exact Ho1|apply lookup_insert_eq|]. unfold search.
  rewrite mknode_items. destruct (r_h d) as [|h] eqn:Eh; rewrite leaf_mknode.
  - rewrite (at_leaf cmp _ _ _ _ _ _ _ _ Hn Eh Hs Hpx). destruct Hpx as (Hx & _).
    rewrite <-(leaf_items _ _ _ Hn Eh) in Hx. subst its. cbn in Hfit. subst ds.
    destruct o as [y|]; cbn [isSome]; simpl option_list in *; cbn [app] in *.
    + apply runs_bind. eapply runs_mono; [by eapply swap_value_ok|]. intros v σ1 [-> Ho2].
      apply runs_ret. split; [done|]. eapply (close_same _ _ O Γ d 0 _ []); [exact Ho2|done| |done|done|by rewrite contents_leaf].
      by rewrite <-Hlen, !length_app.
    + apply runs_ret. split; [done|]. eapply (close_same _ _ O Γ d 0 _ []); try done.
  - destruct (at_branch cmp dataSearch _ _ _ _ _ _ _ _ Hn Eh Hs Hpx) as (its1 & its2 & ds1 & e & ds2 &
      [(-> & -> & Hl1 & Hl2 & -> & y & its3 & -> & -> & -> & -> & _)|
       (-> & -> & Hl1 & Hl2 & -> & He & lo1 & hi1 & Hp1 & -> & ->)]).
    + apply runs_bind. eapply runs_mono; [by eapply swap_value_ok|]. intros v σ1 [-> Ho2].
      apply runs_ret. split; [done|]. destruct ds2 as [|b ds2]; [discriminate|].
      eapply close_same; [exact Ho2|done| |done|done|].
      * by rewrite <-Hlen, !length_app.
      * by rewrite contents_lead, contents_cons, <-(assoc_L (++)) by lia.
    + rewrite <-Eh.
      eapply (edits_child _ _ _ _ _ _ _ _ _ _ _ _ _ (lo1 ++ option_list ((λ y, (y.1, x.2)) <$> o) ++ hi1));
        [exact Ho1|exact HO|exact Eh|exact Hlen|exact Hmax|exact Hfit|lia| | |].
      * destruct Hp1 as (-> & _). rewrite !zlen_app. by destruct o.
      * intros e' He'. by rewrite contents_split, He', <-!(assoc_L (++)) by lia.
      * intros σ' O' Γ' e' (_ & _ & Hx') Hh' _ Ho' Hp'. rewrite <-Hx' in He, Hp1. apply IH; try done. lia.
Qed.

(** Deleting a key that is not there. *)
Lemma nodeDelete_none fuel t x : ∀ σ O Γ d lo hi,
  own (copied t) σ O (d :: Γ) → private σ (r_loc d) → r_h d < fuel →
  ascending cmp (r_xs d) → parts cmp x (r_xs d) lo None hi →
  edits (copied t) (nodeDelete dataSearch fuel t (r_loc d) x) σ O Γ d None (r_xs d).
Proof.
  induction fuel as [|fuel IH]; intros σ O Γ d lo hi Ho Hp Hf Hs Hpx; [lia|].
  destruct (own_open _ _ _ _ _ Ho Hp) as (its & ds & Ho1 & HO & Hn).
  pose proof Hn as (Hlen & Hmax & Hfit & Hc). unfold edits. cbn [nodeDelete]. apply runs_bind.
  eapply runs_load_open; [exact Ho1|apply lookup_insert_eq|]. unfold search.
  rewrite mknode_items. destruct (r_h d) as [|h] eqn:Eh; rewrite leaf_mknode.
  - rewrite (at_leaf cmp _ _ _ _ _ _ _ _ Hn Eh Hs Hpx). cbn [isSome]. apply runs_ret. split; [done|].
    eapply close_same; try done.
  - destruct (at_branch cmp dataSearch _ _ _ _ _ _ _ _ Hn Eh Hs Hpx) as (its1 & its2 & ds1 & e & ds2 &
      [(_ & _ & _ & _ & _ & y & its3 & _ & [=] & _)|
       (-> & -> & Hl1 & Hl2 & -> & He & lo1 & hi1 & Hp1 & -> & ->)]).
    rewrite <-Eh. set (next c := nodeDelete dataSearch fuel t c x).
    eapply (edits_child _ _ _ _ _ _ _ _ _ _ _ (λ c, old ← next c; match old with None => mret None
      | Some _ => child_lost fuel t (r_loc d) (length ds1);; mret old end) _ (r_xs e));
      [exact Ho1|exact HO|exact Eh|exact Hlen|exact Hmax|exact Hfit|lia|done| |].
    + intros e' He'. by rewrite Hc, !contents_split, He' by lia.
    + intros σ' O' Γ' e' (_ & _ & Hx') Hh' _ Ho' Hp'. rewrite <-Hx' in He, Hp1 |- *. unfold edits.
      apply runs_bind. eapply runs_mono; [by eapply IH; [..|lia|exact He|exact Hp1]|].
      cbv beta zeta. intros old σ2 (-> & Ho2 & Hp2). by apply runs_ret.
Qed.

(** Deleting a key that is there: the search turns where the counts for its position turn. *)
Lemma seekAt_at its1 its2 ds1 e ds2 idx :
  length its1 = length ds1 → (0 ≤ idx ≤ zlen (r_xs e))%Z →
  seekAt (sizes (ds1 ++ e :: ds2)) (length (its1 ++ its2)) (zlen (lead its1 ds1) + idx) =
    (length ds1, idx, match its2 with [] => false | _ => (idx =? zlen (r_xs e))%Z end).
Proof.
  intros Hl Hi. unfold sizes at 1. rewrite fmap_app, length_app. fold (sizes ds1).
  rewrite seekAt_shift by lia. rewrite fmap_cons. destruct its2 as [|z its2]; cbn [length seekAt].
  - by rewrite Nat.add_0_r.
  - rewrite (proj2 (Z.leb_le _ _)) by lia. by rewrite Nat.add_0_r.
Qed.

(** [m] does what [m'] does and answers [g] of its answer. *)
Definition agrees {A B} (g : B → A) (m : sto K V A) (m' : sto K V B) σ : Prop :=
  m σ = (b ← m'; mret (g b)) σ.

Lemma agrees_bind {A B C} (g : B → A) (m : sto K V C) k k' σ :
  (∀ c σ', m σ = Some (c, σ') → agrees g (k c) (k' c) σ') → agrees g (m ≫= k) (m ≫= k') σ.
Proof.
  unfold agrees, mbind, sto_bind. intros Hk. destruct (m σ) as [[c σ']|]; [|done]. by apply Hk.
Qed.

Lemma agrees_then {A B C D} (f : D → C) (g : B → A) (m : sto K V C) m' k k' σ :
  agrees f m m' σ → (∀ c σ', agrees g (k (f c)) (k' c) σ') → agrees g (m ≫= k) (m' ≫= k') σ.
Proof.
  unfold agrees, mbind, sto_bind. intros -> Hk. destruct (m' σ) as [[c σ']|]; [|done]. apply Hk.
Qed.

Lemma agrees_some {A B C} (g : B → A) m (o : option C) c k' σ :
  o = Some c → agrees g m (k' c) σ → agrees g m (ofopt o ≫= k') σ.
Proof. by intros ->. Qed.

Lemma agrees_load {A B} (g : B → A) n nd k k' σ :
  σ !! n = Some nd → agrees g (k nd) (k' nd) σ → agrees g (load n ≫= k) (load n ≫= k') σ.
Proof. intros Hn Hk. apply agrees_bind. unfold load. rewrite Hn. by intros c σ' [= <- <-]. Qed.

Lemma agrees_runs {A B} (g : B → A) m m' σ (Q : A → store → Prop) :
  agrees g m m' σ → runs m' σ (λ b σ', Q (g b) σ') → runs m σ Q.
Proof.
  unfold agrees, runs, mbind, sto_bind. intros ->. by destruct (m' σ) as [[b σ']|].
Qed.

Lemma nodeDelete_some fuel t x : ∀ σ O Γ d lo y hi,
  own (copied t) σ O (d :: Γ) → private σ (r_loc d) → r_h d < fuel →
  ascending cmp (r_xs d) → parts cmp x (r_xs d) lo (Some y) hi →
  agrees (λ z, Some z.2) (nodeDelete dataSearch fuel t (r_loc d) x)
    (nodeDeleteAt fuel t (r_loc d) (zlen lo)) σ.
Proof.
  induction fuel as [|fuel IH]; intros σ O Γ d lo y hi Ho Hp Hf Hs Hpx; [lia|].
  destruct (own_open _ _ _ _ _ Ho Hp) as (its & ds & Ho1 & HO & Hn).
  cbn [nodeDelete nodeDeleteAt].
  eapply agrees_load; [eapply own_open_lookup; [exact Ho1|apply lookup_insert_eq]|].
  unfold search. rewrite mknode_items, len_mknode. destruct (r_h d) as [|h] eqn:Eh; rewrite leaf_mknode.
  - rewrite (at_leaf cmp _ _ _ _ _ _ _ _ Hn Eh Hs Hpx). cbn [isSome]. cbv zeta.
    unfold zlen. rewrite Nat2Z.id. do 2 (apply agrees_bind; intros ? ? _). done.
  - destruct (branch_kids _ _ _ _ Hn Eh) as [_ Hkids]. eapply agrees_some; [done|]. cbn [counts].
    destruct (at_branch cmp dataSearch _ _ _ _ _ _ _ _ Hn Eh Hs Hpx) as (its1 & its2 & ds1 & e & ds2 & Hturn).
    assert (∃ y' idx its3 found, its = its1 ++ its2 ∧ ds = ds1 ++ e :: ds2 ∧ (found = true → its2 = y' :: its3) ∧
      dataSearch its x = (length ds1, found) ∧
      seekAt (sizes ds) (length its) (zlen lo) = (length ds1, idx, found) ∧
      (found = false → ascending cmp (r_xs e) ∧
        ∃ lo1 hi1, parts cmp x (r_xs e) lo1 (Some y) hi1 ∧ idx = zlen lo1)) as
      (y' & idx & its3 & found & -> & -> & Hi2 & -> & Hseek & Hrest).
    { destruct Hturn as [(-> & -> & Hl1 & Hl2 & -> & y' & its3 & -> & _ & -> & _)|
        (-> & -> & Hl1 & Hl2 & -> & He & lo1 & hi1 & Hp1 & -> & _)].
      - exists y', (zlen (r_xs e)), its3, true. rewrite zlen_app, seekAt_at, Z.eqb_refl
          by (done || (pose proof (zlen_nonneg (r_xs e)); lia)). by split_and!.
      - assert (zlen lo1 < zlen (r_xs e))%Z as Hlt.
        { destruct Hp1 as (-> & _). rewrite !zlen_app. pose proof (zlen_nonneg hi1). unfold zlen. simpl. lia. }
        exists y, (zlen lo1), [], false.
        rewrite zlen_app, seekAt_at by (done || (pose proof (zlen_nonneg lo1); lia)).
        split_and!; try done; [|intros _; split; [done|by exists lo1, hi1]].
        destruct its2; [done|]. by rewrite (proj2 (Z.eqb_neq _ _)) by lia. }
    clear Hturn. unfold sizes in Hseek. rewrite Hseek. cbv iota beta.
    pose proof Hkids as [_ [[Hhe _] _]%Forall_cons]%Forall_app.
    assert (runs (cowChild fuel t (r_loc d) (length ds1) true;; mret ()) σ (λ _ σ', ∃ e', same e e' ∧
      own (copied t) σ' (<[r_loc d := mknode (its1 ++ its2) 0 (S h) (ds1 ++ e' :: ds2)]> O)
        (e' :: ds1 ++ ds2 ++ Γ) ∧ private σ' (r_loc e'))) as Hent.
    { eapply enter_child; [exact Ho1|done|lia|]. intros σ' e' ? ? ? _ Ho2 Hp2. apply runs_ret. by exists e'. }
    apply agrees_bind. intros [] σ1 Hcow. unfold runs, mbind, sto_bind in Hent. rewrite Hcow in Hent.
    destruct Hent as (e' & (Hh' & _ & Hx') & Ho2 & Hp2).
    eapply agrees_load; [eapply own_open_lookup; [exact Ho2|apply lookup_insert_eq]|].
    apply agrees_bind. intros c σ2 Hc.
    assert (c = r_loc e' ∧ σ2 = σ1) as [-> ->].
    { unfold child, the_branch, mknode, mbind, sto_bind in Hc. cbn in Hc.
      rewrite list_lookup_fmap, list_lookup_middle in Hc by done. by injection Hc as <- <-. }
    apply (agrees_then (λ z : item, Some z.2)).
    + destruct found.
      * rewrite !mknode_items. do 4 (apply agrees_bind; intros ? ? _). done.
      * destruct (Hrest eq_refl) as (He & lo1 & hi1 & Hp1 & ->). rewrite <-Hx' in He, Hp1.
        eapply IH; [exact Ho2|exact Hp2|lia|exact He|exact Hp1].
    + intros z σ'. by apply agrees_bind.
Qed.

(** ** From the root *)

Lemma editing_ok {c B C} (loop : tree → loc → sto K V B) (k : B → tree → sto K V C) σ t xs ys Γ b Q :
  holds c σ t xs Γ → xs ≠ [] → zlen ys = zlen xs →
  (∀ σ t' d, copied t' = copied t → depth t' = depth t → r_xs d = xs → r_h d < depth t →
    own (copied t') σ ∅ (d :: Γ) → private σ (r_loc d) → 1 ≤ r_len d →
    edits (copied t') (loop t' (r_loc d)) σ ∅ Γ d b ys) →
  (∀ t' σ', copied t' = copied t → holds c σ' t' ys Γ → runs (k b t') σ' Q) →
  runs (t ← cowRoot (depth t) true t; r ← ofopt (root t); b ← loop t r; k b t) σ Q.
Proof.
  intros Ht Hne Hz Hloop Hk.
  destruct (tree_own_nonempty _ _ _ _ Ht Hne) as (d & Hr & Hs & Hx & Hk1 & Hh & Ho & Hc & Hn).
  apply runs_bind. eapply runs_mono; [by eapply cowRoot_ok|].
  intros t1 σ1 (d1 & -> & Hh1 & Hk2 & Hx1 & Ho1 & Hp1).
  apply runs_bind. eapply runs_some; [done|]. apply runs_bind.
  eapply runs_mono; [apply (Hloop σ1 _ d1); try done; congruence || lia|].
  cbv beta zeta. intros b' σ2 (-> & Ho2 & Hp2). apply Hk; [done|].
  assert (tcount t = zlen ys) as Hn' by lia.
  replace (set_root _ t) with (set_count (tcount t) (set_root (Some (r_loc d1)) t)) by by destruct t.
  eapply (tree_own_root σ2 t (MkRef (r_loc d1) (r_h d1) (r_len d1) ys)); cbn; try done. lia.
Qed.

(** An item between its neighbours. *)
Definition between (c : option (K → V → K → V → Z)) lo x hi : bool :=
  match c with
  | None => true
  | Some f =>
      match last lo with Some a => (comp f a x <? 0)%Z | None => true end &&
      match head hi with Some b => (comp f x b <? 0)%Z | None => true end
  end.

Lemma ordered_at_ok c σ t lo z hi x d :
  reads σ t (lo ++ z :: hi) → dataCompare t = c → shows σ d → r_xs d = lo ++ z :: hi → r_h d < depth t →
  runs (ordered_at t (r_loc d) (zlen lo) x) σ (λ b σ', b = between c lo x hi ∧ σ' = σ).
Proof.
  intros [Hn _] Hc Hd Hx Hh. unfold ordered_at. rewrite Hc. destruct c as [f|]; [|by apply runs_ret].
  assert (∀ xs y ys i, r_xs d = xs ++ y :: ys → i = zlen xs →
    runs (getAt_loop (depth t) t (r_loc d) i false) σ (λ a σ', a = y ∧ σ' = σ)) as Hget.
  { intros xs y ys i Hxs ->. eapply runs_mono; [by eapply (getAt_walk (acc := reader t) (depth t) σ)|].
    by intros a σ' (-> & -> & _). }
  assert (∀ a b, gte t a b = negb (comp f a b <? 0)%Z) as Hgte.
  { intros a b. unfold gte. rewrite Hc. by rewrite <-Z.leb_antisym. }
  unfold between. apply runs_bind.
  eapply runs_mono with (P := λ low σ', σ' = σ ∧
    low = negb match last lo with Some a => (comp f a x <? 0)%Z | None => true end).
  { destruct lo as [|a lo _] using rev_ind; [by apply runs_ret|]. rewrite last_snoc.
    rewrite (proj2 (Z.ltb_lt _ _)) by (rewrite zlen_app; unfold zlen; cbn; lia).
    apply runs_bind. eapply runs_mono; [eapply (Hget lo a (z :: hi)); [by rewrite Hx, <-(assoc_L (++))|]|].
    { rewrite zlen_app. unfold zlen. cbn. lia. }
    cbv beta. intros a' σ' [-> ->]. apply runs_ret. by rewrite Hgte. }
  cbv beta. intros low σ' [-> ->]. destruct (match last lo with Some _ => _ | None => _ end); [|by apply runs_ret].
  cbn [negb andb]. rewrite Hn, zlen_app, zlen_cons. destruct hi as [|b hi]; cbn [head].
  { rewrite (proj2 (Z.ltb_ge _ _)) by (unfold zlen; cbn; lia). by apply runs_ret. }
  rewrite (proj2 (Z.ltb_lt _ _)) by (rewrite zlen_cons; pose proof (zlen_nonneg hi); lia).
  apply runs_bind. eapply runs_mono; [eapply (Hget (lo ++ [z]) b hi); [by rewrite Hx, <-(assoc_L (++))|]|].
  { by rewrite zlen_app. }
  cbv beta. intros b' σ' [-> ->]. apply runs_ret. by rewrite Hgte, negb_involutive.
Qed.

Lemma ReplaceAt_ok c σ t lo z hi x Γ :
  holds c σ t (lo ++ z :: hi) Γ →
  runs (ReplaceAt (zlen lo) x t) σ (λ '(o, t') σ', copied t' = copied t ∧
    if between c lo x hi then o = Some z ∧ holds c σ' t' (lo ++ x :: hi) Γ
    else o = None ∧ holds c σ' t' (lo ++ z :: hi) Γ).
Proof.
  intros Ht. pose proof Ht as (Hn & Hc & _). unfold ReplaceAt. rewrite Hn, zlen_app, zlen_cons.
  pose proof (zlen_nonneg lo). pose proof (zlen_nonneg hi).
  rewrite (proj2 (orb_false_iff _ _)) by (rewrite Z.ltb_ge, Z.leb_gt; lia).
  assert (lo ++ z :: hi ≠ []) as Hne by by destruct lo.
  pose proof (tree_own_reads _ _ _ _ Ht) as Hreads.
  destruct (reads_nonempty _ _ _ Hreads Hne) as (d & Hr & Hx & Hk & Hd & Hh). rewrite Hr.
  apply runs_bind. eapply runs_some; [done|]. apply runs_bind. eapply runs_mono; [by eapply ordered_at_ok|].
  cbv beta. intros ok σ' [-> ->]. destruct (between c lo x hi); [|by apply runs_ret].
  eapply (editing_ok (λ t r, replaceAt_loop (depth t) t r (zlen lo) x) (λ old t, mret (Some old, t)) σ t
    (lo ++ z :: hi) (lo ++ x :: hi) Γ z); [exact Ht|done| |..].
  - by rewrite !zlen_app, !zlen_cons.
  - intros σ1 t' d1 _ -> Hx1 Hh1 Ho1 Hp1 _. by apply replaceAt_loop_ok.
  - intros t' σ' Hcp Hh'. by apply runs_ret.
Qed.

Lemma ReplaceAt_range c σ t xs i x Γ :
  holds c σ t xs Γ → ¬ (0 ≤ i < zlen xs)%Z →
  runs (ReplaceAt i x t) σ (λ '(o, t') σ', o = None ∧ t' = t ∧ σ' = σ).
Proof.
  intros (Hn & _) Hi. unfold ReplaceAt. rewrite Hn.
  rewrite (proj2 (orb_true_iff _ _)) by (rewrite Z.ltb_lt, Z.leb_le; lia). by apply runs_ret.
Qed.

Lemma Replace_ok c σ t xs x lo o hi Γ :
  holds c σ t xs Γ → ascending cmp xs → parts cmp x xs lo o hi →
  runs (Replace dataSearch x t) σ (λ '(v, t') σ', v = snd <$> o ∧ copied t' = copied t ∧
    holds c σ' t' (lo ++ option_list ((λ y, (y.1, x.2)) <$> o) ++ hi) Γ).
Proof.
  intros Ht Hs Hp. pose proof Ht as (Hn & _). unfold Replace. rewrite Hn. destruct (zlen xs =? 0)%Z eqn:E.
  - apply Z.eqb_eq, zlen_nil_iff in E. subst. apply runs_ret. apply parts_locate in Hp. by simplify_eq/=.
  - eapply (editing_ok (λ t r, replace_loop dataSearch (depth t) t r x) (λ old t, mret (old, t)) _ _ _
      (lo ++ option_list ((λ y, (y.1, x.2)) <$> o) ++ hi) _ (snd <$> o)); [exact Ht|by intros ->| |..].
    + destruct Hp as (-> & _). rewrite !zlen_app. by destruct o.
    + intros σ1 t' d1 _ -> Hx1 Hh1 Ho1 Hp1 _. rewrite <-Hx1 in Hs, Hp. by eapply replace_loop_ok.
    + intros t' σ' Hcp Hh'. by apply runs_ret.
Qed.

Lemma Delete_ok c σ t xs x lo o hi Γ :
  holds c σ t xs Γ → ascending cmp xs → parts cmp x xs lo o hi →
  runs (Delete dataSearch x t) σ (λ '(v, t') σ', v = snd <$> o ∧ copied t' = copied t ∧
    holds c σ' t' (lo ++ hi) Γ).
Proof.
  intros Ht Hs Hp. pose proof Ht as (Hn & _). unfold Delete. rewrite Hn. destruct (zlen xs =? 0)%Z eqn:E.
  { apply Z.eqb_eq, zlen_nil_iff in E. subst. apply runs_ret. apply parts_locate in Hp. by simplify_eq/=. }
  assert (xs ≠ []) as Hne by by intros ->. destruct o as [y|].
  - destruct (tree_own_nonempty _ _ _ _ Ht Hne) as (d & Hr & Hsp & Hx & Hk & Hh & Ho & Hc & _).
    apply runs_bind. eapply runs_mono; [by eapply cowRoot_ok|].
    intros t1 σ1 (d1 & -> & Hh1 & Hk1 & Hx1 & Ho1 & Hp1). apply runs_bind. eapply runs_some; [done|].
    rewrite <-Hx, <-Hx1 in Hs, Hp. apply runs_bind.
    eapply agrees_runs; [eapply nodeDelete_some; [exact Ho1|exact Hp1| |exact Hs|exact Hp]|].
    { unfold depth in *. cbn. lia. }
    destruct Hp as (Hxs & _). eapply runs_mono.
    { eapply nodeDeleteAt_ok; [exact Ho1|exact Hp1| |lia|exact Hxs]. unfold depth in *. cbn. lia. }
    cbv beta. intros z σ2 (-> & d2 & (Hl2 & _ & Hx2 & _) & Ho2 & Hp2).
    apply runs_bind. eapply runs_mono.
    { eapply (collapse_ok (cmp := c) σ2 _ d2); try done; cbn; [by rewrite Hl2|by rewrite Hl2|].
      rewrite Hx2, Hn, <-Hx, <-Hx1, Hxs, !zlen_app. unfold zlen. cbn. lia. }
    intros t' σ3 (-> & Ht' & Hcp). apply runs_ret. by rewrite <-Hx2.
  - eapply (editing_ok (λ t r, nodeDelete dataSearch (depth t) t r x)
      (λ old t, match old with Some _ => t ← collapseRootIfNeeded (set_count (tcount t - 1) t); mret (old, t)
        | None => mret (None, t) end) _ _ _ xs _ None); [exact Ht|done| |..].
    + done.
    + intros σ1 t' d1 _ -> Hx1 Hh1 Ho1 Hp1 _. rewrite <-Hx1 in Hs, Hp |- *. by eapply nodeDelete_none.
    + intros t' σ' Hcp Hh'. apply runs_ret. destruct Hp as (-> & _). done.
Qed.
End edit.
