(* ===== verification/BtreeUpsert.v ===== *)
(** Insert and Set of btype_btree.go: the descent to the place of a key, which searches a branch again whose
    child it had to split, and so takes at most two trips a level. *)

From stdpp Require Import gmap.
From S2P Require Import Prelude Btree BtreeOwn BtreeRules BtreeDelete BtreeRemove BtreeDescend BtreeInsert.
From S2P Require Import BtreeTree BtreeAccess BtreeInsertAt BtreeKeyed BtreeSorted BtreeIter BtreeFind BtreeEdit.

Section upsert.
Context {K V : Type} `{F : !Frozen K V}.
Abbreviation node := (node K V).
Abbreviation ref := (@ref K V).
Abbreviation tree := (tree K V).
Abbreviation item := (K * V)%type.
Abbreviation store := (list node).
Implicit Types (σ : store) (O : gmap nat node) (d e : ref) (ds Γ : list ref) (t : tree).
Implicit Types (x y z : item) (its xs ys lo hi : list item) (o : option item).
Context (cmp : K → V → K → V → Z) `{!Ordering cmp}.
Context (dataSearch : list item → item → nat * bool) `{!Searches cmp dataSearch}.

(** What is done with the item that has the key: [g]. *)
Context (hit : loc → nat → sto K V V) (g : item → item).
Hypothesis Hhit : ∀ cp σ O Γ n its1 z its2 h ds i,
  own cp σ (<[n := mknode (its1 ++ z :: its2) 0 h ds]> O) Γ → i = length its1 →
  runs (hit n i) σ (λ v σ', v = z.2 ∧ own cp σ' (<[n := mknode (its1 ++ g z :: its2) 0 h ds]> O) Γ).

Definition put x o : item := match o with Some y => g y | None => x end.
Definition put_count o : Z := match o with Some _ => 0 | None => 1 end.

(** [m] puts the item in its place in the private subtree [d]. *)
Definition upserts cp (m : sto K V (option V * Z)) σ O Γ d x lo o hi : Prop :=
  runs m σ (λ r σ', r = (snd <$> o, put_count o) ∧
    ∃ d', gained d d' (lo ++ put x o :: hi) ∧ own cp σ' O (d' :: Γ) ∧ private σ' (r_loc d)).

(** The child that the search turns to has room. *)
Definition roomy x its ds : Prop := ∀ i e,
  dataSearch its x = (i, false) → ds !! i = Some e → r_len e < maxItems.

Lemma upserted_leaf cp σ O Γ d its1 its2 x :
  own cp σ (<[r_loc d := mknode (its1 ++ its2) 0 0 []]> O) Γ → O !! r_loc d = None → r_h d = 0 →
  length (its1 ++ its2) = r_len d → r_len d < maxItems →
  upserts cp (insertItemAt (r_loc d) x (length its1);; mret (None, 1%Z)) σ O Γ d x its1 None its2.
Proof.
  intros Ho HO Hh Hl Hmax. pose proof (leaf_added cp σ O Γ d its1 its2 x _ Ho HO Hh Hl Hmax eq_refl) as Hadd.
  unfold adds, upserts, runs, mbind, sto_bind in *.
  destruct (insertItemAt (r_loc d) x (length its1) σ) as [[[] σ']|]; [|done].
  destruct Hadd as [_ Hadd]. by split.
Qed.

(** After a split the search turns to one of the halves, or the item between them is it. *)
Lemma roomy_halves x its1 m its2 ds1 (lo hi : ref) ds2 :
  ascending cmp (its1 ++ m :: its2) → dataSearch (its1 ++ its2) x = (length its1, false) →
  ascending cmp (its1 ++ its2) → length its1 = length ds1 → r_len lo < maxItems → r_len hi < maxItems →
  roomy x (its1 ++ m :: its2) (ds1 ++ lo :: hi :: ds2).
Proof.
  intros Hs Hsearch Hs0 Hl Hlo Hhi i e Hi He.
  destruct (search_parts cmp dataSearch _ x Hs0) as (a & o & b & (Hab & Ha & _ & Hb) & Hab').
  rewrite Hab' in Hsearch. injection Hsearch as Hla Ho. destruct o; [done|]. simpl in Hab.
  apply app_inj_1 in Hab as [<- <-]; [|done].
  destruct (search_parts cmp dataSearch _ x Hs) as (a' & o' & b' & Hp' & Hs').
  rewrite Hs' in Hi. injection Hi as <- Ho'. destruct o'; [done|].
  destruct (decide (comp cmp m x < 0)%Z) as [Hm|Hm].
  - assert (parts cmp x (its1 ++ m :: its2) (its1 ++ [m]) None its2) as Hp.
    { split_and!; [by rewrite <-(assoc_L (++))| |done|done]. apply Forall_app_2; [done|by constructor]. }
    destruct (parts_unique _ _ _ _ _ _ _ _ _ Hp Hp') as (<- & _ & _).
    rewrite length_app, Hl, lookup_app_r in He by lia. cbn in He. rewrite Nat.add_comm, Nat.add_sub in He.
    cbn in He. congruence.
  - assert (comp cmp m x ≠ 0%Z) as Hne.
    { intros E. assert (parts cmp x (its1 ++ m :: its2) its1 (Some m) its2) as Hp by (split_and!; naive_solver).
      by destruct (parts_unique _ _ _ _ _ _ _ _ _ Hp Hp') as (_ & [=] & _). }
    assert (parts cmp x (its1 ++ m :: its2) its1 None (m :: its2)) as Hp.
    { split_and!; [done|done|done|]. constructor; [lia|done]. }
    destruct (parts_unique _ _ _ _ _ _ _ _ _ Hp Hp') as (<- & _ & _).
    rewrite Hl, list_lookup_middle in He by done. congruence.
Qed.

(** What the descent into a child does, with the fuel [fuel]. *)
Definition upserts_in fuel t x h : Prop := ∀ σ O Γ e lo o hi,
  own (copied t) σ O (e :: Γ) → private σ (r_loc e) → r_h e = h → 1 ≤ r_len e < maxItems →
  ascending cmp (r_xs e) → parts cmp x (r_xs e) lo o hi →
  upserts (copied t) (upsert dataSearch hit fuel t (r_loc e) x) σ O Γ e x lo o hi.

(** Into a child with room. *)
Lemma upsert_down fuel t σ O Γ d h its1 its2 ds1 e ds2 x lo1 o hi1 :
  own (copied t) σ (<[r_loc d := mknode (its1 ++ its2) 0 (S h) (ds1 ++ e :: ds2)]> O) (e :: ds1 ++ ds2 ++ Γ) →
  private σ (r_loc e) → O !! r_loc d = None → r_h d = S h →
  r_len d ≤ length (its1 ++ its2) ≤ maxItems → length its1 = length ds1 → length its2 = length ds2 →
  Forall (child_ok h) ds1 → Forall (child_ok h) ds2 → child_ok h e → r_len e < maxItems →
  ascending cmp (r_xs e) → parts cmp x (r_xs e) lo1 o hi1 → upserts_in fuel t x h →
  upserts (copied t) (nd ← load (r_loc d); c ← child nd (length ds1);
    '(prev, inserted) ← upsert dataSearch hit fuel t c x;
    upd_count (r_loc d) (length ds1) (λ c, c + inserted)%Z;;
    mret (prev, inserted)) σ O Γ d x (lead its1 ds1 ++ lo1) o (hi1 ++ follow its2 ds2).
Proof.
  intros Ho Hp HO Hh Hlen Hl1 Hl2 Hds1 Hds2 [Hhe Hme] Hroom He Hpx Hin. unfold upserts.
  apply runs_bind. eapply runs_load_open; [exact Ho|apply lookup_insert_eq|].
  apply runs_bind, runs_child; [done|]. apply runs_bind.
  eapply runs_mono; [eapply (Hin σ _ _ e lo1 o hi1); [exact Ho|done|done|node_lia|done|done]|].
  cbv beta. intros r σ1 (-> & e' & (Hle & Hhe' & Hxe & Hke) & Ho1 & Hp1).
  assert (zlen (r_xs e') = zlen (r_xs e) + put_count o)%Z as Hz.
  { destruct Hpx as (-> & _). rewrite Hxe, !zlen_app, zlen_cons. unfold put_count.
    destruct o; simpl; rewrite ?zlen_cons; unfold zlen; cbn; lia. }
  apply runs_bind. eapply runs_mono.
  { eapply (upd_count_ok _ _ _ _ _ (its1 ++ its2) h ds1 e e' ds2 (λ c, c + put_count o)%Z);
      [exact Ho1|apply lookup_insert_eq|done|done]. }
  cbv beta. intros _ σ2 [_ Ho2]. rewrite insert_insert_eq in Ho2. apply runs_ret. split; [done|].
  eapply close_child in Ho2 as [Ho2 Hp2]; try done; [|lia|rewrite length_app; lia|split; [congruence|lia]].
  eexists. split; [|split; [exact Ho2|exact Hp2]]. split_and!; cbn; [done|done| |lia].
  by rewrite contents_split, Hxe, <-!(assoc_L (++)) by done.
Qed.

Lemma upsert_trip fuel t σ O Γ d h its ds x lo o hi :
  own (copied t) σ (<[r_loc d := mknode its 0 (S h) ds]> O) (ds ++ Γ) →
  O !! r_loc d = None → r_h d = S h → r_len d ≤ length its ≤ maxItems → fits (S h) ds (length its) →
  ascending cmp (contents its ds) → parts cmp x (contents its ds) lo o hi → h < fuel →
  upserts_in fuel t x h →
  (roomy x its ds ∨ length its < maxItems ∧ ∀ σ its' ds',
    own (copied t) σ (<[r_loc d := mknode its' 0 (S h) ds']> O) (ds' ++ Γ) →
    r_len d ≤ length its' ≤ maxItems → fits (S h) ds' (length its') → contents its' ds' = contents its ds →
    roomy x its' ds' →
    upserts (copied t) (upsert dataSearch hit fuel t (r_loc d) x) σ O Γ d x lo o hi) →
  upserts (copied t) (upsert dataSearch hit (S fuel) t (r_loc d) x) σ O Γ d x lo o hi.
Proof.
  intros Ho HO Hh Hlen Hfit Hs Hpx Hfu Hin Hagain. unfold upserts. cbn [upsert].
  apply runs_bind. eapply runs_load_open; [exact Ho|apply lookup_insert_eq|]. unfold search.
  rewrite mknode_items, leaf_mknode. pose proof Hfit as [Hl Hkids].
  set (dn := MkRef (r_loc d) (S h) (length its) (contents its ds)).
  assert (node_of dn its ds) as Hn by (split_and!; try done; apply Hlen).
  destruct (at_branch cmp dataSearch dn its ds h x lo o hi Hn eq_refl Hs Hpx) as (its1 & its2 & ds1 & e & ds2 &
    [(-> & -> & Hl1 & Hl2 & -> & y & its3 & -> & -> & -> & -> & _)|
     (-> & -> & Hl1 & Hl2 & Hsearch & He & lo1 & hi1 & Hp1 & -> & ->)]).
  - apply runs_bind. eapply runs_mono; [by eapply Hhit|]. cbv beta. intros v σ1 [-> Ho1].
    apply runs_ret. split; [done|]. destruct ds2 as [|b ds2]; [discriminate|].
    eapply (close_same _ _ _ _ dn (S h) _ _ _) in Ho1 as [Ho1 Hp1];
      [|done|by cbn; rewrite !length_app|apply Hlen|exact Hfit|reflexivity].
    eexists. split; [|split; [exact Ho1|exact Hp1]]. split_and!; cbn; [done|done| |lia].
    by rewrite contents_lead, contents_cons, <-(assoc_L (++)) by done.
  - rewrite Hsearch. apply Forall_app in Hkids as [Hds1 Hkids]. apply Forall_cons in Hkids as [[Hhe Hme] Hds2].
    eapply enter_child; [exact Ho|done|lia|]. intros σ1 e' Hhe' Hle' Hxe' Hne' Ho2 Hp2.
    assert (child_ok h e') as He' by (split; [congruence|lia]).
    rewrite <-Hxe' in He, Hp1. apply runs_bind. destruct (decide (r_len e' < maxItems)) as [Hr|Hfull].
    + eapply runs_mono; [eapply ensureBranch_room; [exact Ho2|set_solver|done]|].
      intros split σ2 [-> ->]. by eapply upsert_down.
    + destruct Hagain as [Hr|[Hspace Hagain]].
      { exfalso. apply Hfull. rewrite Hle'. apply (Hr (length ds1)); [done|]. by apply list_lookup_middle. }
      eapply runs_mono; [eapply ensureBranch_ok; try done; lia|].
      cbv beta. intros split σ2 [(-> & -> & Hsmall)|(-> & m & l & r & Hhalf & Ho3 & _ & _ & _ & _)]; [lia|].
      destruct Hhalf as (Hlo & Hhi & Hlmax & Hhmax & Hxs).
      assert (contents (its1 ++ m :: its2) (ds1 ++ l :: r :: ds2) = contents (its1 ++ its2) (ds1 ++ e :: ds2))
        as Hc.
      { rewrite contents_lead, contents_cons, contents_follow, contents_split by lia.
        by rewrite <-Hxe', Hxs, <-!(assoc_L (++)). }
      assert (length (ds1 ++ l :: r :: ds2) = S (length (its1 ++ m :: its2))) as Hl3.
      { rewrite !length_app in *. cbn in *. lia. }
      eapply Hagain; [| | |exact Hc|].
      * eapply own_perm; [|exact Ho3]. solve_Permutation.
      * rewrite length_app in *. cbn. lia.
      * split; [done|]. apply Forall_app_2; [exact Hds1|]. constructor; [exact Hlo|]. by constructor.
      * rewrite <-Hl1 in Hsearch. apply roomy_halves; try done.
        -- eapply ascending_sublist; [by apply items_sublist|]. by rewrite Hc.
        -- eapply ascending_sublist; [by apply items_sublist|exact Hs].
Qed.

Lemma upsert_ok t x : ∀ h fuel, 2 * h < fuel → upserts_in fuel t x h.
Proof.
  induction h as [|h IH]; intros fuel Hf σ O Γ d lo o hi Ho Hp Hh Hk Hs Hpx;
    destruct (own_open _ _ _ _ _ Ho Hp) as (its & ds & Ho1 & HO & Hn); pose proof Hn as (Hlen & Hmax & Hfit & Hc).
  - destruct fuel as [|fuel]; [lia|]. unfold upserts. cbn [upsert]. apply runs_bind.
    eapply runs_load_open; [exact Ho1|apply lookup_insert_eq|]. unfold search.
    rewrite mknode_items, leaf_mknode, (at_leaf cmp dataSearch _ _ _ _ _ _ _ Hn Hh Hs Hpx), Hh.
    destruct Hpx as (Hx & _). rewrite <-(leaf_items _ _ _ Hn Hh) in Hx. subst its.
    rewrite Hh in Ho1, Hfit. cbn in Hfit. subst ds.
    destruct o as [y|]; cbn [isSome]; simpl option_list in *; cbn [app] in *.
    + apply runs_bind. eapply runs_mono; [by eapply Hhit|]. cbv beta. intros v σ1 [-> Ho2].
      apply runs_ret. split; [done|].
      eapply (close_same _ _ _ _ d 0 _ []) in Ho2 as [Ho2 Hp2];
        [|done|by rewrite <-Hlen, !length_app|done|done|reflexivity].
      eexists. split; [|split; [exact Ho2|exact Hp2]]. split_and!; cbn; [done|done| |lia].
      exact (contents_leaf _).
    + eapply upserted_leaf; try done. lia.
  - destruct fuel as [|[|fuel]]; [lia..|]. rewrite Hh in Ho1, Hfit. rewrite <-Hlen in Hfit. rewrite Hc in Hs, Hpx.
    eapply upsert_trip; try done; [lia|lia|apply IH; lia|]. right. split; [lia|].
    intros σ1 its1 ds1 Ho2 Hlen1 Hfit1 Hc1 Hroom. rewrite <-Hc1 in Hs, Hpx.
    eapply upsert_trip; try done; [lia|apply IH; lia|by left].
Qed.

(** ** From the root *)

Lemma upserting_ok {C} c (k : option V * Z → tree → sto K V C) σ t xs x lo o hi Γ Q :
  holds c σ t xs Γ → xs ≠ [] → ascending cmp xs → parts cmp x xs lo o hi →
  (∀ t' σ', copied t' = copied t → holds c σ' (set_count (tcount t' + put_count o) t') (lo ++ put x o :: hi) Γ →
    runs (k (snd <$> o, put_count o) t') σ' Q) →
  runs (t ← cowRoot (depth t) true t; t ← ensureRoot t; r ← ofopt (root t);
    p ← upsert dataSearch hit (2 * depth t) t r x; k p t) σ Q.
Proof.
  intros Ht Hne Hs Hp Hk.
  eapply (inserting_ok (λ t r, upsert dataSearch hit (2 * depth t) t r x) (λ p t r, k p t) _ _ _
    (lo ++ put x o :: hi) _ (snd <$> o, put_count o)); [exact Ht|done| |].
  - intros σ1 t' d Hcp _ Hx Hh Ho Hpr Hlen ->. rewrite <-Hcp in *. rewrite <-Hx in Hs, Hp.
    eapply upsert_ok; try done. unfold depth in *. lia.
  - intros t' r σ' Hn Hcp Hholds. apply Hk; [done|]. apply Hholds. rewrite Hn.
    destruct Hp as (-> & _). rewrite !zlen_app, zlen_cons. unfold put_count.
    destruct o; simpl; rewrite ?zlen_cons; unfold zlen; cbn; lia.
Qed.
End upsert.

Section insert_set.
Context {K V : Type} `{F : !Frozen K V}.
Abbreviation tree := (tree K V).
Abbreviation item := (K * V)%type.
Context (cmp : K → V → K → V → Z) `{!Ordering cmp}.
Context (dataSearch : list item → item → nat * bool) `{!Searches cmp dataSearch}.

Lemma value_at_ok cp (σ : list (node K V)) O Γ n its1 (z : item) its2 h ds i :
  own cp σ (<[n := mknode (its1 ++ z :: its2) 0 h ds]> O) Γ → i = length its1 →
  runs (value_at n i) σ (λ v σ', v = z.2 ∧ own cp σ' (<[n := mknode (its1 ++ z :: its2) 0 h ds]> O) Γ).
Proof.
  intros Ho ->. unfold value_at. apply runs_bind. eapply runs_load_open; [exact Ho|apply lookup_insert_eq|].
  rewrite mknode_items. apply runs_bind. eapply runs_some; [by apply list_lookup_middle|]. by apply runs_ret.
Qed.

Lemma Insert_ok c σ (t : tree) xs x lo o hi Γ :
  holds c σ t xs Γ → ascending cmp xs → parts cmp x xs lo o hi →
  runs (Insert dataSearch x t) σ (λ '(v, ok, t') σ', v = snd <$> o ∧ ok = negb (isSome o) ∧
    copied t' = copied t ∧ holds c σ' t' (lo ++ put id x o :: hi) Γ).
Proof.
  intros Ht Hs Hp. pose proof Ht as (Hn & _). unfold Insert. rewrite Hn. destruct (zlen xs =? 0)%Z eqn:E.
  - apply Z.eqb_eq, zlen_nil_iff in E. subst xs. apply parts_locate in Hp. simplify_eq/=.
    apply runs_bind. eapply runs_mono; [by eapply insertFirstItem_ok|]. intros t' σ' []. by apply runs_ret.
  - eapply (upserting_ok cmp dataSearch value_at id value_at_ok c
      (λ p t, let '(current, inserted) := p in
        mret (current, (inserted =? 1)%Z, set_count (tcount t + inserted) t))); [exact Ht|by intros ->|done|done|].
    intros t' σ' Hcp Hh. apply runs_ret. split; [done|]. split; [by destruct o|done].
Qed.

Lemma Set_ok c σ (t : tree) xs x lo o hi Γ :
  holds c σ t xs Γ → ascending cmp xs → parts cmp x xs lo o hi →
  runs (Set_ dataSearch x t) σ (λ '(v, ok, t') σ', v = snd <$> o ∧ ok = isSome o ∧
    copied t' = copied t ∧ holds c σ' t' (lo ++ put (λ y, (y.1, x.2)) x o :: hi) Γ).
Proof.
  intros Ht Hs Hp. pose proof Ht as (Hn & _). unfold Set_. rewrite Hn. destruct (zlen xs =? 0)%Z eqn:E.
  - apply Z.eqb_eq, zlen_nil_iff in E. subst xs. apply parts_locate in Hp. simplify_eq/=.
    apply runs_bind. eapply runs_mono; [by eapply insertFirstItem_ok|]. intros t' σ' []. by apply runs_ret.
  - eapply (upserting_ok cmp dataSearch (swap_value x.2) (λ y, (y.1, x.2))
      (λ cp σ O Γ n its1 z its2 h ds i, swap_value_ok cp σ O Γ n its1 z its2 h ds x.2 i) c
      (λ p t, let '(current, inserted) := p in
        mret (current, (inserted =? 0)%Z, set_count (tcount t + inserted) t))); [exact Ht|by intros ->|done|done|].
    intros t' σ' Hcp Hh. apply runs_ret. split; [done|]. split; [by destruct o|done].
Qed.
End insert_set.
