(* ===== verification/BtreeMap.v ===== *)
(** The B-tree of btype_btree.go with a comparison is a sorted map: any sequence of operations by key and by
    position, of iterations and of snapshots answers what the same operations on a sorted list answer. *)

From stdpp Require Import gmap.
From S2P Require Import Prelude Btree BtreeOwn BtreeRules BtreeTree BtreeAccess BtreeFacts.
From S2P Require Import BtreeKeyed BtreeSorted BtreeIter BtreeFind BtreeEdit BtreeUpsert.

Section ops.
Context {K V : Type}.
Abbreviation item := (K * V)%type.
Implicit Types (x y : item) (xs ys lo hi : list item) (i : Z) (k : nat).

(** * Operations on a tree and its copies, and on sorted lists *)

Inductive walk :=
  | WAll | WBackward | WAscend x | WDescend x | WAscendAt i | WDescendAt i.

(** An iteration stops after the first item that [stop] says yes to. *)
Inductive kop :=
  | KInsert x | KSet x | KReplace x | KDelete x | KReplaceAt i x | KDeleteAt i
  | KPopFront | KPopBack | KDrain (stop : item → bool) | KDrainBackward (stop : item → bool) | KClear
  | KGet (mut : bool) x | KFront (mut : bool) | KBack (mut : bool) | KGetAt (mut : bool) i
  | KSeek (mut : bool) x | KSeekNext (mut : bool) x | KSeekPrev (mut : bool) x
  | KIter (mut : bool) (w : walk) (stop : item → bool)
  | KContains x | KIndexOf x | KLen
  | KCopy | KGetOfCopy k x | KIterCopy k (w : walk) (stop : item → bool) | KRelease k.

Inductive reply :=
  | KItem (o : option item) | KValue (o : option V) | KPut (o : option V) (b : bool) | KBool (b : bool)
  | KIndex (i : Z) (b : bool) | KItems (l : list item) | KLength (n : Z) | KDone.

(** The loop body: collect the items. *)
Definition gather (stop : item → bool) (a : list item) x : list item * bool := (a ++ [x], negb (stop x)).
Definition gathering (stop : item → bool) (a : list item) x : sto K V (list item * bool) := mret (gather stop a x).

Definition on_snapshot k (s : @state K V) (f : tree K V → sto K V (reply * @state K V)) : sto K V (reply * @state K V) :=
  match s.2 !! k with Some c => f c | None => mret (KDone, s) end.

Section run.
Context (dataSearch : list item → item → nat * bool).

Definition run_walk (w : walk) (mut : bool) (stop : item → bool) (t : tree K V) : sto K V (list item * tree K V) :=
  let f := gathering stop in
  match w with
  | WAll => all0 f mut t []
  | WBackward => backward0 f mut t []
  | WAscend x => ascend0 dataSearch f mut x t []
  | WDescend x => descend0 dataSearch f mut x t []
  | WAscendAt i => ascendAt0 f mut i t []
  | WDescendAt i => descendAt0 f mut i t []
  end.

Definition do_kop (o : kop) (s : @state K V) : sto K V (reply * @state K V) :=
  let '(t, cs) := s in
  let item_of m := '(o, t) ← m; mret (KItem o, (t, cs)) in
  let value_of m := '(o, t) ← m; mret (KValue o, (t, cs)) in
  let items_of m := '(l, t) ← m; mret (KItems l, (t, cs)) in
  match o with
  | KInsert x => '(o, b, t) ← Insert dataSearch x t; mret (KPut o b, (t, cs))
  | KSet x => '(o, b, t) ← Set_ dataSearch x t; mret (KPut o b, (t, cs))
  | KReplace x => value_of (Replace dataSearch x t)
  | KDelete x => value_of (Delete dataSearch x t)
  | KReplaceAt i x => item_of (ReplaceAt i x t)
  | KDeleteAt i => item_of (DeleteAt i t)
  | KPopFront => item_of (PopFront t)
  | KPopBack => item_of (PopBack t)
  | KDrain stop => items_of (Drain (gathering stop) t [])
  | KDrainBackward stop => items_of (DrainBackward (gathering stop) t [])
  | KClear => mret (KDone, (Clear t, cs))
  | KGet mut x => value_of (get0 dataSearch x mut t)
  | KFront mut => item_of (front0 mut t)
  | KBack mut => item_of (back0 mut t)
  | KGetAt mut i => item_of (getAt0 i mut t)
  | KSeek mut x => item_of (seek0 dataSearch x mut t)
  | KSeekNext mut x => item_of (seekNext0 dataSearch x mut t)
  | KSeekPrev mut x => item_of (seekPrev0 dataSearch x mut t)
  | KIter mut w stop => items_of (run_walk w mut stop t)
  | KContains x => b ← Contains dataSearch x t; mret (KBool b, s)
  | KIndexOf x => '(i, b) ← IndexOf dataSearch x t; mret (KIndex i b, s)
  | KLen => mret (KLength (Len t), s)
  | KCopy => '(t, c) ← CopyInto t; mret (KDone, (t, c :: cs))
  | KGetOfCopy k x => on_snapshot k s (λ c, '(v, _) ← Get dataSearch x c; mret (KValue v, s))
  | KIterCopy k w stop => on_snapshot k s (λ c, '(l, _) ← run_walk w false stop c; mret (KItems l, s))
  | KRelease k => on_snapshot k s (λ c, _ ← Release c; mret (KDone, (t, delete k cs)))
  end.

Fixpoint do_kops (os : list kop) (s : @state K V) : sto K V (list reply * @state K V) :=
  match os with
  | [] => mret ([], s)
  | o :: os => '(a, s) ← do_kop o s; '(l, s) ← do_kops os s; mret (a :: l, s)
  end.
End run.

Section spec.
Context (cmp : K → V → K → V → Z).

(** The items that a walk is to visit, in order. *)
Definition list_walk (w : walk) xs : list item :=
  match w with
  | WAll => xs
  | WBackward => reverse xs
  | WAscend x => let '(_, o, hi) := locate cmp x xs in option_list o ++ hi
  | WDescend x => let '(lo, o, _) := locate cmp x xs in reverse (lo ++ option_list o)
  | WAscendAt i => drop (Z.to_nat i) xs
  | WDescendAt i => reverse (take (Z.to_nat (i + 1)) xs)
  end.

(** The item with the value of [x] and the key that was there. *)
Definition revalue x y : item := (y.1, x.2).

Definition list_kop (o : kop) (s : list item * list (list item)) : reply * (list item * list (list item)) :=
  let '(xs, yss) := s in
  match o with
  | KInsert x => let '(lo, o, hi) := locate cmp x xs in
      (KPut (snd <$> o) (negb (isSome o)), (lo ++ put id x o :: hi, yss))
  | KSet x => let '(lo, o, hi) := locate cmp x xs in
      (KPut (snd <$> o) (isSome o), (lo ++ put (revalue x) x o :: hi, yss))
  | KReplace x => let '(lo, o, hi) := locate cmp x xs in
      (KValue (snd <$> o), (lo ++ option_list (revalue x <$> o) ++ hi, yss))
  | KDelete x => let '(lo, o, hi) := locate cmp x xs in (KValue (snd <$> o), (lo ++ hi, yss))
  | KReplaceAt i x =>
      let lo := take (Z.to_nat i) xs in let hi := drop (S (Z.to_nat i)) xs in
      match at_pos i xs with
      | Some z => if between (Some cmp) lo x hi then (KItem (Some z), (lo ++ x :: hi, yss)) else (KItem None, s)
      | None => (KItem None, s)
      end
  | KDeleteAt i => (KItem (at_pos i xs), (if decide (0 ≤ i)%Z then delete (Z.to_nat i) xs else xs, yss))
  | KPopFront => (KItem (head xs), (tail xs, yss))
  | KPopBack => (KItem (last xs), (take (length xs - 1) xs, yss))
  | KDrain stop => (KItems (feed (gather stop) xs []).1, (left_over (gather stop) xs [], yss))
  | KDrainBackward stop =>
      (KItems (feed (gather stop) (reverse xs) []).1, (reverse (left_over (gather stop) (reverse xs) []), yss))
  | KClear => (KDone, ([], yss))
  | KGet _ x => let '(_, o, _) := locate cmp x xs in (KValue (snd <$> o), s)
  | KFront _ => (KItem (head xs), s)
  | KBack _ => (KItem (last xs), s)
  | KGetAt _ i => (KItem (at_pos i xs), s)
  | KSeek _ x => let '(_, o, hi) := locate cmp x xs in (KItem (head (option_list o ++ hi)), s)
  | KSeekNext _ x => let '(_, _, hi) := locate cmp x xs in (KItem (head hi), s)
  | KSeekPrev _ x => let '(lo, _, _) := locate cmp x xs in (KItem (last lo), s)
  | KIter _ w stop => (KItems (feed (gather stop) (list_walk w xs) []).1, s)
  | KContains x => let '(_, o, _) := locate cmp x xs in (KBool (isSome o), s)
  | KIndexOf x => let '(lo, o, _) := locate cmp x xs in (KIndex (zlen lo) (isSome o), s)
  | KLen => (KLength (zlen xs), s)
  | KCopy => (KDone, (xs, xs :: yss))
  | KGetOfCopy k x => match yss !! k with
      | Some ys => let '(_, o, _) := locate cmp x ys in (KValue (snd <$> o), s) | None => (KDone, s) end
  | KIterCopy k w stop => match yss !! k with
      | Some ys => (KItems (feed (gather stop) (list_walk w ys) []).1, s) | None => (KDone, s) end
  | KRelease k => (KDone, (xs, delete k yss))
  end.

Fixpoint list_kops (os : list kop) (s : list item * list (list item)) :
    list reply * (list item * list (list item)) :=
  match os with
  | [] => ([], s)
  | o :: os => let '(a, s) := list_kop o s in let '(l, s) := list_kops os s in (a :: l, s)
  end.

(** A value does not change the place of its key. *)
Class ByKey : Prop := by_key x y : comp cmp y x = 0%Z → comp cmp (revalue x y) x = 0%Z.
End spec.
End ops.
Arguments kop : clear implicits.
Arguments walk : clear implicits.
Arguments reply : clear implicits.

(** * The invariant *)

Section sorted_map.
Context {K V : Type} `{F : !Frozen K V}.
Abbreviation tree := (tree K V).
Abbreviation item := (K * V)%type.
Abbreviation store := (list (node K V)).
Implicit Types (σ : store) (t c : tree) (x y : item) (xs ys lo hi : list item).
Context (cmp : K → V → K → V → Z) `{!Ordering cmp} `{!ByKey cmp}.
Context (dataSearch : list item → item → nat * bool) `{!Searches cmp dataSearch}.

Definition sorted_family σ (s : @state K V) (ls : list item * list (list item)) : Prop :=
  family (Some cmp) σ s ls ∧ ascending cmp ls.1 ∧ Forall (ascending cmp) ls.2.

Lemma run_walk_ok w mut stop σ t xs R : rooted mut σ t xs R → ascending cmp xs →
  runs (run_walk dataSearch w mut stop t) σ (λ '(l, t') σ',
    l = (feed (gather stop) (list_walk cmp w xs) []).1 ∧ R t' σ').
Proof.
  intros Hroot Hs. destruct w; cbn [run_walk list_walk];
    try (destruct (locate_parts cmp x xs Hs) as (lo & o & hi & -> & Hp)).
  - by eapply all0_ok.
  - by eapply backward0_ok.
  - by eapply (ascend0_ok cmp dataSearch).
  - by eapply (descend0_ok cmp dataSearch).
  - by eapply ascendAt0_ok.
  - by eapply descendAt0_ok.
Qed.

(** The list stays sorted. *)
Lemma ascending_take n xs : ascending cmp xs → ascending cmp (take n xs).
Proof. apply ascending_sublist, sublist_take. Qed.

Lemma left_over_suffix {A} (body : A → item → A * bool) xs a : ∃ ys, xs = ys ++ left_over body xs a.
Proof.
  revert a. induction xs as [|x xs IH]; intros a; [by exists []|]. cbn. destruct (body a x) as [a' [|]].
  - destruct (IH a') as [ys Hys]. exists (x :: ys). by rewrite Hys at 1.
  - by exists [x].
Qed.

Lemma ascending_below lo a x : ascending cmp (lo ++ [a]) → (comp cmp a x < 0)%Z →
  Forall (λ y, comp cmp y x < 0)%Z (lo ++ [a]).
Proof.
  intros (_ & _ & Hlo)%ascending_app Hax. apply Forall_app. split; [|by constructor].
  apply Forall_forall. intros y Hy. eapply (comp_lt_le cmp _ a); [|lia]. apply Hlo; [done|]. set_solver.
Qed.

Lemma ascending_above x b hi : ascending cmp (b :: hi) → (comp cmp x b < 0)%Z →
  Forall (λ y, comp cmp x y < 0)%Z (b :: hi).
Proof.
  intros [Hb _]%ascending_cons Hxb. constructor; [done|]. eapply Forall_impl; [exact Hb|].
  intros y Hy. eapply (comp_le_lt cmp _ b); [lia|done].
Qed.

Lemma ascending_between lo z x hi : ascending cmp (lo ++ z :: hi) → between (Some cmp) lo x hi = true →
  ascending cmp (lo ++ x :: hi).
Proof.
  intros (Hlo & (_ & Hhi)%ascending_cons & _)%ascending_app (Hl & Hh)%andb_prop.
  assert (Forall (λ y, comp cmp x y < 0)%Z hi) as Hxhi.
  { destruct hi as [|b hi]; [done|]. by apply ascending_above, Z.ltb_lt. }
  assert (Forall (λ y, comp cmp y x < 0)%Z lo) as Hxlo.
  { destruct lo as [|a lo _] using rev_ind; [done|]. rewrite last_snoc in Hl.
    by apply ascending_below, Z.ltb_lt. }
  rewrite Forall_forall in Hxlo.
  apply ascending_app. split_and!; [done|by apply ascending_cons|]. intros y w Hy Hw.
  apply elem_of_cons in Hw as [->|Hw]; [by apply Hxlo|].
  rewrite Forall_forall in Hxhi. specialize (Hxhi w Hw). cbn in Hxhi.
  eapply (comp_lt_le cmp _ x); [by apply Hxlo|lia].
Qed.

Lemma at_pos_parts i xs : match at_pos i xs with
  | Some z => (0 ≤ i)%Z ∧ xs = take (Z.to_nat i) xs ++ z :: drop (S (Z.to_nat i)) xs ∧ zlen (take (Z.to_nat i) xs) = i
  | None => ¬ (0 ≤ i < zlen xs)%Z
  end.
Proof.
  unfold at_pos, zlen. case_decide as Hi; [|done].
  destruct (lookup_lt_is_Some_2 xs (Z.to_nat i)) as [z Hz]; [lia|]. rewrite Hz.
  split_and!; [lia|by rewrite take_drop_middle|]. rewrite length_take. lia.
Qed.

Lemma revalue_same x y : comp cmp y x = 0%Z → comp cmp (revalue x y) x = 0%Z.
Proof. apply ByKey0. Qed.

Lemma list_kop_sorted o xs yss : ascending cmp xs → Forall (ascending cmp) yss →
  let s := (list_kop cmp o (xs, yss)).2 in ascending cmp s.1 ∧ Forall (ascending cmp) s.2.
Proof.
  intros Hs Hys. destruct o; cbn [list_kop]; cbv zeta;
    try (destruct (locate_parts cmp x xs Hs) as (lo & o & hi & -> & Hp); pose proof Hp as (-> & _));
    try (destruct (yss !! k) as [ys|]); try (destruct (locate cmp x ys) as [[? ?] ?]); cbn [fst snd];
    try (split; [|done]); try exact Hs.
  - destruct o; [exact Hs|]. by eapply (ascending_put cmp x _ _ _ _ x Hs Hp), comp_refl.
  - destruct o as [y|]; [|by eapply (ascending_put cmp x _ _ _ _ x Hs Hp), comp_refl].
    eapply (ascending_put cmp x _ _ _ _ _ Hs Hp), revalue_same. by apply Hp.
  - destruct o as [y|]; [|exact Hs].
    eapply (ascending_put cmp x _ _ _ _ _ Hs Hp), revalue_same. by apply Hp.
  - by eapply ascending_drop_one.
  - pose proof (at_pos_parts i xs) as Hi. destruct (at_pos i xs) as [z|]; [|done].
    destruct Hi as (_ & Hxs & _). destruct (between _ _ _ _) eqn:Eb; [split; [|done]|done].
    eapply ascending_between; [|exact Eb]. by rewrite Hxs in Hs.
  - case_decide; [|done]. eapply ascending_sublist; [apply sublist_delete|done].
  - destruct xs; [done|]. by apply ascending_cons in Hs as [_ ?].
  - by apply ascending_take.
  - destruct (left_over_suffix (gather stop) xs []) as [ys Hys'].
    eapply ascending_sublist; [|exact Hs]. rewrite Hys' at 2. by apply sublist_inserts_l.
  - destruct (left_over_suffix (gather stop) (reverse xs) []) as [ys Hys'].
    eapply ascending_sublist; [|exact Hs]. rewrite <-(reverse_involutive xs) at 2. rewrite Hys' at 2.
    rewrite reverse_app. by apply sublist_inserts_r.
  - constructor.
  - split; [done|by constructor].
  - split; [done|]. rewrite delete_take_drop. apply Forall_app. by split; [apply Forall_take|apply Forall_drop].
  - split; [done|]. rewrite delete_take_drop. apply Forall_app. by split; [apply Forall_take|apply Forall_drop].
Qed.
(** * Every operation *)

(** An operation that reads, with either value of [mut]. *)
Lemma looks {A B} mut (m : sto K V (A * tree)) σ t cs xs yss (f : A → B) a :
  family (Some cmp) σ (t, cs) (xs, yss) →
  (∀ R, dataCompare t = Some cmp → rooted mut σ t xs R → runs m σ (λ '(r, t') σ', r = a ∧ R t' σ')) →
  runs ('(r, t') ← m; mret (f r, (t', cs))) σ
    (λ '(a', s') σ', a' = f a ∧ family (Some cmp) σ' s' (xs, yss)).
Proof.
  intros Hf Hm. eapply mutates; [exact Hf|]. intros Γ Ht. pose proof Ht as (_ & Hc & _).
  eapply runs_mono; [eapply Hm; [exact Hc|by eapply rooted_holds]|]. intros [r t'] σ' (-> & ? & _). done.
Qed.

(** A copy that is read. *)
Lemma looks_at_copy {A} (m : tree → sto K V (A * tree)) σ s ls k (f : A → reply K V) (g : list item → A) :
  family (Some cmp) σ s ls → Forall (ascending cmp) ls.2 →
  (∀ c ys R, ascending cmp ys → rooted false σ c ys R →
    runs (m c) σ (λ '(r, t') σ', r = g ys ∧ R t' σ')) →
  runs (on_snapshot k s (λ c, '(r, _) ← m c; mret (f r, s))) σ (λ '(a, s') σ',
    a = match ls.2 !! k with Some ys => f (g ys) | None => KDone end ∧ family (Some cmp) σ' s' ls).
Proof.
  intros Hf Hs Hm. unfold on_snapshot. pose proof (family_copy _ _ _ _ k Hf) as Hk.
  destruct (s.2 !! k) as [c|]; [|rewrite Hk; by apply runs_ret].
  destruct Hk as (ys & Hys & Hc). rewrite Hys. eapply observes; [exact Hf|].
  eapply runs_mono; [eapply Hm; [|by apply rooted_reader]|].
  - rewrite Forall_lookup in Hs. by eapply Hs.
  - by intros [r t'] σ' (-> & -> & ->).
Qed.

Definition refines_kop σ (o : kop K V) s ls : Prop :=
  runs (do_kop dataSearch o s) σ (λ '(a, s') σ',
    a = (list_kop cmp o ls).1 ∧ family (Some cmp) σ' s' (list_kop cmp o ls).2).

(** What writes by key. *)
Lemma kop_puts σ t cs xs yss x : family (Some cmp) σ (t, cs) (xs, yss) → ascending cmp xs →
  refines_kop σ (KInsert x) (t, cs) (xs, yss) ∧ refines_kop σ (KSet x) (t, cs) (xs, yss) ∧
  refines_kop σ (KReplace x) (t, cs) (xs, yss) ∧ refines_kop σ (KDelete x) (t, cs) (xs, yss).
Proof.
  intros Hf Hs. destruct (locate_parts cmp x xs Hs) as (lo & o & hi & El & Hp).
  unfold refines_kop. cbn [do_kop list_kop]. rewrite El. cbn [fst snd]. split_and!.
  - destruct Hf as (Γ & Ht & Hcs). apply runs_bind.
    eapply runs_mono; [by eapply (Insert_ok cmp dataSearch)|]. intros [[v b] t'] σ' (-> & -> & _ & Ht').
    apply runs_ret. split; [done|]. by exists Γ.
  - destruct Hf as (Γ & Ht & Hcs). apply runs_bind.
    eapply runs_mono; [by eapply (Set_ok cmp dataSearch)|]. intros [[v b] t'] σ' (-> & -> & _ & Ht').
    apply runs_ret. split; [done|]. by exists Γ.
  - eapply mutates; [exact Hf|]. intros Γ Ht.
    eapply runs_mono; [by eapply (Replace_ok cmp dataSearch)|]. by intros [v t'] σ' (-> & _ & ?).
  - eapply mutates; [exact Hf|]. intros Γ Ht.
    eapply runs_mono; [by eapply (Delete_ok cmp dataSearch)|]. by intros [v t'] σ' (-> & _ & ?).
Qed.

Lemma kop_replaceAt σ t cs xs yss i x : family (Some cmp) σ (t, cs) (xs, yss) →
  refines_kop σ (KReplaceAt i x) (t, cs) (xs, yss).
Proof.
  intros Hf. unfold refines_kop. cbn [do_kop list_kop]. pose proof (at_pos_parts i xs) as Hi.
  destruct (at_pos i xs) as [z|].
  - destruct Hi as (_ & Hxs & Hi). pose proof (ReplaceAt_ok (Some cmp) σ t (take (Z.to_nat i) xs) z
      (drop (S (Z.to_nat i)) xs) x) as Hok. rewrite Hi, <-Hxs in Hok.
    destruct (between _ _ _ _); (eapply mutates; [exact Hf|]); intros Γ Ht;
      (eapply runs_mono; [by apply Hok|]); by intros [v t'] σ' (_ & -> & ?).
  - eapply mutates; [exact Hf|]. intros Γ Ht. eapply runs_mono; [by eapply ReplaceAt_range|].
    by intros [v t'] σ' (-> & -> & ->).
Qed.

Lemma kop_takes σ t cs xs yss o : family (Some cmp) σ (t, cs) (xs, yss) →
  match o with KDeleteAt _ | KPopFront | KPopBack | KDrain _ | KDrainBackward _ | KClear => True | _ => False end →
  refines_kop σ o (t, cs) (xs, yss).
Proof.
  intros Hf Ho. unfold refines_kop. destruct o; try done; cbn [do_kop list_kop].
  - eapply mutates; [exact Hf|]. intros Γ Ht. eapply runs_mono; [by eapply DeleteAt_all|].
    by intros [r t'] σ' (-> & ?).
  - eapply mutates; [exact Hf|]. intros Γ Ht. eapply runs_mono; [by eapply PopFront_ok|].
    by intros [r t'] σ' (-> & ? & _).
  - eapply mutates; [exact Hf|]. intros Γ Ht. eapply runs_mono; [by eapply PopBack_all|].
    by intros [r t'] σ' (-> & ?).
  - eapply mutates; [exact Hf|]. intros Γ Ht. eapply runs_mono; [by eapply (Drain_ok (gather stop))|].
    by intros [r t'] σ' (-> & ?).
  - eapply mutates; [exact Hf|]. intros Γ Ht. eapply runs_mono; [by eapply (DrainBackward_ok (gather stop))|].
    by intros [r t'] σ' (-> & ?).
  - apply runs_ret. split; [done|]. destruct Hf as (Γ & Ht & Hcs). exists Γ. split; [|done].
    eapply Clear_ok. exact Ht.
Qed.

Lemma kop_seeks σ t cs xs yss mut x : family (Some cmp) σ (t, cs) (xs, yss) → ascending cmp xs →
  refines_kop σ (KGet mut x) (t, cs) (xs, yss) ∧ refines_kop σ (KSeek mut x) (t, cs) (xs, yss) ∧
  refines_kop σ (KSeekNext mut x) (t, cs) (xs, yss) ∧ refines_kop σ (KSeekPrev mut x) (t, cs) (xs, yss).
Proof.
  intros Hf Hs. destruct (locate_parts cmp x xs Hs) as (lo & o & hi & El & Hp).
  unfold refines_kop. cbn [do_kop list_kop]. rewrite El. cbn [fst snd].
  split_and!; (eapply (looks mut); [exact Hf|]); intros R Hc Hroot.
  - by eapply (get0_ok cmp dataSearch).
  - by eapply (seek0_ok cmp dataSearch).
  - by eapply (seekNext0_ok cmp dataSearch).
  - by eapply (seekPrev0_ok cmp dataSearch).
Qed.

Lemma kop_counts σ t cs xs yss o : family (Some cmp) σ (t, cs) (xs, yss) → ascending cmp xs →
  match o with KContains _ | KIndexOf _ | KLen => True | _ => False end →
  refines_kop σ o (t, cs) (xs, yss).
Proof.
  intros Hf Hs Ho. assert (reads σ t xs) as Hreads.
  { destruct Hf as (Γ & Ht & _). by eapply tree_own_reads. }
  unfold refines_kop. destruct o; try done; cbn [do_kop list_kop];
    try (destruct (locate_parts cmp x xs Hs) as (lo & o & hi & -> & Hp)); cbn [fst snd].
  - apply runs_bind. eapply runs_mono; [by eapply (Contains_ok cmp dataSearch)|]. intros b σ' [-> ->].
    by apply runs_ret.
  - apply runs_bind. eapply runs_mono; [by eapply (IndexOf_ok cmp dataSearch)|]. intros [? ?] σ' [Hr ->].
    simplify_eq. by apply runs_ret.
  - apply runs_ret. split; [|done]. destruct Hreads as [Hn _]. unfold Len. by rewrite Hn.
Qed.

Lemma kop_snapshots σ t cs xs yss o : family (Some cmp) σ (t, cs) (xs, yss) → Forall (ascending cmp) yss →
  match o with KCopy | KGetOfCopy _ _ | KIterCopy _ _ _ | KRelease _ => True | _ => False end →
  refines_kop σ o (t, cs) (xs, yss).
Proof.
  intros Hf Hys Ho. unfold refines_kop. destruct o; try done; cbn [do_kop list_kop].
  - apply runs_bind. eapply runs_mono; [by eapply family_share|]. intros [t' c] σ' ?. by apply runs_ret.
  - eapply runs_mono; [eapply (looks_at_copy _ _ _ _ _ _ (λ ys, snd <$> (locate cmp x ys).1.2)); [exact Hf|done|]|].
    + intros c ys R Hs Hroot. destruct (locate_parts cmp x ys Hs) as (lo & o & hi & -> & Hp).
      by eapply (get0_ok cmp dataSearch).
    + cbn. intros [a s'] σ' [-> ?]. destruct (yss !! k) as [ys|]; [|done].
      by destruct (locate cmp x ys) as [[? ?] ?].
  - eapply runs_mono; [eapply (looks_at_copy _ _ _ _ _ _
      (λ ys, (feed (gather stop) (list_walk cmp w ys) []).1)); [exact Hf|done|]|].
    + intros c ys R Hs Hroot. by apply run_walk_ok.
    + cbn. intros [a s'] σ' [-> ?]. by destruct (yss !! k).
  - unfold on_snapshot. cbn [snd]. destruct (cs !! k) as [c|] eqn:Ec.
    + apply runs_bind. eapply runs_mono; [by eapply family_release|].
      cbv beta. intros _ σ' Hf'. by apply runs_ret.
    + apply runs_ret. pose proof (family_absent _ _ _ _ _ Hf Ec) as Hdel. cbn in Hdel. by rewrite Hdel.
Qed.

Lemma kop_refines σ o s ls : sorted_family σ s ls → refines_kop σ o s ls.
Proof.
  intros (Hf & Hs & Hys). destruct s as [t cs], ls as [xs yss]. cbn [fst snd] in *.
  pose proof (λ x, kop_puts σ t cs xs yss x Hf Hs) as Hputs.
  pose proof (λ mut x, kop_seeks σ t cs xs yss mut x Hf Hs) as Hseeks.
  destruct o; try (by apply Hputs); try (by apply Hseeks); try (by apply kop_takes);
    try (by apply kop_counts); try (by apply kop_snapshots).
  - by apply kop_replaceAt.
  - unfold refines_kop. eapply (looks mut _ _ _ _ _ _ KItem); [exact Hf|]. intros R _ Hroot. by eapply front0_ok.
  - unfold refines_kop. eapply (looks mut _ _ _ _ _ _ KItem); [exact Hf|]. intros R _ Hroot. by eapply back0_ok.
  - unfold refines_kop. eapply (looks mut _ _ _ _ _ _ KItem); [exact Hf|]. intros R _ Hroot. by eapply getAt0_ok.
  - unfold refines_kop. eapply (looks mut _ _ _ _ _ _ KItems); [exact Hf|]. intros R _ Hroot. by apply run_walk_ok.
Qed.

Lemma kops_refine os : ∀ σ s ls, sorted_family σ s ls →
  runs (do_kops dataSearch os s) σ (λ '(l, s') σ',
    l = (list_kops cmp os ls).1 ∧ sorted_family σ' s' (list_kops cmp os ls).2).
Proof.
  induction os as [|o os IH]; intros σ s ls Hf; [by apply runs_ret|].
  cbn [do_kops list_kops]. apply runs_bind. eapply runs_mono; [by apply kop_refines|].
  intros [a s'] σ' [-> Hf']. destruct ls as [xs yss], Hf as (_ & Hs & Hys).
  pose proof (list_kop_sorted o xs yss Hs Hys) as Hs'.
  destruct (list_kop cmp o (xs, yss)) as [a' ls']. cbn [fst snd] in *.
  apply runs_bind. eapply runs_mono; [by apply IH|]. intros [l s''] σ'' [-> Hf''].
  apply runs_ret. by destruct (list_kops cmp os ls').
Qed.
End sorted_map.

Section theorems.
Context {K V : Type}.
#[local] Existing Instance nothing.

(** C10: With a comparison that is a linear order on the keys, and a search that finds the place
    of a key in the sorted items of a node, any sequence of insertions, settings, replacements,
    deletions and lookups by key, of replacements and deletions by position, pops and drains at both
    ends, iterations in both directions from anywhere and seeks, with either value of mut, of
    snapshots and their releases on a new tree runs without a nil dereference or an index out of
    range, gives the answers that the same operations on a sorted list give, and leaves the items in
    order. *)
Theorem btree_is_map (cmp : K → V → K → V → Z) (dataSearch : list (K * V) → K * V → nat * bool)
  (Hcmp : Ordering cmp) (Hkey : ByKey cmp) (Hsearch : Searches cmp dataSearch) (os : list (kop K V)) :
  ∃ s σ, do_kops dataSearch os (new_tree (Some cmp), []) [] = Some (((list_kops cmp os ([], [])).1, s), σ) ∧
    sorted_family cmp σ s (list_kops cmp os ([], [])).2.
Proof.
  assert (sorted_family (K := K) (V := V) cmp [] (new_tree (Some cmp), []) ([], [])) as Hnew.
  { split_and!; [|constructor..]. exists []. split; [apply tree_own_new|constructor]. }
  pose proof (kops_refine cmp dataSearch os [] _ _ Hnew) as Hrun. unfold runs in Hrun.
  destruct (do_kops _ _ _ _) as [[[l s] σ]|]; [|done]. destruct Hrun as [-> Hf]. by exists s, σ.
Qed.
End theorems.
