(* ===== verification/BtreeSnapshot.v ===== *)
(** Snapshots that nobody guards: references handed to an iteration are frozen with the nodes under them
    ([Frozen]), so that whatever is done to the tree meanwhile leaves those nodes as they were. *)

From stdpp Require Import gmap.
From S2P Require Import Prelude Btree BtreeOwn BtreeRules BtreeTree BtreeFacts.

Section snapshot.
Context {K V : Type}.
Abbreviation node := (node K V).
Abbreviation ref := (@ref K V).
Abbreviation tree := (tree K V).
Abbreviation item := (K * V)%type.
Abbreviation store := (list node).
Implicit Types (σ : store) (O H Z : gmap nat node) (d : ref) (ds Γ : list ref) (t : tree).
Implicit Types (F : Frozen K V) (xs : list item).

Lemma shape_sub H H' : H ⊆ H' → same_shape H H'.
Proof. intros Hs l n Hl. exists n. split; [by eapply lookup_weaken|done]. Qed.

Lemma reps_shape H H' d : same_shape H H' → reps H d → reps H' d.
Proof. apply rep_shape. Qed.

(** ** The nodes under a reference *)

(** The nodes of [Z] other than [roots] are children of nodes of [Z]. *)
Definition rooted (roots : list nat) Z : Prop := ∀ l n,
  Z !! l = Some n → l ∈ roots ∨ ∃ p m, Z !! p = Some m ∧ l ∈ kids m.

Lemma parts_agree H Z Z' : Z ⊆ H → Z' ⊆ H → Z' ⊆ Z ∪ Z'.
Proof.
  intros HZ HZ'. apply map_subseteq_spec. intros l n Hl. rewrite lookup_union_Some_raw.
  destruct (Z !! l) as [m|] eqn:E; [left|by right].
  pose proof (lookup_weaken _ _ _ _ E HZ). pose proof (lookup_weaken _ _ _ _ Hl HZ'). congruence.
Qed.

Lemma rooted_union ra rb Z Z' :
  Z' ⊆ Z ∪ Z' → rooted ra Z → rooted rb Z' → rooted (ra ++ rb) (Z ∪ Z').
Proof.
  intros Hr Ha Hb l n Hl. apply lookup_union_Some_raw in Hl as [Hl|[_ Hl]].
  - destruct (Ha _ _ Hl) as [?|(p & m & Hp & ?)]; [left; set_solver|right; exists p, m].
    split; [|done]. by apply lookup_union_Some_l.
  - destruct (Hb _ _ Hl) as [?|(p & m & Hp & ?)]; [left; set_solver|right; exists p, m].
    split; [|done]. by eapply lookup_weaken.
Qed.

Lemma parts H ds :
  (∀ d, d ∈ ds → ∃ Z, Z ⊆ H ∧ reps Z d ∧ rooted [r_loc d] Z) →
  ∃ Z, Z ⊆ H ∧ Forall (reps Z) ds ∧ rooted (r_loc <$> ds) Z.
Proof.
  induction ds as [|d ds IH]; intros Hd.
  - exists ∅. split; [apply map_empty_subseteq|]. split; [constructor|].
    intros l n Hl. by rewrite lookup_empty in Hl.
  - destruct (Hd d) as (Z & HZ & Hrep & Hroot); [set_solver|].
    destruct IH as (Z' & HZ' & Hreps & Hroots); [intros; apply Hd; set_solver|].
    pose proof (parts_agree _ _ _ HZ HZ') as Hr.
    exists (Z ∪ Z'). split; [by apply map_union_least|]. split; [|by apply (rooted_union [r_loc d])].
    constructor; [eapply reps_shape; [|exact Hrep]; apply shape_sub, map_union_subseteq_l|].
    eapply Forall_impl; [exact Hreps|]. intros e. by apply reps_shape, shape_sub.
Qed.

Lemma part H d : reps H d → ∃ Z, Z ⊆ H ∧ reps Z d ∧ rooted [r_loc d] Z.
Proof.
  remember (r_h d) as h eqn:Eh. revert d Eh. induction h as [|h IH]; intros d Eh Hd;
    destruct (reps_node _ _ Hd) as (its & c & ds & Hl & Hnode & Hds);
    pose proof Hnode as (_ & _ & Hfit & _); rewrite <-Eh in Hfit; cbn in Hfit.
  - subst ds. exists {[r_loc d := mknode its c (r_h d) []]}.
    split; [by apply map_singleton_subseteq_l|]. split.
    + eapply node_reps; [apply lookup_singleton_eq|done|constructor].
    + intros l n Hln. apply lookup_singleton_Some in Hln as [<- _]. left. set_solver.
  - destruct Hfit as [_ Hfit]. rewrite Forall_forall in Hds, Hfit.
    destruct (parts H ds) as (Z & HZ & Hreps & Hroot).
    { intros e He. apply IH; [symmetry; by apply Hfit|by apply Hds]. }
    set (n := mknode its c (r_h d) ds) in *.
    pose proof (proj2 (map_singleton_subseteq_l _ _ _) Hl : {[r_loc d := n]} ⊆ H) as HZ1.
    pose proof (parts_agree _ _ _ HZ1 HZ) as Hr.
    exists ({[r_loc d := n]} ∪ Z). split; [by apply map_union_least|]. split.
    + eapply node_reps; [apply lookup_union_Some_l, lookup_singleton_eq|done|].
      eapply Forall_impl; [exact Hreps|]. intros e. by apply reps_shape, shape_sub.
    + intros l m Hlm. apply lookup_union_Some_raw in Hlm as [Hlm|[_ Hlm]].
      * apply lookup_singleton_Some in Hlm as [<- _]. left. set_solver.
      * right. destruct (Hroot _ _ Hlm) as [Hk|(p & m' & Hp & ?)].
        -- exists (r_loc d), n. split; [apply lookup_union_Some_l, lookup_singleton_eq|].
           unfold n. by rewrite (kids_mknode_fits its c (r_h d) ds (r_len d)) by apply Hnode.
        -- exists p, m'. split; [|done]. by eapply lookup_weaken.
Qed.

(** ** Freezing and thawing *)

(** [F'] is [F] with the references [Γ] and what is under them. *)
Definition extends F F' Γ : Prop :=
  fz_refs (Frozen := F') = Γ ++ fz_refs (Frozen := F) ∧
  same_shape (fz_nodes (Frozen := F)) (fz_nodes (Frozen := F')).

Lemma refs_extends F F' Γ Γ' H l :
  extends F F' Γ' → refs (F := F') H Γ l = refs (F := F) H (Γ' ++ Γ) l.
Proof. intros [Hr _]. unfold refs. rewrite Hr, !fmap_app, !occ_app. lia. Qed.

Lemma owned_extends F F' cp σ O Γ Γ' H :
  extends F F' Γ' → same_shape (fz_nodes (Frozen := F')) H →
  owned (F := F') cp σ O Γ H ↔ owned (F := F) cp σ O (Γ' ++ Γ) H.
Proof.
  intros He Hs. pose proof (λ l, refs_extends F F' Γ Γ' H l He) as Hr.
  split; intros [H1 H2 H3 H4 H5 H6 H8 H7 H9]; split; try done.
  1-3: intros *; rewrite <-Hr; eauto.
  - apply Forall_app. split; [|done]. destruct He as [He _].
    pose proof (fz_reps (Frozen := F')) as Hf. rewrite He in Hf. apply Forall_app in Hf as [Hf _].
    eapply Forall_impl; [exact Hf|]. intros d. by apply reps_shape.
  - eapply shape_trans; [apply He|exact Hs].
  - intros *. rewrite Hr. eauto.
  - intros *. rewrite Hr. eauto.
  - intros *. rewrite Hr. eauto.
  - by apply Forall_app in H7 as [_ ?].
Qed.

Lemma own_freeze F cp σ O Γ Γ' :
  own (F := F) cp σ O (Γ' ++ Γ) → ∃ F', extends F F' Γ' ∧ own (F := F') cp σ O Γ.
Proof.
  intros [H Hw]. pose proof (ow_reps _ _ _ _ _ Hw) as HΓ. apply Forall_app in HΓ as [HΓ' _].
  pose proof (ow_frozen _ _ _ _ _ Hw) as Hf. rewrite Forall_forall in HΓ'.
  destruct (parts H Γ') as (Z & HZ & Hreps & Hroot); [intros d Hd; by apply part, HΓ'|].
  set (N := fz_nodes (Frozen := F)) in *.
  assert (same_shape N (Z ∪ N)) as HN.
  { intros l n Hl. destruct (Z !! l) as [m|] eqn:E.
    - exists m. split; [by apply lookup_union_Some_l|]. destruct (Hf _ _ Hl) as (n' & Hn' & ? & ?).
      pose proof (lookup_weaken _ _ _ _ E HZ). simplify_eq. by split.
    - exists n. split; [|done]. rewrite lookup_union_r by done. done. }
  unshelve epose (MkFrozen (Γ' ++ fz_refs (Frozen := F)) (Z ∪ N) _ _ : Frozen K V) as F'.
  - apply Forall_app. split.
    + eapply Forall_impl; [exact Hreps|]. intros d. apply reps_shape, shape_sub, map_union_subseteq_l.
    + eapply Forall_impl; [apply fz_reps|]. intros d. by apply reps_shape.
  - intros l n Hl. rewrite fmap_app. apply lookup_union_Some_raw in Hl as [Hl|[_ Hl]].
    + destruct (Hroot _ _ Hl) as [?|(p & m & Hp & ?)]; [left; set_solver|right; exists p, m].
      split; [by apply lookup_union_Some_l|done].
    + destruct (fz_held _ _ Hl) as [?|(p & m & Hp & Hk)]; [left; set_solver|right].
      destruct (HN _ _ Hp) as (m' & Hm' & _ & Hb). exists p, m'. split; [done|].
      unfold kids in *. by rewrite Hb.
  - assert (extends F F' Γ') as He by by split. exists F'. split; [done|]. exists H.
    apply (owned_extends F F' cp σ O Γ Γ' H He); [|done].
    intros l n Hl. apply lookup_union_Some_raw in Hl as [Hl|[_ Hl]]; [|by apply Hf].
    exists n. split; [by eapply lookup_weaken|done].
Qed.

Lemma own_thaw F F' cp σ O Γ Γ' :
  extends F F' Γ' → own (F := F') cp σ O Γ → own (F := F) cp σ O (Γ' ++ Γ).
Proof.
  intros He [H Hw]. exists H. apply (owned_extends F F' cp σ O Γ Γ' H He); [|done].
  apply (ow_frozen _ _ _ _ _ Hw).
Qed.

(** The same for what a tree owns. *)
Lemma tree_own_freeze F σ t xs Γ Γ' :
  holds (F := F) None σ t xs (Γ' ++ Γ) → ∃ F', extends F F' Γ' ∧ holds (F := F') None σ t xs Γ.
Proof.
  intros (Hn & Hc & Ht). destruct (root t) as [r|] eqn:Er.
  - destruct Ht as (Hs & d & ? & ? & ? & Ho).
    eapply own_perm in Ho; [apply (own_freeze F _ _ _ (d :: Γ)) in Ho as (F' & He & Ho)|].
    + exists F'. split; [done|]. unfold holds. rewrite Er. split_and!; try done. by exists d.
    + solve_Permutation.
  - destruct Ht as [? Ho]. apply own_freeze in Ho as (F' & He & Ho). exists F'. split; [done|].
    unfold holds. by rewrite Er.
Qed.

Lemma tree_own_thaw F F' σ t xs Γ Γ' :
  extends F F' Γ' → holds (F := F') None σ t xs Γ → holds (F := F) None σ t xs (Γ' ++ Γ).
Proof.
  intros He (Hn & Hc & Ht). unfold holds. destruct (root t) as [r|] eqn:Er; (split; [done|split; [done|]]).
  - destruct Ht as (Hs & d & ? & ? & ? & Ho). split; [done|]. exists d. split_and!; try done.
    apply (own_thaw _ _ _ _ _ _ _ He) in Ho. eapply own_perm; [|exact Ho]. solve_Permutation.
  - destruct Ht as [? Ho]. split; [done|]. by apply (own_thaw _ _ _ _ _ _ _ He).
Qed.

(** The frozen nodes are in the store. *)
Definition in_store Z σ : Prop := ∀ l n,
  Z !! l = Some n → ∃ n', σ !! l = Some n' ∧ items n' = items n ∧ nbranch n' = nbranch n.

Lemma tree_own_in_store F σ t xs Γ : holds (F := F) None σ t xs Γ → in_store (fz_nodes (Frozen := F)) σ.
Proof.
  intros Ht. destruct (tree_own_some _ _ _ _ Ht) as (cp & O & Γ' & [H Hw] & _).
  intros l n Hl. destruct (ow_frozen _ _ _ _ _ Hw _ _ Hl) as (n' & Hn' & ?). exists n'.
  split; [by apply (ow_closed _ _ _ _ _ Hw)|done].
Qed.

(** A tree whose nodes are in [Z]: what an iteration over it reads. *)
Definition read_from Z t xs : Prop :=
  tcount t = zlen xs ∧
  match root t with
  | None => xs = []
  | Some r => ∃ d, r_loc d = r ∧ r_xs d = xs ∧ 1 ≤ r_len d ∧ reps Z d
  end.

Lemma copy_read_from F F' t xs Γ :
  extends F F' Γ → copy_of t xs Γ → read_from (fz_nodes (Frozen := F')) t xs.
Proof.
  intros [He _] (Hn & Ht). split; [done|]. destruct (root t); [|by destruct Ht].
  destruct Ht as (d & -> & ? & ? & ?). exists d. split_and!; try done.
  pose proof (fz_reps (Frozen := F')) as Hf. rewrite He in Hf. by inversion Hf.
Qed.

Lemma tree_read_from F σ t xs Γ : holds (F := F) None σ t xs Γ → ∃ Z, read_from Z t xs ∧ in_store Z σ.
Proof.
  intros Ht. apply tree_own_reads in Ht as (Hn & Hr). destruct (root t) as [r|] eqn:Er.
  - destruct Hr as (d & ? & ? & ? & H & Hσ & Hd). exists H. split.
    + split; [done|]. rewrite Er. by exists d.
    + intros k n Hk. exists n. split; [by apply Hσ|done].
  - exists ∅. split; [split; [done|by rewrite Er]|]. intros k n Hk. by rewrite lookup_empty in Hk.
Qed.
End snapshot.
