(* ===== verification/BtypeFifo.v ===== *)
(** Package btype, btype_fifo.go: the in-memory FIFO backing over the copy-on-write B-tree of
    [Btree.v], the one NewBTreeFIFO builds without an index. The backing carries the nodes that its tree
    and the snapshots of running iterations share. *)

From S2P Require Import Prelude Errors Machine Core Btree.

Record Backing (W T : Type) := MkBacking {
  nodes : list (node unit T);
  t : tree unit T;
  maxSize : Z;
  hydrated : Z;
  inflight : Z;
  notFull : Signal;
  notEmpty : Signal;
  closed : bool;
  backup : option (Backup W T);
}.
Arguments MkBacking {W T} _ _ _ _ _ _ _ _ _.
Arguments nodes {W T} _.
Arguments t {W T} _.
Arguments maxSize {W T} _.
Arguments hydrated {W T} _.
Arguments inflight {W T} _.
Arguments notFull {W T} _.
Arguments notEmpty {W T} _.
Arguments closed {W T} _.
Arguments backup {W T} _.

Section btype.
Context {W T : Type} `{!Item W T} `{!World W}.
Abbreviation F := (Backing W T).
Abbreviation M := (go (Backing W T) W).
(** The empty struct that the tree has for keys here. *)
Abbreviation omit := unit.

Definition New : F := MkBacking [] (new_tree None) 0 0 0 NewSignal NewSignal false None.

Definition set_tree (ns : list (node omit T)) (tr : tree omit T) (f : F) : F :=
  MkBacking ns tr (maxSize f) (hydrated f) (inflight f) (notFull f) (notEmpty f) (closed f) (backup f).
Definition set_hydrated (h : Z) (f : F) : F :=
  MkBacking (nodes f) (t f) (maxSize f) h (inflight f) (notFull f) (notEmpty f) (closed f) (backup f).
Definition set_maxSize (m : Z) (f : F) : F :=
  MkBacking (nodes f) (t f) m (hydrated f) (inflight f) (notFull f) (notEmpty f) (closed f) (backup f).
Definition set_closed (c : bool) (f : F) : F :=
  MkBacking (nodes f) (t f) (maxSize f) (hydrated f) (inflight f) (notFull f) (notEmpty f) c (backup f).
Definition set_backup (b : option (Backup W T)) (f : F) : F :=
  MkBacking (nodes f) (t f) (maxSize f) (hydrated f) (inflight f) (notFull f) (notEmpty f) (closed f) b.

Definition inflight_l : lens F Z := Lens inflight (λ i f,
  MkBacking (nodes f) (t f) (maxSize f) (hydrated f) i (notFull f) (notEmpty f) (closed f) (backup f)).
Definition notFull_l : lens F Signal := Lens notFull (λ g f,
  MkBacking (nodes f) (t f) (maxSize f) (hydrated f) (inflight f) g (notEmpty f) (closed f) (backup f)).
Definition notEmpty_l : lens F Signal := Lens notEmpty (λ g f,
  MkBacking (nodes f) (t f) (maxSize f) (hydrated f) (inflight f) (notFull f) g (closed f) (backup f)).

(** * The tree's operations, on the backing's nodes; a nil dereference or an index out of range panics *)

Definition on_nodes {A} (m : sto omit T A) : M A := λ s,
  match m (nodes (mb s)) with
  | Some (a, ns) => (Done a, Mach (set_tree ns (t (mb s)) (mb s)) (mlk s) (mw s) (menv s))
  | None => gopanic s
  end.

Definition on_tree {A} (m : tree omit T → sto omit T (A * tree omit T)) : M A :=
  f ← getb;
  '(a, tr) ← on_nodes (m (t f));
  updb (λ f, set_tree (nodes f) tr f);;
  mret a.

Definition load_node (n : nat) : M (node omit T) :=
  f ← getb; match nodes f !! n with Some nd => mret nd | None => gopanic end.

(** [for _, v := range t.All() { ... }] over a tree of the backing's nodes. *)
Definition ranging {A} (yield : A → T → M (A * bool)) (tr : tree omit T) (a : A) : M A :=
  all0 load_node gopanic (λ a x, yield a x.2) tr a.

Definition f_Len (f : F) : Z := Btree.Len (t f).

(** * The operations *)

Definition SetMaxBatch (n : Z) (f : F) : F * option err :=
  if (n <? 1)%Z then (f, Some (Errorf "max batch must be at least 1, got %d" [Sentinel ErrBadOption]))
  else (f, None).

Definition SetMaxSize (n : Z) (f : F) : F * option err :=
  if (n <? 0)%Z then (f, Some (Errorf "max size must be at least 0, got %d" [Sentinel ErrBadOption]))
  else (set_maxSize n f, None).

Definition locked {A} (body : M A) : M A := Lock;; defer Unlock body.
Definition rlocked {A} (body : M A) : M A := RLock;; defer RUnlock body.

Fixpoint hydrate_loop (ctx : Ctx W) (b : Backup W T)
    (steps : list (code W (option (T * option err)))) : M (option err) :=
  match steps with
  | [] => updb (set_backup (Some b));; mret None
  | step :: steps =>
      o ← call step;
      match o with
      | None => updb (set_backup (Some b));; mret None
      | Some (v, Some e) => mret (WrapBackup (Some e))
      | Some (v, None) =>
          iferr e := ValidateKindOne false v then mret (Some e) else
          iferr e := call (bk_OnLoad b ctx v) then mret (WrapBackup (Some e)) else
          _ ← on_tree (PushBack ((), v));
          updb (λ f, set_hydrated (hydrated f + 1)%Z f);;
          hydrate_loop ctx b steps
      end
  end.

Definition Hydrate (ctx : Ctx W) (b : Backup W T) : M (option err) :=
  locked (hydrate_loop ctx b (bk_RangeAll b ctx)).

Definition ClosedOrCause (ctx : Ctx W) : M (option err) :=
  RLock;;
  f ← getb;
  RUnlock;;
  if closed f then mret (Some (Sentinel ErrClosed))
  else w ← getw; mret (ctx_cause ctx w).

Fixpoint push_loop (vs : list T) : M unit :=
  match vs with
  | [] => mret ()
  | v :: vs => _ ← on_tree (PushBack ((), v)); push_loop vs
  end.

Definition Push (ctx : Ctx W) (vs : list T) (options : list (OpOption W)) : M (option err) :=
  '(opts, oe) ← ResolveOpOptions CallPush options;
  match oe with
  | Some e => mret (Some e)
  | None =>
  iferr e := ValidateKind false vs then mret (Some e) else
  forever (
    Lock;;
    f ← getb;
    if closed f then Unlock;; return_ (Some (Sentinel ErrClosed))
    else if ((0 <? maxSize f) && (maxSize f <? zlen vs))%Z
    then Unlock;; return_ (Some (Sentinel ErrBatchTooLarge))
    else if ((maxSize f =? 0) ||
             (f_Len f - hydrated f + inflight f + zlen vs <=? maxSize f))%Z then
      iferr e :=
        match OnAdmit opts with
        | None => mret None
        | Some hook =>
            iferr e := RunOnAdmit inflight_l (zlen vs) notFull_l hook
            then mret (Some e)
            else
              f ← getb;
              if closed f
              then ReleaseReservation opts notFull_l;; mret (Some (Sentinel ErrClosed))
              else mret None
        end
      then Unlock;; return_ (Some e) else
      let give_back := ReleaseReservation opts notFull_l;; Unlock in
      iferr e := RunSideEffectLocked (SideEffect opts) give_back
      then give_back;; return_ (Some e) else
      f ← getb;
      iferr e :=
        match backup f with
        | None => mret None
        | Some b => RunBackup (bk_Push b ctx vs) give_back
        end
      then give_back;; return_ (Some e) else
      f ← getb;
      let wasEmpty := (f_Len f =? 0)%Z in
      push_loop vs;;
      (if wasEmpty then SignalIfWaiters notEmpty_l else mret ());;
      Unlock;;
      return_ None
    else
      iferr e := Wait notFull_l ctx Unlock
      then r ← ClosedOrCause ctx; return_ r
      else continue_)
  end.

Definition dropHydrated (n : Z) (f : F) : F :=
  if (hydrated f <=? n)%Z then set_hydrated 0 f else set_hydrated (hydrated f - n)%Z f.

(** The body of the peeking loop of Pop: it breaks once [k] items are out. *)
Definition peek_body (k : Z) (out : list T) (v : T) : M (list T * bool) :=
  let out := out ++ [v] in mret (out, negb (zlen out =? k)%Z).

(** [for i := 0; i < k; i++ { t.PopFront() }], collecting the items in [out]. *)
Fixpoint pop_loop (k : nat) (out : list T) : M (list T) :=
  match k with
  | O => mret out
  | S k => x ← on_tree PopFront; pop_loop k (out ++ [default zero (snd <$> x)])
  end.

Definition Pop (ctx : Ctx W) (n : Z) (options : list (OpOption W)) : M (list T * option err) :=
  '(opts, oe) ← ResolveOpOptions CallPop options;
  match oe with
  | Some e => mret ([], Some e)
  | None =>
  forever (
    Lock;;
    f ← getb;
    if closed f then Unlock;; return_ ([], Some (Sentinel ErrClosed))
    else if (0 <? f_Len f)%Z then
      let k := if (f_Len f <? n)%Z then f_Len f else n in
      iferr e := RunSideEffectLocked (SideEffect opts) Unlock
      then Unlock;; return_ ([], Some e) else
      f ← getb;
      '(out, oe) ← match backup f with
        | None => out ← pop_loop (Z.to_nat k) []; mret (out, None)
        | Some b =>
            out ← ranging (peek_body k) (t f) [];
            oe ← RunBackup (bk_Del b ctx out) Unlock;
            match oe with
            | Some e => mret ([], Some e)
            | None => _ ← pop_loop (Z.to_nat k) []; mret (out, None)
            end
        end;
      match oe with
      | Some e => Unlock;; return_ ([], Some e)
      | None =>
      updb (λ f, dropHydrated (Z.min k (hydrated f)) f);;
      SignalIfWaiters notFull_l;;
      Unlock;;
      return_ (out, None)
      end
    else
      iferr e := Wait notEmpty_l ctx Unlock
      then r ← ClosedOrCause ctx; return_ ([], r)
      else continue_)
  end.

Definition Peek (ctx : Ctx W) (options : list (OpOption W)) : M (T * bool * option err) :=
  '(opts, oe) ← ResolveOpOptions CallPeek options;
  match oe with
  | Some e => mret (zero, false, Some e)
  | None =>
  rlocked (
    f ← getb;
    if closed f then mret (zero, false, Some (Sentinel ErrClosed))
    else if (f_Len f =? 0)%Z then e ← RunSideEffect (SideEffect opts); mret (zero, false, e)
    else
      x ← on_tree Front;
      e ← RunSideEffect (SideEffect opts);
      mret (default zero (snd <$> x), true, e))
  end.

(** The body of the scan of Exists returns from inside the loop. *)
Definition exists_body (v : T) (se : option (code W (option err))) (_ : option (bool * option err))
    (x : T) : M (option (bool * option err) * bool) :=
  m ← call (Equal x v);
  if m : bool then e ← RunSideEffect se; mret (Some (true, e), false)
  else mret (None, true).

Definition Exists_ (ctx : Ctx W) (v : T) (options : list (OpOption W)) : M (bool * option err) :=
  '(opts, oe) ← ResolveOpOptions CallExists options;
  match oe with
  | Some e => mret (false, Some e)
  | None =>
  rlocked (
    f ← getb;
    if closed f then mret (false, Some (Sentinel ErrClosed))
    else
      r ← ranging (exists_body v (SideEffect opts)) (t f) None;
      match r with
      | Some r => mret r
      | None => e ← RunSideEffect (SideEffect opts); mret (false, e)
      end)
  end.

(** [rmIdx], [removed] and [i] of Del. *)
Definition del_body (v : list T) (a : list Z * list T * Z) (x : T) :
    M (list Z * list T * Z * bool) :=
  let '(rmIdx, removed, i) := a in
  m ← MatchesAny x v;
  mret (if m : bool then (rmIdx ++ [i], removed ++ [x], i + 1)%Z else (rmIdx, removed, i + 1)%Z, true).

Fixpoint delete_loop (idx : list Z) : M unit :=
  match idx with
  | [] => mret ()
  | i :: idx => _ ← on_tree (DeleteAt i); delete_loop idx
  end.

Definition Del (ctx : Ctx W) (v : list T) (options : list (OpOption W)) : M (Z * option err) :=
  '(opts, oe) ← ResolveOpOptions CallDel options;
  match oe with
  | Some e => mret (0%Z, Some e)
  | None =>
  locked (
    f ← getb;
    if closed f then mret (0%Z, Some (Sentinel ErrClosed))
    else
      '(rmIdx, removed, _) ← ranging (del_body v) (t f) ([], [], 0%Z);
      if (zlen removed =? 0)%Z then e ← RunSideEffect (SideEffect opts); mret (0%Z, e)
      else
      iferr e := RunSideEffect (SideEffect opts) then mret (0%Z, Some e) else
      f ← getb;
      iferr e :=
        match backup f with
        | None => mret None
        | Some b => e ← call (bk_Del b ctx removed); mret (WrapBackup e)
        end
      then mret (0%Z, Some e) else
      f ← getb;
      let removedHydrated := zlen (filter (λ idx, idx < hydrated f)%Z rmIdx) in
      delete_loop (reverse rmIdx);;
      updb (dropHydrated removedHydrated);;
      SignalIfWaiters notFull_l;;
      mret (zlen removed, None))
  end.

Definition NotEmpty (ctx : Ctx W) (options : list (OpOption W)) : M (option err) :=
  '(opts, oe) ← ResolveOpOptions CallNotEmpty options;
  match oe with
  | Some e => mret (Some e)
  | None =>
  forever (
    RLock;;
    f ← getb;
    if closed f then RUnlock;; return_ (Some (Sentinel ErrClosed))
    else if (0 <? f_Len f)%Z then
      e ← RunSideEffectLocked (SideEffect opts) RUnlock;
      RUnlock;;
      return_ e
    else
      iferr e := Wait notEmpty_l ctx RUnlock
      then r ← ClosedOrCause ctx; return_ r
      else continue_)
  end.

Definition NotFull (ctx : Ctx W) (options : list (OpOption W)) : M (option err) :=
  '(opts, oe) ← ResolveOpOptions CallNotFull options;
  match oe with
  | Some e => mret (Some e)
  | None =>
  forever (
    RLock;;
    f ← getb;
    if closed f then RUnlock;; return_ (Some (Sentinel ErrClosed))
    else if ((maxSize f =? 0) || (f_Len f - hydrated f + inflight f <? maxSize f))%Z then
      e ← RunSideEffectLocked (SideEffect opts) RUnlock;
      RUnlock;;
      return_ e
    else
      iferr e := Wait notFull_l ctx RUnlock
      then r ← ClosedOrCause ctx; return_ r
      else continue_)
  end.

Definition Len : M Z := rlocked (f ← getb; mret (f_Len f)).

Definition Close (ctx : Ctx W) (options : list (OpOption W)) : M (option err) :=
  '(opts, oe) ← ResolveOpOptions CallClose options;
  match oe with
  | Some e => mret (Some e)
  | None =>
  Lock;;
  f ← getb;
  if closed f then
    e ← RunSideEffectLocked (SideEffect opts) Unlock;
    Unlock;;
    mret e
  else
    iferr e := RunSideEffectLocked (SideEffect opts) Unlock then Unlock;; mret (Some e) else
    f ← getb;
    let closeAndWake :=
      updb (set_closed true);;
      Unlock;;
      DoSignal notEmpty_l;;
      DoSignal notFull_l in
    e ← match backup f with
        | None => mret None
        | Some b => RunBackup (bk_Close b ctx) closeAndWake
        end;
    updb (set_closed true);;
    Unlock;;
    DoSignal notEmpty_l;;
    DoSignal notFull_l;;
    mret e
  end.

Definition Clear (ctx : Ctx W) (options : list (OpOption W)) : M (option err) :=
  '(opts, oe) ← ResolveOpOptions CallClear options;
  match oe with
  | Some e => mret (Some e)
  | None =>
  locked (
    f ← getb;
    if closed f then mret (Some (Sentinel ErrClosed))
    else if (f_Len f =? 0)%Z then RunSideEffect (SideEffect opts)
    else
      iferr e := RunSideEffect (SideEffect opts) then mret (Some e) else
      f ← getb;
      iferr e :=
        match backup f with
        | None => mret None
        | Some b => e ← call (bk_Clear b ctx); mret (WrapBackup e)
        end
      then mret (Some e) else
      updb (λ f, set_hydrated 0 (set_tree (nodes f) (Btree.Clear (t f)) f));;
      SignalIfWaiters notFull_l;;
      mret None)
  end.

(** The body of the loops of All and AllCOW. *)
Definition all_body (ctx : Ctx W) (yield : T → option err → code W bool) (_ : unit) (v : T) :
    M (unit * bool) :=
  d ← ctx_done ctx;
  match d with
  | Some cause => call (yield zero (Some cause));; mret ((), false)
  | None => more ← call (yield v None); mret ((), more)
  end.

Definition All (ctx : Ctx W) (yield : T → option err → code W bool) : M unit :=
  rlocked (
    f ← getb;
    if closed f then call (yield zero (Some (Sentinel ErrClosed)));; mret ()
    else ranging (all_body ctx yield) (t f) ()).

(** The loop over the snapshot holds no lock, so the other goroutines may run between its items. *)
Definition AllCOW (ctx : Ctx W) (yield : T → option err → code W bool) : M unit :=
  Lock;;
  f ← getb;
  if closed f then Unlock;; call (yield zero (Some (Sentinel ErrClosed)));; mret ()
  else
    snap ← on_tree (λ tr, '(tr, snap) ← CopyInto tr; mret (snap, tr));
    Unlock;;
    defer (_ ← on_nodes (Release snap); mret ())
      (ranging (λ a v, Window;; all_body ctx yield a v) snap ()).
End btype.
