(* ===== verification/BtypeRefines.v ===== *)
(** The B-tree FIFO backing implements the contract, whatever snapshots are held of its tree. First the
    loops over a tree, which read its nodes between calls of the loop body, then the tree's operations on
    the backing's nodes, then the operations of the backing. *)

From stdpp Require Import gmap.
From S2P Require Import Prelude Btree BtreeOwn BtreeRules BtreeRemove BtreeDescend BtreeTree BtreeFacts.
From S2P Require Import BtreeSnapshot.
From S2P Require Import Errors Machine Core Contract Logic ContractFacts SeqOrder BtypeFifo.

(** * Loops over a tree *)

Section range_list.
Context {W T : Type}.

(** The loop over a list that a loop over a tree amounts to. *)
Fixpoint range_list {B A} (yield : A → T → go B W (A * bool)) (l : list T) (a : A) : go B W (A * bool) :=
  match l with
  | [] => mret (a, true)
  | x :: l => '(a, go) ← yield a x; if go : bool then range_list yield l a else mret (a, false)
  end.

Lemma yield_all_keyed {B A} (y : A → T → go B W (A * bool)) l a s :
  Btree.yield_all (λ a x, y a x.2) (pair () <$> l) a s = range_list y l a s.
Proof.
  revert a s. induction l as [|x l IH]; intros a s; [done|]. cbn [fmap list_fmap Btree.yield_all range_list].
  unfold mbind, go_bind. cbn [snd]. by destruct (y a x s) as [[[a' []]| | |] s'].
Qed.

Lemma yield_all_app {B A} (y : A → unit * T → go B W (A * bool)) xs ys a s :
  Btree.yield_all y (xs ++ ys) a s =
  ('(a, go) ← Btree.yield_all y xs a; if go : bool then Btree.yield_all y ys a else mret (a, false)) s.
Proof.
  revert a s. induction xs as [|x xs IH]; intros a s; [done|]. cbn [app Btree.yield_all].
  unfold mbind, go_bind in *. destruct (y a x s) as [[[a' []]| | |] s']; done.
Qed.
End range_list.

Section ranges.
Context {W T : Type} `{!Item W T} `{!World W}.
Abbreviation keyed l := (pair () <$> l).
Abbreviation F := (BtypeFifo.Backing W T).
Context {B A : Type}.
Variable y1 : A → unit * T → go F W (A * bool).
Variable y2 : A → unit * T → go B W (A * bool).
(** What holds between two calls of the body: the nodes of the tree are there, unchanged. *)
Variable Z : gmap nat (node unit T).
Variable J : mach F W → mach B W → Prop.
Variable U : mach F W → mach B W → Prop.
Hypothesis J_nodes : ∀ s1 s2, J s1 s2 → in_store Z (nodes (mb s1)).
Hypothesis J_body : ∀ a x s1 s2, J s1 s2 →
  rwp (y1 a x) (y2 a x) (λ r1 r2 t1 t2, r1 = r2 ∧ J t1 t2) U s1 s2.

Abbreviation ends := (λ (r1 r2 : A * bool) t1 t2, r1 = r2 ∧ J t1 t2).

Lemma rwp_ext_r {A1 A2} (m1 : go F W A1) (m m' : go B W A2) Q V s1 s2 :
  m s2 = m' s2 → rwp m1 m' Q V s1 s2 → rwp m1 m Q V s1 s2.
Proof. unfold rwp. by intros ->. Qed.

Lemma rwp_yield_all xs a s1 s2 :
  J s1 s2 → rwp (Btree.yield_all y1 xs a) (Btree.yield_all y2 xs a) ends U s1 s2.
Proof.
  revert a s1 s2. induction xs as [|x xs IH]; intros a s1 s2 Hj; cbn [Btree.yield_all]; [by apply rwp_ret|].
  apply rwp_bind. eapply rwp_mono; [|done|by apply J_body].
  intros [a' go] r2 t1 t2 [<- Hj']. destruct go; [by apply IH|by apply rwp_ret].
Qed.

Lemma load_node_ok d s1 s2 : J s1 s2 → reps Z d →
  ∃ nd its ds, load_node (r_loc d) s1 = (Done nd, s1) ∧ node_of d its ds ∧ Forall (reps Z) ds ∧
    items nd = its ∧ nbranch nd = nbranch (mknode its 0 (r_h d) ds).
Proof.
  intros Hj Hd. destruct (reps_node _ _ Hd) as (its & c & ds & Hl & Hnode & Hds).
  destruct (J_nodes _ _ Hj _ _ Hl) as (nd & Hnd & Hi & Hb). exists nd, its, ds. split_and!; try done.
  unfold load_node, mbind, go_bind, getb. by rewrite Hnd.
Qed.

(** A child before each item, and the last one. *)
Lemma rwp_interleave (visit : nat → A → go F W (A * bool)) its ds a s1 s2 :
  (∀ d a s1 s2, d ∈ ds → J s1 s2 →
    rwp (visit (r_loc d) a) (Btree.yield_all y2 (r_xs d) a) ends U s1 s2) →
  length ds = S (length its) → J s1 s2 →
  rwp (interleave gopanic y1 visit (r_loc <$> ds) its a) (Btree.yield_all y2 (contents its ds) a) ends U s1 s2.
Proof.
  revert ds a s1 s2. induction its as [|x its IH]; intros ds a s1 s2 Hvisit Hl Hj.
  - destruct ds as [|d [|]]; try discriminate. rewrite contents_one. cbn. apply Hvisit; [set_solver|done].
  - destruct ds as [|d ds]; [discriminate|]. rewrite contents_cons. cbn [fmap list_fmap interleave].
    eapply rwp_ext_r; [apply yield_all_app|]. apply rwp_bind.
    eapply rwp_mono; [|done|apply Hvisit; [set_solver|done]].
    intros [a1 go] r2 t1 t2 [<- Hj1]. destruct go; [|by apply rwp_ret]. cbn [Btree.yield_all].
    apply rwp_bind. eapply rwp_mono; [|done|by apply J_body].
    intros [a2 go] r2 t1' t2' [<- Hj2]. destruct go; [|by apply rwp_ret].
    apply IH; [intros; apply Hvisit; [set_solver|done]|cbn in Hl; lia|done].
Qed.

Lemma rwp_nodeAll fuel d a s1 s2 :
  J s1 s2 → reps Z d → r_h d < fuel →
  rwp (nodeAll load_node gopanic y1 fuel (r_loc d) a) (Btree.yield_all y2 (r_xs d) a) ends U s1 s2.
Proof.
  revert d a s1 s2. induction fuel as [|fuel IH]; intros d a s1 s2 Hj Hd Hf; [lia|]. cbn [nodeAll].
  destruct (load_node_ok _ _ _ Hj Hd) as (nd & its & ds & Hload & (Hlen & _ & Hfit & ->) & Hds & Hi & Hb).
  eapply rwp_eval_l; [exact Hload|]. rewrite Hb, Hi. destruct (r_h d) as [|h] eqn:Eh; cbn [nbranch mknode].
  - cbn in Hfit. subst ds. rewrite contents_leaf. by apply rwp_yield_all.
  - destruct Hfit as [Hl Hk]. rewrite Forall_forall in Hds, Hk. apply rwp_interleave; [|lia|done].
    intros e a' t1 t2 He Hj'. destruct (Hk e He) as [? _]. apply IH; [done|by apply Hds|lia].
Qed.
End ranges.

Section loops.
Context {W T : Type} `{!Item W T} `{!World W}.
Abbreviation keyed l := (pair () <$> l).
Abbreviation F := (BtypeFifo.Backing W T).

(** A loop over a tree and a loop over the list of its items. *)
Lemma rwp_ranging {B A} (y1 : A → T → go F W (A * bool)) (y2 : A → T → go B W (A * bool)) Z
    (J U : mach F W → mach B W → Prop) tr l a s1 s2 :
  (∀ s1 s2, J s1 s2 → in_store Z (nodes (mb s1))) →
  (∀ a x s1 s2, J s1 s2 → rwp (y1 a x) (y2 a x) (λ r1 r2 t1 t2, r1 = r2 ∧ J t1 t2) U s1 s2) →
  read_from Z tr (keyed l) → J s1 s2 →
  rwp (ranging y1 tr a) ('(a, _) ← range_list y2 l a; mret a) (λ r1 r2 t1 t2, r1 = r2 ∧ J t1 t2) U s1 s2.
Proof.
  intros Hn Hy (Hc & Ht) Hj. unfold ranging, all0. rewrite Hc, zlen_fmap.
  destruct l as [|x l].
  { apply (rwp_ret a a). by split. }
  rewrite (proj2 (Z.ltb_lt _ _)) by (rewrite zlen_cons; pose proof (zlen_nonneg l); lia).
  destruct (root tr) as [r|]; [|done]. destruct Ht as (d & <- & Hx & Hk & Hd).
  apply rwp_bind. eapply rwp_ext_r; [symmetry; apply yield_all_keyed|]. rewrite <-Hx.
  eapply rwp_mono; [|done|].
  2:{ apply (rwp_nodeAll _ (λ a x, y2 a x.2) Z J U Hn); [intros; by apply Hy|done|done|].
      pose proof (rep_height _ _ Hd Hk) as Hh. unfold depth. rewrite Hc. rewrite <-Hx in *.
      unfold zlen. by rewrite Nat2Z.id. }
  intros [a' go] r2 t1 t2 [<- Hj']. by apply rwp_ret.
Qed.

(** The body does nothing to the backing. *)
Definition still {A} (y : A → T → go F W (A * bool)) : Prop := ∀ a x s, mb (y a x s).2 = mb s.

Lemma ranging_list {A} (y : A → T → go F W (A * bool)) Z tr l a s :
  still y → read_from Z tr (keyed l) → in_store Z (nodes (mb s)) →
  ranging y tr a s = ('(a, _) ← range_list y l a; mret a) s.
Proof.
  intros Hy Hr Hs.
  assert (rwp (ranging y tr a) ('(a, _) ← range_list y l a; mret a)
    (λ r1 r2 t1 t2, r1 = r2 ∧ t1 = t2 ∧ mb t1 = mb s) (λ t1 t2, t1 = t2) s s) as Hrun.
  { apply (rwp_ranging y y Z (λ t1 t2, t1 = t2 ∧ mb t1 = mb s)); try done.
    - intros t1 t2 [_ ->]. done.
    - intros a' x t1 t2 [<- Hb]. specialize (Hy a' x t1). unfold rwp.
      destruct (y a' x t1) as [[] t]; cbn in Hy; by rewrite ?Hb in *. }
  unfold rwp in Hrun. destruct (ranging y tr a s) as [[] t1], (('(a, _) ← range_list y l a; mret a) s) as [[] t2];
    naive_solver.
Qed.
End loops.

(** * The relation *)

Section refinement.
Context {W T : Type} `{!Item W T} `{!World W} `{Fz : !Frozen unit T}.

Abbreviation F := (BtypeFifo.Backing W T).
Abbreviation Q := (QState W T).
Abbreviation nobefore := (λ _ _ : T, false).
Abbreviation keyed l := (pair () <$> l).

Implicit Types (f : BtypeFifo.Backing W T) (q : QState W T) (l : list T).

(** The tree holds the items [l], beside the frozen snapshots. *)
Definition holds f l : Prop := tree_own (nodes f) (t f) (keyed l) [].

Record btype_rel (f : F) (q : Q) : Prop := {
  br_tree : holds f (e_item <$> q_items q);
  br_hydrated : positional (hydrated f) (q_items q);
  br_maxSize : q_maxSize q = maxSize f;
  br_inflight : q_inflight q = inflight f;
  br_notFull : q_notFull q = notFull f;
  br_notEmpty : q_notEmpty q = notEmpty f;
  br_closed : q_closed q = closed f;
  br_backup : q_backup q = backup f;
}.

Lemma holds_len f l : holds f l → f_Len f = zlen l.
Proof. intros (Hn & _). unfold f_Len, Btree.Len. by rewrite Hn, zlen_fmap. Qed.

Lemma br_len f q : btype_rel f q → f_Len f = zlen (q_items q).
Proof. intros Hr. by rewrite (holds_len _ _ (br_tree _ _ Hr)), zlen_fmap. Qed.

Lemma br_load f q : btype_rel f q → (f_Len f - hydrated f + inflight f)%Z = Contract.load q.
Proof.
  intros Hr. unfold Contract.load. rewrite (br_len _ _ Hr), (br_inflight _ _ Hr).
  by rewrite (positional_exempt _ _ (br_hydrated _ _ Hr)).
Qed.

(** Fields other than the contents and the restored count may change together. *)
Lemma btype_rel_with f q f' q' :
  btype_rel f q →
  nodes f' = nodes f → t f' = t f → hydrated f' = hydrated f → q_items q' = q_items q →
  q_maxSize q' = maxSize f' → q_inflight q' = inflight f' → q_notFull q' = notFull f' →
  q_notEmpty q' = notEmpty f' → q_closed q' = closed f' → q_backup q' = backup f' →
  btype_rel f' q'.
Proof.
  intros [Ht Hy] Hn Htr Hh Hi. unfold holds in *.
  constructor; try done; [unfold holds; by rewrite Hn, Htr, Hi|by rewrite Hh, Hi].
Qed.

Lemma btype_inflight_rel : lens_rel btype_rel BtypeFifo.inflight_l Contract.inflight_l.
Proof.
  split; [intros f q Hr; symmetry; apply (br_inflight _ _ Hr)|].
  intros x f q Hr. apply (btype_rel_with f q); try done; apply Hr.
Qed.
Lemma btype_notFull_rel : lens_rel btype_rel BtypeFifo.notFull_l Contract.notFull_l.
Proof.
  split; [intros f q Hr; symmetry; apply (br_notFull _ _ Hr)|].
  intros x f q Hr. apply (btype_rel_with f q); try done; apply Hr.
Qed.
Lemma btype_notEmpty_rel : lens_rel btype_rel BtypeFifo.notEmpty_l Contract.notEmpty_l.
Proof.
  split; [intros f q Hr; symmetry; apply (br_notEmpty _ _ Hr)|].
  intros x f q Hr. apply (btype_rel_with f q); try done; apply Hr.
Qed.
Lemma btype_closed_rel c f q :
  btype_rel f q → btype_rel (BtypeFifo.set_closed c f) (Contract.set_closed c q).
Proof. intros Hr. apply (btype_rel_with f q); try done; apply Hr. Qed.
Lemma btype_backup_rel b f q :
  btype_rel f q → btype_rel (BtypeFifo.set_backup b f) (Contract.set_backup b q).
Proof. intros Hr. apply (btype_rel_with f q); try done; apply Hr. Qed.

Hint Resolve btype_inflight_rel btype_notFull_rel btype_notEmpty_rel btype_closed_rel
  btype_backup_rel : backing_rel.

(** ** The tree's operations *)

(** Only the tree and the nodes changed. *)
Definition moved f f' : Prop := f' = set_tree (nodes f') (t f') f.

Lemma moved_refl f : moved f f.
Proof. by destruct f. Qed.

Lemma moved_trans f f' f'' : moved f f' → moved f' f'' → moved f f''.
Proof. unfold moved. intros -> ->. done. Qed.

Lemma moved_rel f f' q (le : list (entry T)) :
  btype_rel f q → moved f f' → holds f' (e_item <$> le) → positional (hydrated f) le →
  btype_rel f' (set_items le q).
Proof. intros [] -> Hl Hp. by constructor. Qed.

(** [m] runs on the backing without unwinding, gives [a], and leaves [l']. *)
Definition tree_runs {A} (m : go F W A) f (a : A) l' : Prop := ∀ k w e, ∃ f',
  m (Mach f k w e) = (Done a, Mach f' k w e) ∧ moved f f' ∧ holds f' l'.

Lemma tree_runs_ret {A} f (a : A) l : holds f l → tree_runs (mret a) f a l.
Proof. intros Hf k w e. exists f. split; [done|]. split; [apply moved_refl|done]. Qed.

Lemma tree_runs_bind {A C} (m : go F W A) (j : A → go F W C) f a c l l' :
  tree_runs m f a l → (∀ f', moved f f' → holds f' l → tree_runs (j a) f' c l') →
  tree_runs (m ≫= j) f c l'.
Proof.
  intros Hm Hj k w e. destruct (Hm k w e) as (f' & Hrun & Hmv & Hf').
  destruct (Hj f' Hmv Hf' k w e) as (f'' & Hrun' & Hmv' & Hf''). exists f''. split_and!; [|by eapply moved_trans|done].
  unfold mbind, go_bind in *. by rewrite Hrun.
Qed.

Lemma on_tree_ok {A} (m : tree unit T → sto unit T (A * tree unit T)) f a l' :
  runs (m (t f)) (nodes f) (λ '(a', tr) ns, a' = a ∧ tree_own ns tr (keyed l') []) →
  tree_runs (on_tree m) f a l'.
Proof.
  intros Hm k w e. unfold runs in Hm. destruct (m (t f) (nodes f)) as [[[a' tr] ns]|] eqn:E; [|done].
  destruct Hm as [-> Htr]. exists (set_tree ns tr f). split; [|by destruct f].
  unfold on_tree, on_nodes, mbind, go_bind, getb, updb, mret, go_ret. cbn. by rewrite E.
Qed.

Lemma push_ok v f l : holds f l → tree_runs (on_tree (PushBack ((), v))) f true (l ++ [v]).
Proof.
  intros Hf. apply on_tree_ok. eapply runs_mono; [by eapply PushBack_ok|].
  intros [b tr] ns (-> & Htr & _). by rewrite fmap_app.
Qed.

Lemma pop_ok f l : holds f l → tree_runs (on_tree PopFront) f (pair () <$> head l) (tail l).
Proof.
  intros Hf. apply on_tree_ok. eapply runs_mono; [by eapply PopFront_ok|].
  intros [x tr] ns (-> & Htr & _). by destruct l.
Qed.

Lemma delete_ok i f l : holds f l → i < length l →
  ∃ x, tree_runs (on_tree (DeleteAt (Z.of_nat i))) f x (delete i l).
Proof.
  intros Hf Hi. eexists. apply on_tree_ok. eapply runs_mono; [by eapply DeleteAt_all|].
  intros [x tr] ns (-> & Htr). split; [done|]. rewrite decide_True, Nat2Z.id in Htr by lia.
  rewrite !delete_take_drop in *. by rewrite fmap_app, fmap_take, fmap_drop.
Qed.

Lemma push_loop_ok vs f l : holds f l → tree_runs (push_loop vs) f () (l ++ vs).
Proof.
  revert f l. induction vs as [|v vs IH]; intros f l Hf; cbn [push_loop].
  - rewrite app_nil_r. by apply tree_runs_ret.
  - eapply tree_runs_bind; [by apply push_ok|]. intros f' _ Hf'.
    rewrite cons_middle, (assoc_L (++)). by apply IH.
Qed.

Lemma pop_loop_ok k out f l :
  holds f l → k ≤ length l → tree_runs (pop_loop k out) f (out ++ take k l) (drop k l).
Proof.
  revert f l out. induction k as [|k IH]; intros f l out Hf Hk; cbn [pop_loop].
  - rewrite take_0, app_nil_r. by apply tree_runs_ret.
  - destruct l as [|x l]; [cbn in Hk; lia|]. eapply tree_runs_bind; [by apply pop_ok|].
    intros f' _ Hf'. cbn. replace (out ++ x :: take k l) with ((out ++ [x]) ++ take k l)
      by (by rewrite <-(assoc_L (++))). apply IH; [done|cbn in Hk; lia].
Qed.

Lemma rwp_tree_runs {A C D} (m : go F W A) (k : A → go F W C) (m2 : go Q W D) f a l' P U lk w e s2 :
  tree_runs m f a l' →
  (∀ f', moved f f' → holds f' l' → rwp (k a) m2 P U (Mach f' lk w e) s2) →
  rwp (m ≫= k) m2 P U (Mach f lk w e) s2.
Proof.
  intros Hm Hk. destruct (Hm lk w e) as (f' & Hrun & Hmv & Hf'). eapply rwp_eval_l; [exact Hrun|].
  by apply Hk.
Qed.

(** ** Operations that only look *)

Ltac rfields Hr ::=
  rewrite <- ?(br_closed _ _ Hr), <- ?(br_maxSize _ _ Hr), <- ?(br_backup _ _ Hr),
    ?(br_load _ _ Hr), ?(br_len _ _ Hr).

(** One step of [rauto]. *)
Ltac rone := first [rdone | progress rhelper | rstep].

Ltac rloop :=
  apply (rwp_forever btype_rel); [rdone|done|];
  clear; intros [? ? ? ?] [? ? ? ?] [Hr Hk Hw He]; simpl in *; subst.

Lemma btype_ClosedOrCause_refines ctx :
  refines btype_rel (BtypeFifo.ClosedOrCause ctx) (Contract.ClosedOrCause ctx).
Proof. refine_start. unfold BtypeFifo.ClosedOrCause, Contract.ClosedOrCause. rauto. Qed.

Hint Resolve btype_ClosedOrCause_refines : backing_rel.

Lemma btype_NotEmpty_refines ctx options :
  refines btype_rel (BtypeFifo.NotEmpty ctx options) (Contract.NotEmpty ctx options).
Proof. refine_start. unfold BtypeFifo.NotEmpty, Contract.NotEmpty. rstart. rloop. rauto. Qed.

Lemma btype_NotFull_refines ctx options :
  refines btype_rel (BtypeFifo.NotFull ctx options) (Contract.NotFull ctx options).
Proof. refine_start. unfold BtypeFifo.NotFull, Contract.NotFull. rstart. rloop. rauto. Qed.

Lemma btype_Len_refines : refines btype_rel BtypeFifo.Len Contract.Len.
Proof.
  refine_start. unfold BtypeFifo.Len, Contract.Len, rlocked, Contract.reading.
  rauto. rewrite (br_len _ _ Hr). rauto.
Qed.

Lemma btype_Close_refines ctx options :
  refines btype_rel (BtypeFifo.Close ctx options) (Contract.Close ctx options).
Proof. refine_start. unfold BtypeFifo.Close, Contract.Close. rstart. rauto. Qed.

Lemma front_ok f x l : holds f (x :: l) → tree_runs (on_tree Front) f (Some ((), x)) (x :: l).
Proof.
  intros Hf. apply on_tree_ok. eapply runs_mono; [eapply Front_ok, tree_own_reads, Hf|].
  intros [o tr] ns (-> & -> & ->). done.
Qed.

(** Nothing moved, so the relation stays. *)
Lemma moved_same f f' q :
  btype_rel f q → moved f f' → holds f' (e_item <$> q_items q) → btype_rel f' q.
Proof.
  intros Hr Hm Hf. pose proof (moved_rel _ _ _ _ Hr Hm Hf (br_hydrated _ _ Hr)) as Hr'.
  by destruct q.
Qed.

Lemma btype_Peek_refines ctx options :
  refines btype_rel (BtypeFifo.Peek ctx options) (Contract.Peek ctx options).
Proof.
  refine_start. unfold BtypeFifo.Peek, Contract.Peek, rlocked, Contract.reading. rstart.
  rauto. destruct (q_items q) as [|[x r] l] eqn:Eq; simpl; [rauto|].
  pose proof (br_tree _ _ Hr) as Hf. rewrite Eq in Hf. eapply rwp_tree_runs; [by eapply front_ok|].
  intros f' Hmv Hf'.
  assert (holds f' (e_item <$> q_items q)) as Hq by by rewrite Eq.
  pose proof (moved_same _ _ _ Hr Hmv Hq) as Hr'. clear Hr. rename Hr' into Hr. cbn [default snd fmap option_fmap option_map].
  rauto.
Qed.

(** ** Push and Hydrate *)

Lemma pushed_rel vs f f' q :
  btype_rel f q → moved f f' → holds f' ((e_item <$> q_items q) ++ vs) →
  btype_rel f' (set_items (insert_all nobefore vs false (q_items q)) q).
Proof.
  intros Hr Hmv Hf. rewrite insert_all_fifo. eapply moved_rel; [exact Hr|done| |].
  - by rewrite fmap_app, fmap_item_entry.
  - apply positional_admit, Hr.
Qed.

Lemma btype_Push_refines ctx vs options :
  refines btype_rel (BtypeFifo.Push ctx vs options) (Contract.Push false nobefore ctx vs options).
Proof.
  refine_start. unfold BtypeFifo.Push, Contract.Push. rstart.
  rstep. rhelper; [|rdone]. destruct e as [e|]; [rstep; rdone|].
  rloop. rauto.
  all: eapply rwp_tree_runs; [apply push_loop_ok, (br_tree _ _ Hr)|]; intros f' Hmv Hf'.
  all: rewrite (br_len _ _ Hr); apply rwp_updb_r.
  all: pose proof (pushed_rel _ _ _ _ Hr Hmv Hf') as Hr'; clear Hr; rename Hr' into Hr.
  all: revert Hr; generalize (set_items (insert_all nobefore vs false (q_items q)) q); intros ? Hr; rauto.
Qed.

Lemma hydrated_rel v f f' q :
  btype_rel f q → Forall (λ x, e_restored x = true) (q_items q) → moved f f' →
  holds f' ((e_item <$> q_items q) ++ [v]) →
  btype_rel (set_hydrated (hydrated f' + 1) f')
    (set_items (insert_entry nobefore (Entry v true) (q_items q)) q).
Proof.
  intros Hr Hall Hmv Hf. rewrite insert_entry_fifo.
  pose proof (positional_restored _ _ v (br_hydrated _ _ Hr) Hall) as Hp.
  assert (hydrated f' = hydrated f) as Hh by by rewrite Hmv.
  rewrite <-Hh in Hp. destruct Hr. constructor; simpl; try (by rewrite Hmv); [|done].
  unfold holds in *. simpl. by rewrite fmap_app.
Qed.

Lemma btype_hydrate_loop_refines ctx b steps f q k w e1 e2 :
  btype_rel f q → Forall (λ x, e_restored x = true) (q_items q) →
  Forall2 (env_rel btype_rel) e1 e2 →
  rwp (hydrate_loop ctx b steps) (hydrate_from false nobefore ctx b steps)
    (λ a1 a2 t1 t2, a1 = a2 ∧ mrel btype_rel t1 t2) (mrel btype_rel)
    (Mach f k w e1) (Mach q k w e2).
Proof.
  intros Hr Hall He. revert f q w Hr Hall.
  induction steps as [|step steps IH]; intros f q w Hr Hall; simpl; rauto.
  eapply rwp_tree_runs; [apply push_ok, (br_tree _ _ Hr)|]. intros f' Hmv Hf'.
  apply rwp_updb_l, rwp_updb_r. apply IH; [by eapply hydrated_rel|].
  simpl. rewrite insert_entry_fifo. apply Forall_app. by repeat constructor.
Qed.

(** Hydrate runs on a new backing, before anyone else can see it. *)
Lemma btype_Hydrate_refines ctx b s1 s2 :
  mrel btype_rel s1 s2 → menv s1 = [] → q_items (mb s2) = [] →
  rwp (BtypeFifo.Hydrate ctx b) (Contract.Hydrate false nobefore ctx b)
    (λ a1 a2 t1 t2, a1 = a2 ∧ mrel btype_rel t1 t2) (mrel btype_rel) s1 s2.
Proof.
  destruct s1 as [f k w e1], s2 as [q k' w' e2]. intros [Hr Hk Hw He] He1 Hq; simpl in *; subst.
  apply Forall2_nil_inv_l in He as ->.
  unfold BtypeFifo.Hydrate, Contract.Hydrate, locked, writing.
  apply rwp_bind. unfold rwp, Lock, acquire, interfere; simpl. destruct k'; [|done..].
  apply rwp_defer. eapply rwp_mono; [| |apply btype_hydrate_loop_refines];
    [| |done|by rewrite Hq|done].
  - intros a1 a2 [? ? ? ?] [? ? ? ?] [-> [Hr' Hk' Hw' He']]; simpl in *; subst. rauto.
  - intros [? ? ? ?] [? ? ? ?] Hm; pose proof Hm as [Hr' Hk' Hw' He']; simpl in *; subst. rauto.
Qed.

(** ** Clear *)

Lemma cleared_rel f q :
  btype_rel f q →
  btype_rel (set_hydrated 0 (set_tree (nodes f) (Btree.Clear (t f)) f)) (set_items [] q).
Proof.
  intros Hr. pose proof (br_tree _ _ Hr) as Ht. destruct Hr. constructor; try done; [|by exists 0].
  unfold holds in *. simpl. by eapply Clear_ok.
Qed.

Lemma btype_Clear_refines ctx options :
  refines btype_rel (BtypeFifo.Clear ctx options) (Contract.Clear ctx options).
Proof.
  refine_start. unfold BtypeFifo.Clear, Contract.Clear, locked, writing. rstart.
  rauto. all: apply rwp_updb_l, rwp_updb_r; rrelate btype_rel; [by apply cleared_rel|rauto].
Qed.

(** ** Loops under the lock *)

Lemma rwp_ranging_l {A C D} (y : A → T → go F W (A * bool)) (k : A → go F W C) (m2 : go Q W D)
    f l a P U lk w e s2 :
  holds f l → still y →
  rwp ('(a, _) ← range_list y l a; k a) m2 P U (Mach f lk w e) s2 →
  rwp (ranging y (t f) a ≫= k) m2 P U (Mach f lk w e) s2.
Proof.
  intros Hf Hy. destruct (tree_read_from _ _ _ _ _ Hf) as (N & Hread & Hin). apply rwp_ext_l.
  unfold mbind at 1, go_bind at 1. rewrite (ranging_list y N (t f) l a) by done.
  unfold mbind, go_bind. by destruct (range_list y l a _) as [[[]| | |] ?].
Qed.

Lemma still_all ctx yield : still (all_body (W := W) ctx yield).
Proof.
  intros a x s. unfold all_body, ctx_done, mbind, go_bind, updw, getw, mret, go_ret, call. simpl.
  destruct (ctx_cause ctx (tick (mw s))); simpl.
  - by destruct (yield zero _ _) as [[] ?].
  - by destruct (yield x None _) as [[] ?].
Qed.

Lemma rwp_all_list ctx yield l (f : F) (q : Q) k w e1 e2 :
  mrel btype_rel (Mach f k w e1) (Mach q k w e2) →
  rwp ('(a, _) ← range_list (all_body ctx yield) l (); mret a) (Contract.yield_all ctx yield l)
    (λ _ _, mrel btype_rel) (mrel btype_rel) (Mach f k w e1) (Mach q k w e2).
Proof.
  intros [Hr Hk Hw He]. simpl in *. clear Hk Hw. revert w.
  induction l as [|x l IH]; intros w; simpl; [apply (rwp_ret () ()); by apply mrel_mach|].
  apply rwp_assoc_l. unfold all_body at 1. apply rwp_assoc_l. apply rwp_bind.
  rhelper. destruct e as [cause|].
  - apply rwp_assoc_l, rwp_bind, rwp_call; intros; [|by apply mrel_mach]. apply (rwp_ret () ()). by apply mrel_mach.
  - apply rwp_assoc_l, rwp_bind, rwp_call; intros; [|by apply mrel_mach]. apply rwp_ret_l.
    destruct a; [apply IH|]. apply (rwp_ret () ()). by apply mrel_mach.
Qed.

(** The loop of All ends the function. *)
Lemma rwp_ranging_end {A D} (y : A → T → go F W (A * bool)) (m2 : go Q W D) f l a P U lk w e s2 :
  holds f l → still y →
  rwp ('(a, _) ← range_list y l a; mret a) m2 P U (Mach f lk w e) s2 →
  rwp (ranging y (t f) a) m2 P U (Mach f lk w e) s2.
Proof.
  intros Hf Hy. destruct (tree_read_from _ _ _ _ _ Hf) as (N & Hread & Hin). apply rwp_ext_l.
  by apply (ranging_list y N (t f) l a).
Qed.

Lemma btype_All_refines ctx yield :
  refines btype_rel (BtypeFifo.All ctx yield) (Contract.All false ctx yield).
Proof.
  refine_start. unfold BtypeFifo.All, Contract.All, rlocked, Contract.reading. rauto.
  eapply rwp_ranging_end; [apply (br_tree _ _ Hr)|apply still_all|].
  eapply rwp_mono; [| |by apply rwp_all_list; apply mrel_mach].
  - intros [] [] [? ? ? ?] [? ? ? ?] [Hr' Hk' Hw' He']; simpl in *; subst. rauto.
  - intros [? ? ? ?] [? ? ? ?] Hm'; pose proof Hm' as [Hr' Hk' Hw' He']; simpl in *; subst. rauto.
Qed.

Lemma still_exists v se : still (exists_body (W := W) v se).
Proof.
  intros a x s. unfold exists_body, RunSideEffect, mbind, go_bind, mret, go_ret, call. simpl.
  destruct (Equal x v (mw s)) as [[[]|] ?]; simpl; [|done..].
  destruct se as [c|]; simpl; [|done]. destruct (c _) as [[[]|] ?]; done.
Qed.

Lemma rwp_exists_list v se l (f : F) (q : Q) k w e1 e2 :
  mrel btype_rel (Mach f k w e1) (Mach q k w e2) →
  rwp ('(a, _) ← range_list (exists_body v se) l None;
       match a with Some r => mret r | None => e ← RunSideEffect se; mret (false, e) end)
    (m ← Contract.scan v l; e ← RunSideEffect se; mret (m, e))
    (λ a1 a2 t1 t2, a1 = a2 ∧ mrel btype_rel t1 t2) (mrel btype_rel) (Mach f k w e1) (Mach q k w e2).
Proof.
  intros [Hr Hk Hw He]. simpl in *. clear Hk Hw. revert w.
  induction l as [|x l IH]; intros w; simpl.
  - apply rwp_ret_l, rwp_ret_r. rauto.
  - apply rwp_assoc_l, rwp_assoc_r. unfold exists_body at 1. apply rwp_assoc_l, rwp_bind, rwp_call; intros.
    2: by apply mrel_mach.
    destruct a.
    + apply rwp_assoc_l, rwp_ret_r. rauto.
    + apply rwp_ret_l. apply IH.
Qed.

Lemma btype_Exists_refines ctx v options :
  refines btype_rel (BtypeFifo.Exists_ ctx v options) (Contract.Exists_ ctx v options).
Proof.
  refine_start. unfold BtypeFifo.Exists_, Contract.Exists_, rlocked, Contract.reading. rstart.
  do 7 rone; [rauto|].
  eapply rwp_ranging_l; [apply (br_tree _ _ Hr)|apply still_exists|].
  eapply rwp_mono; [| |by apply rwp_exists_list; apply mrel_mach].
  - intros a1 a2 [? ? ? ?] [? ? ? ?] [-> [Hr' Hk' Hw' He']]; simpl in *; subst. rauto.
  - intros [? ? ? ?] [? ? ? ?] Hm'; pose proof Hm' as [Hr' Hk' Hw' He']; simpl in *; subst. rauto.
Qed.

(** ** Del *)

(** The positions that are marked, from [i] on. *)
Fixpoint positions (i : Z) (ms : list bool) : list Z :=
  match ms with
  | [] => []
  | m :: ms => (if m then [i] else []) ++ positions (i + 1) ms
  end.

Lemma still_MatchesAny x v (s : mach F W) : mb (MatchesAny x v s).2 = mb s.
Proof.
  revert s. induction v as [|y v IH]; intros s; [done|]. simpl.
  unfold mbind, go_bind, call. destruct (Equal x y (mw s)) as [[[]|] ?]; try done. by rewrite IH.
Qed.

Lemma still_del v : still (del_body (W := W) v).
Proof.
  intros [[rmIdx removed] i] x s. unfold del_body, mbind, go_bind. pose proof (still_MatchesAny x v s) as Hs.
  by destruct (MatchesAny x v s) as [[] ?].
Qed.

Lemma rwp_del_list v l idx removed i (P : _ → list bool → mach F W → mach Q W → Prop) U
    (f : F) (q : Q) k w e1 e2 :
  (∀ ms w, length ms = length l →
    P (idx ++ positions i ms, removed ++ select true ms l, (i + zlen l)%Z, true) ms
      (Mach f k w e1) (Mach q k w e2)) →
  (∀ w, U (Mach f k w e1) (Mach q k w e2)) →
  rwp (range_list (del_body v) l (idx, removed, i)) (Contract.matching v l) P U
    (Mach f k w e1) (Mach q k w e2).
Proof.
  intros HP HU. revert idx removed i w P HP. induction l as [|x l IH]; intros idx removed i w P HP; simpl.
  - apply rwp_ret. specialize (HP [] w eq_refl). simpl in HP. by rewrite !app_nil_r, Z.add_0_r in HP.
  - unfold del_body at 1. apply rwp_assoc_l, rwp_bind, rwp_MatchesAny; [|done]. intros m w'.
    apply rwp_ret_l. cbv beta iota. apply (rwp_map_r (cons m)). destruct m; apply IH; intros ms w'' Hms.
    + specialize (HP (true :: ms) w''). simpl in HP. rewrite <-!(assoc_L (++)).
      rewrite zlen_cons, Z.add_assoc in HP. apply HP. by rewrite Hms.
    + specialize (HP (false :: ms) w''). simpl in HP.
      rewrite zlen_cons, Z.add_assoc in HP. apply HP. by rewrite Hms.
Qed.

Lemma delete_loop_app a b (s : mach F W) : delete_loop (a ++ b) s = (delete_loop a;; delete_loop b) s.
Proof.
  revert s. induction a as [|i a IH]; intros s; [done|]. cbn [app delete_loop].
  unfold mbind, go_bind in *. by destruct (on_tree (DeleteAt i) s) as [[] ?].
Qed.

Lemma tree_runs_ext {A} (m m' : go F W A) f a l :
  (∀ s, m s = m' s) → tree_runs m' f a l → tree_runs m f a l.
Proof. intros Hm Hr k w e. rewrite Hm. apply Hr. Qed.

(** Deleting from the last position down removes what is marked. *)
Lemma delete_loop_ok ms l pre f :
  length ms = length l → holds f (pre ++ l) →
  tree_runs (delete_loop (reverse (positions (zlen pre) ms))) f () (pre ++ select false ms l).
Proof.
  revert ms pre f. induction l as [|x l IH]; intros [|m ms] pre f Hl Hf; try discriminate.
  { by apply tree_runs_ret. }
  cbn [positions select]. rewrite reverse_app. eapply tree_runs_ext; [apply delete_loop_app|].
  replace (zlen pre + 1)%Z with (zlen (pre ++ [x])) by by rewrite zlen_app.
  eapply tree_runs_bind; [apply IH; [by injection Hl|by rewrite <-(assoc_L (++))]|].
  intros f' _ Hf'. rewrite <-(assoc_L (++)) in Hf'. destruct m; cbn [Bool.eqb].
  - change (reverse [zlen pre]) with [zlen pre]. cbn [delete_loop].
    destruct (delete_ok (length pre) f' _ Hf') as (y & Hy); [rewrite length_app; cbn; lia|].
    eapply tree_runs_bind; [exact Hy|]. intros f'' _ Hf''. apply tree_runs_ret.
    cbn [app] in Hf''. by rewrite delete_middle in Hf''.
  - by apply tree_runs_ret.
Qed.

Lemma removed_hydrated h ms (le : list (entry T)) i n m :
  length ms = length le → e_restored <$> le = replicate n true ++ replicate m false →
  n = Z.to_nat (h - i) →
  zlen (filter (λ idx, idx < h)%Z (positions i ms)) = exempt (select true ms le).
Proof.
  revert ms i n m. induction le as [|[x r] le IH]; intros [|b ms] i n m Hl Hr Hn; try discriminate; [done|].
  assert (r = (i <? h)%Z ∧ ∃ n' m', e_restored <$> le = replicate n' true ++ replicate m' false ∧
      n' = Z.to_nat (h - (i + 1))) as (-> & n' & m' & Hr' & Hn').
  { destruct n as [|n].
    - destruct m as [|m]; simpl in Hr; [done|]. injection Hr as -> Hr.
      split; [symmetry; apply Z.ltb_ge; lia|]. exists 0, m. split; [done|lia].
    - simpl in Hr. injection Hr as -> Hr. split; [symmetry; apply Z.ltb_lt; lia|].
      exists n, m. split; [done|lia]. }
  injection Hl as Hl. cbn [positions select]. specialize (IH ms (i + 1)%Z n' m' Hl Hr' Hn').
  rewrite filter_app, zlen_app, IH. destruct b; cbn [Bool.eqb]; [|done].
  rewrite exempt_cons. cbn [e_restored]. f_equal.
  destruct (i <? h)%Z eqn:E; bool_to_prop.
  - by rewrite filter_cons_True.
  - by rewrite filter_cons_False by lia.
Qed.

Lemma btype_kept_rel ms f f' q :
  btype_rel f q → length ms = length (q_items q) → moved f f' →
  holds f' (select false ms (e_item <$> q_items q)) →
  btype_rel (dropHydrated (exempt (select true ms (q_items q))) f')
    (set_items (select false ms (q_items q)) q).
Proof.
  intros Hr Hms Hmv Hf. pose proof (positional_select _ ms _ Hms (br_hydrated _ _ Hr)) as Hp.
  assert (0 ≤ hydrated f - exempt (select true ms (q_items q)))%Z by (destruct Hp as (n & -> & _); lia).
  assert (hydrated f' = hydrated f) as Hh by by rewrite Hmv. unfold dropHydrated. rewrite Hh.
  rewrite <-select_fmap in Hf.
  replace (if (hydrated f <=? _)%Z then _ else _) with
    (set_hydrated (hydrated f - exempt (select true ms (q_items q))) f').
  - destruct Hr. by constructor; try (by rewrite Hmv).
  - case_match; bool_to_prop; [|done]. f_equal. lia.
Qed.

Lemma btype_Del_refines ctx v options :
  refines btype_rel (BtypeFifo.Del ctx v options) (Contract.Del ctx v options).
Proof.
  refine_start. unfold BtypeFifo.Del, Contract.Del, locked, writing. rstart.
  do 7 rone; [rauto|].
  eapply rwp_ranging_l; [apply (br_tree _ _ Hr)|apply still_del|].
  apply rwp_bind, rwp_del_list; [|intros; rauto].
  intros ms w' Hms. rewrite !app_nil_l. cbv beta iota. rewrite length_fmap in Hms. rauto.
  all: destruct (br_hydrated _ _ Hr) as (n & Hn & Hle & Hpos).
  all: rewrite (removed_hydrated (hydrated b) ms (q_items q) 0 n (length (q_items q) - n)) by (done || lia).
  all: eapply rwp_tree_runs; [apply (delete_loop_ok ms (e_item <$> q_items q) []); [by rewrite length_fmap|apply (br_tree _ _ Hr)]|].
  all: intros f' Hmv Hf'; apply rwp_updb_l, rwp_updb_r; rrelate btype_rel; [|rauto].
  all: by apply (btype_kept_rel ms _ _ _ Hr).
Qed.

(** ** Pop *)

Lemma still_peek k : still (W := W) (peek_body (T := T) k).
Proof. done. Qed.

(** The loop that peeks breaks after [k] items. *)
Lemma peek_list k l out (s : mach F W) :
  length out < k →
  ∃ b, range_list (peek_body (Z.of_nat k)) l out s = (Done (out ++ take (k - length out) l, b), s).
Proof.
  revert out. induction l as [|x l IH]; intros out Hk.
  - exists true. by rewrite take_nil, app_nil_r.
  - cbn [range_list]. unfold mbind, go_bind.
    change (peek_body (Z.of_nat k) out x s)
      with (Done (out ++ [x], negb (zlen (out ++ [x]) =? Z.of_nat k)%Z), s).
    assert (length (out ++ [x]) = S (length out)) as Hlen by (rewrite length_app; cbn; lia).
    unfold zlen. rewrite Hlen. destruct (Z.of_nat (S (length out)) =? Z.of_nat k)%Z eqn:E; cbn [negb].
    + apply Z.eqb_eq in E. exists false. replace (k - length out) with 1 by lia. cbn. by rewrite take_0.
    + apply Z.eqb_neq in E. destruct (IH (out ++ [x])) as [b Hb]; [lia|]. exists b. rewrite Hb.
      rewrite Hlen, <-(assoc_L (++)). by replace (k - length out) with (S (k - S (length out))) by lia.
Qed.

Lemma popped_rel k f f' q :
  btype_rel f q → k ≤ length (q_items q) → moved f f' → holds f' (drop k (e_item <$> q_items q)) →
  btype_rel (dropHydrated (Z.min (Z.of_nat k) (hydrated f')) f') (set_items (drop k (q_items q)) q).
Proof.
  intros Hr Hk Hmv Hf. pose proof (positional_drop _ _ k (br_hydrated _ _ Hr)) as Hp.
  assert (0 ≤ hydrated f)%Z by (destruct (br_hydrated _ _ Hr) as (n & -> & _); lia).
  rewrite <-drop_hydrated_eq in Hp by lia. assert (hydrated f' = hydrated f) as Hh by by rewrite Hmv.
  rewrite <-fmap_drop in Hf. unfold dropHydrated. rewrite Hh.
  replace (if (hydrated f <=? _)%Z then _ else _) with
    (set_hydrated (if (hydrated f <=? Z.min (Z.of_nat k) (hydrated f))%Z then 0
                   else hydrated f - Z.min (Z.of_nat k) (hydrated f))%Z f') by by case_match.
  destruct Hr. by constructor; try (by rewrite Hmv).
Qed.

Lemma rwp_unit_r {A1 A2} (m1 : go F W A1) (m2 : go Q W A2) P U s1 s2 :
  rwp m1 (m2 ≫= mret) P U s1 s2 → rwp m1 m2 P U s1 s2.
Proof. unfold rwp, mbind, go_bind. by destruct (m2 s2) as [[] ?]. Qed.

Lemma btype_pop_count n (q : Q) :
  (1 ≤ n)%Z → (0 <? zlen (q_items q))%Z = true → ∃ k, 0 < k ≤ length (q_items q) ∧
    Z.to_nat (n `min` zlen (q_items q)) = k ∧
    (if (zlen (q_items q) <? n)%Z then zlen (q_items q) else n) = Z.of_nat k.
Proof.
  intros Hn Hl. bool_to_prop. exists (Z.to_nat (n `min` zlen (q_items q))).
  split_and!; [unfold zlen in *; lia..|]. case_match; bool_to_prop; unfold zlen in *; lia.
Qed.

Lemma btype_Pop_refines ctx n options :
  (1 ≤ n)%Z → refines btype_rel (BtypeFifo.Pop ctx n options) (Contract.Pop ctx n options).
Proof.
  intros Hn. refine_start. unfold BtypeFifo.Pop, Contract.Pop. rstart.
  apply (rwp_forever btype_rel); [rdone|done|].
  revert Hn; clear; intros Hn [? ? ? ?] [? ? ? ?] [Hr Hk Hw He]; simpl in *; subst.
  rauto.
  all: match goal with Hlen : (0 <? zlen (q_items ?q))%Z = true |- _ =>
    destruct (btype_pop_count n q Hn Hlen) as (k & Hkl & -> & ->) end; rewrite fmap_take.
  all: pose proof (br_tree _ _ Hr) as Hf; rewrite ?Nat2Z.id.
  all: assert (∀ f', moved b f' → holds f' (drop k (e_item <$> q_items q)) →
    btype_rel (dropHydrated (Z.of_nat k `min` hydrated f') f') (set_items (drop k (q_items q)) q)) as Hpop
    by (intros f' Hmv Hf'; apply (popped_rel k b f' q Hr); [lia|done..]).
  1: eapply rwp_ranging_l; [exact Hf|apply still_peek|].
  1: destruct (peek_list k (e_item <$> q_items q) [] (Mach b WLocked w0 e)) as [br Hpeek]; [cbn; lia|].
  1: eapply rwp_eval_l; [exact Hpeek|]; cbv beta iota; cbn [app length]; rewrite Nat.sub_0_r.
  1: apply rwp_unit_r, rwp_bind, rwp_RunBackup; [intros [oe|] w'; [by rauto|]|intros; by rauto].
  all: eapply rwp_tree_runs; [apply pop_loop_ok; [exact Hf|rewrite length_fmap; lia]|].
  all: intros f' Hmv Hf'; apply rwp_ret, rwp_updb_l, rwp_updb_r; rrelate btype_rel; [by apply Hpop|rauto].
Qed.
End refinement.
