(* ===== verification/BtypeFacts.v ===== *)
(** The B-tree FIFO backing: it implements the contract, with any snapshots of its tree around, and its
    copy-on-write iteration yields what the queue held when it began. *)

From stdpp Require Import gmap.
From S2P Require Import Prelude Btree BtreeOwn BtreeRules BtreeTree BtreeFacts BtreeSnapshot.
From S2P Require Import Errors Machine Core Contract Logic ContractFacts Interface SeqOrder.
From S2P Require Import BtypeFifo BtypeRefines.

Section facts.
Context {W T : Type} `{!Item W T} `{!World W}.

Abbreviation F := (BtypeFifo.Backing W T).
Abbreviation Q := (QState W T).
Abbreviation nobefore := (λ _ _ : T, false).
Abbreviation keyed l := (pair () <$> l).
Implicit Types (f : BtypeFifo.Backing W T) (q : QState W T) (Fz : Frozen unit T).

Definition btype_ops : Ops F W T :=
  MkOps BtypeFifo.Push BtypeFifo.Pop BtypeFifo.Peek BtypeFifo.Exists_ BtypeFifo.Del BtypeFifo.NotEmpty
    BtypeFifo.NotFull BtypeFifo.Len BtypeFifo.Close BtypeFifo.Clear BtypeFifo.All.

#[export] Instance btype_implements Fz :
  Implements (btype_rel (Fz := Fz)) btype_ops false false nobefore.
Proof.
  split; simpl; eauto using btype_Push_refines, btype_Pop_refines, btype_Peek_refines,
    btype_Exists_refines, btype_Del_refines, btype_NotEmpty_refines, btype_NotFull_refines,
    btype_Len_refines, btype_Close_refines, btype_Clear_refines, btype_All_refines.
Qed.

(** ** The invariant *)

(** The tree beside the frozen snapshots, the count of restored items, the bound, and who may be
    parked; [l] are the items. *)
Record btype_inv Fz f (l : list T) : Prop := {
  bi_tree : holds (Fz := Fz) f l;
  bi_hydrated : (0 ≤ hydrated f ≤ zlen l)%Z;
  bi_maxSize : (0 ≤ maxSize f)%Z;
  bi_bound : (0 < maxSize f)%Z → (zlen l - hydrated f + inflight f ≤ maxSize f)%Z;
  bi_inflight : (0 ≤ inflight f)%Z;
  bi_notFull : signal_ok (notFull f);
  bi_notEmpty : signal_ok (notEmpty f);
  bi_wake : l ≠ [] → sg_parked (notEmpty f) = [];
  bi_closed : closed f = true → sg_parked (notFull f) = [] ∧ sg_parked (notEmpty f) = [];
}.

Lemma btype_inv_of Fz f q : btype_rel (Fz := Fz) f q → Inv 0 q → btype_inv Fz f (e_item <$> q_items q).
Proof.
  intros Hr [Hm Hb Hi Hf He Hw Hc]. pose proof (br_load f q Hr) as Hload. pose proof (br_len f q Hr) as Hlen.
  destruct Hr as [Ht (n & Hn & Hle & _) Hms Hin Hnf Hne Hcl _].
  constructor; rewrite <- ?Hms, <- ?Hin, <- ?Hnf, <- ?Hne, <- ?Hcl, ?zlen_fmap; try done.
  - unfold zlen. lia.
  - rewrite <- Hin, Hlen in Hload. lia.
  - intros Hl. apply Hw. intros Hnil. by rewrite Hnil in Hl.
Qed.

(** The queue a backing stands for. *)
Definition btype_queue f (l : list T) : Q :=
  MkQ (restored_prefix (hydrated f) l) (maxSize f) (inflight f) (notFull f) (notEmpty f) (closed f)
    (backup f).

Lemma btype_queue_rel Fz f l : btype_inv Fz f l → btype_rel (Fz := Fz) f (btype_queue f l).
Proof.
  intros [Ht Hh _ _ _ _ _ _ _]. destruct (restored_prefix_ok (hydrated f) l Hh) as [Hit Hp].
  constructor; try done; simpl. by rewrite Hit.
Qed.

Lemma btype_queue_inv Fz f l : btype_inv Fz f l → Inv 0 (btype_queue f l).
Proof.
  intros Hf. pose proof (btype_queue_rel _ _ _ Hf) as Hr. pose proof (br_load _ _ Hr) as Hload.
  destruct (restored_prefix_ok (hydrated f) l (bi_hydrated _ _ _ Hf)) as [Hit _].
  rewrite (holds_len _ _ (bi_tree _ _ _ Hf)) in Hload. destruct Hf. constructor; simpl; try done.
  - intros Hmax. rewrite <- Hload. auto.
  - intros Hne. apply bi_wake0. intros Hl. apply Hne. unfold restored_prefix. by rewrite Hl.
Qed.

Lemma btype_inv_represents Fz f : (∃ l, btype_inv Fz f l) ↔ represents (btype_rel (Fz := Fz)) f.
Proof.
  split.
  - intros [l Hf]. exists (btype_queue f l). split; [by apply btype_queue_rel|by eapply btype_queue_inv].
  - intros (q & Hr & HI). eexists. by eapply btype_inv_of.
Qed.

(** * Properties *)

(** C11: Whatever operation a goroutine runs on the B-tree FIFO (copy-on-write iteration apart),
    from a state that satisfies the invariant, with any operations of other goroutines between its
    lock sections and any snapshots being read without the lock, it never misuses the lock, ends
    with the lock released, re-establishes the invariant, stays parked only when nobody else acts,
    and leaves every node under a snapshot as it was. *)
Theorem btype_safe Fz (o : Op W T) (others : list (Op W T)) f l w :
  btype_inv Fz f l → op_ok o → Forall op_ok others →
  let ok t := mlk t = Unlocked ∧ (∃ l', btype_inv Fz (mb t) l') ∧
    in_store (fz_nodes (Frozen := Fz)) (nodes (mb t)) in
  wp (exec btype_ops o) (λ _, ok) (λ u t, ok t ∧ (u = None → menv t = []))
    (Mach f Unlocked w (others_of btype_ops others)).
Proof.
  intros Hf Ho Hos ok. eapply wp_mono;
    [| |apply (impl_safe (btype_rel (Fz := Fz)) btype_ops false false nobefore)];
    [| |by apply btype_inv_represents; exists l|done|done]; simpl; unfold ok.
  - intros _ t. rewrite <-btype_inv_represents. intros (? & l' & Hl'). split_and!; [done|by exists l'|].
    eapply tree_own_in_store, Hl'.
  - intros u t. rewrite <-btype_inv_represents. intros (? & (l' & Hl') & ?).
    split_and!; [done|by exists l'| |done]. eapply tree_own_in_store, Hl'.
Qed.

(** Batches pushed onto an open B-tree FIFO with room come out in exactly the order they
    went in, behind what was there: Pop returns the first n of the old contents followed by the
    batches. *)
Theorem btype_order `{!PureItem W T} Fz ctx bs n f l w :
  btype_inv Fz f l → closed f = false → backup f = None → (1 ≤ n)%Z →
  Forall (λ v, prio v = 0%Z) (concat bs) →
  maxSize f = 0%Z ∨ (zlen l - hydrated f + inflight f + zlen (concat bs) ≤ maxSize f)%Z →
  l ++ concat bs ≠ [] →
  ∃ t, (push_all btype_ops ctx bs;; BtypeFifo.Pop ctx n []) (Mach f Unlocked w []) =
       (Done (take (Z.to_nat (Z.min n (zlen (l ++ concat bs)))) (l ++ concat bs), None), t).
Proof.
  intros Hf Hcl Hb Hn Hok Hfit Hne. pose proof (btype_queue_rel _ _ _ Hf) as Hr.
  destruct (restored_prefix_ok (hydrated f) l (bi_hydrated _ _ _ Hf)) as [Hit _].
  destruct (impl_push_pop (btype_rel (Fz := Fz)) btype_ops false false nobefore ctx bs n f
    (btype_queue f l) w) as [t Ht]; try done; [by apply btype_Pop_refines|..].
  - split; [done|]. split; [done|]. split; apply Hf.
  - eapply Forall_impl; [exact Hok|]. intros v Hv. unfold kind_ok. by rewrite Hv.
  - unfold fits. rewrite <- (br_load _ _ Hr), (holds_len _ _ (bi_tree _ _ _ Hf)). done.
  - rewrite insert_all_fifo. intros Hnil. apply Hne. apply (f_equal (fmap e_item)) in Hnil.
    rewrite fmap_app, fmap_item_entry in Hnil. simpl in Hnil. by rewrite Hit in Hnil.
  - exists t. etransitivity; [exact Ht|]. simpl.
    by rewrite fmap_take, insert_all_fifo, fmap_app, fmap_item_entry, Hit,
      <- zlen_fmap with (f := e_item), fmap_app, fmap_item_entry, Hit.
Qed.

(** * AllCOW *)

(** The specification: the items the queue holds at one moment under the lock, then one after the
    other with no lock, the other goroutines running in between. *)
Definition snap_body (ctx : Ctx W) (yield : T → option err → code W bool) (_ : unit) (v : T) :
    go Q W (unit * bool) :=
  Window;;
  d ← ctx_done ctx;
  match d with
  | Some cause => call (yield zero (Some cause));; mret ((), false)
  | None => more ← call (yield v None); mret ((), more)
  end.

Definition AllSnapshot (ctx : Ctx W) (yield : T → option err → code W bool) : go Q W unit :=
  Lock;;
  q ← getb;
  if q_closed q then Unlock;; call (yield zero (Some (Sentinel ErrClosed)));; mret ()
  else Unlock;; '(a, _) ← range_list (snap_body ctx yield) (e_item <$> q_items q) (); mret a.

(** Related machines, whose interference keeps every snapshot. *)
Definition beside Fz (s1 : mach F W) (s2 : mach Q W) : Prop :=
  mrel (btype_rel (Fz := Fz)) s1 s2 ∧
  ∀ Fz', Forall2 (env_rel (btype_rel (Fz := Fz'))) (menv s1) (menv s2).

Lemma beside_interfere Fz s1 s2 : beside Fz s1 s2 → beside Fz (interfere s1) (interfere s2).
Proof.
  destruct s1 as [f k w e1], s2 as [q k' w' e2]. intros [[Hr Hk Hw He] Hall]; simpl in *; subst.
  unfold interfere; simpl. destruct e1 as [|g1 e1], e2 as [|g2 e2]; [by split| | |];
    [by specialize (Hall Fz); inversion Hall|by specialize (Hall Fz); inversion Hall|].
  inversion He as [|? ? ? ? Hg He']; subst. destruct (Hg f q w' Hr) as [Hr' Hw'].
  destruct (g1 f w') as [f' w1], (g2 q w') as [q' w2]; simpl in *; subst.
  split; [by apply mrel_mach|]. intros Fz'. specialize (Hall Fz'). by inversion Hall.
Qed.

Lemma beside_world Fz f q k w e1 e2 k' w' :
  beside Fz (Mach f k w e1) (Mach q k w e2) → beside Fz (Mach f k' w' e1) (Mach q k' w' e2).
Proof. intros [[Hr Hk Hw He] Hall]; simpl in *. split; [by apply mrel_mach|done]. Qed.

Lemma snap_body_ok Fz ctx yield a v s1 s2 :
  beside Fz s1 s2 →
  rwp (Window;; all_body ctx yield a v) (snap_body ctx yield a v)
    (λ r1 r2 t1 t2, r1 = r2 ∧ beside Fz t1 t2) (beside Fz) s1 s2.
Proof.
  intros Hs. apply beside_interfere in Hs. unfold snap_body, all_body.
  apply (rwp_eval_l _ _ _ () (interfere s1)); [done|]. apply (rwp_eval_r _ _ _ () (interfere s2)); [done|].
  destruct (interfere s1) as [f k w e1], (interfere s2) as [q k' w' e2].
  pose proof Hs as [[_ Hk Hw _] _]; simpl in Hk, Hw; subst. apply rwp_bind, rwp_ctx_done. intros [c|] w.
  - apply rwp_bind, rwp_call; intros; [apply rwp_ret; split; [done|]|]; by eapply beside_world.
  - apply rwp_bind, rwp_call; intros; [apply rwp_ret; split; [done|]|]; by eapply beside_world.
Qed.

(** The loop returns or unwinds; so whatever is deferred runs. *)
Lemma range_ends {A} (y : A → T → go Q W (A * bool)) l a s :
  (∀ a x s, (∃ r t, y a x s = (Done r, t)) ∨ ∃ u t, y a x s = (Unwound u, t)) →
  (∃ r t, range_list y l a s = (Done r, t)) ∨ ∃ u t, range_list y l a s = (Unwound u, t).
Proof.
  intros Hy. revert a s. induction l as [|x l IH]; intros a s; cbn [range_list]; [left; by eexists _, _|].
  unfold mbind, go_bind. destruct (Hy a x s) as [([a' []] & t & ->)|(u & t & ->)];
    [apply IH|left; by eexists _, _|right; by eexists _, _].
Qed.

Lemma snap_body_ends ctx yield a x (s : mach Q W) :
  (∃ r t, snap_body ctx yield a x s = (Done r, t)) ∨ ∃ u t, snap_body ctx yield a x s = (Unwound u, t).
Proof.
  unfold snap_body, Window, ctx_done, mbind, go_bind, updw, getw, mret, go_ret, call. simpl.
  destruct (ctx_cause ctx _); simpl; (destruct (yield _ _ _) as [[] ?];
    [left|right]; by eexists _, _).
Qed.

Lemma rwp_defer_l {A} (r : go F W unit) (m1 : go F W A) (m2 : go Q W A) (J P : mach F W → mach Q W → Prop)
    s1 s2 :
  ((∃ a t, m2 s2 = (Done a, t)) ∨ ∃ u t, m2 s2 = (Unwound u, t)) →
  (∀ t1 t2, J t1 t2 → ∃ t1', r t1 = (Done (), t1') ∧ P t1' t2) →
  rwp m1 m2 (λ a1 a2 t1 t2, a1 = a2 ∧ J t1 t2) J s1 s2 →
  rwp (defer r m1) m2 (λ a1 a2 t1 t2, a1 = a2 ∧ P t1 t2) P s1 s2.
Proof.
  intros Hends Hr Hm. unfold rwp, defer in *.
  destruct Hends as [(a & t2 & E)|(u & t2 & E)]; rewrite E in *;
    destruct (m1 s1) as [[] t1]; try done; destruct Hm as [-> Hj];
    destruct (Hr _ _ Hj) as (t1' & -> & HP); done.
Qed.

(** Taking the snapshot freezes what it refers to; releasing it thaws that. *)
Lemma copy_ok Fz f q k w e :
  btype_rel (Fz := Fz) f q → ∃ snap f' Γ Fz',
    on_tree (λ tr, '(tr, snap) ← CopyInto tr; mret (snap, tr)) (Mach f k w e) =
      (Done snap, Mach f' k w e) ∧
    extends Fz Fz' Γ ∧ copy_of snap (keyed (e_item <$> q_items q)) Γ ∧ btype_rel (Fz := Fz') f' q.
Proof.
  intros Hr. pose proof (CopyInto_ok _ _ _ _ (br_tree _ _ Hr)) as Hcopy. unfold runs in Hcopy.
  unfold on_tree, on_nodes, mbind, go_bind, sto_bind, getb, updb, mret, go_ret, sto_ret. cbn [mb mlk mw menv].
  destruct (CopyInto (BtypeFifo.t f) (nodes f)) as [[[tr snap] ns]|]; [|done].
  destruct Hcopy as (Γ & Ht & Hc & _). apply tree_own_freeze in Ht as (Fz' & He & Ht).
  exists snap, (set_tree ns tr f), Γ, Fz'. split_and!; try done.
  destruct Hr. by constructor.
Qed.

Lemma release_ok Fz Fz' Γ snap l f q k w e :
  extends Fz Fz' Γ → copy_of snap (keyed l) Γ → btype_rel (Fz := Fz') f q →
  ∃ f', (_ ← on_nodes (Release snap); mret ()) (Mach f k w e) = (Done (), Mach f' k w e) ∧
    btype_rel (Fz := Fz) f' q.
Proof.
  intros He Hc Hr. pose proof (tree_own_thaw _ _ _ _ _ _ _ He (br_tree _ _ Hr)) as Ht.
  pose proof (tree_own_release _ _ _ _ _ _ _ Ht Hc) as Hrel. unfold runs in Hrel.
  unfold on_nodes, mbind, go_bind, mret, go_ret. cbn [mb mlk mw menv].
  destruct (Release snap (nodes f)) as [[? ns]|]; [|done].
  exists (set_tree ns (BtypeFifo.t f) f). split; [done|]. destruct Hr. by constructor.
Qed.

Lemma AllCOW_refines Fz ctx yield s1 s2 :
  beside Fz s1 s2 → mlk s1 = Unlocked →
  rwp (BtypeFifo.AllCOW ctx yield) (AllSnapshot ctx yield)
    (λ a1 a2 t1 t2, a1 = a2 ∧ beside Fz t1 t2) (beside Fz) s1 s2.
Proof.
  intros Hs Hk. pose proof (mrel_lk _ _ _ (proj1 Hs)) as Hk2. rewrite Hk in Hk2. symmetry in Hk2.
  apply beside_interfere in Hs. unfold BtypeFifo.AllCOW, AllSnapshot.
  assert (∀ {B} (s : mach B W), mlk s = Unlocked → Lock s =
    (Done (), Mach (mb (interfere s)) WLocked (mw (interfere s)) (menv (interfere s)))) as Hlock.
  { intros B s Hu. unfold Lock, acquire. by rewrite Hu. }
  eapply rwp_eval_l; [by apply Hlock|]. eapply rwp_eval_r; [by apply Hlock|].
  destruct (interfere s1) as [f k w e1], (interfere s2) as [q k' w' e2]. cbn [mb mw menv].
  clear Hk Hk2 Hlock s1 s2. pose proof Hs as [[Hr Hk Hw _] _]; simpl in Hr, Hk, Hw; subst.
  apply rwp_getb_l, rwp_getb_r. cbn [mb]. rewrite (br_closed _ _ Hr). destruct (closed f).
  { eapply rwp_eval_l; [done|]. eapply rwp_eval_r; [done|].
    apply rwp_bind, rwp_call; intros; [apply rwp_ret; split; [done|]|]; by eapply beside_world. }
  destruct (copy_ok _ _ _ WLocked w' e1 Hr) as (snap & f' & Γ & Fz' & Hcopy & He & Hc & Hr').
  eapply rwp_eval_l; [exact Hcopy|]. apply (rwp_eval_l _ _ _ () (Mach f' Unlocked w' e1)); [done|].
  apply (rwp_eval_r _ _ _ () (Mach q Unlocked w' e2)); [done|].
  assert (beside Fz' (Mach f' Unlocked w' e1) (Mach q Unlocked w' e2)) as Hs'.
  { destruct Hs as [_ Hall]. split; [by apply mrel_mach; [|apply Hall]|done]. }
  apply (rwp_defer_l _ _ _ (beside Fz')).
  - destruct (range_ends (snap_body ctx yield) (e_item <$> q_items q) () (Mach q Unlocked w' e2)
      (snap_body_ends ctx yield)) as [([a b] & t & Hrun)|(u & t & Hrun)]; [left|right];
      unfold mbind, go_bind; rewrite Hrun; by eexists _, _.
  - intros [f1 k1 w1 e1'] [q1 k2 w2 e2'] [[Hr1 Hk1 Hw1 _] Hall]; simpl in *; subst.
    destruct (release_ok _ _ _ _ _ _ _ k2 w2 e1' He Hc Hr1) as (f2 & Hrel & Hr2). eexists. split; [exact Hrel|].
    split; [by apply mrel_mach; [|apply Hall]|done].
  - apply (rwp_ranging _ (snap_body ctx yield) (fz_nodes (Frozen := Fz')) (beside Fz')).
    + intros t1 t2 [[Hb _ _ _] _]. eapply tree_own_in_store, (br_tree _ _ Hb).
    + intros a v t1 t2 Ht. by apply snap_body_ok.
    + by apply (copy_read_from Fz Fz' _ _ Γ).
    + done.
Qed.

(** C18: The copy-on-write iteration of the B-tree FIFO yields the items the queue held when it
    took its snapshot, one after the other and each once, whatever operations the other goroutines
    run between two of them: it does what a loop over that list does, with the same effect on the
    world, and then releases the snapshot. *)
Theorem btype_AllCOW Fz ctx yield (others : list (Op W T)) f l w :
  btype_inv Fz f l → Forall op_ok others →
  rwp (BtypeFifo.AllCOW ctx yield) (AllSnapshot ctx yield)
    (λ _ _ t1 t2, mw t1 = mw t2 ∧ mlk t1 = mlk t2 ∧ btype_rel (Fz := Fz) (mb t1) (mb t2))
    (λ t1 t2, mw t1 = mw t2 ∧ mlk t1 = mlk t2 ∧ btype_rel (Fz := Fz) (mb t1) (mb t2))
    (Mach f Unlocked w (others_of btype_ops others))
    (Mach (btype_queue f l) Unlocked w
       (others_of (contract_ops false false nobefore) others)).
Proof.
  intros Hf Hos. eapply rwp_mono; [| |apply (AllCOW_refines Fz)]; [| |split|done].
  - intros _ _ t1 t2 [_ [[Hb Hk Hw _] _]]. done.
  - intros t1 t2 [[Hb Hk Hw _] _]. done.
  - apply mrel_mach; [by apply btype_queue_rel|].
    by apply (others_related (btype_rel (Fz := Fz)) btype_ops false false nobefore).
  - intros Fz'. by apply (others_related (btype_rel (Fz := Fz')) btype_ops false false nobefore).
Qed.
End facts.
