(* ===== verification/OrdTree.v ===== *)
(** github.com/tidwall/btree, the ordered tree that package btree stores its entries in, as far as the
    package relies on it: the operations it calls as a class, and what the library documents of them as
    a class of laws over the items in order. The instance at the end, a sorted list searched from the
    front with the caller's comparator, shows that the laws can be had. *)

From Stdlib Require Import Sorting.Sorted.
From S2P Require Import Prelude Machine.

(** [BTreeG[E]] with a comparator that is caller code over [W]. Load and Delete compare; if the comparator
    unwinds they end with the tree in whatever state they had brought it to. [Items] is what Scan passes
    to its callback, in order, until the callback answers false. *)
Class OrdTree (W E : Type) := {
  BTreeG : Type;
  NewBTreeG : (E → E → code W bool) → Z → BTreeG;
  tree_less : BTreeG → E → E → code W bool;
  Items : BTreeG → list E;
  tree_Len : BTreeG → Z;
  tree_Load : E → code (BTreeG * W) unit;
  tree_Delete : E → code (BTreeG * W) unit;
  tree_Min : BTreeG → option E;
  tree_PopMin : BTreeG → option E * BTreeG;
  tree_Clear : BTreeG → BTreeG;
}.

Section order.
Context {E : Type} (lt : E → E → bool).

(** A strict weak order. *)
Record weak_order : Prop := {
  wo_asym x y : lt x y = true → lt y x = false;
  wo_negtrans x y z : lt y x = false → lt z y = false → lt z x = false;
}.

(** Strictly ascending: no two items of a tree are equivalent. *)
Definition ascending (l : list E) : Prop := StronglySorted (λ x y, lt x y = true) l.

(** The place of a new item, or of the equivalent one that it replaces. *)
Fixpoint put (x : E) (l : list E) : list E :=
  match l with
  | [] => [x]
  | y :: l => if lt y x then y :: put x l else if lt x y then x :: y :: l else x :: l
  end.

Definition equivalent (x y : E) : Prop := lt x y = false ∧ lt y x = false.
#[export] Instance equivalent_dec x y : Decision (equivalent x y).
Proof. unfold equivalent. apply _. Defined.

Definition without (x : E) (l : list E) : list E := filter (λ y, ¬ equivalent x y) l.

(** The comparator answers [lt] and does nothing else. *)
Definition pure_less {W} (less : E → E → code W bool) : Prop := ∀ x y w, less x y w = (Ok (lt x y), w).
End order.

(** What the documentation says of the operations, for a comparator that is a strict weak order. *)
Class OrdTreeLaws (W E : Type) `{!OrdTree W E} : Prop := {
  Items_New less degree : Items (NewBTreeG less degree) = [];
  less_New less degree : tree_less (NewBTreeG less degree) = less;
  Len_Items t : tree_Len t = zlen (Items t);
  Min_Items t : tree_Min t = head (Items t);
  PopMin_Items t : (tree_PopMin t).1 = head (Items t) ∧ Items (tree_PopMin t).2 = tail (Items t) ∧
    tree_less (tree_PopMin t).2 = tree_less t;
  Clear_Items t : Items (tree_Clear t) = [] ∧ tree_less (tree_Clear t) = tree_less t;
  Load_Items lt t x w : weak_order lt → pure_less lt (tree_less t) → ascending lt (Items t) →
    ∃ t', tree_Load x (t, w) = (Ok (), (t', w)) ∧ Items t' = put lt x (Items t) ∧
      tree_less t' = tree_less t;
  Delete_Items lt t x w : weak_order lt → pure_less lt (tree_less t) → ascending lt (Items t) →
    ∃ t', tree_Delete x (t, w) = (Ok (), (t', w)) ∧ Items t' = without lt x (Items t) ∧
      tree_less t' = tree_less t;
}.

(** * The laws hold of a sorted list *)

Module SortedList.
Section list.
Context {W E : Type}.

Record slist := MkSlist { elems : list E; less : E → E → code W bool }.

Fixpoint load (less : E → E → code W bool) (x : E) (l : list E) : code W (list E) :=
  match l with
  | [] => λ w, (Ok [x], w)
  | y :: l => λ w,
      match less y x w with
      | (Ok true, w) =>
          match load less x l w with (Ok l', w) => (Ok (y :: l'), w) | r => r end
      | (Ok false, w) =>
          match less x y w with
          | (Ok true, w) => (Ok (x :: y :: l), w)
          | (Ok false, w) => (Ok (x :: l), w)
          | (Unw u, w) => (Unw u, w)
          end
      | (Unw u, w) => (Unw u, w)
      end
  end.

Fixpoint delete (less : E → E → code W bool) (x : E) (l : list E) : code W (list E) :=
  match l with
  | [] => λ w, (Ok [], w)
  | y :: l => λ w,
      match less y x w with
      | (Ok true, w) =>
          match delete less x l w with (Ok l', w) => (Ok (y :: l'), w) | r => r end
      | (Ok false, w) =>
          match less x y w with
          | (Ok true, w) => (Ok (y :: l), w)
          | (Ok false, w) => (Ok l, w)
          | (Unw u, w) => (Unw u, w)
          end
      | (Unw u, w) => (Unw u, w)
      end
  end.

(** A change of the elements by code that compares. *)
Definition changing (f : (E → E → code W bool) → list E → code W (list E)) : code (slist * W) unit :=
  λ '(t, w), match f (less t) (elems t) w with
             | (Ok l, w) => (Ok (), (MkSlist l (less t), w))
             | (Unw u, w) => (Unw u, (t, w))
             end.

#[export] Instance ord : OrdTree W E := {|
  BTreeG := slist;
  NewBTreeG := λ less _, MkSlist [] less;
  tree_less := less;
  Items := elems;
  tree_Len := λ t, zlen (elems t);
  tree_Load := λ x, changing (λ less l, load less x l);
  tree_Delete := λ x, changing (λ less l, delete less x l);
  tree_Min := λ t, head (elems t);
  tree_PopMin := λ t, (head (elems t), MkSlist (tail (elems t)) (less t));
  tree_Clear := λ t, MkSlist [] (less t);
|}.

Lemma load_put (lt : E → E → bool) less x l w : pure_less lt less → load less x l w = (Ok (put lt x l), w).
Proof.
  intros Hp. induction l as [|y l IH]; [done|]. simpl. rewrite Hp. destruct (lt y x); [by rewrite IH|].
  rewrite Hp. by destruct (lt x y).
Qed.

Lemma without_id (lt : E → E → bool) x l : Forall (λ y, lt x y = true) l → without lt x l = l.
Proof.
  unfold without. induction 1 as [|y l Hy _ IH]; [done|]. rewrite filter_cons_True, IH; [done|].
  intros [Hn _]. congruence.
Qed.

Lemma delete_without (lt : E → E → bool) less x l w :
  weak_order lt → pure_less lt less → ascending lt l → delete less x l w = (Ok (without lt x l), w).
Proof.
  intros Ho Hp. unfold ascending. induction 1 as [|y l _ IH Hall]; [done|]. simpl. rewrite Hp.
  unfold without in *. destruct (lt y x) eqn:Hyx.
  { rewrite IH, filter_cons_True; [done|]. intros [_ Hn]. congruence. }
  assert (∀ z, z ∈ l → lt y z = true ∧ lt x z = true) as Hgt.
  { intros z Hz. rewrite Forall_forall in Hall. specialize (Hall z Hz). split; [done|].
    destruct (lt x z) eqn:Hxz; [done|]. by rewrite (wo_negtrans lt Ho z x y Hxz Hyx) in Hall. }
  assert (Forall (λ z, lt x z = true) l) as Hx by (apply Forall_forall; intros z Hz; by apply Hgt).
  rewrite Hp. apply (without_id lt) in Hx as Hid. unfold without in Hid. destruct (lt x y) eqn:Hxy.
  - rewrite filter_cons_True by (intros [Hn _]; congruence). by rewrite Hid.
  - rewrite filter_cons_False by (intros Hn; by apply Hn). by rewrite Hid.
Qed.

#[export] Instance ord_laws : OrdTreeLaws W E.
Proof.
  split; try done.
  - intros lt [l f] x w Ho Hp Hl. simpl in *. rewrite (load_put lt) by done. by eexists.
  - intros lt [l f] x w Ho Hp Hl. simpl in *. rewrite (delete_without lt) by done. by eexists.
Qed.
End list.
End SortedList.
