(* ===== verification/Ordered.v ===== *)
(** Package btree: the in-memory backing over an ordered tree (btree/btree.go), FIFO by sequence number
    or by priority, with its optional hash index. The tree is the third-party one of [OrdTree.v]. *)

From stdpp Require Import gmap.
From S2P Require Import Prelude Errors Machine Core Options OrdTree.

(** * The index: for each hash the entries that have it *)

Record btreeIndex (T : Type) := MkIndex { m : gmap Z (list (SeqItem T)) }.
Arguments MkIndex {T} _.
Arguments m {T} _.

Section index.
Context {T : Type}.
Implicit Types (x : btreeIndex T) (si : SeqItem T).

Definition newBtreeIndex : btreeIndex T := MkIndex ∅.

Definition bucket (hash : Z) x : list (SeqItem T) := default [] (m x !! hash).

Definition add (hash : Z) si x : btreeIndex T := MkIndex (<[hash := bucket hash x ++ [si]]> (m x)).

(** [s[i] = s[len(s)-1]; s = s[:len(s)-1]] for the first [i] with that sequence number. *)
Definition remove_seq (seq : Z) (s : list (SeqItem T)) : list (SeqItem T) :=
  match list_find (λ si, Seq si = seq) s, last s with
  | Some (i, _), Some z => take (length s - 1) (<[i := z]> s)
  | _, _ => s
  end.

Definition remove (hash seq : Z) x : btreeIndex T :=
  match remove_seq seq (bucket hash x) with
  | [] => MkIndex (delete hash (m x))
  | s => MkIndex (<[hash := s]> (m x))
  end.
End index.

(** * The backing *)

Record Backing (W T : Type) `{!OrdTree W (SeqItem T)} := MkBacking {
  tree : BTreeG (W := W) (E := SeqItem T);
  idx : option (btreeIndex T);
  nextSeq : Z;
  maxSize : Z;
  hydrateEnd : Z;
  hydrated : Z;
  inflight : Z;
  priority : bool;
  notFull : Signal;
  notEmpty : Signal;
  closed : bool;
  backup : option (Backup W T);
}.
Arguments MkBacking {W T _} _ _ _ _ _ _ _ _ _ _ _ _.
Arguments tree {W T _} _.
Arguments idx {W T _} _.
Arguments nextSeq {W T _} _.
Arguments maxSize {W T _} _.
Arguments hydrateEnd {W T _} _.
Arguments hydrated {W T _} _.
Arguments inflight {W T _} _.
Arguments priority {W T _} _.
Arguments notFull {W T _} _.
Arguments notEmpty {W T _} _.
Arguments closed {W T _} _.
Arguments backup {W T _} _.

Section ordered.
Context {W T : Type} `{!Item W T} `{!World W} `{!OrdTree W (SeqItem T)}.
Abbreviation P := (Backing W T).
Abbreviation M := (go (Backing W T) W).
Abbreviation SI := (SeqItem T).

Definition newBacking (o : BackingOpts) (less : SI → SI → code W bool) (prio : bool) : P + err :=
  if (Width o <? 2)%Z
  then inr (Errorf "WithBTreeWidth must be at least 2, got %d" [Sentinel ErrBadOption])
  else inl (MkBacking (NewBTreeG less (Width o)) (if Index o then Some newBtreeIndex else None)
              0 0 0 0 0 prio NewSignal NewSignal false None).

Definition NewFIFO (o : BackingOpts) : P + err := newBacking o FifoSeqLess false.
Definition NewPriority (o : BackingOpts) : P + err := newBacking o PrioritySeqLess true.

Definition set_tree t (b : P) : P :=
  MkBacking t (idx b) (nextSeq b) (maxSize b) (hydrateEnd b) (hydrated b) (inflight b) (priority b)
    (notFull b) (notEmpty b) (closed b) (backup b).
Definition set_idx x (b : P) : P :=
  MkBacking (tree b) x (nextSeq b) (maxSize b) (hydrateEnd b) (hydrated b) (inflight b) (priority b)
    (notFull b) (notEmpty b) (closed b) (backup b).
Definition set_nextSeq n (b : P) : P :=
  MkBacking (tree b) (idx b) n (maxSize b) (hydrateEnd b) (hydrated b) (inflight b) (priority b)
    (notFull b) (notEmpty b) (closed b) (backup b).
Definition set_maxSize n (b : P) : P :=
  MkBacking (tree b) (idx b) (nextSeq b) n (hydrateEnd b) (hydrated b) (inflight b) (priority b)
    (notFull b) (notEmpty b) (closed b) (backup b).
Definition set_hydrateEnd n (b : P) : P :=
  MkBacking (tree b) (idx b) (nextSeq b) (maxSize b) n (hydrated b) (inflight b) (priority b)
    (notFull b) (notEmpty b) (closed b) (backup b).
Definition set_hydrated n (b : P) : P :=
  MkBacking (tree b) (idx b) (nextSeq b) (maxSize b) (hydrateEnd b) n (inflight b) (priority b)
    (notFull b) (notEmpty b) (closed b) (backup b).
Definition set_closed c (b : P) : P :=
  MkBacking (tree b) (idx b) (nextSeq b) (maxSize b) (hydrateEnd b) (hydrated b) (inflight b)
    (priority b) (notFull b) (notEmpty b) c (backup b).
Definition set_backup bu (b : P) : P :=
  MkBacking (tree b) (idx b) (nextSeq b) (maxSize b) (hydrateEnd b) (hydrated b) (inflight b)
    (priority b) (notFull b) (notEmpty b) (closed b) bu.

Definition inflight_l : lens P Z := Lens inflight (λ i b,
  MkBacking (tree b) (idx b) (nextSeq b) (maxSize b) (hydrateEnd b) (hydrated b) i (priority b)
    (notFull b) (notEmpty b) (closed b) (backup b)).
Definition notFull_l : lens P Signal := Lens notFull (λ g b,
  MkBacking (tree b) (idx b) (nextSeq b) (maxSize b) (hydrateEnd b) (hydrated b) (inflight b)
    (priority b) g (notEmpty b) (closed b) (backup b)).
Definition notEmpty_l : lens P Signal := Lens notEmpty (λ g b,
  MkBacking (tree b) (idx b) (nextSeq b) (maxSize b) (hydrateEnd b) (hydrated b) (inflight b)
    (priority b) (notFull b) g (closed b) (backup b)).

Definition SetMaxBatch (n : Z) (b : P) : P * option err :=
  if (n <? 1)%Z then (b, Some (Errorf "max batch must be at least 1, got %d" [Sentinel ErrBadOption]))
  else (b, None).

Definition SetMaxSize (n : Z) (b : P) : P * option err :=
  if (n <? 0)%Z then (b, Some (Errorf "max size must be at least 0, got %d" [Sentinel ErrBadOption]))
  else (set_maxSize n b, None).

(** * The tree and the index of the backing *)

(** An operation of the tree that calls the comparator, and so caller code. *)
Definition on_tree {A} (c : code (BTreeG * W) A) : M A := λ s,
  match c (tree (mb s), mw s) with
  | (Ok a, (t, w)) => (Done a, Mach (set_tree t (mb s)) (mlk s) w (menv s))
  | (Unw u, (t, w)) => (Unwound u, Mach (set_tree t (mb s)) (mlk s) w (menv s))
  end.

Definition b_Len (b : P) : Z := tree_Len (tree b).

(** [b.tree.Scan(func(it) bool { ... })]; [A] holds the variables the callback assigns. *)
Fixpoint scan_items {A} (iter : A → SI → M (A * bool)) (l : list SI) (a : A) : M A :=
  match l with
  | [] => mret a
  | it :: l => '(a, more) ← iter a it; if more : bool then scan_items iter l a else mret a
  end.
Definition Scan {A} (iter : A → SI → M (A * bool)) (a : A) : M A :=
  b ← getb; scan_items iter (Items (tree b)) a.

Definition on_idx (f : btreeIndex T → btreeIndex T) : M unit := updb (λ b, set_idx (f <$> idx b) b).

Definition indexed (b : P) : bool := match idx b with Some _ => true | None => false end.

Definition locked {A} (body : M A) : M A := Lock;; defer Unlock body.
Definition rlocked {A} (body : M A) : M A := RLock;; defer RUnlock body.

Definition dropHydrated (seqs : list Z) (b : P) : P :=
  foldl (λ b seq,
    if ((seq <? hydrateEnd b) && (0 <? hydrated b))%Z
    then set_hydrated (hydrated b - 1)%Z b else b) b seqs.

Definition ClosedOrCause (ctx : Ctx W) : M (option err) :=
  RLock;;
  b ← getb;
  RUnlock;;
  if closed b then mret (Some (Sentinel ErrClosed))
  else w ← getw; mret (ctx_cause ctx w).

(** * Push *)

(** The hashes of a batch, taken before the first insert. *)
Fixpoint hash_all (vs : list T) : M (list Z) :=
  match vs with
  | [] => mret []
  | v :: vs => h ← call (Hash v); hs ← hash_all vs; mret (h :: hs)
  end.

(** The inserts; [hashes[i]] is only looked at when there is an index. *)
Fixpoint push_loop (i : nat) (hashes : list Z) (vs : list T) : M unit :=
  match vs with
  | [] => mret ()
  | v :: vs =>
      b ← getb;
      let si := MkSeqItem (nextSeq b) v in
      on_tree (tree_Load si);;
      updb (λ b, set_nextSeq (nextSeq b + 1)%Z b);;
      b ← getb;
      (if indexed b then
         match hashes !! i with
         | Some h => on_idx (add h si)
         | None => gopanic
         end
       else mret ());;
      push_loop (S i) hashes vs
  end.

Definition insert_batch (vs : list T) : M unit :=
  b ← getb;
  hashes ← (if indexed b then hash_all vs else mret []);
  push_loop 0 hashes vs.

Definition Push (ctx : Ctx W) (vs : list T) (options : list (OpOption W)) : M (option err) :=
  '(opts, oe) ← ResolveOpOptions CallPush options;
  match oe with
  | Some e => mret (Some e)
  | None =>
  b ← getb;
  iferr e := ValidateKind (priority b) vs then mret (Some e) else
  forever (
    Lock;;
    b ← getb;
    if closed b then Unlock;; return_ (Some (Sentinel ErrClosed))
    else if ((0 <? maxSize b) && (maxSize b <? zlen vs))%Z
    then Unlock;; return_ (Some (Sentinel ErrBatchTooLarge))
    else if ((maxSize b =? 0) ||
             (b_Len b - hydrated b + inflight b + zlen vs <=? maxSize b))%Z then
      iferr e :=
        match OnAdmit opts with
        | None => mret None
        | Some hook =>
            iferr e := RunOnAdmit inflight_l (zlen vs) notFull_l hook
            then mret (Some e)
            else
              b ← getb;
              if closed b
              then ReleaseReservation opts notFull_l;; mret (Some (Sentinel ErrClosed))
              else mret None
        end
      then Unlock;; return_ (Some e) else
      let give_back := ReleaseReservation opts notFull_l;; Unlock in
      iferr e := RunSideEffectLocked (SideEffect opts) give_back
      then give_back;; return_ (Some e) else
      b ← getb;
      iferr e :=
        match backup b with
        | None => mret None
        | Some bu => RunBackup (bk_Push bu ctx vs) give_back
        end
      then give_back;; return_ (Some e) else
      b ← getb;
      let wasEmpty := (b_Len b =? 0)%Z in
      RunLockedNoErr (insert_batch vs) give_back;;
      (if wasEmpty then SignalIfWaiters notEmpty_l else mret ());;
      Unlock;;
      return_ None
    else
      iferr e := Wait notFull_l ctx Unlock
      then r ← ClosedOrCause ctx; return_ r
      else continue_)
  end.

(** * Pop *)

(** The callback of the peek: the item, its hash if there is an index, and on while fewer than [k] are
    out. *)
Definition peek_iter (withidx : bool) (k : Z) (a : list T * list Z) (it : SI) :
    M (list T * list Z * bool) :=
  let '(out, hashes) := a in
  let out := out ++ [Item_ it] in
  hashes ← (if withidx then h ← call (Hash (Item_ it)); mret (hashes ++ [h]) else mret hashes);
  mret (out, hashes, (zlen out <? k)%Z).

(** [for i := 0; i < k; i++ { mn, _ := b.tree.PopMin() ... }]. *)
Fixpoint pop_loop (peeked : bool) (hashes : list Z) (k i : nat) (out : list T) : M (list T) :=
  match k with
  | O => mret out
  | S k =>
      b ← getb;
      let '(o, t) := tree_PopMin (tree b) in
      let mn := default (MkSeqItem 0 zero) o in
      updb (set_tree t);;
      let out := if peeked then out else out ++ [Item_ mn] in
      (if indexed b then
         match hashes !! i with
         | Some h => on_idx (remove h (Seq mn))
         | None => gopanic
         end
       else mret ());;
      updb (dropHydrated [Seq mn]);;
      pop_loop peeked hashes k (S i) out
  end.

Definition Pop (ctx : Ctx W) (n : Z) (options : list (OpOption W)) : M (list T * option err) :=
  '(opts, oe) ← ResolveOpOptions CallPop options;
  match oe with
  | Some e => mret ([], Some e)
  | None =>
  forever (
    Lock;;
    b ← getb;
    if closed b then Unlock;; return_ ([], Some (Sentinel ErrClosed))
    else if (0 <? b_Len b)%Z then
      let k := if (b_Len b <? n)%Z then b_Len b else n in
      iferr e := RunSideEffectLocked (SideEffect opts) Unlock
      then Unlock;; return_ ([], Some e) else
      (if (k <? 0)%Z then gopanic else mret ());;
      b ← getb;
      let peeked := indexed b || match backup b with Some _ => true | None => false end in
      '(out, hashes) ← (if peeked
        then RunLocked (Scan (peek_iter (indexed b) k) ([], [])) Unlock
        else mret ([], []));
      b ← getb;
      iferr e :=
        match backup b with
        | None => mret None
        | Some bu => RunBackup (bk_Del bu ctx out) Unlock
        end
      then Unlock;; return_ ([], Some e) else
      out ← pop_loop peeked hashes (Z.to_nat k) 0 out;
      SignalIfWaiters notFull_l;;
      Unlock;;
      return_ (out, None)
    else
      iferr e := Wait notEmpty_l ctx Unlock
      then r ← ClosedOrCause ctx; return_ ([], r)
      else continue_)
  end.

Definition Peek (ctx : Ctx W) (options : list (OpOption W)) : M (T * bool * option err) :=
  '(opts, oe) ← ResolveOpOptions CallPeek options;
  match oe with
  | Some e => mret (zero, false, Some e)
  | None =>
  rlocked (
    b ← getb;
    if closed b then mret (zero, false, Some (Sentinel ErrClosed))
    else match tree_Min (tree b) with
    | None => e ← RunSideEffect (SideEffect opts); mret (zero, false, e)
    | Some x => e ← RunSideEffect (SideEffect opts); mret (Item_ x, true, e)
    end)
  end.

(** * Exists and Del *)

(** The loop over a bucket returns from inside. *)
Fixpoint exists_loop (v : T) (se : option (code W (option err))) (l : list SI) : M (bool * option err) :=
  match l with
  | [] => e ← RunSideEffect se; mret (false, e)
  | si :: l =>
      m ← call (Equal (Item_ si) v);
      if m : bool then e ← RunSideEffect se; mret (true, e)
      else exists_loop v se l
  end.

Definition exists_iter (v : T) (found : bool) (it : SI) : M (bool * bool) :=
  m ← call (Equal (Item_ it) v);
  if m : bool then mret (true, false) else mret (found, true).

Definition Exists_ (ctx : Ctx W) (v : T) (options : list (OpOption W)) : M (bool * option err) :=
  '(opts, oe) ← ResolveOpOptions CallExists options;
  match oe with
  | Some e => mret (false, Some e)
  | None =>
  rlocked (
    b ← getb;
    if closed b then mret (false, Some (Sentinel ErrClosed))
    else match idx b with
    | Some x => h ← call (Hash v); exists_loop v (SideEffect opts) (bucket h x)
    | None =>
        found ← Scan (exists_iter v) false;
        e ← RunSideEffect (SideEffect opts);
        mret (found, e)
    end)
  end.

(** The entries of one bucket that are to go and were not seen before. *)
Fixpoint bucket_loop (v : list T) (l : list SI) (a : gset Z * list SI) : M (gset Z * list SI) :=
  match l with
  | [] => mret a
  | si :: l =>
      let '(seenSeq, toDel) := a in
      if decide (Seq si ∈ seenSeq) then bucket_loop v l a
      else
        m ← MatchesAny (Item_ si) v;
        bucket_loop v l (if m : bool then ({[Seq si]} ∪ seenSeq, toDel ++ [si]) else a)
  end.

(** The buckets of the distinct hashes of [v]. *)
Fixpoint buckets_loop (x : btreeIndex T) (v es : list T) (seenHash : gset Z) (a : gset Z * list SI) :
    M (gset Z * list SI) :=
  match es with
  | [] => mret a
  | e :: es =>
      h ← call (Hash e);
      if decide (h ∈ seenHash) then buckets_loop x v es seenHash a
      else
        a ← bucket_loop v (bucket h x) a;
        buckets_loop x v es ({[h]} ∪ seenHash) a
  end.

Definition del_iter (v : list T) (toDel : list SI) (it : SI) : M (list SI * bool) :=
  m ← MatchesAny (Item_ it) v;
  mret (if m : bool then toDel ++ [it] else toDel, true).

Fixpoint delete_loop (toDel : list SI) : M unit :=
  match toDel with
  | [] => mret ()
  | it :: toDel =>
      on_tree (tree_Delete it);;
      b ← getb;
      (if indexed b then h ← call (Hash (Item_ it)); on_idx (remove h (Seq it)) else mret ());;
      delete_loop toDel
  end.

Definition Del (ctx : Ctx W) (v : list T) (options : list (OpOption W)) : M (Z * option err) :=
  '(opts, oe) ← ResolveOpOptions CallDel options;
  match oe with
  | Some e => mret (0%Z, Some e)
  | None =>
  locked (
    b ← getb;
    if closed b then mret (0%Z, Some (Sentinel ErrClosed))
    else
      toDel ← match idx b with
              | Some x => '(_, toDel) ← buckets_loop x v v ∅ (∅, []); mret toDel
              | None => Scan (del_iter v) []
              end;
      if (zlen toDel =? 0)%Z then e ← RunSideEffect (SideEffect opts); mret (0%Z, e)
      else
      iferr e := RunSideEffect (SideEffect opts) then mret (0%Z, Some e) else
      b ← getb;
      iferr e :=
        match backup b with
        | None => mret None
        | Some bu => e ← call (bk_Del bu ctx (Item_ <$> toDel)); mret (WrapBackup e)
        end
      then mret (0%Z, Some e) else
      delete_loop toDel;;
      updb (dropHydrated (Seq <$> toDel));;
      SignalIfWaiters notFull_l;;
      mret (zlen toDel, None))
  end.

(** * Waiting, closing, clearing *)

Definition NotEmpty (ctx : Ctx W) (options : list (OpOption W)) : M (option err) :=
  '(opts, oe) ← ResolveOpOptions CallNotEmpty options;
  match oe with
  | Some e => mret (Some e)
  | None =>
  forever (
    RLock;;
    b ← getb;
    if closed b then RUnlock;; return_ (Some (Sentinel ErrClosed))
    else if (0 <? b_Len b)%Z then
      e ← RunSideEffectLocked (SideEffect opts) RUnlock;
      RUnlock;;
      return_ e
    else
      iferr e := Wait notEmpty_l ctx RUnlock
      then r ← ClosedOrCause ctx; return_ r
      else continue_)
  end.

Definition NotFull (ctx : Ctx W) (options : list (OpOption W)) : M (option err) :=
  '(opts, oe) ← ResolveOpOptions CallNotFull options;
  match oe with
  | Some e => mret (Some e)
  | None =>
  forever (
    RLock;;
    b ← getb;
    if closed b then RUnlock;; return_ (Some (Sentinel ErrClosed))
    else if ((maxSize b =? 0) || (b_Len b - hydrated b + inflight b <? maxSize b))%Z then
      e ← RunSideEffectLocked (SideEffect opts) RUnlock;
      RUnlock;;
      return_ e
    else
      iferr e := Wait notFull_l ctx RUnlock
      then r ← ClosedOrCause ctx; return_ r
      else continue_)
  end.

Definition Len : M Z := rlocked (b ← getb; mret (b_Len b)).

Definition Close (ctx : Ctx W) (options : list (OpOption W)) : M (option err) :=
  '(opts, oe) ← ResolveOpOptions CallClose options;
  match oe with
  | Some e => mret (Some e)
  | None =>
  Lock;;
  b ← getb;
  if closed b then
    e ← RunSideEffectLocked (SideEffect opts) Unlock;
    Unlock;;
    mret e
  else
    iferr e := RunSideEffectLocked (SideEffect opts) Unlock then Unlock;; mret (Some e) else
    b ← getb;
    let closeAndWake :=
      updb (set_closed true);;
      Unlock;;
      DoSignal notEmpty_l;;
      DoSignal notFull_l in
    e ← match backup b with
        | None => mret None
        | Some bu => RunBackup (bk_Close bu ctx) closeAndWake
        end;
    updb (set_closed true);;
    Unlock;;
    DoSignal notEmpty_l;;
    DoSignal notFull_l;;
    mret e
  end.

Definition Clear (ctx : Ctx W) (options : list (OpOption W)) : M (option err) :=
  '(opts, oe) ← ResolveOpOptions CallClear options;
  match oe with
  | Some e => mret (Some e)
  | None =>
  locked (
    b ← getb;
    if closed b then mret (Some (Sentinel ErrClosed))
    else if (b_Len b =? 0)%Z then RunSideEffect (SideEffect opts)
    else
      iferr e := RunSideEffect (SideEffect opts) then mret (Some e) else
      b ← getb;
      iferr e :=
        match backup b with
        | None => mret None
        | Some bu => e ← call (bk_Clear bu ctx); mret (WrapBackup e)
        end
      then mret (Some e) else
      updb (λ b, set_tree (tree_Clear (tree b)) b);;
      on_idx (λ _, newBtreeIndex);;
      updb (set_hydrated 0);;
      SignalIfWaiters notFull_l;;
      mret None)
  end.

(** * Iteration *)

Definition all_iter (ctx : Ctx W) (yield : T → option err → code W bool) (_ : unit) (it : SI) :
    M (unit * bool) :=
  d ← ctx_done ctx;
  match d with
  | Some cause => call (yield zero (Some cause));; mret ((), false)
  | None => more ← call (yield (Item_ it) None); mret ((), more)
  end.

Definition All (ctx : Ctx W) (yield : T → option err → code W bool) : M unit :=
  rlocked (
    b ← getb;
    if closed b then call (yield zero (Some (Sentinel ErrClosed)));; mret ()
    else Scan (all_iter ctx yield) ()).

(** [release] of AllCOW: its [held] flag says that this goroutine holds the read lock. *)
Definition release_held : M unit := λ s,
  match mlk s with
  | RLocked => RUnlock s
  | _ => (Done tt, s)
  end.

(** What the callback of AllCOW assigns. *)
Record cow := MkCow { snap : list T; contended : bool; stop : bool; cerr : option err }.

Definition cow_iter (ctx : Ctx W) (yield : T → option err → code W bool) (c : cow) (it : SI) :
    M (cow * bool) :=
  ww ← (if contended c then mret true else WriteWanted);
  if ww : bool then mret (MkCow (snap c ++ [Item_ it]) true (stop c) (cerr c), true)
  else
    d ← ctx_done ctx;
    match d with
    | Some cause => mret (MkCow (snap c) (contended c) true (Some cause), false)
    | None =>
        more ← call (yield (Item_ it) None);
        mret (if more : bool then (c, true)
              else (MkCow (snap c) (contended c) true (cerr c), false))
    end.

(** The loop over the copy, after the lock was released. *)
Fixpoint snap_loop (ctx : Ctx W) (yield : T → option err → code W bool) (l : list T) : M unit :=
  match l with
  | [] => mret ()
  | v :: l =>
      d ← ctx_done ctx;
      match d with
      | Some cause => call (yield zero (Some cause));; mret ()
      | None =>
          more ← call (yield v None);
          if more : bool then snap_loop ctx yield l else mret ()
      end
  end.

Definition AllCOW (ctx : Ctx W) (yield : T → option err → code W bool) : M unit :=
  RLock;;
  defer release_held (
    b ← getb;
    if closed b then release_held;; call (yield zero (Some (Sentinel ErrClosed)));; mret ()
    else
      c ← Scan (cow_iter ctx yield) (MkCow [] false false None);
      release_held;;
      match cerr c with
      | Some e => call (yield zero (Some e));; mret ()
      | None => if stop c then mret () else snap_loop ctx yield (snap c)
      end).

(** * Hydrate *)

Fixpoint hydrate_loop (ctx : Ctx W) (bu : Backup W T)
    (steps : list (code W (option (T * option err)))) : M (option err) :=
  match steps with
  | [] => updb (set_backup (Some bu));; mret None
  | step :: steps =>
      o ← call step;
      match o with
      | None => updb (set_backup (Some bu));; mret None
      | Some (v, Some e) => mret (WrapBackup (Some e))
      | Some (v, None) =>
          b ← getb;
          iferr e := ValidateKindOne (priority b) v then mret (Some e) else
          iferr e := call (bk_OnLoad bu ctx v) then mret (WrapBackup (Some e)) else
          b ← getb;
          let si := MkSeqItem (nextSeq b) v in
          hash ← (if indexed b then call (Hash v) else mret 0%Z);
          on_tree (tree_Load si);;
          updb (λ b, set_nextSeq (nextSeq b + 1)%Z b);;
          on_idx (add hash si);;
          updb (λ b, set_hydrated (hydrated b + 1)%Z b);;
          hydrate_loop ctx bu steps
      end
  end.

Definition Hydrate (ctx : Ctx W) (bu : Backup W T) : M (option err) :=
  locked (
    defer (updb (λ b, set_hydrateEnd (nextSeq b) b))
      (hydrate_loop ctx bu (bk_RangeAll bu ctx))).
End ordered.
