(* ===== verification/OrderedIndex.v ===== *)
(** The pieces of the ordered backing: the order of its tree, by sequence number or by priority, what an
    insert and a delete do to the entries in that order, and the hash index, which for every hash has the
    entries of that hash. *)

From Stdlib Require Import Sorting.Sorted.
From stdpp Require Import gmap.
From S2P Require Import Prelude Errors Machine Core Contract Logic Priority ContractFacts SeqOrder.
From S2P Require Import OrdTree Ordered.

(** * The order *)

Section order.
Context {W T : Type} `{!Item W T} `{!PureItem W T}.
Abbreviation SI := (SeqItem T).
Variable p : bool.

Definition sless : SI → SI → code W bool := if p then PrioritySeqLess else FifoSeqLess.
Definition slt (a b : SI) : bool := if p then pless a b else (Seq a <? Seq b)%Z.
Definition goes_before : T → T → bool := if p then ltb else λ _ _, false.

Lemma slt_pure : pure_less slt sless.
Proof. unfold slt, sless. destruct p; intros x y w; [apply PrioritySeqLess_pure|done]. Qed.

Context `{!ItemLaws p W T}.

Lemma slt_order : weak_order slt.
Proof.
  pose proof laws_order as Ho. unfold slt. destruct p.
  - specialize (Ho eq_refl). split; [apply pless_asym|apply pless_le_trans].
  - split; intros *; rewrite ?Z.ltb_lt, ?Z.ltb_ge; lia.
Qed.

Lemma slt_irrefl x : slt x x = false.
Proof. destruct (slt x x) eqn:E; [|done]. by rewrite (wo_asym _ slt_order _ _ E) in E. Qed.

Lemma slt_trans x y z : slt x y = true → slt y z = true → slt x z = true.
Proof.
  intros Hxy Hyz. destruct (slt x z) eqn:Hxz; [done|].
  by rewrite (wo_negtrans _ slt_order z x y Hxz (wo_asym _ slt_order _ _ Hxy)) in Hyz.
Qed.

Lemma slt_total x y : Seq x ≠ Seq y → slt x y = false → slt y x = true.
Proof.
  unfold slt. destruct p; [apply pless_total|]. rewrite Z.ltb_ge, Z.ltb_lt. lia.
Qed.

Lemma slt_new x y : (Seq y < Seq x)%Z → slt x y = goes_before (Item_ x) (Item_ y).
Proof.
  unfold slt, goes_before. destruct p; [apply pless_new|]. intros. apply Z.ltb_ge. lia.
Qed.

(** * Inserting and deleting entries of distinct numbers *)

Lemma put_Permutation x l : Forall (λ y, Seq y ≠ Seq x) l → put slt x l ≡ₚ x :: l.
Proof.
  induction 1 as [|y l Hy _ IH]; [done|]. cbn [put]. destruct (slt y x) eqn:Hyx.
  - rewrite IH. apply Permutation_swap.
  - by rewrite (slt_total y x Hy Hyx).
Qed.

Lemma put_ascending x l : Forall (λ y, Seq y ≠ Seq x) l → ascending slt l → ascending slt (put slt x l).
Proof.
  unfold ascending. intros Hall Hl. induction Hl as [|y l Hs IH Hmin]; [by repeat constructor|].
  apply Forall_cons in Hall as [Hy Hall]. cbn [put]. destruct (slt y x) eqn:Hyx.
  - constructor; [by apply IH|]. rewrite put_Permutation by done. by constructor.
  - rewrite (slt_total y x Hy Hyx). constructor; [by constructor|].
    constructor; [by apply slt_total|]. eapply Forall_impl; [exact Hmin|]. intros z Hz.
    eapply slt_trans; [by apply slt_total|done].
Qed.

(** The insert of the contract. *)
Lemma put_entries (f : SI → entry T) x l :
  (∀ x, e_item (f x) = Item_ x) → Forall (λ y, Seq y < Seq x)%Z l →
  insert_entry goes_before (f x) (f <$> l) = f <$> put slt x l.
Proof.
  intros Hf. induction 1 as [|y l Hy _ IH]; [done|]. rewrite fmap_cons. cbn [insert_entry put].
  rewrite !Hf, <- slt_new by done. destruct (slt x y) eqn:Hxy.
  - by rewrite (wo_asym _ slt_order _ _ Hxy).
  - rewrite (slt_total x y) by (done || lia). by rewrite fmap_cons, IH.
Qed.

Lemma without_Seq x l :
  NoDup (Seq <$> l) → x ∈ l → without slt x l = filter (λ y, Seq y ≠ Seq x) l.
Proof.
  intros Hnd Hx. unfold without. apply filter_in_iff. intros y Hy. unfold equivalent. split.
  - intros Hn Heq. apply Hn. rewrite (Seq_inj y x l) by done. split; apply slt_irrefl.
  - intros Hne [Hxy Hyx]. by rewrite (slt_total x y) in Hyx.
Qed.

Lemma ascending_filter (P : SI → Prop) `{!∀ x, Decision (P x)} l :
  ascending slt l → ascending slt (filter P l).
Proof.
  unfold ascending. induction 1 as [|x l _ IH Hx]; [constructor|]. rewrite filter_cons.
  case_decide; [|done]. constructor; [done|]. apply Forall_forall. intros y [_ Hy]%list_elem_of_filter.
  by rewrite Forall_forall in Hx; apply Hx.
Qed.
End order.

(** * The index *)

Section index.
Context {W T : Type} `{!Item W T} `{!PureItem W T}.
Abbreviation SI := (SeqItem T).
Implicit Types (x : btreeIndex T) (l : list SI) (si : SI).

Definition has_hash (h : Z) (si : SI) : Prop := hash (Item_ si) = h.
#[export] Instance has_hash_dec h si : Decision (has_hash h si).
Proof. unfold has_hash. apply _. Defined.

(** Every bucket has the entries of its hash, and there are no empty buckets. *)
Definition idx_ok x l : Prop :=
  ∀ h, bucket h x ≡ₚ filter (has_hash h) l ∧ m x !! h ≠ Some [].

Lemma idx_ok_new : idx_ok newBtreeIndex [].
Proof. intros h. unfold bucket. simpl. by rewrite lookup_empty. Qed.

Lemma idx_ok_Permutation x l k : l ≡ₚ k → idx_ok x l → idx_ok x k.
Proof. intros Hp Hx h. destruct (Hx h) as [Hb Hn]. split; [by rewrite <- Hp|done]. Qed.

Lemma idx_ok_add x l si : idx_ok x l → idx_ok (add (hash (Item_ si)) si x) (si :: l).
Proof.
  intros Hx h. destruct (Hx h) as [Hb Hn]. unfold add, bucket. simpl. rewrite filter_cons.
  destruct (decide (hash (Item_ si) = h)) as [Hh|Hh].
  - rewrite decide_True by done. rewrite Hh, lookup_insert_eq. simpl.
    split; [by rewrite Permutation_app_comm; constructor|]. intros [= Hnil]. by apply app_nil in Hnil as [_ ?].
  - rewrite decide_False, lookup_insert_ne by done. done.
Qed.

Lemma remove_seq_Permutation si l :
  NoDup (Seq <$> l) → si ∈ l → remove_seq (Seq si) l ≡ₚ filter (λ y, Seq y ≠ Seq si) l.
Proof.
  intros Hnd Hin. unfold remove_seq.
  destruct (list_find (λ y, Seq y = Seq si) l) as [[i y]|] eqn:Hf.
  2: { eapply list_find_None in Hf. rewrite Forall_forall in Hf. by destruct (Hf si Hin). }
  apply list_find_Some in Hf as (Hi & Hy & Hfirst). pose proof (take_drop_middle l i y Hi) as Hl.
  assert (filter (λ z, Seq z ≠ Seq si) l = take i l ++ drop (S i) l) as ->.
  { rewrite <- Hl at 1. rewrite filter_app, filter_cons_False by (intros Hne; by apply Hne).
    rewrite <- Hl, fmap_app, fmap_cons in Hnd. apply NoDup_app in Hnd as (_ & Hd1 & [Hd2 _]%NoDup_cons).
    f_equal; apply filter_all; apply Forall_forall; intros z Hz; rewrite <- Hy.
    - intros Heq. apply (Hd1 (Seq z)); [by apply list_elem_of_fmap_2|]. rewrite Heq. by left.
    - intros Heq. apply Hd2. rewrite <- Heq. by apply list_elem_of_fmap_2. }
  destruct (last l) as [z|] eqn:Hz.
  2: { apply last_None in Hz. by subst. }
  by eapply swap_remove_Permutation.
Qed.

Lemma idx_ok_remove x l si :
  NoDup (Seq <$> l) → si ∈ l → idx_ok x l →
  idx_ok (remove (hash (Item_ si)) (Seq si) x) (filter (λ y, Seq y ≠ Seq si) l).
Proof.
  intros Hnd Hin Hx h.
  destruct (decide (hash (Item_ si) = h)) as [Hh|Hh].
  - destruct (Hx h) as [Hb Hn].
    assert (remove_seq (Seq si) (bucket h x) ≡ₚ filter (has_hash h) (filter (λ y, Seq y ≠ Seq si) l)) as Hp.
    { rewrite remove_seq_Permutation.
      - rewrite Hb, !list_filter_filter. erewrite filter_in_iff; [reflexivity|naive_solver].
      - rewrite Hb. clear -Hnd. induction l as [|y l IH]; [done|]. apply NoDup_cons in Hnd as [Hy Hnd].
        rewrite filter_cons. case_decide; [|by apply IH]. constructor; [|by apply IH].
        intros (z & Heq & [_ Hz]%list_elem_of_filter)%list_elem_of_fmap. apply Hy. rewrite Heq.
        by apply list_elem_of_fmap_2.
      - rewrite Hb. by apply list_elem_of_filter. }
    unfold remove. rewrite Hh. destruct (remove_seq (Seq si) (bucket h x)) as [|y s] eqn:Es.
    + unfold bucket. simpl. by rewrite lookup_delete_eq.
    + unfold bucket at 1. simpl. rewrite lookup_insert_eq. done.
  - destruct (Hx h) as [Hb Hn]. rewrite list_filter_filter.
    assert (m (remove (hash (Item_ si)) (Seq si) x) !! h = m x !! h) as Hm.
    { unfold remove. case_match; simpl; [by rewrite lookup_delete_ne|by rewrite lookup_insert_ne]. }
    unfold bucket. rewrite Hm. split; [|done]. fold (bucket h x). rewrite Hb.
    erewrite filter_in_iff; [reflexivity|]. intros y Hyl. split; [|tauto]. intros Hy. split; [done|].
    intros Heq. apply Hh. unfold has_hash in Hy. by rewrite <- (Seq_inj y si l).
Qed.
End index.
