(* ===== verification/OrderedOwn.v ===== *)
(** The entries of an ordered backing: that its tree and its index hold the same list of entries, and what
    the loops of its operations do to that list, for items whose methods are pure and keep their
    documented obligations. *)

From Stdlib Require Import Sorting.Sorted.
From stdpp Require Import gmap.
From S2P Require Import Prelude Errors Machine Core Contract Logic Priority ContractFacts SeqOrder.
From S2P Require Import OrdTree Ordered OrderedIndex.

(** * The entries of a backing *)

Section own.
Context {W T : Type} `{!Item W T} `{!PureItem W T} (p : bool) `{!ItemLaws p W T} `{!World W}.
Context `{!OrdTree W (SeqItem T)} `{!OrdTreeLaws W (SeqItem T)}.
Abbreviation P := (Ordered.Backing W T).
Abbreviation SI := (SeqItem T).
Implicit Types (b : P) (l : list SI).

(** Ascending, of distinct numbers, all below the next one. *)
Record stored (n : Z) l : Prop := {
  st_ascending : ascending (slt p) l;
  st_NoDup : NoDup (Seq <$> l);
  st_below : Forall (λ x, Seq x < n)%Z l;
}.

Lemma stored_fresh n m l : stored n l → (n ≤ m)%Z → Forall (λ x, Seq x ≠ m) l.
Proof. intros Hl Hm. eapply Forall_impl; [apply Hl|]. simpl. lia. Qed.

Lemma stored_put n l v : stored n l → stored (n + 1) (put (slt p) (MkSeqItem n v) l).
Proof.
  intros Hl. pose proof (stored_fresh n n l Hl ltac:(lia)) as Hf.
  pose proof (put_Permutation p (MkSeqItem n v) l Hf) as Hp. destruct Hl as [Ha Hn Hb]. split.
  - by apply put_ascending.
  - rewrite Hp. constructor; [|done]. intros (y & Hy & Hin)%list_elem_of_fmap.
    rewrite Forall_forall in Hf. by apply (Hf y Hin).
  - rewrite Hp. constructor; [simpl; lia|]. eapply Forall_impl; [exact Hb|]. simpl. lia.
Qed.

Lemma stored_filter n l (Q : SI → Prop) `{!∀ x, Decision (Q x)} : stored n l → stored n (filter Q l).
Proof.
  intros [Ha Hn Hb]. split; [by apply ascending_filter| |].
  - by apply NoDup_Seq_filter.
  - apply Forall_forall. intros y [_ Hy]%list_elem_of_filter. by rewrite Forall_forall in Hb; apply Hb.
Qed.

Lemma stored_tail n x l : stored n (x :: l) → stored n l ∧ filter (λ y, Seq y ≠ Seq x) (x :: l) = l.
Proof.
  intros [Ha Hn Hb]. rewrite fmap_cons in Hn. apply NoDup_cons in Hn as [Hx Hn].
  apply StronglySorted_inv in Ha as [Ha _]. apply Forall_cons in Hb as [_ Hb]. split; [done|].
  rewrite filter_cons_False by (intros Hne; by apply Hne). apply filter_all, Forall_forall.
  intros y Hy Heq. apply Hx. rewrite <- Heq. by apply list_elem_of_fmap_2.
Qed.

(** The tree and the index, if there is one, hold the entries [l]. *)
Record ord_own b l : Prop := {
  oo_priority : priority b = p;
  oo_less : pure_less (slt p) (tree_less (tree b));
  oo_items : Items (tree b) = l;
  oo_stored : stored (nextSeq b) l;
  oo_idx : ∀ x, idx b = Some x → idx_ok x l;
}.

Definition with_tree t x n b : P := set_idx x (set_nextSeq n (set_tree t b)).

Lemma with_tree_id b : with_tree (tree b) (idx b) (nextSeq b) b = b.
Proof. by destruct b. Qed.

Lemma own_Len b l : ord_own b l → b_Len b = zlen l.
Proof. intros Ho. unfold b_Len. by rewrite Len_Items, (oo_items _ _ Ho). Qed.

(** ** Inserting *)

Definition added (v : T) b : option (btreeIndex T) :=
  add (hash v) (MkSeqItem (nextSeq b) v) <$> idx b.

Lemma load_ok b l v k w e : ord_own b l → ∃ t,
  on_tree (tree_Load (MkSeqItem (nextSeq b) v)) (Mach b k w e) = (Done (), Mach (set_tree t b) k w e) ∧
  ord_own (with_tree t (added v b) (nextSeq b + 1) b) (put (slt p) (MkSeqItem (nextSeq b) v) l).
Proof.
  intros [Hp Hl Hi Hs Hx]. pose proof (stored_fresh _ _ _ Hs (Z.le_refl _)) as Hf.
  destruct (Load_Items (slt p) (tree b) (MkSeqItem (nextSeq b) v) w (slt_order p) Hl) as (t & Hrun & Ht & Htl).
  { rewrite Hi. apply Hs. }
  exists t. split; [unfold on_tree; cbn [mb mw]; by rewrite Hrun|].
  split; cbn; [done|by rewrite Htl|by rewrite Ht, Hi|by apply stored_put|].
  intros x (x0 & Hx0 & ->)%fmap_Some. eapply idx_ok_Permutation; [by rewrite put_Permutation|].
  apply (idx_ok_add x0 l (MkSeqItem (nextSeq b) v)). by apply Hx.
Qed.

Fixpoint put_all (n : Z) (vs : list T) l : list SI :=
  match vs with [] => l | v :: vs => put_all (n + 1) vs (put (slt p) (MkSeqItem n v) l) end.

Lemma ord_push_loop_ok vs hashes i b l k w e :
  ord_own b l → (indexed b = true → drop i hashes = hash <$> vs) →
  ∃ t x, push_loop i hashes vs (Mach b k w e) =
      (Done (), Mach (with_tree t x (nextSeq b + zlen vs) b) k w e) ∧
    ord_own (with_tree t x (nextSeq b + zlen vs) b) (put_all (nextSeq b) vs l) ∧
    (x = None ↔ idx b = None).
Proof.
  revert i b l. induction vs as [|v vs IH]; intros i b l Ho Hh.
  { exists (tree b), (idx b). change (zlen []) with 0%Z. by rewrite Z.add_0_r, with_tree_id. }
  cbn [push_loop put_all]. destruct (load_ok b l v k w e Ho) as (t & Hrun & Ho').
  destruct (IH (S i) (with_tree t (added v b) (nextSeq b + 1) b) _ Ho') as (t' & x' & Hrest & Ho'' & Hiff).
  { unfold added, indexed. cbn. intros Hi. rewrite <- Nat.add_1_r, <- drop_drop, Hh; [done|].
    unfold indexed. by destruct (idx b). }
  exists t', x'. cbn [nextSeq with_tree set_idx set_nextSeq set_tree] in *.
  rewrite zlen_cons, Z.add_assoc. split; [|split; [exact Ho''|]].
  2: { rewrite Hiff. unfold added. cbn. by destruct (idx b). }
  unfold mbind, go_bind. cbn [getb mb]. rewrite Hrun. cbn -[push_loop].
  assert ((if indexed b then match hashes !! i with
      | Some h => on_idx (add h (MkSeqItem (nextSeq b) v)) | None => gopanic end else mret ())
    (Mach (set_nextSeq (nextSeq b + 1) (set_tree t b)) k w e) =
    (Done (), Mach (with_tree t (added v b) (nextSeq b + 1) b) k w e)) as Hidx.
  { unfold indexed, added in *. destruct (idx b) as [x|] eqn:Ex.
    - specialize (Hh eq_refl). rewrite <- (Nat.add_0_r i), <- lookup_drop, Hh. cbn.
      unfold on_idx, updb. cbn. by rewrite Ex.
    - cbn. unfold with_tree, set_idx, set_nextSeq, set_tree. cbn. by rewrite Ex. }
  unfold indexed in *. cbn in Hidx |- *. rewrite Hidx. exact Hrest.
Qed.

(** The hashes of a batch. *)
Lemma hash_all_ok vs (s : mach P W) : hash_all vs s = (Done (hash <$> vs), s).
Proof.
  induction vs as [|v vs IH]; [done|]. destruct s as [b k w e]. cbn [hash_all].
  unfold mbind, go_bind in *. unfold call. cbn [mw]. rewrite Hash_pure. cbn. by rewrite IH.
Qed.

Lemma insert_batch_ok vs b l k w e :
  ord_own b l → ∃ t x, insert_batch vs (Mach b k w e) =
      (Done (), Mach (with_tree t x (nextSeq b + zlen vs) b) k w e) ∧
    ord_own (with_tree t x (nextSeq b + zlen vs) b) (put_all (nextSeq b) vs l) ∧
    (x = None ↔ idx b = None).
Proof.
  intros Ho. unfold insert_batch, mbind, go_bind. cbn [getb mb].
  destruct (indexed b) eqn:Hi; [rewrite hash_all_ok|]; by apply ord_push_loop_ok; [|rewrite ?Hi].
Qed.

(** ** Removing *)

Lemma ord_own_drop b x l t : ord_own b (x :: l) → Items t = l → tree_less t = tree_less (tree b) →
  ord_own (set_idx (remove (hash (Item_ x)) (Seq x) <$> idx b) (set_tree t b)) l.
Proof.
  intros [Hp Hl Hi Hs Hx] Ht Htl. destruct (stored_tail _ _ _ Hs) as [Hs' Hf].
  split; cbn; [done|by rewrite Htl|done|done|].
  intros x' (x0 & Hx0 & ->)%fmap_Some. rewrite <- Hf. apply idx_ok_remove; [apply Hs|by left|by apply Hx].
Qed.

Lemma dropHydrated_count seqs b :
  dropHydrated seqs b = set_hydrated (drop_count (hydrateEnd b) seqs (hydrated b)) b.
Proof.
  revert b. induction seqs as [|seq seqs IH]; intros b; [by destruct b|].
  unfold dropHydrated, drop_count in *. cbn [foldl]. rewrite IH. by case_match.
Qed.

Lemma ord_pop_loop_ok peeked hashes j i out b l k w e :
  ord_own b l → j ≤ length l →
  (indexed b = true → take j (drop i hashes) = (λ x, hash (Item_ x)) <$> take j l) →
  ∃ t x, let b' := set_hydrated (drop_count (hydrateEnd b) (Seq <$> take j l) (hydrated b))
                     (with_tree t x (nextSeq b) b) in
    pop_loop peeked hashes j i out (Mach b k w e) =
      (Done (if peeked then out else out ++ (Item_ <$> take j l)), Mach b' k w e) ∧
    ord_own b' (drop j l) ∧ (x = None ↔ idx b = None).
Proof.
  revert i out b l. induction j as [|j IH]; intros i out b l Ho Hj Hh.
  { exists (tree b), (idx b). cbn. rewrite with_tree_id, take_0, app_nil_r.
    unfold drop_count. cbn. rewrite drop_0. destruct b, peeked; done. }
  destruct l as [|y l]; [simpl in Hj; lia|]. cbn [pop_loop].
  destruct (PopMin_Items (tree b)) as (Hmin & Htl & Hless). rewrite (oo_items _ _ Ho) in Hmin, Htl.
  destruct (tree_PopMin (tree b)) as [o t] eqn:Epop. cbn in Hmin, Htl, Hless. subst o.
  pose proof (ord_own_drop b y l t Ho Htl Hless) as Ho1.
  set (b1 := set_idx (remove (hash (Item_ y)) (Seq y) <$> idx b) (set_tree t b)) in *.
  set (b2 := dropHydrated [Seq y] b1).
  assert (ord_own b2 l) as Ho2 by (unfold b2; rewrite dropHydrated_count; by destruct Ho1).
  destruct (IH (S i) (if peeked then out else out ++ [Item_ y]) _ _ Ho2 ltac:(simpl in Hj; lia))
    as (t' & x' & Hrest & Ho' & Hiff).
  { intros Hi. assert (indexed b = true) as Hi'.
    { unfold b2 in Hi. rewrite dropHydrated_count in Hi. unfold indexed in *. cbn in Hi. by destruct (idx b). }
    specialize (Hh Hi'). destruct (drop i hashes) as [|a hs] eqn:Ed; [done|]. cbn in Hh.
    injection Hh as _ Hh. rewrite <- Nat.add_1_r, <- drop_drop, Ed. exact Hh. }
  assert (set_hydrated (drop_count (hydrateEnd b2) (Seq <$> take j l) (hydrated b2))
      (with_tree t' x' (nextSeq b2) b2) =
    set_hydrated (drop_count (hydrateEnd b) (Seq <$> take (S j) (y :: l)) (hydrated b))
      (with_tree t' x' (nextSeq b) b)) as Hfin by (unfold b2; by rewrite dropHydrated_count).
  cbv zeta in Hrest, Ho'. rewrite Hfin in Hrest, Ho'.
  exists t', x'. split; [|split; [exact Ho'|]].
  2: { rewrite Hiff. unfold b2. rewrite dropHydrated_count. cbn. by destruct (idx b). }
  unfold mbind, go_bind. cbn [getb mb]. rewrite Epop. cbn -[pop_loop dropHydrated].
  assert ((if indexed b then match hashes !! i with
      | Some h => on_idx (remove h (Seq y)) | None => gopanic end else mret ())
    (Mach (set_tree t b) k w e) = (Done (), Mach b1 k w e)) as Hidx.
  { unfold indexed, b1 in *. destruct (idx b) as [x|] eqn:Ex.
    - specialize (Hh eq_refl). destruct (drop i hashes) as [|a hs] eqn:Ed; [done|]. cbn in Hh.
      injection Hh as -> _. rewrite <- (Nat.add_0_r i), <- lookup_drop, Ed. cbn.
      unfold on_idx, updb. cbn. by rewrite Ex.
    - cbn. unfold set_idx, set_tree. cbn. by rewrite Ex. }
  unfold indexed in Hidx |- *. cbn in Hidx |- *. rewrite Hidx. cbn -[pop_loop dropHydrated].
  etransitivity; [exact Hrest|]. destruct peeked; [done|]. by rewrite <- app_assoc.
Qed.

(** ** Looking *)

(** The peek of a Pop takes the first [j] entries, at least one. *)
Lemma peek_ok withidx j out hashes l (s : mach P W) :
  1 ≤ j → j ≤ length l →
  scan_items (peek_iter withidx (zlen out + Z.of_nat j)) l (out, hashes) s =
  (Done (out ++ (Item_ <$> take j l),
         if withidx then hashes ++ ((λ x, hash (Item_ x)) <$> take j l) else hashes), s).
Proof.
  revert j out hashes. induction l as [|y l IH]; intros j out hashes Hj Hl; [simpl in Hl; lia|].
  destruct j as [|j]; [lia|]. destruct s as [b k w e]. cbn [scan_items peek_iter].
  assert ((hashes' ← if withidx : bool then h ← call (Hash (Item_ y)); mret (hashes ++ [h]) else mret hashes;
     mret (out ++ [Item_ y], hashes', (zlen (out ++ [Item_ y]) <? zlen out + Z.of_nat (S j))%Z))
    (Mach b k w e) = (Done (out ++ [Item_ y], if withidx then hashes ++ [hash (Item_ y)] else hashes,
      (1 <? Z.of_nat (S j))%Z), Mach b k w e)) as Hiter.
  { unfold mbind, go_bind. rewrite zlen_app. change (zlen [Item_ y]) with 1%Z.
    assert ((zlen out + 1 <? zlen out + Z.of_nat (S j)) = (1 <? Z.of_nat (S j)))%Z as ->.
    { destruct (Z.ltb_spec 1 (Z.of_nat (S j))); [apply Z.ltb_lt|apply Z.ltb_ge]; lia. }
    destruct withidx; [|done]. unfold call. cbn [mw]. by rewrite Hash_pure. }
  unfold mbind at 1, go_bind at 1. rewrite Hiter. cbn [fmap list_fmap take]. destruct j as [|j].
  { cbn. by destruct withidx. }
  rewrite (proj2 (Z.ltb_lt 1 (Z.of_nat (S (S j))))) by lia.
  assert (zlen out + Z.of_nat (S (S j)) = zlen (out ++ [Item_ y]) + Z.of_nat (S j))%Z as ->.
  { rewrite zlen_app. change (zlen [Item_ y]) with 1%Z. lia. }
  rewrite IH by (simpl in Hl; lia). destruct withidx; by rewrite <- ?app_assoc.
Qed.

Lemma ord_exists_loop_ok v se l (s : mach P W) :
  exists_loop v se l s = (e ← RunSideEffect se; mret (existsb (λ x, eqb x v) (Item_ <$> l), e)) s.
Proof.
  induction l as [|x l IH]; [done|]. destruct s as [b k w en].
  rewrite fmap_cons. cbn [exists_loop existsb].
  transitivity ((λ m : bool, if m then e ← RunSideEffect se; mret (true, e)
    else exists_loop v se l) (eqb (Item_ x) v) (Mach b k w en)).
  { unfold mbind at 1, go_bind at 1, call at 1. simpl. by rewrite Equal_pure. }
  cbv beta. by destruct (eqb (Item_ x) v).
Qed.

Lemma exists_scan_ok v l (s : mach P W) :
  scan_items (exists_iter v) l false s = (Done (existsb (λ x, eqb x v) (Item_ <$> l)), s).
Proof.
  induction l as [|x l IH]; [done|]. destruct s as [b k w en]. cbn [scan_items fmap list_fmap existsb].
  assert (exists_iter v false x (Mach b k w en) = (Done (if eqb (Item_ x) v then (true, false) else
    (false, true)), Mach b k w en)) as Hiter.
  { unfold exists_iter, mbind, go_bind, call. cbn [mw]. rewrite Equal_pure. by destruct (eqb (Item_ x) v). }
  unfold mbind, go_bind in *. rewrite Hiter. by destruct (eqb (Item_ x) v).
Qed.

(** An item that is there is in the bucket of its hash. *)
Lemma exists_bucket x v l : idx_ok x l →
  existsb (λ y, eqb y v) (Item_ <$> bucket (hash v) x) = existsb (λ y, eqb y v) (Item_ <$> l).
Proof.
  intros Hx. rewrite (existsb_Permutation _ _ _ (fmap_Permutation _ _ _ (proj1 (Hx (hash v))))).
  clear Hx. induction l as [|y l IH]; [done|]. rewrite filter_cons, fmap_cons. cbn [existsb].
  destruct (eqb (Item_ y) v) eqn:Hy.
  - rewrite decide_True by (by apply eqb_hash). rewrite fmap_cons. cbn [existsb]. by rewrite Hy.
  - case_decide; [rewrite fmap_cons; cbn [existsb]; by rewrite Hy|done].
Qed.

(** ** What Del removes *)

Definition doomed (v : list T) (x : SI) : Prop := matched v (Item_ x) = true.
#[export] Instance doomed_dec v x : Decision (doomed v x).
Proof. unfold doomed. apply _. Defined.

Lemma del_scan_ok v l acc (s : mach P W) :
  scan_items (del_iter v) l acc s = (Done (acc ++ filter (doomed v) l), s).
Proof.
  revert acc. induction l as [|x l IH]; intros acc; [by rewrite app_nil_r|].
  assert (del_iter v acc x s = (Done (if matched v (Item_ x) then acc ++ [x] else acc, true), s)) as Hiter.
  { unfold del_iter, mbind, go_bind. by rewrite MatchesAny_pure. }
  cbn [scan_items]. unfold mbind, go_bind in *. rewrite Hiter, filter_cons. cbn. unfold doomed in *. case_decide as Hm; rewrite IH.
  - rewrite Hm. by rewrite <- app_assoc.
  - by apply not_true_is_false in Hm as ->.
Qed.

Lemma bucket_loop_ok v l (seen : gset Z) acc (s : mach P W) :
  NoDup (Seq <$> l) → (∀ x, x ∈ l → Seq x ∉ seen) →
  bucket_loop v l (seen, acc) s =
  (Done (list_to_set (Seq <$> filter (doomed v) l) ∪ seen, acc ++ filter (doomed v) l), s).
Proof.
  revert seen acc. induction l as [|x l IH]; intros seen acc Hnd Hnew.
  { cbn. by rewrite app_nil_r, (left_id_L ∅ (∪)). }
  rewrite fmap_cons in Hnd. apply NoDup_cons in Hnd as [Hx Hnd].
  cbn [bucket_loop]. rewrite decide_False by (apply Hnew; by left).
  unfold mbind, go_bind. rewrite MatchesAny_pure, filter_cons.
  unfold doomed in *. case_decide as Hm; [rewrite Hm|apply not_true_is_false in Hm as ->].
  - rewrite IH; [|done|].
    + rewrite <- app_assoc. cbn. do 3 f_equal. set_solver.
    + intros y Hy [Heq%elem_of_singleton|Hs]%elem_of_union.
      * apply Hx. rewrite <- Heq. by apply list_elem_of_fmap_2.
      * by apply (Hnew y); [right|].
  - apply IH; [done|]. intros y Hy. apply Hnew. by right.
Qed.

(** The doomed entries whose hash is among [H]. *)
Definition doomed_in (v : list T) (H : gset Z) (x : SI) : Prop := hash (Item_ x) ∈ H ∧ doomed v x.
#[export] Instance doomed_in_dec v H x : Decision (doomed_in v H x).
Proof. unfold doomed_in. apply _. Defined.

Lemma doomed_in_union v H h l : h ∉ H →
  filter (doomed_in v ({[h]} ∪ H)) l ≡ₚ filter (doomed_in v H) l ++ filter (doomed v) (filter (has_hash h) l).
Proof.
  intros Hh. induction l as [|y l IH]; [done|]. rewrite !filter_cons. unfold doomed_in, has_hash in *.
  destruct (decide (hash (Item_ y) = h)) as [Hy|Hy]; rewrite ?filter_cons.
  - destruct (decide (doomed v y)).
    + rewrite decide_True by set_solver. rewrite (decide_False (P := _ ∈ H ∧ _)) by set_solver.
      rewrite IH. by rewrite <- Permutation_middle.
    + rewrite !decide_False by tauto. apply IH.
  - destruct (decide (hash (Item_ y) ∈ H ∧ doomed v y)).
    + rewrite decide_True by set_solver. cbn. by rewrite IH.
    + rewrite decide_False by set_solver. apply IH.
Qed.

Lemma buckets_loop_ok x v es H (seen : gset Z) acc l (s : mach P W) :
  idx_ok x l → NoDup (Seq <$> l) → acc ≡ₚ filter (doomed_in v H) l → seen = list_to_set (Seq <$> acc) →
  ∃ seen' acc', buckets_loop x v es H (seen, acc) s = (Done (seen', acc'), s) ∧
    acc' ≡ₚ filter (doomed_in v (list_to_set (hash <$> es) ∪ H)) l.
Proof.
  intros Hx Hnd. revert H seen acc. induction es as [|e es IH]; intros H seen acc Hacc Hseen.
  { exists seen, acc. split; [done|]. cbn. by rewrite (left_id_L ∅ (∪)). }
  destruct s as [b k w en]. cbn [buckets_loop fmap list_fmap list_to_set].
  unfold mbind at 1, go_bind at 1, call. cbn [mw]. rewrite Hash_pure. cbn [mb mlk menv]. case_decide as Hh.
  { destruct (IH H seen acc Hacc Hseen) as (seen' & acc' & Hrun & Hp). exists seen', acc'.
    split; [exact Hrun|]. rewrite Hp. by replace ({[hash e]} ∪ list_to_set (hash <$> es) ∪ H)
      with (list_to_set (hash <$> es) ∪ H) by set_solver. }
  destruct (Hx (hash e)) as [Hb _]. unfold mbind at 1, go_bind at 1. rewrite bucket_loop_ok.
  - edestruct (IH ({[hash e]} ∪ H)) as (seen' & acc' & Hrun & Hp); [..|exists seen', acc'; split; [exact Hrun|]].
    + rewrite Hacc, doomed_in_union by done. by rewrite Hb.
    + subst seen. rewrite fmap_app, list_to_set_app_L. set_solver.
    + rewrite Hp. by replace ({[hash e]} ∪ list_to_set (hash <$> es) ∪ H)
        with (list_to_set (hash <$> es) ∪ ({[hash e]} ∪ H)) by set_solver.
  - rewrite Hb. by apply NoDup_Seq_filter.
  - intros y Hy. rewrite Hb in Hy. apply list_elem_of_filter in Hy as [Hyh Hyl]. subst seen.
    rewrite elem_of_list_to_set. intros (z & Heq & Hz)%list_elem_of_fmap. rewrite Hacc in Hz.
    apply list_elem_of_filter in Hz as [[Hzh _] Hzl]. rewrite (Seq_inj y z l) in Hyh by done.
    by rewrite <- Hyh in Hh.
Qed.

Lemma matched_hash v y : matched v y = true → hash y ∈ hash <$> v.
Proof.
  unfold matched. intros (e & He & Heq)%existsb_exists. rewrite (eqb_hash _ _ Heq).
  by apply list_elem_of_fmap_2, list_elem_of_In.
Qed.

(** What Del finds, through the index in some order and without it in queue order. *)
Lemma to_delete_ok v b l (s : mach P W) : ord_own b l → mb s = b →
  ∃ toDel, (match idx b with
            | Some x => '(_, toDel) ← buckets_loop x v v ∅ (∅, []); mret toDel
            | None => Scan (del_iter v) []
            end) s = (Done toDel, s) ∧
    toDel ≡ₚ filter (doomed v) l ∧ (idx b = None → toDel = filter (doomed v) l).
Proof.
  intros Ho Hb. destruct (idx b) as [x|] eqn:Ex.
  - edestruct (buckets_loop_ok x v v ∅ ∅ [] l s) as (seen & acc & Hrun & Hp);
      [by apply (oo_idx _ _ Ho)|apply (oo_stored _ _ Ho)|..|done|].
    + rewrite filter_none; [done|]. intros y _ [Hy _]. by apply elem_of_empty in Hy.
    + exists acc. split; [unfold mbind, go_bind; by rewrite Hrun|]. split; [|done]. rewrite Hp.
      erewrite filter_in_iff; [reflexivity|]. intros y _. unfold doomed_in, doomed. split; [tauto|].
      intros Hm. split; [|done]. apply matched_hash in Hm. set_solver.
  - exists (filter (doomed v) l). split; [|done]. unfold Scan, mbind, go_bind. cbn [getb].
    rewrite Hb, (oo_items _ _ Ho). by rewrite del_scan_ok.
Qed.

Lemma delete_one b l y k w e : ord_own b l → y ∈ l → ∃ t,
  on_tree (tree_Delete y) (Mach b k w e) = (Done (), Mach (set_tree t b) k w e) ∧
  ord_own (set_idx (remove (hash (Item_ y)) (Seq y) <$> idx b) (set_tree t b))
    (filter (λ z, Seq z ≠ Seq y) l).
Proof.
  intros [Hp Hl Hi Hs Hx] Hy.
  destruct (Delete_Items (slt p) (tree b) y w (slt_order p) Hl) as (t & Hrun & Ht & Htl).
  { rewrite Hi. apply Hs. }
  exists t. split; [unfold on_tree; cbn [mb mw]; by rewrite Hrun|].
  split; cbn; [done|by rewrite Htl| |by apply stored_filter|].
  - rewrite Ht, Hi. by apply (without_Seq p y l (st_NoDup _ _ Hs)).
  - intros x (x0 & Hx0 & ->)%fmap_Some. apply idx_ok_remove; [apply Hs|done|by apply Hx].
Qed.

Lemma ord_delete_loop_ok toDel b l k w e :
  ord_own b l → NoDup (Seq <$> toDel) → (∀ y, y ∈ toDel → y ∈ l) →
  ∃ t x, delete_loop toDel (Mach b k w e) = (Done (), Mach (with_tree t x (nextSeq b) b) k w e) ∧
    ord_own (with_tree t x (nextSeq b) b) (filter (λ y, Seq y ∉ Seq <$> toDel) l) ∧
    (x = None ↔ idx b = None).
Proof.
  revert b l. induction toDel as [|y toDel IH]; intros b l Ho Hnd Hin.
  { exists (tree b), (idx b). rewrite with_tree_id. split; [done|]. split; [|done].
    rewrite filter_all; [done|]. apply Forall_forall. set_solver. }
  rewrite fmap_cons in Hnd. apply NoDup_cons in Hnd as [Hy Hnd].
  destruct (delete_one b l y k w e Ho ltac:(apply Hin; by left)) as (t & Hrun & Ho').
  destruct (IH _ _ Ho' Hnd) as (t' & x' & Hrest & Ho'' & Hiff).
  { intros z Hz. apply list_elem_of_filter. split; [|apply Hin; by right]. intros Heq. apply Hy.
    rewrite <- Heq. by apply list_elem_of_fmap_2. }
  exists t', x'. split; [|split].
  - cbn [delete_loop]. unfold mbind at 1, go_bind at 1. rewrite Hrun.
    assert ((if indexed (set_tree t b) then h ← call (Hash (Item_ y)); on_idx (remove h (Seq y)) else mret ())
      (Mach (set_tree t b) k w e) =
      (Done (), Mach (set_idx (remove (hash (Item_ y)) (Seq y) <$> idx b) (set_tree t b)) k w e)) as Hidx.
    { unfold indexed. cbn. destruct (idx b) as [x|] eqn:Ex.
      - unfold mbind, go_bind, call. cbn [mw]. rewrite Hash_pure. unfold on_idx, updb. cbn. by rewrite Ex.
      - cbn. unfold set_idx, set_tree. cbn. by rewrite Ex. }
    unfold mbind, go_bind in *. cbn [getb mb]. rewrite Hidx. exact Hrest.
  - rewrite list_filter_filter in Ho''. erewrite filter_in_iff; [exact Ho''|].
    intros z _. rewrite fmap_cons, not_elem_of_cons. tauto.
  - rewrite Hiff. cbn. by destruct (idx b).
Qed.
End own.
