(* ===== verification/OrderedRefines.v ===== *)
(** The ordered backing implements the contract, for items whose methods are pure and keep their
    documented obligations, with or without the hash index: a FIFO queue in the order of the sequence
    numbers, a priority queue in the order of [Less] with ties in order of admission. *)

From stdpp Require Import gmap.
From S2P Require Import Prelude Errors Machine Core Contract Logic Priority ContractFacts SeqOrder.
From S2P Require Import OrdTree Ordered OrderedIndex OrderedOwn.

Section refinement.
Context {W T : Type} `{!Item W T} `{!PureItem W T} (p : bool) `{!ItemLaws p W T} `{!World W}.
Context `{!OrdTree W (SeqItem T)} `{!OrdTreeLaws W (SeqItem T)}.
Abbreviation P := (Ordered.Backing W T).
Abbreviation Q := (QState W T).
Abbreviation SI := (SeqItem T).
Implicit Types (b : P) (q : Q).

Record ord_rel b q : Prop := {
  or_own : ord_own p b (Items (tree b));
  or_items : q_items q = entry_of (hydrateEnd b) <$> Items (tree b);
  or_end : (hydrateEnd b ≤ nextSeq b)%Z;
  or_hydrated : hydrated b = exempt (q_items q);
  or_unordered : idx b ≠ None → ∀ bu, backup b = Some bu → unordered bu;
  or_maxSize : q_maxSize q = maxSize b;
  or_inflight : q_inflight q = inflight b;
  or_notFull : q_notFull q = notFull b;
  or_notEmpty : q_notEmpty q = notEmpty b;
  or_closed : q_closed q = closed b;
  or_backup : q_backup q = backup b;
}.

Lemma or_len b q : ord_rel b q → b_Len b = zlen (q_items q).
Proof. intros Hr. by rewrite (own_Len p _ _ (or_own _ _ Hr)), (or_items _ _ Hr), zlen_fmap. Qed.

Lemma or_load b q : ord_rel b q → (b_Len b - hydrated b + inflight b)%Z = load q.
Proof.
  intros Hr. unfold load. by rewrite (or_len _ _ Hr), (or_hydrated _ _ Hr), (or_inflight _ _ Hr).
Qed.

Lemma or_item_list b q : ord_rel b q → e_item <$> q_items q = Item_ <$> Items (tree b).
Proof. intros Hr. by rewrite (or_items _ _ Hr), <- list_fmap_compose. Qed.

(** Fields other than the contents may change together. *)
Lemma ord_rel_with b q b' q' :
  ord_rel b q →
  tree b' = tree b → idx b' = idx b → nextSeq b' = nextSeq b → hydrateEnd b' = hydrateEnd b →
  hydrated b' = hydrated b → priority b' = priority b → q_items q' = q_items q → backup b' = backup b →
  q_maxSize q' = maxSize b' → q_inflight q' = inflight b' → q_notFull q' = notFull b' →
  q_notEmpty q' = notEmpty b' → q_closed q' = closed b' → q_backup q' = backup b' →
  ord_rel b' q'.
Proof.
  intros [Ho Hit Hend Hhy Hun _ _ _ _ _ _] Ht Hx Hn He Hhd Hp Hi Hbk ??????.
  constructor; try done; rewrite ?Ht, ?Hx, ?Hn, ?He, ?Hhd, ?Hi, ?Hbk; try done.
  destruct Ho. constructor; rewrite ?Ht, ?Hx, ?Hn, ?Hp; done.
Qed.

Ltac with_fields := split; [intros b q Hr; symmetry; apply Hr|];
  intros x b q Hr; apply (ord_rel_with b q); try done; apply Hr.

Lemma ord_inflight_rel : lens_rel ord_rel Ordered.inflight_l Contract.inflight_l.
Proof. with_fields. Qed.
Lemma ord_notFull_rel : lens_rel ord_rel Ordered.notFull_l Contract.notFull_l.
Proof. with_fields. Qed.
Lemma ord_notEmpty_rel : lens_rel ord_rel Ordered.notEmpty_l Contract.notEmpty_l.
Proof. with_fields. Qed.
Lemma ord_closed_rel c b q : ord_rel b q → ord_rel (Ordered.set_closed c b) (Contract.set_closed c q).
Proof. intros Hr. apply (ord_rel_with b q); try done; apply Hr. Qed.

Hint Resolve ord_inflight_rel ord_notFull_rel ord_notEmpty_rel ord_closed_rel : backing_rel.

Ltac rfields Hr ::=
  rewrite <- ?(or_closed _ _ Hr), <- ?(or_maxSize _ _ Hr), <- ?(or_backup _ _ Hr),
    ?(or_load _ _ Hr), ?(or_len _ _ Hr).

Lemma ord_ClosedOrCause_refines ctx :
  refines ord_rel (Ordered.ClosedOrCause ctx) (Contract.ClosedOrCause ctx).
Proof. refine_start. unfold Ordered.ClosedOrCause, Contract.ClosedOrCause. rauto. Qed.
Hint Resolve ord_ClosedOrCause_refines : backing_rel.

Ltac rloop :=
  apply (rwp_forever ord_rel); [rdone|done|];
  clear -ItemLaws0 OrdTreeLaws0; intros [? ? ? ?] [? ? ? ?] [Hr Hk Hw He]; simpl in *; subst.

Lemma ord_NotEmpty_refines ctx options :
  refines ord_rel (Ordered.NotEmpty ctx options) (Contract.NotEmpty ctx options).
Proof. refine_start. unfold Ordered.NotEmpty, Contract.NotEmpty. rstart. rloop. rauto. Qed.

Lemma ord_NotFull_refines ctx options :
  refines ord_rel (Ordered.NotFull ctx options) (Contract.NotFull ctx options).
Proof. refine_start. unfold Ordered.NotFull, Contract.NotFull. rstart. rloop. rauto. Qed.

Lemma ord_Len_refines : refines ord_rel Ordered.Len Contract.Len.
Proof.
  refine_start. unfold Ordered.Len, Contract.Len, rlocked, reading.
  rauto. rewrite (or_len _ _ Hr). rauto.
Qed.

Lemma ord_Close_refines ctx options :
  refines ord_rel (Ordered.Close ctx options) (Contract.Close ctx options).
Proof. refine_start. unfold Ordered.Close, Contract.Close. rstart. rauto. Qed.

Lemma ord_Peek_refines ctx options :
  refines ord_rel (Ordered.Peek ctx options) (Contract.Peek ctx options).
Proof.
  refine_start. unfold Ordered.Peek, Contract.Peek, rlocked, reading. rstart. rauto.
  rewrite Min_Items, (or_items _ _ Hr). destruct (Items (tree _)) as [|x l]; cbn [head fmap list_fmap]; rauto.
Qed.

(** * Push *)

Lemma insert_all_put he n vs l :
  (he ≤ n)%Z → stored p n l →
  insert_all (goes_before p) vs false (entry_of he <$> l) = entry_of he <$> put_all p n vs l.
Proof.
  unfold insert_all. revert n l. induction vs as [|v vs IH]; intros n l He Hl; simpl; [done|].
  assert (Entry v false = entry_of he (MkSeqItem n v)) as ->.
  { unfold entry_of. simpl. by rewrite (proj2 (Z.ltb_ge _ _)) by lia. }
  rewrite (put_entries p) by (done || apply Hl). apply IH; [lia|by apply stored_put].
Qed.

Lemma insert_batch_rel vs b q k w e :
  ord_rel b q → ∃ b', insert_batch vs (Mach b k w e) = (Done (), Mach b' k w e) ∧
    ord_rel b' (set_items (insert_all (goes_before p) vs false (q_items q)) q).
Proof.
  intros Hr. destruct (insert_batch_ok p vs b _ k w e (or_own _ _ Hr)) as (t & x & Hrun & Ho & Hiff).
  eexists. split; [exact Hrun|]. pose proof (zlen_nonneg vs).
  pose proof (oo_items _ _ _ Ho) as Hit. cbn in Hit.
  destruct Hr as [Ho0 Hi0 He Hhy Hun ??????]. constructor; try done; cbn.
  - by rewrite Hit.
  - rewrite Hi0, Hit. apply insert_all_put; [done|apply Ho0].
  - lia.
  - rewrite Hhy, (exempt_Permutation _ _ (insert_all_Permutation (goes_before p) vs false (q_items q))), exempt_app.
    assert (exempt ((λ v, Entry v false) <$> vs) = 0%Z) as ->; [|lia].
    clear. induction vs as [|v vs IH]; [done|]. by rewrite fmap_cons, exempt_cons.
  - intros Hx. apply Hun. by rewrite <- Hiff.
Qed.

Lemma ord_Push_refines ctx vs options :
  refines ord_rel (Ordered.Push ctx vs options) (Contract.Push p (goes_before p) ctx vs options).
Proof.
  refine_start. unfold Ordered.Push, Contract.Push. rstart.
  rstep. rewrite (oo_priority _ _ _ (or_own _ _ HR)).
  rstep. rhelper; [|rdone]. destruct e as [e|]; [rstep; rdone|].
  rloop. rauto.
  all: match goal with |- rwp _ _ _ _ (Mach ?b ?k ?w ?e) _ =>
      destruct (insert_batch_rel vs b _ k w e Hr) as (b' & Hrun & Hrel) end.
  all: rewrite (or_len _ _ Hr); eapply rwp_eval_l; [unfold RunLockedNoErr, on_unwind; by rewrite Hrun|].
  all: apply rwp_updb_r; rrelate ord_rel; [exact Hrel|]; rauto.
Qed.

(** * Pop *)

(** Taking entries out. *)
Lemma ord_rel_remove b q t x gone rest :
  ord_rel b q → ord_own p (with_tree t x (nextSeq b) b) rest → (x = None ↔ idx b = None) →
  Items (tree b) ≡ₚ gone ++ rest →
  ord_rel (set_hydrated (drop_count (hydrateEnd b) (Seq <$> gone) (hydrated b))
             (with_tree t x (nextSeq b) b))
    (set_items (entry_of (hydrateEnd b) <$> rest) q).
Proof.
  intros [Ho Hit Hend Hhy Hun ??????] Ho' Hiff Hperm. pose proof (oo_items _ _ _ Ho') as Hi. cbn in Hi.
  assert (hydrated b = exempt (entry_of (hydrateEnd b) <$> gone) +
    exempt (entry_of (hydrateEnd b) <$> rest))%Z as Hsum.
  { by rewrite Hhy, Hit, (exempt_Permutation _ _ (fmap_Permutation _ _ _ Hperm)), fmap_app, exempt_app. }
  pose proof (exempt_nonneg (entry_of (hydrateEnd b) <$> rest)).
  rewrite drop_count_exempt by lia.
  constructor; try done; cbn; rewrite ?Hi; [by destruct Ho'|done|lia|].
  intros Hx. apply Hun. by rewrite <- Hiff.
Qed.

Lemma pop_loop_rel peeked hashes out j b q k w e :
  ord_rel b q → j ≤ length (q_items q) →
  (indexed b = true → take j hashes = (λ x, hash (Item_ x)) <$> take j (Items (tree b))) →
  ∃ b', pop_loop peeked hashes j 0 out (Mach b k w e) =
      (Done (if peeked then out else out ++ (e_item <$> take j (q_items q))), Mach b' k w e) ∧
    ord_rel b' (set_items (drop j (q_items q)) q).
Proof.
  intros Hr Hj Hh. rewrite (or_items _ _ Hr), length_fmap in Hj.
  destruct (ord_pop_loop_ok p peeked hashes j 0 out b _ k w e (or_own _ _ Hr) Hj ltac:(by rewrite drop_0))
    as (t & x & Hrun & Ho & Hiff). cbv zeta in Hrun, Ho.
  eexists. split; [rewrite Hrun, (or_items _ _ Hr), <- fmap_take, <- list_fmap_compose; done|].
  rewrite (or_items _ _ Hr), <- fmap_drop. eapply ord_rel_remove; [done|by destruct Ho|done|].
  by rewrite take_drop.
Qed.

(** What Pop knows of the entries before it takes them. *)
Lemma peek_rel b q j k w e :
  ord_rel b q → 1 ≤ j → j ≤ length (q_items q) →
  let hashes := (λ x, hash (Item_ x)) <$> take j (Items (tree b)) in
  RunLocked (Scan (peek_iter (indexed b) (Z.of_nat j)) ([], [])) Unlock (Mach b k w e) =
  (Done (e_item <$> take j (q_items q), if indexed b then hashes else []), Mach b k w e).
Proof.
  intros Hr Hj Hl hashes. rewrite (or_items _ _ Hr), length_fmap in Hl.
  unfold RunLocked, on_unwind, Scan, mbind, go_bind. cbn [getb mb].
  pose proof (peek_ok (indexed b) j [] [] (Items (tree b)) (Mach b k w e) Hj Hl) as Hp.
  change (zlen [] + Z.of_nat j)%Z with (Z.of_nat j) in Hp. rewrite Hp, (or_items _ _ Hr), <- fmap_take.
  by rewrite <- list_fmap_compose.
Qed.

Lemma ord_Pop_refines ctx n options : (1 ≤ n)%Z →
  refines ord_rel (Ordered.Pop ctx n options) (Contract.Pop ctx n options).
Proof.
  intros Hn. refine_start. unfold Ordered.Pop, Contract.Pop. rstart.
  apply (rwp_forever ord_rel); [rdone|done|];
  clear -ItemLaws0 OrdTreeLaws0 Hn; intros [? ? ? ?] [? ? ? ?] [Hr Hk Hw He]; simpl in *; subst.
  repeat lazymatch goal with
    | |- rwp (mbind _ (if (_ <? 0)%Z then _ else _)) _ _ _ _ _ => fail
    | _ => first [rdone | progress rhelper | rstep]
    end.
  set (j := Z.to_nat (n `min` zlen (q_items q))).
  assert (1 ≤ j ∧ j ≤ length (q_items q)) as [Hj1 Hj].
  { bool_to_prop. unfold j, zlen in *. lia. }
  assert ((if (zlen (q_items q) <? n)%Z then zlen (q_items q) else n) = Z.of_nat j) as ->.
  { unfold j. case_match; bool_to_prop; lia. }
  rewrite (proj2 (Z.ltb_ge (Z.of_nat j) 0)), Nat2Z.id by lia. apply rwp_ret_l. rstep.
  pose proof (peek_rel b q j WLocked w0 e Hr Hj1 Hj) as Hpeek. cbv zeta in Hpeek.
  set (peeked := indexed b || match backup b with Some _ => true | None => false end).
  set (out := if peeked then e_item <$> take j (q_items q) else []).
  set (hashes := if indexed b then (λ x, hash (Item_ x)) <$> take j (Items (tree b)) else []).
  eapply (rwp_eval_l _ _ _ (out, hashes)).
  { unfold out, hashes. destruct peeked eqn:Ep; [exact Hpeek|]. unfold peeked in Ep.
    apply orb_false_iff in Ep as [-> _]. done. }
  pose proof (λ w, pop_loop_rel peeked hashes out j b q WLocked w e Hr Hj) as Hpop.
  assert (out = if peeked then e_item <$> take j (q_items q) else []) as Hout by done.
  assert ((if peeked then out else out ++ (e_item <$> take j (q_items q))) = e_item <$> take j (q_items q))
    as Hres by (rewrite Hout; by destruct peeked).
  assert (backup b ≠ None → peeked = true) as Hpk.
  { unfold peeked. destruct (backup b); [intros _; apply orb_true_r|done]. }
  assert (indexed b = true → take j hashes = (λ x, hash (Item_ x)) <$> take j (Items (tree b))) as Hidx.
  { unfold hashes. intros ->. by rewrite <- fmap_take, take_take, Nat.min_id. }
  rewrite Hres in Hpop.
  clearbody out peeked. cbv beta iota.
  apply rwp_getb_l, rwp_getb_r; cbn [Machine.mb]; rewrite (or_backup _ _ Hr).
  destruct (backup b) as [bu|]; [rewrite Hpk in Hout by done; rewrite Hout in Hpop |- *; rstep; rhelper|].
  - destruct e2; [rauto|]. destruct (Hpop w1 Hidx) as (b' & Hrun & Hrel). eapply rwp_eval_l; [exact Hrun|]. apply rwp_updb_r.
    rrelate ord_rel; [exact Hrel|]; rauto.
  - rauto.
  - do 2 rstep. destruct (Hpop w0 Hidx) as (b' & Hrun & Hrel). eapply rwp_eval_l; [exact Hrun|]. apply rwp_updb_r.
    rrelate ord_rel; [exact Hrel|]; rauto.
Qed.

(** * Exists and Del *)

Lemma exists_rel b q v se k w e :
  ord_rel b q →
  (match idx b with
   | Some x => h ← call (Hash v); exists_loop v se (bucket h x)
   | None => found ← Scan (exists_iter v) false; e ← RunSideEffect se; mret (found, e)
   end) (Mach b k w e) =
  (e ← RunSideEffect se; mret (existsb (λ x, eqb x v) (e_item <$> q_items q), e)) (Mach b k w e).
Proof.
  intros Hr. rewrite (or_item_list _ _ Hr). destruct (idx b) as [x|] eqn:Ex.
  - unfold mbind at 1, go_bind at 1, call. cbn [mw]. rewrite Hash_pure. cbn [mb mlk menv].
    rewrite ord_exists_loop_ok. by rewrite (exists_bucket p x v _ (oo_idx _ _ _ (or_own _ _ Hr) x Ex)).
  - unfold mbind at 1, go_bind at 1, Scan, mbind at 1, go_bind at 1. cbn [getb mb].
    by rewrite exists_scan_ok.
Qed.

Lemma ord_Exists_refines ctx v options :
  refines ord_rel (Ordered.Exists_ ctx v options) (Contract.Exists_ ctx v options).
Proof.
  refine_start. unfold Ordered.Exists_, Contract.Exists_, rlocked, reading. rstart. rauto.
  eapply rwp_eval_r; [apply scan_pure|]. eapply rwp_ext_l; [by apply exists_rel|]. rauto.
Qed.

Lemma delete_rel b q v toDel k w e :
  ord_rel b q → toDel ≡ₚ filter (doomed v) (Items (tree b)) →
  ∃ b', delete_loop toDel (Mach b k w e) = (Done (), Mach b' k w e) ∧
    ord_rel (dropHydrated (Seq <$> toDel) b')
      (set_items (select false (matched v <$> (e_item <$> q_items q)) (q_items q)) q).
Proof.
  intros Hr Hp. pose proof (or_own _ _ Hr) as Ho. set (l := Items (tree b)) in *.
  assert (NoDup (Seq <$> l)) as Hnd by apply Ho.
  destruct (ord_delete_loop_ok p toDel b l k w e Ho) as (t & x & Hrun & Ho' & Hiff).
  { rewrite Hp. by apply NoDup_Seq_filter. }
  { intros y Hy. rewrite Hp in Hy. by apply list_elem_of_filter in Hy as [_ ?]. }
  eexists. split; [exact Hrun|]. rewrite dropHydrated_count.
  assert (filter (λ y, Seq y ∉ Seq <$> toDel) l = filter (λ y, matched v (Item_ y) = false) l) as Hrest.
  { apply filter_in_iff. intros y Hy. rewrite <- not_true_iff_false. split; intros Hn Hm; apply Hn.
    - apply list_elem_of_fmap_2. rewrite Hp. by apply list_elem_of_filter.
    - apply list_elem_of_fmap in Hm as (z & Heq & Hz). rewrite Hp in Hz.
      apply list_elem_of_filter in Hz as [Hz Hzl]. by rewrite (Seq_inj y z l). }
  rewrite Hrest in Ho'. rewrite (or_item_list _ _ Hr), (or_items _ _ Hr). fold l.
  rewrite <- list_fmap_compose, <- select_fmap, select_filter.
  apply (ord_rel_remove b q t x toDel); [done|done|done|].
  rewrite Hp. apply (filter_split (λ y, matched v (Item_ y))).
Qed.

Lemma ord_Del_refines ctx v options :
  refines ord_rel (Ordered.Del ctx v options) (Contract.Del ctx v options).
Proof.
  refine_start. unfold Ordered.Del, Contract.Del, locked, writing. rstart.
  apply rwp_bind. rhelper; [|rauto]. apply rwp_defer.
  apply rwp_getb_l, rwp_getb_r; cbn [Machine.mb]. rewrite <- (or_closed _ _ Hr).
  destruct (q_closed q) eqn:Hcl; [rauto|].
  destruct (to_delete_ok p v b _ (Mach b WLocked w e) (or_own _ _ Hr) eq_refl)
    as (toDel & Hrun & Hp & Hexact).
  eapply rwp_eval_l; [exact Hrun|]. eapply rwp_eval_r; [apply matching_pure|].
  set (ms := matched v <$> (e_item <$> q_items q)).
  pose proof (λ w, delete_rel b q v toDel WLocked w e Hr Hp) as Hdel. fold ms in Hdel.
  set (removed := select true ms (e_item <$> q_items q)).
  assert (removed = Item_ <$> filter (doomed v) (Items (tree b))) as Hrem.
  { unfold removed, ms. rewrite (or_item_list _ _ Hr), <- list_fmap_compose, <- select_fmap, select_filter.
    done. }
  assert (Item_ <$> toDel ≡ₚ removed) as Hperm by (by rewrite Hrem, Hp).
  assert (zlen toDel = zlen removed) as -> by (unfold zlen; by rewrite <- Hperm, length_fmap).
  assert (∀ bu, backup b = Some bu → bk_Del bu ctx (Item_ <$> toDel) = bk_Del bu ctx removed) as Hbk.
  { intros bu Hb. destruct (idx b) eqn:Ex; [|by rewrite Hexact, Hrem].
    by apply (or_unordered _ _ Hr); [rewrite Ex|..]. }
  clearbody removed ms. clear Hrun Hp Hexact Hrem Hperm.
  rstep; [rauto|]. rstep. rhelper; [|rauto]. destruct e1; [rauto|].
  apply rwp_getb_l, rwp_getb_r; cbn [Machine.mb]. rewrite (or_backup _ _ Hr).
  destruct (backup b) as [bu|]; [rewrite (Hbk bu eq_refl)|]; rauto.
  all: match goal with |- rwp _ _ _ _ (Mach _ _ ?w _) _ => destruct (Hdel w) as (b' & Hrun & Hrel) end.
  all: eapply rwp_eval_l; [exact Hrun|]; apply rwp_updb_l, rwp_updb_r.
  all: rrelate ord_rel; [exact Hrel|]; rauto.
Qed.

(** * Clear and All *)

Lemma ord_clear_rel b q : ord_rel b q →
  ord_rel (set_hydrated 0 (set_idx ((λ _, newBtreeIndex) <$> idx b) (set_tree (tree_Clear (tree b)) b)))
    (set_items [] q).
Proof.
  intros [[Hp Hl Hi Hs Hx] Hit Hend Hhy Hun ??????].
  destruct (Clear_Items (tree b)) as [Hc Hcl]. constructor; try done; cbn; rewrite ?Hc; [|done|].
  - constructor; cbn; [done|by rewrite Hcl|done|split; constructor|].
    intros x (x0 & _ & ->)%fmap_Some. apply idx_ok_new.
  - intros Hne. apply Hun. by destruct (idx b).
Qed.

Lemma ord_Clear_refines ctx options :
  refines ord_rel (Ordered.Clear ctx options) (Contract.Clear ctx options).
Proof.
  refine_start. unfold Ordered.Clear, Contract.Clear, locked, writing. rstart.
  rauto.
  all: unfold on_idx; apply rwp_updb_l, rwp_updb_l, rwp_updb_l, rwp_updb_r; rrelate ord_rel;
    [exact (ord_clear_rel _ _ Hr)|rauto].
Qed.

Lemma all_scan_refines ctx yield l :
  refines ord_rel (scan_items (all_iter ctx yield) l ()) (yield_all ctx yield (Item_ <$> l)).
Proof.
  induction l as [|x l IH]; refine_start; [simpl; rauto|]. rewrite fmap_cons.
  cbn [scan_items yield_all]. generalize dependent (scan_items (all_iter ctx yield) l).
  intros rest IH. unfold all_iter. rauto. destruct e; rauto.
Qed.
Hint Resolve all_scan_refines : backing_rel.

Lemma ord_All_refines ctx yield :
  refines ord_rel (Ordered.All ctx yield) (Contract.All false ctx yield).
Proof.
  refine_start. unfold Ordered.All, Contract.All, rlocked, reading, Scan. rauto.
  rewrite (or_item_list _ _ Hr). rauto.
Qed.

(** * Hydrate *)

(** While the backup is read into a fresh backing: every entry is a restored one, the boundary is not set
    yet. *)
Record ord_loading (bu : Backup W T) b q : Prop := {
  ol_own : ord_own p b (Items (tree b));
  ol_items : q_items q = (λ x, Entry (Item_ x) true) <$> Items (tree b);
  ol_count : hydrated b = zlen (Items (tree b));
  ol_nextSeq : (0 ≤ nextSeq b)%Z;
  ol_backup : backup b = None;
  ol_unordered : idx b ≠ None → unordered bu;
  ol_fields : q_maxSize q = maxSize b ∧ q_inflight q = inflight b ∧ q_notFull q = notFull b ∧
              q_notEmpty q = notEmpty b ∧ q_closed q = closed b ∧ q_backup q = backup b;
}.

Lemma ord_loading_fresh bu b q :
  ord_rel b q → q_items q = [] → backup b = None → (0 ≤ nextSeq b)%Z → (idx b ≠ None → unordered bu) →
  ord_loading bu b q.
Proof.
  intros [Ho Hit Hend Hhy _ ??????] Hq Hb Hn Hun. rewrite Hq in Hit, Hhy. symmetry in Hit.
  apply fmap_nil_inv in Hit. constructor; try done; by rewrite ?Hq, ?Hit, ?Hhy.
Qed.

Lemma ord_loading_step bu v b q k w :
  ord_loading bu b q → ∃ b',
    (hash ← (if indexed b then call (Hash v) else mret 0%Z);
     on_tree (tree_Load (MkSeqItem (nextSeq b) v));;
     updb (λ b, set_nextSeq (nextSeq b + 1)%Z b);;
     on_idx (add hash (MkSeqItem (nextSeq b) v));;
     updb (λ b, set_hydrated (hydrated b + 1)%Z b)) (Mach b k w []) = (Done (), Mach b' k w []) ∧
    ord_loading bu b' (set_items (insert_entry (goes_before p) (Entry v true) (q_items q)) q).
Proof.
  intros [Ho Hit Hc Hn Hb Hun Hf]. destruct (load_ok p b _ v k w [] Ho) as (t & Hrun & Ho').
  exists (set_hydrated (hydrated b + 1) (with_tree t (added v b) (nextSeq b + 1) b)).
  pose proof (oo_items _ _ _ Ho') as Ht. cbn in Ht. split.
  - unfold indexed, added, on_idx in *. destruct (idx b) as [x|] eqn:Ex; unfold mbind, go_bind;
      [unfold call at 1; cbn [mw]; rewrite Hash_pure; cbn [mb mlk menv]|cbn -[on_tree]];
      rewrite Hrun; unfold updb; cbn; by rewrite Ex.
  - assert (Forall (λ y, Seq y < nextSeq b)%Z (Items (tree b))) as Hlt by apply Ho.
    assert (Forall (λ y, Seq y ≠ nextSeq b) (Items (tree b))) as Hne
      by (eapply Forall_impl; [exact Hlt|]; simpl; lia).
    constructor; try done; cbn; rewrite ?Ht; [by destruct Ho'| | |lia|].
    + rewrite Hit. exact (put_entries p (λ x, Entry (Item_ x) true) (MkSeqItem (nextSeq b) v) _ (λ _, eq_refl) Hlt).
    + unfold zlen in *. rewrite (Permutation_length (put_Permutation p (MkSeqItem (nextSeq b) v) _ Hne)).
      simpl. lia.
    + intros Hne'. apply Hun. unfold added in Hne'. by destruct (idx b).
Qed.

Lemma ord_hydrate_loads ctx bu steps b q k w :
  ord_loading bu b q →
  rwp (hydrate_loop ctx bu steps) (hydrate_from p (goes_before p) ctx bu steps)
    (λ a1 a2 t1 t2, a1 = a2 ∧ mlk t1 = k ∧ mlk t2 = k ∧ (a1 = None → ∃ b q w, ord_loading bu b q ∧
       t1 = Mach (set_backup (Some bu) b) k w [] ∧ t2 = Mach (Contract.set_backup (Some bu) q) k w []))
    (λ t1 t2, mlk t1 = k ∧ mlk t2 = k) (Mach b k w []) (Mach q k w []).
Proof.
  revert b q w. induction steps as [|step steps IH]; intros b q w Hl; cbn [hydrate_loop hydrate_from].
  { apply rwp_updb_l, rwp_updb_r, rwp_ret. split_and!; [done..|]. intros _. by exists b, q, w. }
  apply rwp_bind, rwp_call; [|done]. intros [[v [e|]]|] w'; cbv iota.
  - by apply rwp_ret.
  - apply rwp_getb_l. cbn [mb]. rewrite (oo_priority _ _ _ (ol_own _ _ _ Hl)).
    apply rwp_bind, rwp_ValidateKindOne; [|done]. intros [e|] w2; [by apply rwp_ret|].
    apply rwp_bind, rwp_call; [|done]. intros [e|] w3; [by apply rwp_ret|].
    apply rwp_getb_l. cbn [mb].
    destruct (ord_loading_step bu v b q k w3 Hl) as (b' & Hrun & Hl').
    eapply (rwp_ext_l _ (_;; hydrate_loop ctx bu steps)); [|eapply rwp_eval_l; [exact Hrun|]].
    { unfold mbind, go_bind. repeat case_match; simplify_eq; done. }
    apply rwp_updb_r. by apply IH.
  - apply rwp_updb_l, rwp_updb_r, rwp_ret. split_and!; [done..|]. intros _. by exists b, q, w'.
Qed.

(** The boundary is set: what was loaded is restored, what comes is not. *)
Lemma ord_loaded bu b q :
  ord_loading bu b q →
  ord_rel (set_hydrateEnd (nextSeq b) (set_backup (Some bu) b)) (Contract.set_backup (Some bu) q).
Proof.
  intros [Ho Hit Hc Hn Hb Hun Hf]. destruct_and! Hf.
  assert (Forall (λ y, Seq y < nextSeq b)%Z (Items (tree b))) as Hlt by apply Ho.
  assert ((λ x, Entry (Item_ x) true) <$> Items (tree b) = entry_of (nextSeq b) <$> Items (tree b)) as Heq.
  { apply list_fmap_ext. intros i x Hx. unfold entry_of. f_equal. symmetry. apply Z.ltb_lt.
    by eapply Forall_lookup_1 in Hlt. }
  constructor; try done; cbn; [by destruct Ho|by rewrite Hit| |by intros Hx bu' [= <-]; auto].
  rewrite Hc, Hit. clear. induction (Items (tree b)) as [|x l IH]; [done|].
  by rewrite fmap_cons, exempt_cons, zlen_cons, <- IH.
Qed.

Lemma ord_Hydrate_refines ctx bu b q w :
  ord_rel b q → q_items q = [] → backup b = None → (0 ≤ nextSeq b)%Z → (idx b ≠ None → unordered bu) →
  rwp (Ordered.Hydrate ctx bu) (Contract.Hydrate p (goes_before p) ctx bu)
    (λ a1 a2 t1 t2, a1 = a2 ∧ (a1 = None → mrel ord_rel t1 t2)) (λ _ _, True)
    (Mach b Unlocked w []) (Mach q Unlocked w []).
Proof.
  intros Hr Hq Hb Hn Hun. unfold Ordered.Hydrate, Contract.Hydrate, locked, writing.
  apply rwp_bind. unfold rwp, Lock, acquire, interfere; simpl.
  pose proof (ord_hydrate_loads ctx bu (bk_RangeAll bu ctx) b q WLocked w
    (ord_loading_fresh bu b q Hr Hq Hb Hn Hun)) as Hloop.
  apply rwp_defer. unfold rwp in Hloop |- * at 1. unfold defer at 1.
  destruct (hydrate_loop ctx bu _ _) as [[a1| | |] [b1 k1 w1 e1]],
    (hydrate_from p _ ctx bu _ _) as [[a2| | |] [q2 k2 w2 e2]]; try done.
  1: {
    destruct Hloop as (-> & Hk1 & Hk2 & Hnone). simpl in Hk1, Hk2. subst. destruct a2 as [e|]; [done|].
    destruct (Hnone eq_refl) as (b3 & q3 & w3 & Hl & [= -> -> ->] & [= -> -> ->]).
    pose proof (ord_loaded bu b3 q3 Hl). simpl. split; [done|]. intros _. by constructor. }
  all: simpl in *; destruct_and? Hloop; subst; by split_and!.
Qed.
End refinement.
