(* ===== verification/OrderedFacts.v ===== *)
(** The ordered backing, for items whose methods are pure: it implements the contract, the index changes
    nothing that can be seen, and what follows for it in its own terms. *)

From Stdlib Require Import Sorting.Sorted.
From stdpp Require Import gmap.
From S2P Require Import Prelude Errors Machine Core Contract Logic Priority ContractFacts SeqOrder.
From S2P Require Import Interface Options OrdTree Ordered OrderedIndex OrderedOwn OrderedRefines.

Section facts.
Context {W T : Type} `{!Item W T} `{!PureItem W T} `{!World W}.
Context `{!OrdTree W (SeqItem T)} `{!OrdTreeLaws W (SeqItem T)}.
Abbreviation P := (Ordered.Backing W T).
Abbreviation Q := (QState W T).
Abbreviation SI := (SeqItem T).
Implicit Types (b : P) (q : Q) (p : bool).

Definition ord_ops : Ops P W T :=
  MkOps Ordered.Push Ordered.Pop Ordered.Peek Ordered.Exists_ Ordered.Del Ordered.NotEmpty
    Ordered.NotFull Ordered.Len Ordered.Close Ordered.Clear Ordered.All.

#[export] Instance ord_implements p `{!ItemLaws p W T} : Implements (ord_rel p) ord_ops p false (goes_before p).
Proof.
  split; simpl; eauto using ord_Push_refines, ord_Pop_refines, ord_Peek_refines, ord_Exists_refines,
    ord_Del_refines, ord_NotEmpty_refines, ord_NotFull_refines, ord_Len_refines, ord_Close_refines,
    ord_Clear_refines, ord_All_refines.
Qed.

(** The items in the order they will be delivered. *)
Definition delivery b : list T := Item_ <$> Items (tree b).

(** The invariant: tree and index hold the same entries, in order and of distinct numbers, the restored
    ones are counted, and the bound and the wake-ups are kept. *)
Record ord_inv p b : Prop := {
  oi_own : ord_own p b (Items (tree b));
  oi_end : (hydrateEnd b ≤ nextSeq b)%Z;
  oi_hydrated : hydrated b = exempt (entry_of (hydrateEnd b) <$> Items (tree b));
  oi_unordered : idx b ≠ None → ∀ bu, backup b = Some bu → unordered bu;
  oi_maxSize : (0 ≤ maxSize b)%Z;
  oi_bound : (0 < maxSize b)%Z → (b_Len b - hydrated b + inflight b ≤ maxSize b)%Z;
  oi_inflight : (0 ≤ inflight b)%Z;
  oi_notFull : signal_ok (notFull b);
  oi_notEmpty : signal_ok (notEmpty b);
  oi_wake : delivery b ≠ [] → sg_parked (notEmpty b) = [];
  oi_closed : closed b = true → sg_parked (notFull b) = [] ∧ sg_parked (notEmpty b) = [];
}.

(** The queue a backing stands for. *)
Definition ord_queue b : Q :=
  MkQ (entry_of (hydrateEnd b) <$> Items (tree b)) (maxSize b) (inflight b) (notFull b) (notEmpty b)
    (closed b) (backup b).

Lemma ord_inv_of p `{!ItemLaws p W T} b q : ord_rel p b q → Inv 0 q → ord_inv p b.
Proof.
  intros Hr [Hm Hb Hi Hf He Hw Hc]. pose proof (or_load _ _ _ Hr) as Hload.
  pose proof (or_item_list _ _ _ Hr) as Hl. destruct Hr as [Ho Hit Hend Hhy Hun Hms Hin Hnf Hne Hcl _].
  constructor; rewrite <- ?Hms, <- ?Hin, <- ?Hnf, <- ?Hne, <- ?Hcl, <- ?Hit; try done.
  - intros Hmax. specialize (Hb Hmax). lia.
  - unfold delivery. rewrite <- Hl. intros Hd. apply Hw. intros Hnil. by rewrite Hnil in Hd.
Qed.

Lemma ord_queue_rel p `{!ItemLaws p W T} b : ord_inv p b → ord_rel p b (ord_queue b).
Proof. intros []. by constructor. Qed.

Lemma ord_queue_inv p `{!ItemLaws p W T} b : ord_inv p b → Inv 0 (ord_queue b).
Proof.
  intros Hb. pose proof (or_load _ _ _ (ord_queue_rel p b Hb)) as Hload.
  destruct Hb. constructor; simpl; try done.
  - intros Hmax. rewrite <- Hload. auto.
  - intros Hne. apply oi_wake0. intros Hd. apply Hne. unfold delivery in Hd.
    apply fmap_nil_inv in Hd. by rewrite Hd.
Qed.

Lemma ord_inv_represents p `{!ItemLaws p W T} b : ord_inv p b ↔ represents (ord_rel p) b.
Proof.
  split; [|intros (q & Hr & HI); by eapply ord_inv_of].
  intros Hb. exists (ord_queue b). split; [by apply ord_queue_rel|by eapply ord_queue_inv].
Qed.

Lemma ord_queue_items b : e_item <$> q_items (ord_queue b) = delivery b.
Proof. simpl. by rewrite <- list_fmap_compose. Qed.

(** A new backing satisfies the invariant, whatever bound is set on it. *)
Lemma ord_New_rel p `{!ItemLaws p W T} o b m :
  newBacking o (sless p) p = inl b → ord_rel p (set_maxSize m b) (MkQ [] m 0 NewSignal NewSignal false None).
Proof.
  unfold newBacking. destruct (Width o <? 2)%Z; [done|]. intros [= <-].
  constructor; cbn; rewrite ?Items_New; try done.
  constructor; cbn; rewrite ?Items_New, ?less_New; [done|apply slt_pure|done|split; constructor|].
  intros x Hx. destruct (Index o); [|done]. injection Hx as <-. apply idx_ok_new.
Qed.

Lemma ord_New_inv p `{!ItemLaws p W T} o b : newBacking o (sless p) p = inl b → ord_inv p b.
Proof.
  intros Hnew. apply (ord_inv_of p b (MkQ [] 0 0 NewSignal NewSignal false None)).
  - apply (ord_New_rel p o b 0) in Hnew as Hr. unfold newBacking in Hnew.
    destruct (Width o <? 2)%Z; [done|]. by injection Hnew as <-.
  - constructor; simpl; try done; by intros i Hi%elem_of_nil.
Qed.

(** * Properties *)

(** C12: The ordered backing, FIFO or priority, with or without the index, for items whose
    methods return and leave the world alone, with Hash consistent with Equal and, in a priority
    queue, Less a strict weak order, and, when there is an index, a backup whose Del does not care
    in what order the items are listed: whatever operation a goroutine runs (copy-on-write iteration
    apart), from a state that satisfies the invariant and with any operations of other goroutines
    between its lock sections, it never misuses the lock, ends with the lock released and
    re-establishes the invariant (tree and index hold the same entries in order, the bound, the
    count of restored entries, the wake-ups), and stays parked only when nobody else acts. Side
    effects, hooks and the backup may fail, panic or end the goroutine. *)
Theorem ordered_safe p `{!ItemLaws p W T} (o : Op W T) (others : list (Op W T)) b w :
  ord_inv p b → op_ok o → Forall op_ok others →
  wp (exec ord_ops o) (λ _ t, mlk t = Unlocked ∧ ord_inv p (mb t))
    (λ u t, mlk t = Unlocked ∧ ord_inv p (mb t) ∧ (u = None → menv t = []))
    (Mach b Unlocked w (others_of ord_ops others)).
Proof.
  intros Hf Ho Hos. eapply wp_mono; [| |apply (impl_safe (ord_rel p) ord_ops p false (goes_before p))];
    [| |by apply ord_inv_represents|done|done]; simpl.
  - intros _ t. by rewrite ord_inv_represents.
  - intros u t. by rewrite ord_inv_represents.
Qed.

(** ** Order *)

(** Items that arrive go to the end of a FIFO queue, and into a stable sort of a priority queue. *)
Definition queued p (vs l : list T) : list T := if p then arrive vs l else l ++ vs.

Lemma insert_all_queued p `{!ItemLaws p W T} vs r (l : list (entry T)) :
  e_item <$> insert_all (goes_before p) vs r l = queued p vs (e_item <$> l).
Proof.
  unfold queued, goes_before. destruct p; [apply insert_all_items|].
  by rewrite insert_all_fifo, fmap_app, fmap_item_entry.
Qed.

(** C27: Batches pushed onto an open ordered backing with room for them and no backup come out,
    in a FIFO queue in exactly the order they went in behind what was there, in a priority queue
    inserted into the stable sort of what was there: Pop returns the first n items of that. The
    claim is for items whose methods return and leave the world alone, with Hash consistent with
    Equal and, in a priority queue, Less a strict weak order. *)
Theorem ordered_order p `{!ItemLaws p W T} ctx bs n b w :
  ord_inv p b → closed b = false → backup b = None → (1 ≤ n)%Z →
  Forall (λ v, if p then prio v ≠ 0%Z else prio v = 0%Z) (concat bs) →
  maxSize b = 0%Z ∨ (b_Len b - hydrated b + inflight b + zlen (concat bs) ≤ maxSize b)%Z →
  let l := queued p (concat bs) (delivery b) in
  l ≠ [] →
  ∃ t, (push_all ord_ops ctx bs;; Ordered.Pop ctx n []) (Mach b Unlocked w []) =
       (Done (take (Z.to_nat (Z.min n (zlen l))) l, None), t).
Proof.
  intros Hb Hcl Hbk Hn Hok Hfit l Hne. pose proof (ord_queue_rel p b Hb) as Hr.
  pose proof (insert_all_queued p (concat bs) false (q_items (ord_queue b))) as Hl.
  rewrite ord_queue_items in Hl. fold l in Hl.
  destruct (impl_push_pop (ord_rel p) ord_ops p false (goes_before p) ctx bs n b (ord_queue b) w)
    as [t Ht]; try done; [by apply ord_Pop_refines|..].
  - split; [done|]. split; [done|]. split; apply Hb.
  - eapply Forall_impl; [exact Hok|]. intros v Hv. unfold kind_ok. destruct p; [by apply Z.eqb_neq|by rewrite Hv].
  - unfold fits. rewrite <- (or_load _ _ _ Hr). done.
  - intros Hnil. by rewrite Hnil in Hl.
  - exists t. etransitivity; [exact Ht|]. by rewrite fmap_take, <- zlen_fmap with (f := e_item), Hl.
Qed.

(** ** The index *)

Lemma ord_rel_unindexed p `{!ItemLaws p W T} b q : ord_rel p b q → ord_rel p (set_idx None b) q.
Proof. intros [[] ?]. by constructor. Qed.

(** C16: The hash index changes nothing but the work, for items whose methods return and leave
    the world alone, with Hash consistent with Equal and, in a priority queue, Less a strict weak
    order, and a backup whose Del does not care in what order the items are listed: any sequence of
    operations (copy-on-write iteration apart), under any interference by other operations, gives
    the same answers and leaves the world, the lock and the items in their order as it does on the
    backing without the index. *)
Theorem ordered_index_transparent p `{!ItemLaws p W T} (os others : list (Op W T)) b w :
  ord_inv p b → Forall op_ok os → Forall op_ok others →
  let r1 := exec_all ord_ops os (Mach b Unlocked w (others_of ord_ops others)) in
  let r2 := exec_all ord_ops os (Mach (set_idx None b) Unlocked w (others_of ord_ops others)) in
  r1.1 = r2.1 ∧ mw r1.2 = mw r2.2 ∧ mlk r1.2 = mlk r2.2 ∧ delivery (mb r1.2) = delivery (mb r2.2).
Proof.
  intros Hb Ho Hos r1 r2. pose proof (ord_queue_rel p b Hb) as Hr.
  destruct (impl_agree (ord_rel p) ord_ops (ord_rel p) ord_ops p false (goes_before p) os others b
    (set_idx None b) (ord_queue b) w) as (? & ? & ? & q & H1 & H2); try done; [by apply ord_rel_unindexed|].
  split_and!; try done. unfold delivery.
  etrans; [symmetry; exact (or_item_list _ _ _ H1)|exact (or_item_list _ _ _ H2)].
Qed.
End facts.

(** * AllCOW *)

Section iteration.
Context {W T : Type} `{!Item W T} `{!World W} `{!OrdTree W (SeqItem T)}.
Abbreviation P := (Ordered.Backing W T).
Implicit Types (b : P) (l : list (SeqItem T)).

Lemma all_iter_eq ctx yield x b k w e :
  all_iter ctx yield () x (Mach b k w e) =
  match ctx_cause ctx (tick w) with
  | Some cause => match yield zero (Some cause) (tick w) with
                  | (Ok _, w') => (Done ((), false), Mach b k w' e)
                  | (Unw u, w') => (Unwound u, Mach b k w' e)
                  end
  | None => match yield (Item_ x) None (tick w) with
            | (Ok more, w') => (Done ((), more), Mach b k w' e)
            | (Unw u, w') => (Unwound u, Mach b k w' e)
            end
  end.
Proof.
  unfold all_iter, ctx_done, mbind, go_bind, updw, getw, call. cbn.
  destruct (ctx_cause ctx (tick w)); cbn; [by destruct (yield zero _ (tick w)) as [[]]|].
  by destruct (yield (Item_ x) None (tick w)) as [[]].
Qed.

Lemma snap_loop_eq ctx yield v (vs : list T) b k w e :
  snap_loop ctx yield (v :: vs) (Mach b k w e) =
  match ctx_cause ctx (tick w) with
  | Some cause => match yield zero (Some cause) (tick w) with
                  | (Ok _, w') => (Done (), Mach b k w' e)
                  | (Unw u, w') => (Unwound u, Mach b k w' e)
                  end
  | None => match yield v None (tick w) with
            | (Ok true, w') => snap_loop ctx yield vs (Mach b k w' e)
            | (Ok false, w') => (Done (), Mach b k w' e)
            | (Unw u, w') => (Unwound u, Mach b k w' e)
            end
  end.
Proof.
  cbn [snap_loop]. unfold ctx_done, mbind, go_bind, updw, getw, call. cbn.
  destruct (ctx_cause ctx (tick w)); cbn; [by destruct (yield zero _ (tick w)) as [[]]|].
  by destruct (yield v None (tick w)) as [[[]|]].
Qed.

(** The loop over a slice of items and the loop over the tree act on the world only, whoever holds the
    lock. *)
Lemma snap_loop_lock ctx yield l b w e :
  ∃ o w', (∀ k, snap_loop ctx yield (Item_ <$> l) (Mach b k w e) = (o, Mach b k w' e)) ∧
          (∀ k, scan_items (all_iter ctx yield) l () (Mach b k w e) = (o, Mach b k w' e)) ∧
          (o = Done () ∨ ∃ u, o = Unwound u).
Proof.
  revert w. induction l as [|x l IH]; intros w; [eexists _, _; split_and!; [done..|by left]|].
  cbn [fmap list_fmap]. setoid_rewrite snap_loop_eq. cbn [scan_items]. unfold mbind, go_bind.
  setoid_rewrite all_iter_eq. destruct (ctx_cause ctx (tick w)) as [cause|].
  - destruct (yield zero (Some cause) (tick w)) as [[?|?] w']; eexists _, _; split_and!; try done; eauto.
  - destruct (yield (Item_ x) None (tick w)) as [[[]|?] w'];
      [apply IH|eexists _, _; split_and!; try done; eauto..].
Qed.

(** Once a writer waits, the rest is copied. *)
Lemma cow_collect ctx yield l c (s : mach P W) :
  contended c = true →
  scan_items (cow_iter ctx yield) l c s =
  (Done (MkCow (snap c ++ (Item_ <$> l)) true (stop c) (cerr c)), s).
Proof.
  revert c. induction l as [|x l IH]; intros c Hc.
  { rewrite app_nil_r. destruct c; cbn in *; by subst. }
  assert (cow_iter ctx yield c x s = (Done (MkCow (snap c ++ [Item_ x]) true (stop c) (cerr c), true), s))
    as Hiter by (unfold cow_iter; by rewrite Hc).
  cbn [scan_items]. unfold mbind, go_bind in *. rewrite Hiter, IH by done. cbn. by rewrite <- app_assoc.
Qed.

(** What AllCOW does once the scan is over. *)
Definition after_scan (ctx : Ctx W) (yield : T → option err → code W bool) (c : cow) : go P W unit :=
  release_held;;
  match cerr c with
  | Some e => call (yield zero (Some e));; mret ()
  | None => if stop c then mret () else snap_loop ctx yield (snap c)
  end.

(** Time that nobody can observe. *)
Hypothesis tick_idle : ∀ w : W, tick w = w.

Lemma cow_iter_eq ctx yield c x b w e :
  contended c = false →
  cow_iter ctx yield c x (Mach b RLocked w e) =
  if write_wanted w
  then (Done (MkCow (snap c ++ [Item_ x]) true (stop c) (cerr c), true), Mach b RLocked w e)
  else match ctx_cause ctx w with
  | Some cause => (Done (MkCow (snap c) (contended c) true (Some cause), false), Mach b RLocked w e)
  | None => match yield (Item_ x) None w with
            | (Ok more, w') => (Done (if more : bool then (c, true) else
                (MkCow (snap c) (contended c) true (cerr c), false)), Mach b RLocked w' e)
            | (Unw u, w') => (Unwound u, Mach b RLocked w' e)
            end
  end.
Proof.
  intros Hc. unfold cow_iter. rewrite Hc. unfold WriteWanted, ctx_done, mbind, go_bind, updw, getw, call.
  cbn. rewrite tick_idle. destruct (write_wanted w); cbn; [done|]. rewrite tick_idle.
  destruct (ctx_cause ctx w); cbn; [done|]. by destruct (yield (Item_ x) None w) as [[]].
Qed.

Lemma scan_cow_all ctx yield l b w e :
  ∃ o w' k, (c ← scan_items (cow_iter ctx yield) l (MkCow [] false false None); after_scan ctx yield c)
      (Mach b RLocked w e) = (o, Mach b k w' e) ∧
    (k = RLocked ∨ k = Unlocked) ∧
    scan_items (all_iter ctx yield) l () (Mach b RLocked w e) = (o, Mach b RLocked w' e) ∧
    (o = Done () ∨ ∃ u, o = Unwound u).
Proof.
  revert w. induction l as [|x l IH]; intros w; [exists (Done ()), w, Unlocked; split_and!; auto|].
  cbn [scan_items]. destruct (write_wanted w) eqn:Hww.
  - destruct (snap_loop_lock ctx yield (x :: l) b w e) as (o & w' & Hsnap & Hall & Ho).
    exists o, w', Unlocked. split_and!; auto; [|exact (Hall RLocked)].
    rewrite <- (Hsnap Unlocked). unfold mbind at 1 2, go_bind at 1 2.
    rewrite cow_iter_eq, Hww by done. cbn. by rewrite cow_collect.
  - unfold mbind, go_bind in *. rewrite cow_iter_eq, all_iter_eq, Hww, tick_idle by done. destruct (ctx_cause ctx w) as [cause|].
    + cbn. destruct (yield zero (Some cause) w) as [[?|?] w'] eqn:Ey; unfold after_scan, call, mbind, go_bind; cbn;
        rewrite Ey; eexists _, _, Unlocked; split_and!; eauto.
    + destruct (yield (Item_ x) None w) as [[[]|u] w']; [apply IH|..]; cbn.
      * exists (Done ()), w', Unlocked. split_and!; auto.
      * exists (Unwound u), w', RLocked. split_and!; eauto.
Qed.

Lemma bind_done {A C} (m : go P W A) (k : A → go P W C) a s t :
  m s = (Done a, t) → (x ← m; k x) s = k a t.
Proof. intros Hm. unfold mbind, go_bind. by rewrite Hm. Qed.

(** With time standing still the copy-on-write iteration of the ordered backing does exactly what the
    locked iteration does, from any state and under any interference, wherever a waiting writer makes it
    switch to its copy. *)
Theorem ordered_AllCOW ctx yield (s : mach P W) :
  mlk s = Unlocked → Ordered.AllCOW ctx yield s = Ordered.All ctx yield s.
Proof.
  destruct s as [b k w e]. simpl. intros ->. unfold Ordered.AllCOW, Ordered.All, rlocked.
  assert (∃ b' w' e', RLock (Mach b Unlocked w e) = (Done (), Mach b' RLocked w' e'))
    as (b' & w' & e' & Hlock) by (by eexists _, _, _).
  rewrite !(bind_done RLock _ _ _ _ Hlock). unfold defer. unfold Scan.
  rewrite !(bind_done getb _ b' (Mach b' RLocked w' e') (Mach b' RLocked w' e')) by done. destruct (closed b').
  - unfold release_held, RUnlock, call, mbind, go_bind, mret, go_ret. simpl.
    by destruct (yield zero _ w') as [[] ?].
  - destruct (scan_cow_all ctx yield (Items (tree b')) b' w' e') as (o & w2 & k2 & Hcow & Hk & Hall & Ho).
    unfold after_scan in Hcow. unfold mbind at 1 2, go_bind at 1 2.
    rewrite !(bind_done getb _ b' (Mach b' RLocked w' e') (Mach b' RLocked w' e')) by done.
    unfold mbind at 1 2, go_bind at 1 2 in Hcow. rewrite Hall, Hcow.
    destruct Hk as [-> | ->], Ho as [->|[u ->]]; done.
Qed.
End iteration.
