(* ===== verification/Backings.v ===== *)
(** The tree backings under a queue, from its construction: an empty backing satisfies the invariant, and a
    queue built over a backup holds what the backup held, in the order in which it is to be delivered. And
    the in-memory FIFO backings side by side: the slice, the positional tree and the ordered tree. *)

From stdpp Require Import gmap.
From S2P Require Import Prelude Errors Machine Core Options Slice Contract Logic Priority ContractFacts SeqOrder.
From S2P Require Import Interface Queue QueueFacts QueueNew Fifo FifoRefines FifoFacts.
From S2P Require Import Btree BtreeOwn BtreeTree BtypeFifo BtypeRefines BtypeFacts.
From S2P Require Import OrdTree Ordered OrderedIndex OrderedOwn OrderedRefines OrderedFacts.

(** * The positional tree *)

Section positional_queue.
Context {W T : Type} `{!Item W T} `{!World W}.

#[local] Existing Instance nothing.

Definition btype_setup : Setup (BtypeFifo.Backing W T) W T :=
  MkSetup BtypeFifo.AllCOW BtypeFifo.Hydrate BtypeFifo.SetMaxBatch BtypeFifo.SetMaxSize.

Lemma btype_New_rel m :
  btype_rel (BtypeFifo.set_maxSize m BtypeFifo.New : BtypeFifo.Backing W T)
    (MkQ [] m 0 NewSignal NewSignal false None).
Proof. constructor; simpl; try done; [apply tree_own_new|by exists 0]. Qed.

Lemma btype_New_inv : btype_inv nothing (BtypeFifo.New : BtypeFifo.Backing W T) [].
Proof.
  apply (btype_inv_of nothing (BtypeFifo.New : BtypeFifo.Backing W T) (MkQ [] 0 0 NewSignal NewSignal false None)).
  - apply (btype_New_rel 0).
  - constructor; simpl; try done; try by intros i Hi%elem_of_nil.
Qed.

Context `{!PureItem W T} `{!Telemetry W}.

(** A B-tree FIFO queue built over a backup that lists some items holds exactly those items
    in that order, open, mirroring to the backup, exempt from the size bound, with the depth gauge
    seeded. *)
Theorem btype_restores ctx named maxSize n bk vs w :
  (1 ≤ n)%Z → lists bk ctx vs → Forall (λ v, prio v = 0%Z) vs →
  ∃ q t, Queue.New btype_ops btype_setup ctx named true maxSize (over_backup n bk)
           (Mach BtypeFifo.New Unlocked w []) = (Done (inl q), t) ∧
    qu_maxBatch q = n ∧ mlk t = Unlocked ∧ btype_inv nothing (mb t) vs ∧
    BtypeFifo.backup (mb t) = Some bk ∧ BtypeFifo.closed (mb t) = false ∧
    (named = true → m_lastDepth (met (mw t)) = zlen vs ∧ m_depth (met (mw t)) = zlen vs).
Proof.
  intros Hn Hl Hvs. set (m := (if (maxSize <? 1)%Z then 0 else maxSize)%Z).
  destruct (New_hydrated btype_rel btype_ops btype_setup false false (λ _ _, false) ctx named maxSize
    (over_backup n bk) bk BtypeFifo.New BtypeFifo.New (BtypeFifo.set_maxSize m BtypeFifo.New)
    (MkQ [] m 0 NewSignal NewSignal false None) vs w) as (t & Hrun & Hk & Hr & Hd).
  - by apply over_backup_valid.
  - simpl. unfold BtypeFifo.SetMaxBatch. by rewrite (proj2 (Z.ltb_ge n 1)).
  - fold m. simpl. unfold BtypeFifo.SetMaxSize. rewrite (proj2 (Z.ltb_ge m 0)); [done|].
    unfold m. destruct (maxSize <? 1)%Z eqn:Hmx; bool_to_prop; lia.
  - intros w'. eapply rwp_mono; [| |apply btype_Hydrate_refines]; [|done|..]; try done.
    + intros a1 a2 t1 t2 [-> Hm]. done.
    + apply mrel_mach; [apply btype_New_rel|constructor].
  - done.
  - eapply Forall_impl; [exact Hvs|]. intros v Hv. unfold kind_ok. by rewrite Hv.
  - done.
  - do 2 eexists. split; [exact Hrun|]. split; [done|]. split; [done|].
    pose proof (btype_inv_of _ _ _ Hr (restored_inv maxSize bk (λ _ _, false) vs)) as HI.
    rewrite <- (br_backup _ _ Hr), <- (br_closed _ _ Hr). simpl in *.
    rewrite insert_all_nobefore in HI. simpl in HI. rewrite <- list_fmap_compose in HI. simpl in HI.
    change (e_item ∘ (λ v, Entry v true)) with (@id T) in HI. by rewrite list_fmap_id in HI.
Qed.
End positional_queue.

(** * The ordered tree *)

Section ordered_queue.
Context {W T : Type} `{!Item W T} `{!PureItem W T} `{!World W}.
Context `{!OrdTree W (SeqItem T)} `{!OrdTreeLaws W (SeqItem T)} `{!Telemetry W}.

Definition ord_setup : Setup (Ordered.Backing W T) W T :=
  MkSetup Ordered.AllCOW Ordered.Hydrate Ordered.SetMaxBatch Ordered.SetMaxSize.

(** C35: An ordered queue built over a backup that lists some items of the queue's kind holds
    exactly those items, in the order of the backup if it is a FIFO queue and stably sorted by
    priority if not, with or without the index, open, mirroring to the backup, with the depth gauge
    seeded. The claim is for items whose methods return and leave the world alone, with Hash
    consistent with Equal and, in a priority queue, Less a strict weak order, and for a backup whose
    RangeAll and OnLoad succeed without touching the world and, when there is an index, whose Del
    does not care in what order the items are listed. *)
Theorem ordered_restores p `{!ItemLaws p W T} o b ctx named maxSize n bk vs w :
  newBacking o (sless p) p = inl b → (1 ≤ n)%Z → lists bk ctx vs → (Index o = true → unordered bk) →
  Forall (λ v, if p then prio v ≠ 0%Z else prio v = 0%Z) vs →
  ∃ q t, Queue.New ord_ops ord_setup ctx named true maxSize (over_backup n bk)
           (Mach b Unlocked w []) = (Done (inl q), t) ∧
    qu_maxBatch q = n ∧ mlk t = Unlocked ∧ ord_inv p (mb t) ∧ delivery (mb t) = queued p vs [] ∧
    backup (mb t) = Some bk ∧ closed (mb t) = false ∧
    (named = true → m_lastDepth (met (mw t)) = zlen vs ∧ m_depth (met (mw t)) = zlen vs).
Proof.
  intros Hnew Hn Hl Hun Hvs. set (mx := (if (maxSize <? 1)%Z then 0 else maxSize)%Z).
  pose proof (ord_New_rel p o b mx Hnew) as Hrel.
  assert (backup b = None ∧ nextSeq b = 0%Z ∧ (idx b ≠ None → Index o = true)) as (Hbk & Hseq & Hidx).
  { revert Hnew. unfold newBacking. destruct (Width o <? 2)%Z; [done|]. intros [= <-].
    split_and!; try done. simpl. by destruct (Index o). }
  destruct (New_hydrated (ord_rel p) ord_ops ord_setup p false (goes_before p) ctx named maxSize
    (over_backup n bk) bk b b (set_maxSize mx b) (MkQ [] mx 0 NewSignal NewSignal false None) vs w)
    as (t & Hrun & Hk & Hr & Hd).
  - by apply over_backup_valid.
  - simpl. unfold Ordered.SetMaxBatch. by rewrite (proj2 (Z.ltb_ge n 1)).
  - fold mx. simpl. unfold Ordered.SetMaxSize. rewrite (proj2 (Z.ltb_ge mx 0)); [done|].
    unfold mx. destruct (maxSize <? 1)%Z eqn:Hmx; bool_to_prop; lia.
  - intros w'. apply (ord_Hydrate_refines p); [done|done|done|simpl; lia|]. intros Hi. by apply Hun, Hidx.
  - done.
  - eapply Forall_impl; [exact Hvs|]. intros v Hv. unfold kind_ok. destruct p; [by apply Z.eqb_neq|by rewrite Hv].
  - done.
  - do 2 eexists. split; [exact Hrun|]. split; [done|]. split; [done|].
    split; [exact (ord_inv_of p _ _ Hr (restored_inv maxSize bk (goes_before p) vs))|].
    rewrite <- (or_backup _ _ _ Hr), <- (or_closed _ _ _ Hr). split; [|done].
    unfold delivery. rewrite <- (or_item_list _ _ _ Hr). apply (insert_all_queued p vs true []).
Qed.
End ordered_queue.

(** * Side by side *)

Section agree.
Context {W T : Type} `{!Item W T} `{!World W} `{!Grow}.
Context `{!OrdTree W (SeqItem T)} `{!OrdTreeLaws W (SeqItem T)}.

#[local] Existing Instance nothing.

(** What a program sees of a run: how it ended, the world and whether it holds the lock. *)
Definition observed {B A} (r : outcome A * mach B W) : outcome A * W * lockmode := (r.1, mw r.2, mlk r.2).

(** Two backings that stand for the same queue of the contract. *)
Lemma observed_agree {B1 B2} (R1 : B1 → QState W T → Prop) ops1 (R2 : B2 → QState W T → Prop) ops2
    `{!Implements R1 ops1 false false (λ _ _, false)} `{!Implements R2 ops2 false false (λ _ _, false)}
    os others b1 b2 q w :
  R1 b1 q → R2 b2 q → Forall op_ok os → Forall op_ok others →
  observed (exec_all ops1 os (Mach b1 Unlocked w (others_of ops1 others))) =
  observed (exec_all ops2 os (Mach b2 Unlocked w (others_of ops2 others))).
Proof.
  intros Hr1 Hr2 Hos Hothers.
  destruct (impl_agree R1 ops1 R2 ops2 false false (λ _ _, false) os others b1 b2 q w Hr1 Hr2 Hos Hothers)
    as (H1 & H2 & H3 & _).
  unfold observed. by rewrite H1, H2, H3.
Qed.

(** C17: A program cannot tell the in-memory FIFO backings apart. Built with the same bound and
    put through the same operations (copy-on-write iteration apart), with the same operations of
    other goroutines between their lock sections, the slice and the positional tree return the same
    results and call the items, the hooks, the side effects and the backup with the same effect on
    the world, whatever the items do: their methods may panic, end the goroutine and change the
    world. The ordered tree, indexed or not and of any width, does so too for items whose methods
    return and leave the world alone, with Hash consistent with Equal; nothing is asked of Less. *)
Theorem fifo_backings_agree mx (os others : list (Op W T)) w :
  Forall op_ok os → Forall op_ok others →
  let slice := exec_all fifo_ops os
    (Mach (Fifo.set_maxSize mx Fifo.New) Unlocked w (others_of fifo_ops others)) in
  let positional := exec_all btype_ops os
    (Mach (BtypeFifo.set_maxSize mx BtypeFifo.New) Unlocked w (others_of btype_ops others)) in
  observed slice = observed positional ∧
  ∀ `{!PureItem W T} `{!ItemLaws false W T} o bo, newBacking o (sless false) false = inl bo →
    let ordered := exec_all ord_ops os
      (Mach (Ordered.set_maxSize mx bo) Unlocked w (others_of ord_ops others)) in
    observed slice = observed ordered.
Proof.
  intros Hos Hothers slice positional.
  set (q := MkQ [] mx 0 NewSignal NewSignal false None : QState W T). split.
  - by apply (observed_agree fifo_rel fifo_ops btype_rel btype_ops _ _ _ _ q); [apply New_rel|apply btype_New_rel|..].
  - intros Hpure Hlaws o bo Hnew. by apply (observed_agree fifo_rel fifo_ops (ord_rel false) ord_ops _ _ _ _ q);
      [apply New_rel|apply (ord_New_rel false o bo)|..].
Qed.
End agree.
