(* ===== verification/Bolt.v ===== *)
(** go.etcd.io/bbolt, the store that package bbolt keeps its items in, as far as the package relies on
    it: one bucket of key/value pairs in the byte order of their keys, with a sequence counter, read and
    changed in transactions. The operations are a class, what the library documents of them a class of
    laws; the instance at the end, a sorted list on a disk that fails at chosen writes, shows that the laws
    can be had. *)

From Stdlib Require Import Sorting.Sorted.
From S2P Require Import Prelude Errors.

(** A Go [[]byte]. *)
Abbreviation bytes := (list Z).

(** The order of [bytes.Compare]. *)
Fixpoint bytes_lt (a b : bytes) : bool :=
  match a, b with
  | _, [] => false
  | [], _ :: _ => true
  | x :: a, y :: b => (x <? y)%Z || ((x =? y)%Z && bytes_lt a b)
  end.

(** Every operation may fail; a transaction that saw a failure is rolled back. [Commit] gives the new
    store, or the error and the store as it is then. [file_of] is the file that a store keeps its pages in,
    which is there when the process is gone. *)
Class Bolt := {
  DB : Type;
  Tx : Type;
  File : Type;
  file_of : DB → File;
  db_Open : File → DB + err;
  Begin : DB → Tx + err;
  pairs : Tx → list (bytes * bytes);
  sequence : Tx → Z;
  Get : bytes → Tx → option bytes;
  Put : bytes → bytes → Tx → Tx + err;
  Delete : bytes → Tx → Tx + err;
  NextSequence : Tx → Z * Tx + err;
  CreateBucketIfNotExists : Tx → Tx + err;
  DeleteBucket : Tx → Tx + err;
  CreateBucket : Tx → Tx + err;
  KeyN : Tx → Z;
  Commit : Tx → DB → option err * DB;
  db_Close : DB → option err * DB;
}.

(** What a put and a delete do to the pairs in order. *)
Fixpoint bput (k d : bytes) (l : list (bytes * bytes)) : list (bytes * bytes) :=
  match l with
  | [] => [(k, d)]
  | (k', d') :: l =>
      if bytes_lt k' k then (k', d') :: bput k d l
      else if bytes_lt k k' then (k, d) :: (k', d') :: l
      else (k, d) :: l
  end.

Definition bdel (k : bytes) (l : list (bytes * bytes)) : list (bytes * bytes) :=
  filter (λ p, p.1 ≠ k) l.

Definition bget (k : bytes) (l : list (bytes * bytes)) : option bytes :=
  snd <$> find (λ p, bool_decide (p.1 = k)) l.

(** What a transaction would see of a store. *)
Definition view_of `{!Bolt} (d : DB) : option (list (bytes * bytes) * Z) :=
  match Begin d with inl tx => Some (pairs tx, sequence tx) | inr _ => None end.

(** NextSequence counts up from 1 in 64 bits; a bucket in which it has wrapped is not considered. *)
Class BoltLaws `{!Bolt} : Prop := {
  pairs_sorted tx : StronglySorted (λ p q, bytes_lt p.1 q.1 = true) (pairs tx);
  Get_pairs k tx : Get k tx = bget k (pairs tx);
  Put_pairs k d tx tx' : Put k d tx = inl tx' →
    pairs tx' = bput k d (pairs tx) ∧ sequence tx' = sequence tx;
  Delete_pairs k tx tx' : Delete k tx = inl tx' →
    pairs tx' = bdel k (pairs tx) ∧ sequence tx' = sequence tx;
  NextSequence_pairs tx n tx' : NextSequence tx = inl (n, tx') →
    n = (sequence tx + 1)%Z ∧ (n < two64)%Z ∧ pairs tx' = pairs tx ∧ sequence tx' = n;
  sequence_nonneg tx : (0 ≤ sequence tx)%Z;
  CreateBucketIfNotExists_pairs tx tx' : CreateBucketIfNotExists tx = inl tx' →
    pairs tx' = pairs tx ∧ sequence tx' = sequence tx;
  DeleteBucket_pairs tx tx1 tx' : DeleteBucket tx = inl tx1 → CreateBucket tx1 = inl tx' →
    pairs tx' = [] ∧ sequence tx' = 0%Z;
  KeyN_pairs tx : KeyN tx = zlen (pairs tx);
  Commit_ok tx d d' : Commit tx d = (None, d') → view_of d' = Some (pairs tx, sequence tx);
  Commit_failed tx d d' e : Commit tx d = (Some e, d') → view_of d' = view_of d;
  Open_view d d' v : view_of d = Some v → db_Open (file_of d) = inl d' → view_of d' = Some v;
  Close_file d : file_of (db_Close d).2 = file_of d;
}.

(** What the file of a store holds: whoever opens it sees that. *)
Definition on_file `{!Bolt} (d : DB) (v : list (bytes * bytes) * Z) : Prop :=
  ∀ d', db_Open (file_of d) = inl d' → view_of d' = Some v.

Lemma view_on_file `{!Bolt} `{!BoltLaws} d v : view_of d = Some v → on_file d v.
Proof. intros Hv d' Ho. by eapply Open_view. Qed.

Lemma on_file_close `{!Bolt} `{!BoltLaws} d v : on_file d v → on_file (db_Close d).2 v.
Proof. unfold on_file. by rewrite Close_file. Qed.

(** * The order of byte strings *)

Lemma bytes_lt_irrefl a : bytes_lt a a = false.
Proof. induction a as [|x a IH]; [done|]. simpl. by rewrite Z.ltb_irrefl, Z.eqb_refl. Qed.

Lemma bytes_lt_trans a b c : bytes_lt a b = true → bytes_lt b c = true → bytes_lt a c = true.
Proof.
  revert b c. induction a as [|x a IH]; intros [|y b] [|z c]; simpl; try done.
  rewrite !orb_true_iff, !andb_true_iff, !Z.ltb_lt, !Z.eqb_eq.
  intros [?|[-> ?]] [?|[-> ?]]; [left; lia|left; lia|left; lia|right]. split; [done|]. eauto.
Qed.

Lemma bytes_lt_asym a b : bytes_lt a b = true → bytes_lt b a = false.
Proof.
  intros Hab. destruct (bytes_lt b a) eqn:Hba; [|done].
  by rewrite <- (bytes_lt_irrefl a), (bytes_lt_trans _ _ _ Hab Hba).
Qed.

Lemma bytes_lt_total a b : bytes_lt a b = false → bytes_lt b a = false → a = b.
Proof.
  revert b. induction a as [|x a IH]; intros [|y b]; simpl; try done.
  rewrite !orb_false_iff, !andb_false_iff, !Z.ltb_ge, !Z.eqb_neq.
  intros [? [?|?]] [? [?|?]]; try lia. f_equal; [lia|]. by apply IH.
Qed.

(** * The laws hold of a sorted list *)

Module ListStore.

(** [plan] says of the coming commits whether they fail; a closed store begins no transaction. *)
Record store := MkStore { rows : list (bytes * bytes); seq_no : Z; plan : list bool; open : bool }.

Definition sorted (l : list (bytes * bytes)) : Prop := StronglySorted (λ p q, bytes_lt p.1 q.1 = true) l.

Record txn := MkTxn { t_rows : list (bytes * bytes); t_seq : Z;
                      t_sorted : sorted t_rows; t_seq_ok : (0 ≤ t_seq)%Z }.

Fixpoint is_sorted (l : list (bytes * bytes)) : bool :=
  match l with
  | p :: ((q :: _) as l) => bytes_lt p.1 q.1 && is_sorted l
  | _ => true
  end.

Lemma is_sorted_sound l : is_sorted l = true → sorted l.
Proof.
  intros Hl. apply Sorted_StronglySorted; [intros x y z; apply bytes_lt_trans|].
  induction l as [|p [|q l] IH]; [constructor|repeat constructor|].
  cbn [is_sorted] in Hl. apply andb_prop in Hl as [Hpq Hl]. constructor; [by apply IH|by constructor].
Qed.

Lemma bput_sorted k d l : sorted l → sorted (bput k d l).
Proof.
  unfold sorted. induction 1 as [|[k' d'] l Hl IH Hall]; simpl; [repeat constructor|].
  destruct (bytes_lt k' k) eqn:H1; [|destruct (bytes_lt k k') eqn:H2].
  - constructor; [done|]. clear IH Hl. induction l as [|[k2 d2] l IHl]; simpl; [repeat constructor; done|].
    inversion_clear Hall. case_match; [|case_match]; repeat constructor; try done. by apply IHl.
  - constructor; [by constructor|]. constructor; [done|].
    eapply Forall_impl; [exact Hall|]. intros p Hp. simpl in *. by eapply bytes_lt_trans.
  - rewrite (bytes_lt_total k' k H1 H2) in Hall. by constructor.
Qed.

Lemma bdel_sorted k l : sorted l → sorted (bdel k l).
Proof.
  unfold sorted, bdel. induction 1 as [|p l Hl IH Hall]; [constructor|]. rewrite filter_cons.
  case_decide; [|done]. constructor; [done|]. rewrite Forall_forall in *. intros q Hq.
  apply list_elem_of_filter in Hq as [_ Hq]. by apply Hall.
Qed.

Definition begin (d : store) : txn + err :=
  match decide (is_sorted (rows d) = true), decide (0 ≤ seq_no d)%Z with
  | left Hs, left Hn => if open d then inl (MkTxn (rows d) (seq_no d) (is_sorted_sound _ Hs) Hn)
                        else inr (Foreign 1 [])
  | _, _ => inr (Foreign 2 [])
  end.

Definition next (t : txn) : Z * txn + err :=
  if (t_seq t + 1 <? two64)%Z
  then inl ((t_seq t + 1)%Z, MkTxn (t_rows t) (t_seq t + 1) (t_sorted t) (Z.add_nonneg_nonneg _ _ (t_seq_ok t) Z.le_0_1))
  else inr (Foreign 3 []).

Definition commit (t : txn) (d : store) : option err * store :=
  match plan d with
  | true :: l => (Some (Foreign 4 []), MkStore (rows d) (seq_no d) l (open d))
  | l => (None, MkStore (t_rows t) (t_seq t) (tail l) true)
  end.

#[export] Instance list_bolt : Bolt := {|
  DB := store; Tx := txn; File := store;
  file_of := λ d, MkStore (rows d) (seq_no d) (plan d) true;
  db_Open := inl;
  Begin := begin;
  pairs := t_rows;
  sequence := t_seq;
  Get := λ k t, bget k (t_rows t);
  Put := λ k v t, inl (MkTxn (bput k v (t_rows t)) (t_seq t) (bput_sorted k v _ (t_sorted t)) (t_seq_ok t));
  Delete := λ k t, inl (MkTxn (bdel k (t_rows t)) (t_seq t) (bdel_sorted k _ (t_sorted t)) (t_seq_ok t));
  NextSequence := next;
  CreateBucketIfNotExists := inl;
  DeleteBucket := λ t, inl (MkTxn [] 0 (SSorted_nil _) (Z.le_refl 0));
  CreateBucket := inl;
  KeyN := λ t, zlen (t_rows t);
  Commit := commit;
  db_Close := λ d, (None, MkStore (rows d) (seq_no d) (plan d) false);
|}.

Lemma sorted_is_sorted l : sorted l → is_sorted l = true.
Proof.
  induction 1 as [|p l Hl IH Hall]; [done|]. destruct l as [|q l]; [done|]. cbn [is_sorted]. apply andb_true_intro. split; [|done].
  by inversion_clear Hall.
Qed.

Lemma view_begin l n pl : sorted l → (0 ≤ n)%Z → view_of (MkStore l n pl true) = Some (l, n).
Proof.
  intros Hl Hn. unfold view_of. simpl. unfold begin. simpl.
  destruct (decide (is_sorted l = true)) as [?|Hs]; [|by rewrite sorted_is_sorted in Hs].
  by destruct (decide (0 ≤ n)%Z).
Qed.

#[export] Instance list_laws : BoltLaws.
Proof.
  split; simpl; try (intros; congruence).
  - intros tx. apply tx.
  - intros k d tx tx' [= <-]. done.
  - intros k tx tx' [= <-]. done.
  - intros tx n tx'. unfold next. destruct (_ <? _)%Z eqn:Hlt; [|done]. intros [= <- <-].
    bool_to_prop. done.
  - intros tx. apply tx.
  - intros tx tx' [= <-]. done.
  - intros tx tx1 tx' [= <-] [= <-]. done.
  - intros tx [l n pl o] d'. unfold commit. simpl. destruct pl as [|[] pl]; simpl; [| done|];
      intros [= <-]; by apply view_begin; apply tx.
  - intros tx [l n pl o] d' e. unfold commit. simpl. destruct pl as [|[] pl]; simpl; [done| |done].
    intros [= _ <-]. unfold view_of, begin. simpl. by destruct (decide (is_sorted l = true)), (decide (0 ≤ n)%Z), o.
  - intros [l n pl o] d' v Hv [= <-]. revert Hv. unfold view_of. simpl. unfold begin. simpl.
    by destruct (decide (is_sorted l = true)), (decide (0 ≤ n)%Z), o.
Qed.
End ListStore.
