(* ===== verification/BboltKeys.v ===== *)
(** The keys under which package bbolt stores items (bbolt.go): the sequence number, or the complemented
    priority and the sequence number, as big-endian words. The byte order of the keys is the order in which
    the items are to be delivered. *)

From S2P Require Import Prelude Errors Machine Core Bolt.

(** [binary.BigEndian.PutUint64] into eight bytes. *)
Definition PutUint64 (v : Z) : bytes :=
  (λ s, Z.land (Z.shiftr v s) 255) <$> [56; 48; 40; 32; 24; 16; 8; 0]%Z.

Section keys.
Context {W T : Type} `{!Item W T}.

Definition fifoKey (_ : T) (seq : Z) : code W bytes := λ w, (Ok (PutUint64 seq), w).

(** [^v.Priority()] is the complement in 64 bits. *)
Definition priorityKey (v : T) (seq : Z) : code W bytes := λ w,
  match Priority v w with
  | (Ok p, w) => (Ok (PutUint64 (wrap64 (Z.lnot p)) ++ PutUint64 seq), w)
  | (Unw u, w) => (Unw u, w)
  end.
End keys.

(** * Big-endian words in byte order *)

(** The low [k] digits of [n] to the base 256, most significant first. *)
Fixpoint digits (k : nat) (n : Z) : bytes :=
  match k with
  | O => []
  | S k => digits k (n / 256) ++ [n mod 256]%Z
  end.

Lemma digits_length k n : length (digits k n) = k.
Proof. revert n. induction k as [|k IH]; intros n; simpl; [done|]. rewrite length_app, IH. simpl. lia. Qed.

Lemma bytes_lt_snoc a b x y :
  length a = length b →
  bytes_lt (a ++ [x]) (b ++ [y]) = bytes_lt a b || (bool_decide (a = b) && (x <? y)%Z).
Proof.
  revert b. induction a as [|c a IH]; intros [|d b]; try done; intros Hlen; simpl; try injection Hlen as Hlen.
  { rewrite andb_false_r. by destruct (x <? y)%Z. }
  rewrite IH by done. destruct (c <? d)%Z eqn:H1; [done|]. simpl. destruct (c =? d)%Z eqn:H2; simpl.
  - apply Z.eqb_eq in H2 as ->. f_equal. f_equal. apply bool_decide_ext. split; congruence.
  - rewrite bool_decide_false; [done|]. intros [= -> _]. by rewrite Z.eqb_refl in H2.
Qed.

Lemma digits_lt k a b :
  (0 ≤ a < 256 ^ Z.of_nat k)%Z → (0 ≤ b < 256 ^ Z.of_nat k)%Z →
  bytes_lt (digits k a) (digits k b) = (a <? b)%Z ∧ (digits k a = digits k b → a = b).
Proof.
  revert a b. induction k as [|k IH]; intros a b Ha Hb; [simpl in *; split; [symmetry; apply Z.ltb_ge|]; lia|].
  rewrite Nat2Z.inj_succ, Z.pow_succ_r in Ha, Hb by lia. cbn [digits].
  destruct (IH (a / 256) (b / 256))%Z as [Hlt Heq];
    [split; [apply Z.div_pos|apply Z.div_lt_upper_bound]; lia..|].
  pose proof (Z.div_mod a 256 ltac:(lia)) as Ea. pose proof (Z.div_mod b 256 ltac:(lia)) as Eb.
  pose proof (Z.mod_pos_bound a 256 ltac:(lia)). pose proof (Z.mod_pos_bound b 256 ltac:(lia)).
  split.
  - rewrite bytes_lt_snoc by (by rewrite !digits_length). rewrite Hlt.
    destruct (decide (digits k (a / 256) = digits k (b / 256))) as [E|E].
    + rewrite bool_decide_true by done. specialize (Heq E). rewrite Heq, Z.ltb_irrefl. simpl.
      apply eq_iff_eq_true. rewrite !Z.ltb_lt. lia.
    + rewrite bool_decide_false by done. rewrite orb_false_r. apply eq_iff_eq_true. rewrite !Z.ltb_lt.
      assert (a / 256 ≠ b / 256)%Z by (intros Hd; by rewrite Hd in E). lia.
  - intros Happ. apply app_inj_2 in Happ as [E1 [= E2]]; [|done]. specialize (Heq E1). lia.
Qed.

Lemma PutUint64_digits n : (0 ≤ n)%Z → PutUint64 n = digits 8 n.
Proof.
  intros Hn. unfold PutUint64. cbn [digits fmap list_fmap app].
  assert (∀ s, (0 ≤ s)%Z → Z.land (Z.shiftr n s) 255 = (n / 2 ^ s mod 256)%Z) as E.
  { intros s Hs. change 255%Z with (Z.ones 8). rewrite Z.land_ones by lia. by rewrite Z.shiftr_div_pow2. }
  rewrite !E by lia. rewrite !Z.div_div by lia. rewrite Z.pow_0_r, Z.div_1_r. done.
Qed.

(** Sequence numbers and priorities are 64-bit words. *)
Definition word (n : Z) : Prop := (0 ≤ n < two64)%Z.

Lemma PutUint64_lt a b :
  word a → word b → bytes_lt (PutUint64 a) (PutUint64 b) = (a <? b)%Z.
Proof. unfold word. intros Ha Hb. rewrite !PutUint64_digits by lia. by apply digits_lt. Qed.

Lemma PutUint64_inj a b :
  word a → word b → PutUint64 a = PutUint64 b → a = b.
Proof. unfold word. intros Ha Hb. rewrite !PutUint64_digits by lia. by apply digits_lt. Qed.

Lemma bytes_lt_app a b x y :
  length a = length b →
  bytes_lt (a ++ x) (b ++ y) = bytes_lt a b || (bool_decide (a = b) && bytes_lt x y).
Proof.
  revert b. induction a as [|c a IH]; intros [|d b]; try done; intros Hlen; simpl; try injection Hlen as Hlen.
  rewrite IH by done. destruct (c <? d)%Z; [done|]. simpl. destruct (c =? d)%Z eqn:H2; simpl.
  - apply Z.eqb_eq in H2 as ->. f_equal. f_equal. apply bool_decide_ext. split; congruence.
  - rewrite bool_decide_false; [done|]. intros [= -> _]. by rewrite Z.eqb_refl in H2.
Qed.

(** * The order of the keys *)

Section order.
Context {W T : Type} `{!Item W T} `{!SteadyItem W T}.

(** What the key functions return. *)
Definition keyOf_fn (p : bool) : T → Z → code W bytes := if p then priorityKey else fifoKey.
Definition key (p : bool) (v : T) (seq : Z) : bytes :=
  (if p then PutUint64 (wrap64 (Z.lnot (prio v))) else []) ++ PutUint64 seq.

Lemma keyOf_value p v seq w k w' : keyOf_fn p v seq w = (Ok k, w') → k = key p v seq.
Proof.
  destruct p; [|by intros [= <- _]]. simpl. unfold priorityKey, key.
  destruct (Priority v w) as [[r|] w1] eqn:Hr; intros [= <- _]. by apply Priority_value in Hr as ->.
Qed.

Definition ranked (p : bool) (v : T) : Prop := p = true → word (prio v).

(** Who goes first on disk. *)
Definition disk_first (p : bool) (v : T) (s : Z) (v' : T) (s' : Z) : bool :=
  if p then (prio v' <? prio v)%Z || ((prio v =? prio v')%Z && (s <? s')%Z) else (s <? s')%Z.

Lemma lnot_word n : word n → wrap64 (Z.lnot n) = (two64 - 1 - n)%Z.
Proof.
  unfold word, wrap64. intros. rewrite Z.lnot_eq_pred_opp. unfold Z.pred.
  rewrite <- (Z.mod_add _ 1) by done. rewrite Z.mod_small; lia.
Qed.

Lemma key_lt p v s v' s' :
  ranked p v → ranked p v' → word s → word s' →
  bytes_lt (key p v s) (key p v' s') = disk_first p v s v' s'.
Proof.
  unfold key, disk_first. intros Hv Hv' Hs Hs'. destruct p; [|by apply PutUint64_lt].
  specialize (Hv eq_refl). specialize (Hv' eq_refl). rewrite !lnot_word by done.
  assert (∀ n, word n → word (two64 - 1 - n)) as Hc by (unfold word, two64; intros; lia).
  rewrite bytes_lt_app by done. rewrite !PutUint64_lt by auto.
  f_equal; [apply eq_iff_eq_true; rewrite !Z.ltb_lt; lia|]. f_equal.
  apply eq_iff_eq_true. rewrite bool_decide_eq_true, Z.eqb_eq. split; [|by intros ->].
  intros Heq%PutUint64_inj; auto. lia.
Qed.

Lemma key_inj p v s v' s' : word s → word s' → key p v s = key p v' s' → s = s'.
Proof.
  unfold key. intros Hs Hs' Heq.
  apply app_inj_2 in Heq as [_ Heq]; [by apply PutUint64_inj in Heq|done].
Qed.

End order.

Section pure_order.
Context {W T : Type} `{!Item W T} `{!PureItem W T}.

Lemma keyOf_pure p v seq (w : W) : keyOf_fn p v seq w = (Ok (key p v seq), w).
Proof. destruct p; [|done]. simpl. unfold priorityKey. by rewrite Priority_pure. Qed.

(** The byte order of the keys in the store is the order of delivery: by sequence number in a FIFO
    queue, by priority, the highest first, and then by sequence number in a priority queue, over the whole
    range of 64-bit priorities and sequence numbers. Keys of different sequence numbers are different, and
    all keys of a queue have the same length. *)
(** C22: The byte order of the keys in the store is the order of delivery: by sequence number in
    a FIFO queue, by priority, the highest first, and then by sequence number in a priority queue,
    over the whole range of 64-bit priorities and sequence numbers. Keys of different sequence
    numbers are different, and all keys of a queue have the same length. *)
Theorem disk_key_order p v s v' s' w :
  ranked p v → ranked p v' → word s → word s' →
  ∃ k k', keyOf_fn p v s w = (Ok k, w) ∧ keyOf_fn p v' s' w = (Ok k', w) ∧
    bytes_lt k k' = disk_first p v s v' s' ∧ (k = k' → s = s') ∧
    length k = (if p then 16 else 8) ∧ length k' = length k.
Proof.
  intros. exists (key p v s), (key p v' s'). rewrite !keyOf_pure. split_and!; try done.
  - by apply key_lt.
  - by apply key_inj.
  - by destruct p.
  - by destruct p.
Qed.
End pure_order.
