(* ===== verification/Bbolt.v ===== *)
(** Package bbolt: the on-disk backing (bbolt/bbolt.go), FIFO or priority, with its optional hash index,
    the staging buffer that Push fills, the flusher that commits it, and the shutdown. The store is the
    third-party one of [Bolt.v].

    The flusher is a goroutine of its own: the operations of the callers run it in their windows, and it
    runs theirs in its own. It holds no lock while it writes to the store. What it holds by pointer ([blamed],
    [released]) and what the goroutine that performs a shutdown keeps in its frame ([gErr], [bErr], [cErr],
    [complete]) are fields here, since the code that ends a frame early has to find them. Allocated things
    (flush results, clear commands, channels) have numbers. *)

From stdpp Require Import gmap.
From S2P Require Import Prelude Errors Machine Core Options Bolt BboltKeys.

(** What the backing asks of the platform: which ready case a select takes, whether a timer it waits with
    has fired, the contexts and their errors, the result of the flusher's group. *)
Class Runtime (W : Type) := {
  flip : W → bool;
  expired : W → bool;
  WithTimeout : Z → Ctx W;
  Canceled : err;
  Err : err → err;
  Group_Wait : Ctx W → code W (option err);
}.

(** github.com/go-json-experiment/json; it may call methods of the item type. *)
Class Json (W T : Type) := {
  json_Marshal : T → code W (bytes + err);
  json_Unmarshal : bytes → code W (T + err);
}.

(** * Data *)

Definition hydrateBatch : Z := 100.

Record index := MkIndex { m : gmap Z (list bytes) }.

Definition newIndex : index := MkIndex ∅.

Definition bucket (hash : Z) (x : index) : list bytes := default [] (m x !! hash).

Definition add (hash : Z) (storageKey : bytes) (x : index) : index :=
  MkIndex (<[hash := bucket hash x ++ [storageKey]]> (m x)).

(** [s[i] = s[len(s)-1]; s = s[:len(s)-1]] for the first [i] with that key. *)
Definition remove_key (k : bytes) (s : list bytes) : list bytes :=
  match list_find (λ k', k' = k) s, last s with
  | Some (i, _), Some z => take (length s - 1) (<[i := z]> s)
  | _, _ => s
  end.

Definition remove (hash : Z) (storageKey : bytes) (x : index) : index :=
  match remove_key storageKey (bucket hash x) with
  | [] => MkIndex (delete hash (m x))
  | s => MkIndex (<[hash := s]> (m x))
  end.

(** The body of caller code that the flusher runs. *)
Record codeSubject := MkSubject { what : string; where_ : string; sent : option sentinel }.
Definition no_subject : codeSubject := MkSubject "" "" None.

Definition setSideEffect (given : bool) : codeSubject :=
  if given then MkSubject "the side effect" "" (Some ErrSideEffectFailed) else no_subject.
Definition setBackup (given : bool) (name : string) (c : codeSubject) : codeSubject :=
  if given then MkSubject name (where_ c) (Some ErrBackupFailed) else MkSubject "" (where_ c) None.
Definition setCodec (c : codeSubject) : codeSubject :=
  MkSubject "the item codec" (where_ c) (Some ErrCodecFailed).
Definition setItem (c : codeSubject) : codeSubject :=
  MkSubject "the Item's method" (where_ c) (Some ErrItemFailed).
Definition clear_subject (c : codeSubject) : codeSubject := MkSubject "" (where_ c) None.

(** What an unwind is reported as: [sent] is nil when [what] is empty. *)
Definition blame (doing how suffix : string) (c : codeSubject) : err :=
  match sent c with
  | None => Errorf ("the queue " ++ how ++ doing) []
  | Some s => Errorf (what c ++ " " ++ how ++ suffix) [Sentinel s]
  end.

Record clearCmd (W : Type) := MkClear {
  cmd_ctx : Ctx W;
  cmd_sideEffect : option (code W (option err));
  cmd_id : nat;
}.
Arguments MkClear {W} _ _ _.
Arguments cmd_ctx {W} _.
Arguments cmd_sideEffect {W} _.
Arguments cmd_id {W} _.

(** What does not change once the flusher runs: the constructor sets it, and a test its budgets. *)
Record Config (W T : Type) := MkConfig {
  keyOf : T → Z → code W bytes;
  priority : bool;
  encode : option (T → code W (bytes + err));
  decode : option (bytes → code W (T + err));
  FaultAfterBackup : option (code W (option err));
  CommitStart : option (code W unit);
  flushParent : Ctx W;
  drain : Z;
  slack : Z;
}.
Arguments MkConfig {W T} _ _ _ _ _ _ _ _ _.
Arguments keyOf {W T} _.
Arguments priority {W T} _.
Arguments encode {W T} _.
Arguments decode {W T} _.
Arguments FaultAfterBackup {W T} _.
Arguments CommitStart {W T} _.
Arguments flushParent {W T} _.
Arguments drain {W T} _.
Arguments slack {W T} _.

(** The staging buffer and the flusher. [cur] numbers the flush result that a Push joins; [settled] has the
    results whose [done] is closed. *)
Record Staging (W T : Type) := MkStaging {
  buf : list T;
  cur : nat;
  settled : gmap nat (option err);
  flushReq : bool;
  clearReq : option (clearCmd W);
  nextCmd : nat;
  cmdDone : gmap nat (option err);
  flushCancelled : bool;
  flusherStarted : bool;
  flusherDone : bool;
  inClear : bool;
  blamed : codeSubject;
  released : bool;
}.
Arguments MkStaging {W T} _ _ _ _ _ _ _ _ _ _ _ _ _.
Arguments buf {W T} _.
Arguments cur {W T} _.
Arguments settled {W T} _.
Arguments flushReq {W T} _.
Arguments clearReq {W T} _.
Arguments nextCmd {W T} _.
Arguments cmdDone {W T} _.
Arguments flushCancelled {W T} _.
Arguments flusherStarted {W T} _.
Arguments flusherDone {W T} _.
Arguments inClear {W T} _.
Arguments blamed {W T} _.
Arguments released {W T} _.

(** The shutdown; [shutClosed] are the channels [shutDone] that were closed. *)
Record Shutdown := MkShutdown {
  shutBusy : bool;
  shutComplete : bool;
  shutCommitted : bool;
  shutDone : nat;
  shutClosed : gset nat;
  shutGErr : option err;
  shutBErr : option err;
  shutCErr : option err;
  gErr : option err;
  bErr : option err;
  cErr : option err;
  complete : bool;
}.

Record Backing (W T : Type) `{!Bolt} := MkBacking {
  cfg : Config W T;
  db : DB;
  idx : option index;
  count : Z;
  inflight : Z;
  maxSize : Z;
  maxBatch : Z;
  notFull : Signal;
  notEmpty : Signal;
  closed : bool;
  backup : option (Backup W T);
  stg : Staging W T;
  shut : Shutdown;
}.
Arguments MkBacking {W T _} _ _ _ _ _ _ _ _ _ _ _ _ _.
Arguments cfg {W T _} _.
Arguments db {W T _} _.
Arguments idx {W T _} _.
Arguments count {W T _} _.
Arguments inflight {W T _} _.
Arguments maxSize {W T _} _.
Arguments maxBatch {W T _} _.
Arguments notFull {W T _} _.
Arguments notEmpty {W T _} _.
Arguments closed {W T _} _.
Arguments backup {W T _} _.
Arguments stg {W T _} _.
Arguments shut {W T _} _.

Section bbolt.
Context {W T : Type} `{!Item W T} `{!World W} `{!Runtime W} `{!Json W T} `{!Bolt}.
Abbreviation B := (Backing W T).
Abbreviation M := (go (Backing W T) W).

Definition set_buf x (g : Staging W T) : Staging W T := MkStaging x (cur g) (settled g) (flushReq
  g) (clearReq g) (nextCmd g) (cmdDone g) (flushCancelled g) (flusherStarted g) (flusherDone g)
  (inClear g) (blamed g) (released g).
Definition set_cur x (g : Staging W T) : Staging W T := MkStaging (buf g) x (settled g) (flushReq
  g) (clearReq g) (nextCmd g) (cmdDone g) (flushCancelled g) (flusherStarted g) (flusherDone g)
  (inClear g) (blamed g) (released g).
Definition set_settled x (g : Staging W T) : Staging W T := MkStaging (buf g) (cur g) x (flushReq
  g) (clearReq g) (nextCmd g) (cmdDone g) (flushCancelled g) (flusherStarted g) (flusherDone g)
  (inClear g) (blamed g) (released g).
Definition set_flushReq x (g : Staging W T) : Staging W T := MkStaging (buf g) (cur g) (settled g)
  x (clearReq g) (nextCmd g) (cmdDone g) (flushCancelled g) (flusherStarted g) (flusherDone g)
  (inClear g) (blamed g) (released g).
Definition set_clearReq x (g : Staging W T) : Staging W T := MkStaging (buf g) (cur g) (settled g)
  (flushReq g) x (nextCmd g) (cmdDone g) (flushCancelled g) (flusherStarted g) (flusherDone g)
  (inClear g) (blamed g) (released g).
Definition set_cmdDone x (g : Staging W T) : Staging W T := MkStaging (buf g) (cur g) (settled g)
  (flushReq g) (clearReq g) (nextCmd g) x (flushCancelled g) (flusherStarted g) (flusherDone g)
  (inClear g) (blamed g) (released g).
Definition set_flushCancelled x (g : Staging W T) : Staging W T := MkStaging (buf g) (cur g)
  (settled g) (flushReq g) (clearReq g) (nextCmd g) (cmdDone g) x (flusherStarted g) (flusherDone
  g) (inClear g) (blamed g) (released g).
Definition set_flusherStarted x (g : Staging W T) : Staging W T := MkStaging (buf g) (cur g)
  (settled g) (flushReq g) (clearReq g) (nextCmd g) (cmdDone g) (flushCancelled g) x (flusherDone
  g) (inClear g) (blamed g) (released g).
Definition set_flusherDone x (g : Staging W T) : Staging W T := MkStaging (buf g) (cur g) (settled
  g) (flushReq g) (clearReq g) (nextCmd g) (cmdDone g) (flushCancelled g) (flusherStarted g) x
  (inClear g) (blamed g) (released g).
Definition set_inClear x (g : Staging W T) : Staging W T := MkStaging (buf g) (cur g) (settled g)
  (flushReq g) (clearReq g) (nextCmd g) (cmdDone g) (flushCancelled g) (flusherStarted g)
  (flusherDone g) x (blamed g) (released g).
Definition set_blamed x (g : Staging W T) : Staging W T := MkStaging (buf g) (cur g) (settled g)
  (flushReq g) (clearReq g) (nextCmd g) (cmdDone g) (flushCancelled g) (flusherStarted g)
  (flusherDone g) (inClear g) x (released g).
Definition set_released x (g : Staging W T) : Staging W T := MkStaging (buf g) (cur g) (settled g)
  (flushReq g) (clearReq g) (nextCmd g) (cmdDone g) (flushCancelled g) (flusherStarted g)
  (flusherDone g) (inClear g) (blamed g) x.
Definition set_nextCmd x (g : Staging W T) : Staging W T := MkStaging (buf g) (cur g) (settled g)
  (flushReq g) (clearReq g) x (cmdDone g) (flushCancelled g) (flusherStarted g) (flusherDone g)
  (inClear g) (blamed g) (released g).

Definition set_shutBusy x (h : Shutdown) : Shutdown := MkShutdown x (shutComplete h)
  (shutCommitted h) (shutDone h) (shutClosed h) (shutGErr h) (shutBErr h) (shutCErr h) (gErr h)
  (bErr h) (cErr h) (complete h).
Definition set_shutComplete x (h : Shutdown) : Shutdown := MkShutdown (shutBusy h) x
  (shutCommitted h) (shutDone h) (shutClosed h) (shutGErr h) (shutBErr h) (shutCErr h) (gErr h)
  (bErr h) (cErr h) (complete h).
Definition set_shutCommitted x (h : Shutdown) : Shutdown := MkShutdown (shutBusy h) (shutComplete
  h) x (shutDone h) (shutClosed h) (shutGErr h) (shutBErr h) (shutCErr h) (gErr h) (bErr h) (cErr
  h) (complete h).
Definition set_shutDone x (h : Shutdown) : Shutdown := MkShutdown (shutBusy h) (shutComplete h)
  (shutCommitted h) x (shutClosed h) (shutGErr h) (shutBErr h) (shutCErr h) (gErr h) (bErr h)
  (cErr h) (complete h).
Definition set_shutClosed x (h : Shutdown) : Shutdown := MkShutdown (shutBusy h) (shutComplete h)
  (shutCommitted h) (shutDone h) x (shutGErr h) (shutBErr h) (shutCErr h) (gErr h) (bErr h) (cErr
  h) (complete h).
Definition set_gErr x (h : Shutdown) : Shutdown := MkShutdown (shutBusy h) (shutComplete h)
  (shutCommitted h) (shutDone h) (shutClosed h) (shutGErr h) (shutBErr h) (shutCErr h) x (bErr h)
  (cErr h) (complete h).
Definition set_bErr x (h : Shutdown) : Shutdown := MkShutdown (shutBusy h) (shutComplete h)
  (shutCommitted h) (shutDone h) (shutClosed h) (shutGErr h) (shutBErr h) (shutCErr h) (gErr h) x
  (cErr h) (complete h).
Definition set_cErr x (h : Shutdown) : Shutdown := MkShutdown (shutBusy h) (shutComplete h)
  (shutCommitted h) (shutDone h) (shutClosed h) (shutGErr h) (shutBErr h) (shutCErr h) (gErr h)
  (bErr h) x (complete h).
Definition set_complete x (h : Shutdown) : Shutdown := MkShutdown (shutBusy h) (shutComplete h)
  (shutCommitted h) (shutDone h) (shutClosed h) (shutGErr h) (shutBErr h) (shutCErr h) (gErr h)
  (bErr h) (cErr h) x.

Definition set_db x (b : B) : B := MkBacking (cfg b) x (idx b) (count b) (inflight b) (maxSize b)
  (maxBatch b) (notFull b) (notEmpty b) (closed b) (backup b) (stg b) (shut b).
Definition set_idx x (b : B) : B := MkBacking (cfg b) (db b) x (count b) (inflight b) (maxSize b)
  (maxBatch b) (notFull b) (notEmpty b) (closed b) (backup b) (stg b) (shut b).
Definition set_count x (b : B) : B := MkBacking (cfg b) (db b) (idx b) x (inflight b) (maxSize b)
  (maxBatch b) (notFull b) (notEmpty b) (closed b) (backup b) (stg b) (shut b).
Definition set_maxSize x (b : B) : B := MkBacking (cfg b) (db b) (idx b) (count b) (inflight b) x
  (maxBatch b) (notFull b) (notEmpty b) (closed b) (backup b) (stg b) (shut b).
Definition set_maxBatch x (b : B) : B := MkBacking (cfg b) (db b) (idx b) (count b) (inflight b)
  (maxSize b) x (notFull b) (notEmpty b) (closed b) (backup b) (stg b) (shut b).
Definition set_backup x (b : B) : B := MkBacking (cfg b) (db b) (idx b) (count b) (inflight b)
  (maxSize b) (maxBatch b) (notFull b) (notEmpty b) (closed b) x (stg b) (shut b).
Definition set_stg x (b : B) : B := MkBacking (cfg b) (db b) (idx b) (count b) (inflight b)
  (maxSize b) (maxBatch b) (notFull b) (notEmpty b) (closed b) (backup b) x (shut b).
Definition set_shut x (b : B) : B := MkBacking (cfg b) (db b) (idx b) (count b) (inflight b)
  (maxSize b) (maxBatch b) (notFull b) (notEmpty b) (closed b) (backup b) (stg b) x.
Definition set_closed x (b : B) : B := MkBacking (cfg b) (db b) (idx b) (count b) (inflight b)
  (maxSize b) (maxBatch b) (notFull b) (notEmpty b) x (backup b) (stg b) (shut b).

Definition inflight_l : lens B Z := Lens inflight (λ x b, MkBacking (cfg b) (db b) (idx b) (count
  b) x (maxSize b) (maxBatch b) (notFull b) (notEmpty b) (closed b) (backup b) (stg b) (shut b)).
Definition notFull_l : lens B Signal := Lens notFull (λ x b, MkBacking (cfg b) (db b) (idx b)
  (count b) (inflight b) (maxSize b) (maxBatch b) x (notEmpty b) (closed b) (backup b) (stg b)
  (shut b)).
Definition notEmpty_l : lens B Signal := Lens notEmpty (λ x b, MkBacking (cfg b) (db b) (idx b)
  (count b) (inflight b) (maxSize b) (maxBatch b) (notFull b) x (closed b) (backup b) (stg b)
  (shut b)).

Definition upd_stg (f : Staging W T → Staging W T) : M unit := updb (λ b, set_stg (f (stg b)) b).
Definition upd_shut (f : Shutdown → Shutdown) : M unit := updb (λ b, set_shut (f (shut b)) b).
Definition upd_blamed (f : codeSubject → codeSubject) : M unit :=
  upd_stg (λ g, set_blamed (f (blamed g)) g).
Definition on_idx (f : index → index) : M unit := updb (λ b, set_idx (f <$> idx b) b).

Definition indexed (b : B) : bool := match idx b with Some _ => true | None => false end.
Definition mirrored (b : B) : bool := match backup b with Some _ => true | None => false end.

Definition drainBudget (b : B) : Z := drain (cfg b).
Definition joinBudget (b : B) : Z := (drain (cfg b) + slack (cfg b))%Z.

Definition set_budgets (d sl : Z) (b : B) : B :=
  let c := cfg b in
  MkBacking (MkConfig (keyOf c) (priority c) (encode c) (decode c) (FaultAfterBackup c) (CommitStart c)
      (flushParent c) d sl)
    (db b) (idx b) (count b) (inflight b) (maxSize b) (maxBatch b) (notFull b) (notEmpty b) (closed b)
    (backup b) (stg b) (shut b).
Definition SetDrainBudget (d : Z) (b : B) : B := set_budgets d (slack (cfg b)) b.
Definition SetJoinSlack (d : Z) (b : B) : B := set_budgets (drain (cfg b)) d b.

Definition locked {A} (body : M A) : M A := Lock;; defer Unlock body.
Definition rlocked {A} (body : M A) : M A := RLock;; defer RUnlock body.

Definition SetMaxBatch (n : Z) (b : B) : B * option err :=
  if (n <? 1)%Z then (b, Some (Errorf "max batch must be at least 1, got %d" [Sentinel ErrBadOption]))
  else (set_maxBatch n b, None).

Definition SetMaxSize (n : Z) (b : B) : B * option err :=
  if (n <? 0)%Z then (b, Some (Errorf "max size must be at least 0, got %d" [Sentinel ErrBadOption]))
  else (set_maxSize n b, None).

(** * The codec *)

Definition wrap_codec {A} (c : code W (A + err)) : code W (A + err) := λ w,
  match c w with
  | (Ok (inr e), w) => (Ok (inr (Errorf "" [Sentinel ErrCodecFailed; e])), w)
  | r => r
  end.

Definition encodeItem (c : Config W T) (v : T) : code W (bytes + err) :=
  wrap_codec (match encode c with Some f => f v | None => json_Marshal v end).

Definition decodeItem (c : Config W T) (data : bytes) : code W (T + err) :=
  wrap_codec (match decode c with Some f => f data | None => json_Unmarshal data end).

(** * Transactions *)

(** [db.View(fn)], where [a] is what the variables that [fn] assigns hold. *)
Definition View {A} (a : A) (fn : Tx → M (A * option err)) : M (A * option err) :=
  b ← getb;
  match Begin (db b) with
  | inr e => mret (a, Some e)
  | inl tx => fn tx
  end.

(** [db.Update(fn)]: an error and an unwind roll the transaction back. *)
Definition Update {A} (a : A) (fn : Tx → M (A * option err * Tx)) : M (A * option err) :=
  b ← getb;
  match Begin (db b) with
  | inr e => mret (a, Some e)
  | inl tx =>
      '(a, oe, tx) ← fn tx;
      match oe with
      | Some e => mret (a, Some e)
      | None =>
          b ← getb;
          let '(oe, d) := Commit tx (db b) in
          updb (set_db d);;
          mret (a, oe)
      end
  end.

(** * Waiting *)

Definition ClosedOrCause (ctx : Ctx W) : M (option err) :=
  RLock;;
  b ← getb;
  RUnlock;;
  if closed b then mret (Some (Sentinel ErrClosed))
  else w ← getw; mret (ctx_cause ctx w).

(** The case a select takes when more than one is ready. *)
Definition toss : M bool := updw tick;; w ← getw; mret (flip w).

(** [<-r.done; r.err]. *)
Definition await (r : nat) : M (option err) :=
  forever (
    b ← getb;
    match settled (stg b) !! r with
    | Some e => return_ e
    | None => Park;; continue_
    end).

(** [select { case <-r.done: case <-ctx.Done(): }]; the answer is whether the first was taken. *)
Definition await_or_done (r : nat) (ctx : Ctx W) : M bool :=
  forever (
    b ← getb;
    w ← getw;
    match settled (stg b) !! r, ctx_cause ctx w with
    | Some _, None => return_ true
    | None, Some _ => return_ false
    | Some _, Some _ => c ← toss; return_ c
    | None, None => Park;; continue_
    end).

(** [select { case <-done: case <-timer: }] with the channel that [ready] is about; the timer fires some
    time, at the latest when nothing else happens any more. *)
Definition park_or_timeout : M bool := λ s,
  match menv s with
  | [] => (Done false, s)
  | _ :: _ => (Done true, interfere s)
  end.
Definition await_until (ready : B → bool) : M bool :=
  forever (
    b ← getb;
    w ← getw;
    match ready b, expired w with
    | true, false => return_ true
    | false, true => return_ false
    | true, true => c ← toss; return_ c
    | false, false => more ← park_or_timeout; if more : bool then continue_ else return_ false
    end).

(** * The flusher *)

(** The flusher's context: the caller's, and cancelled by Close. *)
Definition flushCtx (b : B) : Ctx W :=
  if flushCancelled (stg b) then MkCtx (λ _, Some Canceled) else flushParent (cfg b).

Definition releaseInflight (n : Z) : M unit :=
  Lock;;
  updb (lupd inflight_l (λ i, i - n)%Z);;
  Unlock;;
  SignalIfWaiters notFull_l.

(** [r.err = e; close(r.done)]; a channel that is closed twice panics. *)
Definition settle (r : nat) (e : option err) : M unit :=
  b ← getb;
  match settled (stg b) !! r with
  | Some _ => gopanic
  | None => upd_stg (λ g, set_settled (<[r := e]> (settled g)) g)
  end.

(** A fresh flush result. *)
Definition rotate : M unit := upd_stg (λ g, set_cur (S (cur g)) (set_buf [] g)).

Definition closeFromFlusher (cancel : bool) (cause : err) : M unit :=
  Lock;;
  updb (set_closed true);;
  b ← getb;
  let pending := zlen (buf (stg b)) in
  let r := cur (stg b) in
  updb (lupd inflight_l (λ i, i - pending)%Z);;
  rotate;;
  Unlock;;
  settle r (Some (Errorf "the flusher ended before this batch was committed" [cause]));;
  DoSignal notFull_l;;
  DoSignal notEmpty_l;;
  if cancel then upd_stg (set_flushCancelled true) else mret ().

(** The rows of a batch: the index entries, and the error that rolls the transaction back. *)
Fixpoint write_loop (vs : list T) (ents : list (Z * bytes)) (tx : Tx) :
    M (list (Z * bytes) * option err * Tx) :=
  match vs with
  | [] => mret (ents, None, tx)
  | v :: vs =>
      upd_blamed setCodec;;
      b ← getb;
      data ← call (encodeItem (cfg b) v);
      upd_blamed clear_subject;;
      match data with
      | inr e => mret (ents, Some e, tx)
      | inl data =>
      match NextSequence tx with
      | inr e => mret (ents, Some e, tx)
      | inl (seq, tx) =>
          upd_blamed setItem;;
          sk ← call (keyOf (cfg b) v seq);
          upd_blamed clear_subject;;
          match Put sk data tx with
          | inr e => mret (ents, Some e, tx)
          | inl tx =>
              if indexed b then
                upd_blamed setItem;;
                hash ← call (Hash v);
                upd_blamed clear_subject;;
                write_loop vs (ents ++ [(hash, sk)]) tx
              else write_loop vs ents tx
          end
      end
      end
  end.

Definition add_all (ents : list (Z * bytes)) (x : index) : index :=
  foldl (λ x e, add e.1 e.2 x) x ents.

Definition commit (ctx : Ctx W) (snap : list T) : M (option err) :=
  b ← getb;
  (match CommitStart (cfg b) with Some h => call h | None => mret () end);;
  upd_blamed (setBackup (mirrored b) "the Backup");;
  iferr e := match backup b with None => mret None | Some bu => call (bk_Push bu ctx snap) end
  then
    releaseInflight (zlen snap);;
    upd_stg (set_released true);;
    mret (WrapBackup (Some e))
  else
  upd_blamed clear_subject;;
  '(ents, oe) ← Update [] (write_loop snap []);
  match oe with
  | Some e =>
      releaseInflight (zlen snap);;
      upd_stg (set_released true);;
      mret (Some e)
  | None =>
      wasEmpty ← locked (
        b ← getb;
        let was := (count b =? 0)%Z in
        updb (λ b, set_count (count b + zlen snap)%Z b);;
        updb (lupd inflight_l (λ i, i - zlen snap)%Z);;
        upd_stg (set_released true);;
        on_idx (add_all ents);;
        mret was);
      (if wasEmpty : bool then SignalIfWaiters notEmpty_l else mret ());;
      mret None
  end.

(** [defer func() { if rec := recover(); ... }()]: a panic ends in [onpanic] and the frame returns; a Goexit
    runs [onexit] and goes on. *)
Definition recovering (body onpanic onexit : M unit) : M unit := λ s,
  match body s with
  | (Unwound Panicked, s') => onpanic s'
  | (Unwound Goexited, s') =>
      match onexit s' with
      | (Done _, s'') => (Unwound Goexited, s'')
      | r => r
      end
  | r => r
  end.

Definition blameFlush (how : string) (b : B) : err := blame " while committing" how "" (blamed (stg b)).

Definition doFlush (ctx : Ctx W) : M unit :=
  w ← getw;
  b ← getb;
  let ctx := match ctx_cause ctx w with Some _ => WithTimeout (drainBudget b) | None => ctx end in
  Lock;;
  b ← getb;
  match buf (stg b) with
  | [] => Unlock
  | snap =>
      let r := cur (stg b) in
      rotate;;
      Unlock;;
      upd_stg (set_released false);;
      let unreleased :=
        b ← getb;
        if released (stg b) then mret () else releaseInflight (zlen snap) in
      recovering
        (e ← commit ctx snap; settle r e)
        (unreleased;;
         b ← getb;
         settle r (Some (blameFlush "panicked" b)))
        (unreleased;;
         b ← getb;
         settle r (Some (blameFlush "ended the flusher goroutine" b));;
         closeFromFlusher (negb (inClear (stg b))) (blameFlush "ended the flusher goroutine" b))
  end.

(** * Clear, on the flusher *)

Definition doClear (ctx : Ctx W) (sideEffect : option (code W (option err))) : M (option err) :=
  b ← getb;
  doFlush (flushCtx b);;
  locked (
    b ← getb;
    if closed b then mret (Some (Sentinel ErrClosed))
    else
      d ← ctx_done ctx;
      match d with
      | Some cause => mret (Some cause)
      | None =>
          let given := match sideEffect with Some _ => true | None => false end in
          if (count b =? 0)%Z then
            upd_blamed (λ _, setSideEffect given);;
            RunSideEffect sideEffect
          else
            upd_blamed (λ _, setSideEffect given);;
            oe ← RunSideEffect sideEffect;
            upd_blamed (setBackup (mirrored b) "the Backup's Clear");;
            iferr e := mret oe then mret (Some e) else
            iferr e :=
              match backup b with
              | None => mret None
              | Some bu => e ← call (bk_Clear bu ctx); mret (WrapBackup e)
              end
            then mret (Some e) else
            upd_blamed (λ _, no_subject);;
            '(_, oe) ← Update () (λ tx,
              match DeleteBucket tx with
              | inr e => mret ((), Some e, tx)
              | inl tx =>
                  match CreateBucket tx with
                  | inr e => mret ((), Some e, tx)
                  | inl tx => mret ((), None, tx)
                  end
              end);
            iferr e := mret oe then mret (Some e) else
            updb (set_count 0);;
            on_idx (λ _, newIndex);;
            SignalIfWaiters notFull_l;;
            mret None
      end).

Definition send (id : nat) (e : option err) : M unit :=
  upd_stg (λ g, set_cmdDone (<[id := e]> (cmdDone g)) g).

Definition blameClear (how : string) (b : B) : err :=
  blame " while clearing" how (where_ (blamed (stg b))) (blamed (stg b)).

Definition runClear (cmd : clearCmd W) : M unit :=
  upd_stg (set_inClear true);;
  defer (upd_stg (set_inClear false)) (
    upd_blamed (λ _, MkSubject "" " during the pre-clear drain" None);;
    recovering
      (e ← doClear (cmd_ctx cmd) (cmd_sideEffect cmd);
       send (cmd_id cmd) e)
      (b ← getb;
       send (cmd_id cmd) (Some (blameClear "panicked" b)))
      (b ← getb;
       let e := blameClear "ended the flusher goroutine" b in
       send (cmd_id cmd) (Some e);;
       closeFromFlusher true e)).

(** * The flusher's loop *)

(** The cases of its select. *)
Inductive arm := ArmDone | ArmFlush | ArmClear | ArmTick.

Definition fresh_subject : M unit := upd_blamed (λ _, no_subject).

(** One turn by a case that is ready; the answer is whether the flusher is done. *)
Definition flush_turn (a : arm) : M bool :=
  b ← getb;
  w ← getw;
  match a with
  | ArmDone =>
      match ctx_cause (flushCtx b) w with
      | None => mret false
      | Some cause =>
          fresh_subject;;
          doFlush (flushCtx b);;
          closeFromFlusher false (Err cause);;
          mret true
      end
  | ArmFlush =>
      if flushReq (stg b)
      then upd_stg (set_flushReq false);; fresh_subject;; doFlush (flushCtx b);; mret false
      else mret false
  | ArmClear =>
      match clearReq (stg b) with
      | None => mret false
      | Some cmd => upd_stg (set_clearReq None);; runClear cmd;; mret false
      end
  | ArmTick => fresh_subject;; doFlush (flushCtx b);; mret false
  end.

(** The turns, as the selects take them; between two of them the others may run. *)
Fixpoint flush_turns (arms : list arm) : M bool :=
  match arms with
  | [] => mret false
  | a :: arms =>
      over ← flush_turn a;
      if over : bool then mret true else Window;; flush_turns arms
  end.

Definition close_flusherDone : M unit := upd_stg (set_flusherDone true).

(** The goroutine: its deferred close runs however it ends; after the last of the given turns it waits. *)
Definition flushLoop (arms : list arm) : M unit := λ s,
  match flush_turns arms s with
  | (Done true, s) => close_flusherDone s
  | (Done false, s) => (Parked, s)
  | (Unwound u, s) => match close_flusherDone s with (Done _, s) => (Unwound u, s) | r => r end
  | (Fatal, s) => (Fatal, s)
  | (Parked, s) => (Parked, s)
  end.

(** * Push *)

Definition Push (ctx : Ctx W) (vs : list T) (options : list (OpOption W)) : M (option err) :=
  '(opts, oe) ← ResolveOpOptions CallPush options;
  match oe with
  | Some e => mret (Some e)
  | None =>
  b ← getb;
  iferr e := ValidateKind (priority (cfg b)) vs then mret (Some e) else
  forever (
    Lock;;
    b ← getb;
    if closed b then Unlock;; return_ (Some (Sentinel ErrClosed))
    else if ((0 <? maxSize b) && (maxSize b <? zlen vs))%Z
    then Unlock;; return_ (Some (Sentinel ErrBatchTooLarge))
    else match OnAdmit opts with
    | Some _ => Unlock;; return_ (Some (Sentinel ErrOnAdmitUnsupported))
    | None =>
    if ((0 <? maxSize b) && (maxSize b <? count b + inflight b + zlen vs))%Z then
      iferr e := Wait notFull_l ctx Unlock
      then r ← ClosedOrCause ctx; return_ r
      else continue_
    else if (zlen (buf (stg b)) + zlen vs <=? maxBatch b)%Z then
      iferr e := RunSideEffectLocked (SideEffect opts) Unlock
      then Unlock;; return_ (Some e) else
      upd_stg (λ g, set_buf (buf g ++ vs) g);;
      updb (lupd inflight_l (λ i, i + zlen vs)%Z);;
      b ← getb;
      let r := cur (stg b) in
      Unlock;;
      upd_stg (set_flushReq true);;
      e ← await r;
      return_ e
    else
      let r := cur (stg b) in
      Unlock;;
      upd_stg (set_flushReq true);;
      drained ← await_or_done r ctx;
      if drained : bool then continue_ else r ← ClosedOrCause ctx; return_ r
    end)
  end.

(** * Pop *)

(** The first [k] rows, decoded; with an index their keys too. *)
Fixpoint read_loop (withidx : bool) (k : nat) (rows : list (bytes * bytes)) (out : list T)
    (sks : list bytes) : M (list T * list bytes * option err) :=
  match k with
  | O => mret (out, sks, None)
  | S k =>
      match rows with
      | [] => mret (out, sks, Some (Sentinel ErrEmpty))
      | (key, data) :: rows =>
          b ← getb;
          dv ← RunLocked (call (decodeItem (cfg b) data)) Unlock;
          match dv with
          | inr e => mret (out, sks, Some e)
          | inl v => read_loop withidx k rows (out ++ [v]) (if withidx then sks ++ [key] else sks)
          end
      end
  end.

(** [for i := 0; i < k; i++ { dk, _ := c.First(); ... c.Delete() }]. *)
Fixpoint delete_first (k : nat) (tx : Tx) : Tx + err :=
  match k with
  | O => inl tx
  | S k =>
      match pairs tx with
      | [] => inr (Sentinel ErrEmpty)
      | (dk, _) :: _ =>
          match Delete dk tx with
          | inr e => inr e
          | inl tx => delete_first k tx
          end
      end
  end.

(** Pass 2: the rows are deleted once the backup was told. *)
Definition pop_delete (out : list T) (sks : list bytes) (backupDeleted : bool) (k : Z) (tx : Tx) :
    M (list T * list bytes * bool * option err * Tx) :=
  b ← getb;
  iferr e := match FaultAfterBackup (cfg b) with None => mret None | Some h => call h end
  then mret (out, sks, backupDeleted, Some e, tx) else
  mret (match delete_first (Z.to_nat k) tx with
        | inr e => (out, sks, backupDeleted, Some e, tx)
        | inl tx => (out, sks, backupDeleted, None, tx)
        end).

Definition pop_txn (ctx : Ctx W) (opts : OpOptions W) (k : Z) (tx : Tx) :
    M (list T * list bytes * bool * option err * Tx) :=
  b ← getb;
  '(out, sks, oe) ← read_loop (indexed b) (Z.to_nat k) (pairs tx) [] [];
  iferr e := mret oe then mret (out, sks, false, Some e, tx) else
  iferr e := RunSideEffectLocked (SideEffect opts) Unlock then mret (out, sks, false, Some e, tx) else
  match backup b with
  | None => pop_delete out sks false k tx
  | Some bu =>
      iferr e := RunBackup (bk_Del bu ctx out) Unlock then mret (out, sks, false, Some e, tx) else
      pop_delete out sks true k tx
  end.

(** [for i, v := range out { p.idx.remove(v.Hash(), sks[i]) }]. *)
Fixpoint unindex (out : list T) (sks : list bytes) : M unit :=
  match out, sks with
  | v :: out, sk :: sks => h ← call (Hash v); on_idx (remove h sk);; unindex out sks
  | v :: _, [] => h ← call (Hash v); gopanic
  | [], _ => mret ()
  end.

Definition Pop (ctx : Ctx W) (n : Z) (options : list (OpOption W)) : M (list T * option err) :=
  '(opts, oe) ← ResolveOpOptions CallPop options;
  match oe with
  | Some e => mret ([], Some e)
  | None =>
  forever (
    Lock;;
    b ← getb;
    if closed b then Unlock;; return_ ([], Some (Sentinel ErrClosed))
    else if (0 <? count b)%Z then
      let k := if (count b <? n)%Z then count b else n in
      (if (k <? 0)%Z then gopanic else mret ());;
      '(out, sks, backupDeleted, oe) ← Update ([], [], false) (pop_txn ctx opts k);
      match oe with
      | Some e =>
          oe ← (if backupDeleted : bool then
                  match backup b with
                  | Some bu => RunBackup (bk_Restore bu ctx out) Unlock
                  | None => mret None
                  end
                else mret None);
          Unlock;;
          match oe with
          | Some re => return_ ([], Join [Some e; Some re])
          | None => return_ ([], Some e)
          end
      | None =>
          (if indexed b then RunLockedNoErr (unindex out sks) Unlock else mret ());;
          updb (λ b, set_count (count b - k)%Z b);;
          SignalIfWaiters notFull_l;;
          Unlock;;
          return_ (out, None)
      end
    else
      iferr e := Wait notEmpty_l ctx Unlock
      then r ← ClosedOrCause ctx; return_ ([], r)
      else continue_)
  end.

(** * Peek, Exists, Del *)

Definition Peek (ctx : Ctx W) (options : list (OpOption W)) : M (T * bool * option err) :=
  '(opts, oe) ← ResolveOpOptions CallPeek options;
  match oe with
  | Some e => mret (zero, false, Some e)
  | None =>
  rlocked (
    b ← getb;
    if closed b then mret (zero, false, Some (Sentinel ErrClosed))
    else if (count b =? 0)%Z then e ← RunSideEffect (SideEffect opts); mret (zero, false, e)
    else
      '(v, oe) ← View zero (λ tx,
        match pairs tx with
        | [] => mret (zero, Some (Sentinel ErrEmpty))
        | (_, data) :: _ =>
            r ← call (decodeItem (cfg b) data);
            mret (match r with inr e => (zero, Some e) | inl dv => (dv, None) end)
        end);
      iferr e := mret oe then mret (zero, false, Some e) else
      e ← RunSideEffect (SideEffect opts);
      mret (v, true, e))
  end.

(** The walk over the rows of a bucket of the index, or of the store; an item that matches ends it
    ([errStopIter], which never escapes). *)
Fixpoint exists_loop (c : Config W T) (v : T) (rows : list bytes) : M (bool * option err) :=
  match rows with
  | [] => mret (false, None)
  | data :: rows =>
      r ← call (decodeItem c data);
      match r with
      | inr e => mret (false, Some e)
      | inl item =>
          m ← call (Equal item v);
          if m : bool then mret (true, None) else exists_loop c v rows
      end
  end.

(** The data of the keys that are in the store. *)
Definition fetch (tx : Tx) (sks : list bytes) : list bytes := omap (λ sk, Get sk tx) sks.

Definition Exists_ (ctx : Ctx W) (v : T) (options : list (OpOption W)) : M (bool * option err) :=
  '(opts, oe) ← ResolveOpOptions CallExists options;
  match oe with
  | Some e => mret (false, Some e)
  | None =>
  rlocked (
    b ← getb;
    if closed b then mret (false, Some (Sentinel ErrClosed))
    else
      '(found, oe) ← View false (λ tx,
        match idx b with
        | Some x => h ← call (Hash v); exists_loop (cfg b) v (fetch tx (bucket h x))
        | None => exists_loop (cfg b) v (snd <$> pairs tx)
        end);
      iferr e := mret oe then mret (false, Some e) else
      e ← RunSideEffect (SideEffect opts);
      mret (found, e))
  end.

(** What Del collects: the keys seen in the index, and key, item and hash of what is to go. *)
Record found := MkFound { seenKey : gset bytes; keys : list bytes; items : list T; khash : list Z }.
Definition nothing_found : found := MkFound ∅ [] [] [].

Fixpoint bucket_loop (c : Config W T) (v : list T) (h : Z) (tx : Tx) (sks : list bytes) (a : found) :
    M (found * option err) :=
  match sks with
  | [] => mret (a, None)
  | sk :: sks =>
      if decide (sk ∈ seenKey a) then bucket_loop c v h tx sks a
      else match Get sk tx with
      | None => bucket_loop c v h tx sks a
      | Some data =>
          r ← call (decodeItem c data);
          match r with
          | inr e => mret (a, Some e)
          | inl item =>
              m ← MatchesAny item v;
              bucket_loop c v h tx sks
                (if m : bool
                 then MkFound ({[sk]} ∪ seenKey a) (keys a ++ [sk]) (items a ++ [item]) (khash a ++ [h])
                 else a)
          end
      end
  end.

Fixpoint buckets_loop (c : Config W T) (x : index) (v es : list T) (tx : Tx) (seenHash : gset Z)
    (a : found) : M (found * option err) :=
  match es with
  | [] => mret (a, None)
  | e :: es =>
      h ← call (Hash e);
      if decide (h ∈ seenHash) then buckets_loop c x v es tx seenHash a
      else
        '(a, oe) ← bucket_loop c v h tx (bucket h x) a;
        match oe with
        | Some er => mret (a, Some er)
        | None => buckets_loop c x v es tx ({[h]} ∪ seenHash) a
        end
  end.

Fixpoint scan_loop (c : Config W T) (v : list T) (rows : list (bytes * bytes)) (a : found) :
    M (found * option err) :=
  match rows with
  | [] => mret (a, None)
  | (k, data) :: rows =>
      r ← call (decodeItem c data);
      match r with
      | inr e => mret (a, Some e)
      | inl item =>
          m ← MatchesAny item v;
          scan_loop c v rows
            (if m : bool then MkFound (seenKey a) (keys a ++ [k]) (items a ++ [item]) (khash a) else a)
      end
  end.

Fixpoint delete_keys (ks : list bytes) (tx : Tx) : Tx + err :=
  match ks with
  | [] => inl tx
  | k :: ks => match Delete k tx with inr e => inr e | inl tx => delete_keys ks tx end
  end.

(** [for i, sk := range deleted { p.idx.remove(khash[i], sk) }]. *)
Fixpoint remove_all (ks : list bytes) (hs : list Z) (x : index) : index :=
  match ks, hs with
  | k :: ks, h :: hs => remove_all ks hs (remove h k x)
  | _, _ => x
  end.

Definition Del (ctx : Ctx W) (v : list T) (options : list (OpOption W)) : M (Z * option err) :=
  '(opts, oe) ← ResolveOpOptions CallDel options;
  match oe with
  | Some e => mret (0%Z, Some e)
  | None =>
  locked (
    b ← getb;
    if closed b then mret (0%Z, Some (Sentinel ErrClosed))
    else if (count b =? 0)%Z then e ← RunSideEffect (SideEffect opts); mret (0%Z, e)
    else
      '(a, oe) ← View nothing_found (λ tx,
        match idx b with
        | Some x => buckets_loop (cfg b) x v v tx ∅ nothing_found
        | None => scan_loop (cfg b) v (pairs tx) nothing_found
        end);
      iferr e := mret oe then mret (0%Z, Some e) else
      if (zlen (keys a) =? 0)%Z then e ← RunSideEffect (SideEffect opts); mret (0%Z, e)
      else
      iferr e := RunSideEffect (SideEffect opts) then mret (0%Z, Some e) else
      iferr e :=
        match backup b with
        | None => mret None
        | Some bu => e ← call (bk_Del bu ctx (items a)); mret (WrapBackup e)
        end
      then mret (0%Z, Some e) else
      '(_, oe) ← Update () (λ tx,
        iferr e := match FaultAfterBackup (cfg b) with None => mret None | Some h => call h end
        then mret ((), Some e, tx) else
        mret (match delete_keys (keys a) tx with
              | inr e => ((), Some e, tx)
              | inl tx => ((), None, tx)
              end));
      match oe with
      | Some e =>
          match backup b with
          | None => mret (0%Z, Some e)
          | Some bu =>
              re ← call (bk_Restore bu ctx (items a));
              match re with
              | Some re => mret (0%Z, Join [Some e; WrapBackup (Some re)])
              | None => mret (0%Z, Some e)
              end
          end
      | None =>
          on_idx (remove_all (keys a) (khash a));;
          updb (λ b, set_count (count b - zlen (keys a))%Z b);;
          SignalIfWaiters notFull_l;;
          mret (zlen (keys a), None)
      end)
  end.

(** * Waiting *)

Definition NotEmpty (ctx : Ctx W) (options : list (OpOption W)) : M (option err) :=
  '(opts, oe) ← ResolveOpOptions CallNotEmpty options;
  match oe with
  | Some e => mret (Some e)
  | None =>
  forever (
    RLock;;
    b ← getb;
    if closed b then RUnlock;; return_ (Some (Sentinel ErrClosed))
    else if (0 <? count b)%Z then
      e ← RunSideEffectLocked (SideEffect opts) RUnlock;
      RUnlock;;
      return_ e
    else
      iferr e := Wait notEmpty_l ctx RUnlock
      then r ← ClosedOrCause ctx; return_ r
      else continue_)
  end.

Definition NotFull (ctx : Ctx W) (options : list (OpOption W)) : M (option err) :=
  '(opts, oe) ← ResolveOpOptions CallNotFull options;
  match oe with
  | Some e => mret (Some e)
  | None =>
  forever (
    RLock;;
    b ← getb;
    if closed b then RUnlock;; return_ (Some (Sentinel ErrClosed))
    else if ((maxSize b =? 0) || (count b + inflight b <? maxSize b))%Z then
      e ← RunSideEffectLocked (SideEffect opts) RUnlock;
      RUnlock;;
      return_ e
    else
      iferr e := Wait notFull_l ctx RUnlock
      then r ← ClosedOrCause ctx; return_ r
      else continue_)
  end.

Definition Len : M Z := rlocked (b ← getb; mret (count b)).

(** * Shutdown *)

(** [closeDB]. *)
Definition closeDB : M (option err) :=
  b ← getb;
  let '(oe, d) := db_Close (db b) in
  updb (set_db d);;
  mret (match oe with
        | None => None
        | Some e => Some (Errorf "releasing the bolt handle failed, the store's file lock may still be held"
                            [Sentinel ErrShutdownIncomplete; e])
        end).

Definition stored_errors (b : B) : option err :=
  Join [shutGErr (shut b); shutBErr (shut b); shutCErr (shut b)].
Definition frame_errors (b : B) : option err := Join [gErr (shut b); bErr (shut b); cErr (shut b)].

(** The deferred bookkeeping of the goroutine that performs the shutdown. *)
Definition publish (done : nat) : M unit :=
  Window;;
  upd_shut (λ h, MkShutdown false (complete h) (shutCommitted h)
    (if complete h then shutDone h else S (shutDone h)) (shutClosed h) (gErr h) (bErr h) (cErr h)
    (gErr h) (bErr h) (cErr h) (complete h));;
  upd_shut (λ h, set_shutClosed ({[done]} ∪ shutClosed h) h).

(** The release: the Backup is closed, then the store, however the former ends. *)
Definition release (ctx : Ctx W) : M (option err) :=
  defer (e ← closeDB; upd_shut (λ h, set_cErr (match cErr h with None => e | e => e end) h)) (
    b ← getb;
    (match backup b with
     | None => mret ()
     | Some bu =>
         upd_shut (set_bErr (Some (Errorf "Backup.Close did not return" [Sentinel ErrBackupFailed])));;
         e ← call (bk_Close bu ctx);
         upd_shut (set_bErr (WrapBackup e))
     end);;
    b ← getb;
    mret (frame_errors b)).

Definition perform (ctx : Ctx W) : M (option err) :=
  upd_stg (set_flushCancelled true);;
  b ← getb;
  joined ← (if flusherStarted (stg b) then
              joined ← await_until (λ b, flusherDone (stg b));
              if joined : bool then
                e ← call (Group_Wait ctx);
                upd_shut (set_gErr e);;
                mret true
              else mret false
            else mret true);
  if joined : bool then
    upd_shut (set_complete true);;
    Window;;
    upd_shut (set_shutCommitted true);;
    release ctx
  else mret (Some (Sentinel ErrShutdownIncomplete)).

(** The deferred bookkeeping runs on every way out and decides the result of a complete shutdown. *)
Definition booked (done : nat) (body : M (option err)) : M (option err) :=
  e ← defer (publish done) body;
  b ← getb;
  mret (if complete (shut b) then frame_errors b else e).

Definition shutdown (ctx : Ctx W) : M (option err) :=
  Window;;
  b ← getb;
  if shutComplete (shut b) then mret (stored_errors b)
  else if shutBusy (shut b) then
    let done := shutDone (shut b) in
    over ← await_until (λ b, bool_decide (done ∈ shutClosed (shut b)));
    Window;;
    b ← getb;
    if over : bool then
      mret (if shutComplete (shut b) then stored_errors b else Some (Sentinel ErrShutdownIncomplete))
    else
      mret (Some (Sentinel (if shutCommitted (shut b) then ErrShutdownInProgress else ErrShutdownIncomplete)))
  else
    let done := shutDone (shut b) in
    upd_shut (λ h, set_complete false (set_gErr None (set_bErr None (set_cErr None (set_shutBusy true h)))));;
    booked done (perform ctx).

Definition Close (ctx : Ctx W) (options : list (OpOption W)) : M (option err) :=
  '(opts, oe) ← ResolveOpOptions CallClose options;
  match oe with
  | Some e => mret (Some e)
  | None =>
  Lock;;
  iferr e := RunSideEffectLocked (SideEffect opts) Unlock then Unlock;; mret (Some e) else
  updb (set_closed true);;
  Unlock;;
  DoSignal notEmpty_l;;
  DoSignal notFull_l;;
  defer (DoSignal notEmpty_l;; DoSignal notFull_l) (shutdown ctx)
  end.

(** * Clear, at the caller *)

(** [select { case p.clearReq <- cmd: case <-p.flushCtx.Done(): case <-ctx.Done(): }]: [inl] is sent. *)
Definition submit (cmd : clearCmd W) (ctx : Ctx W) : M (unit + err) :=
  forever (
    b ← getb;
    w ← getw;
    let room := match clearReq (stg b) with None => true | Some _ => false end in
    let dead := match ctx_cause (flushCtx b) w with Some _ => true | None => false end in
    let refused :=
      match ctx_cause ctx w with
      | Some cause =>
          c ← (if dead then toss else mret false);
          return_ (inr (if c : bool then Sentinel ErrClosed else cause))
      | None => return_ (inr (Sentinel ErrClosed))
      end in
    let ended := dead || match ctx_cause ctx w with Some _ => true | None => false end in
    if room then
      c ← (if ended then toss else mret true);
      if c : bool then upd_stg (set_clearReq (Some cmd));; return_ (inl ()) else refused
    else if ended then refused
    else Park;; continue_).

(** [select { case err := <-cmd.done: case <-p.flushCtx.Done(): }], the latter with a last look. *)
Definition await_clear (id : nat) : M (option err) :=
  forever (
    b ← getb;
    w ← getw;
    match cmdDone (stg b) !! id, ctx_cause (flushCtx b) w with
    | Some e, _ => return_ e
    | None, Some _ => return_ (Some (Sentinel ErrClosed))
    | None, None => Park;; continue_
    end).

Definition Clear (ctx : Ctx W) (options : list (OpOption W)) : M (option err) :=
  '(opts, oe) ← ResolveOpOptions CallClear options;
  match oe with
  | Some e => mret (Some e)
  | None =>
  b ← getb;
  let id := nextCmd (stg b) in
  upd_stg (λ g, set_nextCmd (S (nextCmd g)) g);;
  o ← submit (MkClear ctx (SideEffect opts) id) ctx;
  match o with
  | inr e => mret (Some e)
  | inl _ => await_clear id
  end
  end.

(** * Iteration *)

Fixpoint all_loop (c : Config W T) (ctx : Ctx W) (yield : T → option err → code W bool)
    (rows : list bytes) : M unit :=
  match rows with
  | [] => mret ()
  | data :: rows =>
      d ← ctx_done ctx;
      match d with
      | Some cause => call (yield zero (Some cause));; mret ()
      | None =>
          r ← call (decodeItem c data);
          match r with
          | inr e => call (yield zero (Some e));; mret ()
          | inl v =>
              more ← call (yield v None);
              if more : bool then all_loop c ctx yield rows else mret ()
          end
      end
  end.

Definition All (ctx : Ctx W) (yield : T → option err → code W bool) : M unit :=
  rlocked (
    b ← getb;
    if closed b then call (yield zero (Some (Sentinel ErrClosed)));; mret ()
    else
      View () (λ tx, all_loop (cfg b) ctx yield (snd <$> pairs tx);; mret ((), None));;
      mret ()).

(** [release] of AllCOW: its [held] flag says that this goroutine holds the read lock. *)
Definition release_held : M unit := λ s,
  match mlk s with
  | RLocked => RUnlock s
  | _ => (Done tt, s)
  end.

(** What the callback of AllCOW assigns. *)
Record cow := MkCow { snap : list bytes; contended : bool; stop : bool; rerr : option err }.

Fixpoint cow_loop (cf : Config W T) (ctx : Ctx W) (yield : T → option err → code W bool)
    (rows : list bytes) (c : cow) : M cow :=
  match rows with
  | [] => mret c
  | data :: rows =>
      ww ← (if contended c then mret true else WriteWanted);
      if ww : bool
      then cow_loop cf ctx yield rows (MkCow (snap c ++ [data]) true (stop c) (rerr c))
      else
        r ← call (decodeItem cf data);
        match r with
        | inr e => mret (MkCow (snap c) (contended c) (stop c) (Some e))
        | inl v =>
            d ← ctx_done ctx;
            match d with
            | Some cause => mret (MkCow (snap c) (contended c) (stop c) (Some cause))
            | None =>
                more ← call (yield v None);
                if more : bool then cow_loop cf ctx yield rows c
                else mret (MkCow (snap c) (contended c) true (rerr c))
            end
        end
  end.

(** The loop over the copy, after the lock was released: it decodes before it looks at the context. *)
Fixpoint snap_loop (c : Config W T) (ctx : Ctx W) (yield : T → option err → code W bool)
    (rows : list bytes) : M unit :=
  match rows with
  | [] => mret ()
  | data :: rows =>
      r ← call (decodeItem c data);
      match r with
      | inr e => call (yield zero (Some e));; mret ()
      | inl v =>
          d ← ctx_done ctx;
          match d with
          | Some cause => call (yield zero (Some cause));; mret ()
          | None =>
              more ← call (yield v None);
              if more : bool then snap_loop c ctx yield rows else mret ()
          end
      end
  end.

Definition AllCOW (ctx : Ctx W) (yield : T → option err → code W bool) : M unit :=
  RLock;;
  defer release_held (
    b ← getb;
    if closed b then release_held;; call (yield zero (Some (Sentinel ErrClosed)));; mret ()
    else
      let start := MkCow [] false false None in
      '(c, _) ← View start (λ tx,
        c ← cow_loop (cfg b) ctx yield (snd <$> pairs tx) start; mret (c, None));
      release_held;;
      match rerr c with
      | Some e => call (yield zero (Some e));; mret ()
      | None => if stop c then mret () else snap_loop (cfg b) ctx yield (snap c)
      end).

(** * Hydrate *)

(** A restart: OnLoad for every stored item. *)
Fixpoint onload_loop (c : Config W T) (ctx : Ctx W) (bu : Backup W T) (rows : list bytes) :
    M (option err) :=
  match rows with
  | [] => mret None
  | data :: rows =>
      r ← call (decodeItem c data);
      match r with
      | inr e => mret (Some e)
      | inl v =>
          iferr e := call (bk_OnLoad bu ctx v) then mret (WrapBackup (Some e))
          else onload_loop c ctx bu rows
      end
  end.

(** The rows of a batch of items and their encodings. *)
Fixpoint hydrate_txn (l : list (T * bytes)) (sks : list bytes) (tx : Tx) :
    M (list bytes * option err * Tx) :=
  match l with
  | [] => mret (sks, None, tx)
  | (v, data) :: l =>
      match NextSequence tx with
      | inr e => mret (sks, Some e, tx)
      | inl (seq, tx) =>
          b ← getb;
          sk ← call (keyOf (cfg b) v seq);
          match Put sk data tx with
          | inr e => mret (sks, Some e, tx)
          | inl tx => hydrate_txn l (sks ++ [sk]) tx
          end
      end
  end.

Fixpoint index_loop (l : list (T * bytes)) (sks : list bytes) : M unit :=
  match l, sks with
  | (v, _) :: l, sk :: sks => h ← call (Hash v); on_idx (add h sk);; index_loop l sks
  | _, _ => mret ()
  end.

Definition hydrate_flush (l : list (T * bytes)) : M (option err) :=
  if (zlen l =? 0)%Z then mret None
  else
    '(sks, oe) ← Update [] (hydrate_txn l []);
    iferr e := mret oe then mret (Some e) else
    updb (λ b, set_count (count b + zlen l)%Z b);;
    b ← getb;
    (if indexed b then index_loop l sks else mret ());;
    mret None.

Fixpoint hydrate_loop (ctx : Ctx W) (bu : Backup W T)
    (steps : list (code W (option (T * option err)))) (l : list (T * bytes)) : M (option err) :=
  let finish :=
    iferr e := hydrate_flush l then mret (Some e) else
    updb (set_backup (Some bu));;
    mret None in
  match steps with
  | [] => finish
  | step :: steps =>
      o ← call step;
      match o with
      | None => finish
      | Some (v, Some e) => mret (WrapBackup (Some e))
      | Some (v, None) =>
          b ← getb;
          iferr e := ValidateKindOne (priority (cfg b)) v then mret (Some e) else
          iferr e := call (bk_OnLoad bu ctx v) then mret (WrapBackup (Some e)) else
          r ← call (encodeItem (cfg b) v);
          match r with
          | inr e => mret (Some e)
          | inl data =>
              let l := l ++ [(v, data)] in
              if (zlen l =? hydrateBatch)%Z then
                iferr e := hydrate_flush l then mret (Some e) else
                hydrate_loop ctx bu steps []
              else hydrate_loop ctx bu steps l
          end
      end
  end.

Definition Hydrate (ctx : Ctx W) (bu : Backup W T) : M (option err) :=
  locked (
    b ← getb;
    if (0 <? count b)%Z then
      '(_, oe) ← View () (λ tx, e ← onload_loop (cfg b) ctx bu (snd <$> pairs tx); mret ((), e));
      iferr e := mret oe then mret (Some e) else
      updb (set_backup (Some bu));;
      mret None
    else hydrate_loop ctx bu (bk_RangeAll bu ctx) []).

(** * Construction *)

(** [rebuildIndex]: every record decoded and hashed. *)
Fixpoint rebuildIndex (c : Config W T) (rows : list (bytes * bytes)) (x : index) :
    code W (index + err) := λ w,
  match rows with
  | [] => (Ok (inl x), w)
  | (k, data) :: rows =>
      match decodeItem c data w with
      | (Ok (inl item), w) =>
          match Hash item w with
          | (Ok h, w) => rebuildIndex c rows (add h k x) w
          | (Unw u, w) => (Unw u, w)
          end
      | (Ok (inr e), w) => (Ok (inr e), w)
      | (Unw u, w) => (Unw u, w)
      end
  end.

Definition fresh_staging : Staging W T :=
  MkStaging [] 0 ∅ false None 0 ∅ false false false false no_subject false.
Definition fresh_shutdown : Shutdown :=
  MkShutdown false false false 0 ∅ None None None None None None false.

Definition close_quietly (d : DB) : DB := (db_Close d).2.

(** [newBacking], after the codec functions were resolved: [opened] is what [bolt.Open] returned. The state
    it leaves has the store, closed unless the backing has it; an unwind of the caller's code closes it
    too. *)
Definition newBacking (c : Config W T) (withIndex needsCodec : bool) (opened : DB + err) :
    code (option DB * W) (B + err) := λ '(_, w),
  if needsCodec && match encode c with None => true | Some _ => false end
  then (Ok (inr (Sentinel ErrCodecRequired)), (None, w))
  else match opened with
  | inr e => (Ok (inr (Errorf "queue: opening the bbolt store" [e])), (None, w))
  | inl d =>
      match Begin d with
      | inr e => (Ok (inr e), (Some (close_quietly d), w))
      | inl tx =>
          match CreateBucketIfNotExists tx with
          | inr e => (Ok (inr e), (Some (close_quietly d), w))
          | inl tx =>
              match Commit tx d with
              | (Some e, d) => (Ok (inr e), (Some (close_quietly d), w))
              | (None, d) =>
                  let make x :=
                    MkBacking c d x (KeyN tx) 0 0 0 NewSignal NewSignal false None fresh_staging fresh_shutdown in
                  if withIndex then
                    match Begin d with
                    | inr e => (Ok (inr e), (Some (close_quietly d), w))
                    | inl tx =>
                        match rebuildIndex c (pairs tx) newIndex w with
                        | (Ok (inl x), w) => (Ok (inl (make (Some x))), (Some d, w))
                        | (Ok (inr e), w) => (Ok (inr e), (Some (close_quietly d), w))
                        | (Unw u, w) => (Unw u, (Some (close_quietly d), w))
                        end
                    end
                  else (Ok (inl (make None)), (Some d, w))
              end
          end
      end
  end.

Definition NewFIFO (enc : option (T → code W (bytes + err))) (dec : option (bytes → code W (T + err)))
    (ctx : Ctx W) (dr sl : Z) : bool → bool → DB + err → code (option DB * W) (B + err) :=
  newBacking (MkConfig fifoKey false enc dec None None ctx dr sl).
Definition NewPriority (enc : option (T → code W (bytes + err))) (dec : option (bytes → code W (T + err)))
    (ctx : Ctx W) (dr sl : Z) : bool → bool → DB + err → code (option DB * W) (B + err) :=
  newBacking (MkConfig priorityKey true enc dec None None ctx dr sl).

(** [SetQueueLock] starts the flusher. *)
Definition SetQueueLock (b : B) : B := set_stg (set_flusherStarted true (stg b)) b.
End bbolt.
