(* ===== verification/BboltStore.v ===== *)
(** What the store holds: the rows of a list of entries in the order of their keys, and what the
    transactions of the backing do to that list. Before that the hash index: which storage keys a bucket has
    after keys were added and removed. *)

From Stdlib Require Import Sorting.Sorted.
From stdpp Require Import gmap.
From S2P Require Import Prelude Errors Machine Core Contract Logic ContractFacts OrdTree Bolt BboltKeys Bbolt.

(** * The hash index *)

Section index.
Implicit Types (x : index) (k : bytes) (h : Z).

Lemma bucket_new h : bucket h newIndex = [].
Proof. unfold bucket. simpl. by rewrite lookup_empty. Qed.

Lemma bucket_add h h' k x :
  bucket h (add h' k x) = if decide (h' = h) then bucket h x ++ [k] else bucket h x.
Proof.
  unfold bucket at 1, add. simpl. case_decide as Hh; [subst; by rewrite lookup_insert_eq|].
  by rewrite lookup_insert_ne.
Qed.

Lemma remove_key_Permutation k s : k ∈ s → k :: remove_key k s ≡ₚ s.
Proof.
  intros Hk. unfold remove_key. destruct (list_find (λ k', k' = k) s) as [[i y]|] eqn:Hf.
  2: { eapply list_find_None in Hf. rewrite Forall_forall in Hf. by destruct (Hf k Hk). }
  apply list_find_Some in Hf as (Hi & -> & _).
  destruct (last s) as [z|] eqn:Hz; [|apply last_None in Hz; by subst].
  rewrite (swap_remove_Permutation s i k z Hi Hz). rewrite <- (take_drop_middle s i k Hi) at 3.
  apply Permutation_middle.
Qed.

Lemma remove_key_none k s : k ∉ s → remove_key k s = s.
Proof.
  intros Hk. unfold remove_key. destruct (list_find (λ k', k' = k) s) as [[i y]|] eqn:Hf; [|done].
  apply list_find_Some in Hf as (Hi & -> & _). by apply list_elem_of_lookup_2 in Hi.
Qed.

Lemma bucket_remove h h' k x :
  bucket h (remove h' k x) = if decide (h' = h) then remove_key k (bucket h x) else bucket h x.
Proof.
  unfold remove. destruct (remove_key k (bucket h' x)) as [|k1 s] eqn:Hr; unfold bucket at 1; simpl.
  - case_decide as Hh; [subst; by rewrite lookup_delete_eq, Hr|by rewrite lookup_delete_ne].
  - case_decide as Hh; [subst; by rewrite lookup_insert_eq, Hr|by rewrite lookup_insert_ne].
Qed.

(** Nothing is lost but an entry of the removed key, and nothing comes in. *)
Lemma bucket_remove_subset h h' k k' x : k' ∈ bucket h (remove h' k x) → k' ∈ bucket h x.
Proof.
  rewrite bucket_remove. case_decide; [|done]. intros Hk'.
  destruct (decide (k ∈ bucket h x)) as [Hk|Hk]; [|by rewrite remove_key_none in Hk'].
  rewrite <- (remove_key_Permutation k _ Hk). by right.
Qed.

Lemma bucket_remove_keeps h h' k k' x : k' ≠ k → k' ∈ bucket h x → k' ∈ bucket h (remove h' k x).
Proof.
  intros Hne Hk'. rewrite bucket_remove. case_decide; [|done].
  destruct (decide (k ∈ bucket h x)) as [Hk|Hk]; [|by rewrite remove_key_none].
  rewrite <- (remove_key_Permutation k _ Hk) in Hk'. by apply elem_of_cons in Hk' as [->|?].
Qed.

Lemma bucket_add_all h (ents : list (Z * bytes)) k x :
  k ∈ bucket h (add_all ents x) ↔ k ∈ bucket h x ∨ (h, k) ∈ ents.
Proof.
  unfold add_all. revert x. induction ents as [|[h' k'] ents IH]; intros x; cbn [foldl].
  { split; [by left|]. by intros [?|?%elem_of_nil]. }
  rewrite IH, bucket_add, elem_of_cons. simpl. case_decide as Hh.
  - subst. rewrite elem_of_app, list_elem_of_singleton. naive_solver.
  - naive_solver.
Qed.

Lemma bucket_remove_all_subset h ks hs k x : k ∈ bucket h (remove_all ks hs x) → k ∈ bucket h x.
Proof.
  revert hs x. induction ks as [|k' ks IH]; intros [|h' hs] x; simpl; try done.
  intros Hk%IH. by eapply bucket_remove_subset.
Qed.

Lemma bucket_remove_all_keeps h ks hs k x : k ∉ ks → k ∈ bucket h x → k ∈ bucket h (remove_all ks hs x).
Proof.
  revert hs x. induction ks as [|k' ks IH]; intros [|h' hs] x; simpl; try done.
  intros [Hne Hks]%not_elem_of_cons Hk. apply IH; [done|]. by apply bucket_remove_keeps.
Qed.
End index.

(** * The rows *)

#[local] Opaque key.

Section store.
Context {W T : Type} `{!Item W T} `{!SteadyItem W T} `{!Bolt} `{!BoltLaws}.
Variable p : bool.
Variable enc : T → bytes.
Abbreviation SI := (SeqItem T).
Implicit Types (l : list SI) (x y : SI) (tx : Tx).

Definition skey x : bytes := key p (Item_ x) (Seq x).
Definition row x : bytes * bytes := (skey x, enc (Item_ x)).

(** Entries as the store may have them: 64-bit numbers up to the counter, 64-bit priorities. *)
Definition entry_ok (n : Z) x : Prop := (0 ≤ Seq x ≤ n)%Z ∧ ranked p (Item_ x).

(** The order of the keys, and who is put before whom when both are queued. *)
Definition klt x y : bool := disk_first p (Item_ x) (Seq x) (Item_ y) (Seq y).
Definition disk_before (v v' : T) : bool := p && (prio v' <? prio v)%Z.

Lemma skey_lt n x y : (n < two64)%Z → entry_ok n x → entry_ok n y → bytes_lt (skey x) (skey y) = klt x y.
Proof. intros Hn [? ?] [? ?]. unfold skey, klt. rewrite key_lt; [reflexivity|assumption..| |]; unfold word; lia. Qed.

Lemma skey_inj n x y : (n < two64)%Z → entry_ok n x → entry_ok n y → skey x = skey y → Seq x = Seq y.
Proof. intros Hn [? ?] [? ?] Hk. apply (key_inj p (Item_ x) (Seq x) (Item_ y) (Seq y)); [unfold word; lia..|exact Hk]. Qed.

Lemma entry_ok_mono n n' x : (n ≤ n')%Z → entry_ok n x → entry_ok n' x.
Proof. intros ? [? ?]. split; [lia|done]. Qed.

Lemma entries_mono n n' l : (n ≤ n')%Z → Forall (entry_ok n) l → Forall (entry_ok n') l.
Proof. intros Hn Hl. eapply Forall_impl; [exact Hl|]. intros x. by apply entry_ok_mono. Qed.

(** * Sorted rows *)

Definition ksorted l : Prop := StronglySorted (λ x y, bytes_lt (skey x) (skey y) = true) l.

Lemma rows_sorted l tx : pairs tx = row <$> l → ksorted l.
Proof.
  intros Hp. pose proof (pairs_sorted tx) as Hs. rewrite Hp in Hs. clear Hp. unfold ksorted.
  induction l as [|x l IH]; [constructor|]. inversion_clear Hs as [|?? Hl Hall]. constructor; [auto|].
  by apply Forall_fmap in Hall.
Qed.

Lemma ksorted_NoDup l : ksorted l → NoDup (skey <$> l).
Proof.
  induction 1 as [|x l Hl IH Hall]; [constructor|]. rewrite fmap_cons. constructor; [|done].
  intros (y & Hxy & Hy)%list_elem_of_fmap. rewrite Forall_forall in Hall. specialize (Hall y Hy).
  by rewrite Hxy, bytes_lt_irrefl in Hall.
Qed.

(** * Putting a new entry *)

(** A new entry, whose number is above all others, goes before the first entry that it precedes. *)
Fixpoint place x l : list SI :=
  match l with
  | [] => [x]
  | y :: l => if disk_before (Item_ x) (Item_ y) then x :: y :: l else y :: place x l
  end.

Lemma place_Permutation x l : place x l ≡ₚ x :: l.
Proof. induction l as [|y l IH]; simpl; [done|]. case_match; [done|]. rewrite IH. by constructor. Qed.

(** The entries of a queue that has them all admitted, or all restored. *)
Definition entries (r : bool) l : list (entry T) := (λ x, Entry (Item_ x) r) <$> l.

Lemma place_items x l r :
  entries r (place x l) = insert_entry disk_before (Entry (Item_ x) r) (entries r l).
Proof.
  unfold entries. induction l as [|y l IH]; [done|]. cbn [place]. rewrite fmap_cons. cbn [insert_entry].
  simpl. case_match; [done|]. by rewrite fmap_cons, IH.
Qed.

Lemma klt_new x y : (Seq y < Seq x)%Z → klt x y = disk_before (Item_ x) (Item_ y).
Proof.
  unfold klt, disk_first, disk_before. intros Hs. rewrite (proj2 (Z.ltb_ge (Seq x) (Seq y))) by lia.
  destruct p; [|done]. by rewrite andb_false_r, orb_false_r.
Qed.

Lemma klt_old x y : (Seq y < Seq x)%Z → klt y x = negb (disk_before (Item_ x) (Item_ y)).
Proof.
  unfold klt, disk_first, disk_before. intros Hs. destruct p; simpl; [|by apply Z.ltb_lt].
  rewrite (proj2 (Z.ltb_lt _ _) Hs), andb_true_r, <- Z.leb_antisym.
  apply eq_iff_eq_true. rewrite orb_true_iff, Z.ltb_lt, Z.eqb_eq, Z.leb_le. lia.
Qed.

Lemma bput_place n x l :
  (n < two64)%Z → Forall (entry_ok n) l → entry_ok n x → Forall (λ y, (Seq y < Seq x)%Z) l →
  bput (skey x) (enc (Item_ x)) (row <$> l) = row <$> place x l.
Proof.
  intros Hn Hl Hx Hlt. induction l as [|y l IH]; [done|].
  apply Forall_cons in Hl as [Hy Hl], Hlt as [Hyx Hlt].
  rewrite fmap_cons. change (row y) with (skey y, enc (Item_ y)). cbn [bput place].
  rewrite !(skey_lt n), klt_old, klt_new by done.
  destruct (disk_before _ _); cbn [negb]; [done|]. by rewrite fmap_cons, IH.
Qed.

Lemma place_entry_ok n x l : Forall (entry_ok n) l → entry_ok n x → Forall (entry_ok n) (place x l).
Proof. intros. rewrite place_Permutation. by constructor. Qed.

(** A batch, numbered from [n]. *)
Fixpoint place_all (vs : list T) (n : Z) l : list SI :=
  match vs with
  | [] => l
  | v :: vs => place_all vs (n + 1) (place (MkSeqItem (n + 1) v) l)
  end.

Lemma place_all_items vs n l r :
  entries r (place_all vs n l) = insert_all disk_before vs r (entries r l).
Proof.
  unfold insert_all. revert n l. induction vs as [|v vs IH]; intros n l; [done|].
  cbn [place_all foldl]. by rewrite IH, place_items.
Qed.

Lemma place_all_length vs n l : zlen (place_all vs n l) = (zlen l + zlen vs)%Z.
Proof.
  revert n l. induction vs as [|v vs IH]; intros n l; simpl; [unfold zlen; simpl; lia|].
  rewrite IH. unfold zlen. rewrite place_Permutation. simpl. lia.
Qed.

(** The new entries. *)
Fixpoint numbered (vs : list T) (n : Z) : list SI :=
  match vs with
  | [] => []
  | v :: vs => MkSeqItem (n + 1) v :: numbered vs (n + 1)
  end.

Lemma place_all_Permutation vs n l : place_all vs n l ≡ₚ numbered vs n ++ l.
Proof.
  revert n l. induction vs as [|v vs IH]; intros n l; simpl; [done|].
  rewrite IH, place_Permutation. by rewrite Permutation_middle.
Qed.

Lemma numbered_Seq vs n x : x ∈ numbered vs n → (n < Seq x ≤ n + zlen vs)%Z.
Proof.
  revert n. induction vs as [|v vs IH]; intros n; simpl; [by intros ?%elem_of_nil|].
  rewrite zlen_cons. pose proof (zlen_nonneg vs). intros [->|Hx]%elem_of_cons; simpl; [lia|].
  apply IH in Hx. lia.
Qed.

Lemma numbered_inj vs n x y : x ∈ numbered vs n → y ∈ numbered vs n → Seq x = Seq y → x = y.
Proof.
  revert n. induction vs as [|v vs IH]; intros n; simpl; [by intros ?%elem_of_nil|].
  intros [->|Hx]%elem_of_cons [->|Hy]%elem_of_cons Heq; simpl in *; [done| | |by apply (IH (n + 1)%Z)].
  - apply numbered_Seq in Hy. lia.
  - apply numbered_Seq in Hx. lia.
Qed.

Lemma numbered_Item vs n : Item_ <$> numbered vs n = vs.
Proof. revert n. induction vs as [|v vs IH]; intros n; simpl; f_equal; done. Qed.

(** * Deleting *)

Lemma delete_first_pairs k tx tx' :
  delete_first k tx = inl tx' → pairs tx' = drop k (pairs tx) ∧ sequence tx' = sequence tx.
Proof.
  revert tx. induction k as [|k IH]; intros tx; simpl; [by intros [= ->]|].
  destruct (pairs tx) as [|[dk d] R] eqn:Hp; [done|]. destruct (Delete dk tx) as [tx1|] eqn:Hd; [|done].
  intros Hk. apply IH in Hk as [Hk Hs]. apply Delete_pairs in Hd as [Hd Hs1].
  rewrite Hk, Hs, Hs1, Hd, Hp. split; [|done]. simpl. f_equal.
  unfold bdel. rewrite filter_cons_False by (intros Hn; by apply Hn).
  pose proof (pairs_sorted tx) as Hsort. rewrite Hp in Hsort. inversion_clear Hsort as [|?? _ Hall].
  clear -Hall. induction Hall as [|[k2 d2] R Hlt _ IH]; [done|].
  rewrite filter_cons_True, IH; [done|]. simpl in *. intros ->. by rewrite bytes_lt_irrefl in Hlt.
Qed.

Lemma delete_keys_pairs ks tx tx' :
  delete_keys ks tx = inl tx' →
  pairs tx' = filter (λ r, r.1 ∉ ks) (pairs tx) ∧ sequence tx' = sequence tx.
Proof.
  revert tx. induction ks as [|k ks IH]; intros tx; simpl.
  { intros [= ->]. split; [|done]. induction (pairs tx') as [|r R IH]; [done|]. rewrite filter_cons_True, <- IH by (by intros ?%elem_of_nil). done. }
  destruct (Delete k tx) as [tx1|] eqn:Hd; [|done]. intros Hk. apply IH in Hk as [Hk Hs].
  apply Delete_pairs in Hd as [Hd Hs1]. rewrite Hk, Hs, Hs1, Hd. split; [|done].
  unfold bdel. rewrite list_filter_filter. apply list_filter_iff. intros r.
  rewrite not_elem_of_cons. tauto.
Qed.

(** The entries that stay when some are deleted by their keys. *)
Definition without_keys (ks : list bytes) l : list SI := filter (λ x, skey x ∉ ks) l.

Lemma rows_without ks l : filter (λ r, r.1 ∉ ks) (row <$> l) = row <$> without_keys ks l.
Proof.
  unfold without_keys. induction l as [|x l IH]; [done|]. rewrite fmap_cons, !filter_cons. simpl.
  case_decide; simpl; [f_equal|]; done.
Qed.

Lemma rows_drop k l : drop k (row <$> l) = row <$> drop k l.
Proof. by rewrite fmap_drop. Qed.

(** * Reading by key *)

Lemma Get_row tx l x :
  pairs tx = row <$> l → x ∈ l → Get (skey x) tx = Some (enc (Item_ x)).
Proof.
  intros Hp Hx. rewrite Get_pairs, Hp. unfold bget.
  pose proof (ksorted_NoDup l (rows_sorted l tx Hp)) as Hnd. clear Hp.
  induction l as [|y l IH]; [by apply elem_of_nil in Hx|]. rewrite fmap_cons in Hnd. inversion_clear Hnd as [|?? Hn].
  simpl. case_bool_decide as Heq; [|apply IH; [|done]].
  - simpl. apply elem_of_cons in Hx as [->|Hx]; [done|]. exfalso.
    apply Hn. simpl in Heq. rewrite Heq. by apply list_elem_of_fmap_2.
  - by apply elem_of_cons in Hx as [->|Hx].
Qed.

Lemma Get_none tx l k : pairs tx = row <$> l → k ∉ skey <$> l → Get k tx = None.
Proof.
  intros Hp Hk. rewrite Get_pairs, Hp. unfold bget. clear Hp. induction l as [|y l IH]; [done|].
  rewrite fmap_cons, not_elem_of_cons in Hk. destruct Hk as [Hk1 Hk]. simpl.
  rewrite bool_decide_false by (intros <-; by apply Hk1). by apply IH.
Qed.

Lemma Get_elem tx l k d :
  pairs tx = row <$> l → Get k tx = Some d → ∃ x, x ∈ l ∧ k = skey x ∧ d = enc (Item_ x).
Proof.
  intros Hp Hg. destruct (decide (k ∈ skey <$> l)) as [Hk|Hk].
  - apply list_elem_of_fmap in Hk as (x & -> & Hx). rewrite (Get_row tx l x Hp Hx) in Hg.
    injection Hg as <-. by exists x.
  - by rewrite (Get_none tx l k Hp Hk) in Hg.
Qed.
End store.
