(* ===== verification/BboltInv.v ===== *)
(** The invariant of the on-disk backing: what the store, the counters, the index, the staging buffer and
    the flush results have to do with each other while the flusher holds a batch, and the rules of the
    helpers under it. An item's methods may unwind; when they answer, they answer the same. *)

From Stdlib Require Import Sorting.Sorted.
From stdpp Require Import gmap.
From S2P Require Import Prelude Errors Machine Core Contract Logic ContractFacts SeqOrder Bolt BboltKeys.
From S2P Require Import Bbolt BboltStore.

(** A codec that gives back what it was given, whenever it gives back anything. *)
Record codec_ok {W T} `{!Json W T} (c : Config W T) (enc : T → bytes) : Prop := {
  encode_spec v w d w' : encodeItem c v w = (Ok (inl d), w') → d = enc v;
  decode_spec v w v' w' : decodeItem c (enc v) w = (Ok (inl v'), w') → v' = v;
}.

(** What the flusher's goroutine has in hand: how many items it took from the buffer and has not yet
    counted or given up, whether they are in the store, the index entries it will add for them, the
    flush result it owes, whether it is still running, and the results that it has told already. *)
Record hand := MkHand {
  taken : Z;
  landed : bool;
  to_index : list (Z * bytes);
  owes : option nat;
  running : bool;
  told : list (nat * option err);
}.
Abbreviation Hand m d ents o run := (MkHand m d ents o run []).
Definition empty_handed (run : bool) : hand := Hand 0 false [] None run.

(** The items that are in the store and not counted. *)
Definition uncounted (h : hand) : Z := if landed h then taken h else 0.

Section invariant.
Context {W T : Type} `{!Item W T} `{!SteadyItem W T} `{!HashLaw W T} `{!World W} `{!Runtime W} `{!Json W T}.
Context `{!Bolt} `{!BoltLaws}.
Context (p : bool) (c : Config W T) (enc : T → bytes).

(** [Item.Hash] returns: Pop and the constructor call it where an unwind cannot be undone. *)
Definition hash_returns : Prop := ∀ v w, ∃ w', Hash v w = (Ok (hash v), w').

(** [Item.Priority] is a [uint64]. *)
Definition prio_words : Prop := ∀ v : T, word (prio v).

(** More than the bound may be stored: a restart finds what it finds. *)
Context (stock : Z).

Abbreviation B := (Backing W T).
Abbreviation SI := (SeqItem T).
Implicit Types (b : B) (l : list SI) (h : hand).

(** The index has every entry under its hash, or will have it; and every key in it, also of an entry that is
    gone, is of a number that was given out. *)
Record idx_ok (x : index) l (n : Z) (ents : list (Z * bytes)) : Prop := {
  ix_complete si : si ∈ l → skey p si ∈ bucket (hash (Item_ si)) x ∨ (hash (Item_ si), skey p si) ∈ ents;
  ix_sound hs k si : k ∈ bucket hs x ∨ (hs, k) ∈ ents → si ∈ l → skey p si = k → hash (Item_ si) = hs;
  ix_old hs k : k ∈ bucket hs x ∨ (hs, k) ∈ ents → ∃ si, k = skey p si ∧ (0 ≤ Seq si ≤ n)%Z;
}.

(** There is no flusher, or none any more. *)
Definition flusher_over b : bool := negb (flusherStarted (stg b)) || flusherDone (stg b).

Record Held h l (n : Z) b : Prop := {
  he_cfg : cfg b = c;
  he_view : shutCommitted (shut b) = false → view_of (db b) = Some (row p enc <$> l, n);
  he_file : on_file (db b) (row p enc <$> l, n);
  he_entries : Forall (entry_ok p n) l;
  he_n : (0 ≤ n < two64)%Z;
  he_count : zlen l = (count b + uncounted h)%Z;
  he_count0 : (0 ≤ count b)%Z;
  he_taken : (0 ≤ taken h)%Z;
  he_inflight : inflight b = (zlen (buf (stg b)) + taken h)%Z;
  he_maxSize : (0 ≤ maxSize b)%Z;
  he_bound : (0 < maxSize b)%Z → (count b + inflight b ≤ Z.max (maxSize b) stock)%Z;
  he_idx x : idx b = Some x → idx_ok x l n (to_index h);
  he_landed : landed h = false → to_index h = [];
  he_fresh i : cur (stg b) ≤ i → settled (stg b) !! i = None;
  he_owed i : i < cur (stg b) → settled (stg b) !! i = None → owes h = Some i;
  he_owes i : owes h = Some i → i < cur (stg b) ∧ settled (stg b) !! i = None;
  he_notFull : signal_ok (notFull b);
  he_notEmpty : signal_ok (notEmpty b);
  he_wake : (0 < count b)%Z → sg_parked (notEmpty b) = [];
  he_closed : closed b = true → sg_parked (notFull b) = [] ∧ sg_parked (notEmpty b) = [];
  he_open : closed b = false → shutCommitted (shut b) = false;
  he_running : running h = true → flusher_over b = false ∧ shutCommitted (shut b) = false;
  he_told : Forall (λ x, settled (stg b) !! x.1 = Some x.2) (told h);
  he_released : (0 < taken h)%Z → released (stg b) = false;
}.

(** What a shutdown has got to and nobody takes back: the backing is closed, its flusher is over, the
    store is being closed. *)
Record reached (r : Z) b : Prop := {
  reached_closed : (1 ≤ r)%Z → closed b = true;
  reached_over : (2 ≤ r)%Z → flusher_over b = true;
  reached_committed : (3 ≤ r)%Z → shutCommitted (shut b) = true;
}.

(** What the interference respects of the contents. *)
Context (P : hand → list SI → Z → Prop).

Definition IP b : Prop := ∃ h l n, P h l n ∧ Held h l n b.

Definition calm (ctx : Ctx W) : list (B → W → B * W) → Prop :=
  rely (λ r b, IP b ∧ reached r b) False ctx.

Lemma reached_0 b : reached 0 b.
Proof. split; lia. Qed.

Definition outside (ctx : Ctx W) (t : mach B W) : Prop :=
  mlk t = Unlocked ∧ IP (mb t) ∧ calm ctx (menv t).

(** It unwinds with the lock given back; it stays parked only when nobody else does anything. *)
Definition gone (ctx : Ctx W) (u : option unwind) (t : mach B W) : Prop :=
  outside ctx t ∧ (u = None → menv t = []).

(** * Changes that keep the invariant *)

Lemma held_quiet h l n b b' :
  Held h l n b →
  cfg b' = cfg b → db b' = db b → idx b' = idx b → count b' = count b → inflight b' = inflight b →
  maxSize b' = maxSize b → closed b' = closed b → buf (stg b') = buf (stg b) → cur (stg b') = cur (stg b) →
  settled (stg b') = settled (stg b) → shutCommitted (shut b') = shutCommitted (shut b) →
  flusher_over b' = flusher_over b → released (stg b') = released (stg b) →
  signal_ok (notFull b') → signal_ok (notEmpty b') →
  ((0 < count b)%Z → sg_parked (notEmpty b') = []) →
  (closed b = true → sg_parked (notFull b') = [] ∧ sg_parked (notEmpty b') = []) →
  Held h l n b'.
Proof.
  intros [] E1 E2 E3 E4 E5 E6 E7 E8 E9 E10 E11 E12 E13 ????.
  constructor; rewrite ?E1, ?E2, ?E3, ?E4, ?E5, ?E6, ?E7, ?E8, ?E9, ?E10, ?E11, ?E12, ?E13; try done; by apply he_idx0.
Qed.

Ltac quiet_field HI := eapply (held_quiet _ _ _ _ _ HI); try reflexivity; simpl; try apply HI.

(** Fields of the staging area and the shutdown that the invariant does not mention. *)
Lemma held_stg h l n b g :
  Held h l n b → buf g = buf (stg b) → cur g = cur (stg b) → settled g = settled (stg b) →
  flusherStarted g = flusherStarted (stg b) → flusherDone g = flusherDone (stg b) →
  released g = released (stg b) → Held h l n (set_stg g b).
Proof. intros HI ??? E1 E2 ?. quiet_field HI; try done. unfold flusher_over. simpl. by rewrite E1, E2. Qed.

Lemma held_shut h l n b g :
  Held h l n b → shutCommitted g = shutCommitted (shut b) → Held h l n (set_shut g b).
Proof. intros HI ?. quiet_field HI; done. Qed.

Lemma held_backup h l n b x : Held h l n b → Held h l n (set_backup x b).
Proof. intros HI. quiet_field HI. Qed.

Lemma held_notFull h l n b g :
  Held h l n b → signal_ok g → (closed b = true → sg_parked g = []) → Held h l n (lset notFull_l g b).
Proof.
  intros HI Hg Hc. quiet_field HI; [done|]. intros Hcl. split; [auto|by apply (he_closed _ _ _ _ HI)].
Qed.

Lemma held_notEmpty h l n b g :
  Held h l n b → signal_ok g → ((0 < count b)%Z → sg_parked g = []) →
  (closed b = true → sg_parked g = []) → Held h l n (lset notEmpty_l g b).
Proof.
  intros HI Hg Hw Hc. quiet_field HI; [done|done|]. intros Hcl. split; [by apply (he_closed _ _ _ _ HI)|auto].
Qed.

Lemma held_closed h l n b :
  Held h l n b →
  Held h l n (lupd notFull_l Broadcast (lupd notEmpty_l Broadcast (set_closed true b))).
Proof. intros []. constructor; simpl; auto with signals; done. Qed.

(** * Rules *)

Lemma wp_signal_full h l n (Q : unit → mach B W → Prop) U b k w e :
  Held h l n b →
  (∀ b', Held h l n b' → sg_parked (notFull b') = [] → closed b' = closed b → backup b' = backup b →
     Q () (Mach b' k w e)) →
  wp (SignalIfWaiters notFull_l) Q U (Mach b k w e).
Proof.
  intros HI HQ. unfold SignalIfWaiters, DoSignal. wstep. wstep. wstep.
  - wstep. apply HQ; try done. apply held_notFull; auto with signals.
  - wstep. apply HQ; try done. apply no_waiters; [apply HI|done].
Qed.

(** The wake-up of the consumers, owed when items were counted. *)
Lemma wp_signal_empty (Q : unit → mach B W → Prop) U b k w e :
  signal_ok (notEmpty b) →
  (∀ g, signal_ok g → sg_parked g = [] → Q () (Mach (lset notEmpty_l g b) k w e)) →
  wp (SignalIfWaiters notEmpty_l) Q U (Mach b k w e).
Proof.
  intros HI HQ. unfold SignalIfWaiters, DoSignal. wstep. wstep. wstep.
  - wstep. apply HQ; auto with signals.
  - wstep. specialize (HQ (notEmpty b) HI). destruct b; simpl in *. by apply HQ, no_waiters.
Qed.

Context (ctx : Ctx W).

Lemma disk_outside_intro b w e : IP b → calm ctx e → outside ctx (Mach b Unlocked w e).
Proof. done. Qed.
Lemma disk_gone_unwound b w e u : IP b → calm ctx e → gone ctx (Some u) (Mach b Unlocked w e).
Proof. done. Qed.
Lemma gone_parked b w : IP b → gone ctx None (Mach b Unlocked w []).
Proof. split; [|done]. split; [done|]. split; [done|constructor]. Qed.

Lemma IP_intro h l n b : P h l n → Held h l n b → IP b.
Proof. intros. by exists h, l, n. Qed.

Lemma wp_lock k (Q : unit → mach B W → Prop) U b w e :
  IP b → calm ctx e →
  (∀ h l n b w' e', P h l n → Held h l n b → calm ctx e' → length e' ≤ length e → Q () (Mach b k w' e')) →
  wp (acquire k) Q U (Mach b Unlocked w e).
Proof.
  intros HI He HQ. apply (wp_acquire (λ r b, IP b ∧ reached r b) False ctx 0); [done| |done|].
  { split; [done|apply reached_0]. }
  intros b' w' e' [(h & l & n & HP & Hb) _] He' Hl _. by eapply HQ.
Qed.

Lemma wp_wait k (Q : unit → mach B W → Prop) U b w e :
  IP b → calm ctx e → (e = [] → U None (Mach b k w e)) →
  (∀ b w e', IP b → calm ctx e' → length e' < length e → Q () (Mach b k w e')) →
  wp Park Q U (Mach b k w e).
Proof.
  intros HI He HU HQ. apply (wp_Park (λ r b, IP b ∧ reached r b) False ctx 0); [done| |done..|].
  { split; [done|apply reached_0]. }
  intros b' w' e' [HI' _] He' Hl. by apply HQ.
Qed.

Lemma wp_Wait_full h l n (unlock : go B W unit) k (Q : option err → mach B W → Prop) U b w e :
  P h l n → Held h l n b → calm ctx e → closed b = false →
  (∀ b (K : unit → mach B W → Prop), K () (Mach b Unlocked w e) → wp unlock K U (Mach b k w e)) →
  (∀ b w e', IP b → calm ctx e' → length e' < length e → Q (ctx_cause ctx w) (Mach b Unlocked w e')) →
  (∀ b, IP b → e = [] → U None (Mach b Unlocked w e)) →
  wp (Wait notFull_l ctx unlock) Q U (Mach b k w e).
Proof.
  intros HP HI He Hncl Hun HQ HU. unfold Wait. do 5 wstep. apply Hun. wstep.
  assert (IP (lupd notFull_l Register b)) as HI'.
  { eapply IP_intro; [done|]. apply held_notFull; [done|apply Register_ok, HI|by rewrite Hncl]. }
  apply wp_wait; [done..|by apply HU|]. clear HI'.
  intros b' w' e' (h' & l' & n' & HP' & HI') He' Hl.
  do 5 wstep. apply HQ; [|done..]. eapply IP_intro; [done|].
  apply held_notFull; [done|apply Unregister_ok, HI'|].
  intros Hcl. simpl. by rewrite (proj1 (he_closed _ _ _ _ HI' Hcl)).
Qed.

Lemma wp_Wait_empty h l n (unlock : go B W unit) k (Q : option err → mach B W → Prop) U b w e :
  P h l n → Held h l n b → calm ctx e → closed b = false → (count b ≤ 0)%Z →
  (∀ b (K : unit → mach B W → Prop), K () (Mach b Unlocked w e) → wp unlock K U (Mach b k w e)) →
  (∀ b w e', IP b → calm ctx e' → length e' < length e → Q (ctx_cause ctx w) (Mach b Unlocked w e')) →
  (∀ b, IP b → e = [] → U None (Mach b Unlocked w e)) →
  wp (Wait notEmpty_l ctx unlock) Q U (Mach b k w e).
Proof.
  intros HP HI He Hncl Hemp Hun HQ HU. unfold Wait. do 5 wstep. apply Hun. wstep.
  assert (IP (lupd notEmpty_l Register b)) as HI'.
  { eapply IP_intro; [done|]. apply held_notEmpty; [done|apply Register_ok, HI|lia|by rewrite Hncl]. }
  apply wp_wait; [done..|by apply HU|]. clear HI'.
  intros b' w' e' (h' & l' & n' & HP' & HI') He' Hl.
  do 5 wstep. apply HQ; [|done..]. eapply IP_intro; [done|].
  apply held_notEmpty; [done|apply Unregister_ok, HI'|..]; intros Hp; simpl.
  - by rewrite (he_wake _ _ _ _ HI' Hp).
  - by rewrite (proj2 (he_closed _ _ _ _ HI' Hp)).
Qed.

Lemma wp_cause (Q : option err → mach B W → Prop) U b w e :
  IP b → calm ctx e →
  (∀ x b w e', IP b → calm ctx e' → length e' ≤ length e → Q x (Mach b Unlocked w e')) →
  wp (ClosedOrCause ctx) Q U (Mach b Unlocked w e).
Proof.
  intros HI He HQ. unfold ClosedOrCause. wstep. apply wp_lock; [done..|].
  clear b HI. intros h l n b w' e' HP HI He' Hl. repeat wstep; apply HQ; try done; by eapply IP_intro.
Qed.

(** * Transactions *)

Lemma wp_View {A} (a : A) fn (Q : A * option err → mach B W → Prop) U b k w e R n :
  view_of (db b) = Some (R, n) →
  (∀ tx, pairs tx = R → sequence tx = n → wp (fn tx) Q U (Mach b k w e)) →
  wp (View a fn) Q U (Mach b k w e).
Proof.
  intros Hv Hfn. unfold View, view_of in *. wstep. wstep.
  destruct (Begin (db b)) as [tx|]; [|done]. injection Hv as HR Hs. by apply Hfn.
Qed.

(** The transaction is applied as a whole or not at all. *)
Lemma wp_Update {A} (a : A) (fn : Tx → go B W (A * option err * Tx)) (Q : A * option err → mach B W → Prop)
    U b k w e R n :
  view_of (db b) = Some (R, n) →
  (∀ tx, pairs tx = R → sequence tx = n →
    wp (fn tx) (λ r t,
      match r with
      | (a', Some er, _) => Q (a', Some er) t
      | (a', None, tx') =>
          (∀ d, view_of d = Some (pairs tx', sequence tx') →
             Q (a', None) (Mach (set_db d (mb t)) (mlk t) (mw t) (menv t))) ∧
          (∀ er d, view_of d = view_of (db (mb t)) →
             Q (a', Some er) (Mach (set_db d (mb t)) (mlk t) (mw t) (menv t)))
      end) U (Mach b k w e)) →
  wp (Update a fn) Q U (Mach b k w e).
Proof.
  intros Hv Hfn. unfold Update. wstep. wstep. unfold view_of in Hv.
  destruct (Begin (db b)) as [tx|]; [|done]. injection Hv as HR Hs.
  apply wp_bind. eapply wp_mono; [| |by apply Hfn]; [|done].
  intros [[a' [er|]] tx'] t; [intros HQ; by wstep|]. intros [Hok Hfail].
  destruct t as [b' k' w' e']. simpl in *. wstep. wstep.
  destruct (Commit tx' (db b')) as [[er|] d] eqn:Hc; wstep; wstep; wstep.
  - apply (Hfail er d). by apply Commit_failed in Hc.
  - apply (Hok d). by apply Commit_ok in Hc.
Qed.

(** A store that a failed commit leaves behind shows the same. *)
Lemma held_db h l n b d :
  Held h l n b → shutCommitted (shut b) = false → view_of d = view_of (db b) → Held h l n (set_db d b).
Proof.
  intros [] Hs Hd. constructor; simpl; try done; [intros _|apply view_on_file]; by rewrite Hd, he_view0.
Qed.

Lemma held_db_open h l n b d :
  Held h l n b → closed b = false → view_of d = view_of (db b) → Held h l n (set_db d b).
Proof. intros HI Hc Hd. by apply held_db, Hd; [|apply (he_open _ _ _ _ HI)]. Qed.

(** * The codec *)

Context (Hcodec : codec_ok c enc) (Hprio : prio_words).

Lemma wp_decode v (Q : T + err → mach B W → Prop) U b k w e :
  (∀ w, Q (inl v) (Mach b k w e)) → (∀ er w, Q (inr er) (Mach b k w e)) →
  (∀ u w, U (Some u) (Mach b k w e)) →
  wp (call (decodeItem c (enc v))) Q U (Mach b k w e).
Proof.
  intros Hok Herr Hu. apply wp_call; [|done]. intros [v'|er] w' Hd; [|done].
  apply (decode_spec _ _ Hcodec) in Hd as ->. done.
Qed.

Lemma wp_encode v (Q : bytes + err → mach B W → Prop) U b k w e :
  (∀ w, Q (inl (enc v)) (Mach b k w e)) → (∀ er w, Q (inr er) (Mach b k w e)) →
  (∀ u w, U (Some u) (Mach b k w e)) →
  wp (call (encodeItem c v)) Q U (Mach b k w e).
Proof.
  intros Hok Herr Hu. apply wp_call; [|done]. intros [d|er] w' Hd; [|done].
  apply (encode_spec _ _ Hcodec) in Hd as ->. done.
Qed.

Lemma ranked_all v : ranked p v.
Proof. intros _. apply Hprio. Qed.
End invariant.
