(* ===== verification/BboltFind.v ===== *)
(** What Exists and Del of the on-disk backing find: the walks over the store and over the buckets of the
    index find the items that match, all of them and each once. *)

From stdpp Require Import gmap.
From S2P Require Import Prelude Errors Machine Core Contract Logic ContractFacts SeqOrder Bolt BboltKeys.
From S2P Require Import Bbolt BboltStore BboltInv.

Section find.
Context {W T : Type} `{!Item W T} `{!SteadyItem W T} `{!HashLaw W T} `{!World W} `{!Runtime W} `{!Json W T}.
Context `{!Bolt} `{!BoltLaws}.
Context (p : bool) (c : Config W T) (enc : T → bytes) (Hcodec : codec_ok c enc).
Context (l : list (SeqItem T)) (tx : Tx) (Hp : pairs tx = row p enc <$> l).

Abbreviation B := (Backing W T).
Abbreviation SI := (SeqItem T).
Abbreviation F := (@found T).
Context (b : B) (k : lockmode) (e : list (B → W → B * W)).

(** The machine is as it was, the world apart. *)
Definition same (t : mach B W) : Prop := ∃ w, t = Mach b k w e.
Definition same_unwound (u : option unwind) (t : mach B W) : Prop := is_Some u ∧ same t.

(** ** Exists *)

Definition found_item (v : T) (d : list SI) (r : bool * option err) (t : mach B W) : Prop :=
  same t ∧ (r.2 = None → r.1 = existsb (λ x, eqb (Item_ x) v) d).

Lemma wp_exists_loop v d w :
  wp (exists_loop c v (enc ∘ Item_ <$> d)) (found_item v d) same_unwound (Mach b k w e).
Proof.
  revert w. induction d as [|x d IH]; intros w; cbn [fmap list_fmap exists_loop existsb].
  { wstep. split; [by eexists|done]. }
  wstep. apply (wp_decode c enc Hcodec); [intros w1|intros er w1|intros u w1].
  - wstep. apply wp_Equal; [|split; [done|by eexists]]. intros w2. unfold found_item.
    cbn [existsb]. destruct (eqb (Item_ x) v); [|apply IH]. wstep. split; [by eexists|done].
  - wstep. split; [by eexists|done].
  - split; [done|by eexists].
Qed.

(** The rows of keys that were given out, and may be gone. *)
Lemma fetch_rows sks :
  ∃ d, fetch tx sks = enc ∘ Item_ <$> d ∧ d ⊆ l ∧ ∀ x, x ∈ l → skey p x ∈ sks → x ∈ d.
Proof.
  induction sks as [|sk sks (d & IH & Hd & Hall)].
  { exists []. split_and!; [done|set_solver|]. intros x _ []%elem_of_nil. }
  destruct (Get sk tx) as [data|] eqn:Hg.
  - destruct (Get_elem p enc tx l sk data Hp Hg) as (x & Hx & -> & ->). exists (x :: d).
    unfold fetch in *. cbn [omap list_omap]. rewrite Hg, IH. split_and!; [done|set_solver|].
    intros y Hy [Hk|Hk]%elem_of_cons; [|by right; apply Hall].
    enough (y = x) as -> by left. eapply NoDup_fmap_eq; [|done..].
    by eapply ksorted_NoDup, rows_sorted.
  - exists d. unfold fetch in *. cbn [omap list_omap]. rewrite Hg, IH. split_and!; [done..|].
    intros y Hy [<-|Hk]%elem_of_cons; [|by apply Hall].
    by rewrite (Get_row p enc tx l y Hp Hy) in Hg.
Qed.

(** ** Del *)

Section collect.
Context (v : list T).

(** What was collected: entries of the store that match, each once; [K] are the keys the walk has seen. *)
Record found_ok (a : F) (d : list SI) : Prop := {
  fo_keys : keys a = skey p <$> d;
  fo_items : items a = Item_ <$> d;
  fo_NoDup : NoDup (keys a);
  fo_sub : d ⊆ l;
  fo_matched : Forall (λ x, matched v (Item_ x) = true) d;
}.
Definition covers (a : F) (K : list bytes) : Prop :=
  ∀ x, x ∈ l → skey p x ∈ K → matched v (Item_ x) = true → skey p x ∈ keys a.

(** A walk over [K] that started with [a]. *)
Definition walked (ok : F → Prop) (a : F) (K : list bytes) (r : F * option err) (t : mach B W)
    : Prop :=
  same t ∧ (r.2 = None → ok r.1 ∧ keys a ⊆ keys r.1 ∧ covers r.1 K).

Lemma found_add a d x hs S :
  found_ok a d → x ∈ l → matched v (Item_ x) = true → skey p x ∉ keys a →
  found_ok (MkFound S (keys a ++ [skey p x]) (items a ++ [Item_ x]) hs) (d ++ [x]).
Proof.
  intros [Hk Hi Hnd Hsub Hm] Hx Hmx Hnew. constructor; simpl; rewrite ?fmap_app; try by f_equal.
  - apply NoDup_app. split_and!; [done| |apply NoDup_singleton]. intros y Hy ->%list_elem_of_singleton. done.
  - set_solver.
  - by apply Forall_app; split; [|constructor].
Qed.

Lemma covers_mono (a a' : F) K : keys a ⊆ keys a' → covers a K → covers a' K.
Proof. intros Hsub Hc x Hx Hk Hm. by apply Hsub, Hc. Qed.

(** The walk over the store. *)
Lemma wp_scan_loop d0 d a w :
  l = d0 ++ d → (∀ y, y ∈ d → skey p y ∉ keys a) → NoDup (skey p <$> d) → (∃ f, found_ok a f) →
  wp (scan_loop c v (row p enc <$> d) a) (walked (λ a, ∃ f, found_ok a f) a (skey p <$> d)) same_unwound
    (Mach b k w e).
Proof.
  revert d0 a w. induction d as [|x d IH]; intros d0 a w Hl Hnew Hnd (f & Hf);
    cbn [fmap list_fmap row scan_loop].
  { wstep. split; [by eexists|]. intros _. split_and!; [by eexists|done|]. intros y _ []%elem_of_nil. }
  rewrite fmap_cons in Hnd. apply NoDup_cons in Hnd as [Hxd Hnd].
  wstep. apply (wp_decode c enc Hcodec); [intros w1|intros er w1|intros u w1].
  2: { wstep. by split; [eexists|]. }
  2: { split; [done|by eexists]. }
  wstep. apply wp_matched; [|split; [done|by eexists]]. intros w2. destruct (matched v (Item_ x)) eqn:Hm.
  - eapply wp_mono; [|done|apply (IH (d0 ++ [x]))].
    + intros [a' oe] t [Ht Hok]. split; [done|]. intros Hoe. destruct (Hok Hoe) as (Hf' & Hsub & Hcov).
      simpl in *. split_and!; [done|set_solver|].
      intros y Hy [->|Hk]%elem_of_cons Hmy; [set_solver|]. by apply Hcov.
    + by rewrite <- app_assoc.
    + intros y Hy. simpl. intros [Hk|Hk%list_elem_of_singleton]%elem_of_app.
      * apply (Hnew y); [by right|done].
      * apply Hxd. rewrite <- Hk. by apply list_elem_of_fmap_2.
    + done.
    + exists (f ++ [x]). apply found_add; [done|rewrite Hl; set_solver|done|apply Hnew; by left].
  - eapply wp_mono; [|done|apply (IH (d0 ++ [x]))].
    + intros [a' oe] t [Ht Hok]. split; [done|]. intros Hoe. destruct (Hok Hoe) as (Hf' & Hsub & Hcov).
      simpl in *. split_and!; [done..|]. intros y Hy [Hk|Hk]%elem_of_cons Hmy; [|by apply Hcov].
      assert (y = x) as ->; [|congruence].
      eapply (NoDup_fmap_eq (skey p) l); [by eapply ksorted_NoDup, rows_sorted|done| |done].
      rewrite Hl. set_solver.
    + by rewrite <- app_assoc.
    + intros y Hy. apply Hnew. by right.
    + done.
    + by exists f.
Qed.

(** The walk over one bucket; it tells the keys that it has collected. *)
Definition seen_ok (a : F) : Prop := (∃ f, found_ok a f) ∧ ∀ sk, sk ∈ seenKey a ↔ sk ∈ keys a.

Lemma wp_bucket_loop h sks a w :
  seen_ok a →
  wp (bucket_loop c v h tx sks a) (walked seen_ok a sks) same_unwound (Mach b k w e).
Proof.
  revert a w. induction sks as [|sk sks IH]; intros a w [[f Hf] Hs]; cbn [bucket_loop].
  { wstep. split; [by eexists|]. intros _. split_and!; [by split; [eexists|]|done|]. intros y _ []%elem_of_nil. }
  assert (∀ a' w, seen_ok a' → keys a ⊆ keys a' →
    (∀ x, x ∈ l → skey p x = sk → matched v (Item_ x) = true → sk ∈ keys a') →
    wp (bucket_loop c v h tx sks a') (walked seen_ok a (sk :: sks)) same_unwound (Mach b k w e)) as Hrest.
  { intros a' w' Ha' Hsub Hsk. eapply wp_mono; [|done|by apply IH].
    intros [a'' oe] t [Ht Hok]. split; [done|]. intros Hoe. destruct (Hok Hoe) as (Hf' & Hsub' & Hcov).
    simpl in *. split_and!; [done|set_solver|]. intros y Hy [Hk|Hk]%elem_of_cons Hmy; [|by apply Hcov].
    rewrite Hk. apply Hsub'. by apply (Hsk y). }
  assert (seen_ok a) as Ha by (split; [by exists f|done]).
  destruct (decide (sk ∈ seenKey a)) as [Hin|Hin].
  { apply Hrest; [done..|]. intros. by apply Hs. }
  destruct (Get sk tx) as [data|] eqn:Hg.
  2: { apply Hrest; [done..|]. intros x Hx <- _. by rewrite (Get_row p enc tx l x Hp Hx) in Hg. }
  destruct (Get_elem p enc tx l sk data Hp Hg) as (x & Hx & -> & ->).
  wstep. apply (wp_decode c enc Hcodec); [intros w1|intros er w1|intros u w1].
  2: { wstep. by split; [eexists|]. }
  2: { split; [done|by eexists]. }
  wstep. apply wp_matched; [|split; [done|by eexists]]. intros w2. destruct (matched v (Item_ x)) eqn:Hm; apply Hrest.
  - split; [exists (f ++ [x]); apply found_add; [done..|by rewrite <- Hs]|]. intros sk. simpl. set_solver.
  - simpl. set_solver.
  - simpl. set_solver.
  - done.
  - done.
  - intros y Hy Hk Hmy. enough (y = x) as -> by congruence.
    by eapply (NoDup_fmap_eq (skey p) l); [eapply ksorted_NoDup, rows_sorted| | |].
Qed.

(** The walk over the buckets of the hashes of [v]. *)
Lemma wp_buckets_loop x es (seenHash : gset Z) a w :
  seen_ok a → (∀ hs, hs ∈ seenHash → covers a (bucket hs x)) →
  wp (buckets_loop c x v es tx seenHash a)
    (λ r t, same t ∧ (r.2 = None → seen_ok r.1 ∧ keys a ⊆ keys r.1 ∧
       ∀ y, y ∈ es → covers r.1 (bucket (hash y) x)))
    same_unwound (Mach b k w e).
Proof.
  revert seenHash a w. induction es as [|y es IH]; intros seenHash a w Ha Hseen; cbn [buckets_loop].
  { wstep. split; [by eexists|]. intros _. split_and!; [done..|]. intros y []%elem_of_nil. }
  wstep. apply wp_Hash; [|split; [done|by eexists]]. clear w. intros w.
  assert (∀ seenHash' a' w, seen_ok a' → (∀ hs, hs ∈ seenHash' → covers a' (bucket hs x)) →
    hash y ∈ seenHash' →
    wp (buckets_loop c x v es tx seenHash' a')
      (λ r t, same t ∧ (r.2 = None → seen_ok r.1 ∧ keys a' ⊆ keys r.1 ∧
         ∀ z, z ∈ y :: es → covers r.1 (bucket (hash z) x)))
      same_unwound (Mach b k w e)) as Hrest.
  { intros S a' w' Ha' HS Hy. eapply wp_mono; [|done|by apply IH].
    intros [a'' oe] t [Ht Hok]. split; [done|]. intros Hoe. destruct (Hok Hoe) as (Ha'' & Hsub & Hcov).
    split_and!; [done..|]. intros z [->|Hz]%elem_of_cons; [|by apply Hcov].
    by eapply covers_mono, HS. }
  case_decide as Hin; [by apply Hrest|]. apply wp_bind.
  eapply wp_mono; [|done|by apply wp_bucket_loop].
  intros [a' [er|]] t ([w' ->] & Hok); [wstep; split; [by eexists|done]|].
  destruct (Hok eq_refl) as (Ha' & Hsub & Hcov). simpl in *.
  eapply wp_mono; [|done|apply Hrest; [done| |set_solver]].
  - intros [a'' oe] t [Ht Hr]. split; [done|]. intros Hoe. destruct (Hr Hoe) as (? & ? & ?).
    split_and!; [done|set_solver|done].
  - intros hs [->%elem_of_singleton|Hhs]%elem_of_union; [done|]. by eapply covers_mono, Hseen.
Qed.

Lemma nothing_found_ok : seen_ok nothing_found.
Proof. split; [|set_solver]. exists []. constructor; [done..|apply NoDup_nil_2|set_solver|done]. Qed.

(** Everything that matches, when the index is up to date. *)
Lemma wp_collect n w :
  (∀ x, idx b = Some x → idx_ok p x l n []) →
  wp (match idx b with
      | Some x => buckets_loop c x v v tx ∅ nothing_found
      | None => scan_loop c v (pairs tx) nothing_found
      end)
    (λ r t, same t ∧ (r.2 = None → ∃ d, found_ok r.1 d ∧ covers r.1 (skey p <$> l)))
    same_unwound (Mach b k w e).
Proof.
  intros Hx. destruct (idx b) as [x|].
  - eapply wp_mono; [|done|apply wp_buckets_loop; [apply nothing_found_ok|set_solver]].
    intros [a oe] t [Ht Hok]. split; [done|]. intros Hoe. destruct (Hok Hoe) as ([[d Hd] _] & _ & Hcov).
    exists d. split; [done|]. intros y Hy _ Hm. assert (Hz := Hm).
    apply existsb_exists in Hz as (z & Hz & Heq). apply (Hcov z); [by apply list_elem_of_In|done| |done].
    destruct (ix_complete _ _ _ _ _ (Hx x eq_refl) y Hy) as [Hb|[]%elem_of_nil].
    by rewrite <- (eqb_hash _ _ Heq).
  - rewrite Hp. eapply wp_mono; [|done|apply (wp_scan_loop [])].
    + intros [a oe] t [Ht Hok]. split; [done|]. intros Hoe. by destruct (Hok Hoe) as ([d Hd] & _ & Hcov); exists d.
    + done.
    + intros y _. apply not_elem_of_nil.
    + by eapply ksorted_NoDup, rows_sorted.
    + apply nothing_found_ok.
Qed.

(** What is left without it. *)
Lemma without_found a d :
  found_ok a d → covers a (skey p <$> l) →
  without_keys p (keys a) l = filter (λ x, matched v (Item_ x) = false) l.
Proof.
  intros Hd Hcov. unfold without_keys. apply filter_in_iff. intros x Hx. split.
  - intros Hk. destruct (matched v (Item_ x)) eqn:Hm; [|done]. destruct Hk. apply Hcov; [done| |done].
    by apply list_elem_of_fmap_2.
  - intros Hm Hk. rewrite (fo_keys _ _ Hd) in Hk. apply list_elem_of_fmap in Hk as (y & Hxy & Hy).
    pose proof (fo_matched _ _ Hd) as HF. rewrite Forall_forall in HF. specialize (HF y Hy).
    enough (x = y) as -> by congruence.
    eapply (NoDup_fmap_eq (skey p) l); [by eapply ksorted_NoDup, rows_sorted|done| |done].
    by apply (fo_sub _ _ Hd).
Qed.

Lemma without_found_length a d :
  found_ok a d → zlen (without_keys p (keys a) l) = (zlen l - zlen (keys a))%Z.
Proof.
  intros [Hk _ Hnd Hsub _]. rewrite Hk in *. clear Hk.
  assert (d ++ without_keys p (skey p <$> d) l ≡ₚ l) as Hperm; [|apply Permutation_length in Hperm;
    rewrite length_app in Hperm; unfold zlen; rewrite length_fmap; lia].
  rewrite <- (filter_app_complement (λ x, skey p x ∈ skey p <$> d) l) at 2.
  apply Permutation_app_tail. pose proof (ksorted_NoDup p l (rows_sorted p enc l tx Hp)) as Hl.
  apply NoDup_Permutation; [by eapply NoDup_fmap_1|by eapply NoDup_filter, NoDup_fmap_1|].
  intros x. rewrite list_elem_of_filter. split; [intros Hx; split; [by apply list_elem_of_fmap_2|by apply Hsub]|].
  intros [(y & Hxy & Hy)%list_elem_of_fmap Hx]. enough (x = y) as -> by done.
  by eapply (NoDup_fmap_eq (skey p) l); [| |apply Hsub|].
Qed.
End collect.

(** What Exists answers of the entries that the index has; a commit adds its entries after its rows. *)
Lemma wp_exists_find v n ents w :
  (∀ x, idx b = Some x → idx_ok p x l n ents) →
  wp (match idx b with
      | Some x => h ← call (Hash v); exists_loop c v (fetch tx (bucket h x))
      | None => exists_loop c v (snd <$> pairs tx)
      end)
    (λ r t, same t ∧ (r.2 = None →
       if r.1 then ∃ x, x ∈ l ∧ eqb (Item_ x) v = true
       else ∀ x, x ∈ l → eqb (Item_ x) v = true → indexed b = true ∧ (hash (Item_ x), skey p x) ∈ ents))
    same_unwound (Mach b k w e).
Proof.
  intros Hx.
  assert (∀ d w, d ⊆ l →
    (∀ x, x ∈ l → eqb (Item_ x) v = true → x ∈ d ∨ indexed b = true ∧ (hash (Item_ x), skey p x) ∈ ents) →
    wp (exists_loop c v (enc ∘ Item_ <$> d)) (λ r t, same t ∧ (r.2 = None →
       if r.1 then ∃ x, x ∈ l ∧ eqb (Item_ x) v = true
       else ∀ x, x ∈ l → eqb (Item_ x) v = true → indexed b = true ∧ (hash (Item_ x), skey p x) ∈ ents))
      same_unwound (Mach b k w e)) as Hloop.
  { clear w. intros d w Hd Hall. eapply wp_mono; [|done|apply wp_exists_loop].
    intros [r oe] t [Ht Hr]. split; [done|]. intros Hoe. rewrite (Hr Hoe). simpl.
    destruct (existsb _ d) eqn:Hex.
    - apply existsb_exists in Hex as (x & Hin%list_elem_of_In & Heq). exists x. split; [by apply Hd|done].
    - intros x Hl Heq. destruct (Hall x Hl Heq) as [Hxd|]; [|done].
      exfalso. apply not_true_iff_false in Hex. apply Hex, existsb_exists. exists x.
      by rewrite <- list_elem_of_In. }
  destruct (idx b) as [x|] eqn:Hidx.
  - wstep. apply wp_Hash; [|split; [done|by eexists]]. intros w1.
    destruct (fetch_rows (bucket (hash v) x)) as (d & -> & Hd & Hall). apply Hloop; [done|].
    intros y Hy Heq. destruct (ix_complete _ _ _ _ _ (Hx x eq_refl) y Hy) as [Hb|Hb].
    + left. apply Hall; [done|]. by rewrite <- (eqb_hash _ _ Heq).
    + right. split; [|done]. unfold indexed. by rewrite Hidx.
  - rewrite Hp, <- list_fmap_compose. apply Hloop; [done|]. by left.
Qed.
End find.
