(* ===== verification/BboltOps.v ===== *)
(** The operations of the callers on the on-disk backing, each under interference: what it does to the
    entries, and that it keeps the invariant on every way it can end. *)

From Stdlib Require Import Sorting.Sorted.
From stdpp Require Import gmap.
From S2P Require Import Prelude Errors Machine Core Contract Logic ContractFacts SeqOrder Bolt BboltKeys.
From S2P Require Import Bbolt BboltStore BboltInv BboltFind.

(** The test seam between the mirrored delete and the one in the store returns. *)
Definition quiet_hook {W T} (c : Config W T) : Prop :=
  ∀ h w, FaultAfterBackup c = Some h → ∃ oe w', h w = (Ok oe, w').

Section ops.
Context {W T : Type} `{!Item W T} `{!SteadyItem W T} `{!HashLaw W T} `{!World W} `{!Runtime W} `{!Json W T}.
Context `{!Bolt} `{!BoltLaws}.
Context (p : bool) (c : Config W T) (enc : T → bytes) (stock : Z).
Context (Hcodec : codec_ok c enc) (Hhook : quiet_hook c).
Context (P : hand → list (SeqItem T) → Z → Prop) (ctx : Ctx W).

Abbreviation B := (Backing W T).
Abbreviation SI := (SeqItem T).
Abbreviation Held := (Held p c enc stock).
Abbreviation IP := (IP p c enc stock P).
Abbreviation calm := (calm p c enc stock P).
Abbreviation outside := (outside p c enc stock P ctx).
Abbreviation gone := (gone p c enc stock P ctx).
Abbreviation rows l := (row p enc <$> l).
Implicit Types (b : B) (l : list SI) (h : hand).

(** * The entries of an open backing *)

Lemma held_rows h l n b : Held h l n b → closed b = false → view_of (db b) = Some (rows l, n).
Proof. intros HI Hc. by apply (he_view _ _ _ _ _ _ _ _ HI), (he_open _ _ _ _ _ _ _ _ HI). Qed.

Lemma held_sorted h l n b : Held h l n b → closed b = false → ksorted p l.
Proof.
  intros HI Hc. pose proof (held_rows _ _ _ _ HI Hc) as Hv. unfold view_of in Hv.
  destruct (Begin (db b)) as [tx|]; [|done]. injection Hv as Hp _. by eapply rows_sorted.
Qed.

Lemma held_NoDup h l n b : Held h l n b → closed b = false → NoDup (skey p <$> l).
Proof. intros HI Hc. by eapply ksorted_NoDup, held_sorted. Qed.

Lemma count_le h l n b : Held h l n b → (0 ≤ uncounted h)%Z.
Proof. intros HI. unfold uncounted. pose proof (he_taken _ _ _ _ _ _ _ _ HI). destruct (landed h); lia. Qed.

(** * Entries that go *)

Lemma idx_ok_shrink x x' l l' n ents :
  idx_ok p x l n ents → l' ⊆ l →
  (∀ hs k, k ∈ bucket hs x' → k ∈ bucket hs x) →
  (∀ hs si, si ∈ l' → skey p si ∈ bucket hs x → skey p si ∈ bucket hs x') →
  idx_ok p x' l' n ents.
Proof.
  intros [Hc Hs Ho] Hl Hsub Hkeep. constructor.
  - intros si Hsi. destruct (Hc si (Hl si Hsi)); [left; by apply Hkeep|by right].
  - intros hs k si Hk Hsi. apply Hs; [|by apply Hl]. destruct Hk as [Hk|Hk]; [left; by apply Hsub|by right].
  - intros hs k Hk. apply (Ho hs). destruct Hk as [Hk|Hk]; [left; by apply Hsub|by right].
Qed.

(** The store, the index and the counter after [l'] is left of [l]. *)
Lemma held_removed h l n b d x' l' cnt :
  Held h l n b → view_of d = Some (rows l', n) → l' ⊆ l → cnt = (count b - (zlen l - zlen l'))%Z →
  (0 ≤ cnt)%Z → (cnt ≤ count b)%Z → (∀ x, x' = Some x → idx_ok p x l' n (to_index h)) →
  Held h l' n (set_count cnt (set_idx x' (set_db d b))).
Proof.
  intros [] Hv Hl Hcnt Hpos Hle Hx. constructor; simpl; try done.
  - by apply view_on_file.
  - apply Forall_forall. intros si Hsi. rewrite Forall_forall in he_entries. by apply he_entries, Hl.
  - lia.
  - intros Hm. specialize (he_bound Hm). lia.
  - intros Hp. apply he_wake. lia.
Qed.

Lemma drop_subset k l : drop k l ⊆ l.
Proof. intros si Hsi. rewrite <- (take_drop k l). apply elem_of_app. by right. Qed.

Lemma NoDup_take_drop k l si :
  NoDup (skey p <$> l) → si ∈ drop k l → skey p si ∉ skey p <$> take k l.
Proof.
  rewrite <- (take_drop k l) at 1. rewrite fmap_app, NoDup_app. intros (_ & Hd & _) Hsi Hk.
  apply (Hd _ Hk). by apply list_elem_of_fmap_2.
Qed.

(** The keys of popped entries are taken out of the index. *)
Lemma wp_unindex l x b k w e (Q : unit → mach B W → Prop) U :
  @hash_returns W T _ _ → idx b = Some x →
  (∀ x', (∀ hs k, k ∈ bucket hs x' → k ∈ bucket hs x) →
     (∀ hs k, k ∉ skey p <$> l → k ∈ bucket hs x → k ∈ bucket hs x') →
     ∀ w, Q () (Mach (set_idx (Some x') b) k w e)) →
  wp (unindex (Item_ <$> l) (skey p <$> l)) Q U (Mach b k w e).
Proof.
  intros Hret. revert x b w. induction l as [|si l IH]; intros x b w Hx HQ; cbn [fmap list_fmap unindex].
  { wstep. specialize (HQ x ltac:(done) ltac:(done) w). destruct b; simpl in *. by subst. }
  wstep. unfold wp at 1. unfold call. simpl. destruct (Hret (Item_ si) w) as [w1 ->].
  wstep. unfold on_idx. wstep.
  cbn [set_idx idx]. rewrite Hx. apply (IH (remove (hash (Item_ si)) (skey p si) x)); [done|].
  intros x' Hsub Hkeep. apply (HQ x').
  - intros hs k' Hk'. by eapply bucket_remove_subset, Hsub.
  - intros hs k' [Hne Hk']%not_elem_of_cons Hin. apply Hkeep; [done|]. by apply bucket_remove_keeps.
Qed.

(** * Pop *)

Lemma wp_read_loop (wi : bool) k l out sks (Q : list T * list bytes * option err → mach B W → Prop) U b w e :
  cfg b = c →
  (∀ w, k ≤ length l →
     Q (out ++ (Item_ <$> take k l), if wi then sks ++ (skey p <$> take k l) else sks, None)
       (Mach b WLocked w e)) →
  (∀ out' sks' er w, Q (out', sks', Some er) (Mach b WLocked w e)) →
  (∀ u w, U (Some u) (Mach b Unlocked w e)) →
  wp (read_loop wi k (rows l) out sks) Q U (Mach b WLocked w e).
Proof.
  intros Hcfg. revert l out sks w. induction k as [|k IH]; intros l out sks w HQ Herr HU; cbn [read_loop].
  { wstep. specialize (HQ w ltac:(lia)). destruct wi; simpl in HQ; by rewrite ?app_nil_r in HQ. }
  destruct l as [|si l]; cbn [fmap list_fmap row]; [wstep; apply Herr|].
  wstep. wstep. rewrite Hcfg. wstep. apply wp_on_unwind_call.
  - intros [v|er] w' Hd; [|wstep; apply Herr]. apply (decode_spec _ _ Hcodec) in Hd as ->.
    apply IH; [|done..]. intros w2 Hk. specialize (HQ w2 ltac:(simpl; lia)).
    rewrite <- app_assoc. cbn [take fmap list_fmap app] in *. destruct wi; [rewrite <- app_assoc|]; exact HQ.
  - intros u w'. wstep. apply HU.
Qed.

(** What the transaction of Pop leaves to its caller: the first [k] entries taken out of the store, or an
    error, and then the backup may have to be told to restore them. *)
Section pop_txn.
Context (k : Z) (l : list SI) (n : Z) (tx : Tx) (b : B) (e : list (B → W → B * W)).
Context (Hcfg : cfg b = c) (Hp : pairs tx = rows l) (Hs : sequence tx = n).
Abbreviation out := (Item_ <$> take (Z.to_nat k) l).
Abbreviation sks := (if indexed b then skey p <$> take (Z.to_nat k) l else []).

Definition popped_txn (r : list T * list bytes * bool * option err * Tx) (t : mach B W) : Prop :=
  (∃ w, t = Mach b WLocked w e) ∧
  match r with
  | (out', sks', bd, oe, tx') =>
      (bd = true → out' = out ∧ mirrored b = true) ∧
      (oe = None → Z.to_nat k ≤ length l ∧ out' = out ∧ sks' = sks ∧
         pairs tx' = rows (drop (Z.to_nat k) l) ∧ sequence tx' = n)
  end.
Definition unwound_txn (u : option unwind) (t : mach B W) : Prop :=
  is_Some u ∧ ∃ w, t = Mach b Unlocked w e.

Lemma wp_pop_delete bd w :
  Z.to_nat k ≤ length l → (bd = true → mirrored b = true) →
  wp (pop_delete out sks bd k tx) popped_txn unwound_txn (Mach b WLocked w e).
Proof.
  intros Hk Hbd. unfold pop_delete. wstep. wstep. apply wp_bind. rewrite Hcfg.
  assert (∀ oe w, wp (match oe with
    | Some er => mret (out, sks, bd, Some er, tx)
    | None => mret (match delete_first (Z.to_nat k) tx with
                    | inl tx => (out, sks, bd, None, tx) | inr er => (out, sks, bd, Some er, tx) end)
    end) popped_txn unwound_txn (Mach b WLocked w e)) as Hend.
  { clear w. intros [er|] w; wstep; (split; [by eexists|]); [naive_solver|].
    destruct (delete_first _ tx) as [tx'|er] eqn:Hd; [|naive_solver].
    apply delete_first_pairs in Hd as [Hd Hs']. rewrite Hp, rows_drop in Hd.
    split; [naive_solver|]. intros _. split_and!; try done. congruence. }
  destruct (FaultAfterBackup c) as [hk|] eqn:Hf; [|wstep; apply (Hend None)].
  unfold wp at 1, call. simpl. destruct (Hhook hk w Hf) as (oe & w' & ->). apply Hend.
Qed.

Lemma wp_pop_txn opts w : wp (pop_txn ctx opts k tx) popped_txn unwound_txn (Mach b WLocked w e).
Proof.
  unfold pop_txn. wstep. wstep. wstep. rewrite Hp. apply wp_read_loop; [done| | |].
  2: { intros. do 3 wstep. split; [by eexists|]. naive_solver. }
  2: { intros u w'. split; [done|by eexists]. }
  clear w. intros w Hk. cbn [app]. do 3 wstep.
  assert (∀ w, wp (match backup b with
    | None => pop_delete out sks false k tx
    | Some bu => iferr e := RunBackup (bk_Del bu ctx out) Unlock then mret (out, sks, false, Some e, tx) else
                 pop_delete out sks true k tx
    end) popped_txn unwound_txn (Mach b WLocked w e)) as Hbackup.
  { clear w. intros w. destruct (backup b) as [bu|] eqn:Hb; [|by apply wp_pop_delete].
    wstep. wstep. wstep. wstep.
    - wstep. destruct a; cbn [WrapBackup]; [wstep; split; [by eexists|naive_solver]|].
      apply wp_pop_delete; [done|]. intros _. unfold mirrored. by rewrite Hb.
    - wstep. split; [done|by eexists]. }
  wstep. wstep; [|wstep; apply Hbackup].
  wstep. wstep.
  - destruct a; wstep; [wstep; split; [by eexists|naive_solver]|apply Hbackup].
  - wstep. split; [done|by eexists].
Qed.
End pop_txn.

(** * Rules for the operations *)

Ltac wcall_lock := 
  let h := fresh "h" in let l := fresh "l" in let n := fresh "n" in let b := fresh "b" in
  let w := fresh "w" in let e := fresh "e" in let HP := fresh "HP" in let HI := fresh "HI" in
  let He := fresh "He" in let Hl := fresh "Hl" in
  intros h l n b w e HP HI He Hl; simpl in Hl.

Ltac wintro_IP := let b := fresh "b" in let w := fresh "w" in let e := fresh "e" in
  let HI := fresh "HI" in let He := fresh "He" in let Hl := fresh "Hl" in
  intros b w e HI He Hl; simpl in Hl.

(** One step at a helper, under the lock or outside it. *)
Ltac dhelper :=
  lazymatch goal with
  | HI : IP ?b, He : calm _ ?e |- wp ?m _ _ (Mach ?b Unlocked _ ?e) =>
    lazymatch m with
    | Lock => apply (wp_lock p c enc stock P ctx); [exact HI|exact He|clear HI He; wcall_lock]
    | RLock => apply (wp_lock p c enc stock P ctx); [exact HI|exact He|clear HI He; wcall_lock]
    | ClosedOrCause _ =>
        apply (wp_cause p c enc stock P ctx); [exact HI|exact He|clear HI He; intros ?; wintro_IP]
    end
  | HP : P ?h ?l ?n, HI : Held ?h ?l ?n ?b, He : calm _ ?e |- wp ?m _ _ (Mach ?b _ _ ?e) =>
    lazymatch m with
    | Wait notFull_l _ _ =>
        apply (wp_Wait_full p c enc stock P ctx h l n);
          [done|exact HI|exact He|done|intros; by wstep|clear HI He; wintro_IP|clear HI; intros ? HI ?]
    | Wait notEmpty_l _ _ =>
        apply (wp_Wait_empty p c enc stock P ctx h l n);
          [done|exact HI|exact He|done|bool_to_prop; lia|intros; by wstep|clear HI He; wintro_IP|clear HI; intros ? HI ?]
    | SignalIfWaiters notFull_l =>
        apply (wp_signal_full p c enc stock h l n); [exact HI|clear HI; intros ? HI ? ? ?]
    end
  end; cbv beta.

Ltac ddone :=
  lazymatch goal with
  | |- outside (Mach _ Unlocked _ _) => apply disk_outside_intro; [first [done|by eapply IP_intro]|done]
  | |- gone (Some _) (Mach _ Unlocked _ _) => apply disk_gone_unwound; [first [done|by eapply IP_intro]|done]
  | |- gone None (Mach _ _ _ _) => subst; by apply gone_parked
  | |- _ = _ ∧ outside (Mach _ _ _ _) => split; [done|apply disk_outside_intro; [first [done|by eapply IP_intro]|done]]
  | |- outside (Mach _ _ _ _) ∧ length _ < length _ =>
      split; [apply disk_outside_intro; [first [done|by eapply IP_intro]|done]|simpl in *; lia]
  end.

Ltac dguard :=
  lazymatch goal with
  | |- wp (Update _ _ ≫= _) _ _ _ => fail
  | |- wp (View _ _ ≫= _) _ _ _ => fail
  | |- wp (upd_stg _) _ _ _ => fail
  | |- _ => idtac
  end.
Ltac dauto := repeat first [ddone | dguard; first [dhelper | wstep]].

(** The start of an operation: its options, and the machine taken apart. *)
Ltac dstart :=
  match goal with |- wp _ _ _ ?s => destruct s as [b ? w e] end;
  match goal with H : outside _ |- _ => revert H end; intros (Hk & HI & He); simpl in Hk, HI, He; subst;
  do 3 wstep; [wstep; ddone|]; wstep;
  destruct (apply_options _ _) as [opts [?|]]; [wstep|].

Ltac dloop :=
  apply (wp_forever outside); [ddone|];
  let b := fresh "b" in let w := fresh "w" in let e := fresh "e" in
  let HI := fresh "HI" in let He := fresh "He" in
  intros [b ? w e] (? & HI & He); simpl in HI, He; simpl in *; subst.

(** Entries left the queue. *)
Definition removed h l n (t : mach B W) : Prop :=
  mlk t = Unlocked ∧ Held h l n (mb t) ∧ calm ctx (menv t) ∧ sg_parked (notFull (mb t)) = [].

(** How many entries a Pop takes. *)
Definition take_count (m : Z) h l : nat := Z.to_nat (Z.min m (zlen l - uncounted h)).

Lemma set_idx_id b : set_idx (idx b) b = b.
Proof. by destruct b. Qed.

(** The part of Pop after its transaction: the index, the counter and the wake-up. *)
Lemma wp_pop_finish h l n b d k w e (K : option (list T * option err) → mach B W → Prop) U out sks :
  @hash_returns W T _ _ → P h l n → Held h l n b → closed b = false → calm ctx e →
  (0 ≤ k ≤ count b)%Z → Z.to_nat k ≤ length l → out = Item_ <$> take (Z.to_nat k) l →
  sks = (if indexed b then skey p <$> take (Z.to_nat k) l else []) →
  view_of d = Some (rows (drop (Z.to_nat k) l), n) →
  (∀ t, removed h (drop (Z.to_nat k) l) n t → K (Some (out, None)) t) →
  wp ((if indexed (set_db d b) then RunLockedNoErr (unindex out sks) Unlock else mret ());;
      updb (λ b, set_count (count b - k)%Z b);;
      SignalIfWaiters notFull_l;;
      Unlock;;
      return_ (out, None)) K U (Mach (set_db d b) WLocked w e).
Proof.
  intros Hret HP HI Hcl He Hk Hlen -> -> Hv HK.
  assert (∀ x' w, (∀ x, x' = Some x → idx_ok p x (drop (Z.to_nat k) l) n (to_index h)) →
    wp (updb (λ b, set_count (count b - k)%Z b);; SignalIfWaiters notFull_l;; Unlock;;
        return_ (Item_ <$> take (Z.to_nat k) l, None)) K U (Mach (set_idx x' (set_db d b)) WLocked w e)) as Hend.
  { clear w. intros x' w Hx. do 2 wstep.
    assert (Held h (drop (Z.to_nat k) l) n (set_count (count b - k) (set_idx x' (set_db d b)))) as HI'.
    { apply (held_removed h l); [done..|apply drop_subset| |lia|lia|done].
      unfold zlen. rewrite length_drop. lia. }
    wstep. apply (wp_signal_full p c enc stock h (drop (Z.to_nat k) l) n); [exact HI'|].
    intros b' Hb' Hp' _ _. do 3 wstep. apply HK. done. }
  change (indexed (set_db d b)) with (indexed b). unfold indexed.
  destruct (idx b) as [x|] eqn:Hx.
  - wstep. unfold RunLockedNoErr.
    assert (wp (unindex (Item_ <$> take (Z.to_nat k) l) (skey p <$> take (Z.to_nat k) l))
      (λ _ t, ∃ x' w, t = Mach (set_idx (Some x') (set_db d b)) WLocked w e ∧ idx_ok p x' (drop (Z.to_nat k) l) n (to_index h))
      (λ _ _, False) (Mach (set_db d b) WLocked w e)) as Hun.
    { apply (wp_unindex _ x); [done..|]. intros x' Hsub Hkeep w1. exists x', w1. split; [done|].
      apply (idx_ok_shrink x x' l); [by apply (he_idx _ _ _ _ _ _ _ _ HI)|apply drop_subset|done|].
      intros hs si Hsi. apply Hkeep, NoDup_take_drop; [by eapply held_NoDup|done]. }
    eapply wp_mono; [| |apply wp_on_unwind_never, Hun]; [|done].
    intros _ t (x' & w1 & -> & Hx'). apply Hend. by intros ? [= <-].
  - wstep. wstep. rewrite <- (set_idx_id (set_db d b)). apply Hend. simpl. by rewrite Hx.
Qed.

(** A Pop that found entries takes the first of them, or its error leaves everything in its place. *)
Lemma wp_pop_found m opts h l n b w e (K : option (list T * option err) → mach B W → Prop) :
  @hash_returns W T _ _ → P h l n → Held h l n b → closed b = false → calm ctx e → (0 < count b)%Z → (1 ≤ m)%Z →
  (∀ t, removed h (drop (take_count m h l) l) n t → 0 < take_count m h l ≤ length l →
     K (Some (Item_ <$> take (take_count m h l) l, None)) t) →
  (∀ oe t, outside t → K (Some ([], oe)) t) →
  let k := if (count b <? m)%Z then count b else m in
  wp ('(out, sks, backupDeleted, oe) ← Update ([], [], false) (pop_txn ctx opts k);
      match oe with
      | Some e =>
          oe ← (if backupDeleted : bool then
                  match backup b with
                  | Some bu => RunBackup (bk_Restore bu ctx out) Unlock
                  | None => mret None
                  end
                else mret None);
          Unlock;;
          match oe with
          | Some re => return_ ([], Join [Some e; Some re])
          | None => return_ ([], Some e)
          end
      | None =>
          (if indexed b then RunLockedNoErr (unindex out sks) Unlock else mret ());;
          updb (λ b, set_count (count b - k)%Z b);;
          SignalIfWaiters notFull_l;;
          Unlock;;
          return_ (out, None)
      end) K gone (Mach b WLocked w e).
Proof.
  intros Hret HP HI Hcl He Hpos Hm HK Herr k.
  pose proof (he_count _ _ _ _ _ _ _ _ HI) as Hcount. pose proof (count_le _ _ _ _ HI) as Hunc.
  assert (take_count m h l = Z.to_nat k ∧ (0 < k ≤ count b)%Z) as [Hk ?].
  { unfold take_count. subst k. destruct (count b <? m)%Z eqn:?; bool_to_prop; split; f_equal; lia. }
  assert (∀ (out : list T) (bd : bool) er b2 w, Held h l n b2 → wp (
      oe ← (if bd then
              match backup b with
              | Some bu => RunBackup (bk_Restore bu ctx out) Unlock
              | None => mret None
              end
            else mret None);
      Unlock;;
      match oe with
      | Some re => return_ ([], Join [Some er; Some re])
      | None => return_ ([], Some er)
      end) K gone (Mach b2 WLocked w e)) as Hrb.
  { clear w. intros out bd er b2 w HI2. repeat (wstep || ddone); apply Herr; ddone. }
  apply wp_bind, (wp_Update _ _ _ _ _ _ _ _ (rows l) n); [by eapply held_rows|].
  intros tx Hp Hs. eapply wp_mono; [| |apply (wp_pop_txn k l n tx b e); [by rewrite <- (he_cfg _ _ _ _ _ _ _ _ HI)|done..]].
  - intros [[[[out sks] bd] [er|]] tx'] t ([w' ->] & Hbd & Hok).
    { by apply Hrb. }
    specialize (Hok eq_refl) as (Hlen & -> & -> & Hp' & Hs'). split.
    + intros d Hd. apply (wp_pop_finish h l n b d k w' e); try done; [lia| |].
      * by rewrite Hd, Hp', Hs'.
      * intros t Ht. rewrite <- Hk in *. apply HK; [done|lia].
    + intros er d Hd. by apply Hrb, held_db_open.
  - intros u t ([u' ->] & [w' ->]). ddone.
Qed.

Lemma wp_disk_Pop m options s :
  @hash_returns W T _ _ → (1 ≤ m)%Z → outside s →
  wp (Bbolt.Pop ctx m options) (λ '(out, x) t,
    (out = [] ∧ outside t) ∨
    (x = None ∧ ∃ h l n, P h l n ∧ (ksorted p l ∧ Forall (entry_ok p n) l ∧ (n < two64)%Z) ∧ out = Item_ <$> take (take_count m h l) l ∧
       0 < take_count m h l ≤ length l ∧ removed h (drop (take_count m h l) l) n t))
    gone s.
Proof.
  intros Hret Hm Hs. unfold Bbolt.Pop. dstart; [left; split; [done|ddone]|].
  dloop. dauto.
  - left. split; [done|ddone].
  - exfalso. repeat case_match; bool_to_prop; lia.
  - eapply (wp_pop_found _ opts); [done..|by bool_to_prop|done| |].
    + intros t Ht [? ?]. right. split; [done|]. exists h, l, n.
      split_and!; try done; [by eapply held_sorted|by apply HI0|by apply HI0].
    + intros oe t Ht. by left.
  - left. split; [done|ddone].
Qed.

(** * Peek, Exists, the waits and Len *)

(** A look at the store under the lock. *)
Ltac dview :=
  match goal with HI : Held ?h ?l ?n ?b |- wp (View _ _ ≫= _) _ _ (Mach ?b _ _ _) =>
    apply wp_bind, (wp_View _ _ _ _ _ _ _ _ (rows l) n); [by eapply held_rows|]
  end;
  let tx := fresh "tx" in let Hp := fresh "Hp" in intros tx Hp _.

Lemma wp_disk_Peek options s :
  outside s →
  wp (Bbolt.Peek ctx options) (λ '(v, ok, x) t,
    outside t ∧ (ok = true → ∃ h si l n, P h (si :: l) n ∧ v = Item_ si)) gone s.
Proof.
  intros Hs. unfold Bbolt.Peek, rlocked. dstart; [split; [ddone|done]|]. dauto.
  all: try (split; [ddone|done]).
  dview. rewrite Hp, (he_cfg _ _ _ _ _ _ _ _ HI). destruct l as [|si l]; cbn [fmap list_fmap row].
  { repeat wstep. split; [ddone|done]. }
  wstep. apply (wp_decode c enc Hcodec); [intros w1|intros er w1|intros u w1].
  - repeat wstep; first [ddone|split; [ddone|]]; intros _; by exists h, si, l, n.
  - repeat wstep. split; [ddone|done].
  - repeat wstep. ddone.
Qed.

(** What Exists answers. An item that the flusher has committed and not yet counted may be missed when the
    index is there. *)
Lemma wp_disk_Exists v options s :
  outside s →
  wp (Exists_ ctx v options) (λ '(r, x) t, outside t ∧ (x = None →
    if r then ∃ h l n si, P h l n ∧ si ∈ l ∧ eqb (Item_ si) v = true else True)) gone s.
Proof.
  intros Hs. unfold Exists_, rlocked. dstart; [split; [ddone|done]|]. dauto.
  all: try (split; [ddone|done]).
  dview. rewrite (he_cfg _ _ _ _ _ _ _ _ HI).
  eapply wp_mono; [| |apply (wp_exists_find p c enc Hcodec l tx Hp b0 RLocked e0 v n (to_index h))].
  - intros [r oe] t ([w1 ->] & Hr). destruct oe as [er|]; [repeat wstep; split; [ddone|done]|].
    specialize (Hr eq_refl). simpl in Hr.
    repeat wstep; first [ddone|split; [ddone|intros _; destruct r; [|done]]];
      destruct Hr as (si & ? & ?); by exists h, l, n, si.
  - intros u t ([u' ->] & [w1 ->]). wstep. ddone.
  - apply (he_idx _ _ _ _ _ _ _ _ HI).
Qed.

Lemma wp_disk_Len s : outside s → wp Bbolt.Len (λ _ t, outside t) gone s.
Proof.
  intros Hs. unfold Bbolt.Len, rlocked. destruct s as [b ? w e]. revert Hs. intros (Hk & HI & He).
  simpl in Hk, HI, He. subst. dauto.
Qed.

Lemma wp_disk_NotEmpty options s :
  outside s → wp (Bbolt.NotEmpty ctx options) (λ _ t, outside t) gone s.
Proof. intros Hs. unfold Bbolt.NotEmpty. dstart; [ddone|]. dloop. dauto. Qed.

Lemma wp_disk_NotFull options s :
  outside s → wp (Bbolt.NotFull ctx options) (λ _ t, outside t) gone s.
Proof. intros Hs. unfold Bbolt.NotFull. dstart; [ddone|]. dloop. dauto. Qed.

(** * Del *)

(** What is left of the entries without those that match. *)
Abbreviation unmatched v l := (filter (λ x : SI, matched v (Item_ x) = false) l).

(** The delete in the store and what follows it. *)
Lemma wp_del_txn v h l n b ob a d tx0 w e (K : Z * option err → mach B W → Prop) U :
  Held h l n b → landed h = false → closed b = false → pairs tx0 = rows l →
  found_ok p l v a d → covers p l v a (skey p <$> l) →
  (∀ oe b w, Held h l n b → K (0%Z, oe) (Mach b WLocked w e)) →
  (∀ b w, Held h (unmatched v l) n b → sg_parked (notFull b) = [] →
     K (zlen (keys a), None) (Mach b WLocked w e)) →
  (∀ u b w, Held h l n b → U (Some u) (Mach b WLocked w e)) →
  wp ('(_, oe) ← Update () (λ tx,
        iferr e := match FaultAfterBackup c with None => mret None | Some h => call h end
        then mret ((), Some e, tx) else
        mret (match delete_keys (keys a) tx with
              | inr e => ((), Some e, tx)
              | inl tx => ((), None, tx)
              end));
      match oe with
      | Some e =>
          match ob with
          | None => mret (0%Z, Some e)
          | Some bu =>
              re ← call (bk_Restore bu ctx (items a));
              match re with
              | Some re => mret (0%Z, Join [Some e; WrapBackup (Some re)])
              | None => mret (0%Z, Some e)
              end
          end
      | None =>
          on_idx (remove_all (keys a) (khash a));;
          updb (λ b, set_count (count b - zlen (keys a))%Z b);;
          SignalIfWaiters notFull_l;;
          mret (zlen (keys a), None)
      end) K U (Mach b WLocked w e).
Proof.
  intros HI Hland Hcl Hp0 Hd Hcov HK0 HK HU.
  assert (∀ er b w, Held h l n b → wp (match ob with
      | None => mret (0%Z, Some er)
      | Some bu =>
          re ← call (bk_Restore bu ctx (items a));
          match re with
          | Some re => mret (0%Z, Join [Some er; WrapBackup (Some re)])
          | None => mret (0%Z, Some er)
          end
      end : go B W (Z * option err)) K U (Mach b WLocked w e)) as Hback.
  { intros er b1 w1 HI1. repeat wstep; auto. }
  apply wp_bind, (wp_Update _ _ _ _ _ _ _ _ (rows l) n); [by eapply held_rows|].
  intros tx Hp Hs.
  assert (∀ oe w, wp (match oe with
      | Some e => mret ((), Some e, tx)
      | None => mret (match delete_keys (keys a) tx with
                      | inr e => ((), Some e, tx) | inl tx => ((), None, tx) end)
      end) (λ r t, same b WLocked e t ∧ (r.1.2 = None →
        pairs r.2 = rows (unmatched v l) ∧ sequence r.2 = n)) U (Mach b WLocked w e)) as Htxn.
  { intros [er|] w1; wstep; (split; [by eexists|]); [done|]. intros Hdel.
    destruct (delete_keys (keys a) tx) as [tx'|] eqn:Hk; [|done].
    apply delete_keys_pairs in Hk as [Hk Hs']. rewrite Hp, rows_without in Hk.
    rewrite (without_found p enc l tx Hp v a d Hd Hcov) in Hk. simpl. by rewrite Hs', Hs. }
  eapply (wp_mono _ (λ r t, same b WLocked e t ∧ (r.1.2 = None →
     pairs r.2 = rows (unmatched v l) ∧ sequence r.2 = n)) _ U).
  3: { wstep. destruct (FaultAfterBackup c) as [hk|] eqn:Hf; [|wstep; apply (Htxn None)].
       unfold wp at 1, call. simpl. destruct (Hhook hk w Hf) as (oe & w1 & ->). apply Htxn. }
  2: done.
  intros [[[] [er|]] tx'] t ([w1 ->] & Hr); [by apply Hback|]. destruct (Hr eq_refl) as [Hp' Hs']. simpl in Hp', Hs'.
  pose proof (without_found_length p enc l tx Hp v a d Hd) as Hlen.
  rewrite (without_found p enc l tx Hp v a d Hd Hcov) in Hlen.
  pose proof (zlen_nonneg (keys a)). pose proof (zlen_nonneg (unmatched v l)).
  pose proof (he_count _ _ _ _ _ _ _ _ HI) as Hcount. unfold uncounted in Hcount. rewrite Hland in Hcount.
  split; [|intros; by apply Hback, held_db_open]. intros dd Hdd. rewrite Hp', Hs' in Hdd.
  wstep. unfold on_idx. wstep. do 2 wstep.
  apply wp_bind, (wp_signal_full p c enc stock h (unmatched v l) n).
  - apply (held_removed h l); [done..| | | | |].
    + intros si [_ Hsi]%list_elem_of_filter. done.
    + simpl. lia.
    + simpl. lia.
    + simpl. lia.
    + simpl. intros x' Hx'. destruct (idx b) as [x|] eqn:Hx; [|done]. injection Hx' as <-.
      apply (idx_ok_shrink x _ l); [by apply (he_idx _ _ _ _ _ _ _ _ HI)| | |].
      * intros si [_ Hsi]%list_elem_of_filter. done.
      * intros hs k. apply bucket_remove_all_subset.
      * intros hs si Hsi. apply bucket_remove_all_keeps.
        rewrite <- (without_found p enc l tx Hp v a d Hd Hcov) in Hsi.
        by apply list_elem_of_filter in Hsi as [? _].
  - intros b' Hb' Hpk _ _. wstep. by apply HK.
Qed.

Lemma wp_disk_Del v options s :
  (∀ h l n, P h l n → landed h = false) → outside s →
  wp (Bbolt.Del ctx v options) (λ '(m, x) t,
    (m = 0%Z ∧ outside t) ∨
    (x = None ∧ ∃ h l n, P h l n ∧ (0 < m)%Z ∧ m = (zlen l - zlen (unmatched v l))%Z ∧
       removed h (unmatched v l) n t))
    gone s.
Proof.
  intros Hidle Hs. unfold Bbolt.Del, locked. dstart; [left; split; [done|ddone]|]. dauto.
  all: try (left; split; [done|ddone]).
  dview. rewrite (he_cfg _ _ _ _ _ _ _ _ HI).
  assert (to_index h = []) as Hpend by (apply (he_landed _ _ _ _ _ _ _ _ HI); by eapply Hidle).
  eapply wp_mono; [| |apply (wp_collect p c enc Hcodec l tx Hp b0 WLocked e0 v n)].
  3: { rewrite <- Hpend. apply (he_idx _ _ _ _ _ _ _ _ HI). }
  2: { intros u t ([u' ->] & [w1 ->]). wstep. ddone. }
  intros [a [er|]] t ([w1 ->] & Hfound); [repeat wstep; left; split; [done|ddone]|].
  destruct (Hfound eq_refl) as (d & Hd & Hcov). clear Hfound. simpl in Hd, Hcov.
  dauto.
  all: try (left; split; [done|ddone]).
  all: match goal with
    | H : backup ?b = Some ?bu |- wp _ _ _ (Mach ?b _ _ _) => apply (wp_del_txn v h l n b (Some bu) a d tx)
    | H : backup ?b = None |- wp _ _ _ (Mach ?b _ _ _) => apply (wp_del_txn v h l n b None a d tx)
    end; try done; [by eapply Hidle| | |].
  all: try (intros; wstep; ddone).
  all: try (intros; wstep; left; split; [done|ddone]).
  all: intros b2 w2 Hb2 Hpk; wstep; right; split; [done|]; exists h, l, n.
  all: pose proof (without_found_length p enc l tx Hp v a d Hd) as Hlen;
    rewrite (without_found p enc l tx Hp v a d Hd Hcov) in Hlen;
    pose proof (zlen_nonneg (keys a)); bool_to_prop.
  all: split_and!; [done|lia|lia|done..].
Qed.

(** * Push *)

Lemma IP_stg b g :
  IP b → buf g = buf (stg b) → cur g = cur (stg b) → settled g = settled (stg b) →
  flusherStarted g = flusherStarted (stg b) → flusherDone g = flusherDone (stg b) →
  released g = released (stg b) → IP (set_stg g b).
Proof. intros (h & l & n & HP & HI) ??????. eapply IP_intro; [done|by apply held_stg]. Qed.

(** A batch is taken into the buffer. *)
Lemma held_buffered h l n b vs :
  Held h l n b →
  (0 < maxSize b → count b + inflight b + zlen vs ≤ maxSize b)%Z →
  Held h l n (lupd inflight_l (λ i, i + zlen vs)%Z (set_stg (set_buf (buf (stg b) ++ vs) (stg b)) b)).
Proof.
  intros [] Hfit. constructor; simpl; try done.
  - rewrite zlen_app. lia.
  - intros Hm. specialize (Hfit Hm). lia.
Qed.

Lemma wp_await r (K : option err → mach B W → Prop) b w e :
  IP b → calm ctx e → (∀ oe t, outside t → K oe t) → wp (await r) K gone (Mach b Unlocked w e).
Proof.
  intros HI He HK. unfold await. dloop. wstep. wstep. wstep.
  - wstep. apply HK. ddone.
  - wstep. apply (wp_wait p c enc stock P ctx); [done|done|intros ->; ddone|].
    intros b1 w1 e1 HI1 He1 Hl. wstep. ddone.
Qed.

(** The wait for a result that is not there yet takes a step of the others, when it ends with it. *)
Lemma wp_await_or_done r (K : bool → mach B W → Prop) b w e :
  IP b → calm ctx e → settled (stg b) !! r = None →
  (∀ d b w e', IP b → calm ctx e' → length e' ≤ length e → (d = true → length e' < length e) →
     K d (Mach b Unlocked w e')) →
  wp (await_or_done r ctx) K gone (Mach b Unlocked w e).
Proof.
  intros HI He Hr HK. unfold await_or_done.
  apply (wp_forever (λ t, outside t ∧ length (menv t) ≤ length e ∧
    (settled (stg (mb t)) !! r = None ∨ length (menv t) < length e))).
  { split; [ddone|]. split; [done|by left]. }
  clear b w HI He Hr. intros [b k w e1] ((Hk & HI & He) & Hle & Hr). simpl in Hk, HI, He, Hle, Hr. subst.
  do 4 wstep. destruct (settled (stg b) !! r) eqn:Hset, (ctx_cause ctx w) eqn:Hctx.
  - unfold toss. repeat wstep. apply HK; [done..|]. intros _. by destruct Hr.
  - repeat wstep. apply HK; [done..|]. intros _. by destruct Hr.
  - repeat wstep. by apply HK.
  - wstep. apply (wp_wait p c enc stock P ctx); [done|done|intros ->; ddone|].
    intros b1 w1 e2 HI1 He1 Hl. wstep. split; [|done]. split; [ddone|]. simpl. split; [lia|right; lia].
Qed.

Lemma wp_disk_Push vs options s :
  outside s → wp (Bbolt.Push ctx vs options) (λ _ t, outside t) gone s.
Proof.
  intros Hs. unfold Bbolt.Push. dstart; [ddone|]. dauto.
  dloop. dauto.
  3: { unfold upd_stg at 1. do 2 wstep.
       assert (IP (set_stg (set_flushReq true (stg b1)) b1)) as HI1 by (by apply IP_stg; [eapply IP_intro|..]).
       apply (wp_await_or_done _ _ _ _ _ HI1); [done|by apply (he_fresh _ _ _ _ _ _ _ _ HI0)|].
       intros d b2 w3 e2 HI2 He2 Hl2 Hd. wstep; [wstep; split; [ddone|]; specialize (Hd eq_refl); simpl; lia|].
       dauto. }
  all: unfold upd_stg; repeat wstep.
  all: match goal with |- wp (await _) _ _ (Mach ?b _ _ _) =>
      assert (IP b) as HI1 by (apply IP_stg; [eapply IP_intro; [done|apply held_buffered; [done|]]|done..];
        intros ?; bool_to_prop; lia)
    end.
  all: apply wp_await; [done|done|]; intros oe t Ht; by wstep.
Qed.

(** * Iteration *)

(** The loops run caller code and nothing else. *)
Lemma wp_all_loop yield ds (K : unit → mach B W → Prop) U b k w e :
  (∀ w, K tt (Mach b k w e)) → (∀ u w, U (Some u) (Mach b k w e)) →
  wp (all_loop c ctx yield ds) K U (Mach b k w e).
Proof.
  intros HK HU. revert w. induction ds as [|d ds IH]; intros w; cbn [all_loop]; [by wstep|].
  repeat first [apply IH | wstep]; auto.
Qed.

Lemma wp_snap_loop yield ds (K : unit → mach B W → Prop) U b k w e :
  (∀ w, K tt (Mach b k w e)) → (∀ u w, U (Some u) (Mach b k w e)) →
  wp (snap_loop c ctx yield ds) K U (Mach b k w e).
Proof.
  intros HK HU. revert w. induction ds as [|d ds IH]; intros w; cbn [snap_loop]; [by wstep|].
  repeat first [apply IH | wstep]; auto.
Qed.

Lemma wp_cow_loop yield ds x (K : cow → mach B W → Prop) U b k w e :
  (∀ x w, K x (Mach b k w e)) → (∀ u w, U (Some u) (Mach b k w e)) →
  wp (cow_loop c ctx yield ds x) K U (Mach b k w e).
Proof.
  intros HK HU. revert x w. induction ds as [|d ds IH]; intros x w; cbn [cow_loop]; [by wstep|].
  repeat first [apply IH | wstep]; auto.
Qed.

Lemma wp_disk_All yield s : outside s → wp (Bbolt.All ctx yield) (λ _ t, outside t) gone s.
Proof.
  intros Hs. unfold Bbolt.All, rlocked. destruct s as [b ? w e]. revert Hs. intros (Hk & HI & He).
  simpl in Hk, HI, He. subst. dauto.
  dview. rewrite (he_cfg _ _ _ _ _ _ _ _ HI). apply wp_bind, wp_all_loop; intros; repeat wstep; ddone.
Qed.

Lemma wp_release_held (K : unit → mach B W → Prop) U b k w e :
  k ≠ WLocked → K () (Mach b Unlocked w e) → wp release_held K U (Mach b k w e).
Proof. by destruct k. Qed.

Lemma wp_AllCOW yield s : outside s → wp (Bbolt.AllCOW ctx yield) (λ _ t, outside t) gone s.
Proof.
  intros Hs. unfold Bbolt.AllCOW. destruct s as [b ? w e]. revert Hs. intros (Hk & HI & He).
  simpl in Hk, HI, He. subst. wstep. dhelper.
  assert (∀ k w, k ≠ WLocked → wp release_held (λ _ t, outside t) gone (Mach b0 k w e0)) as Hend.
  { intros k w1 Hk. apply wp_release_held; [done|]. ddone. }
  assert (∀ k w u, k ≠ WLocked → wp release_held (λ _ t, gone (Some u) t) gone (Mach b0 k w e0)) as Hgone.
  { intros k w1 u Hk. apply wp_release_held; [done|]. ddone. }
  wstep. wstep. wstep. wstep.
  - wstep. apply wp_release_held; [done|]. repeat wstep; auto.
  - dview. rewrite (he_cfg _ _ _ _ _ _ _ _ HI). wstep. apply wp_cow_loop; [|auto].
    intros x w1. do 2 wstep. apply wp_release_held; [done|].
    repeat first [apply wp_snap_loop; intros | wstep]; auto.
Qed.

(** * Clear, at the caller *)

Lemma wp_submit cmd (K : unit + err → mach B W → Prop) b w e :
  IP b → calm ctx e → (∀ r t, outside t → K r t) → wp (submit cmd ctx) K gone (Mach b Unlocked w e).
Proof.
  intros HI He HK. unfold submit, toss. dloop. do 4 wstep.
  assert (∀ cmd w, IP (set_stg (set_clearReq cmd (stg b0)) b0)) as HI1 by (intros; by apply IP_stg).
  repeat first
    [ ddone
    | apply HK; first [ddone|apply disk_outside_intro; [by apply HI1|done]]
    | apply (wp_wait p c enc stock P ctx); [done|done|intros ->; ddone|intros; wstep; ddone]
    | unfold upd_stg; wstep ].
Qed.

Lemma wp_await_clear id (K : option err → mach B W → Prop) b w e :
  IP b → calm ctx e → (∀ r t, outside t → K r t) → wp (await_clear id) K gone (Mach b Unlocked w e).
Proof.
  intros HI He HK. unfold await_clear. dloop. do 4 wstep.
  repeat first
    [ ddone
    | apply HK; ddone
    | apply (wp_wait p c enc stock P ctx); [done|done|intros ->; ddone|intros; wstep; ddone]
    | wstep ].
Qed.

Lemma wp_disk_Clear options s : outside s → wp (Bbolt.Clear ctx options) (λ _ t, outside t) gone s.
Proof.
  intros Hs. unfold Bbolt.Clear. dstart; [ddone|]. wstep. wstep. unfold upd_stg. do 3 wstep.
  apply wp_submit; [by apply IP_stg|done|]. intros [?|er] [b1 ? w1 e1] (Hk & HI1 & He1);
    simpl in Hk, HI1, He1; subst; [|wstep; ddone].
  apply wp_await_clear; [done..|]. done.
Qed.
End ops.
