(* ===== verification/BboltClose.v ===== *)
(** The shutdown of the on-disk backing under interference: one goroutine performs it, the store is closed
    after the flusher is over and not before, and the invariant holds on every way it can end. *)

From stdpp Require Import gmap.
From S2P Require Import Prelude Errors Machine Core Contract Logic ContractFacts SeqOrder Bolt BboltKeys.
From S2P Require Import Bbolt BboltStore BboltInv BboltOps.

Section close.
Context {W T : Type} `{!Item W T} `{!SteadyItem W T} `{!HashLaw W T} `{!World W} `{!Runtime W} `{!Json W T}.
Context `{!Bolt} `{!BoltLaws}.
Context (p : bool) (c : Config W T) (enc : T → bytes) (stock : Z).
Context (P : hand → list (SeqItem T) → Z → Prop) (ctx : Ctx W).

Abbreviation B := (Backing W T).
Abbreviation Held := (Held p c enc stock).
Abbreviation IP := (IP p c enc stock P).
Abbreviation calm := (calm p c enc stock P).
Abbreviation outside := (outside p c enc stock P ctx).
Abbreviation gone := (gone p c enc stock P ctx).
Implicit Types b : B.

(** The invariant at a stage of the shutdown. *)
Definition at_stage (r : Z) b : Prop := IP b ∧ reached r b.

Lemma at_stage_le r r' b : (r' ≤ r)%Z → at_stage r b → at_stage r' b.
Proof. intros ? [? []]. split; [done|]. split; intros; naive_solver lia. Qed.

Lemma wp_Window r (Q : unit → mach B W → Prop) U b w e :
  (0 ≤ r)%Z → at_stage r b → calm ctx e →
  (∀ b w e', at_stage r b → calm ctx e' → length e' ≤ length e → Q () (Mach b Unlocked w e')) →
  wp Window Q U (Mach b Unlocked w e).
Proof.
  intros Hr Hb He HQ. unfold wp, Window, interfere. simpl. destruct e as [|f e]; simpl; [by apply HQ|].
  inversion_clear He as [|?? [Hf _] ?]. specialize (Hf r b w Hr Hb). destruct (f b w) as [b' w'].
  apply HQ; [done..|simpl; lia].
Qed.

Lemma wp_await_until r ready (Q : bool → mach B W → Prop) U b w e :
  (0 ≤ r)%Z → at_stage r b → calm ctx e →
  (∀ d b w e', at_stage r b → calm ctx e' → (d = true → ready b = true) → Q d (Mach b Unlocked w e')) →
  wp (await_until ready) Q U (Mach b Unlocked w e).
Proof.
  intros Hr Hb He HQ. unfold await_until, toss.
  apply (wp_forever (λ t, mlk t = Unlocked ∧ at_stage r (mb t) ∧ calm ctx (menv t))); [done|].
  clear b w e Hb He. intros [b k w e] (Hk & Hb & He). simpl in *. subst.
  do 4 wstep. destruct (ready b) eqn:?, (expired w) eqn:?; [repeat wstep; by apply HQ..| |].
  { repeat wstep. by apply HQ. }
  wstep. unfold wp at 1, park_or_timeout, interfere. simpl. destruct e as [|f e]; simpl.
  { wstep. by apply HQ. }
  inversion_clear He as [|?? [Hf _] ?]. specialize (Hf r b w Hr Hb). destruct (f b w) as [b' w'].
  wstep. simpl. split; [done|lia].
Qed.

(** The bookkeeping does not touch what the invariant speaks of. *)
Lemma at_stage_shut r b g :
  at_stage r b → shutCommitted g = shutCommitted (shut b) → at_stage r (set_shut g b).
Proof.
  intros [(h & l & n & HP & HI) []] Hg. split; [eapply IP_intro; [done|by apply held_shut]|].
  split; simpl; rewrite ?Hg; auto.
Qed.

Lemma at_stage_cancel r b x : at_stage r b → at_stage r (set_stg (set_flushCancelled x (stg b)) b).
Proof. intros [HI []]. split; [by apply IP_stg|]. by split. Qed.

(** The flusher is over: the store may be closed. *)
Lemma at_stage_commit b :
  at_stage 2 b → at_stage 3 (set_shut (set_shutCommitted true (shut b)) b).
Proof.
  intros [(h & l & n & HP & HI) [Hc Ho _]]. specialize (Hc ltac:(lia)). specialize (Ho ltac:(lia)).
  split; [|by split]. exists h, l, n. split; [done|]. destruct HI. constructor; simpl; try done; [congruence|].
  intros Hr. destruct (he_running Hr). by rewrite Ho in *.
Qed.

Lemma at_stage_db b : at_stage 3 b → at_stage 3 (set_db (db_Close (db b)).2 b).
Proof.
  intros [(h & l & n & HP & HI) [Hc Ho Hs]]. split; [|by split]. exists h, l, n. split; [done|].
  destruct HI. constructor; simpl; try done; [by rewrite (Hs ltac:(lia))|by apply on_file_close].
Qed.

Lemma wp_closeDB (Q : option err → mach B W → Prop) U b w e :
  at_stage 3 b → (∀ oe b, at_stage 3 b → Q oe (Mach b Unlocked w e)) → wp closeDB Q U (Mach b Unlocked w e).
Proof.
  intros Hb HQ. unfold closeDB. wstep. wstep. apply at_stage_db in Hb.
  destruct (db_Close (db b)) as [oe d]. wstep. wstep. wstep. by apply HQ.
Qed.

Lemma wp_upd_shut r f (Q : unit → mach B W → Prop) U b w e :
  at_stage r b → shutCommitted (f (shut b)) = shutCommitted (shut b) →
  (∀ b, at_stage r b → Q () (Mach b Unlocked w e)) → wp (upd_shut f) Q U (Mach b Unlocked w e).
Proof. intros Hb Hf HQ. unfold upd_shut. wstep. by apply HQ, at_stage_shut. Qed.

(** The store is closed however the Backup's Close ends. *)
Definition closing e (t : mach B W) : Prop := ∃ b w, t = Mach b Unlocked w e ∧ at_stage 3 b.

Lemma wp_release b w e :
  at_stage 3 b →
  wp (release ctx) (λ _ t, closing e t) (λ u t, is_Some u ∧ closing e t) (Mach b Unlocked w e).
Proof.
  intros Hb. unfold release. apply wp_defer.
  assert (∀ (Q : unit → mach B W → Prop) U b w, at_stage 3 b →
    (∀ b, at_stage 3 b → Q () (Mach b Unlocked w e)) →
    wp (e ← closeDB; upd_shut (λ h, set_cErr (match cErr h with None => e | e => e end) h)) Q U
      (Mach b Unlocked w e)) as Hclose.
  { clear b w Hb. intros Q U b w Hb HQ. wstep. apply wp_closeDB; [done|]. intros oe b1 Hb1.
    apply (wp_upd_shut 3); done. }
  assert (∀ b w, at_stage 3 b → closing e (Mach b Unlocked w e)) as Hcl by (intros b1 w1 ?; by exists b1, w1).
  wstep. wstep. wstep. destruct (backup b).
  - wstep. apply (wp_upd_shut 3); [done..|]. intros b2 Hb2. do 2 wstep.
    + apply (wp_upd_shut 3); [done..|]. intros b3 Hb3. do 3 wstep. by apply Hclose; [|auto].
    + apply Hclose; [done|]. auto.
  - do 4 wstep. apply Hclose; auto.
Qed.

Lemma wp_publish done' (Q : unit → mach B W → Prop) U b w e :
  at_stage 1 b → calm ctx e → (∀ t, outside t → Q () t) → wp (publish done') Q U (Mach b Unlocked w e).
Proof.
  intros Hb He HQ. unfold publish. wstep. apply (wp_Window 1); [lia|done..|].
  intros b1 w1 e1 Hb1 He1 _. wstep. apply (wp_upd_shut 1); [done..|]. intros b2 Hb2.
  apply (wp_upd_shut 1); [done..|]. intros b3 [HI _]. by apply HQ.
Qed.

(** What the performer leaves to its deferred bookkeeping. *)
Definition attempted (t : mach B W) : Prop :=
  mlk t = Unlocked ∧ at_stage 1 (mb t) ∧ calm ctx (menv t).

Lemma wp_perform b w e :
  at_stage 1 b → calm ctx e →
  wp (perform ctx) (λ _ t, attempted t) (λ u t, is_Some u ∧ attempted t) (Mach b Unlocked w e).
Proof.
  intros Hb He. unfold perform, upd_stg. do 2 wstep.
  assert (∀ b w e, at_stage 2 b → calm ctx e → wp (
      upd_shut (set_complete true);;
      Window;;
      upd_shut (set_shutCommitted true);;
      release ctx) (λ _ t, attempted t) (λ u t, is_Some u ∧ attempted t) (Mach b Unlocked w e)) as Hrel.
  { clear b w e Hb He. intros b w e Hb He. wstep. apply (wp_upd_shut 2); [done..|].
    intros b1 Hb1. wstep. apply (wp_Window 2); [lia|done..|]. intros b2 w2 e2 Hb2 He2 _.
    unfold upd_shut. do 2 wstep.
    eapply wp_mono; [| |apply wp_release, at_stage_commit, Hb2].
    - intros _ t (b' & w' & -> & Hb'). split_and!; [done|apply (at_stage_le 3); [lia|done]|done].
    - intros u t (? & b' & w' & -> & Hb'). split; [done|]. split_and!; [done|apply (at_stage_le 3); [lia|done]|done]. }
  assert (∀ b, at_stage 1 b → flusher_over b = true → at_stage 2 b) as Hover.
  { intros b1 [HI [Hc _ _]] Ho. split; [done|]. split; intros; [naive_solver lia|done|lia]. }
  assert (at_stage 1 (set_stg (set_flushCancelled true (stg b)) b)) as Hb' by by apply at_stage_cancel.
  revert Hb'. generalize (set_stg (set_flushCancelled true (stg b)) b). clear b Hb. intros b Hb.
  do 3 wstep. destruct (flusherStarted (stg b)) eqn:Hst.
  2: { wstep. wstep. apply Hrel; [|done]. apply Hover; [done|]. unfold flusher_over. by rewrite Hst. }
  wstep. apply (wp_await_until 1); [lia|done..|]. intros [] b1 w1 e1 Hb1 He1 Hd; [|repeat wstep; by split_and!].
  specialize (Hover b1 Hb1). do 2 wstep.
  - wstep. apply (wp_upd_shut 2); [apply Hover; unfold flusher_over; by rewrite Hd, orb_true_r|done|].
    intros b2 Hb2. wstep. by apply Hrel.
  - split; [done|]. by split_and!.
Qed.

Lemma wp_shutdown b w e :
  at_stage 1 b → calm ctx e →
  wp (shutdown ctx) (λ _ t, outside t) gone (Mach b Unlocked w e).
Proof.
  intros Hb He. unfold shutdown. wstep. apply (wp_Window 1); [lia|done..|]. intros b1 w1 e1 Hb1 He1 _.
  assert (∀ oe b w e, at_stage 1 b → calm ctx e →
    wp (mret oe : go B W (option err)) (λ _ t, outside t) gone (Mach b Unlocked w e)) as Hret.
  { intros oe b2 w2 e2 [HI _] He2. by wstep. }
  do 2 wstep. destruct (shutComplete (shut b1)); [by apply Hret|]. destruct (shutBusy (shut b1)).
  { wstep. apply (wp_await_until 1); [lia|done..|]. intros d b2 w2 e2 Hb2 He2 _.
    wstep. apply (wp_Window 1); [lia|done..|]. intros b3 w3 e3 Hb3 He3 _.
    do 2 wstep. destruct d; by apply Hret. }
  wstep. apply (wp_upd_shut 1); [done..|]. intros b2 Hb2. unfold booked. wstep. apply wp_defer.
  eapply wp_mono; [| |by apply wp_perform].
  - intros oe [b3 ? w3 e3] (Hk & Hb3 & He3). simpl in *. subst. apply wp_publish; [done..|].
    intros t Ht. by repeat wstep.
  - intros u [b3 ? w3 e3] ([u' ->] & Hk & Hb3 & He3). simpl in *. subst. apply wp_publish; [done..|].
    intros t Ht. by split.
Qed.

(** The last wake-ups of Close. *)
Lemma outside_signals t (Q : unit → mach B W → Prop) U :
  outside t → (∀ t', outside t' → Q () t') → wp (DoSignal notEmpty_l;; DoSignal notFull_l) Q U t.
Proof.
  destruct t as [b ? w e]. intros (Hk & (h & l & n & HP & HI) & He) HQ. simpl in Hk, HI, He. subst.
  unfold DoSignal. do 2 wstep. apply HQ. split_and!; [done| |done].
  exists h, l, n. split; [done|].
  apply held_notFull; [|apply Broadcast_ok|done]. by apply held_notEmpty; [|apply Broadcast_ok|..].
Qed.

Lemma wp_disk_Close options s : outside s → wp (Bbolt.Close ctx options) (λ _ t, outside t) gone s.
Proof.
  intros (Hk & HI & He). unfold Bbolt.Close. destruct s as [b ? w e]. simpl in Hk, HI, He. subst.
  do 3 wstep; [wstep; by split|]. wstep. destruct (apply_options _ _) as [opts [?|]]; [by wstep|].
  wstep. apply (wp_lock p c enc stock P ctx); [done..|].
  intros h l n b1 w1 e1 HP HI1 He1 _. clear b w e HI He.
  assert (outside (Mach b1 Unlocked w1 e1)) as Hout by (split_and!; [done|by exists h, l, n|done]).
  assert (∀ w, outside (Mach b1 Unlocked w e1)) as Hout' by done.
  assert (∀ w, wp (
      updb (set_closed true);;
      Unlock;;
      DoSignal notEmpty_l;;
      DoSignal notFull_l;;
      defer (DoSignal notEmpty_l;; DoSignal notFull_l) (shutdown ctx))
    (λ _ t, outside t) gone (Mach b1 WLocked w e1)) as Hgo.
  { clear w1 Hout Hout'. intros w. unfold DoSignal at 1 2. do 8 wstep.
    apply wp_defer. eapply wp_mono; [| |apply wp_shutdown; [|done]].
    - intros oe t Ht. by apply outside_signals.
    - intros [u|] t Ht; [|done]. apply outside_signals; [apply Ht|]. intros t' Ht'. by split.
    - split; [|by split]. exists h, l, n. split; [done|]. by apply held_closed. }
  repeat first [apply Hgo | wstep]; try done; by split.
Qed.
End close.
