(* ===== verification/BboltFlush.v ===== *)
(** The flusher of the on-disk backing under interference by the callers: it settles every batch it takes,
    on every way a commit can end, and the batch is in the store as a whole or not at all. *)

From stdpp Require Import gmap.
From S2P Require Import Prelude Errors Machine Core Contract Logic ContractFacts SeqOrder Bolt BboltKeys.
From S2P Require Import Bbolt BboltStore BboltInv BboltFind BboltOps.

Section flush.
Context {W T : Type} `{!Item W T} `{!SteadyItem W T} `{!HashLaw W T} `{!World W} `{!Runtime W} `{!Json W T}.
Context `{!Bolt} `{!BoltLaws}.
Context (p : bool) (c : Config W T) (enc : T → bytes) (stock : Z).
Context (Hcodec : codec_ok c enc) (Hkey : keyOf c = keyOf_fn p) (Hprio : @prio_words W T _ _).

Abbreviation B := (Backing W T).
Abbreviation SI := (SeqItem T).
Abbreviation Held := (Held p c enc stock).
Abbreviation rows l := (row p enc <$> l).
Implicit Types (b : B) (l : list SI) (h : hand).

(** * The rows of a batch *)

Definition blame_with (x : codeSubject) b : B := set_stg (set_blamed x (stg b)) b.

Lemma held_blame h l n b x : Held h l n b → Held h l n (blame_with x b).
Proof. intros HI. by apply held_stg. Qed.

Lemma wp_upd_blamed f (Q : unit → mach B W → Prop) U b x k w e :
  (∀ x, Q () (Mach (blame_with x b) k w e)) → wp (upd_blamed f) Q U (Mach (blame_with x b) k w e).
Proof. intros HQ. unfold upd_blamed, upd_stg. wstep. apply (HQ (f x)). Qed.

(** The index entries of a batch. *)
Definition index_entries (vs : list T) (n : Z) : list (Z * bytes) :=
  (λ x, (hash (Item_ x), skey p x)) <$> numbered vs n.

(** Only the subject of the blame has changed. *)
Definition blamed_only b k e (t : mach B W) : Prop := ∃ x w, t = Mach (blame_with x b) k w e.

Lemma wp_write_loop b k e vs ents tx l n x w :
  cfg b = c → pairs tx = rows l → sequence tx = n → Forall (entry_ok p n) l → (0 ≤ n < two64)%Z →
  wp (write_loop vs ents tx) (λ r t, blamed_only b k e t ∧ (r.1.2 = None →
      pairs r.2 = rows (place_all p vs n l) ∧ sequence r.2 = (n + zlen vs)%Z ∧ (n + zlen vs < two64)%Z ∧
      r.1.1 = ents ++ (if indexed b then index_entries vs n else [])))
    (λ u t, is_Some u ∧ blamed_only b k e t) (Mach (blame_with x b) k w e).
Proof.
  intros Hcfg. revert ents tx l n x w. induction vs as [|v vs IH]; intros ents tx l n x w Hp Hs Hl Hn;
    cbn [write_loop].
  { wstep. split; [by eexists _, _|]. intros _. split_and!; [done|by rewrite Z.add_0_r|by rewrite Z.add_0_r; lia|].
    simpl. unfold index_entries. by destruct (indexed b); rewrite app_nil_r. }
  assert (∀ (er : err) tx x w, wp (mret (ents, Some er, tx) : go B W _) (λ r t, blamed_only b k e t ∧ (r.1.2 = None →
      pairs r.2 = rows (place_all p (v :: vs) n l) ∧ sequence r.2 = (n + zlen (v :: vs))%Z ∧
      (n + zlen (v :: vs) < two64)%Z ∧
      r.1.1 = ents ++ (if indexed b then index_entries (v :: vs) n else [])))
    (λ u t, is_Some u ∧ blamed_only b k e t) (Mach (blame_with x b) k w e)) as Herr.
  { intros er tx' x1 w1. wstep. split; [by eexists _, _|done]. }
  wstep. apply wp_upd_blamed. intros x1. wstep. wstep. change (cfg (blame_with x1 b)) with (cfg b). rewrite Hcfg.
  wstep. apply (wp_encode c enc Hcodec); [| |intros; split; [done|by eexists _, _]].
  2: { intros er w1. wstep. apply wp_upd_blamed. intros x2. apply Herr. }
  intros w1. wstep. apply wp_upd_blamed. intros x2.
  destruct (NextSequence tx) as [[seq tx1]|er] eqn:Hseq; [|apply Herr].
  apply NextSequence_pairs in Hseq as (-> & Hlt & Hp1 & Hs1). rewrite Hs in Hlt, Hs1 |- *.
  wstep. apply wp_upd_blamed. intros x3. wstep.
  rewrite Hkey. apply wp_call; [|intros; split; [done|by eexists _, _]].
  intros sk w3 ->%keyOf_value.
  apply wp_bind, wp_upd_blamed. intros x4.
  set (y := MkSeqItem (n + 1) v). change (key p v (n + 1)) with (skey p y).
  destruct (Put (skey p y) (enc v) tx1) as [tx2|er] eqn:Hput; [|apply Herr].
  apply Put_pairs in Hput as [Hp2 Hs2]. rewrite Hp1, Hp in Hp2.
  change (enc v) with (enc (Item_ y)) in Hp2.
  assert (entry_ok p (n + 1) y) as Hy by (split; [simpl; lia|by apply ranked_all]).
  rewrite (bput_place p enc (n + 1)) in Hp2; [|lia|eapply entries_mono; [|done]; lia|done|].
  2: { eapply Forall_impl; [done|]. intros z [? _]. simpl. lia. }
  assert (Forall (entry_ok p (n + 1)) (place p y l)) as Hl' by (apply place_entry_ok; [eapply entries_mono; [|done]; lia|done]).
  change (indexed (blame_with x1 b)) with (indexed b).
  assert (∀ ents' x w, ents' = ents ++ (if indexed b then [(hash v, skey p y)] else []) →
    wp (write_loop vs ents' tx2) (λ r t, blamed_only b k e t ∧ (r.1.2 = None →
      pairs r.2 = rows (place_all p (v :: vs) n l) ∧ sequence r.2 = (n + zlen (v :: vs))%Z ∧
      (n + zlen (v :: vs) < two64)%Z ∧
      r.1.1 = ents ++ (if indexed b then index_entries (v :: vs) n else [])))
    (λ u t, is_Some u ∧ blamed_only b k e t) (Mach (blame_with x b) k w e)) as Hrest.
  { intros ents' x5 w5 Hents. eapply wp_mono; [| |apply (IH ents' tx2 (place p y l) (n + 1)%Z); [done|congruence|done|lia]]; [|done].
    intros [[ents'' oe] tx'] t [Ht Hr]. split; [done|]. intros Hoe. destruct (Hr Hoe) as (? & Hs' & ? & Hr').
    simpl in *. rewrite zlen_cons. split_and!; [done|lia|lia|].
    rewrite Hr', Hents, <- app_assoc. f_equal. by destruct (indexed b). }
  destruct (indexed b) eqn:Hidx; [|by apply Hrest; rewrite app_nil_r].
  wstep. apply wp_upd_blamed. intros x5. wstep. apply wp_Hash; [|intros; split; [done|by eexists _, _]].
  intros w6. wstep. apply wp_upd_blamed. intros x6. by apply Hrest.
Qed.

(** * What the flusher does to the invariant *)

(** It takes the buffer. *)
Lemma held_take run l n b :
  Held (empty_handed run) l n b →
  Held (Hand (zlen (buf (stg b))) false [] (Some (cur (stg b))) run) l n
    (set_stg (set_released false (set_cur (S (cur (stg b))) (set_buf [] (stg b)))) b).
Proof.
  intros []. constructor; unfold uncounted in *; simpl in *; try done.
  - apply zlen_nonneg.
  - rewrite he_inflight. unfold zlen. simpl. lia.
  - intros i Hi. apply he_fresh. lia.
  - intros i Hi Hs. destruct (decide (i = cur (stg b))) as [->|Hne]; [done|].
    specialize (he_owed i ltac:(lia) Hs). done.
  - intros i [= <-]. split; [lia|]. by apply he_fresh.
Qed.

(** It gives the room back. *)
Lemma held_give_up m o run l n b :
  Held (Hand m false [] o run) l n b →
  Held (Hand 0 false [] o run) l n (lupd inflight_l (λ i, i - m)%Z b).
Proof. intros []. constructor; simpl in *; try done; [lia|]. intros Hm. specialize (he_bound Hm). lia. Qed.

Lemma held_set_released o run l n b x :
  Held (Hand 0 false [] o run) l n b → Held (Hand 0 false [] o run) l n (set_stg (set_released x (stg b)) b).
Proof. intros []. by constructor. Qed.

(** It says how the batch ended. *)
Lemma held_settled r oe run l n b :
  Held (Hand 0 false [] (Some r) run) l n b →
  Held (empty_handed run) l n (set_stg (set_settled (<[r := oe]> (settled (stg b))) (stg b)) b).
Proof.
  intros []. destruct (he_owes r eq_refl) as [Hr _]. constructor; simpl in *; try done.
  - intros i Hi. rewrite lookup_insert_ne by lia. by apply he_fresh.
  - intros i Hi. rewrite lookup_insert_None. intros [Hs Hne].
    specialize (he_owed i Hi Hs). congruence.
Qed.

(** The index and the entries of a batch that is to be added. *)
Lemma idx_ok_batch x vs l n :
  idx_ok p x l n [] → Forall (entry_ok p n) l → (0 ≤ n)%Z → (n + zlen vs < two64)%Z →
  idx_ok p x (place_all p vs n l) (n + zlen vs) (index_entries vs n).
Proof.
  intros [Hc Hs Ho] Hl Hn Hlt. pose proof (zlen_nonneg vs) as Hvs. rewrite Forall_forall in Hl.
  assert (∀ si, si ∈ place_all p vs n l ↔ si ∈ numbered vs n ∨ si ∈ l) as Hmem.
  { intros si. by rewrite place_all_Permutation, elem_of_app. }
  assert (∀ si, si ∈ numbered vs n → entry_ok p (n + zlen vs) si ∧ (n < Seq si)%Z) as Hnew.
  { intros si Hsi%numbered_Seq. split; [split; [lia|by apply ranked_all]|lia]. }
  assert (∀ si, si ∈ l → entry_ok p (n + zlen vs) si) as Hold.
  { intros si Hsi. eapply entry_ok_mono; [|by apply Hl]. lia. }
  assert (∀ hs k, (hs, k) ∈ index_entries vs n →
    ∃ si, si ∈ numbered vs n ∧ hs = hash (Item_ si) ∧ k = skey p si) as Hent.
  { intros hs k (si & [= -> ->] & Hsi)%list_elem_of_fmap. by exists si. }
  constructor.
  - intros si [Hsi|Hsi]%Hmem.
    + right. apply (list_elem_of_fmap_2 (λ x, (hash (Item_ x), skey p x)) _ _ Hsi).
    + destruct (Hc si Hsi) as [?|[]%elem_of_nil]. by left.
  - intros hs k si Hk Hsi Heq. destruct Hk as [Hk|Hk].
    + destruct (Ho hs k ltac:(by left)) as (sj & -> & Hj). apply Hmem in Hsi as [Hsi|Hsi].
      * exfalso. destruct (Hnew si Hsi) as [Hok Hgt].
        assert (Seq si = Seq sj); [|lia]. apply (skey_inj p (n + zlen vs)); [done|done| |done].
        split; [lia|by apply ranked_all].
      * apply (Hs hs (skey p sj)); [by left|done..].
    + destruct (Hent hs k Hk) as (sj & Hj & -> & ->). destruct (Hnew sj Hj) as [Hokj Hgtj].
      assert (Seq si = Seq sj) as HSeq.
      { apply (skey_inj p (n + zlen vs)); [done| |done|done]. apply Hmem in Hsi as [Hsi|Hsi]; [by apply Hnew|by apply Hold]. }
      apply Hmem in Hsi as [Hsi|Hsi].
      * by rewrite (numbered_inj vs n si sj).
      * destruct (Hl si Hsi) as [? _]. lia.
  - intros hs k [Hk|Hk].
    + destruct (Ho hs k ltac:(by left)) as (sj & -> & Hj). exists sj. split; [done|lia].
    + destruct (Hent hs k Hk) as (sj & Hj & -> & ->). exists sj. split; [done|]. by destruct (Hnew sj Hj) as [[? _] _].
Qed.

(** The batch is in the store, not yet counted and not yet in the index. *)
Lemma held_committed o vs run l n b d :
  Held (Hand (zlen vs) false [] o run) l n b →
  view_of d = Some (rows (place_all p vs n l), (n + zlen vs)%Z) → (n + zlen vs < two64)%Z →
  Held (Hand (zlen vs) true (if indexed b then index_entries vs n else []) o run)
    (place_all p vs n l) (n + zlen vs) (set_db d b).
Proof.
  intros [] Hd Hlt. pose proof (zlen_nonneg vs). constructor; unfold uncounted in *; simpl in *; try done.
  - by apply view_on_file.
  - apply Forall_forall. intros si. rewrite place_all_Permutation, elem_of_app. intros [Hsi|Hsi].
    + apply numbered_Seq in Hsi. split; [lia|by apply ranked_all].
    + rewrite Forall_forall in he_entries. eapply entry_ok_mono; [|by apply he_entries]. lia.
  - lia.
  - rewrite place_all_length. lia.
  - intros x Hx. unfold indexed. rewrite Hx. apply idx_ok_batch; [by apply he_idx|done|lia|done].
Qed.

(** It is counted, and the consumers are woken if there was nothing. *)
Lemma held_counted m ents o run l n b g :
  Held (Hand m true ents o run) l n b → (0 < m)%Z → signal_ok g → sg_parked g = [] ∨ g = notEmpty b ∧ (0 < count b)%Z →
  Held (Hand 0 false [] o run) l n
    (lset notEmpty_l g (set_idx (add_all ents <$> idx b) (set_stg (set_released true (stg b))
      (lupd inflight_l (λ i, i - m)%Z (set_count (count b + m)%Z b))))).
Proof.
  intros [] Hm Hg Hp. constructor; unfold uncounted in *; simpl in *; try done.
  - lia.
  - lia.
  - lia.
  - intros Hms. specialize (he_bound Hms). lia.
  - intros x. destruct (idx b) as [x'|] eqn:Hx; [|done]. simpl. intros [= <-].
    destruct (he_idx x' eq_refl) as [Hc Hs Ho]. constructor.
    + intros si Hsi. left. by apply bucket_add_all, Hc.
    + intros hs k si [Hk%bucket_add_all|[]%elem_of_nil]. by apply Hs.
    + intros hs k [Hk%bucket_add_all|[]%elem_of_nil]. by apply (Ho hs).
  - intros _. destruct Hp as [?|[-> ?]]; [done|]. by apply he_wake.
  - intros Hcl. destruct (he_closed Hcl) as [? Hne]. split; [done|]. by destruct Hp as [?|[-> ?]].
Qed.

(** * Rules *)

(** What the others do to the contents while the flusher is at work; they leave alone what it has in
    hand. *)
Context (S : relation (list SI * Z)) `{!PreOrder S}.

Definition keeps : list (B → W → B * W) → Prop :=
  Forall (λ f, ∀ h l n b w, Held h l n b → ∃ l' n', S (l, n) (l', n') ∧ Held h l' n' (f b w).1).

(** What it finds when it has the lock. *)
Definition at_lock b w (e : list (B → W → B * W)) : B := match e with [] => b | f :: _ => (f b w).1 end.

Lemma wp_flock h l n k (Q : unit → mach B W → Prop) U b w e :
  Held h l n b → keeps e →
  (∀ l' n' b' w' e', S (l, n) (l', n') → Held h l' n' b' → keeps e' → b' = at_lock b w e →
     Q () (Mach b' k w' e')) →
  wp (acquire k) Q U (Mach b Unlocked w e).
Proof.
  intros HI He HQ. unfold wp, acquire, interfere. simpl. destruct e as [|f e]; simpl; [by apply (HQ l n)|].
  inversion_clear He as [|?? Hf He']. destruct (Hf h l n b w HI) as (l' & n' & HS & HI').
  destruct (f b w) as [b' w'] eqn:Hfb. apply (HQ l' n'); simpl; by rewrite ?Hfb.
Qed.

(** The flusher with [h] in hand holds no lock; the contents are as [C] says. *)
Definition flushing h (C : list SI → Z → Prop) (t : mach B W) : Prop :=
  mlk t = Unlocked ∧ keeps (menv t) ∧ ∃ l n, C l n ∧ Held h l n (mb t).

(** The contents are what the others made of [l] and [n]. *)
Definition since l n : list SI → Z → Prop := λ l' n', S (l, n) (l', n').
Lemma since_refl l n : since l n l n.
Proof. unfold since. reflexivity. Qed.

Lemma wp_releaseInflight m o run l n b w e (Q : unit → mach B W → Prop) U :
  Held (Hand m false [] o run) l n b → keeps e →
  (∀ l' n' b w e, S (l, n) (l', n') → Held (Hand 0 false [] o run) l' n' b → keeps e →
     Q () (Mach b Unlocked w e)) →
  wp (releaseInflight m) Q U (Mach b Unlocked w e).
Proof.
  intros HI He HQ. unfold releaseInflight. wstep. eapply wp_flock; [done..|].
  intros l' n' b' w' e' HS HI' He' _. do 4 wstep.
  eapply wp_signal_full; [by apply held_give_up|]. intros b2 HI2 _ _ _. by apply (HQ l' n').
Qed.

Lemma wp_disk_settle r oe run l n b w e (Q : unit → mach B W → Prop) U :
  Held (Hand 0 false [] (Some r) run) l n b →
  (∀ b, Held (empty_handed run) l n b → settled (stg b) !! r = Some oe → Q () (Mach b Unlocked w e)) →
  wp (settle r oe) Q U (Mach b Unlocked w e).
Proof.
  intros HI HQ. unfold settle, upd_stg. wstep. wstep.
  destruct (he_owes _ _ _ _ _ _ _ _ HI r eq_refl) as [_ ->]. wstep.
  apply HQ; [by apply held_settled|]. simpl. by rewrite lookup_insert_eq.
Qed.

Lemma wp_blame h l n f (Q : unit → mach B W → Prop) U b w e k :
  Held h l n b → (∀ x, Held h l n (blame_with x b) → Q () (Mach (blame_with x b) k w e)) →
  wp (upd_blamed f) Q U (Mach b k w e).
Proof.
  intros HI HQ. unfold upd_blamed, upd_stg. wstep. apply (HQ (f (blamed (stg b)))). by apply held_blame.
Qed.

(** * A commit *)

(** All of the batch is in the store, or nothing of it. *)
Definition batch_done (vs : list T) l n (oe : option err) : list SI → Z → Prop := λ l' n',
  match oe with
  | None => ∃ l1 n1, S (l, n) (l1, n1) ∧ S (place_all p vs n1 l1, (n1 + zlen vs)%Z) (l', n')
  | Some _ => S (l, n) (l', n')
  end.

(** What is left to do after the transaction. *)
Lemma wp_count (vs : list T) ents o l n b w e (K : option err → mach B W → Prop) U :
  Held (Hand (zlen vs) true ents o true) l n b → (0 < zlen vs)%Z → keeps e →
  (∀ t, flushing (Hand 0 false [] o true) (since l n) t → K None t) →
  wp (wasEmpty ← locked (
        b ← getb;
        let was := (count b =? 0)%Z in
        updb (λ b, set_count (count b + zlen vs)%Z b);;
        updb (lupd inflight_l (λ i, i - zlen vs)%Z);;
        upd_stg (set_released true);;
        on_idx (add_all ents);;
        mret was);
      (if wasEmpty : bool then SignalIfWaiters notEmpty_l else mret ());;
      mret None) K U (Mach b Unlocked w e).
Proof.
  intros HI Hm He HK. unfold locked, upd_stg, on_idx. do 2 wstep. eapply wp_flock; [done..|].
  intros l' n' b' w' e' HS HI' He' _.
  assert (∀ g, signal_ok g → sg_parked g = [] ∨ g = notEmpty b' ∧ (0 < count b')%Z →
    flushing (Hand 0 false [] o true) (since l n)
      (Mach (lset notEmpty_l g (set_idx (add_all ents <$> idx b') (set_stg (set_released true (stg b'))
         (lupd inflight_l (λ i, i - zlen vs)%Z (set_count (count b' + zlen vs)%Z b'))))) Unlocked w' e')) as Hend.
  { intros g Hg Hp. split_and!; [done..|]. exists l', n'. split; [done|]. by apply held_counted. }
  pose proof (he_notEmpty _ _ _ _ _ _ _ _ HI') as Hsig.
  do 10 wstep. destruct (count b' =? 0)%Z eqn:Hz.
  - repeat wstep; apply HK.
    + apply (Hend (Broadcast (notEmpty b'))); [apply Broadcast_ok|by left].
    + specialize (Hend (notEmpty b') Hsig). destruct b'. apply Hend. left. by apply no_waiters.
  - repeat wstep; apply HK. specialize (Hend (notEmpty b') Hsig). bool_to_prop.
    pose proof (he_count0 _ _ _ _ _ _ _ _ HI'). destruct b'. apply Hend. right. split; [done|]. simpl in *. lia.
Qed.

(** What a commit guarantees: it returns with nothing of the batch taken any more, or it unwinds before the
    batch is in the store. *)
Definition committed (vs : list T) r l n (oe : option err) : mach B W → Prop :=
  flushing (Hand 0 false [] (Some r) true) (batch_done vs l n oe).
Definition interrupted (vs : list T) r l n (u : option unwind) (t : mach B W) : Prop :=
  is_Some u ∧ flushing (Hand (zlen vs) false [] (Some r) true) (since l n) t.

Section commit.
Context (ctx : Ctx W) (vs : list T) (r : nat) (l : list SI) (n : Z).
Context (e : list (B → W → B * W)) (He : keeps e) (Hm : (0 < zlen vs)%Z).

Definition batched b : Prop := Held (Hand (zlen vs) false [] (Some r) true) l n b.

Lemma batched_blame b x : batched b → batched (blame_with x b).
Proof. apply held_blame. Qed.

Lemma interrupted_intro u b w : batched b → interrupted vs r l n (Some u) (Mach b Unlocked w e).
Proof. intros HI. split; [done|]. split_and!; [done..|]. exists l, n. split; [apply since_refl|done]. Qed.

Lemma wp_commit_fail er b w :
  batched b →
  wp (releaseInflight (zlen vs);; upd_stg (set_released true);; mret (Some er))
    (committed vs r l n) (interrupted vs r l n) (Mach b Unlocked w e).
Proof.
  intros HI. wstep. eapply wp_releaseInflight; [done..|]. intros l2 n2 b2 w2 e2 HS HI2 He2.
  unfold upd_stg. do 3 wstep. split_and!; [done..|]. exists l2, n2. split; [done|]. by apply held_set_released.
Qed.

Lemma wp_commit_txn b w :
  batched b →
  wp (upd_blamed clear_subject;;
      '(ents, oe) ← Update [] (write_loop vs []);
      match oe with
      | Some e => releaseInflight (zlen vs);; upd_stg (set_released true);; mret (Some e)
      | None =>
          wasEmpty ← locked (
            b ← getb;
            let was := (count b =? 0)%Z in
            updb (λ b, set_count (count b + zlen vs)%Z b);;
            updb (lupd inflight_l (λ i, i - zlen vs)%Z);;
            upd_stg (set_released true);;
            on_idx (add_all ents);;
            mret was);
          (if wasEmpty : bool then SignalIfWaiters notEmpty_l else mret ());;
          mret None
      end) (committed vs r l n) (interrupted vs r l n) (Mach b Unlocked w e).
Proof.
  intros HI. wstep. eapply wp_blame; [done|]. clear HI. intros x HI.
  destruct (he_running _ _ _ _ _ _ _ _ HI eq_refl) as [_ Hcom].
  wstep. eapply wp_Update; [by apply (he_view _ _ _ _ _ _ _ _ HI)|]. intros tx Hp Hs.
  eapply wp_mono; [| |eapply (wp_write_loop b Unlocked e vs [] tx l n); [|done|done|..]; by apply HI].
  - intros [[ents [er|]] tx'] t ((x' & w' & ->) & Hr); apply (batched_blame _ x') in HI; [by apply wp_commit_fail|].
    destruct (Hr eq_refl) as (Hp' & Hs' & Hlt & Hents). simpl in Hp', Hs', Hents.
    split; [|intros er d Hd; by apply wp_commit_fail, held_db].
    intros d Hd. rewrite Hp', Hs' in Hd. eapply wp_count; [|done..|].
    + rewrite Hents. by apply (held_committed (Some r) vs true l n (blame_with x' b) d).
    + intros t (Hk & He2 & l2 & n2 & HS & HI2). split_and!; [done..|]. exists l2, n2. split; [|done].
      exists l, n. split; [reflexivity|done].
  - intros u t ([u' ->] & x' & w' & ->). apply interrupted_intro. by apply (batched_blame _ x') in HI.
Qed.

Lemma wp_commit b w :
  batched b → wp (commit ctx vs) (committed vs r l n) (interrupted vs r l n) (Mach b Unlocked w e).
Proof.
  intros HI. unfold commit. wstep. wstep. wstep.
  eapply (wp_mono _ (λ _ t, same b Unlocked e t) _ (λ u t, is_Some u ∧ same b Unlocked e t)).
  3: { destruct (CommitStart (cfg b)); repeat wstep; try split; by eexists. }
  2: { intros u t ([u' ->] & w' & ->). by apply interrupted_intro. }
  intros _ t (w' & ->). wstep. eapply wp_blame; [done|]. intros x HIx. wstep.
  eapply (wp_mono _ (λ _ t, same (blame_with x b) Unlocked e t) _
    (λ u t, is_Some u ∧ same (blame_with x b) Unlocked e t)).
  3: { destruct (backup b); repeat wstep; try split; by eexists. }
  2: { intros u t ([u' ->] & w1 & ->). by apply interrupted_intro. }
  intros [er|] t (w1 & ->); [by apply wp_commit_fail|by apply wp_commit_txn].
Qed.
End commit.

(** * The end of the flusher's work *)

(** The backing is closed from the inside: what is in the buffer is given up and settled. *)
Lemma held_shut_down run l n b oe :
  Held (empty_handed run) l n b →
  Held (empty_handed run) l n
    (lupd notEmpty_l Broadcast (lupd notFull_l Broadcast (set_stg
      (set_settled (<[cur (stg b) := oe]> (settled (stg b))) (set_cur (Datatypes.S (cur (stg b))) (set_buf [] (stg b))))
      (lupd inflight_l (λ i, i - zlen (buf (stg b)))%Z (set_closed true b))))).
Proof.
  intros []. constructor; unfold uncounted in *; simpl in *; try done; try (by apply Broadcast_ok).
  - rewrite he_inflight. unfold zlen. simpl. lia.
  - intros Hm. specialize (he_bound Hm). pose proof (zlen_nonneg (buf (stg b))). lia.
  - intros i Hi. rewrite lookup_insert_ne by lia. apply he_fresh. lia.
  - intros i Hi. rewrite lookup_insert_None. intros [Hs Hne]. apply he_owed; [lia|done].
Qed.

(** Results that were told before are told for good. *)
Definition settled_as b : nat * option err → Prop := λ x, settled (stg b) !! x.1 = Some x.2.

Lemma held_tell m m' run l n b :
  Held (MkHand 0 false [] None run m) l n b → Forall (settled_as b) m' →
  Held (MkHand 0 false [] None run m') l n b.
Proof. intros [] Hm. by constructor. Qed.

(** The buffer was given up with an error. *)
Definition given_up b : Prop :=
  closed b = true ∧ buf (stg b) = [] ∧
  ∃ r er, cur (stg b) = Datatypes.S r ∧ settled (stg b) !! r = Some (Some er).

Lemma wp_closeFromFlusher m cancel cause run l n b w e (K : unit → mach B W → Prop) U :
  Held (empty_handed run) l n b → Forall (settled_as b) m → keeps e →
  (∀ t, flushing (empty_handed run) (since l n) t → given_up (mb t) → Forall (settled_as (mb t)) m → K () t) →
  wp (closeFromFlusher cancel cause) K U (Mach b Unlocked w e).
Proof.
  intros HI Hm He HK. unfold closeFromFlusher. wstep.
  eapply wp_flock; [by apply (held_tell _ _ _ _ _ _ HI Hm)|done|].
  intros l' n' b' w' e' HS HI' He' _. unfold rotate, settle, DoSignal, upd_stg. do 12 wstep. cbn.
  pose proof (he_told _ _ _ _ _ _ _ _ HI') as Hm'. simpl in Hm'. apply (held_tell _ []) in HI'; [|done].
  pose proof (he_fresh _ _ _ _ _ _ _ _ HI') as Hfresh. rewrite Hfresh by lia.
  assert (∀ oe, Held (empty_handed run) l' n'
    (lupd notEmpty_l Broadcast (lupd notFull_l Broadcast (set_stg
      (set_settled (<[cur (stg b') := oe]> (settled (stg b')))
        (set_cur (Datatypes.S (cur (stg b'))) (set_buf [] (stg b'))))
      (lupd inflight_l (λ i, i - zlen (buf (stg b')))%Z (set_closed true b')))))) as Hend
    by (intros oe; by apply held_shut_down).
  assert (∀ oe, Forall (λ x, <[cur (stg b') := oe]> (settled (stg b')) !! x.1 = Some x.2) m) as Htold.
  { intros oe. eapply Forall_impl; [exact Hm'|]. intros [i x] Hx. simpl in *.
    rewrite lookup_insert_ne; [done|]. intros <-. by rewrite Hfresh in Hx. }
  repeat wstep; apply HK; try apply Htold;
    try (split_and!; [done..|]; eexists _, _; split; [done|]; apply lookup_insert_eq);
    (split_and!; [done..|]); exists l', n'; (split; [done|]).
  - apply held_stg; [apply Hend|done..].
  - apply Hend.
Qed.

Lemma wp_recovering (body onpanic onexit : go B W unit) (Q : unit → mach B W → Prop) U s :
  wp body Q (λ u t, match u with
    | Some Panicked => wp onpanic Q U t
    | Some Goexited => wp onexit (λ _ t', U (Some Goexited) t') U t
    | None => U None t
    end) s →
  wp (recovering body onpanic onexit) Q U s.
Proof.
  unfold wp, recovering. destruct (body s) as [[a|[]| |] t]; try done.
  by destruct (onexit t) as [[] ?].
Qed.

(** What a flush that returns has done with the batch that it found: the result it told says which of the
    two happened. *)
Definition flushed b w (e : list (B → W → B * W)) l n (t : mach B W) : Prop :=
  let b0 := at_lock b w e in
  ∃ oe, flushing (empty_handed true) (batch_done (buf (stg b0)) l n oe) t ∧
    (buf (stg b0) ≠ [] → settled (stg (mb t)) !! cur (stg b0) = Some oe).

(** Caller code ended the flusher's goroutine: the batch has an error and is not in the store, and the
    backing is closed. *)
Definition exited b w (e : list (B → W → B * W)) l n (u : option unwind) (t : mach B W) : Prop :=
  u = Some Goexited ∧ flushing (empty_handed true) (since l n) t ∧ given_up (mb t) ∧
  ∃ er, settled (stg (mb t)) !! cur (stg (at_lock b w e)) = Some (Some er).

(** The way out of a commit that unwound: the room is given back. *)
Lemma wp_unreleased (vs : list T) r l n t (Q : unit → mach B W → Prop) U :
  flushing (Hand (zlen vs) false [] (Some r) true) (since l n) t → (0 < zlen vs)%Z →
  (∀ l' n' b w e, S (l, n) (l', n') → Held (Hand 0 false [] (Some r) true) l' n' b → keeps e →
     Q () (Mach b Unlocked w e)) →
  wp (b ← getb; if released (stg b) then mret () else releaseInflight (zlen vs)) Q U t.
Proof.
  destruct t as [b k w e]. intros (Hk & He & l1 & n1 & HS & HI) Hm HQ. simpl in Hk, He, HI. subst.
  wstep. wstep. rewrite (he_released _ _ _ _ _ _ _ _ HI) by done.
  eapply wp_releaseInflight; [done..|]. intros l2 n2 b2 w2 e2 HS2 HI2 He2.
  apply (HQ l2 n2); [|done..]. unfold since in *. by etrans.
Qed.

Lemma wp_doFlush ctx l n b w e :
  Held (empty_handed true) l n b → keeps e →
  wp (doFlush ctx) (λ _ t, flushed b w e l n t) (exited b w e l n) (Mach b Unlocked w e).
Proof.
  intros HI He. unfold doFlush. do 5 wstep. eapply wp_flock; [done..|].
  intros l' n' b' w' e' HS HI' He' ->. unfold flushed, exited. set (b' := at_lock b w e) in *.
  do 2 wstep. destruct (buf (stg b')) as [|v vs] eqn:Hbuf.
  { wstep. exists None. split; [|done]. split_and!; [done..|]. exists l', n'. split; [|done]. exists l', n'. split; [done|].
    unfold zlen. simpl. rewrite Z.add_0_r. reflexivity. }
  unfold rotate, upd_stg. do 6 wstep. pose proof (held_take _ _ _ _ HI') as HI2. rewrite Hbuf in HI2.
  assert (0 < zlen (v :: vs))%Z as Hm by (rewrite zlen_cons; pose proof (zlen_nonneg vs); lia).
  apply wp_recovering, wp_bind. eapply wp_mono; [| |eapply wp_commit; [done|done|exact HI2]].
  - intros oe [b1 k1 w1 e1] (Hk & He1 & l1 & n1 & HS1 & HI1). simpl in Hk, He1, HI1. subst k1.
    eapply wp_disk_settle; [done|]. intros b2 Hb2 Hset.
    exists oe. split; [|done]. split_and!; [done..|].
    exists l1, n1. split; [|done]. destruct oe as [er|]; simpl in *; [by etrans|].
    destruct HS1 as (l3 & n3 & ? & ?). exists l3, n3. split; [by etrans|done].
  - intros u t ([u' ->] & Ht). destruct u'; apply wp_bind; (eapply wp_unreleased; [done..|]);
      intros l2 n2 b2 w2 e2 HS2 HI3 He2; wstep; wstep; [|wstep]; (eapply wp_disk_settle; [done|]); intros b3 Hb3 Hset.
    + exists (Some (blameFlush "panicked" b2)). split; [|done]. split_and!; [done..|].
      exists l2, n2. split; [|done]. simpl. by etrans.
    + eapply (wp_closeFromFlusher [(cur (stg b'), _)]); [done|by apply Forall_singleton|done|].
      intros t' (Hk & He4 & l4 & n4 & HS4 & HI4) Hc Htold%Forall_inv.
      split_and!; [done| |done|by eexists]. split_and!; [done..|]. exists l4, n4. split; [|done].
      unfold since in *. etrans; [done|]. by etrans.
Qed.

(** * Clear, on the flusher *)

(** Nothing in hand, between two pieces of work. *)
Definition idle (run : bool) : mach B W → Prop := flushing (empty_handed run) (λ _ _, True).

Lemma idle_intro run l n b w e : Held (empty_handed run) l n b → keeps e → idle run (Mach b Unlocked w e).
Proof. intros HI He. split_and!; [done..|]. by exists l, n. Qed.

Lemma flushing_idle run C t : flushing (empty_handed run) C t → idle run t.
Proof. intros (? & ? & l & n & _ & ?). split_and!; [done..|]. by exists l, n. Qed.

Lemma held_cleared run l n b d :
  Held (empty_handed run) l n b → view_of d = Some ([], 0%Z) →
  Held (empty_handed run) [] 0 (set_idx ((λ _, newIndex) <$> idx b) (set_count 0 (set_db d b))).
Proof.
  intros [] Hd. constructor; unfold uncounted in *; simpl in *; try done.
  - by apply view_on_file.
  - intros Hm. specialize (he_bound Hm). pose proof (zlen_nonneg l). lia.
  - intros x. destruct (idx b); [|done]. intros [= <-]. constructor.
    + intros si []%elem_of_nil.
    + intros hs k si _ []%elem_of_nil.
    + intros hs k [Hk|[]%elem_of_nil]. rewrite bucket_new in Hk. by apply elem_of_nil in Hk.
Qed.

(** The transaction of Clear and what follows it. *)
Lemma wp_clear_txn run l n b w e (K : option err → mach B W → Prop) U :
  Held (empty_handed run) l n b → closed b = false →
  (∀ oe l' n' b' w, Held (empty_handed run) l' n' b' → K oe (Mach b' WLocked w e)) →
  wp ('(_, oe) ← Update () (λ tx,
        match DeleteBucket tx with
        | inr e => mret ((), Some e, tx)
        | inl tx =>
            match CreateBucket tx with
            | inr e => mret ((), Some e, tx)
            | inl tx => mret ((), None, tx)
            end
        end);
      iferr e := mret oe then mret (Some e) else
      updb (set_count 0);;
      on_idx (λ _, newIndex);;
      SignalIfWaiters notFull_l;;
      mret None) K U (Mach b WLocked w e).
Proof.
  intros HI Hcl HK. wstep. eapply wp_Update; [apply (he_view _ _ _ _ _ _ _ _ HI), (he_open _ _ _ _ _ _ _ _ HI), Hcl|].
  intros tx Hp Hs. destruct (DeleteBucket tx) as [tx1|er] eqn:Hd; [|repeat wstep; by eapply HK].
  destruct (CreateBucket tx1) as [tx2|er] eqn:Hc; [|repeat wstep; by eapply HK].
  destruct (DeleteBucket_pairs _ _ _ Hd Hc) as [Hp2 Hs2]. wstep. split.
  - intros d Hdv. rewrite Hp2, Hs2 in Hdv. unfold on_idx.
    repeat first [eapply wp_signal_full; [by apply (held_cleared run l n b d)|] | wstep].
    intros b2 HI2 _ _ _. wstep. by eapply HK.
  - intros er d Hdv. repeat wstep. eapply HK. by eapply held_db_open.
Qed.

Lemma wp_doClear ctx se t :
  idle true t → wp (doClear ctx se) (λ _ t, idle true t) (λ u t, is_Some u ∧ idle true t) t.
Proof.
  destruct t as [b k w e]. intros (Hk & He & l & n & _ & HI). simpl in Hk, He, HI. subst.
  unfold doClear, locked. do 3 wstep.
  eapply wp_mono; [| |by apply (wp_doFlush _ l n)].
  2: { intros u t (-> & Ht & _). split; [done|]. by eapply flushing_idle. }
  intros _ [b1 k w1 e1] (oe & (Hk & He1 & l1 & n1 & _ & HI1) & _). simpl in Hk, He1, HI1. subst.
  wstep. eapply wp_flock; [done..|]. intros l2 n2 b2 w2 e2 _ HI2 He2 _. clear HI HI1.
  repeat first
    [ eapply wp_blame; [eassumption|]; clear HI2; intros ? HI2
    | match goal with |- wp (Update _ _ ≫= _) _ _ _ => eapply wp_clear_txn; [done|done|] end
    | wstep ].
  all: intros.
  all: repeat wstep; try split; try done; by eapply idle_intro.
Qed.
(** Steps that the invariant does not notice. *)
Definition unnoticed (f : Staging W T → Staging W T) : Prop := ∀ g,
  buf (f g) = buf g ∧ cur (f g) = cur g ∧ settled (f g) = settled g ∧ flusherStarted (f g) = flusherStarted g ∧
  flusherDone (f g) = flusherDone g ∧ released (f g) = released g.

Lemma wp_idle_stg run f t (Q : unit → mach B W → Prop) U :
  unnoticed f → idle run t → (∀ t', idle run t' → closed (mb t') = closed (mb t) → Q () t') →
  wp (upd_stg f) Q U t.
Proof.
  destruct t as [b k w e]. intros Hf (Hk & He & l & n & _ & HI) HQ. simpl in Hk, He, HI. subst.
  destruct (Hf (stg b)) as (?&?&?&?&?&?). unfold upd_stg. wstep. apply HQ; [|done].
  eapply idle_intro; [by apply held_stg|done].
Qed.

Lemma wp_idle_close cancel cause t (Q : unit → mach B W → Prop) U :
  idle true t → (∀ t', idle true t' → closed (mb t') = true → Q () t') →
  wp (closeFromFlusher cancel cause) Q U t.
Proof.
  destruct t as [b k w e]. intros (Hk & He & l & n & _ & HI) HQ. simpl in Hk, He, HI. subst.
  eapply (wp_closeFromFlusher []); [done..|]. intros t Ht [Hc _] _. by eapply HQ, Hc; eapply flushing_idle.
Qed.

Lemma wp_idle_flush ctx t (Q : unit → mach B W → Prop) (U : option unwind → mach B W → Prop) :
  idle true t → (∀ t', idle true t' → Q () t') →
  (∀ t', idle true t' → closed (mb t') = true → U (Some Goexited) t') →
  wp (doFlush ctx) Q U t.
Proof.
  destruct t as [b k w e]. intros (Hk & He & l & n & _ & HI) HQ HU. simpl in Hk, He, HI. subst.
  eapply wp_mono; [| |by apply (wp_doFlush _ l n)].
  - intros [] t (oe & Ht & _). by eapply HQ, flushing_idle.
  - intros u t (-> & Ht & [Hc _] & _). by eapply HU, Hc; eapply flushing_idle.
Qed.

(** A piece of work that ends, if it does not return, with the goroutine and the backing. *)
Definition left (u : option unwind) (t : mach B W) : Prop :=
  u = Some Goexited ∧ idle true t ∧ closed (mb t) = true.

Lemma wp_runClear cmd t : idle true t → wp (runClear cmd) (λ _ t, idle true t) left t.
Proof.
  intros Ht. unfold runClear, send. wstep. apply (wp_idle_stg true); [done..|]. intros t1 Ht1 _.
  apply wp_defer. wstep. apply (wp_idle_stg true); [done..|]. intros t2 Ht2 _.
  assert (∀ t, idle true t → wp (upd_stg (set_inClear false)) (λ _ t, idle true t) left t) as Hend.
  { intros t3 Ht3. by apply (wp_idle_stg true). }
  apply wp_recovering, wp_bind. eapply wp_mono; [| |by apply wp_doClear].
  - intros oe t3 Ht3. apply (wp_idle_stg true); [done..|]. intros t4 Ht4 _. by apply Hend.
  - intros u t3 ([u' ->] & Ht3). destruct u'; wstep; wstep.
    + apply (wp_idle_stg true); [done..|]. intros t4 Ht4 _. by apply Hend.
    + wstep. apply (wp_idle_stg true); [done..|]. intros t4 Ht4 _. apply wp_idle_close; [done|].
      intros t5 Ht5 Hc. apply (wp_idle_stg true); [done..|]. intros t6 Ht6 Hc6. split; [done|].
      split; [done|]. by rewrite Hc6.
Qed.

Lemma wp_flush_turn a t :
  idle true t → wp (flush_turn a) (λ over t, idle true t ∧ (over = true → closed (mb t) = true)) left t.
Proof.
  intros Ht. unfold flush_turn, fresh_subject, upd_blamed. do 4 wstep. destruct a.
  - destruct (ctx_cause _ _); [|by wstep]. wstep. apply (wp_idle_stg true); [done..|]. intros t1 Ht1 _.
    wstep. apply wp_idle_flush; [done| |done]. intros t2 Ht2. wstep. apply wp_idle_close; [done|].
    intros t3 Ht3 Hc. by wstep.
  - wstep; [|by wstep]. wstep. apply (wp_idle_stg true); [done..|]. intros t1 Ht1 _.
    wstep. apply (wp_idle_stg true); [done..|]. intros t2 Ht2 _.
    wstep. apply wp_idle_flush; [done| |done]. intros t3 Ht3. by wstep.
  - wstep; [|by wstep]. wstep. apply (wp_idle_stg true); [done..|]. intros t1 Ht1 _.
    wstep. eapply wp_mono; [| |by apply wp_runClear]; [|done]. intros [] t2 Ht2. by wstep.
  - wstep. apply (wp_idle_stg true); [done..|]. intros t1 Ht1 _.
    wstep. apply wp_idle_flush; [done| |done]. intros t2 Ht2. by wstep.
Qed.

Lemma wp_flush_turns arms t :
  idle true t → wp (flush_turns arms) (λ over t, idle true t ∧ (over = true → closed (mb t) = true)) left t.
Proof.
  revert t. induction arms as [|a arms IH]; intros t Ht; cbn [flush_turns]; [by wstep|].
  wstep. eapply wp_mono; [| |by apply wp_flush_turn]; [|done]. intros [] t1 [Ht1 Hc]; [by wstep|].
  wstep. destruct t1 as [b k w e]. destruct Ht1 as (Hk & He & l & n & _ & HI). simpl in Hk, He, HI. subst.
  unfold wp at 1, Window, interfere. simpl. destruct e as [|f e]; simpl; [by apply IH, (idle_intro true l n)|].
  inversion_clear He as [|?? Hf He']. destruct (Hf (empty_handed true) l n b w HI) as (l' & n' & _ & HI').
  destruct (f b w) as [b' w']. by apply IH, (idle_intro true l' n').
Qed.

(** The goroutine is over. *)
Lemma held_over l n b :
  Held (empty_handed true) l n b →
  Held (empty_handed false) l n (set_stg (set_flusherDone true (stg b)) b).
Proof. intros []. by constructor. Qed.

Lemma wp_close_flusherDone t (Q : unit → mach B W → Prop) U :
  idle true t → (∀ t', idle false t' → flusher_over (mb t') = true → closed (mb t') = closed (mb t) → Q () t') →
  wp close_flusherDone Q U t.
Proof.
  destruct t as [b k w e]. intros (Hk & He & l & n & _ & HI) HQ. simpl in Hk, He, HI. subst.
  unfold close_flusherDone, upd_stg. wstep. apply HQ; [|unfold flusher_over; simpl; by rewrite orb_true_r|done].
  eapply idle_intro; [by apply held_over|done].
Qed.

(** The flusher ends with the backing closed and every batch it took settled, or it waits for its next
    turn. *)
Definition flusher_ended (t : mach B W) : Prop :=
  idle false t ∧ flusher_over (mb t) = true ∧ closed (mb t) = true.

Lemma wp_ended U t :
  idle true t → closed (mb t) = true → wp close_flusherDone (λ _, flusher_ended) U t.
Proof.
  intros Ht Hc. apply wp_close_flusherDone; [done|]. intros t' ?? Hc'. split_and!; [done..|]. by rewrite Hc'.
Qed.

Lemma wp_flushLoop arms t :
  idle true t →
  wp (flushLoop arms) (λ _, flusher_ended)
    (λ u t, match u with None => idle true t | Some u => u = Goexited ∧ flusher_ended t end) t.
Proof.
  intros Ht. pose proof (wp_flush_turns arms t Ht) as Hwp. unfold wp, flushLoop in *.
  destruct (flush_turns arms t) as [[[]|u| |] t1]; simpl in *; try done.
  - destruct Hwp as [Ht1 Hc]. apply (wp_ended (λ _ _, False)); auto.
  - apply Hwp.
  - destruct Hwp as ([= ->] & Ht1 & Hc). split; [done|].
    exact (wp_ended (λ _ _, False) t1 Ht1 Hc).
  - by destruct Hwp.
Qed.
End flush.

(** * The guarantees *)

Section guarantees.
Context {W T : Type} `{!Item W T} `{!SteadyItem W T} `{!HashLaw W T} `{!World W} `{!Runtime W} `{!Json W T}.
Context `{!Bolt} `{!BoltLaws}.
Context (p : bool) (c : Config W T) (enc : T → bytes) (stock : Z).
Context (S : relation (list (SeqItem T) * Z)) `{!PreOrder S}.

(** C15: The flusher, through any sequence of turns of its select (flushes, ticks, Clears, the
    end of its context) and any interference that keeps the invariant, keeps the invariant itself
    with nothing left in its hands between two turns; it ends only with the backing closed, every
    batch it or anybody ever took settled, and its channel closed, which is what Close waits for
    before it closes the store. Items, codec, backup and store may fail, panic or end the goroutine
    at any call, the flusher's recovery being what keeps it going; an item method that returns
    answers the same value each time, equal items have equal hashes, priorities are 64-bit words,
    and a codec that returns answers right. *)
Theorem disk_flusher arms t :
  codec_ok c enc → keyOf c = keyOf_fn p → @prio_words W T _ _ → idle p c enc stock S true t →
  wp (flushLoop arms) (λ _, flusher_ended p c enc stock S)
    (λ u t, match u with
            | None => idle p c enc stock S true t
            | Some u => u = Goexited ∧ flusher_ended p c enc stock S t
            end) t.
Proof. intros. by apply wp_flushLoop. Qed.
End guarantees.
