(* ===== verification/BboltReopen.v ===== *)
(** Opening a file that has items, after a crash or after Close: the constructor counts them, rebuilds the
    index from them, and leaves a backing that satisfies the invariant with the same entries. *)

From stdpp Require Import gmap.
From S2P Require Import Prelude Errors Machine Core Contract Logic ContractFacts SeqOrder Bolt BboltKeys.
From S2P Require Import Bbolt BboltStore BboltInv.

Section reopen.
Context {W T : Type} `{!Item W T} `{!SteadyItem W T} `{!HashLaw W T} `{!World W} `{!Runtime W} `{!Json W T}.
Context `{!Bolt} `{!BoltLaws}.
Context (p : bool) (c : Config W T) (enc : T → bytes).

Abbreviation B := (Backing W T).
Abbreviation SI := (SeqItem T).
Implicit Types (l : list SI).

(** The codec reads back what it wrote. *)
Definition decodes : Prop := ∀ v w, ∃ w', decodeItem c (enc v) w = (Ok (inl v), w').

(** The index has these entries and no other. *)
Record indexes (x : index) l : Prop := {
  indexes_complete si : si ∈ l → skey p si ∈ bucket (hash (Item_ si)) x;
  indexes_only hs k : k ∈ bucket hs x → ∃ si, si ∈ l ∧ hs = hash (Item_ si) ∧ k = skey p si;
}.

Lemma indexes_new : indexes newIndex [].
Proof.
  split; [intros si []%elem_of_nil|]. intros hs k Hk. rewrite bucket_new in Hk. by apply elem_of_nil in Hk.
Qed.

Lemma indexes_add x l si : indexes x l → indexes (add (hash (Item_ si)) (skey p si) x) (l ++ [si]).
Proof.
  intros [Hc Ho]. split.
  - intros sj [Hj| ->%list_elem_of_singleton]%elem_of_app; rewrite bucket_add.
    + case_decide as Heq; [|by apply Hc]. apply elem_of_app. left. by apply Hc.
    + rewrite decide_True by done. set_solver.
  - intros hs k. rewrite bucket_add. case_decide as Heq.
    + intros [Hk| ->%list_elem_of_singleton]%elem_of_app; [|exists si; set_solver].
      destruct (Ho hs k Hk) as (sj & ? & ? & ?). exists sj. set_solver.
    + intros Hk. destruct (Ho hs k Hk) as (sj & ? & ? & ?). exists sj. set_solver.
Qed.

Lemma rebuildIndex_ok l l1 x w x' w' :
  codec_ok c enc →
  rebuildIndex c (row p enc <$> l) x w = (Ok (inl x'), w') → indexes x l1 → indexes x' (l1 ++ l).
Proof.
  intros Hcodec. revert l1 x w. induction l as [|si l IH]; intros l1 x w; cbn [fmap list_fmap row rebuildIndex].
  { intros [= -> _]. by rewrite app_nil_r. }
  destruct (decodeItem c (enc (Item_ si)) w) as [[[v|]|] w1] eqn:Hd; try done.
  apply (decode_spec _ _ Hcodec) in Hd as ->.
  destruct (Hash (Item_ si) w1) as [[hv|] w2] eqn:Hh; [|done].
  apply Hash_value in Hh as ->. intros Hr Hx.
  rewrite cons_middle, app_assoc. eapply IH; [exact Hr|]. by apply indexes_add.
Qed.

Lemma indexes_idx_ok x l n :
  indexes x l → NoDup (skey p <$> l) → Forall (entry_ok p n) l → idx_ok p x l n [].
Proof.
  intros [Hc Ho] Hnd Hok. rewrite Forall_forall in Hok. constructor.
  - intros si Hsi. left. by apply Hc.
  - intros hs k si [Hk|[]%elem_of_nil] Hsi Heq. destruct (Ho hs k Hk) as (sj & Hj & -> & Hkj).
    f_equal. f_equal. eapply NoDup_fmap_eq; [done..|]. congruence.
  - intros hs k [Hk|[]%elem_of_nil]. destruct (Ho hs k Hk) as (sj & Hj & -> & ->). exists sj. split; [done|].
    by apply Hok.
Qed.

(** * The constructor *)

(** The first transaction on the store goes through. *)
Definition opens (d : DB) : Prop := ∀ tx, Begin d = inl tx →
  ∃ tx1 d1, CreateBucketIfNotExists tx = inl tx1 ∧ Commit tx1 d = (None, d1).

(** A backing over these entries, open, all of them counted, and as it is when its flusher runs. *)
Definition reopened l n (withIndex : bool) (b : B) : Prop :=
  Held p c enc (zlen l) (empty_handed false) l n b ∧
  Held p c enc (zlen l) (empty_handed true) l n (SetQueueLock b) ∧
  indexed b = withIndex ∧ closed b = false ∧ count b = zlen l.

(** It failed: whatever it has opened is closed again, and the file has what it had. *)
Definition not_reopened l n (od : option DB) : Prop :=
  ∀ d, od = Some d → (∃ d0, d = close_quietly d0) ∧ on_file d (row p enc <$> l, n).

Lemma closed_again l n d : on_file d (row p enc <$> l, n) → not_reopened l n (Some (close_quietly d)).
Proof. intros Hd d' [= <-]. split; [by exists d|by apply on_file_close]. Qed.

Lemma make_reopened l n d x ix :
  view_of d = Some (row p enc <$> l, n) → Forall (entry_ok p n) l → (0 ≤ n < two64)%Z →
  (∀ x', x = Some x' → idx_ok p x' l n []) → match x with Some _ => true | None => false end = ix →
  reopened l n ix (MkBacking c d x (zlen l) 0 0 0 NewSignal NewSignal false None fresh_staging fresh_shutdown).
Proof.
  intros Hv Hok Hn Hx <-. pose proof (zlen_nonneg l).
  assert (signal_ok NewSignal) by (intros i Hi; by apply elem_of_nil in Hi).
  split_and!; try done; constructor; unfold uncounted; simpl; try done; try (by apply view_on_file); lia.
Qed.

Lemma newBacking_result l n d withIndex needsCodec w :
  view_of d = Some (row p enc <$> l, n) → Forall (entry_ok p n) l → (0 ≤ n < two64)%Z → codec_ok c enc →
  match newBacking c withIndex needsCodec (inl d) (None, w) with
  | (Ok (inl b), (od, _)) => reopened l n withIndex b ∧ od = Some (db b)
  | (_, (od, _)) => not_reopened l n od
  end.
Proof.
  intros Hv Hok Hn Hcodec. pose proof (view_on_file _ _ Hv) as Hf. unfold newBacking.
  destruct (needsCodec && _); [by intros d' [=]|].
  assert (Hv' := Hv). unfold view_of in Hv'. destruct (Begin d) as [tx|] eqn:Hb; [|done]. injection Hv' as Hp Hs.
  destruct (CreateBucketIfNotExists tx) as [tx1|] eqn:Hc; [|by apply closed_again].
  apply CreateBucketIfNotExists_pairs in Hc as [Hp1 Hs1].
  destruct (Commit tx1 d) as [[er|] d1] eqn:Hcom.
  { apply Commit_failed in Hcom. apply closed_again, view_on_file. by rewrite Hcom. }
  apply Commit_ok in Hcom. rewrite Hp1, Hs1, Hp, Hs in Hcom. rewrite KeyN_pairs, Hp1, Hp, zlen_fmap.
  pose proof (view_on_file _ _ Hcom) as Hf1.
  destruct withIndex; [|split; [by apply make_reopened|done]].
  assert (Hv1 := Hcom). unfold view_of in Hv1. destruct (Begin d1) as [tx2|] eqn:Hb1; [|done]. injection Hv1 as Hp2 Hs2.
  rewrite Hp2. destruct (rebuildIndex _ _ _ _) as [[[x|]|] w1] eqn:Hr; [|by apply closed_again..].
  split; [|done]. apply make_reopened; try done. intros x' [= <-].
  eapply rebuildIndex_ok in Hr; [|done|apply indexes_new]. rewrite app_nil_l in Hr.
  apply indexes_idx_ok; [done| |done]. by eapply ksorted_NoDup, rows_sorted.
Qed.

Lemma rebuildIndex_total l x w :
  @hash_returns W T _ _ → decodes → ∃ x' w', rebuildIndex c (row p enc <$> l) x w = (Ok (inl x'), w').
Proof.
  intros Hret Hdec. revert x w. induction l as [|si l IH]; intros x w; cbn [fmap list_fmap row rebuildIndex].
  { by eexists _, _. }
  destruct (Hdec (Item_ si) w) as [w1 ->], (Hret (Item_ si) w1) as [w2 ->]. apply IH.
Qed.

Lemma newBacking_total l n d withIndex needsCodec s :
  view_of d = Some (row p enc <$> l, n) → opens d → (needsCodec = true → encode c ≠ None) →
  (withIndex = true → decodes ∧ @hash_returns W T _ _) →
  ∃ b s', newBacking c withIndex needsCodec (inl d) s = (Ok (inl b), s').
Proof.
  intros Hv Ho Hneed Hdec. unfold newBacking. destruct s as [od w].
  assert (needsCodec && match encode c with None => true | Some _ => false end = false) as ->.
  { destruct needsCodec, (encode c) eqn:He; try done. by destruct (Hneed eq_refl). }
  unfold view_of in Hv. destruct (Begin d) as [tx|] eqn:Hb; [|done]. injection Hv as Hp Hs.
  destruct (Ho tx Hb) as (tx1 & d1 & Hc & Hcom). rewrite Hc, Hcom.
  apply CreateBucketIfNotExists_pairs in Hc as [Hp1 _]. apply Commit_ok in Hcom. rewrite Hp1, Hp in Hcom.
  destruct withIndex; [|by eexists _, _]. unfold view_of in Hcom. destruct (Hdec eq_refl) as [Hd Hret].
  destruct (Begin d1) as [tx2|]; [|done]. injection Hcom as Hp2 _. rewrite Hp2.
  destruct (rebuildIndex_total l newIndex w Hret Hd) as (x & w1 & ->). by eexists _, _.
Qed.

End reopen.
