(* ===== verification/BboltFacts.v ===== *)
(** What the on-disk backing guarantees: no operation of a caller breaks the invariant or keeps the lock
    whatever the flusher and the others do, what Pop and Del take, how a flush ends, and what a restart
    finds. *)

From Stdlib Require Import Sorting.Sorted.
From stdpp Require Import gmap.
From S2P Require Import Prelude Errors Machine Core Contract Logic ContractFacts Interface SeqOrder Bolt BboltKeys.
From S2P Require Import Bbolt BboltStore BboltInv BboltFind BboltOps BboltClose BboltFlush.

Section facts.
Context {W T : Type} `{!Item W T} `{!SteadyItem W T} `{!HashLaw W T} `{!World W} `{!Runtime W} `{!Json W T}.
Context `{!Bolt} `{!BoltLaws}.

Abbreviation B := (Backing W T).
Abbreviation SI := (SeqItem T).

Definition disk_ops : Ops B W T :=
  MkOps Bbolt.Push Bbolt.Pop Bbolt.Peek Bbolt.Exists_ Bbolt.Del Bbolt.NotEmpty Bbolt.NotFull Bbolt.Len
    Bbolt.Close Bbolt.Clear Bbolt.All.

(** What the operations of the callers may do to the contents: take entries out. *)
Definition taken_from (P : hand → list SI → Z → Prop) : Prop :=
  ∀ h l l' n, P h l n → l' `sublist_of` l → P h l' n.

(** A Del comes between two flushes, or while one has not committed yet. *)
Definition del_ok (P : hand → list SI → Z → Prop) (o : Op W T) : Prop :=
  match o with ODel _ _ _ => ∀ h l n, P h l n → landed h = false | _ => True end.

(** Pop of an indexed queue hashes what it has taken out of the store already. *)
Definition pop_ok (o : Op W T) : Prop :=
  match o with OPop _ _ _ => @hash_returns W T _ _ | _ => True end.

Lemma removed_outside p c enc stock P ctx h l n t :
  P h l n → removed p c enc stock P ctx h l n t → outside p c enc stock P ctx t.
Proof. intros HP (? & ? & ? & _). split_and!; [done|by exists h, l, n|done]. Qed.

(** C13: Whatever operation a caller runs on the on-disk backing (copy-on-write iteration
    apart), FIFO or priority, with or without the index, and whatever the flusher and the other
    callers do in its windows as long as they keep the invariant: it never misuses the lock, ends
    with the lock given back and re-establishes the invariant (the rows are the entries in key
    order, the counter says how many the flusher has counted, the bound holds, the index has every
    entry, every batch older than the current one is settled or in the hands of the flusher, nobody
    sleeps while something is counted), and it stays parked only when nobody else acts. The codec,
    the backup, the side effect, the store and the methods of the items may fail, panic or end the
    goroutine at any call and may change the world, with these limits: an item method that returns
    answers the same value each time, and equal items have equal hashes; a codec that returns
    answers right; the fault-injection hook between backup and commit returns; for a Pop, Hash
    returns, since Pop hashes after its commit; and Del comes when no commit is waiting to be
    counted. *)
Theorem disk_safe p (c : Config W T) enc stock P (o : Op W T) s :
  codec_ok c enc → quiet_hook c → taken_from P → del_ok P o → pop_ok o → op_ok o →
  outside p c enc stock P (op_ctx o) s →
  wp (exec disk_ops o) (λ _ t, outside p c enc stock P (op_ctx o) t) (gone p c enc stock P (op_ctx o)) s.
Proof.
  intros Hcodec Hhook HP Hdel Hret Hok Hs. destruct o; simpl in *; apply wp_bind.
  - eapply wp_mono; [| |by apply wp_disk_Push]; [|done]. intros; by wstep.
  - eapply wp_mono; [| |by apply wp_disk_Pop]; [|done].
    intros [out x] t [[_ Ht]|(_ & h & l & k & HPl & _ & _ & _ & Ht)]; wstep; [done|].
    eapply removed_outside; [|done]. eapply HP; [done|]. apply sublist_drop.
  - eapply wp_mono; [| |by apply wp_disk_Peek]; [|done]. intros [[v k] e] t [Ht _]. by wstep.
  - eapply wp_mono; [| |by apply wp_disk_Exists]; [|done]. intros [k e] t [Ht _]. by wstep.
  - eapply wp_mono; [| |by apply wp_disk_Del]; [|done].
    intros [m x] t [[_ Ht]|(_ & h & l & k & HPl & _ & _ & Ht)]; wstep; [done|].
    eapply removed_outside; [|done]. eapply HP; [done|]. apply sublist_filter.
  - eapply wp_mono; [| |by apply wp_disk_NotEmpty]; [|done]. intros; by wstep.
  - eapply wp_mono; [| |by apply wp_disk_NotFull]; [|done]. intros; by wstep.
  - eapply wp_mono; [| |by apply wp_disk_Len]; [|done]. intros; by wstep.
  - eapply wp_mono; [| |by apply wp_disk_Close]; [|done]. intros; by wstep.
  - eapply wp_mono; [| |by apply wp_disk_Clear]; [|done]. intros; by wstep.
  - eapply wp_mono; [| |by apply wp_disk_All]; [|done]. intros; by wstep.
Qed.

(** * Pop and Del *)

(** Who is delivered before whom: by number in a FIFO queue, by priority and then by number else. *)
Definition delivery_order (p : bool) (l : list SI) : Prop := StronglySorted (λ x y, klt p x y = true) l.

Lemma ksorted_delivery p n l :
  (n < two64)%Z → Forall (entry_ok p n) l → ksorted p l → delivery_order p l.
Proof.
  intros Hn Hl. unfold ksorted, delivery_order. induction 1 as [|x l Hs IH Hall]; [constructor|].
  inversion_clear Hl as [|?? Hx Hl']. constructor; [auto|].
  rewrite Forall_forall in Hall, Hl' |- *. intros y Hy. specialize (Hall y Hy).
  by rewrite (skey_lt p n) in Hall by auto.
Qed.


(** C20: Pop of the on-disk backing takes the first entries of the store in the order of
    delivery (by number, or by priority, the highest first, and then by number) - as many as were
    asked for or are counted - and returns exactly them, with every sleeping producer woken; or it
    returns no item and leaves the contents alone, whatever failed or panicked: the codec, the side
    effect, the backup, the transaction or the commit. Hash has to return, since Pop drops what it
    took from the index after the commit; an item method and a codec that return answer right, and
    the fault-injection hook returns. *)
Theorem disk_pop p (c : Config W T) enc stock P ctx m options s :
  codec_ok c enc → quiet_hook c → @hash_returns W T _ _ → (1 ≤ m)%Z → @prio_words W T _ _ →
  outside p c enc stock P ctx s →
  wp (Bbolt.Pop ctx m options) (λ '(out, x) t,
    (out = [] ∧ outside p c enc stock P ctx t) ∨
    (x = None ∧ ∃ h l n k, P h l n ∧ delivery_order p l ∧
       k = Z.to_nat (Z.min m (zlen l - uncounted h)) ∧ 0 < k ≤ length l ∧
       out = Item_ <$> take k l ∧ removed p c enc stock P ctx h (drop k l) n t))
    (gone p c enc stock P ctx) s.
Proof.
  intros Hcodec Hhook Hret Hm Hw Hs. eapply wp_mono; [| |by apply wp_disk_Pop]; [|done].
  intros [out x] t [?|(-> & h & l & n & HP & Hsort & -> & Hk & Hr)]; [by left|right].
  destruct Hsort as (Hsort & Hok & Hn), Hk. split; [done|]. exists h, l, n, (take_count m h l).
  split_and!; try done. by eapply ksorted_delivery.
Qed.


(** * The callers and the flusher together *)

Definition is_del (o : Op W T) : bool := match o with ODel _ _ _ => true | _ => false end.

(** What a caller leaves of the contents. *)
Definition only_taken (x y : list SI * Z) : Prop := y.1 `sublist_of` x.1 ∧ y.2 = x.2.
#[export] Instance only_taken_preorder : PreOrder only_taken.
Proof. split; [by intros x|]. intros x y z [? E1] [? E2]. split; [by etrans|congruence]. Qed.

Lemma callers_keep p (c : Config W T) enc stock (os : list (Op W T)) :
  codec_ok c enc → quiet_hook c → Forall op_ok os → Forall pop_ok os → forallb (negb ∘ is_del) os = true →
  keeps p c enc stock only_taken (others_of disk_ops os).
Proof.
  intros Hcodec Hhook Hok Hret Hdel. apply Forall_fmap, Forall_forall. intros o Ho h l n b w HI.
  rewrite Forall_forall in Hok, Hret. specialize (Hok o Ho). specialize (Hret o Ho). rewrite forallb_forall in Hdel.
  specialize (Hdel o (proj1 (list_elem_of_In _ _) Ho)).
  pose proof (disk_safe p c enc stock (λ h' l' n', h' = h ∧ only_taken (l, n) (l', n')) o (Mach b Unlocked w [])
    Hcodec Hhook) as Hsafe.
  assert (∀ t, outside p c enc stock (λ h' l' n', h' = h ∧ only_taken (l, n) (l', n')) (op_ctx o) t →
    ∃ l' n', only_taken (l, n) (l', n') ∧ Held p c enc stock h l' n' (mb t)) as Hout.
  { intros t (_ & (h' & l' & n' & [-> HS] & HI') & _). by exists l', n'. }
  apply (wp_run (exec disk_ops o) (λ b, ∃ l' n', only_taken (l, n) (l', n') ∧ Held p c enc stock h l' n' b)).
  eapply wp_mono; [| |apply Hsafe]; [auto|by intros u t [? _]; auto| | |done|done|].
  - intros h' l1 l2 n' [-> [Hs Hn]] Hsub. split; [done|]. split; [by etrans|done].
  - by destruct o.
  - split_and!; [done| |constructor]. exists h, l, n. split; [|done]. split; [done|]. reflexivity.
Qed.

(** C14: A flush takes what is in the buffer when it has the lock and settles it, in the company
    of any operations of the callers other than Del and copy-on-write iteration. If it returns, the
    result of that batch is nil and the whole batch is in the store, numbered in the order it was
    pushed and in its place in the order of delivery, counted and indexed (up to what the callers
    have taken since); or the result is an error and nothing of the batch is there. This holds when
    the backup, the codec, an item's Priority or Hash, the store or the commit fails or panics. If
    caller code ends the goroutine, the result of the batch is an error and nothing of it is in the
    store, what was pushed since is settled with an error too, and the backing is closed. A flush
    never panics and never gets stuck. The limits: an item method that returns answers the same
    value each time, equal items have equal hashes and priorities are 64-bit words; a codec that
    returns answers right; the fault-injection hook returns; and Hash returns if a caller's Pop is
    among the others. *)
Theorem disk_flush_callers p (c : Config W T) enc stock ctx l n b w os :
  codec_ok c enc → quiet_hook c → keyOf c = keyOf_fn p → @prio_words W T _ _ →
  Forall op_ok os → Forall pop_ok os → forallb (negb ∘ is_del) os = true →
  Held p c enc stock (empty_handed true) l n b →
  wp (doFlush ctx) (λ _ t, flushed p c enc stock only_taken b w (others_of disk_ops os) l n t)
    (exited p c enc stock only_taken b w (others_of disk_ops os) l n) (Mach b Unlocked w (others_of disk_ops os)).
Proof. intros. apply (wp_doFlush p c enc stock); try done; [apply _|]. by apply callers_keep. Qed.
End facts.
