(* ===== verification/Witnesses.v ===== *)
(** The properties at concrete inputs: small queues of numbers, on which every hypothesis is met and
    the operations can be run. *)

From Stdlib Require Import Sorting.Sorted.
From S2P Require Import Prelude Errors Machine Core Slice BinHeap Contract Logic Priority.
From S2P Require Import ContractFacts Interface Fifo FifoFacts Heap SeqOrder HeapJournal HeapRefines.
From S2P Require Import HeapFacts.

(** * The instances *)

(** The world is a counter that caller code may use; time passes unseen and no writer waits. *)
#[export] Instance world_nat : World nat := {| tick := id; write_wanted := λ _, false |}.

(** [append] doubles. *)
#[export] Program Instance grow_double : Grow := {| growcap := λ old need, Nat.max (2 * old) need |}.
Next Obligation. simpl. lia. Qed.

(** Items of a FIFO queue: numbers without priority. *)
#[export] Instance item_nat : Item nat nat := {|
  zero := 0;
  Less := λ a b w, (Ok (a <? b), w);
  Equal := λ a b w, (Ok (a =? b), w);
  Priority := λ _ w, (Ok 0%Z, w);
  Hash := λ a w, (Ok (Z.of_nat a), w);
|}.
#[export] Instance pure_nat : PureItem nat nat.
Proof. by apply (pure_item Nat.ltb Nat.eqb (λ _, 0%Z) Z.of_nat). Defined.

(** Items of a priority queue: a job number with its urgency, most urgent first. *)
Abbreviation job := (Z * nat)%type.

#[export] Instance item_job : Item nat job := {|
  zero := (0%Z, 0);
  Less := λ a b w, (Ok (b.1 <? a.1)%Z, w);
  Equal := λ a b w, (Ok ((a.1 =? b.1)%Z && (a.2 =? b.2)), w);
  Priority := λ a w, (Ok a.1, w);
  Hash := λ a w, (Ok a.1, w);
|}.
#[export] Instance pure_job : PureItem nat job.
Proof.
  by apply (pure_item (λ a b, (b.1 <? a.1)%Z) (λ a b, (a.1 =? b.1)%Z && (a.2 =? b.2)) fst fst).
Defined.
#[export] Instance laws_job : OrderLaws nat job.
Proof. split; simpl; intros; bool_to_prop; lia. Qed.
#[export] Instance item_laws_job p : ItemLaws p nat job.
Proof. split; [|intros _; apply laws_job]. intros a b Hab. simpl in *. bool_to_prop. lia. Qed.

(** The same jobs, compared by a method that panics once the counter has run out. *)
Definition flaky_job : Item nat job := {|
  zero := (0%Z, 0);
  Less := λ a b w, match w with O => (Unw Panicked, 0) | S w => (Ok (b.1 <? a.1)%Z, w) end;
  Equal := λ a b w, (Ok ((a.1 =? b.1)%Z && (a.2 =? b.2)), w);
  Priority := λ a w, (Ok a.1, w);
  Hash := λ a w, (Ok a.1, w);
|}.

(** Runs the program a [wp] hypothesis is about, there and in the goal. *)
Ltac run_in H :=
  lazymatch type of H with
  | wp ?m ?Q ?U ?s =>
      let v := eval vm_compute in (m s) in
      let Hr := fresh "Hrun" in let Hq := fresh "Hq" in
      assert (m s = v) as Hr by (vm_compute; reflexivity);
      lazymatch v with
      | (Done ?a, ?t) => pose proof (wp_done m Q U s a t H Hr) as Hq
      | (Unwound ?u, ?t) => pose proof (wp_unwound m Q U s u t H Hr) as Hq
      end;
      rewrite ?Hr; cbn [fst snd mb] in Hq |- *; clear H; rename Hq into H
  end.

(** * FIFO *)

Definition fifo_new : Fifo.Backing nat nat := Fifo.New.

(** Two items, bounded at four, the first of them popped from the front of the array. *)
Definition fifo_two : Fifo.Backing nat nat :=
  Fifo.MkBacking (MkSlice [0; 1; 2; 0] 3) 1 4 0 0 NewSignal NewSignal false None.

Lemma fifo_two_inv : fifo_inv fifo_two.
Proof. constructor; try done; [by constructor; unfold sl_cap; simpl; first [lia|done]|by intros i ?..]. Qed.

Lemma fifo_safe_witness :
  wp (exec fifo_ops (OPush background [3] []))
    (λ _ t, mlk t = Unlocked ∧ fifo_inv (mb t))
    (λ u t, mlk t = Unlocked ∧ fifo_inv (mb t) ∧ (u = None → menv t = []))
    (Mach fifo_two Unlocked 0 (others_of fifo_ops [OPop background 1%Z []; OLen])).
Proof. apply fifo_safe; [apply fifo_two_inv|done|]. by repeat constructor. Defined.

Lemma fifo_push_witness :
  live (mb (Fifo.Push background [3; 4] [] (Mach fifo_two Unlocked 0 [])).2) = [1; 2; 3; 4].
Proof.
  exact (proj2 (proj2 (fifo_push background [3; 4] [] fifo_two 0 fifo_two_inv))).
Defined.

Lemma fifo_pop_witness :
  (Fifo.Pop background 5%Z [] (Mach fifo_two Unlocked 0 [])).1 = Done ([1; 2], None) ∧
  live (mb (Fifo.Pop background 5%Z [] (Mach fifo_two Unlocked 0 [])).2) = [].
Proof.
  pose proof (fifo_pop background 5%Z [] fifo_two 0 ltac:(lia) fifo_two_inv) as H.
  destruct H as (_ & _ & _ & _ & Hl & _). split; [reflexivity|exact Hl].
Defined.

Lemma fifo_del_witness :
  (Fifo.Del background [2; 7] [] (Mach fifo_two Unlocked 0 [])).1 = Done (1%Z, None) ∧
  live (mb (Fifo.Del background [2; 7] [] (Mach fifo_two Unlocked 0 [])).2) = [1].
Proof.
  pose proof (fifo_del background [2; 7] [] fifo_two 0 fifo_two_inv) as H.
  destruct H as (_ & _ & Hl & _). split; [reflexivity|exact Hl].
Defined.

Lemma fifo_order_witness :
  ∃ t, (push_all fifo_ops background [[3]; [4]];; Fifo.Pop background 3%Z [])
         (Mach fifo_two Unlocked 0 []) = (Done ([1; 2; 3], None), t).
Proof.
  apply (fifo_order background [[3]; [4]] 3%Z fifo_two 0 fifo_two_inv); try done.
  - repeat constructor.
  - right. vm_compute. discriminate.
Defined.

Lemma fifo_storage_witness : live (store [8; 9] fifo_two) = [1; 2; 8; 9].
Proof. apply (fifo_storage [8; 9] fifo_two (fi_storage _ fifo_two_inv)). Defined.

Lemma fifo_AllCOW_witness :
  Fifo.AllCOW background (λ x _ w, (Ok true, x + w)) (Mach fifo_two Unlocked 0 []) =
  Fifo.All background (λ x _ w, (Ok true, x + w)) (Mach fifo_two Unlocked 0 []).
Proof. by apply fifo_AllCOW. Defined.

(** * The heap *)

(** Three jobs, bounded at five. *)
Definition heap_three : Heap.Backing nat job :=
  Heap.MkBacking (MkMinHeap (MkSlice [MkSeqItem 2 (9%Z, 2); MkSeqItem 0 (5%Z, 0); MkSeqItem 1 (5%Z, 1);
    MkSeqItem 0 (0%Z, 0)] 3) [] false) 3 5 0 0 0 NewSignal NewSignal false None.

Lemma heap_three_rest : at_rest heap_three.
Proof. repeat split; unfold sl_cap; simpl; lia. Qed.

Lemma heap_three_inv : heap_inv heap_three.
Proof.
  constructor; try done; try (by intros i ?).
  - apply heap_three_rest.
  - intros c Hc Hn _. do 3 (destruct c as [|c]; [done|]). simpl in Hn. lia.
  - repeat constructor.
  - repeat constructor.
Qed.

Lemma heap_safe_witness :
  wp (exec heap_ops (OPop background 2%Z []))
    (λ _ t, mlk t = Unlocked ∧ heap_inv (mb t))
    (λ u t, mlk t = Unlocked ∧ heap_inv (mb t) ∧ (u = None → menv t = []))
    (Mach heap_three Unlocked 0 (others_of heap_ops [OPush background [(7%Z, 3)] []; OLen])).
Proof. apply heap_safe; [apply heap_three_inv|done|]. by repeat constructor. Defined.

Lemma heap_push_witness :
  delivery (mb (Heap.Push background [(5%Z, 7); (6%Z, 8)] [] (Mach heap_three Unlocked 0 [])).2) =
  [(9%Z, 2); (6%Z, 8); (5%Z, 0); (5%Z, 1); (5%Z, 7)].
Proof.
  pose proof (heap_push background [(5%Z, 7); (6%Z, 8)] [] heap_three 0 heap_three_inv) as H.
  run_in H. destruct H as (_ & _ & Hl). rewrite Hl. reflexivity.
Defined.

Lemma heap_pop_witness :
  (Heap.Pop background 2%Z [] (Mach heap_three Unlocked 0 [])).1 = Done ([(9%Z, 2); (5%Z, 0)], None) ∧
  delivery (mb (Heap.Pop background 2%Z [] (Mach heap_three Unlocked 0 [])).2) = [(5%Z, 1)].
Proof.
  pose proof (heap_pop background 2%Z [] heap_three 0 ltac:(lia) heap_three_inv) as H.
  run_in H. destruct H as (_ & _ & _ & _ & Hl & _). split; [reflexivity|]. rewrite Hl. reflexivity.
Defined.

Lemma heap_del_witness :
  delivery (mb (Heap.Del background [(9%Z, 2)] [] (Mach heap_three Unlocked 0 [])).2) =
  [(5%Z, 0); (5%Z, 1)].
Proof.
  pose proof (heap_del background [(9%Z, 2)] [] heap_three 0 heap_three_inv) as H.
  run_in H. destruct H as (_ & _ & Hl & _). rewrite Hl. reflexivity.
Defined.

(** The third comparison panics: the push is undone. *)
Lemma heap_push_atomic_witness :
  (@Heap.Push nat job flaky_job _ background [(10%Z, 7); (11%Z, 8)] [] (Mach heap_three Unlocked 2 [])).1 =
    Unwound Panicked ∧
  contents (mb (@Heap.Push nat job flaky_job _ background [(10%Z, 7); (11%Z, 8)] []
    (Mach heap_three Unlocked 2 [])).2) = contents heap_three.
Proof.
  pose proof (@heap_push_atomic nat job flaky_job _ background [(10%Z, 7); (11%Z, 8)] [] heap_three 2
    heap_three_rest) as H.
  run_in H. destruct H as (_ & [Hc _ _ _ _]). split; [reflexivity|exact Hc].
Defined.

Lemma heap_pop_atomic_witness :
  (@Heap.Pop nat job flaky_job background 2%Z [] (Mach heap_three Unlocked 1 [])).1 =
    Unwound Panicked ∧
  contents (mb (@Heap.Pop nat job flaky_job background 2%Z []
    (Mach heap_three Unlocked 1 [])).2) = contents heap_three.
Proof.
  pose proof (@heap_pop_atomic nat job flaky_job background 2%Z [] heap_three 1
    heap_three_rest ltac:(lia)) as H.
  run_in H. destruct H as (_ & [Hc _ _ _ _]). split; [reflexivity|exact Hc].
Defined.

Definition heap_new : Heap.Backing nat job := Heap.New.

Lemma heap_new_inv : heap_inv heap_new.
Proof.
  constructor; try done; try (by intros i ?); try by constructor.
Qed.

Lemma heap_order_witness :
  ∃ l t, l ≡ₚ [(1%Z, 0); (2%Z, 1); (1%Z, 2)] ∧ in_order l ∧
    (push_all heap_ops background [[(1%Z, 0); (2%Z, 1)]; [(1%Z, 2)]];; Heap.Pop background 2%Z [])
      (Mach heap_new Unlocked 0 []) = (Done (take 2 l, None), t).
Proof.
  assert (Forall (λ v : job, prio v ≠ 0%Z) [(1%Z, 0); (2%Z, 1); (1%Z, 2)]) as Hok
    by (repeat constructor; discriminate).
  destruct (heap_order background [[(1%Z, 0); (2%Z, 1)]; [(1%Z, 2)]] 2%Z heap_new 0 heap_new_inv
    eq_refl eq_refl ltac:(lia) eq_refl Hok (or_introl eq_refl) ltac:(discriminate))
    as (l & t & Hp & Ho & _ & Hrun).
  exists l, t. split; [exact Hp|]. split; [exact Ho|].
  assert (zlen l = 3%Z) as Hl by (unfold zlen; by rewrite (Permutation_length Hp)).
  rewrite Hl in Hrun. exact Hrun.
Defined.

Lemma heap_AllCOW_witness :
  ∃ o w', Heap.AllCOW background (λ x _ w, (Ok (w <? 2), S w)) (Mach heap_three Unlocked 0 []) =
            (o, Mach heap_three Unlocked w' []) ∧ w' = 3.
Proof.
  destruct (heap_AllCOW background (λ (x : job) _ w, (Ok (w <? 2), S w)) heap_three 0 heap_three_inv)
    as (o & w' & p' & Hrun & _). exists o, w'. split; [exact Hrun|].
  vm_compute in Hrun. congruence.
Defined.
