(* ===== verification/WitnessesQueue.v ===== *)
(** The properties of the public queue, its constructors and the provided item types at concrete
    inputs: queues of [Number]s over the slice backings. *)

From S2P Require Import Prelude Errors Machine Core Options Builtin Slice Contract Logic Priority.
From S2P Require Import ContractFacts Interface Fifo FifoRefines FifoFacts SeqOrder Heap HeapRefines.
From S2P Require Import HeapFacts Queue QueueFacts QueueNew Witnesses.

(** * A world with telemetry *)

Record tworld := MkTworld { tw_met : queueMetrics; tw_rangeErr : option err; tw_calls : nat }.

#[export] Instance world_tworld : World tworld := {| tick := id; write_wanted := λ _, false |}.
#[export] Program Instance telemetry_tworld : Telemetry tworld := {|
  met := tw_met;
  set_met := λ m w, MkTworld m (tw_rangeErr w) (tw_calls w);
  rangeErr := tw_rangeErr;
  set_rangeErr := λ e w, MkTworld (tw_met w) e (tw_calls w);
|}.
Solve All Obligations with done.

Definition quiet_world : tworld := MkTworld newQueueMetrics None 0.
Definition called (w : tworld) : tworld := MkTworld (tw_met w) (tw_rangeErr w) (S (tw_calls w)).

Abbreviation num n := (MkNumber (NInt n%Z) 0).
Abbreviation urgent n p := (MkNumber (NInt n%Z) p%Z).

(** A bounded FIFO of numbers that already holds one. *)
Definition one_fifo : Fifo.Backing tworld Number :=
  Fifo.MkBacking (MkSlice [num 7] 1) 0 2 0 0 NewSignal NewSignal false None.
Definition one_queue : QState tworld Number :=
  MkQ [Entry (num 7) false] 2 0 NewSignal NewSignal false None.
Definition named_queue : Queue tworld Number := MkQueue None 10 true.

Lemma one_fifo_rel : fifo_rel one_fifo one_queue.
Proof. constructor; try done; [by constructor; simpl; try lia|]. exists 0. split; [done|]. split; [simpl; lia|done]. Qed.

Lemma one_queue_inv : Inv 0 one_queue.
Proof. constructor; try done; intros i Hi; by apply elem_of_nil in Hi. Qed.

Lemma queue_safe_witness :
  let r := queue_exec fifo_ops named_queue (OPop background 1%Z [])
             (Mach one_fifo Unlocked quiet_world
                (queue_others fifo_ops named_queue [OPush background [num 1] []])) in
  mlk r.2 = Unlocked ∧ represents fifo_rel (mb r.2).
Proof.
  pose proof (queue_safe fifo_rel fifo_ops false false (λ _ _, false) named_queue
    (OPop background 1%Z []) [OPush background [num 1] []] one_fifo quiet_world
    (ex_intro _ one_queue (conj one_fifo_rel one_queue_inv))) as H.
  run_in H. exact H.
Defined.

Lemma queue_push_witness :
  let r := Queue.Push fifo_ops named_queue background [num 1] [] (Mach one_fifo Unlocked quiet_world []) in
  r.1 = Done (true, None) ∧ holds fifo_rel [Entry (num 7) false; Entry (num 1) false] r.2 ∧
  m_lastDepth (tw_met (mw r.2)) = 2%Z.
Proof.
  pose proof (queue_push fifo_rel fifo_ops false false (λ _ _, false) named_queue background [num 1] []
    one_fifo one_queue quiet_world one_fifo_rel one_queue_inv) as H.
  run_in H. simpl in H. destruct H as (_ & _ & Hh & Hd).
  split; [done|]. split; [exact Hh|]. by apply Hd.
Defined.

Lemma queue_pop_witness :
  let r := Queue.Pop fifo_ops named_queue background 3%Z [] (Mach one_fifo Unlocked quiet_world []) in
  r.1 = Done ([num 7], None) ∧ holds fifo_rel [] r.2 ∧ m_lastDepth (tw_met (mw r.2)) = 0%Z.
Proof.
  pose proof (queue_pop fifo_rel fifo_ops false false (λ _ _, false) named_queue background 3%Z []
    one_fifo one_queue quiet_world one_fifo_rel one_queue_inv ltac:(lia)) as H.
  run_in H. simpl in H. destruct H as (_ & _ & Hh & Hd).
  split; [done|]. split; [exact Hh|]. by apply Hd.
Defined.

(** A Pop of an empty queue that another goroutine closes before the Pop has its lock: the Pop counts
    once as an operation and once as a failure of the queue, and what the Close counted is left as it is. *)
Definition empty_fifo : Fifo.Backing tworld Number :=
  Fifo.MkBacking (MkSlice [] 1) 0 2 0 0 NewSignal NewSignal false None.
Definition closing : list (Fifo.Backing tworld Number → tworld → Fifo.Backing tworld Number * tworld) :=
  queue_others fifo_ops named_queue [OClose background []].

Lemma instrumented_counts_witness :
  let r := Queue.Pop fifo_ops named_queue background 1%Z [] (Mach empty_fifo Unlocked quiet_world closing) in
  r.1 = Done ([], Some (Sentinel ErrClosed)) ∧
  m_ops (tw_met (mw r.2)) QPop = 1%Z ∧ m_ops (tw_met (mw r.2)) QClose = 1%Z ∧
  m_errs (tw_met (mw r.2)) QPop errKindQueue = 1%Z ∧ m_errs (tw_met (mw r.2)) QPop errKindItem = 0%Z ∧
  m_errs (tw_met (mw r.2)) QClose errKindQueue = 0%Z.
Proof.
  destruct (instrumented_counts named_queue QPop snd
    ('(items, e) ← op_Pop fifo_ops background 1%Z [];
     match e with
     | Some e => mret ([], Some e)
     | None => recordDepth fifo_ops named_queue;; mret (items, None)
     end)
    (Mach empty_fifo Unlocked quiet_world closing) eq_refl) as (Hr & _ & Hc).
  destruct (Hc QPop) as [H1 H2]. destruct (Hc QClose) as [H3 H4].
  specialize (H4 errKindQueue). pose proof (H2 errKindItem) as H5. specialize (H2 errKindQueue).
  split_and!; [exact Hr|exact H1|exact H3|exact H2|exact H5|exact H4].
Defined.

Lemma New_rejects_witness :
  ∃ e, New (fifo_ops (W := tworld) (T := Number)) fifo_setup background true true 5%Z
         [WithMaxBatch 3; WithMaxBatch 0] (Mach Fifo.New Unlocked quiet_world []) =
       (Done (inr e), Mach Fifo.New Unlocked quiet_world []) ∧ Is e ErrBadOption = true.
Proof. by apply New_rejects. Defined.

(** A backup with two numbers in it that does not mind being loaded, and one that refuses. *)
Definition listing (l : list Number) (ok : bool) : Backup tworld Number := {|
  bk_Push := λ _ _ w, (Ok None, w);
  bk_Del := λ _ _ w, (Ok None, w);
  bk_Restore := λ _ _ w, (Ok None, w);
  bk_Close := λ _ w, (Ok None, called w);
  bk_Clear := λ _ w, (Ok None, w);
  bk_RangeAll := λ _, (λ v w, (Ok (Some (v, None)), w)) <$> l;
  bk_OnLoad := λ _ _ w, (Ok (if ok then None else Some (Foreign 1 [])), w);
|}.

Lemma New_failed_hydrate_witness :
  let x := New fifo_ops fifo_setup background true true 5%Z (over_backup 3 (listing [num 1] false))
             (Mach Fifo.New Unlocked quiet_world []) in
  tw_calls (mw x.2) = 1 ∧ ∃ e, x.1 = Done (inr e).
Proof.
  assert (fifo_rel (Fifo.set_maxSize 5 (Fifo.New : Fifo.Backing tworld Number))
    (MkQ [] 5 0 NewSignal NewSignal false None)) as Hr by apply New_rel.
  pose proof (New_failed_hydrate fifo_rel fifo_ops fifo_setup false false (λ _ _, false) background
    true 5%Z (over_backup 3 (listing [num 1] false)) (listing [num 1] false) Fifo.New Fifo.New
    (Fifo.set_maxSize 5 Fifo.New) quiet_world _ (Fifo.set_maxSize 5 Fifo.New)
    (set_met newQueueMetrics quiet_world) _ eq_refl eq_refl eq_refl eq_refl Hr eq_refl
    ltac:(left; by eexists)) as [(_ & _ & Hw) Hx].
  cbv zeta in *. split; [by rewrite Hw|]. destruct Hx as [Hx|[u Hu]]; [exact Hx|]. vm_compute in Hu. done.
Defined.

Lemma fifo_restores_witness :
  ∃ q t, New fifo_ops fifo_setup background true true 1%Z (over_backup 3 (listing [num 2; num 1] true))
           (Mach Fifo.New Unlocked quiet_world []) = (Done (inl q), t) ∧
    live (mb t) = [num 2; num 1] ∧ m_lastDepth (tw_met (mw t)) = 2%Z.
Proof.
  destruct (fifo_restores background true 1%Z 3%Z (listing [num 2; num 1] true) [num 2; num 1] quiet_world)
    as (q & t & Hrun & _ & _ & _ & Hl & _ & _ & Hd); [lia|by split|by repeat constructor|].
  exists q, t. split; [exact Hrun|]. split; [exact Hl|]. by apply Hd.
Defined.

Lemma heap_restores_witness :
  ∃ q t, New heap_ops heap_setup background false true 1%Z
           (over_backup 3 (listing [urgent 1 1; urgent 2 5; urgent 3 5] true))
           (Mach Heap.New Unlocked quiet_world []) = (Done (inl q), t) ∧
    delivery (mb t) = [urgent 2 5; urgent 3 5; urgent 1 1].
Proof.
  destruct (heap_restores background false 1%Z 3%Z (listing [urgent 1 1; urgent 2 5; urgent 3 5] true)
    [urgent 1 1; urgent 2 5; urgent 3 5] quiet_world)
    as (q & t & Hrun & _ & _ & _ & Hl & _); [lia|by split|done|by repeat constructor|].
  exists q, t. split; [exact Hrun|exact Hl].
Defined.

(** * Constructors and items *)

Lemma backing_options_valid_witness :
  ∃ o e, ApplyBackingOptions CallBTreeFIFO (denote <$> [OIndex; OBTreeWidth 1; ONoSync]) = Some (o, e) ∧
    opts_ok CallBTreeFIFO o ∧ e ≠ None.
Proof.
  destruct (backing_options_valid CallBTreeFIFO [OIndex; OBTreeWidth 1; ONoSync]) as (o & e & H & Ho & He & _);
    [done|].
  exists o, e. split; [exact H|]. split; [exact Ho|]. by rewrite He.
Defined.

Lemma Number_Hash_range_witness : (0 ≤ Number_Hash (MkNumber (NInt (-1)) 0) < 2 ^ 64)%Z.
Proof. apply Number_Hash_range. simpl. lia. Defined.
