(* ===== verification/WitnessesCbwfq.v ===== *)
(** The properties of the scheduler at concrete inputs: three classes of [Number]s, each a FIFO queue
    of this package. *)

From S2P Require Import Prelude Errors Machine Core Options Builtin Slice Contract Logic ContractFacts Interface.
From S2P Require Import SeqOrder Fifo FifoRefines FifoFacts Queue QueueFacts Witnesses WitnessesQueue.
From S2P Require Import Cbwfq CbwfqFacts CbwfqPull CbwfqSafe CbwfqFair CbwfqOps CbwfqQueue.

(** A world with the telemetry of the queues and of the scheduler. *)
Record cworld := MkCworld { cw_met : queueMetrics; cw_rangeErr : option err; cw_smet : schedMetrics }.

#[export] Instance world_cworld : World cworld := {| tick := id; write_wanted := λ _, false |}.
#[export] Program Instance telemetry_cworld : Telemetry cworld := {|
  met := cw_met;
  set_met := λ m w, MkCworld m (cw_rangeErr w) (cw_smet w);
  rangeErr := cw_rangeErr;
  set_rangeErr := λ e w, MkCworld (cw_met w) e (cw_smet w);
|}.
Solve All Obligations with done.
#[export] Program Instance sched_telemetry_cworld : SchedTelemetry cworld := {|
  smet := cw_smet;
  set_smet := λ m w, MkCworld (cw_met w) (cw_rangeErr w) m;
|}.
Solve All Obligations with done.

Definition cquiet : cworld := MkCworld newQueueMetrics None newSchedMetrics.

(** A FIFO queue without a bound that holds [l]. *)
Definition fifo_of (l : list Number) : Fifo.Backing cworld Number :=
  Fifo.MkBacking (MkSlice l (length l)) 0 0 0 0 NewSignal NewSignal false None.
Definition cfg_of : Queue cworld Number := MkQueue None 10 false.

#[export] Instance num_class : ClassQueue (Queue cworld Number) (Fifo.Backing cworld Number) cworld Number :=
  queue_class fifo_ops.
Definition num_holds : list Number → Fifo.Backing cworld Number → Prop := queue_holds fifo_rel.
#[export] Instance num_laws : ClassQueueLaws _ _ _ _ num_holds :=
  queue_class_laws fifo_rel fifo_ops false false (λ _ _, false).

Lemma live_fifo_of l : live (fifo_of l) = l.
Proof. unfold live, sl_contents. simpl. by rewrite drop_0, firstn_all. Qed.

Lemma items_id {T} (l : list T) : e_item <$> ((λ v, Entry v false) <$> l) = l.
Proof. rewrite <- list_fmap_compose. simpl. apply list_fmap_id. Qed.

Lemma fifo_of_holds l : num_holds l (fifo_of l).
Proof.
  exists (MkQ ((λ v, Entry v false) <$> l) 0 0 NewSignal NewSignal false None). split_and!.
  - constructor; try done; simpl; [|by rewrite live_fifo_of, items_id|].
    + constructor; unfold sl_cap; simpl; [lia|lia|]. by rewrite live_fifo_of, Nat.sub_diag, app_nil_r.
    + apply (positional_admit 0 [] l). by exists 0.
  - constructor; try done; intros i Hi; by apply elem_of_nil in Hi.
  - apply items_id.
Qed.

(** Gold with weight 2, bronze with weight 1 and a priority class. *)
Definition class_of (name : string) (weight : Z) (prio : bool) (l : list Number)
    : classState (Queue cworld Number) (Fifo.Backing cworld Number) :=
  MkClassState name weight cfg_of (fifo_of l) prio 0 0.
Definition sched_of (named : bool) (gold bronze voice : list Number) : CBWFQ (Queue cworld Number) (Fifo.Backing cworld Number) cworld Number :=
  MkSched [class_of "gold" 2 false gold; class_of "bronze" 1 false bronze; class_of "voice" 1 true voice]
    [0; 1] 0 (Some 2) 1 (zlen gold + zlen bronze + zlen voice)%Z false newSignal named [].

Lemma sched_of_filled named gold bronze voice : filled num_holds (sched_of named gold bronze voice) [gold; bronze; voice].
Proof. repeat constructor; apply fifo_of_holds. Qed.

Lemma sched_of_sound named gold bronze voice : Sound num_holds (sched_of named gold bronze voice).
Proof.
  constructor.
  - constructor; simpl.
    + intros i Hi. repeat (apply elem_of_cons in Hi as [->|Hi]; [by eexists|]). by apply elem_of_nil in Hi.
    + by apply (bool_decide_unpack _); vm_compute.
    + intros p [= <-]. by eexists.
    + by eexists.
  - constructor; simpl; [|lia]. intros i Hi.
    repeat (apply elem_of_cons in Hi as [->|Hi]; [done|]). by apply elem_of_nil in Hi.
  - eexists. apply sched_of_filled.
  - constructor.
  - intros i Hi. by apply elem_of_nil in Hi.
Qed.

Lemma sched_of_live named gold bronze voice :
  Live num_holds (sched_of named gold bronze voice) (sched_of named gold bronze voice).
Proof. split; [apply sched_of_sound|done]. Qed.

(** Runs a program in a hypothesis about it and in the goal. *)
Ltac run_prog H m :=
  let v := eval vm_compute in m in
  let Hr := fresh "Hrun" in
  assert (m = v) as Hr by (vm_compute; reflexivity);
  rewrite Hr in H; rewrite ?Hr; clear Hr; cbv zeta in H; cbn [fst snd mb mlk] in H |- *.

(** Odd numbers are gold, the rest go where the classifier has no name for them. *)
Definition by_parity (v : Number) : code cworld string := λ w,
  (Ok (match nV v with NInt 1 | NInt 7 => "gold" | _ => "none" end), w).

Lemma sched_safe_witness :
  let r := sched_exec by_parity (SOPull background 3 [])
             (Mach (sched_of true [] [] []) Unlocked cquiet (sched_others by_parity [SOPush background (num 7) []; SOLen])) in
  mlk r.2 = Unlocked ∧ Live num_holds (sched_of true [] [] []) (mb r.2).
Proof.
  pose proof (sched_safe num_holds by_parity _ (SOPull background 3 []) [SOPush background (num 7) []; SOLen]
    _ cquiet (sched_of_live true [] [] [])) as H.
  run_prog H (sched_exec by_parity (SOPull background 3 [])
    (Mach (sched_of true [] [] []) Unlocked cquiet (sched_others by_parity [SOPush background (num 7) []; SOLen]))).
  by destruct H.
Defined.


(** A side effect that panics inside the Pull. *)
Definition bang : OpOption cworld := WithSideEffect (Some (λ w, (Unw Panicked, w))).

Lemma sched_pull_unwound_witness :
  ∃ t, Pull background 1 [bang] (Mach (sched_of false [num 7] [] []) Unlocked cquiet (sched_others by_parity [])) =
    (Unwound Panicked, t) ∧ mlk t = WLocked.
Proof.
  eexists. split; [vm_compute; reflexivity|].
  apply (sched_pull_unwound num_holds by_parity _ background 1 [bang] [] _ cquiet Panicked _
    (sched_of_live false [num 7] [] []) ltac:(lia)). vm_compute. reflexivity.
Defined.

Lemma sched_closed_pull_witness :
  (Pull background 2 [] (Mach (set_closed (sched_of false [num 7] [] [])) Unlocked cquiet
     (sched_others by_parity [SOPush background (num 4) []]))).1 = Done ([], "", Some (Sentinel ErrClosed)).
Proof.
  assert (Live num_holds (set_closed (sched_of false [num 7] [] [])) (set_closed (sched_of false [num 7] [] []))) as Hl.
  { split; [|done]. destruct (sched_of_sound false [num 7] [] []) as [[] [] ? ? ?]. constructor; try done; by constructor. }
  exact (proj1 (sched_closed_pull num_holds by_parity _ background 2 [] [SOPush background (num 4) []] _ cquiet Hl
    eq_refl ltac:(lia))).
Defined.

(** Gold spends its quantum of two in one go and the round goes on to bronze. *)
Lemma sched_pull_turn_witness :
  let r := Pull background 5 [] (Mach (sched_of false [num 7; num 1; num 7] [num 4] []) Unlocked cquiet []) in
  r.1 = Done ([num 7; num 1], "gold", None) ∧
  filled num_holds (mb r.2) [[num 7]; [num 4]; []] ∧ s_pending (mb r.2) = 2%Z ∧
  turn (sched_of false [num 7; num 1; num 7] [num 4] []) [[num 7; num 1; num 7]; [num 4]; []] [0; 0; 0]%Z [0; 1] 5 =
    Some (0, [num 7; num 1], [0; 0; 0]%Z, [1; 0]).
Proof.
  pose proof (sched_pull_turn num_holds background 5 [] _ _ cquiet (sched_of_sound false [num 7; num 1; num 7] [num 4] [])
    (sched_of_filled false [num 7; num 1; num 7] [num 4] []) eq_refl eq_refl ltac:(lia)) as H.
  run_prog H (Pull background 5 [] (Mach (sched_of false [num 7; num 1; num 7] [num 4] []) Unlocked cquiet [])).
  destruct H as (i & cs & l & Hcs & _ & Hl & Ht & Hf & Hp & _).
  assert (i = 0) as -> by (vm_compute in Ht; congruence). injection Hl as <-.
  split; [done|]. split; [exact Hf|]. split; [exact Hp|]. vm_compute. reflexivity.
Defined.

(** Bronze waits while gold emits two. *)
Lemma sched_no_starvation_witness :
  let reqs := [(background, 1%Z, []); (background, 1%Z, [])] in
  let s := sched_of false [num 7; num 1; num 7] [num 4] [] in
  ∃ rs t, pulls reqs (Mach s Unlocked cquiet []) = (Done rs, t) ∧ emitted rs = 2%Z ∧ (emitted rs ≤ others_weight s 1)%Z.
Proof.
  intros reqs s. exists [([num 7], "gold", None); ([num 1], "gold", None)].
  assert (∃ t, pulls reqs (Mach s Unlocked cquiet []) = (Done [([num 7], "gold", None); ([num 1], "gold", None)], t))
    as [t Hr] by (eexists; vm_compute; reflexivity).
  exists t. split; [exact Hr|]. split; [reflexivity|].
  refine (sched_no_starvation num_holds reqs 1 s [num 4] _ cquiet _ t (sched_of_sound _ _ _ _)
    (sched_of_filled _ _ _ _) eq_refl _ eq_refl _ _ Hr _).
  - by right; left.
  - done.
  - repeat constructor; simpl; lia.
  - repeat constructor; intros [|[|[|j]]] cs; simpl; intros [= <-] [Hj|Hj]; done.
Defined.

Lemma sched_close_witness :
  let r := Cbwfq.Close [0; 1; 2] background (Mach (sched_of false [num 7] [] []) Unlocked cquiet []) in
  s_closed (mb r.2) = true ∧ mlk r.2 = Unlocked.
Proof.
  destruct (sched_close num_holds [0; 1; 2] background _ cquiet (sched_of_sound false [num 7] [] []))
    as (_ & Hc & _ & [Hk _] & _).
  by split.
Defined.

Lemma sched_push_witness :
  let r := Cbwfq.Push by_parity background (num 4) [] (Mach (sched_of true [num 7] [] []) Unlocked cquiet []) in
  r.1 = Done None ∧ ∃ name, pushed num_holds (sched_of true [num 7] [] []) [[num 7]; []; []] (num 4) name (mb r.2).
Proof.
  pose proof (sched_push num_holds by_parity background (num 4) [] _ _ cquiet (sched_of_sound true [num 7] [] [])
    (sched_of_filled true [num 7] [] []) eq_refl) as H.
  run_prog H (Cbwfq.Push by_parity background (num 4) [] (Mach (sched_of true [num 7] [] []) Unlocked cquiet [])).
  destruct H as ((name & _ & Hp) & _). split; [done|]. by exists name.
Defined.

Lemma sched_New_witness :
  ∃ e t, Cbwfq.New true true [MkClass "gold" 2 (Some (cfg_of, fifo_of [num 7])) false false;
                              MkClass "bronze" 0 (Some (cfg_of, fifo_of [])) true true]
           (Mach (empty_sched []) Unlocked cquiet []) = (Done e, t) ∧ e = None ∧ s_pending (mb t) = 1%Z.
Proof.
  destruct (sched_New num_holds true true [MkClass "gold" 2 (Some (cfg_of, fifo_of [num 7])) false false;
    MkClass "bronze" 0 (Some (cfg_of, fifo_of [])) true true] [[num 7]; []] cquiet) as (e & t & Hr & He & Hready).
  { repeat constructor; apply fifo_of_holds. }
  exists e, t. split; [exact Hr|]. assert (e = None) as ->.
  { apply He. split; [done|]. constructor; [by repeat constructor|by apply (bool_decide_unpack _); vm_compute|done|by vm_compute; lia]. }
  split; [done|]. exact (rd_pending _ _ _ _ _ (Hready eq_refl)).
Defined.
