(* ===== verification/WitnessesLocks.v ===== *)
(** The properties of the broadcast primitive and of the queue's lock on schedules that are spelled out. *)

From stdpp Require Import gmap.
From S2P Require Import Prelude Parker ParkerFacts QLock.

(** Goroutine 0 parks with a context nobody cancels, goroutine 1 with one that is cancelled while it is
    on its way to gopark; a Broadcast takes both parkers. *)
Definition both_parked : list action :=
  [ARegister 0 0; APark 0; AStore 0; ACas 0; ARegister 1 1; AAfterFunc 1; APark 1; AStore 1; AFire 1].

Definition after (l : list action) : St := default Parker.New (schedule l Parker.New).

Definition runs (l : list action) : bool := match schedule l Parker.New with Some _ => true | None => false end.

Lemma after_reachable l : runs l = true → reachable (after l).
Proof.
  unfold runs, after. destruct (schedule l Parker.New) as [s|] eqn:Hs; [intros _|done]. simpl. eapply schedule_reachable; [apply reach_New|exact Hs].
Qed.

(** The Broadcast wakes 0, which recycles its parker; the callback wakes 1. *)
Definition all_done : list action :=
  both_parked ++ [ABroadcast; ASwap 1; AReady 1; ASwap 1; ASwap 0; ACas 1; AUnlist 0; APut 0; ADetach 1].

Lemma parker_safe_witness :
  crashed (after all_done) = false ∧ 0 ∈ pool (after all_done) ∧ cells (after all_done) !! 0 = Some fresh ∧
  1 ∉ pool (after all_done).
Proof.
  destruct (parker_safe (after all_done)) as (Hc & _ & Hp); [apply after_reachable; by vm_compute|].
  assert (0 ∈ pool (after all_done)) as H0 by by apply (bool_decide_unpack _); vm_compute.
  split; [exact Hc|]. split; [exact H0|]. split; [apply (Hp 0 H0)|]. by apply (bool_decide_unpack _); vm_compute.
Defined.

(** Goroutine 0 went to sleep after the only Broadcast. *)
Lemma no_lost_wakeup_witness : 0 ∈ parkers (after [ABroadcast; ARegister 0 0; APark 0; AStore 0; ACas 0]).
Proof.
  apply (no_lost_wakeup _ 0 0 NoWatch).
  - apply after_reachable. by vm_compute.
  - apply (bool_decide_unpack _). by vm_compute.
  - by vm_compute.
Defined.

Lemma broadcast_wakes_witness :
  ∃ s1 l s', Parker.Broadcast (after both_parked) = Some s1 ∧ schedule l s1 = Some s' ∧ length l ≤ 6 ∧
    ∀ i c w, waiting s' !! i = Some (c, w) → ∀ p, c ≠ Waiting p.
Proof.
  destruct (broadcast_wakes (after both_parked) (after (both_parked ++ [ABroadcast])))
    as (l & s' & _ & Hlen & Hs & _ & Hw); [apply after_reachable; by vm_compute|by vm_compute|].
  exists (after (both_parked ++ [ABroadcast])), l, s'. split; [by vm_compute|]. split; [exact Hs|].
  split; [etransitivity; [exact Hlen|]; by apply (bool_decide_unpack _); vm_compute|]. intros i c w Hi. apply (Hw i c w Hi).
Defined.

(** Goroutine 0 iterates, goroutine 1 is blocked in Lock having counted itself. *)
Definition seen : QLock := MkQLock [CowR; Blocked true; Out] 1 1.

Lemma seen_reachable : lreach 3 seen.
Proof.
  apply (lr_step _ (MkQLock [CowR; Bumped; Out] 1 1)); [|by apply (st_Lock 1)].
  apply (lr_step _ (MkQLock [CowR; Checked true; Out] 0 1)); [|by apply (st_Lock 1)].
  apply (lr_step _ (MkQLock [CowR; Out; Out] 0 1)); [|by apply (st_Lock 1)].
  apply (lr_step _ (MkQLock [CowOut; Out; Out] 0 1)); [|by apply (st_RLock 0)].
  apply (lr_step _ (QLock.New 3)); [constructor|by apply (st_CowEnter 0)].
Qed.

Lemma qlock_safe_witness : WriteWanted seen = true.
Proof.
  destruct (qlock_safe 3 seen seen_reachable) as (_ & _ & _ & H). apply H. exists 1, (Blocked true). by split.
Defined.

Lemma write_wanted_stays_witness : WriteWanted (MkQLock [CowR; Blocked true; Checked true] 1 1) = true.
Proof.
  apply (write_wanted_stays 3 seen _ 0 1 seen_reachable); [by exists CowR|reflexivity|].
  apply (wr_step _ _ seen); [constructor|by exists CowR|by apply (st_Lock 2)|by exists CowR].
Defined.
