(* ===== verification/WitnessesTrees.v ===== *)
(** The properties of the trees and of the backings over them at concrete inputs, and the agreement of the
    in-memory FIFO backings; the ordered tree is the sorted list that obeys its laws. *)

From stdpp Require Import gmap.
From S2P Require Import Prelude Btree BtreeOwn BtreeFacts BtreeSorted BtreeMap.
From S2P Require Import Errors Machine Core Options Builtin Slice Contract Logic Priority ContractFacts SeqOrder.
From S2P Require Import Interface Fifo FifoFacts Queue QueueNew BtypeFifo BtypeRefines BtypeFacts.
From S2P Require Import OrdTree Ordered OrderedIndex OrderedOwn OrderedRefines OrderedFacts.
From S2P Require Import Backings Witnesses WitnessesQueue.

(** * The tree *)

(** The copy still has the two items it was made of, after the tree has lost one and got others, and after
    more copies were taken, one of which was released. *)
Lemma btree_copy_keeps_witness :
  ∃ l t c cs σ l' t' cs' σ',
    do_ops ([OPushBack ((), 1); OPushBack ((), 2)] ++ [OCopy]) (new_tree None, []) [] = Some ((l, (t, c :: cs)), σ) ∧
    do_ops [OPopFront; OCopy; OPushFront ((), 7); OCopy; ORelease 1; OPopBack] (t, c :: cs) σ =
      Some ((l', (t', cs')), σ') ∧
    cs' !! 1 = Some c ∧ GetAt 1 c σ' = Some ((Some ((), 2), c), σ').
Proof.
  destruct (btree_copy_keeps [OPushBack ((), 1); OPushBack ((), 2)]
    [OPopFront; OCopy; OPushFront ((), 7); OCopy; ORelease 1; OPopBack] 1)
    as (l & t & c & cs & σ & l' & t' & cs' & σ' & H1 & H2 & H3 & H4); [reflexivity|].
  exists l, t, c, cs, σ, l', t', cs', σ'. exact (conj H1 (conj H2 (conj H3 (H4 1%Z)))).
Defined.

(** Numbers as keys, the larger first, and a search that goes through the items of the node: the key 5 is
    set twice, the larger 7 comes before it, and a snapshot keeps the 3 that is deleted. *)
Definition larger_first (a b c d : nat) : Z := Z.of_nat c - Z.of_nat a.
Definition scan_items (its : list (nat * nat)) (x : nat * nat) : nat * bool :=
  let '(lo, o, _) := locate larger_first x its in (length lo, isSome o).

Lemma btree_is_map_witness : ∃ s σ,
  do_kops scan_items [KSet (5, 1); KInsert (3, 2); KSet (5, 6); KInsert (7, 0); KCopy; KDelete (3, 0);
      KIter true WAll (λ _, false); KIterCopy 0 (WDescend (5, 0)) (λ _, false); KIndexOf (5, 0)]
    (new_tree (Some larger_first), []) [] =
    Some (([KPut None false; KPut None true; KPut (Some 1) true; KPut None true; KDone; KValue (Some 2);
            KItems [(7, 0); (5, 6)]; KItems [(5, 6); (7, 0)]; KIndex 1 true], s), σ) ∧
  sorted_family (F := nothing) larger_first σ s ([(7, 0); (5, 6)], [[(7, 0); (5, 6); (3, 2)]]).
Proof.
  apply (btree_is_map larger_first scan_items).
  - split; unfold comp, larger_first; lia.
  - intros [] []; unfold comp, larger_first, revalue; cbn; lia.
  - intros its x _. done.
Defined.

(** * The backing *)

Abbreviation bfifo := (BtypeFifo.Backing nat nat).
Definition btype_new : bfifo := BtypeFifo.New.

Lemma btype_safe_witness :
  wp (exec btype_ops (OPush background [3] []))
    (λ _ t, mlk t = Unlocked ∧ ∃ l', btype_inv nothing (mb t) l')
    (λ u t, mlk t = Unlocked ∧ (u = None → menv t = []))
    (Mach btype_new Unlocked 0 (others_of btype_ops [OPop background 1%Z []; OLen])).
Proof.
  pose proof (btype_safe nothing (OPush background [3] []) [OPop background 1%Z []; OLen] btype_new [] 0
    btype_New_inv I) as H. cbv zeta in H.
  eapply wp_mono; [| |apply H; by repeat constructor];
    [intros ? t (Hk & Hi & _); exact (conj Hk Hi)|intros ? t [(Hk & _) He]; exact (conj Hk He)].
Defined.

Lemma btype_order_witness :
  ∃ t, (push_all btype_ops background [[3]; [4; 5]];; BtypeFifo.Pop background 2%Z [])
         (Mach btype_new Unlocked 0 []) = (Done ([3; 4], None), t).
Proof.
  apply (btype_order nothing background [[3]; [4; 5]] 2%Z btype_new [] 0 btype_New_inv); try done.
  - repeat constructor.
  - by left.
Defined.

Lemma btype_AllCOW_witness :
  rwp (BtypeFifo.AllCOW background (λ x _ w, (Ok true, x + w))) (AllSnapshot background (λ x _ w, (Ok true, x + w)))
    (λ _ _ t1 t2, mw t1 = mw t2 ∧ mlk t1 = mlk t2)
    (λ t1 t2, mw t1 = mw t2 ∧ mlk t1 = mlk t2)
    (Mach btype_new Unlocked 0 (others_of btype_ops [OPush background [1; 2] []; OPop background 1%Z []]))
    (Mach (btype_queue btype_new []) Unlocked 0
       (others_of (contract_ops false false (λ _ _, false)) [OPush background [1; 2] []; OPop background 1%Z []])).
Proof.
  pose proof (btype_AllCOW nothing background (λ x _ w, (Ok true, x + w))
    [OPush background [1; 2] []; OPop background 1%Z []] btype_new [] 0 btype_New_inv
    ltac:(by repeat constructor)) as H.
  eapply rwp_mono; [| |exact H]; [intros _ _ t1 t2 (Hw & Hk & _)|intros t1 t2 (Hw & Hk & _)];
    exact (conj Hw Hk).
Defined.

Lemma btype_restores_witness :
  ∃ q t, Queue.New btype_ops btype_setup background true true 1%Z
           (over_backup 3 (listing [num 2; num 1] true))
           (Mach BtypeFifo.New Unlocked quiet_world []) = (Done (inl q), t) ∧
    btype_inv nothing (mb t) [num 2; num 1] ∧ m_lastDepth (tw_met (mw t)) = 2%Z.
Proof.
  destruct (btype_restores background true 1%Z 3%Z (listing [num 2; num 1] true) [num 2; num 1] quiet_world)
    as (q & t & Hrun & _ & _ & Hi & _ & _ & Hd); [lia|by split|by repeat constructor|].
  exists q, t. split; [exact Hrun|]. split; [exact Hi|]. by apply Hd.
Defined.

#[local] Existing Instance SortedList.ord.
#[local] Existing Instance SortedList.ord_laws.

(** * Backings *)

Definition ordered_opts (index : bool) : BackingOpts :=
  MkBackingOpts CallBTreeFIFO 32 index false false false false false false 0 0 0 0 None None None.

Definition ordered_new {W T} `{!Item W T} (p index : bool) : Ordered.Backing W T :=
  MkBacking (NewBTreeG (sless p) 32) (if index then Some newBtreeIndex else None) 0 0 0 0 0 p
    NewSignal NewSignal false None.

Lemma ordered_new_eq {W T} `{!Item W T} p index :
  newBacking (ordered_opts index) (sless p) p = inl (ordered_new p index : Ordered.Backing W T).
Proof. done. Qed.

Abbreviation onum := (Ordered.Backing tworld Number).

Lemma ordered_new_inv p index : ord_inv p (ordered_new p index : onum).
Proof. exact (ord_New_inv p _ _ (ordered_new_eq p index)). Qed.

(** * The properties *)

Lemma ordered_safe_witness :
  wp (exec ord_ops (OPush background [num 3] []))
    (λ _ t, mlk t = Unlocked ∧ ord_inv false (mb t))
    (λ u t, mlk t = Unlocked ∧ ord_inv false (mb t) ∧ (u = None → menv t = []))
    (Mach (ordered_new false true : onum) Unlocked quiet_world
       (others_of ord_ops [OPop background 1%Z []; ODel background [num 3] []])).
Proof. apply ordered_safe; [apply _|apply ordered_new_inv|exact I|by repeat constructor]. Defined.

Lemma ordered_order_witness :
  ∃ t, (push_all ord_ops background [[urgent 1 1]; [urgent 2 5; urgent 3 5]];;
        Ordered.Pop background 2%Z []) (Mach (ordered_new true true : onum) Unlocked quiet_world []) =
       (Done ([urgent 2 5; urgent 3 5], None), t).
Proof.
  apply (ordered_order true background [[urgent 1 1]; [urgent 2 5; urgent 3 5]] 2%Z
    (ordered_new true true : onum) quiet_world (ordered_new_inv true true)); try reflexivity.
  - lia.
  - by repeat constructor.
  - by left.
  - discriminate.
Defined.

Lemma ordered_index_transparent_witness :
  let os := [OPush background [num 1; num 2; num 1] []; ODel background [num 1] [];
             OExists background (num 1) []] in
  let run b := (exec_all ord_ops os (Mach (b : onum) Unlocked quiet_world (others_of ord_ops []))).1 in
  run (ordered_new false true) = run (ordered_new false false) ∧
  run (ordered_new false true) = Done [RErr None; RCount 2 None; RBool false None].
Proof.
  intros os run. split; [|vm_compute; reflexivity].
  exact (proj1 (ordered_index_transparent false os [] (ordered_new false true : onum) quiet_world
    (ordered_new_inv false true) ltac:(by repeat constructor) ltac:(constructor))).
Defined.

Lemma ordered_AllCOW_witness :
  Ordered.AllCOW background (λ x _ w, (Ok true, x + w)) (Mach (ordered_new false true) Unlocked 0 []) =
  Ordered.All background (λ x _ w, (Ok true, x + w)) (Mach (ordered_new false true) Unlocked 0 []).
Proof. by apply ordered_AllCOW. Defined.

Lemma ordered_restores_witness :
  ∃ q t, Queue.New ord_ops ord_setup background true true 1%Z
           (over_backup 3 (listing [urgent 1 1; urgent 2 5; urgent 3 5] true))
           (Mach (ordered_new true true) Unlocked quiet_world []) = (Done (inl q), t) ∧
    OrderedFacts.delivery (mb t) = [urgent 2 5; urgent 3 5; urgent 1 1] ∧
    m_lastDepth (tw_met (mw t)) = 3%Z.
Proof.
  destruct (ordered_restores true (ordered_opts true) (ordered_new true true) background true 1%Z 3%Z
    (listing [urgent 1 1; urgent 2 5; urgent 3 5] true) [urgent 1 1; urgent 2 5; urgent 3 5] quiet_world)
    as (q & t & Hrun & _ & _ & _ & Hl & _ & _ & Hd);
    [apply ordered_new_eq|lia|by split|done|by repeat constructor|].
  exists q, t. split; [exact Hrun|]. split; [exact Hl|]. by apply Hd.
Defined.

(** Numbers that count how often they are compared, and panic the third time. *)
Definition touchy : Item nat nat := {|
  zero := 0;
  Less := λ a b w, (Ok (a <? b), w);
  Equal := λ a b w, if w <? 2 then (Ok (a =? b), S w) else (Unw Panicked, w);
  Priority := λ _ w, (Ok 0%Z, w);
  Hash := λ a w, (Ok (Z.of_nat a), w);
|}.

Lemma fifo_backings_agree_witness :
  let os := [OPush background [1; 2; 3] []; ODel background [3] []; OLen] in
  let os' := [OPush background [num 1; num 2] []; OPop background 1%Z []; OLen] in
  (observed (exec_all (@fifo_ops nat nat touchy _ _) os (Mach (Fifo.set_maxSize 4 Fifo.New) Unlocked 0 [])) =
   observed (exec_all (@btype_ops nat nat touchy _) os (Mach (BtypeFifo.set_maxSize 4 BtypeFifo.New) Unlocked 0 []))) ∧
  observed (exec_all fifo_ops os' (Mach (Fifo.set_maxSize 4 Fifo.New) Unlocked quiet_world
     (others_of fifo_ops [OPeek background []]))) =
  observed (exec_all ord_ops os' (Mach (Ordered.set_maxSize 4 (ordered_new false true)) Unlocked quiet_world
     (others_of ord_ops [OPeek background []]))).
Proof.
  intros os os'. split.
  - exact (proj1 (@fifo_backings_agree nat nat touchy _ _ _ _ 4 os [] 0 ltac:(by repeat constructor)
      ltac:(constructor))).
  - exact (proj2 (fifo_backings_agree 4 os' [OPeek background []] quiet_world ltac:(by repeat constructor)
      ltac:(by repeat constructor)) _ _ (ordered_opts true) (ordered_new false true)
      (ordered_new_eq false true)).
Defined.

(** * An index left behind *)

(** Numbers whose hash panics once the counter has run out. *)
Definition flaky_hash : Item nat nat := {|
  zero := 0;
  Less := λ a b w, (Ok (a <? b), w);
  Equal := λ a b w, (Ok (a =? b), w);
  Priority := λ _ w, (Ok 0%Z, w);
  Hash := λ a w, match w with O => (Unw Panicked, 0) | S w => (Ok (Z.of_nat a), w) end;
|}.

(** [Del] hashes an entry to take it out of the index when it has already taken it out of the tree. If that
    hash panics the entry stays in the index: the backing has no items and says that it has this one. *)
Example ord_del_unwind_stale :
  let push := @Ordered.Push nat nat flaky_hash _ background [7] [] in
  let del := @Ordered.Del nat nat flaky_hash _ background [7] [] in
  let s1 := (push (Mach (ordered_new false true) Unlocked 2 [])).2 in
  let r := del s1 in
  let s3 := Mach (mb r.2) (mlk r.2) 5 [] in
  r.1 = Unwound Panicked ∧ mlk r.2 = Unlocked ∧
  (Ordered.Len s3).1 = Done 0%Z ∧
  (@Ordered.Exists_ nat nat flaky_hash _ background 7 [] s3).1 = Done (true, None).
Proof. vm_compute. repeat split. Qed.
