(* ===== verification/WitnessesBbolt.v ===== *)
(** The properties of the on-disk backing at concrete inputs, over the sorted list that obeys the laws of the
    store, and the runs that show what it does when an item's method fails or a Del falls between a commit
    and its count. *)

From stdpp Require Import gmap.
From S2P Require Import Prelude Errors Machine Core Options Contract Logic ContractFacts SeqOrder Interface.
From S2P Require Import Bolt BboltKeys Bbolt BboltStore BboltInv BboltOps BboltClose BboltFlush BboltReopen.
From S2P Require Import BboltFacts Witnesses.

#[local] Existing Instance ListStore.list_bolt.
#[local] Existing Instance ListStore.list_laws.

(** * A platform and items *)

(** Timers never fire; [json] is not used. *)
#[local] Instance runtime_nat : Runtime nat := {|
  flip := Nat.odd;
  expired := λ _, false;
  WithTimeout := λ _, background;
  Canceled := Foreign 5 [];
  Err := id;
  Group_Wait := λ _ w, (Ok None, w);
|}.

(** A ticket is urgent or not, and has a number. *)
Abbreviation ticket := (bool * nat)%type.
Definition rank (v : ticket) : Z := if v.1 then 2 else 1.

#[local] Instance json_ticket : Json nat ticket := {|
  json_Marshal := λ _ w, (Ok (inr (Foreign 6 [])), w);
  json_Unmarshal := λ _ w, (Ok (inr (Foreign 6 [])), w);
|}.
#[local] Instance item_ticket : Item nat ticket := {|
  zero := (false, 0);
  Less := λ a b w, (Ok (rank b <? rank a)%Z, w);
  Equal := λ a b w, (Ok (Bool.eqb a.1 b.1 && (a.2 =? b.2)), w);
  Priority := λ a w, (Ok (rank a), w);
  Hash := λ a w, (Ok (Z.of_nat a.2), w);
|}.
#[local] Instance pure_ticket : PureItem nat ticket.
Proof.
  by apply (pure_item (λ a b, (rank b <? rank a)%Z) (λ a b, Bool.eqb a.1 b.1 && (a.2 =? b.2)) rank
    (λ a, Z.of_nat a.2)).
Defined.
#[local] Instance laws_ticket : HashLaw nat ticket.
Proof. intros a b Hab. simpl in *. bool_to_prop. lia. Qed.
Lemma ticket_returns : @hash_returns nat ticket _ _.
Proof. intros v w. by exists w. Qed.

Lemma ticket_words : @prio_words nat ticket _ _.
Proof. intros [[] n]; vm_compute; split; congruence. Qed.

(** * A codec and the backings *)

Definition enc (v : ticket) : bytes := [rank v; Z.of_nat v.2].
Definition dec (d : bytes) : code nat (ticket + err) := λ w,
  match d with
  | [r; n] => (Ok (inl ((r =? 2)%Z, Z.to_nat n)), w)
  | _ => (Ok (inr (Foreign 7 [])), w)
  end.

Definition conf (p : bool) : Config nat ticket :=
  MkConfig (keyOf_fn p) p (Some (λ v w, (Ok (inl (enc v)), w))) (Some dec) None None background 10 1.

Lemma conf_decodes p : decodes (conf p) enc.
Proof.
  intros [r n] w. exists w. unfold decodeItem, wrap_codec. simpl. rewrite Nat2Z.id. by destruct r.
Qed.

Lemma conf_codec p : codec_ok (conf p) enc.
Proof.
  split.
  - intros v w d w' Hd. unfold encodeItem, wrap_codec in Hd. simpl in Hd. congruence.
  - intros v w v' w' Hd. destruct (conf_decodes p v w) as [w1 Hw]. congruence.
Qed.

Lemma conf_quiet p : quiet_hook (conf p).
Proof. done. Qed.

(** A running backing over a store with these entries. *)
Definition stored (p : bool) (l : list (SeqItem ticket)) (n : Z) : DB :=
  ListStore.MkStore (row p enc <$> l) n [] true.
Definition disk (p ix : bool) (l : list (SeqItem ticket)) (n : Z) : Backing nat ticket :=
  match newBacking (conf p) ix true (inl (stored p l n)) (None, 0) with
  | (Ok (inl b), _) => SetQueueLock b
  | _ => MkBacking (conf p) (stored p l n) None 0 0 0 0 NewSignal NewSignal false None fresh_staging fresh_shutdown
  end.

Definition entries_ok (p : bool) (l : list (SeqItem ticket)) (n : Z) : Prop :=
  ListStore.is_sorted (row p enc <$> l) = true ∧ Forall (entry_ok p n) l ∧ (0 ≤ n < two64)%Z.

Lemma disk_held p ix l n :
  entries_ok p l n → Held p (conf p) enc (zlen l) (empty_handed true) l n (disk p ix l n).
Proof.
  intros (Hs & Hl & Hn).
  assert (view_of (stored p l n) = Some (row p enc <$> l, n)) as Hv
    by (apply ListStore.view_begin; [by apply ListStore.is_sorted_sound|lia]).
  destruct (newBacking_total p (conf p) enc l n (stored p l n) ix true (None, 0) Hv) as (b & s & Hb).
  - intros tx _. by eexists _, _.
  - done.
  - intros _. split; [apply conf_decodes|apply ticket_returns].
  - pose proof (newBacking_result p (conf p) enc l n (stored p l n) ix true 0 Hv Hl Hn (conf_codec p)) as Hr.
    unfold disk. rewrite Hb in Hr |- *. destruct s. apply Hr.
Qed.

(** Three tickets, the second urgent. *)
Definition three : list (SeqItem ticket) :=
  [MkSeqItem 2 (true, 20); MkSeqItem 1 (false, 10); MkSeqItem 3 (false, 30)].

Lemma three_ok : entries_ok true three 3.
Proof.
  split; [vm_compute; reflexivity|]. split; [|unfold two64; lia].
  repeat constructor; simpl; try lia; apply ticket_words.
Qed.

Definition alone (b : Backing nat ticket) : mach (Backing nat ticket) nat := Mach b Unlocked 0 [].

(** * The properties *)

Definition holding (p : bool) (l : list (SeqItem ticket)) (n : Z) : hand → list (SeqItem ticket) → Z → Prop :=
  λ h l' n', h = empty_handed true ∧ only_taken (l, n) (l', n').

Lemma disk_outside p ix l n ctx :
  entries_ok p l n →
  outside p (conf p) enc (zlen l) (holding p l n) ctx (alone (disk p ix l n)).
Proof.
  intros Hl. split_and!; [done| |constructor]. eexists _, _, _. split; [|by apply disk_held].
  split; [done|]. reflexivity.
Qed.

Lemma disk_safe_witness :
  wp (exec disk_ops (ODel background [(false, 10)] []))
    (λ _ t, outside true (conf true) enc (zlen three) (holding true three 3) background t)
    (gone true (conf true) enc (zlen three) (holding true three 3) background)
    (alone (disk true true three 3)).
Proof.
  apply disk_safe; [apply conf_codec|apply conf_quiet| | |exact I|exact I|apply disk_outside, three_ok].
  - intros h l l' n [-> [Hs Hn]] Hsub. split; [reflexivity|]. split; [by etrans|exact Hn].
  - intros h l n [-> _]. reflexivity.
Defined.

Lemma disk_pop_witness :
  wp (Bbolt.Pop background 2 [])
    (λ '(out, x) t,
      (out = [] ∧ outside true (conf true) enc (zlen three) (holding true three 3) background t) ∨
      (x = None ∧ ∃ h l n k, holding true three 3 h l n ∧ delivery_order true l ∧
         k = Z.to_nat (Z.min 2 (zlen l - uncounted h)) ∧ 0 < k ≤ length l ∧ out = Item_ <$> take k l ∧
         removed true (conf true) enc (zlen three) (holding true three 3) background h (drop k l) n t))
    (gone true (conf true) enc (zlen three) (holding true three 3) background)
    (alone (disk true true three 3)).
Proof.
  apply disk_pop; [apply conf_codec|apply conf_quiet|apply ticket_returns|lia|apply ticket_words|apply disk_outside, three_ok].
Defined.

(** A backing with two more tickets in the buffer. *)
Definition staged (b : Backing nat ticket) (vs : list ticket) : Backing nat ticket :=
  lupd inflight_l (λ i, i + zlen vs)%Z (set_stg (set_buf (buf (stg b) ++ vs) (stg b)) b).

Lemma staged_held p ix l n vs :
  entries_ok p l n → Held p (conf p) enc (zlen l) (empty_handed true) l n (staged (disk p ix l n) vs).
Proof.
  intros Hl. apply held_buffered; [by apply disk_held|]. unfold disk.
  destruct (newBacking _ _ _ _ _) as [[[b|]|] s] eqn:Hb; try done. intros Hm.
  assert (maxSize b = 0%Z) as Hz; [|simpl in Hm; lia]. revert Hb. unfold newBacking. clear Hm.
  intros Hb. repeat (case_match; simplify_eq; try done).
Qed.

Lemma disk_flush_callers_witness :
  let b := staged (disk true true three 3) [(true, 40); (false, 50)] in
  let e := others_of disk_ops [OLen; OPop background 1 []] in
  wp (doFlush background) (λ _ t, flushed true (conf true) enc (zlen three) only_taken b 0 e three 3 t)
    (exited true (conf true) enc (zlen three) only_taken b 0 e three 3) (Mach b Unlocked 0 e).
Proof.
  apply disk_flush_callers; [apply conf_codec|apply conf_quiet|reflexivity|apply ticket_words| | |reflexivity|
    apply staged_held, three_ok].
  - repeat constructor. simpl. lia.
  - repeat constructor. apply ticket_returns.
Defined.

Lemma disk_flusher_witness :
  wp (flushLoop [ArmTick; ArmDone]) (λ _, flusher_ended true (conf true) enc (zlen three) only_taken)
    (λ u t, match u with
            | None => idle true (conf true) enc (zlen three) only_taken true t
            | Some u => u = Goexited ∧ flusher_ended true (conf true) enc (zlen three) only_taken t
            end) (alone (staged (disk true true three 3) [(true, 40)])).
Proof.
  apply disk_flusher; [apply _|apply conf_codec|reflexivity|apply ticket_words|].
  split_and!; [reflexivity|constructor|]. exists three, 3%Z. split; [exact I|apply staged_held, three_ok].
Defined.

(** Closed in an orderly way, and opened again with an index. *)
Definition flushed_out : Backing nat ticket :=
  let b := disk true false three 3 in set_stg (set_flusherDone true (stg b)) b.

Definition closed_disk : Backing nat ticket := (run (Bbolt.Close background []) flushed_out 0).1.

Lemma closed_disk_held : ∃ h, Held true (conf true) enc (zlen three) h three 3 closed_disk.
Proof.
  apply (wp_run (Bbolt.Close background []) (λ b, ∃ h, Held true (conf true) enc (zlen three) h three 3 b)).
  eapply wp_mono; [| |apply (wp_disk_Close true (conf true) enc (zlen three) (λ _ l n, l = three ∧ n = 3%Z))].
  - intros _ t (_ & (h & l & n & [-> ->] & Hb) & _). by exists h.
  - intros u t [(_ & (h & l & n & [-> ->] & Hb) & _) _]. by exists h.
  - split_and!; [reflexivity| |constructor]. exists (empty_handed false), three, 3%Z.
    split; [by split|]. apply held_over, disk_held, three_ok.
Qed.

Lemma closed_disk_runs :
  shutCommitted (shut closed_disk) = true ∧ view_of (db closed_disk) = None ∧ ListStore.plan (db closed_disk) = [].
Proof. vm_compute. repeat split. Qed.

#[local] Opaque closed_disk.

Lemma reopens d : ListStore.plan d = [] → opens (file_of d).
Proof.
  intros Hplan tx _. eexists _, _. split; [reflexivity|]. simpl. unfold ListStore.commit. by rewrite Hplan.
Qed.


Lemma disk_key_order_witness :
  ∃ k k', keyOf_fn true (true, 7) 9 0 = (Ok k, 0) ∧ keyOf_fn true (false, 8) 4 0 = (Ok k', 0) ∧
    bytes_lt k k' = disk_first true (true, 7) 9 (false, 8) 4 ∧ (k = k' → 9%Z = 4%Z) ∧
    length k = 16 ∧ length k' = length k.
Proof.
  apply (disk_key_order (W := nat) true (true, 7) 9 (false, 8) 4 0); try (intros _; apply ticket_words);
    unfold word, two64; lia.
Defined.

(** * Runs *)

(** The flusher's turn at a push, as a step of the others. *)
Definition flusher : Backing nat ticket → nat → Backing nat ticket * nat := run (flush_turn ArmFlush).

(** A buffer for ten. *)
Definition roomy (b : Backing nat ticket) : Backing nat ticket := set_maxBatch 10 b.

(** Two pushes, each of which waits for the flusher, and a pop: the urgent ticket comes out first. *)
Lemma disk_push_flush_pop :
  ((e1 ← Bbolt.Push background [(false, 1); (false, 2)] [];
   e2 ← Bbolt.Push background [(true, 3)] [];
   r ← Bbolt.Pop background 2 [];
   mret (e1, e2, r))
    (Mach (roomy (disk true true [] 0)) Unlocked 0 [flusher; flusher; flusher; flusher])).1 =
  Done (None, None, ([(true, 3); (false, 1)], None)).
Proof. vm_compute. reflexivity. Qed.

(** A Del between a commit and its count, on a queue without an index: the store has two rows that match,
    one of which is not counted. The count drops below zero, the pop that follows goes to sleep, and the
    flusher, which finds a count that is not zero, wakes nobody: a consumer sleeps and an item is there. *)
Definition del_in_window : Backing nat ticket → nat → Backing nat ticket * nat := λ b w,
  let '(b, w) := run (Bbolt.Del background [(false, 1)] []) b w in
  run (Bbolt.Pop background 1 []) b w.

Definition one : list (SeqItem ticket) := [MkSeqItem 1 (false, 1)].

Lemma disk_del_strands :
  let r := doFlush background (Mach (staged (disk false false one 1) [(false, 1); (false, 2)]) Unlocked 0
             [λ b w, (b, w); del_in_window]) in
  r.1 = Done () ∧ count (mb r.2) = 1%Z ∧ ListStore.rows (db (mb r.2)) = [(PutUint64 3, enc (false, 2))] ∧
  closed (mb r.2) = false ∧ HasWaiters (notEmpty (mb r.2)) = true ∧
  count (run (Bbolt.Del background [(false, 1)] [])
    (set_db (stored false [MkSeqItem 1 (false, 1); MkSeqItem 2 (false, 1); MkSeqItem 3 (false, 2)] 3)
       (disk false false one 1)) 0).1 = (-1)%Z.
Proof. vm_compute. repeat split. Qed.

(** Tickets whose [Hash] panics. *)
Definition rude_ticket : Item nat ticket := {|
  zero := (false, 0);
  Less := λ a b w, (Ok (rank b <? rank a)%Z, w);
  Equal := λ a b w, (Ok (Bool.eqb a.1 b.1 && (a.2 =? b.2)), w);
  Priority := λ a w, (Ok (rank a), w);
  Hash := λ a w, (Unw Panicked, w);
|}.

#[local] Instance rude_steady : @SteadyItem nat ticket rude_ticket.
Proof.
  by refine {| ltb := λ a b, (rank b <? rank a)%Z; eqb := λ a b, Bool.eqb a.1 b.1 && (a.2 =? b.2);
    prio := rank; hash := λ a, Z.of_nat a.2 |}; simpl; congruence.
Defined.

(** The panic of [Hash] in the middle of a commit reaches nobody: the flusher blames the item, the push that
    waits has the error, nothing of the batch is in the store and its room is free. *)
Lemma disk_flush_item_panics :
  let r := doFlush (Item0 := rude_ticket) background
             (Mach (staged (disk false true [] 0) [(false, 1); (false, 2)]) Unlocked 0 []) in
  r.1 = Done () ∧ mlk r.2 = Unlocked ∧
  settled (stg (mb r.2)) !! 0 = Some (Some (Errorf "the Item's method panicked" [Sentinel ErrItemFailed])) ∧
  ListStore.rows (db (mb r.2)) = [] ∧ inflight (mb r.2) = 0%Z ∧ closed (mb r.2) = false.
Proof. vm_compute. repeat split. Qed.

(** A Pop whose unwind comes from [Hash]: the row is gone, the lock is free, the item was not returned, and
    the count still has it. The next Pop fails instead of waiting. *)
Lemma disk_pop_unwind_stale :
  let pop := Bbolt.Pop (Item0 := rude_ticket) background 1 [] in
  let r := pop (Mach (disk false true one 1) Unlocked 0 []) in
  r.1 = Unwound Panicked ∧ mlk r.2 = Unlocked ∧ ListStore.rows (db (mb r.2)) = [] ∧ count (mb r.2) = 1%Z ∧
  (pop r.2).1 = Done ([], Some (Sentinel ErrEmpty)).
Proof. vm_compute. repeat split. Qed.
